(* ===== verification/_CoqProject ===== *)
-Q . S2P
Prelude.v
Slices.v
MathBits.v
FiatP256.v
P256Prime.v
P256NoRoot.v
P256Field.v
P256Ops.v
P256Invert.v
P256Point.v
P256Scalar.v
P256Curve.v
P256Group.v
EcdsaP256.v
Sha2.v
Kdf.v
CertSlot.v
Provenance.v
CertVerify.v
Identity.v
SelfHash.v
Genesis.v
GenesisSpec.v
Idempotent.v
Boot.v
GoText.v
Signet.v
Diviner.v
BuildID.v
Linker.v
Asn1.v
TpmWire.v
Tpm2.v
Attest.v
Enclave.v
SysBits.v
MSpan.v
Sweep.v
HeapClean.v
HeapAlloc.v
HeapScan.v
HeapLife.v
StackPool.v
StackClean.v
StackLife.v
StackRun.v
