(* ===== verification/Prelude.v ===== *)
(** * JanOS verification development

    The repository is a fork of the Go toolchain (the "colonel", src/colonel).  Almost all
    of it is upstream Go; the program's own logic is what the fork adds: every executable
    carries a certificate chain and refuses to boot when the chain does not fit, every
    goroutine carries a provenance and an identity with a key pair, and every identity has
    a classified self.  This development models those additions, in Go's own terms:
    machine integers are [Z] with the wrap-around written out, byte slices are [list Z],
    an array that the code updates in place is passed through, a load outside a slice or a
    nil map entry is the result [Panic] or [None], and runtime.throw is a [Fail].

    ** The parts and how they call each other

    At schedinit (Boot.v, runtime/proc.go) the process draws its instance identifier
    (Provenance.v), reads and hashes its own executable (SelfHash.v over Sha2.v), checks
    the chain in its certificate slot against that hash and the embedded keys (CertSlot.v
    for the format, CertVerify.v for the policy, EcdsaP256.v for the signatures) and mints
    the root key and main's identity (Identity.v over Kdf.v).  Afterwards goroutines are
    born by [go], which copies the provenance, and by genesis.SparkAs, which mints a new
    identity; Genesis.v has the traits, phases and cleanups of an identity, Idempotent.v
    the once-per-identity primitive with its locks.

    The other half is the toolchain.  A signet file names the keys of a build: a ceremony
    or mksignet prints it through two signing backends (Diviner.v), the linker parses and
    validates it (Signet.v over the text functions of GoText.v).  After assembling an
    image the linker copies its own keys into it and, when a diviner is given, hashes the
    image with slot, keys, build ID and code signature masked (BuildID.v), has the hash
    signed, and writes the chain and the keys (Linker.v).  The contract between the halves
    is that this hash is the one the process computes of its own file at boot.

    ** The files

    - Prelude.v, Slices.v: machine words, the [outcome] and [option] monads with their
      notations, [for_range] (a Go counting loop) and its induction rule, slices, the hint
      database [janos], and the lemmas on byte lists shared by all components.
    - MathBits.v: Add64, Sub64, Mul64 and Len64 of math/bits.
    - FiatP256.v, P256Field.v, P256Ops.v, P256Invert.v, P256Point.v: the P-256 field and
      points of runtime/janos_p256_*.go.  P256Ops.v is the interface (the classes of field
      operations and [FieldRel]) that the inversion chain and the point formulas are
      written against: the code is their instance at limbs, its meaning the instance at
      [Zmod p256].  P256Prime.v, P256NoRoot.v and P256Curve.v are mathematics: the moduli
      are prime, the curve has no point of order two, and the projective formulas compute
      chord-and-tangent addition.  P256Group.v joins the two: the limb code refines the
      group law.
    - P256Scalar.v, EcdsaP256.v: arithmetic modulo the group order, and the verifier, which
      accepts exactly the signatures of the textbook equation.
    - Sha2.v: internal/runtime/janos_hash; one Section for SHA-256 and SHA-512 over a record
      of parameters [sha_params], with the padding-and-compression specification [fips_hash].
    - Kdf.v: HMAC, HKDF, key derivation and ECDH of runtime/janos_identity.go.
    - CertSlot.v: cmd/janos/certslot against the decoder in janos_cert_verify.go.
    - Provenance.v: runtime/janos_provenance.go; the random generator is a list of words.
    - CertVerify.v: janos_cert_verify.go, janos_cert_revocation.go, janos_certificate.go and
      the gate of janos_cert_slot.go, over the interface [SigScheme] (a verifier and a
      digest) with the law class [SigSchemeOk]; [runtime_sig] is the runtime's own.
    - Identity.v: the identity blocks, over the interface [KeyScheme]/[KeySchemeOk]; steps
      are [step], reachable states [reachable].
    - SelfHash.v: janos_selfhash*.go: canonical form, hash and the four platform readers.
    - Genesis.v: runtime/genesis; the values of type [any] come from the class [GoTypes].
    - Idempotent.v: sync/janos_idempotent.go as a machine of concurrent calls.
    - Boot.v: the calls of schedinit in their order.
    - GoText.v: what the tools use of encoding/hex, strconv, utf8, unicode, strings, fmt.
    - Signet.v: cmd/janos/signet.  A file is the bytes read, or the failure to open it.
    - Diviner.v: cmd/janos/diviner, diviner/mockdiviner, ceremony and mksignet, over the
      class [CryptoLib] of the operations of crypto/ecdsa and crypto/elliptic with their
      documented laws [CryptoLibOk]; a backend is a [Diviner], what it answers in one run.
    - BuildID.v: FindAndHash of cmd/internal/buildid, over the class [ObjectFormats] of the
      two parsers that find what is masked.
    - Linker.v: janos_diviner.go and janos_inherit_ok.go of cmd/link, and the theorems
      that join them to BuildID.v, CertSlot.v, SelfHash.v and CertVerify.v.
    - Asn1.v: what cmd/janos/diviner/gcpkms uses of encoding/asn1, its decoders of keys and
      signatures, and the DER decoder of internal/secureenclave.
    - TpmWire.v: the wire format of internal/tpm2, with a reader of the TPM 2.0 command
      layout on the other side.
    - Tpm2.v: the driver of internal/tpm2 over the class [Transport].  [TpmDevice] is a
      device that executes commands, [TpmOk] what it promises, [store_step] the abstract
      store of hardware keys that the driver implements on top of it.
    - Attest.v: the Linux and Windows transports, internal/hwkey and package attest; the
      operating system is what its calls answer, TPM Base Services are the class [Tbs].
    - Enclave.v: internal/secureenclave on a Mac and the Darwin provider of internal/hwkey,
      over the class [Security] of Apple's frameworks.  The objects and C strings a process
      owns are a map and a count ([process]); a release of what is not owned is undefined
      ([None]).  [se_spec] gives the answers without the objects, [SecurityOk] what the
      enclave promises, [keys_step] the store of keys that results.
    - SysBits.v, MSpan.v: the bit counting of internal/runtime/sys; heap spans, their
      bitmaps and the search for a free slot (runtime/mbitmap.go, mgcmark_greenteagc.go,
      malloc.go, mheap.go).  Memory is a function from addresses to bytes.
    - Sweep.v, HeapClean.v: [sweep] of runtime/mgcsweep.go with the clearing of
      janos_sanitize.go, and what it does to every byte of a span.
    - HeapAlloc.v, HeapLife.v: fresh spans, allocation, special records; the life of a span
      as a machine ([perform], [enabled], [reached]) of these operations.
    - StackPool.v: the stacks of goroutines (runtime/stack.go): pools per order, caches per
      P, large stacks, and [stackfree] with the clearing of janos_sanitize.go.  The free
      lists are linked through the free stacks, so they live in the memory they manage.
    - StackClean.v, StackLife.v, StackRun.v: the invariant [core_ok] that relates that memory
      to lists of addresses, what each operation does to it, and the pools as a machine
      ([act], [allowed], [stack_reached]).

    ** What the theorems show

    Arithmetic: every limb routine computes the operation modulo its prime and keeps its
    range; inversion, point addition, scalar multiplication and decoding compute the group
    law; the verifier is exact (EcdsaP256).  Hashes and keys: streaming and one-shot hashing
    agree and are FIPS 180-4; HMAC and HKDF are their specifications; ECDH agrees on both
    sides and rejects bad points.  Certificates: what the linker encodes the runtime
    decodes; the chain walk accepts exactly the acceptable chains; the gate throws in
    exactly the documented cases; the epoch and revocation limits of the 24-bit field.
    Self-hash: the hash does not depend on the slot's contents; the readers hash what they
    read or leave the provenance alone; no ELF input panics, some Mach-O headers do.
    Identities: the state invariant, the flow of authority along [go] and SparkAs,
    derivation on every branch, finalizers.  Selves: atomic publication, exact trait
    lookup, cleanup order and termination.  Idempotent: at most once per identity, and no
    deadlock between its two lock orders.  Boot: what a successful schedinit means for
    every goroutine of the process.  Signets: field widths and what validation accepts,
    what a ceremony prints is read back, what mksignet prints can be used.  Sealing: the
    streaming hash is the hash of the masked image for every buffer size; the pass changes
    nothing or exactly three regions; the signed digest is the runtime's canonical hash;
    a process started from a sealed image passes the gate, and one linked by a divined
    linker without a diviner does not.  Hardware keys: every command is understood as
    meant; any sequence of calls behaves as a store of keys and leaves only the storage
    key loaded; no answer of a device leaves a key loaded or, oversized signatures apart,
    panics; the DER decoders agree; what Probe and Available answer; a process owns exactly
    its open Secure Enclave keys, whatever the frameworks answer.  Memory: in every
    reachable state of a heap span a slot that was handed out and is free again is zero,
    allocations that ask for zeroed memory get it, and nothing throws; a stack that was
    freed is zero beyond the word that links it, no stack is handed out twice, and the
    stacks in use keep their contents.

    ** Bounds and fuel

    Loops over a slice recurse on it or run by [for_range] with the source's bound.
    [zero_all_loop] and [quote_end] get the slice's length as fuel, and every turn advances
    the index.  [macho_loop] recurses on the command count and [elf_scan] on the section
    count, read from the file.  [Block]'s fuel is the number of chunks.  The drains of Genesis.v take fuel,
    and a theorem gives a bound that suffices when the cleanups register finitely many
    others.  The outer loop of FindAndHash gets one turn per byte of the file and one
    more, its inner loop one per byte of the buffer, [ReadFull] one per byte wanted, the
    trimming loops one per byte of the string and [fmt_digits] the 20 digits of a uint64.
    [parseBase128Int] has fuel for the five bytes the code reads and the one it refuses,
    [oid_rest] one per byte.  [skip_full_words] has fuel for every slot of the span,
    [sweep_specials] one turn per record, [memclr_chunks] one per chunk.  A cache is filled
    in at most 8 of [refill_loop]'s 16 turns; [release_loop] and [clear_loop] get one per
    stack the cache counts.  The theorem on the key store needs room for two transient
    objects; the TPM specification guarantees three.

    ** Not modelled

    Upstream Go (compiler, scheduler, collector, standard library) except the few
    functions the additions rest on.  Of the heap, spans with pointers (their heap bitmap),
    tiny blocks, the page allocator and the reachability that the marks stand for: marking
    is a step that may mark any allocated object.  Of goroutine stacks, their growth and
    copying, and the debug modes that take stacks from the system.  Of the build ID
    package, Rewrite and the object-file parsers behind [ObjectFormats]; where both sides
    of the contract parse a format, their agreement is a hypothesis ([formats_agree]).  Of
    the KMS backend, HTTP, JSON and PEM around a remote service.  Of
    internal/secureenclave, what Apple's frameworks do, and a failing malloc; of TPM Base Services
    on Windows, what they do.  quantum/identity.go is excluded from every build.  In
    Genesis.v the collector is a step that may take what nothing points to. *)

From Stdlib Require Import ZArith Lia List Bool.
Import ListNotations.
#[global] Open Scope Z_scope.

(** ** Machine words *)

(** The literal powers of two that Go's fixed-width integers wrap at.  They are
    notations, not constants, so that [lia] sees linear goals. *)
Notation "'W8'" := 256 (only parsing) : Z_scope.
Notation "'W16'" := 65536 (only parsing) : Z_scope.
Notation "'W32'" := 4294967296 (only parsing) : Z_scope.
Notation "'W63'" := 9223372036854775808 (only parsing) : Z_scope.
Notation "'W64'" := 18446744073709551616 (only parsing) : Z_scope.

(** Conversions [uint8(z)], [uint32(z)], ...: they also express the wrap-around
    of the arithmetic of those types. *)
Definition u8 (z : Z) : Z := z mod W8.
Definition u16 (z : Z) : Z := z mod W16.
Definition u32 (z : Z) : Z := z mod W32.
Definition u64 (z : Z) : Z := z mod W64.

Definition is_byte (x : Z) : Prop := 0 <= x < W8.
Definition is_u32 (x : Z) : Prop := 0 <= x < W32.
Definition is_u64 (x : Z) : Prop := 0 <= x < W64.

(** A Go byte slice whose elements are in range. *)
Definition bytes (l : list Z) : Prop := Forall is_byte l.

(** Go's complement [^x] at 32 and 64 bits. *)
Definition not32 (x : Z) : Z := Z.lxor x (W32 - 1).
Definition not64 (x : Z) : Z := Z.lxor x (W64 - 1).

Create HintDb janos discriminated.
Create Rewrite HintDb janos.
Ltac unword := unfold is_byte, is_u32, is_u64 in *.

Lemma u64_range z : is_u64 (u64 z).
Proof. apply Z.mod_pos_bound; lia. Qed.
Lemma u32_range z : is_u32 (u32 z).
Proof. apply Z.mod_pos_bound; lia. Qed.
Lemma u8_range z : is_byte (u8 z).
Proof. apply Z.mod_pos_bound; lia. Qed.
Lemma u64_small z : is_u64 z -> u64 z = z.
Proof. apply Z.mod_small. Qed.
Lemma u32_small z : is_u32 z -> u32 z = z.
Proof. apply Z.mod_small. Qed.
Lemma u8_small z : is_byte z -> u8 z = z.
Proof. apply Z.mod_small. Qed.
#[export] Hint Resolve u64_range u32_range u8_range : janos.
#[export] Hint Rewrite u64_small u32_small u8_small
  using (unword; lia) : janos.

(** ** Bit-level facts *)

(** The bit-or of a value below [2^k] and a multiple of [2^k] is their sum. *)
Lemma lor_add_high a b k :
  0 <= k -> 0 <= b < 2 ^ k -> Z.lor (a * 2 ^ k) b = a * 2 ^ k + b.
Proof.
  intros Hk Hb.
  assert (Hland : Z.land (a * 2 ^ k) b = 0).
  { apply Z.bits_inj'; intros i Hi.
    rewrite Z.land_spec, Z.bits_0, Z.mul_pow2_bits by lia.
    destruct (Z.ltb_spec i k).
    - rewrite Z.testbit_neg_r by lia; reflexivity.
    - rewrite <- (Z.mod_small b (2 ^ k)), Z.mod_pow2_bits_high by lia.
      apply andb_false_r. }
  rewrite <- Z.lxor_lor by exact Hland.
  symmetry; apply Z.add_nocarry_lxor; exact Hland.
Qed.

Lemma lor_add_low a b k :
  0 <= k -> 0 <= b < 2 ^ k -> Z.lor b (a * 2 ^ k) = b + a * 2 ^ k.
Proof. intros; rewrite Z.lor_comm, lor_add_high by assumption; lia. Qed.

(** A word's top bit, extracted by a shift. *)
Lemma shiftr_word_top x k :
  0 <= k -> 0 <= x < 2 * 2 ^ k ->
  (Z.shiftr x k = 0 /\ x < 2 ^ k) \/ (Z.shiftr x k = 1 /\ 2 ^ k <= x).
Proof.
  intros Hk Hx; rewrite Z.shiftr_div_pow2 by lia.
  destruct (Z_lt_le_dec x (2 ^ k)) as [H|H].
  - left; split; [apply Z.div_small; lia|assumption].
  - right; split; [|assumption].
    symmetry; apply (Z.div_unique x (2 ^ k) 1 (x - 2 ^ k)); lia.
Qed.

Lemma not_word x k : 0 <= k -> 0 <= x < 2 ^ k -> Z.lxor x (2 ^ k - 1) = 2 ^ k - 1 - x.
Proof.
  intros Hk Hx.
  replace (2 ^ k - 1) with (Z.ones k) by (rewrite Z.ones_equiv; lia).
  rewrite Z.sub_nocarry_ldiff.
  - apply Z.bits_inj'; intros i Hi.
    rewrite Z.lxor_spec, Z.ldiff_spec.
    destruct (Z.ltb_spec i k).
    + rewrite Z.ones_spec_low by lia. destruct (Z.testbit x i); reflexivity.
    + rewrite Z.ones_spec_high by lia.
      rewrite <- (Z.mod_small x (2 ^ k)), Z.mod_pow2_bits_high by lia. reflexivity.
  - apply Z.bits_inj'; intros i Hi.
    rewrite Z.ldiff_spec, Z.bits_0.
    destruct (Z.ltb_spec i k).
    + rewrite Z.ones_spec_low by lia. apply andb_false_r.
    + rewrite <- (Z.mod_small x (2 ^ k)), Z.mod_pow2_bits_high by lia. reflexivity.
Qed.

Lemma not64_eq x : is_u64 x -> not64 x = W64 - 1 - x.
Proof. intros H; apply (not_word x 64); [lia|exact H]. Qed.
Lemma not32_eq x : is_u32 x -> not32 x = W32 - 1 - x.
Proof. intros H; apply (not_word x 32); [lia|exact H]. Qed.

Lemma land_mask x k : 0 <= k -> Z.land x (2 ^ k - 1) = x mod 2 ^ k.
Proof.
  intros; replace (2 ^ k - 1) with (Z.ones k) by (rewrite Z.ones_equiv; lia).
  apply Z.land_ones; assumption.
Qed.

(** ** Byte strings as numbers *)

Fixpoint le_val (l : list Z) : Z :=
  match l with [] => 0 | b :: l => b + W8 * le_val l end.

Fixpoint le_bytes (n : nat) (z : Z) : list Z :=
  match n with O => [] | S n => z mod W8 :: le_bytes n (z / W8) end.

Definition be_val (l : list Z) : Z := le_val (rev l).
Definition be_bytes (n : nat) (z : Z) : list Z := rev (le_bytes n z).

Definition pow256 (n : nat) : Z := W8 ^ Z.of_nat n.

Lemma pow256_S n : pow256 (S n) = W8 * pow256 n.
Proof. unfold pow256; rewrite Nat2Z.inj_succ, Z.pow_succ_r by lia; reflexivity. Qed.

Lemma pow256_pos n : 0 < pow256 n.
Proof. apply Z.pow_pos_nonneg; lia. Qed.

Lemma pow256_add n m : pow256 (n + m) = pow256 n * pow256 m.
Proof. unfold pow256; rewrite Nat2Z.inj_add, Z.pow_add_r by lia; reflexivity. Qed.

Lemma length_le_bytes n z : length (le_bytes n z) = n.
Proof. revert z; induction n; intros z; cbn; [|rewrite IHn]; reflexivity. Qed.

Lemma length_be_bytes n z : length (be_bytes n z) = n.
Proof. unfold be_bytes; rewrite length_rev; apply length_le_bytes. Qed.

Lemma bytes_le_bytes n z : bytes (le_bytes n z).
Proof.
  revert z; induction n; intros z; cbn; constructor; [|apply IHn].
  apply Z.mod_pos_bound; lia.
Qed.

Lemma bytes_rev l : bytes l -> bytes (rev l).
Proof. apply Forall_rev. Qed.

Lemma bytes_be_bytes n z : bytes (be_bytes n z).
Proof. apply bytes_rev, bytes_le_bytes. Qed.

Lemma bytes_app l k : bytes (l ++ k) <-> bytes l /\ bytes k.
Proof. apply Forall_app. Qed.

Lemma bytes_firstn n l : bytes l -> bytes (firstn n l).
Proof.
  intros H; rewrite <- (firstn_skipn n l) in H; apply bytes_app in H; tauto.
Qed.

Lemma bytes_skipn n l : bytes l -> bytes (skipn n l).
Proof.
  intros H; rewrite <- (firstn_skipn n l) in H; apply bytes_app in H; tauto.
Qed.

Lemma bytes_nth l i : bytes l -> is_byte (nth i l 0).
Proof.
  intros H; destruct (Nat.lt_ge_cases i (length l)).
  - eapply Forall_nth; eauto.
  - rewrite nth_overflow by assumption; unword; lia.
Qed.
#[export] Hint Resolve bytes_le_bytes bytes_be_bytes bytes_firstn bytes_skipn bytes_rev
  bytes_nth : janos.

Lemma le_val_range l : bytes l -> 0 <= le_val l < pow256 (length l).
Proof.
  induction 1 as [|b l Hb _ IH]; cbn [le_val length].
  - cbn; lia.
  - rewrite pow256_S; unword; nia.
Qed.

Lemma be_val_range l : bytes l -> 0 <= be_val l < pow256 (length l).
Proof. intros H; unfold be_val; rewrite <- length_rev; apply le_val_range, bytes_rev, H. Qed.

Lemma le_val_bytes n z : le_val (le_bytes n z) = z mod pow256 n.
Proof.
  revert z; induction n; intros z; cbn [le_bytes le_val].
  - symmetry; apply Z.mod_1_r.
  - pose proof (pow256_pos n); rewrite IHn, pow256_S, Z.rem_mul_r by lia; reflexivity.
Qed.

Lemma be_val_bytes n z : be_val (be_bytes n z) = z mod pow256 n.
Proof. unfold be_val, be_bytes; rewrite rev_involutive; apply le_val_bytes. Qed.

Lemma le_bytes_val l : bytes l -> le_bytes (length l) (le_val l) = l.
Proof.
  induction 1 as [|b l Hb _ IH]; cbn [le_val length le_bytes]; [reflexivity|].
  unword; rewrite (Z.mul_comm W8), Z_mod_plus_full, Z_div_plus_full by lia.
  rewrite Z.mod_small, Z.div_small, Z.add_0_l, IH by lia; reflexivity.
Qed.

Lemma be_bytes_val l : bytes l -> be_bytes (length l) (be_val l) = l.
Proof.
  intros H; unfold be_bytes, be_val; rewrite <- length_rev, le_bytes_val.
  - apply rev_involutive.
  - apply bytes_rev, H.
Qed.

Lemma le_val_app l k : le_val (l ++ k) = le_val l + pow256 (length l) * le_val k.
Proof.
  induction l as [|b l IH]; cbn [le_val length app].
  - change (pow256 0) with 1; lia.
  - rewrite IH, pow256_S; ring.
Qed.

Lemma be_val_app l k : be_val (l ++ k) = be_val l * pow256 (length k) + be_val k.
Proof. unfold be_val; rewrite rev_app_distr, le_val_app, length_rev; ring. Qed.

Lemma le_bytes_app n m x y :
  0 <= x < pow256 n -> le_bytes (n + m) (x + pow256 n * y) = le_bytes n x ++ le_bytes m y.
Proof.
  revert x; induction n; intros x Hx; cbn [Nat.add le_bytes app].
  - change (pow256 0) with 1 in *; f_equal; lia.
  - rewrite pow256_S in *.
    replace (x + W8 * pow256 n * y) with (x + pow256 n * y * W8) by ring.
    rewrite Z_mod_plus_full, Z_div_plus_full by lia; rewrite IHn; [reflexivity|].
    split; [apply Z.div_pos; lia|apply Z.div_lt_upper_bound; lia].
Qed.

(** Equal-length byte strings are equal iff their values are. *)
Lemma be_val_inj l k :
  bytes l -> bytes k -> length l = length k -> be_val l = be_val k -> l = k.
Proof.
  intros Hl Hk Hlen Hv.
  rewrite <- (be_bytes_val l), <- (be_bytes_val k), Hlen, Hv by assumption; reflexivity.
Qed.

Lemma le_bytes_mod n z : le_bytes n (z mod pow256 n) = le_bytes n z.
Proof.
  rewrite <- le_val_bytes, <- (length_le_bytes n z) at 1.
  apply le_bytes_val, bytes_le_bytes.
Qed.

(** ** Slices as lists: element update, loops over indices *)

(** [l[i] = x] for an index in range. *)
Fixpoint upd {A} (l : list A) (i : nat) (x : A) : list A :=
  match l, i with
  | [], _ => []
  | _ :: l, O => x :: l
  | y :: l, S i => y :: upd l i x
  end.

Lemma length_upd {A} (l : list A) i x : length (upd l i x) = length l.
Proof. revert i; induction l; destruct i; cbn; auto. Qed.

Lemma nth_upd {A} (l : list A) i j x d :
  (i < length l)%nat -> nth j (upd l i x) d = if Nat.eqb j i then x else nth j l d.
Proof.
  revert i j; induction l as [|y l IH]; intros i j Hi; [cbn in Hi; lia|].
  destruct i, j; cbn in *; try reflexivity. apply IH; lia.
Qed.

Lemma bytes_upd l i x : bytes l -> is_byte x -> bytes (upd l i x).
Proof.
  intros H Hx; revert i; induction H; destruct i; cbn; constructor; auto. apply IHForall.
Qed.

(** A loop [for i := a; i < a+n; i++] with an accumulated state. *)
Definition for_range {St} (a n : nat) (body : nat -> St -> St) (s : St) : St :=
  fold_left (fun s i => body i s) (seq a n) s.

Lemma for_range_0 {St} a body (s : St) : for_range a 0 body s = s.
Proof. reflexivity. Qed.

Lemma for_range_S {St} a n body (s : St) :
  for_range a (S n) body s = body (a + n)%nat (for_range a n body s).
Proof. unfold for_range; rewrite seq_S, fold_left_app; reflexivity. Qed.

(** Rule of the invariant for such a loop. *)
Lemma for_range_ind {St} (I : nat -> St -> Prop) a n body s :
  I a s -> (forall i s, (a <= i < a + n)%nat -> I i s -> I (S i) (body i s)) ->
  I (a + n)%nat (for_range a n body s).
Proof.
  intros H0 Hstep; induction n.
  - rewrite Nat.add_0_r; exact H0.
  - rewrite for_range_S, Nat.add_succ_r; apply Hstep; [lia|].
    apply IHn; intros; apply Hstep; [lia|assumption].
Qed.

(** ** Constant-time comparison

    [for i := range a { diff |= a[i] ^ b[i] }] *)
Definition ct_diff (a b : list Z) : Z :=
  fold_left (fun d '(x, y) => Z.lor d (Z.lxor x y)) (combine a b) 0.

Lemma ct_diff_acc d l :
  fold_left (fun d '(x, y) => Z.lor d (Z.lxor x y)) l d = 0 <->
  d = 0 /\ Forall (fun '(x, y) => x = y) l.
Proof.
  revert d; induction l as [|[x y] l IH]; intros d; cbn.
  - intuition constructor.
  - rewrite IH, Z.lor_eq_0_iff, Z.lxor_eq_0_iff.
    split; [intros [[? ?] ?]; auto|intros [? H]; inversion H; auto].
Qed.

Lemma ct_diff_0 a b : length a = length b -> ct_diff a b = 0 <-> a = b.
Proof.
  unfold ct_diff; rewrite ct_diff_acc; intros Hlen; split.
  - intros [_ H]; revert b Hlen H; induction a; destruct b; intros Hlen H;
      inversion Hlen; [reflexivity|]. inversion H; subst; f_equal; auto.
  - intros ->; split; [reflexivity|]; clear; induction b; cbn; auto.
Qed.

(** Bits above the eighth do not exist in a byte, and bitwise operations keep it so. *)
Lemma byte_ext_bound x : is_byte x <-> 0 <= x /\ Z.shiftr x 8 = 0.
Proof.
  unword; rewrite Z.shiftr_div_pow2 by lia; change (2 ^ 8) with W8; split.
  - intros; rewrite Z.div_small; lia.
  - intros [H E]; split; [assumption|]. apply Z.div_small_iff in E; lia.
Qed.

Lemma byte_lor x y : is_byte x -> is_byte y -> is_byte (Z.lor x y).
Proof.
  rewrite !byte_ext_bound, Z.shiftr_lor, Z.lor_nonneg; intros [? ->] [? ->]; auto.
Qed.

Lemma byte_lxor x y : is_byte x -> is_byte y -> is_byte (Z.lxor x y).
Proof.
  rewrite !byte_ext_bound, Z.shiftr_lxor, Z.lxor_nonneg; intros [? ->] [? ->]; tauto.
Qed.
#[export] Hint Resolve byte_lor byte_lxor bytes_upd : janos.

Lemma ct_diff_byte a b : bytes a -> bytes b -> is_byte (ct_diff a b).
Proof.
  intros Ha Hb; unfold ct_diff.
  assert (H : Forall (fun '(x, y) => is_byte x /\ is_byte y) (combine a b)).
  { apply Forall_forall; intros [x y] Hin; split.
    - apply in_combine_l in Hin; eapply Forall_forall in Ha; eauto.
    - apply in_combine_r in Hin; eapply Forall_forall in Hb; eauto. }
  assert (H0 : is_byte 0) by (unword; lia); revert H0; generalize 0.
  induction H as [|[x y] l [Hx Hy] _ IH]; intros d Hd; cbn; [exact Hd|].
  apply IH; auto with janos.
Qed.

(** The source's collapse of a byte to "is it zero":
    [d |= d >> 4; d |= d >> 2; d |= d >> 1; (d & 1) ^ 1]. *)
Definition byte_is_zero (d : Z) : Z :=
  let d := Z.lor d (Z.shiftr d 4) in
  let d := Z.lor d (Z.shiftr d 2) in
  let d := Z.lor d (Z.shiftr d 1) in
  Z.lxor (Z.land d 1) 1.

(** Exhaustive check of a decidable fact about bytes. *)
Lemma byte_exhaust (f : Z -> bool) :
  forallb (fun n => f (Z.of_nat n)) (seq 0 256) = true -> forall x, is_byte x -> f x = true.
Proof.
  intros H x Hx; rewrite forallb_forall in H; unword.
  rewrite <- (Z2Nat.id x) by lia; apply H, in_seq; lia.
Qed.

Lemma byte_is_zero_spec d : is_byte d -> byte_is_zero d = if d =? 0 then 1 else 0.
Proof.
  intros Hd; apply Z.eqb_eq.
  apply (byte_exhaust (fun d => byte_is_zero d =? (if d =? 0 then 1 else 0)));
    [vm_compute; reflexivity|exact Hd].
Qed.

(** Appending one more byte to a big-endian prefix. *)
Lemma firstn_S_nth {A} (l : list A) i d :
  (i < length l)%nat -> firstn (S i) l = firstn i l ++ [nth i l d].
Proof.
  revert i; induction l as [|x l IH]; intros i Hi; cbn in Hi; [lia|].
  destruct i; cbn; [reflexivity|]. f_equal; apply IH; lia.
Qed.

Lemma be_val_firstn_S l i :
  (i < length l)%nat -> be_val (firstn (S i) l) = W8 * be_val (firstn i l) + nth i l 0.
Proof. intros Hi; rewrite (firstn_S_nth l i 0), be_val_app by exact Hi; cbn -[Z.mul]; change (pow256 1) with W8; lia. Qed.

(** Consecutive elements picked by index. *)
Lemma map_nth_seq {A} (l : list A) d i n :
  (i + n <= length l)%nat -> map (fun j => nth (i + j) l d) (seq 0 n) = firstn n (skipn i l).
Proof.
  intros H; apply (nth_ext _ _ d d).
  - rewrite length_map, length_seq, length_firstn, length_skipn; lia.
  - intros j Hj; rewrite length_map, length_seq in Hj.
    rewrite nth_firstn, nth_skipn; destruct (Nat.ltb_spec j n); [|lia].
    rewrite (nth_indep _ d ((fun j => nth (i + j) l d) 0%nat)) by (rewrite length_map, length_seq; lia).
    rewrite (map_nth (fun j => nth (i + j) l d) (seq 0 n) 0%nat j), seq_nth by exact Hj; reflexivity.
Qed.

(** A 32-byte string as four eight-byte words. *)
Lemma split_32 {A} (l : list A) :
  length l = 32%nat ->
  l = firstn 8 l ++ firstn 8 (skipn 8 l) ++ firstn 8 (skipn 16 l) ++ firstn 8 (skipn 24 l).
Proof.
  intros H; do 32 (destruct l as [|? l]; [discriminate|]); destruct l; [reflexivity|discriminate].
Qed.

(** The source's bit extraction [(x >> i) & 1 == 1]. *)
Lemma bit_test x i : (Z.land (Z.shiftr x (Z.of_nat i)) 1 =? 1) = Z.testbit x (Z.of_nat i).
Proof.
  change (Z.land (Z.shiftr x (Z.of_nat i)) 1) with (Z.land (Z.shiftr x (Z.of_nat i)) (2 ^ 1 - 1)).
  rewrite land_mask, Z.testbit_odd, Zmod_odd by lia.
  destruct (Z.odd _); reflexivity.
Qed.
