(* ===== verification/Slices.v ===== *)
(** * Slices: Go slices, panics and error results

    The parts of Go's semantics the byte-level components share: slice expressions and
    index expressions that panic when out of range, [copy], big- and little-endian loads
    and stores written with shifts, and a result type for functions that return an
    error or panic. *)

From Stdlib Require Import String ZArith Lia List Bool.
From S2P Require Import Prelude.
Import ListNotations.

(** ** Results *)

(** A call returns a value, returns an error of type [E], or panics. *)
Inductive outcome (E A : Type) : Type :=
| Ret (a : A)
| Fail (e : E)
| Panic.
Arguments Ret {E A} a.
Arguments Fail {E A} e.
Arguments Panic {E A}.

Definition bind {E A B : Type} (m : outcome E A) (k : A -> outcome E B) : outcome E B :=
  match m with Ret a => k a | Fail e => Fail e | Panic => Panic end.

Declare Scope outcome_scope.
Delimit Scope outcome_scope with outcome.
Notation "'let*' x ':=' m 'in' k" := (bind m (fun x => k))
  (at level 10, x pattern, m at level 100, k at level 200) : outcome_scope.

Lemma bind_Ret {E A B} (m : outcome E A) (k : A -> outcome E B) b :
  bind m k = Ret b <-> exists a, m = Ret a /\ k a = Ret b.
Proof.
  destruct m; cbn; split; try discriminate; try (intros (? & ? & ?); discriminate).
  - eauto.
  - intros (? & [= ->] & H); exact H.
Qed.

Lemma bind_Panic {E A B} (m : outcome E A) (k : A -> outcome E B) :
  bind m k = Panic <-> m = Panic \/ exists a, m = Ret a /\ k a = Panic.
Proof.
  destruct m; cbn; split; try discriminate; auto.
  - eauto.
  - intros [|(? & [= ->] & H)]; [discriminate|exact H].
  - intros [|(? & ? & ?)]; discriminate.
Qed.

(** An operation that cannot return an error, only panic. *)
Definition of_option {E A} (o : option A) : outcome E A :=
  match o with Some a => Ret a | None => Panic end.

(** Inversion that leaves the value as it is written. *)
Lemma Some_inj {A} (x y : A) : Some x = Some y -> x = y.
Proof. congruence. Qed.

Lemma Ret_inj {E A} (x y : A) : @Ret E A x = Ret y -> x = y.
Proof. congruence. Qed.

(** A guard [if !b { return err }]. *)
Definition guard {E} (b : bool) (e : E) : outcome E unit := if b then Ret tt else Fail e.

Definition is_panic {E A} (m : outcome E A) : bool := match m with Panic => true | _ => false end.
Definition is_ok {E A} (m : outcome E A) : bool := match m with Ret _ => true | _ => false end.

(** ** Panics alone

    A function that can only return or panic is an [option]. *)
Definition obind {A B} (m : option A) (k : A -> option B) : option B :=
  match m with Some a => k a | None => None end.
Declare Scope option_scope.
Notation "'do*' x ':=' m 'in' k" := (obind m (fun x => k))
  (at level 10, x pattern, m at level 100, k at level 200) : option_scope.
Delimit Scope option_scope with option.

Lemma obind_Some {A B} (m : option A) (k : A -> option B) b :
  obind m k = Some b <-> exists a, m = Some a /\ k a = Some b.
Proof.
  destruct m; cbn; split; try discriminate; eauto.
  - intros (? & [= ->] & H); exact H.
  - intros (? & ? & ?); discriminate.
Qed.

Lemma obind_not_None {A B} (m : option A) (k : A -> option B) :
  m <> None -> (forall a, m = Some a -> k a <> None) -> obind m k <> None.
Proof. destruct m; cbn; auto. Qed.

(** ** Index and slice expressions *)

(** [l[i]] *)
Definition index (l : list Z) (i : Z) : option Z :=
  if (0 <=? i) && (i <? Z.of_nat (length l)) then Some (nth (Z.to_nat i) l 0) else None.

(** [l[lo:hi]] of a slice whose capacity is its length. *)
Definition slice (l : list Z) (lo hi : Z) : option (list Z) :=
  if (0 <=? lo) && (lo <=? hi) && (hi <=? Z.of_nat (length l))
  then Some (firstn (Z.to_nat (hi - lo)) (skipn (Z.to_nat lo) l)) else None.

(** [l[lo:]] *)
Definition slice_from (l : list Z) (lo : Z) : option (list Z) := slice l lo (Z.of_nat (length l)).

(** [copy(dst[at:], src)] for [at <= len(dst)]; the destination keeps its length. *)
Definition copy_into (dst : list Z) (at_ : nat) (src : list Z) : list Z :=
  let n := Nat.min (length dst - at_) (length src) in
  firstn at_ dst ++ firstn n src ++ skipn (at_ + n) dst.

Lemma slice_Some l lo hi r :
  slice l lo hi = Some r <->
  0 <= lo <= hi /\ hi <= Z.of_nat (length l) /\
  r = firstn (Z.to_nat (hi - lo)) (skipn (Z.to_nat lo) l).
Proof.
  unfold slice; destruct (Z.leb_spec 0 lo), (Z.leb_spec lo hi), (Z.leb_spec hi (Z.of_nat (length l)));
    cbn; split; try discriminate; intros H'; try lia.
  - injection H' as <-; auto.
  - destruct H' as (_ & _ & ->); reflexivity.
Qed.

Lemma slice_length l lo hi r : slice l lo hi = Some r -> Z.of_nat (length r) = hi - lo.
Proof. rewrite slice_Some; intros (? & ? & ->); rewrite length_firstn, length_skipn; lia. Qed.

Lemma slice_bytes l lo hi r : bytes l -> slice l lo hi = Some r -> bytes r.
Proof. rewrite slice_Some; intros Hl (_ & _ & ->); auto with janos. Qed.

Lemma slice_ok l lo hi : 0 <= lo <= hi -> hi <= Z.of_nat (length l) -> slice l lo hi <> None.
Proof.
  intros ? ?; unfold slice.
  destruct (Z.leb_spec 0 lo), (Z.leb_spec lo hi), (Z.leb_spec hi (Z.of_nat (length l))); cbn; lia || discriminate.
Qed.

Lemma index_ok l i : 0 <= i < Z.of_nat (length l) -> index l i = Some (nth (Z.to_nat i) l 0).
Proof.
  intros H; unfold index; destruct (Z.leb_spec 0 i), (Z.ltb_spec i (Z.of_nat (length l))); cbn; lia || reflexivity.
Qed.

Lemma length_copy_into dst at_ src : (at_ <= length dst)%nat -> length (copy_into dst at_ src) = length dst.
Proof. intros H; unfold copy_into; rewrite !length_app, !length_firstn, length_skipn; lia. Qed.

Lemma copy_into_exact a b c src :
  length src = length b -> copy_into (a ++ b ++ c) (length a) src = a ++ src ++ c.
Proof.
  intros H; unfold copy_into; rewrite !length_app, H.
  replace (Nat.min _ _) with (length b) by lia.
  rewrite firstn_app, Nat.sub_diag, firstn_O, app_nil_r, firstn_all.
  rewrite skipn_app, (skipn_all2 a) by lia; cbn [app].
  replace (length a + length b - length a)%nat with (length b) by lia.
  rewrite skipn_app, skipn_all, Nat.sub_diag; cbn [app skipn]; rewrite <- H, firstn_all; reflexivity.
Qed.

(** ** Loads and stores by shifts *)

(** Bytes [x >> 8*(n-1-i)] are the big-endian encoding. *)
Lemma be_bytes_shift n x :
  map (fun i => u8 (Z.shiftr x (8 * Z.of_nat n - 8 - 8 * Z.of_nat i))) (seq 0 n) = be_bytes n x.
Proof.
  unfold be_bytes; revert x; induction n as [|n IH]; intros x; [reflexivity|].
  cbn [le_bytes rev]; rewrite <- IH, seq_S, map_app; cbn [map Nat.add]; apply f_equal2.
  - apply map_ext_in; intros i Hi; apply in_seq in Hi; unfold u8; f_equal.
    change W8 with (2 ^ 8) at 1; rewrite <- Z.shiftr_div_pow2, Z.shiftr_shiftr by lia; f_equal; lia.
  - unfold u8; replace (8 * _ - 8 - 8 * _) with 0 by lia; rewrite Z.shiftr_0_r; reflexivity.
Qed.

Lemma le_bytes_shift n x :
  map (fun i => u8 (Z.shiftr x (8 * Z.of_nat i))) (seq 0 n) = le_bytes n x.
Proof.
  revert x; induction n as [|n IH]; intros x; [reflexivity|].
  cbn [seq map le_bytes]; apply f_equal2; [change (8 * Z.of_nat 0) with 0; rewrite Z.shiftr_0_r; reflexivity|].
  rewrite <- seq_shift, map_map, <- IH; apply map_ext; intros i.
  unfold u8; f_equal; change W8 with (2 ^ 8) at 1.
  rewrite <- Z.shiftr_div_pow2, Z.shiftr_shiftr by lia; f_equal; lia.
Qed.

(** A wider encoding of a small number starts with zeros. *)
Lemma be_bytes_wider k n x : 0 <= x < pow256 n -> be_bytes (k + n) x = repeat 0 k ++ be_bytes n x.
Proof.
  intros Hx; apply be_val_inj; auto with janos.
  - apply bytes_app; split; [|auto with janos].
    clear; induction k; cbn; constructor; [unword; lia|assumption].
  - rewrite length_app, repeat_length, !length_be_bytes; reflexivity.
  - rewrite be_val_app, !be_val_bytes, pow256_add.
    replace (be_val (repeat 0 k)) with 0.
    + pose proof (pow256_pos k); rewrite Z.mod_small, Z.mod_small by nia; reflexivity.
    + unfold be_val; rewrite rev_repeat; clear Hx; induction k as [|k IH]; cbn [repeat le_val]; lia.
Qed.

(** ** Strings as byte lists *)

(** The bytes of a Go string constant. *)
Definition str (s : string) : list Z :=
  map (fun a => Z.of_nat (Ascii.nat_of_ascii a)) (list_ascii_of_string s).

Lemma bytes_str s : bytes (str s).
Proof.
  unfold str, bytes; apply Forall_map, Forall_forall; intros a _.
  pose proof (Ascii.nat_ascii_bounded a); unword; lia.
Qed.
#[export] Hint Resolve bytes_str : janos.

(** Equality of byte slices, [bytes.Equal] and [==] on byte arrays. *)
Fixpoint bytes_eqb (a b : list Z) : bool :=
  match a, b with
  | [], [] => true
  | x :: a, y :: b => (x =? y) && bytes_eqb a b
  | _, _ => false
  end.

Lemma bytes_eqb_spec a b : reflect (a = b) (bytes_eqb a b).
Proof.
  revert b; induction a as [|x a IH]; intros [|y b]; cbn; try (constructor; discriminate); [constructor; reflexivity|].
  destruct (Z.eqb_spec x y) as [->|Hn]; cbn; [|constructor; congruence].
  destruct (IH b) as [->|Hn]; constructor; congruence.
Qed.

Lemma bytes_eqb_eq a b : bytes_eqb a b = true <-> a = b.
Proof. destruct (bytes_eqb_spec a b); split; congruence. Qed.

Lemma bytes_eqb_refl a : bytes_eqb a a = true.
Proof. apply bytes_eqb_eq; reflexivity. Qed.

(** Deciding that a concrete list is a byte slice. *)
Definition bytesb (l : list Z) : bool := forallb (fun x => (0 <=? x) && (x <? W8)) l.

Lemma bytesb_ok l : bytesb l = true -> bytes l.
Proof.
  unfold bytesb, bytes; rewrite forallb_forall, Forall_forall; intros H x Hx.
  specialize (H x Hx); unword; lia.
Qed.

Lemma bytesb_all ls : forallb bytesb ls = true -> Forall bytes ls.
Proof. rewrite forallb_forall, Forall_forall; intros H x Hx; apply bytesb_ok, H, Hx. Qed.

(** ** Prefixes *)

Fixpoint is_prefix (pat l : list Z) : bool :=
  match pat, l with
  | [], _ => true
  | x :: pat, y :: l => (y =? x) && is_prefix pat l
  | _ :: _, [] => false
  end.

Lemma is_prefix_split pat l : is_prefix pat l = true -> l = pat ++ skipn (length pat) l.
Proof.
  revert l; induction pat as [|x pat IH]; intros [|y l] H; cbn in *; try discriminate; try reflexivity.
  apply andb_true_iff in H as [E H]; apply Z.eqb_eq in E; subst y; f_equal; apply IH, H.
Qed.

Lemma is_prefix_short pat l : (length l < length pat)%nat -> is_prefix pat l = false.
Proof.
  revert l; induction pat as [|x pat IH]; intros [|y l] H; cbn in *; try lia; try reflexivity.
  rewrite IH by lia; apply andb_false_r.
Qed.

(** ** Overwriting *)

Lemma nth_copy_into l a v i : (a + length v <= length l)%nat ->
  nth i (copy_into l a v) 0 = if ((a <=? i) && (i <? a + length v))%nat then nth (i - a) v 0 else nth i l 0.
Proof.
  intros H; unfold copy_into; replace (Nat.min (length l - a) (length v)) with (length v) by lia; rewrite firstn_all.
  assert (La : length (firstn a l) = a) by (rewrite length_firstn; lia).
  destruct (Nat.leb_spec a i) as [H1|H1]; cbn [andb].
  - rewrite app_nth2, La by lia; destruct (Nat.ltb_spec i (a + length v)); [apply app_nth1; lia|].
    rewrite app_nth2, nth_skipn by lia; f_equal; lia.
  - rewrite app_nth1, nth_firstn by lia; destruct (Nat.ltb_spec i a); [reflexivity|lia].
Qed.

Lemma bytes_copy_into l a v : bytes l -> bytes v -> bytes (copy_into l a v).
Proof.
  intros Hl Hv; unfold copy_into; apply bytes_app; split; [apply bytes_firstn, Hl|apply bytes_app; split; [apply bytes_firstn, Hv|apply bytes_skipn, Hl]].
Qed.

(** ** Counting with [filter] *)

Lemma filter_map_length {A B} (f : A -> B) p l : length (filter p (map f l)) = length (filter (fun x => p (f x)) l).
Proof. induction l as [|x l IH]; [reflexivity|]; cbn; destruct (p (f x)); cbn; rewrite IH; reflexivity. Qed.

Lemma filter_ext_length {A} (p q : A -> bool) l : (forall x, In x l -> p x = q x) -> length (filter p l) = length (filter q l).
Proof. intros H; f_equal; apply filter_ext_in, H. Qed.

Lemma filter_mono {A} (p q : A -> bool) l : (forall x, In x l -> p x = true -> q x = true) -> (length (filter p l) <= length (filter q l))%nat.
Proof.
  induction l as [|x l IH]; intros H; [reflexivity|]; specialize (IH (fun y Hy => H y (or_intror Hy))); cbn.
  specialize (H x (or_introl eq_refl)); destruct (p x); [rewrite H by reflexivity; cbn; lia|destruct (q x); cbn; lia].
Qed.

Lemma filter_add (p q : nat -> bool) i l : NoDup l -> In i l -> p i = false -> (forall j, In j l -> q j = p j || (j =? i)%nat) ->
  length (filter q l) = S (length (filter p l)).
Proof.
  induction 1 as [|x l Nx Nd IH]; intros Hi Pi Q; [contradiction|]; cbn [filter].
  pose proof (Q x (or_introl eq_refl)) as Qx; destruct Hi as [->|Hi].
  - rewrite Qx, Pi, Nat.eqb_refl; cbn [orb length]; f_equal; apply filter_ext_length; intros j Hj.
    rewrite (Q j (or_intror Hj)), (proj2 (Nat.eqb_neq j i)), orb_false_r by (intros ->; contradiction); reflexivity.
  - rewrite Qx, (proj2 (Nat.eqb_neq x i)), orb_false_r by (intros ->; contradiction).
    specialize (IH Hi Pi (fun j Hj => Q j (or_intror Hj))); destruct (p x); cbn [length]; rewrite IH; reflexivity.
Qed.

(** When all are counted, none is free. *)
Lemma filter_full {A} (p : A -> bool) l : length (filter p l) = length l -> forall x, In x l -> p x = true.
Proof.
  induction l as [|y l IH]; cbn; intros H x Hx; [contradiction|]; pose proof (filter_length_le p l).
  destruct (p y) eqn:E; cbn in H; [|lia]; destruct Hx as [<-|Hx]; [exact E|apply IH; [lia|exact Hx]].
Qed.
