(* ===== verification/MathBits.v ===== *)
(** * Package math/bits: the full-width primitives

    [Add64], [Sub64] and [Mul64] as [src/math/bits/bits.go] computes them, carries
    and all, and the arithmetic equations the P-256 code relies on; [Len64] with its table,
    which the stack pools use. *)

From Stdlib Require Import ZArith Lia List.
From S2P Require Import Prelude.
#[local] Open Scope Z_scope.

Definition Add64 (x y carry : Z) : Z * Z :=
  let sum := u64 (x + y + carry) in
  let carryOut := Z.shiftr (Z.lor (Z.land x y) (Z.ldiff (Z.lor x y) sum)) 63 in
  (sum, carryOut).

Definition Sub64 (x y borrow : Z) : Z * Z :=
  let diff := u64 (x - y - borrow) in
  let borrowOut :=
    Z.shiftr (Z.lor (Z.land (not64 x) y) (Z.land (not64 (Z.lxor x y)) diff)) 63 in
  (diff, borrowOut).

Definition Mul64 (x y : Z) : Z * Z :=
  let mask32 := W32 - 1 in
  let x0 := Z.land x mask32 in
  let x1 := Z.shiftr x 32 in
  let y0 := Z.land y mask32 in
  let y1 := Z.shiftr y 32 in
  let w0 := u64 (x0 * y0) in
  let t := u64 (u64 (x1 * y0) + Z.shiftr w0 32) in
  let w1 := Z.land t mask32 in
  let w2 := Z.shiftr t 32 in
  let w1 := u64 (w1 + u64 (x0 * y1)) in
  let hi := u64 (u64 (u64 (x1 * y1) + w2) + Z.shiftr w1 32) in
  let lo := u64 (x * y) in
  (hi, lo).

Definition len8tab : list Z :=
  0 :: 1 :: repeat 2 2 ++ repeat 3 4 ++ repeat 4 8 ++ repeat 5 16 ++ repeat 6 32 ++ repeat 7 64 ++ repeat 8 128.
Definition Len64 (x : Z) : Z :=
  let n := 0 in
  let '(x, n) := if Z.shiftl 1 32 <=? x then (Z.shiftr x 32, 32) else (x, n) in
  let '(x, n) := if Z.shiftl 1 16 <=? x then (Z.shiftr x 16, n + 16) else (x, n) in
  let '(x, n) := if Z.shiftl 1 8 <=? x then (Z.shiftr x 8, n + 8) else (x, n) in
  n + nth (Z.to_nat (x mod 256)) len8tab 0.

(** [Add64] is addition with carry: [sum + 2^64 * carryOut = x + y + carry]. *)
Lemma Add64_spec x y c s c' :
  is_u64 x -> is_u64 y -> 0 <= c <= 1 -> Add64 x y c = (s, c') ->
  s + W64 * c' = x + y + c /\ is_u64 s /\ 0 <= c' <= 1.
Proof.
  intros Hx Hy Hc [= <- <-].
  pose proof (u64_range (x + y + c)) as Hs.
  assert (Hdef : u64 (x + y + c) = x + y + c - W64 * ((x + y + c) / W64))
    by (unfold u64; rewrite Z.mod_eq; lia).
  set (s := u64 (x + y + c)) in *.
  rewrite Z.shiftr_lor, Z.shiftr_land, Z.shiftr_ldiff, Z.shiftr_lor.
  unword.
  assert (0 <= (x + y + c) / W64 <= 1) by
    (split; [apply Z.div_pos; lia|]; apply Z.lt_succ_r, Z.div_lt_upper_bound; lia).
  set (q := (x + y + c) / W64) in *.
  destruct (shiftr_word_top x 63) as [[-> ?]|[-> ?]]; try lia;
  destruct (shiftr_word_top y 63) as [[-> ?]|[-> ?]]; try lia;
  destruct (shiftr_word_top s 63) as [[-> ?]|[-> ?]]; try lia;
  change (2 ^ 63) with W63 in *; cbn; lia.
Qed.

(** [Sub64] is subtraction with borrow: [diff - 2^64 * borrowOut = x - y - borrow]. *)
Lemma Sub64_spec x y b d b' :
  is_u64 x -> is_u64 y -> 0 <= b <= 1 -> Sub64 x y b = (d, b') ->
  d - W64 * b' = x - y - b /\ is_u64 d /\ 0 <= b' <= 1.
Proof.
  intros Hx Hy Hb [= <- <-].
  pose proof (u64_range (x - y - b)) as Hs.
  assert (Hdef : u64 (x - y - b) = x - y - b - W64 * ((x - y - b) / W64))
    by (unfold u64; rewrite Z.mod_eq; lia).
  set (s := u64 (x - y - b)) in *.
  unfold not64.
  rewrite Z.shiftr_lor, !Z.shiftr_land, !Z.shiftr_lxor.
  unword.
  assert (-1 <= (x - y - b) / W64 <= 0) by
    (split; [apply Z.div_le_lower_bound; lia|];
     apply Z.lt_succ_r, Z.div_lt_upper_bound; lia).
  set (q := (x - y - b) / W64) in *.
  change (Z.shiftr (W64 - 1) 63) with 1.
  destruct (shiftr_word_top x 63) as [[-> ?]|[-> ?]]; try lia;
  destruct (shiftr_word_top y 63) as [[-> ?]|[-> ?]]; try lia;
  destruct (shiftr_word_top s 63) as [[-> ?]|[-> ?]]; try lia;
  change (2 ^ 63) with W63 in *; cbn; lia.
Qed.

(** Schoolbook multiplication on half words: no intermediate sum of [Mul64]
    overflows, and its high word is the quotient of the product by [2^64]. *)
Lemma schoolbook a00 a10 a01 a11 :
  let m := (W32 - 1) * (W32 - 1) in
  0 <= a00 <= m -> 0 <= a10 <= m -> 0 <= a01 <= m -> 0 <= a11 <= m ->
  let t := a10 + a00 / W32 in
  let w1 := t mod W32 + a01 in
  let hi := a11 + t / W32 + w1 / W32 in
  is_u64 t /\ is_u64 w1 /\ is_u64 (a11 + t / W32) /\ 0 <= hi <= W64 - 2 /\
  (a00 + W32 * a10 + W32 * a01 + W64 * a11) / W64 = hi.
Proof.
  intros m H00 H10 H01 H11 t w1 hi; unfold m in *; unword.
  pose proof (Z.div_mod a00 W32 ltac:(lia)) as E0.
  pose proof (Z.mod_pos_bound a00 W32 ltac:(lia)) as B0.
  pose proof (Z.div_mod t W32 ltac:(lia)) as E1.
  pose proof (Z.mod_pos_bound t W32 ltac:(lia)) as B1.
  pose proof (Z.div_mod w1 W32 ltac:(lia)) as E2.
  pose proof (Z.mod_pos_bound w1 W32 ltac:(lia)) as B2.
  unfold hi, w1, t in *; clear m hi w1 t.
  set (q0 := a00 / W32) in *; set (r0 := a00 mod W32) in *; clearbody q0 r0.
  set (q1 := (a10 + q0) / W32) in *; set (r1 := (a10 + q0) mod W32) in *; clearbody q1 r1.
  set (q2 := (r1 + a01) / W32) in *; set (r2 := (r1 + a01) mod W32) in *; clearbody q2 r2.
  assert (0 <= q0 <= W32 - 1) by lia.
  assert (0 <= q1 <= W32 - 1) by lia.
  assert (0 <= q2 <= W32 - 1) by lia.
  repeat split; try lia.
  symmetry; apply (Z.div_unique _ _ _ (r0 + W32 * r2)); lia.
Qed.

Lemma half_product a b :
  0 <= a < W32 -> 0 <= b < W32 -> 0 <= a * b <= (W32 - 1) * (W32 - 1).
Proof. intros; split; [nia|apply Z.mul_le_mono_nonneg; lia]. Qed.

(** [Mul64] returns the full 128-bit product as two words; the high word is at
    most [2^64 - 2] and at most the second factor, which is what makes the carry
    chains of the callers safe. *)
Lemma Mul64_spec x y hi lo :
  is_u64 x -> is_u64 y -> Mul64 x y = (hi, lo) ->
  lo + W64 * hi = x * y /\ is_u64 lo /\ 0 <= hi <= W64 - 2 /\ hi <= y.
Proof.
  intros Hx Hy E.
  cut (lo + W64 * hi = x * y /\ is_u64 lo /\ 0 <= hi <= W64 - 2).
  { intros (Hv & Hl & Hh); repeat split; try assumption; try lia; [apply Hl..|]. unword; nia. }
  revert E.
  intros [<- <-]%pair_equal_spec.
  change (W32 - 1) with (2 ^ 32 - 1); rewrite !land_mask by lia.
  rewrite !Z.shiftr_div_pow2 by lia; change (2 ^ 32) with W32.
  pose proof (Z.div_mod x W32 ltac:(lia)) as Ex.
  pose proof (Z.mod_pos_bound x W32 ltac:(lia)) as Bx.
  pose proof (Z.div_mod y W32 ltac:(lia)) as Ey.
  pose proof (Z.mod_pos_bound y W32 ltac:(lia)) as By.
  unword.
  set (x0 := x mod W32) in *; set (x1 := x / W32) in *.
  set (y0 := y mod W32) in *; set (y1 := y / W32) in *.
  assert (Hx1 : 0 <= x1 < W32) by lia. assert (Hy1 : 0 <= y1 < W32) by lia.
  pose proof (half_product x0 y0 Bx By) as P00; pose proof (half_product x1 y0 Hx1 By) as P10.
  pose proof (half_product x0 y1 Bx Hy1) as P01; pose proof (half_product x1 y1 Hx1 Hy1) as P11.
  assert (Hexp : x * y = x0 * y0 + W32 * (x1 * y0) + W32 * (x0 * y1) + W64 * (x1 * y1))
    by (rewrite Ex, Ey; ring).
  destruct (schoolbook _ _ _ _ P00 P10 P01 P11) as (Ht & Hw & Hh & Hhi & Hdiv).
  rewrite <- Hexp in Hdiv; clearbody x0 x1 y0 y1.
  rewrite (u64_small (x0 * y0)), (u64_small (x1 * y0)), (u64_small (x0 * y1)),
    (u64_small (x1 * y1)) by (unword; lia).
  rewrite (u64_small _ Ht), (u64_small _ Hw), (u64_small _ Hh).
  rewrite (u64_small (_ + _ + _)) by (unword; lia). rewrite <- Hdiv in *.
  repeat split; try apply u64_range; try apply Hhi.
  unfold u64; rewrite Z.mod_eq; lia.
Qed.

(** ** Automation

    [word_side] closes the range conditions of the primitives; [prim_step]
    replaces the first remaining primitive of the goal by fresh words and the
    equation its specification gives. *)
Ltac word_side := first [ assumption | split; lia | lia ].

Ltac prim_step :=
  match goal with
  | |- context [Mul64 ?x ?y] =>
      let hi := fresh "hi" in let lo := fresh "lo" in
      let E := fresh "E" in let Hl := fresh "Hl" in let Hh := fresh "Hh" in
      destruct (Mul64 x y) as [hi lo] eqn:E;
      apply Mul64_spec in E; [destruct E as (E & Hl & Hh & ?)|word_side|word_side]
  | |- context [Add64 ?x ?y ?c] =>
      let hi := fresh "s" in let lo := fresh "c" in
      let E := fresh "E" in let Hl := fresh "Hl" in let Hh := fresh "Hh" in
      destruct (Add64 x y c) as [hi lo] eqn:E;
      apply Add64_spec in E; [destruct E as (E & Hl & Hh)|word_side|word_side|word_side]
  | |- context [Sub64 ?x ?y ?c] =>
      let hi := fresh "d" in let lo := fresh "b" in
      let E := fresh "E" in let Hl := fresh "Hl" in let Hh := fresh "Hh" in
      destruct (Sub64 x y c) as [hi lo] eqn:E;
      apply Sub64_spec in E; [destruct E as (E & Hl & Hh)|word_side|word_side|word_side]
  | |- context [u64 (?a + ?b)] => rewrite (u64_small (a + b)) by word_side
  end.

(** ** The length of a word *)

Definition bit_length (x : Z) : Z := if x =? 0 then 0 else Z.log2 x + 1.

Lemma bit_length_shift x k : 0 <= k -> 2 ^ k <= x -> bit_length x = k + bit_length (Z.shiftr x k).
Proof.
  intros Hk Hx; assert (P : 0 < 2 ^ k) by (apply Z.pow_pos_nonneg; lia).
  assert (S : 1 <= Z.shiftr x k) by (rewrite Z.shiftr_div_pow2 by exact Hk; apply Z.div_le_lower_bound; lia).
  assert (L : k <= Z.log2 x) by (apply Z.log2_le_pow2; lia).
  unfold bit_length; rewrite !(proj2 (Z.eqb_neq _ _)) by lia; rewrite Z.log2_shiftr by lia; lia.
Qed.

Lemma len8tab_spec b : 0 <= b < 256 -> nth (Z.to_nat b) len8tab 0 = bit_length b.
Proof.
  intros Hb; assert (A : forallb (fun i => nth i len8tab 0 =? bit_length (Z.of_nat i)) (seq 0 256) = true) by (vm_compute; reflexivity).
  rewrite forallb_forall in A; specialize (A (Z.to_nat b)); rewrite Z2Nat.id in A by lia; apply Z.eqb_eq, A, in_seq; lia.
Qed.

Lemma halve (x n k : Z) : 0 <= k -> 0 <= x < 2 ^ (2 * k) -> let '(y, m) := (if Z.shiftl 1 k <=? x then (Z.shiftr x k, n + k) else (x, n)) in
  0 <= y < 2 ^ k /\ m + bit_length y = n + bit_length x.
Proof.
  intros Hk Hx; rewrite Z.shiftl_1_l; destruct (Z.leb_spec (2 ^ k) x) as [L|L]; [|split; lia].
  rewrite (bit_length_shift x k Hk L); split; [|lia]; rewrite Z.shiftr_div_pow2 by exact Hk.
  assert (0 < 2 ^ k) by (apply Z.pow_pos_nonneg; lia); replace (2 * k) with (k + k) in Hx by lia; rewrite Z.pow_add_r in Hx by lia.
  split; [apply Z.div_pos; lia|apply Z.div_lt_upper_bound; lia].
Qed.

(** [Len64] is the number of bits of its argument. *)
Lemma Len64_spec x : is_u64 x -> Len64 x = bit_length x.
Proof.
  intros Hx; unfold Len64; pose proof (halve x 0 32 ltac:(lia) Hx) as H1; change (0 + 32) with 32 in H1.
  destruct (if _ <=? x then _ else _) as [x1 n1]; destruct H1 as [B1 E1]; pose proof (halve x1 n1 16 ltac:(lia) B1) as H2.
  destruct (if _ <=? x1 then _ else _) as [x2 n2]; destruct H2 as [B2 E2]; pose proof (halve x2 n2 8 ltac:(lia) B2) as H3.
  destruct (if _ <=? x2 then _ else _) as [x3 n3]; destruct H3 as [B3 E3]; change (2 ^ 8) with 256 in B3.
  rewrite Z.mod_small by exact B3; rewrite len8tab_spec by exact B3; lia.
Qed.
