(* ===== verification/FiatP256.v ===== *)
(** * P-256 field arithmetic, generated layer

    [src/runtime/janos_p256_fiat.go]: Montgomery arithmetic modulo
    p = 2^256 - 2^224 + 2^192 + 2^96 - 1 on four little-endian 64-bit limbs.
    Each straight-line function is transcribed with the source's variable
    names, one [let] per statement.  The long functions (multiplication,
    squaring, conversion into the Montgomery domain) are cut at the boundaries of the
    word-by-word reduction: one [_rowN] definition per input limb, then the
    final conditional subtraction. *)

From Stdlib Require Import ZArith Lia List.
From S2P Require Import Prelude MathBits.
Import ListNotations.
#[local] Open Scope Z_scope.

(** [p256MontgomeryDomainFieldElement], [p256NonMontgomeryDomainFieldElement]:
    the array type [4]uint64. *)
Record Limbs4 := MkLimbs4 { l0 : Z; l1 : Z; l2 : Z; l3 : Z }.

(** [out1 = (if arg1 = 0 then arg2 else arg3)], by masking. *)
Definition p256CmovznzU64 (arg1 arg2 arg3 : Z) : Z :=
  let x1 := u64 (arg1 * 0xffffffffffffffff) in
  let x2 := Z.lor (Z.land x1 arg3) (Z.land (not64 x1) arg2) in
  x2.

Definition p256Mul_row0 (x4 : Z) (arg2 : Limbs4) : (Z * Z * Z * Z * Z)%type :=
  let '(x6, x5) := Mul64 x4 (l3 arg2) in
  let '(x8, x7) := Mul64 x4 (l2 arg2) in
  let '(x10, x9) := Mul64 x4 (l1 arg2) in
  let '(x12, x11) := Mul64 x4 (l0 arg2) in
  let '(x13, x14) := Add64 x12 x9 0 in
  let '(x15, x16) := Add64 x10 x7 x14 in
  let '(x17, x18) := Add64 x8 x5 x16 in
  let x19 := u64 (x18 + x6) in
  let '(x21, x20) := Mul64 x11 0xffffffff00000001 in
  let '(x23, x22) := Mul64 x11 0xffffffff in
  let '(x25, x24) := Mul64 x11 0xffffffffffffffff in
  let '(x26, x27) := Add64 x25 x22 0 in
  let x28 := u64 (x27 + x23) in
  let '(_, x30) := Add64 x11 x24 0 in
  let '(x31, x32) := Add64 x13 x26 x30 in
  let '(x33, x34) := Add64 x15 x28 x32 in
  let '(x35, x36) := Add64 x17 x20 x34 in
  let '(x37, x38) := Add64 x19 x21 x36 in
  (x31, x33, x35, x37, x38).

Definition p256Mul_row1 (t : Z * Z * Z * Z * Z) (x1 : Z) (arg2 : Limbs4) : (Z * Z * Z * Z * Z)%type :=
  let '(x31, x33, x35, x37, x38) := t in
  let '(x40, x39) := Mul64 x1 (l3 arg2) in
  let '(x42, x41) := Mul64 x1 (l2 arg2) in
  let '(x44, x43) := Mul64 x1 (l1 arg2) in
  let '(x46, x45) := Mul64 x1 (l0 arg2) in
  let '(x47, x48) := Add64 x46 x43 0 in
  let '(x49, x50) := Add64 x44 x41 x48 in
  let '(x51, x52) := Add64 x42 x39 x50 in
  let x53 := u64 (x52 + x40) in
  let '(x54, x55) := Add64 x31 x45 0 in
  let '(x56, x57) := Add64 x33 x47 x55 in
  let '(x58, x59) := Add64 x35 x49 x57 in
  let '(x60, x61) := Add64 x37 x51 x59 in
  let '(x62, x63) := Add64 x38 x53 x61 in
  let '(x65, x64) := Mul64 x54 0xffffffff00000001 in
  let '(x67, x66) := Mul64 x54 0xffffffff in
  let '(x69, x68) := Mul64 x54 0xffffffffffffffff in
  let '(x70, x71) := Add64 x69 x66 0 in
  let x72 := u64 (x71 + x67) in
  let '(_, x74) := Add64 x54 x68 0 in
  let '(x75, x76) := Add64 x56 x70 x74 in
  let '(x77, x78) := Add64 x58 x72 x76 in
  let '(x79, x80) := Add64 x60 x64 x78 in
  let '(x81, x82) := Add64 x62 x65 x80 in
  let x83 := u64 (x82 + x63) in
  (x75, x77, x79, x81, x83).

Definition p256Mul_row2 (t : Z * Z * Z * Z * Z) (x2 : Z) (arg2 : Limbs4) : (Z * Z * Z * Z * Z)%type :=
  let '(x75, x77, x79, x81, x83) := t in
  let '(x85, x84) := Mul64 x2 (l3 arg2) in
  let '(x87, x86) := Mul64 x2 (l2 arg2) in
  let '(x89, x88) := Mul64 x2 (l1 arg2) in
  let '(x91, x90) := Mul64 x2 (l0 arg2) in
  let '(x92, x93) := Add64 x91 x88 0 in
  let '(x94, x95) := Add64 x89 x86 x93 in
  let '(x96, x97) := Add64 x87 x84 x95 in
  let x98 := u64 (x97 + x85) in
  let '(x99, x100) := Add64 x75 x90 0 in
  let '(x101, x102) := Add64 x77 x92 x100 in
  let '(x103, x104) := Add64 x79 x94 x102 in
  let '(x105, x106) := Add64 x81 x96 x104 in
  let '(x107, x108) := Add64 x83 x98 x106 in
  let '(x110, x109) := Mul64 x99 0xffffffff00000001 in
  let '(x112, x111) := Mul64 x99 0xffffffff in
  let '(x114, x113) := Mul64 x99 0xffffffffffffffff in
  let '(x115, x116) := Add64 x114 x111 0 in
  let x117 := u64 (x116 + x112) in
  let '(_, x119) := Add64 x99 x113 0 in
  let '(x120, x121) := Add64 x101 x115 x119 in
  let '(x122, x123) := Add64 x103 x117 x121 in
  let '(x124, x125) := Add64 x105 x109 x123 in
  let '(x126, x127) := Add64 x107 x110 x125 in
  let x128 := u64 (x127 + x108) in
  (x120, x122, x124, x126, x128).

Definition p256Mul_row3 (t : Z * Z * Z * Z * Z) (x3 : Z) (arg2 : Limbs4) : (Z * Z * Z * Z * Z)%type :=
  let '(x120, x122, x124, x126, x128) := t in
  let '(x130, x129) := Mul64 x3 (l3 arg2) in
  let '(x132, x131) := Mul64 x3 (l2 arg2) in
  let '(x134, x133) := Mul64 x3 (l1 arg2) in
  let '(x136, x135) := Mul64 x3 (l0 arg2) in
  let '(x137, x138) := Add64 x136 x133 0 in
  let '(x139, x140) := Add64 x134 x131 x138 in
  let '(x141, x142) := Add64 x132 x129 x140 in
  let x143 := u64 (x142 + x130) in
  let '(x144, x145) := Add64 x120 x135 0 in
  let '(x146, x147) := Add64 x122 x137 x145 in
  let '(x148, x149) := Add64 x124 x139 x147 in
  let '(x150, x151) := Add64 x126 x141 x149 in
  let '(x152, x153) := Add64 x128 x143 x151 in
  let '(x155, x154) := Mul64 x144 0xffffffff00000001 in
  let '(x157, x156) := Mul64 x144 0xffffffff in
  let '(x159, x158) := Mul64 x144 0xffffffffffffffff in
  let '(x160, x161) := Add64 x159 x156 0 in
  let x162 := u64 (x161 + x157) in
  let '(_, x164) := Add64 x144 x158 0 in
  let '(x165, x166) := Add64 x146 x160 x164 in
  let '(x167, x168) := Add64 x148 x162 x166 in
  let '(x169, x170) := Add64 x150 x154 x168 in
  let '(x171, x172) := Add64 x152 x155 x170 in
  let x173 := u64 (x172 + x153) in
  (x165, x167, x169, x171, x173).

Definition p256Mul_reduce (t : Z * Z * Z * Z * Z) : Limbs4 :=
  let '(x165, x167, x169, x171, x173) := t in
  let '(x174, x175) := Sub64 x165 0xffffffffffffffff 0 in
  let '(x176, x177) := Sub64 x167 0xffffffff x175 in
  let '(x178, x179) := Sub64 x169 0 x177 in
  let '(x180, x181) := Sub64 x171 0xffffffff00000001 x179 in
  let '(_, x183) := Sub64 x173 0 x181 in
  let x184 := p256CmovznzU64 x183 x174 x165 in
  let x185 := p256CmovznzU64 x183 x176 x167 in
  let x186 := p256CmovznzU64 x183 x178 x169 in
  let x187 := p256CmovznzU64 x183 x180 x171 in
  MkLimbs4 x184 x185 x186 x187.

Definition p256Mul (arg1 arg2 : Limbs4) : Limbs4 :=
  let x1 := l1 arg1 in
  let x2 := l2 arg1 in
  let x3 := l3 arg1 in
  let x4 := l0 arg1 in
  let t := p256Mul_row0 x4 arg2 in
  let t := p256Mul_row1 t x1 arg2 in
  let t := p256Mul_row2 t x2 arg2 in
  let t := p256Mul_row3 t x3 arg2 in
  p256Mul_reduce t.

Definition p256Square_row0 (x4 : Z) (arg1 : Limbs4) : (Z * Z * Z * Z * Z)%type :=
  let '(x6, x5) := Mul64 x4 (l3 arg1) in
  let '(x8, x7) := Mul64 x4 (l2 arg1) in
  let '(x10, x9) := Mul64 x4 (l1 arg1) in
  let '(x12, x11) := Mul64 x4 (l0 arg1) in
  let '(x13, x14) := Add64 x12 x9 0 in
  let '(x15, x16) := Add64 x10 x7 x14 in
  let '(x17, x18) := Add64 x8 x5 x16 in
  let x19 := u64 (x18 + x6) in
  let '(x21, x20) := Mul64 x11 0xffffffff00000001 in
  let '(x23, x22) := Mul64 x11 0xffffffff in
  let '(x25, x24) := Mul64 x11 0xffffffffffffffff in
  let '(x26, x27) := Add64 x25 x22 0 in
  let x28 := u64 (x27 + x23) in
  let '(_, x30) := Add64 x11 x24 0 in
  let '(x31, x32) := Add64 x13 x26 x30 in
  let '(x33, x34) := Add64 x15 x28 x32 in
  let '(x35, x36) := Add64 x17 x20 x34 in
  let '(x37, x38) := Add64 x19 x21 x36 in
  (x31, x33, x35, x37, x38).

Definition p256Square_row1 (t : Z * Z * Z * Z * Z) (x1 : Z) (arg1 : Limbs4) : (Z * Z * Z * Z * Z)%type :=
  let '(x31, x33, x35, x37, x38) := t in
  let '(x40, x39) := Mul64 x1 (l3 arg1) in
  let '(x42, x41) := Mul64 x1 (l2 arg1) in
  let '(x44, x43) := Mul64 x1 (l1 arg1) in
  let '(x46, x45) := Mul64 x1 (l0 arg1) in
  let '(x47, x48) := Add64 x46 x43 0 in
  let '(x49, x50) := Add64 x44 x41 x48 in
  let '(x51, x52) := Add64 x42 x39 x50 in
  let x53 := u64 (x52 + x40) in
  let '(x54, x55) := Add64 x31 x45 0 in
  let '(x56, x57) := Add64 x33 x47 x55 in
  let '(x58, x59) := Add64 x35 x49 x57 in
  let '(x60, x61) := Add64 x37 x51 x59 in
  let '(x62, x63) := Add64 x38 x53 x61 in
  let '(x65, x64) := Mul64 x54 0xffffffff00000001 in
  let '(x67, x66) := Mul64 x54 0xffffffff in
  let '(x69, x68) := Mul64 x54 0xffffffffffffffff in
  let '(x70, x71) := Add64 x69 x66 0 in
  let x72 := u64 (x71 + x67) in
  let '(_, x74) := Add64 x54 x68 0 in
  let '(x75, x76) := Add64 x56 x70 x74 in
  let '(x77, x78) := Add64 x58 x72 x76 in
  let '(x79, x80) := Add64 x60 x64 x78 in
  let '(x81, x82) := Add64 x62 x65 x80 in
  let x83 := u64 (x82 + x63) in
  (x75, x77, x79, x81, x83).

Definition p256Square_row2 (t : Z * Z * Z * Z * Z) (x2 : Z) (arg1 : Limbs4) : (Z * Z * Z * Z * Z)%type :=
  let '(x75, x77, x79, x81, x83) := t in
  let '(x85, x84) := Mul64 x2 (l3 arg1) in
  let '(x87, x86) := Mul64 x2 (l2 arg1) in
  let '(x89, x88) := Mul64 x2 (l1 arg1) in
  let '(x91, x90) := Mul64 x2 (l0 arg1) in
  let '(x92, x93) := Add64 x91 x88 0 in
  let '(x94, x95) := Add64 x89 x86 x93 in
  let '(x96, x97) := Add64 x87 x84 x95 in
  let x98 := u64 (x97 + x85) in
  let '(x99, x100) := Add64 x75 x90 0 in
  let '(x101, x102) := Add64 x77 x92 x100 in
  let '(x103, x104) := Add64 x79 x94 x102 in
  let '(x105, x106) := Add64 x81 x96 x104 in
  let '(x107, x108) := Add64 x83 x98 x106 in
  let '(x110, x109) := Mul64 x99 0xffffffff00000001 in
  let '(x112, x111) := Mul64 x99 0xffffffff in
  let '(x114, x113) := Mul64 x99 0xffffffffffffffff in
  let '(x115, x116) := Add64 x114 x111 0 in
  let x117 := u64 (x116 + x112) in
  let '(_, x119) := Add64 x99 x113 0 in
  let '(x120, x121) := Add64 x101 x115 x119 in
  let '(x122, x123) := Add64 x103 x117 x121 in
  let '(x124, x125) := Add64 x105 x109 x123 in
  let '(x126, x127) := Add64 x107 x110 x125 in
  let x128 := u64 (x127 + x108) in
  (x120, x122, x124, x126, x128).

Definition p256Square_row3 (t : Z * Z * Z * Z * Z) (x3 : Z) (arg1 : Limbs4) : (Z * Z * Z * Z * Z)%type :=
  let '(x120, x122, x124, x126, x128) := t in
  let '(x130, x129) := Mul64 x3 (l3 arg1) in
  let '(x132, x131) := Mul64 x3 (l2 arg1) in
  let '(x134, x133) := Mul64 x3 (l1 arg1) in
  let '(x136, x135) := Mul64 x3 (l0 arg1) in
  let '(x137, x138) := Add64 x136 x133 0 in
  let '(x139, x140) := Add64 x134 x131 x138 in
  let '(x141, x142) := Add64 x132 x129 x140 in
  let x143 := u64 (x142 + x130) in
  let '(x144, x145) := Add64 x120 x135 0 in
  let '(x146, x147) := Add64 x122 x137 x145 in
  let '(x148, x149) := Add64 x124 x139 x147 in
  let '(x150, x151) := Add64 x126 x141 x149 in
  let '(x152, x153) := Add64 x128 x143 x151 in
  let '(x155, x154) := Mul64 x144 0xffffffff00000001 in
  let '(x157, x156) := Mul64 x144 0xffffffff in
  let '(x159, x158) := Mul64 x144 0xffffffffffffffff in
  let '(x160, x161) := Add64 x159 x156 0 in
  let x162 := u64 (x161 + x157) in
  let '(_, x164) := Add64 x144 x158 0 in
  let '(x165, x166) := Add64 x146 x160 x164 in
  let '(x167, x168) := Add64 x148 x162 x166 in
  let '(x169, x170) := Add64 x150 x154 x168 in
  let '(x171, x172) := Add64 x152 x155 x170 in
  let x173 := u64 (x172 + x153) in
  (x165, x167, x169, x171, x173).

Definition p256Square_reduce (t : Z * Z * Z * Z * Z) : Limbs4 :=
  let '(x165, x167, x169, x171, x173) := t in
  let '(x174, x175) := Sub64 x165 0xffffffffffffffff 0 in
  let '(x176, x177) := Sub64 x167 0xffffffff x175 in
  let '(x178, x179) := Sub64 x169 0 x177 in
  let '(x180, x181) := Sub64 x171 0xffffffff00000001 x179 in
  let '(_, x183) := Sub64 x173 0 x181 in
  let x184 := p256CmovznzU64 x183 x174 x165 in
  let x185 := p256CmovznzU64 x183 x176 x167 in
  let x186 := p256CmovznzU64 x183 x178 x169 in
  let x187 := p256CmovznzU64 x183 x180 x171 in
  MkLimbs4 x184 x185 x186 x187.

Definition p256Square (arg1 : Limbs4) : Limbs4 :=
  let x1 := l1 arg1 in
  let x2 := l2 arg1 in
  let x3 := l3 arg1 in
  let x4 := l0 arg1 in
  let t := p256Square_row0 x4 arg1 in
  let t := p256Square_row1 t x1 arg1 in
  let t := p256Square_row2 t x2 arg1 in
  let t := p256Square_row3 t x3 arg1 in
  p256Square_reduce t.

Definition p256Add (arg1 arg2 : Limbs4) : Limbs4 :=
  let '(x1, x2) := Add64 (l0 arg1) (l0 arg2) 0 in
  let '(x3, x4) := Add64 (l1 arg1) (l1 arg2) x2 in
  let '(x5, x6) := Add64 (l2 arg1) (l2 arg2) x4 in
  let '(x7, x8) := Add64 (l3 arg1) (l3 arg2) x6 in
  let '(x9, x10) := Sub64 x1 0xffffffffffffffff 0 in
  let '(x11, x12) := Sub64 x3 0xffffffff x10 in
  let '(x13, x14) := Sub64 x5 0 x12 in
  let '(x15, x16) := Sub64 x7 0xffffffff00000001 x14 in
  let '(_, x18) := Sub64 x8 0 x16 in
  let x19 := p256CmovznzU64 x18 x9 x1 in
  let x20 := p256CmovznzU64 x18 x11 x3 in
  let x21 := p256CmovznzU64 x18 x13 x5 in
  let x22 := p256CmovznzU64 x18 x15 x7 in
  MkLimbs4 x19 x20 x21 x22.

Definition p256Sub (arg1 arg2 : Limbs4) : Limbs4 :=
  let '(x1, x2) := Sub64 (l0 arg1) (l0 arg2) 0 in
  let '(x3, x4) := Sub64 (l1 arg1) (l1 arg2) x2 in
  let '(x5, x6) := Sub64 (l2 arg1) (l2 arg2) x4 in
  let '(x7, x8) := Sub64 (l3 arg1) (l3 arg2) x6 in
  let x9 := p256CmovznzU64 x8 0 0xffffffffffffffff in
  let '(x10, x11) := Add64 x1 x9 0 in
  let '(x12, x13) := Add64 x3 (Z.land x9 0xffffffff) x11 in
  let '(x14, x15) := Add64 x5 0 x13 in
  let '(x16, _) := Add64 x7 (Z.land x9 0xffffffff00000001) x15 in
  MkLimbs4 x10 x12 x14 x16.

Definition p256SetOne : Limbs4 :=
  MkLimbs4 0x1 0xffffffff00000000 0xffffffffffffffff 0xfffffffe.

Definition p256FromMontgomery (arg1 : Limbs4) : Limbs4 :=
  let x1 := l0 arg1 in
  let '(x3, x2) := Mul64 x1 0xffffffff00000001 in
  let '(x5, x4) := Mul64 x1 0xffffffff in
  let '(x7, x6) := Mul64 x1 0xffffffffffffffff in
  let '(x8, x9) := Add64 x7 x4 0 in
  let '(_, x11) := Add64 x1 x6 0 in
  let '(x12, x13) := Add64 0 x8 x11 in
  let '(x14, x15) := Add64 x12 (l1 arg1) 0 in
  let '(x17, x16) := Mul64 x14 0xffffffff00000001 in
  let '(x19, x18) := Mul64 x14 0xffffffff in
  let '(x21, x20) := Mul64 x14 0xffffffffffffffff in
  let '(x22, x23) := Add64 x21 x18 0 in
  let '(_, x25) := Add64 x14 x20 0 in
  let '(x26, x27) := Add64 (u64 (x15 + (u64 (x13 + (u64 (x9 + x5)))))) x22 x25 in
  let '(x28, x29) := Add64 x2 (u64 (x23 + x19)) x27 in
  let '(x30, x31) := Add64 x3 x16 x29 in
  let '(x32, x33) := Add64 x26 (l2 arg1) 0 in
  let '(x34, x35) := Add64 x28 0 x33 in
  let '(x36, x37) := Add64 x30 0 x35 in
  let '(x39, x38) := Mul64 x32 0xffffffff00000001 in
  let '(x41, x40) := Mul64 x32 0xffffffff in
  let '(x43, x42) := Mul64 x32 0xffffffffffffffff in
  let '(x44, x45) := Add64 x43 x40 0 in
  let '(_, x47) := Add64 x32 x42 0 in
  let '(x48, x49) := Add64 x34 x44 x47 in
  let '(x50, x51) := Add64 x36 (u64 (x45 + x41)) x49 in
  let '(x52, x53) := Add64 (u64 (x37 + (u64 (x31 + x17)))) x38 x51 in
  let '(x54, x55) := Add64 x48 (l3 arg1) 0 in
  let '(x56, x57) := Add64 x50 0 x55 in
  let '(x58, x59) := Add64 x52 0 x57 in
  let '(x61, x60) := Mul64 x54 0xffffffff00000001 in
  let '(x63, x62) := Mul64 x54 0xffffffff in
  let '(x65, x64) := Mul64 x54 0xffffffffffffffff in
  let '(x66, x67) := Add64 x65 x62 0 in
  let '(_, x69) := Add64 x54 x64 0 in
  let '(x70, x71) := Add64 x56 x66 x69 in
  let '(x72, x73) := Add64 x58 (u64 (x67 + x63)) x71 in
  let '(x74, x75) := Add64 (u64 (x59 + (u64 (x53 + x39)))) x60 x73 in
  let x76 := u64 (x75 + x61) in
  let '(x77, x78) := Sub64 x70 0xffffffffffffffff 0 in
  let '(x79, x80) := Sub64 x72 0xffffffff x78 in
  let '(x81, x82) := Sub64 x74 0 x80 in
  let '(x83, x84) := Sub64 x76 0xffffffff00000001 x82 in
  let '(_, x86) := Sub64 0 0 x84 in
  let x87 := p256CmovznzU64 x86 x77 x70 in
  let x88 := p256CmovznzU64 x86 x79 x72 in
  let x89 := p256CmovznzU64 x86 x81 x74 in
  let x90 := p256CmovznzU64 x86 x83 x76 in
  MkLimbs4 x87 x88 x89 x90.

Definition p256ToMontgomery_row0 (x4 : Z) : (Z * Z * Z * Z * Z)%type :=
  let '(x6, x5) := Mul64 x4 0x4fffffffd in
  let '(x8, x7) := Mul64 x4 0xfffffffffffffffe in
  let '(x10, x9) := Mul64 x4 0xfffffffbffffffff in
  let '(x12, x11) := Mul64 x4 0x3 in
  let '(x13, x14) := Add64 x12 x9 0 in
  let '(x15, x16) := Add64 x10 x7 x14 in
  let '(x17, x18) := Add64 x8 x5 x16 in
  let '(x20, x19) := Mul64 x11 0xffffffff00000001 in
  let '(x22, x21) := Mul64 x11 0xffffffff in
  let '(x24, x23) := Mul64 x11 0xffffffffffffffff in
  let '(x25, x26) := Add64 x24 x21 0 in
  let '(_, x28) := Add64 x11 x23 0 in
  let '(x29, x30) := Add64 x13 x25 x28 in
  let '(x31, x32) := Add64 x15 (u64 (x26 + x22)) x30 in
  let '(x33, x34) := Add64 x17 x19 x32 in
  let '(x35, x36) := Add64 (u64 (x18 + x6)) x20 x34 in
  (x29, x31, x33, x35, x36).

Definition p256ToMontgomery_row1 (t : Z * Z * Z * Z * Z) (x1 : Z) : (Z * Z * Z * Z * Z)%type :=
  let '(x29, x31, x33, x35, x36) := t in
  let '(x38, x37) := Mul64 x1 0x4fffffffd in
  let '(x40, x39) := Mul64 x1 0xfffffffffffffffe in
  let '(x42, x41) := Mul64 x1 0xfffffffbffffffff in
  let '(x44, x43) := Mul64 x1 0x3 in
  let '(x45, x46) := Add64 x44 x41 0 in
  let '(x47, x48) := Add64 x42 x39 x46 in
  let '(x49, x50) := Add64 x40 x37 x48 in
  let '(x51, x52) := Add64 x29 x43 0 in
  let '(x53, x54) := Add64 x31 x45 x52 in
  let '(x55, x56) := Add64 x33 x47 x54 in
  let '(x57, x58) := Add64 x35 x49 x56 in
  let '(x60, x59) := Mul64 x51 0xffffffff00000001 in
  let '(x62, x61) := Mul64 x51 0xffffffff in
  let '(x64, x63) := Mul64 x51 0xffffffffffffffff in
  let '(x65, x66) := Add64 x64 x61 0 in
  let '(_, x68) := Add64 x51 x63 0 in
  let '(x69, x70) := Add64 x53 x65 x68 in
  let '(x71, x72) := Add64 x55 (u64 (x66 + x62)) x70 in
  let '(x73, x74) := Add64 x57 x59 x72 in
  let '(x75, x76) := Add64 (u64 ((u64 (x58 + x36)) + (u64 (x50 + x38)))) x60 x74 in
  (x69, x71, x73, x75, x76).

Definition p256ToMontgomery_row2 (t : Z * Z * Z * Z * Z) (x2 : Z) : (Z * Z * Z * Z * Z)%type :=
  let '(x69, x71, x73, x75, x76) := t in
  let '(x78, x77) := Mul64 x2 0x4fffffffd in
  let '(x80, x79) := Mul64 x2 0xfffffffffffffffe in
  let '(x82, x81) := Mul64 x2 0xfffffffbffffffff in
  let '(x84, x83) := Mul64 x2 0x3 in
  let '(x85, x86) := Add64 x84 x81 0 in
  let '(x87, x88) := Add64 x82 x79 x86 in
  let '(x89, x90) := Add64 x80 x77 x88 in
  let '(x91, x92) := Add64 x69 x83 0 in
  let '(x93, x94) := Add64 x71 x85 x92 in
  let '(x95, x96) := Add64 x73 x87 x94 in
  let '(x97, x98) := Add64 x75 x89 x96 in
  let '(x100, x99) := Mul64 x91 0xffffffff00000001 in
  let '(x102, x101) := Mul64 x91 0xffffffff in
  let '(x104, x103) := Mul64 x91 0xffffffffffffffff in
  let '(x105, x106) := Add64 x104 x101 0 in
  let '(_, x108) := Add64 x91 x103 0 in
  let '(x109, x110) := Add64 x93 x105 x108 in
  let '(x111, x112) := Add64 x95 (u64 (x106 + x102)) x110 in
  let '(x113, x114) := Add64 x97 x99 x112 in
  let '(x115, x116) := Add64 (u64 ((u64 (x98 + x76)) + (u64 (x90 + x78)))) x100 x114 in
  (x109, x111, x113, x115, x116).

Definition p256ToMontgomery_row3 (t : Z * Z * Z * Z * Z) (x3 : Z) : (Z * Z * Z * Z * Z)%type :=
  let '(x109, x111, x113, x115, x116) := t in
  let '(x118, x117) := Mul64 x3 0x4fffffffd in
  let '(x120, x119) := Mul64 x3 0xfffffffffffffffe in
  let '(x122, x121) := Mul64 x3 0xfffffffbffffffff in
  let '(x124, x123) := Mul64 x3 0x3 in
  let '(x125, x126) := Add64 x124 x121 0 in
  let '(x127, x128) := Add64 x122 x119 x126 in
  let '(x129, x130) := Add64 x120 x117 x128 in
  let '(x131, x132) := Add64 x109 x123 0 in
  let '(x133, x134) := Add64 x111 x125 x132 in
  let '(x135, x136) := Add64 x113 x127 x134 in
  let '(x137, x138) := Add64 x115 x129 x136 in
  let '(x140, x139) := Mul64 x131 0xffffffff00000001 in
  let '(x142, x141) := Mul64 x131 0xffffffff in
  let '(x144, x143) := Mul64 x131 0xffffffffffffffff in
  let '(x145, x146) := Add64 x144 x141 0 in
  let '(_, x148) := Add64 x131 x143 0 in
  let '(x149, x150) := Add64 x133 x145 x148 in
  let '(x151, x152) := Add64 x135 (u64 (x146 + x142)) x150 in
  let '(x153, x154) := Add64 x137 x139 x152 in
  let '(x155, x156) := Add64 (u64 ((u64 (x138 + x116)) + (u64 (x130 + x118)))) x140 x154 in
  (x149, x151, x153, x155, x156).

Definition p256ToMontgomery_reduce (t : Z * Z * Z * Z * Z) : Limbs4 :=
  let '(x149, x151, x153, x155, x156) := t in
  let '(x157, x158) := Sub64 x149 0xffffffffffffffff 0 in
  let '(x159, x160) := Sub64 x151 0xffffffff x158 in
  let '(x161, x162) := Sub64 x153 0 x160 in
  let '(x163, x164) := Sub64 x155 0xffffffff00000001 x162 in
  let '(_, x166) := Sub64 x156 0 x164 in
  let x167 := p256CmovznzU64 x166 x157 x149 in
  let x168 := p256CmovznzU64 x166 x159 x151 in
  let x169 := p256CmovznzU64 x166 x161 x153 in
  let x170 := p256CmovznzU64 x166 x163 x155 in
  MkLimbs4 x167 x168 x169 x170.

Definition p256ToMontgomery (arg1 : Limbs4) : Limbs4 :=
  let x1 := l1 arg1 in
  let x2 := l2 arg1 in
  let x3 := l3 arg1 in
  let x4 := l0 arg1 in
  let t := p256ToMontgomery_row0 x4 in
  let t := p256ToMontgomery_row1 t x1 in
  let t := p256ToMontgomery_row2 t x2 in
  let t := p256ToMontgomery_row3 t x3 in
  p256ToMontgomery_reduce t.

Definition p256Selectznz (arg1 : Z) (arg2 arg3 : Limbs4) : Limbs4 :=
  let x1 := p256CmovznzU64 arg1 (l0 arg2) (l0 arg3) in
  let x2 := p256CmovznzU64 arg1 (l1 arg2) (l1 arg3) in
  let x3 := p256CmovznzU64 arg1 (l2 arg2) (l2 arg3) in
  let x4 := p256CmovznzU64 arg1 (l3 arg2) (l3 arg3) in
  MkLimbs4 x1 x2 x3 x4.

Definition p256ToBytes (arg1 : Limbs4) : list Z :=
  let x1 := l3 arg1 in
  let x2 := l2 arg1 in
  let x3 := l1 arg1 in
  let x4 := l0 arg1 in
  let x5 := Z.land (u8 x4) 0xff in
  let x6 := Z.shiftr x4 8 in
  let x7 := Z.land (u8 x6) 0xff in
  let x8 := Z.shiftr x6 8 in
  let x9 := Z.land (u8 x8) 0xff in
  let x10 := Z.shiftr x8 8 in
  let x11 := Z.land (u8 x10) 0xff in
  let x12 := Z.shiftr x10 8 in
  let x13 := Z.land (u8 x12) 0xff in
  let x14 := Z.shiftr x12 8 in
  let x15 := Z.land (u8 x14) 0xff in
  let x16 := Z.shiftr x14 8 in
  let x17 := Z.land (u8 x16) 0xff in
  let x18 := u8 (Z.shiftr x16 8) in
  let x19 := Z.land (u8 x3) 0xff in
  let x20 := Z.shiftr x3 8 in
  let x21 := Z.land (u8 x20) 0xff in
  let x22 := Z.shiftr x20 8 in
  let x23 := Z.land (u8 x22) 0xff in
  let x24 := Z.shiftr x22 8 in
  let x25 := Z.land (u8 x24) 0xff in
  let x26 := Z.shiftr x24 8 in
  let x27 := Z.land (u8 x26) 0xff in
  let x28 := Z.shiftr x26 8 in
  let x29 := Z.land (u8 x28) 0xff in
  let x30 := Z.shiftr x28 8 in
  let x31 := Z.land (u8 x30) 0xff in
  let x32 := u8 (Z.shiftr x30 8) in
  let x33 := Z.land (u8 x2) 0xff in
  let x34 := Z.shiftr x2 8 in
  let x35 := Z.land (u8 x34) 0xff in
  let x36 := Z.shiftr x34 8 in
  let x37 := Z.land (u8 x36) 0xff in
  let x38 := Z.shiftr x36 8 in
  let x39 := Z.land (u8 x38) 0xff in
  let x40 := Z.shiftr x38 8 in
  let x41 := Z.land (u8 x40) 0xff in
  let x42 := Z.shiftr x40 8 in
  let x43 := Z.land (u8 x42) 0xff in
  let x44 := Z.shiftr x42 8 in
  let x45 := Z.land (u8 x44) 0xff in
  let x46 := u8 (Z.shiftr x44 8) in
  let x47 := Z.land (u8 x1) 0xff in
  let x48 := Z.shiftr x1 8 in
  let x49 := Z.land (u8 x48) 0xff in
  let x50 := Z.shiftr x48 8 in
  let x51 := Z.land (u8 x50) 0xff in
  let x52 := Z.shiftr x50 8 in
  let x53 := Z.land (u8 x52) 0xff in
  let x54 := Z.shiftr x52 8 in
  let x55 := Z.land (u8 x54) 0xff in
  let x56 := Z.shiftr x54 8 in
  let x57 := Z.land (u8 x56) 0xff in
  let x58 := Z.shiftr x56 8 in
  let x59 := Z.land (u8 x58) 0xff in
  let x60 := u8 (Z.shiftr x58 8) in
  [x5; x7; x9; x11; x13; x15; x17; x18; x19; x21; x23; x25; x27; x29; x31; x32;
   x33; x35; x37; x39; x41; x43; x45; x46; x47; x49; x51; x53; x55; x57; x59; x60].

Definition p256FromBytes (arg1 : list Z) : Limbs4 :=
  let x1 := u64 (Z.shiftl (nth 31 arg1 0) 56) in
  let x2 := u64 (Z.shiftl (nth 30 arg1 0) 48) in
  let x3 := u64 (Z.shiftl (nth 29 arg1 0) 40) in
  let x4 := u64 (Z.shiftl (nth 28 arg1 0) 32) in
  let x5 := u64 (Z.shiftl (nth 27 arg1 0) 24) in
  let x6 := u64 (Z.shiftl (nth 26 arg1 0) 16) in
  let x7 := u64 (Z.shiftl (nth 25 arg1 0) 8) in
  let x8 := nth 24 arg1 0 in
  let x9 := u64 (Z.shiftl (nth 23 arg1 0) 56) in
  let x10 := u64 (Z.shiftl (nth 22 arg1 0) 48) in
  let x11 := u64 (Z.shiftl (nth 21 arg1 0) 40) in
  let x12 := u64 (Z.shiftl (nth 20 arg1 0) 32) in
  let x13 := u64 (Z.shiftl (nth 19 arg1 0) 24) in
  let x14 := u64 (Z.shiftl (nth 18 arg1 0) 16) in
  let x15 := u64 (Z.shiftl (nth 17 arg1 0) 8) in
  let x16 := nth 16 arg1 0 in
  let x17 := u64 (Z.shiftl (nth 15 arg1 0) 56) in
  let x18 := u64 (Z.shiftl (nth 14 arg1 0) 48) in
  let x19 := u64 (Z.shiftl (nth 13 arg1 0) 40) in
  let x20 := u64 (Z.shiftl (nth 12 arg1 0) 32) in
  let x21 := u64 (Z.shiftl (nth 11 arg1 0) 24) in
  let x22 := u64 (Z.shiftl (nth 10 arg1 0) 16) in
  let x23 := u64 (Z.shiftl (nth 9 arg1 0) 8) in
  let x24 := nth 8 arg1 0 in
  let x25 := u64 (Z.shiftl (nth 7 arg1 0) 56) in
  let x26 := u64 (Z.shiftl (nth 6 arg1 0) 48) in
  let x27 := u64 (Z.shiftl (nth 5 arg1 0) 40) in
  let x28 := u64 (Z.shiftl (nth 4 arg1 0) 32) in
  let x29 := u64 (Z.shiftl (nth 3 arg1 0) 24) in
  let x30 := u64 (Z.shiftl (nth 2 arg1 0) 16) in
  let x31 := u64 (Z.shiftl (nth 1 arg1 0) 8) in
  let x32 := nth 0 arg1 0 in
  let x33 := u64 (x31 + x32) in
  let x34 := u64 (x30 + x33) in
  let x35 := u64 (x29 + x34) in
  let x36 := u64 (x28 + x35) in
  let x37 := u64 (x27 + x36) in
  let x38 := u64 (x26 + x37) in
  let x39 := u64 (x25 + x38) in
  let x40 := u64 (x23 + x24) in
  let x41 := u64 (x22 + x40) in
  let x42 := u64 (x21 + x41) in
  let x43 := u64 (x20 + x42) in
  let x44 := u64 (x19 + x43) in
  let x45 := u64 (x18 + x44) in
  let x46 := u64 (x17 + x45) in
  let x47 := u64 (x15 + x16) in
  let x48 := u64 (x14 + x47) in
  let x49 := u64 (x13 + x48) in
  let x50 := u64 (x12 + x49) in
  let x51 := u64 (x11 + x50) in
  let x52 := u64 (x10 + x51) in
  let x53 := u64 (x9 + x52) in
  let x54 := u64 (x7 + x8) in
  let x55 := u64 (x6 + x54) in
  let x56 := u64 (x5 + x55) in
  let x57 := u64 (x4 + x56) in
  let x58 := u64 (x3 + x57) in
  let x59 := u64 (x2 + x58) in
  let x60 := u64 (x1 + x59) in
  MkLimbs4 x39 x46 x53 x60.

(** ** Values *)

Definition p256 : Z :=
  0xffffffff00000001000000000000000000000000ffffffffffffffffffffffff.

Definition eval (a : Limbs4) : Z :=
  l0 a + W64 * (l1 a + W64 * (l2 a + W64 * l3 a)).

Definition limbs_ok (a : Limbs4) : Prop :=
  is_u64 (l0 a) /\ is_u64 (l1 a) /\ is_u64 (l2 a) /\ is_u64 (l3 a).

(** The contract the source states for every function: limbs in range and a
    value below the modulus. *)
Definition canonical (a : Limbs4) : Prop := limbs_ok a /\ eval a < p256.

(** The inverse of the Montgomery radix 2^256 modulo p. *)
Definition p256_Rinv : Z :=
  0xfffffffe00000003fffffffd0000000200000001fffffffe0000000300000000.

Lemma p256_Rinv_ok : (W64 ^ 4 * p256_Rinv) mod p256 = 1.
Proof. reflexivity. Qed.

(** The field element a Montgomery-domain limb vector stands for. *)
Definition mont_val (a : Limbs4) : Z := (eval a * p256_Rinv) mod p256.

(** ** Conditional move *)

Lemma p256CmovznzU64_spec c x y :
  0 <= c <= 1 -> is_u64 x -> is_u64 y ->
  p256CmovznzU64 c x y = if c =? 0 then x else y.
Proof.
  intros Hc Hx Hy; unfold p256CmovznzU64.
  assert (c = 0 \/ c = 1) as [-> | ->] by lia; cbn [Z.eqb].
  - change (u64 (0 * _)) with 0; rewrite Z.land_0_l, Z.lor_0_l.
    change (not64 0) with (2 ^ 64 - 1); rewrite Z.land_comm, land_mask by lia.
    apply Z.mod_small, Hx.
  - change (u64 (1 * _)) with (2 ^ 64 - 1).
    change (not64 (2 ^ 64 - 1)) with 0; rewrite Z.land_0_l, Z.lor_0_r.
    rewrite Z.land_comm, land_mask by lia. apply Z.mod_small, Hy.
Qed.

(** ** One step of word-by-word Montgomery reduction *)

(** The five-word accumulator. *)
Definition eval5 (t : Z * Z * Z * Z * Z) : Z :=
  let '(t0, t1, t2, t3, t4) := t in
  t0 + W64 * (t1 + W64 * (t2 + W64 * (t3 + W64 * t4))).

Definition acc_ok (t : Z * Z * Z * Z * Z) : Prop :=
  let '(t0, t1, t2, t3, t4) := t in
  is_u64 t0 /\ is_u64 t1 /\ is_u64 t2 /\ is_u64 t3 /\ 0 <= t4 <= 1.

(** [t'] is [(t + v + m p) / 2^64] for some word [m]. *)
Definition mont_row (t : Z) (v : Z) (t' : Z * Z * Z * Z * Z) : Prop :=
  acc_ok t' /\ exists m, is_u64 m /\ W64 * eval5 t' = t + v + m * p256.

(** The reduction step cancels the low word: the sum that is thrown away is 0. *)
Lemma low_word_cancels x lo hi s c :
  lo + W64 * hi = x * 18446744073709551615 -> s + W64 * c = x + lo + 0 -> is_u64 s -> s = 0.
Proof. unword; lia. Qed.

Ltac kill_low :=
  match goal with
  | E : ?lo + _ = ?x * 18446744073709551615, F : ?s + _ = ?x + ?lo + 0, H : is_u64 ?s |- _ =>
      pose proof (low_word_cancels _ _ _ _ _ E F H); clear H
  end.

(** Bounds are kept by every row: below [2p] before and after. *)
Lemma mont_row_bound t x b t' :
  0 <= t < 2 * p256 -> is_u64 x -> 0 <= b < p256 ->
  forall m, is_u64 m -> W64 * t' = t + x * b + m * p256 -> 0 <= t' < 2 * p256.
Proof.
  unword; intros Ht Hx Hb m Hm E.
  assert (0 <= x * b <= (W64 - 1) * (p256 - 1)) by
    (split; [nia|apply Z.mul_le_mono_nonneg; lia]).
  unfold p256 in *; lia.
Qed.

(** Final top-word bound: the accumulator is below [2p], so its top word is a bit. *)
Lemma top_is_bit t0 t1 t2 t3 t4 :
  is_u64 t0 -> is_u64 t1 -> is_u64 t2 -> is_u64 t3 -> 0 <= t4 ->
  eval5 (t0, t1, t2, t3, t4) < 2 * p256 -> acc_ok (t0, t1, t2, t3, t4).
Proof. unfold acc_ok, p256, eval5; unword; intros; repeat split; lia. Qed.

(** [row_ok f b]: step [f] multiplies by the constant [b] and reduces. *)
Definition row_ok (f : Z * Z * Z * Z * Z -> Z -> Z * Z * Z * Z * Z) (b : Z) : Prop :=
  forall t x, acc_ok t -> eval5 t < 2 * p256 -> is_u64 x ->
  mont_row (eval5 t) (x * b) (f t x) /\ eval5 (f t x) < 2 * p256.

Definition row0_ok (f : Z -> Z * Z * Z * Z * Z) (b : Z) : Prop :=
  forall x, is_u64 x -> mont_row 0 (x * b) (f x) /\ eval5 (f x) < 2 * p256.

Lemma acc_ok_nonneg t : acc_ok t -> 0 <= eval5 t.
Proof. destruct t as [[[[? ?] ?] ?] ?]; unfold acc_ok, eval5; unword; lia. Qed.

Lemma limbs_nonneg a : limbs_ok a -> 0 <= eval a.
Proof. unfold limbs_ok, eval; unword; lia. Qed.
#[export] Hint Resolve acc_ok_nonneg limbs_nonneg : janos.

(** A row whose result words are in range and whose equation holds is [row_ok]:
    the bound on the top word follows from the bound on the value. *)
Lemma mont_row_intro t x b t' t0 t1 t2 t3 t4 m :
  t' = (t0, t1, t2, t3, t4) ->
  0 <= t < 2 * p256 -> is_u64 x -> 0 <= b < p256 -> is_u64 m ->
  is_u64 t0 -> is_u64 t1 -> is_u64 t2 -> is_u64 t3 -> 0 <= t4 ->
  W64 * eval5 t' = t + x * b + m * p256 ->
  mont_row t (x * b) t' /\ eval5 t' < 2 * p256.
Proof.
  intros -> Ht Hx Hb Hm H0 H1 H2 H3 H4 E.
  destruct (mont_row_bound _ _ _ _ Ht Hx Hb _ Hm E) as [_ Hlt].
  split; [|exact Hlt]; split; [apply top_is_bit; assumption|].
  exists m; split; assumption.
Qed.

Ltac finish_row :=
  match goal with
  | E : _ + _ = ?m * 18446744073709551615 |- mont_row _ _ ?t' /\ _ =>
      eapply (mont_row_intro _ _ _ _ _ _ _ _ _ m); [reflexivity|..];
      try assumption; unfold eval, eval5, p256 in *; cbn [l0 l1 l2 l3] in *; try lia
  end.

Lemma p256Mul_row0_ok b : canonical b -> row0_ok (fun x => p256Mul_row0 x b) (eval b).
Proof.
  intros [Hb Hlt] x Hx; pose proof (limbs_nonneg b Hb).
  destruct b as [b0 b1 b2 b3]; destruct Hb as (B0 & B1 & B2 & B3); cbn [l0 l1 l2 l3] in *.
  unfold p256Mul_row0; cbv beta zeta; cbn [l0 l1 l2 l3]; repeat prim_step; kill_low.
  finish_row.
Qed.

Lemma p256Mul_row1_ok b : canonical b -> row_ok (fun t x => p256Mul_row1 t x b) (eval b).
Proof.
  intros [Hb Hlt] [[[[t0 t1] t2] t3] t4] x Ht Hlt' Hx; pose proof (limbs_nonneg b Hb).
  pose proof (acc_ok_nonneg _ Ht).
  destruct b as [b0 b1 b2 b3]; destruct Hb as (B0 & B1 & B2 & B3); cbn [l0 l1 l2 l3] in *.
  destruct Ht as (T0 & T1 & T2 & T3 & T4).
  unfold p256Mul_row1; cbv beta zeta; cbn [l0 l1 l2 l3]; repeat prim_step; kill_low.
  finish_row.
Qed.

(** Rows 2 and 3 are the same code as row 1 up to the names of the variables,
    and squaring is the same code as multiplication with both operands equal. *)
Lemma p256Mul_row2_ok b : canonical b -> row_ok (fun t x => p256Mul_row2 t x b) (eval b).
Proof. exact (p256Mul_row1_ok b). Qed.

Lemma p256Mul_row3_ok b : canonical b -> row_ok (fun t x => p256Mul_row3 t x b) (eval b).
Proof. exact (p256Mul_row1_ok b). Qed.

(** The final conditional subtraction. *)
Lemma p256Mul_reduce_ok t :
  acc_ok t -> eval5 t < 2 * p256 ->
  canonical (p256Mul_reduce t) /\
  exists q, eval (p256Mul_reduce t) = eval5 t - q * p256.
Proof.
  destruct t as [[[[t0 t1] t2] t3] t4]; intros (T0 & T1 & T2 & T3 & T4) Hlt.
  unfold p256Mul_reduce; cbv beta zeta; repeat prim_step.
  rewrite !p256CmovznzU64_spec by assumption.
  unfold canonical, limbs_ok, eval, eval5, p256 in *.
  match goal with |- context [if ?b =? 0 then _ else _] =>
    assert (b = 0 \/ b = 1) as [-> | ->] by lia end; cbn [Z.eqb Pos.eqb l0 l1 l2 l3];
    unword; (split; [repeat split; lia|]).
  - exists 1; lia.
  - exists 0; lia.
Qed.

(** ** Composition of the rows *)

Lemma mont_compose f0 f1 f2 f3 b a :
  row0_ok f0 b -> row_ok f1 b -> row_ok f2 b -> row_ok f3 b -> limbs_ok a ->
  let t := f3 (f2 (f1 (f0 (l0 a)) (l1 a)) (l2 a)) (l3 a) in
  acc_ok t /\ eval5 t < 2 * p256 /\
  exists M, W64 ^ 4 * eval5 t = eval a * b + M * p256.
Proof.
  intros R0 R1 R2 R3 (A0 & A1 & A2 & A3).
  destruct (R0 _ A0) as [[O0 (m0 & M0 & E0)] L0].
  destruct (R1 _ _ O0 L0 A1) as [[O1 (m1 & M1 & E1)] L1].
  destruct (R2 _ _ O1 L1 A2) as [[O2 (m2 & M2 & E2)] L2].
  destruct (R3 _ _ O2 L2 A3) as [[O3 (m3 & M3 & E3)] L3].
  split; [exact O3|split; [exact L3|]].
  exists (m0 + W64 * (m1 + W64 * (m2 + W64 * m3))); unfold eval.
  transitivity (W64 ^ 3 * (W64 * eval5 (f3 (f2 (f1 (f0 (l0 a)) (l1 a)) (l2 a)) (l3 a))));
    [ring|rewrite E3].
  transitivity (W64 ^ 2 * (W64 * eval5 (f2 (f1 (f0 (l0 a)) (l1 a)) (l2 a)))
                + W64 ^ 3 * (l3 a * b + m3 * p256)); [ring|rewrite E2].
  transitivity (W64 * (W64 * eval5 (f1 (f0 (l0 a)) (l1 a)))
                + W64 ^ 2 * (l2 a * b + m2 * p256)
                + W64 ^ 3 * (l3 a * b + m3 * p256)); [ring|rewrite E1].
  transitivity (W64 * eval5 (f0 (l0 a)) + W64 * (l1 a * b + m1 * p256)
                + W64 ^ 2 * (l2 a * b + m2 * p256)
                + W64 ^ 3 * (l3 a * b + m3 * p256)); [ring|rewrite E0; ring].
Qed.

(** Dividing by the radix: a reduced [z] with [2^256 z = v (mod p)] is [v / 2^256]. *)
Lemma mont_div_unique z v M :
  0 <= z < p256 -> W64 ^ 4 * z = v + M * p256 -> z = (v * p256_Rinv) mod p256.
Proof.
  intros Hz E.
  assert (Ev : v = W64 ^ 4 * z - M * p256) by lia.
  replace (v * p256_Rinv)
    with ((W64 ^ 4 * p256_Rinv) * z + (- M * p256_Rinv) * p256) by (rewrite Ev; ring).
  rewrite Z_mod_plus_full, Z.mul_mod, p256_Rinv_ok, Z.mul_1_l, Z.mod_mod by (unfold p256; lia).
  symmetry; apply Z.mod_small, Hz.
Qed.

Lemma canonical_range a : canonical a -> 0 <= eval a < p256.
Proof. intros [H Hlt]; split; [apply limbs_nonneg, H|exact Hlt]. Qed.

Lemma canonical_limbs a : canonical a -> limbs_ok a.
Proof. intros [H _]; exact H. Qed.
#[export] Hint Resolve canonical_range canonical_limbs : janos.

(** The value of a limb vector determines it. *)
Lemma eval_inj a b : limbs_ok a -> limbs_ok b -> eval a = eval b -> a = b.
Proof.
  destruct a as [a0 a1 a2 a3], b as [b0 b1 b2 b3].
  intros (? & ? & ? & ?) (? & ? & ? & ?) E; unfold eval in E; cbn [l0 l1 l2 l3] in *; unword.
  assert (a0 = b0) as -> by lia. assert (a1 = b1) as -> by lia.
  assert (a2 = b2) as -> by lia. assert (a3 = b3) as -> by lia. reflexivity.
Qed.

(** From the accumulator after four rows to the reduced result. *)
Lemma mont_finish r t v :
  acc_ok t -> eval5 t < 2 * p256 ->
  (exists M, W64 ^ 4 * eval5 t = v + M * p256) ->
  (canonical r /\ exists q, eval r = eval5 t - q * p256) ->
  canonical r /\ eval r = (v * p256_Rinv) mod p256.
Proof.
  intros Ht Hlt [M E] [Hc [q Eq]]; split; [exact Hc|].
  apply (mont_div_unique _ _ (M - W64 ^ 4 * q)); [apply canonical_range, Hc|].
  rewrite Eq, Z.mul_sub_distr_l, E; ring.
Qed.

(** Montgomery multiplication: [arg1 * arg2 / 2^256 mod p], fully reduced.  The
    first operand may be any limb vector. *)
Lemma p256Mul_spec a b :
  limbs_ok a -> canonical b ->
  canonical (p256Mul a b) /\
  eval (p256Mul a b) = (eval a * eval b * p256_Rinv) mod p256.
Proof.
  intros Ha Hb.
  destruct (mont_compose _ _ _ _ _ a (p256Mul_row0_ok b Hb) (p256Mul_row1_ok b Hb)
              (p256Mul_row2_ok b Hb) (p256Mul_row3_ok b Hb) Ha) as (Ht & Hlt & HM).
  eapply mont_finish; [exact Ht|exact Hlt|exact HM|].
  apply p256Mul_reduce_ok; assumption.
Qed.

Lemma p256Square_rows :
  p256Square_row0 = p256Mul_row0 /\ p256Square_row1 = p256Mul_row1 /\
  p256Square_row2 = p256Mul_row2 /\ p256Square_row3 = p256Mul_row3 /\
  p256Square_reduce = p256Mul_reduce.
Proof. repeat split. Qed.

Lemma p256Square_eq_Mul a : p256Square a = p256Mul a a.
Proof.
  unfold p256Square, p256Mul; destruct p256Square_rows as (-> & -> & -> & -> & ->).
  reflexivity.
Qed.

(** ** Addition and subtraction *)

Lemma p256Add_spec a b :
  canonical a -> canonical b ->
  canonical (p256Add a b) /\ eval (p256Add a b) = (eval a + eval b) mod p256.
Proof.
  intros [Ha La] [Hb Lb]; pose proof (limbs_nonneg _ Ha); pose proof (limbs_nonneg _ Hb).
  destruct Ha as (A0 & A1 & A2 & A3), Hb as (B0 & B1 & B2 & B3).
  unfold p256Add; cbv beta zeta; repeat prim_step.
  rewrite !p256CmovznzU64_spec by assumption.
  unfold canonical, limbs_ok, eval, p256 in *.
  match goal with |- context [if ?b =? 0 then _ else _] =>
    assert (b = 0 \/ b = 1) as [-> | ->] by lia end; cbn [Z.eqb Pos.eqb l0 l1 l2 l3];
    unword; (split; [repeat split; lia|]).
  - apply (Z.mod_unique _ _ 1); lia.
  - apply (Z.mod_unique _ _ 0); lia.
Qed.

Lemma p256Sub_spec a b :
  canonical a -> canonical b ->
  canonical (p256Sub a b) /\ eval (p256Sub a b) = (eval a - eval b) mod p256.
Proof.
  intros [Ha La] [Hb Lb]; pose proof (limbs_nonneg _ Ha); pose proof (limbs_nonneg _ Hb).
  destruct Ha as (A0 & A1 & A2 & A3), Hb as (B0 & B1 & B2 & B3).
  unfold p256Sub; cbv beta zeta; do 4 prim_step.
  rewrite !p256CmovznzU64_spec by word_side.
  unfold canonical, limbs_ok, eval, p256 in *.
  match goal with |- context [if ?b =? 0 then _ else _] =>
    assert (b = 0 \/ b = 1) as [-> | ->] by lia end; cbn [Z.eqb Pos.eqb].
  - rewrite !Z.land_0_l; do 4 prim_step; cbn [l0 l1 l2 l3]; unword.
    split; [repeat split; lia|]. apply (Z.mod_unique _ _ 0); lia.
  - change (Z.land _ 0xffffffff) with 0xffffffff.
    change (Z.land _ 0xffffffff00000001) with 0xffffffff00000001.
    do 4 prim_step; cbn [l0 l1 l2 l3]; unword.
    split; [repeat split; lia|]. apply (Z.mod_unique _ _ (-1)); lia.
Qed.

Lemma p256SetOne_canonical : canonical p256SetOne.
Proof. unfold canonical, limbs_ok, is_u64; cbn; repeat split; easy. Qed.

Lemma p256SetOne_eval : eval p256SetOne = W64 ^ 4 mod p256.
Proof. reflexivity. Qed.

(** ** Leaving and entering the Montgomery domain *)

(** Four reductions of a one-word-at-a-time accumulator: the accumulator that
    enters the conditional subtraction is already below the modulus. *)
Lemma p256FromMontgomery_spec a :
  canonical a ->
  canonical (p256FromMontgomery a) /\ eval (p256FromMontgomery a) = mont_val a.
Proof.
  intros [Ha La]; pose proof (limbs_nonneg _ Ha).
  destruct a as [a0 a1 a2 a3]; destruct Ha as (A0 & A1 & A2 & A3); cbn [l0 l1 l2 l3] in *.
  unfold p256FromMontgomery, mont_val; cbv beta zeta; cbn [l0 l1 l2 l3].
  repeat prim_step; repeat kill_low.
  set (T := s19 + W64 * (s22 + W64 * (s23 + W64 * (c23 + hi8)))).
  assert (ET : W64 ^ 4 * T = eval (MkLimbs4 a0 a1 a2 a3)
      + (a0 + W64 * (s2 + W64 * (s6 + W64 * s14))) * p256)
    by (unfold T, p256, eval; cbn [l0 l1 l2 l3]; lia).
  assert (HT : T < p256) by (unfold p256 in *; unword; lia).
  rewrite !p256CmovznzU64_spec by (assumption || word_side).
  assert (b3 = 1) as -> by (unfold T, p256 in HT; unword; lia).
  cbn [Z.eqb Pos.eqb]; assert (Hr : canonical (MkLimbs4 s19 s22 s23 (c23 + hi8)))
   by (split; [repeat split; cbn; try assumption; unword; lia|exact HT]).
  split; [exact Hr|].
  eapply mont_div_unique; [apply canonical_range, Hr|exact ET].
Qed.

(** 2^512 mod p, the constant whose limbs [p256ToMontgomery] multiplies by. *)
Definition p256_RR : Limbs4 :=
  MkLimbs4 0x3 0xfffffffbffffffff 0xfffffffffffffffe 0x4fffffffd.

Lemma p256_RR_ok : canonical p256_RR /\ eval p256_RR = W64 ^ 8 mod p256.
Proof. split; [unfold canonical, limbs_ok, is_u64; cbn; repeat split; easy|reflexivity]. Qed.

Lemma p256ToMontgomery_row0_ok : row0_ok p256ToMontgomery_row0 (eval p256_RR).
Proof.
  intros x Hx; unfold p256ToMontgomery_row0; cbv beta zeta; repeat prim_step; kill_low.
  unfold p256_RR; finish_row.
Qed.

Lemma p256ToMontgomery_row1_ok : row_ok p256ToMontgomery_row1 (eval p256_RR).
Proof.
  intros [[[[t0 t1] t2] t3] t4] x Ht Hlt' Hx; pose proof (acc_ok_nonneg _ Ht).
  destruct Ht as (T0 & T1 & T2 & T3 & T4).
  unfold p256ToMontgomery_row1; cbv beta zeta; repeat prim_step; kill_low.
  unfold p256_RR; finish_row.
Qed.

Lemma p256ToMontgomery_rows :
  p256ToMontgomery_row2 = p256ToMontgomery_row1 /\
  p256ToMontgomery_row3 = p256ToMontgomery_row1 /\
  p256ToMontgomery_reduce = p256Mul_reduce.
Proof. repeat split. Qed.

Lemma p256ToMontgomery_spec a :
  limbs_ok a ->
  canonical (p256ToMontgomery a) /\
  eval (p256ToMontgomery a) = (eval a * W64 ^ 4) mod p256.
Proof.
  intros Ha; pose proof (p256ToMontgomery_row1_ok) as R.
  unfold p256ToMontgomery; destruct p256ToMontgomery_rows as (-> & -> & ->); cbv zeta.
  destruct (mont_compose _ _ _ _ _ a p256ToMontgomery_row0_ok R R R Ha) as (Ht & Hlt & HM).
  destruct (mont_finish _ _ _ Ht Hlt HM (p256Mul_reduce_ok _ Ht Hlt)) as [Hc He].
  split; [exact Hc|]; rewrite He; clear.
  destruct p256_RR_ok as [_ ->].
  rewrite <- Z.mul_assoc, Z.mul_mod, (Z.mul_mod (eval a) (W64 ^ 4)) by (unfold p256; lia).
  reflexivity.
Qed.

(** ** Selection and byte conversion *)

Lemma p256Selectznz_spec c a b :
  0 <= c <= 1 -> limbs_ok a -> limbs_ok b ->
  p256Selectznz c a b = if c =? 0 then a else b.
Proof.
  intros Hc (A0 & A1 & A2 & A3) (B0 & B1 & B2 & B3); unfold p256Selectznz; cbv zeta.
  rewrite !p256CmovznzU64_spec by assumption; destruct a, b, (c =? 0); reflexivity.
Qed.

(** The low byte of a shifted word. *)
Lemma low_byte x : Z.land (u8 x) 0xff = x mod W8.
Proof.
  change 0xff with (2 ^ 8 - 1); rewrite land_mask by lia; unfold u8.
  apply Z.mod_mod; lia.
Qed.

(** The eight bytes the source cuts out of one limb. *)
Lemma limb_bytes x :
  le_bytes 8 x =
  [x mod W8; x / W8 mod W8; x / W8 / W8 mod W8; x / W8 / W8 / W8 mod W8;
   x / W8 / W8 / W8 / W8 mod W8; x / W8 / W8 / W8 / W8 / W8 mod W8;
   x / W8 / W8 / W8 / W8 / W8 / W8 mod W8; x / W8 / W8 / W8 / W8 / W8 / W8 / W8 mod W8].
Proof. reflexivity. Qed.

Lemma le_bytes_eval a :
  limbs_ok a ->
  le_bytes 32 (eval a) =
  le_bytes 8 (l0 a) ++ le_bytes 8 (l1 a) ++ le_bytes 8 (l2 a) ++ le_bytes 8 (l3 a).
Proof.
  intros (A0 & A1 & A2 & A3); unfold eval.
  change W64 with (pow256 8).
  rewrite (le_bytes_app 8 24), (le_bytes_app 8 16), (le_bytes_app 8 8) by assumption.
  reflexivity.
Qed.

(** Serialisation: the 32 little-endian bytes of the value. *)
Lemma p256ToBytes_spec a : limbs_ok a -> p256ToBytes a = le_bytes 32 (eval a).
Proof.
  intros Ha; rewrite (le_bytes_eval a Ha), !limb_bytes.
  unfold p256ToBytes; cbv zeta; rewrite !low_byte, !Z.shiftr_div_pow2 by lia.
  reflexivity.
Qed.

(** Eight bytes shifted into place and added, in the order of the source. *)
Lemma limb_from_bytes b0 b1 b2 b3 b4 b5 b6 b7 :
  bytes [b0; b1; b2; b3; b4; b5; b6; b7] ->
  u64 (u64 (Z.shiftl b7 56) + u64 (u64 (Z.shiftl b6 48) + u64 (u64 (Z.shiftl b5 40) +
   u64 (u64 (Z.shiftl b4 32) + u64 (u64 (Z.shiftl b3 24) + u64 (u64 (Z.shiftl b2 16) +
   u64 (u64 (Z.shiftl b1 8) + b0))))))) = le_val [b0; b1; b2; b3; b4; b5; b6; b7].
Proof.
  intros H; repeat match goal with H : bytes (_ :: _) |- _ => inversion_clear H
    | H : Forall _ (_ :: _) |- _ => inversion_clear H end.
  rewrite !Z.shiftl_mul_pow2 by lia; cbn [le_val]; unword.
  repeat match goal with |- context [u64 ?x] =>
    lazymatch x with context [u64] => fail | _ => rewrite (u64_small x) by (unword; lia) end end.
  lia.
Qed.

Lemma limb_of_8 l : bytes l -> length l = 8%nat -> is_u64 (le_val l).
Proof. intros H E; pose proof (le_val_range l H); rewrite E in *; assumption. Qed.

Lemma p256FromBytes_spec l :
  bytes l -> length l = 32%nat ->
  limbs_ok (p256FromBytes l) /\ eval (p256FromBytes l) = le_val l.
Proof.
  intros Hb Hl.
  assert (E : l = firstn 8 l ++ firstn 8 (skipn 8 l) ++ firstn 8 (skipn 16 l) ++ skipn 24 l).
  { rewrite (split_32 l Hl) at 1; do 3 f_equal; apply firstn_all2; rewrite length_skipn, Hl; lia. }
  assert (E4 : p256FromBytes l = MkLimbs4 (le_val (firstn 8 l)) (le_val (firstn 8 (skipn 8 l)))
      (le_val (firstn 8 (skipn 16 l))) (le_val (skipn 24 l))).
  { assert (H0 := bytes_firstn 8 _ Hb).
    assert (H1 := bytes_firstn 8 _ (bytes_skipn 8 _ Hb)).
    assert (H2 := bytes_firstn 8 _ (bytes_skipn 16 _ Hb)).
    assert (H3 := bytes_skipn 24 _ Hb). clear E Hb.
    do 32 (destruct l as [|? l]; [discriminate|]); destruct l; [|discriminate].
    cbn [firstn skipn] in *; unfold p256FromBytes; cbv zeta; cbn [nth].
    rewrite !limb_from_bytes by assumption. reflexivity. }
  rewrite E4; split.
  - repeat split; cbn [l0 l1 l2 l3]; apply limb_of_8; auto with janos;
      rewrite ?length_firstn, ?length_skipn, Hl; reflexivity.
  - unfold eval; cbn [l0 l1 l2 l3]; rewrite E at 5; rewrite !le_val_app.
    rewrite !length_firstn, !length_skipn, Hl. change (pow256 _) with W64. ring.
Qed.

Lemma mod_eq x y : x = y -> x mod p256 = y mod p256.
Proof. intros ->; reflexivity. Qed.

(** Reading a Montgomery product out of the domain. *)
Lemma mont_val_of r v :
  eval r = v mod p256 -> forall w, v * p256_Rinv = w -> mont_val r = w mod p256.
Proof. intros E w <-; unfold mont_val; rewrite E; apply Zmult_mod_idemp_l. Qed.

Lemma mont_of_to x : 0 <= x < p256 -> ((x * W64 ^ 4) mod p256 * p256_Rinv) mod p256 = x.
Proof.
  intros Hx; rewrite Zmult_mod_idemp_l.
  replace (x * W64 ^ 4 * p256_Rinv) with (W64 ^ 4 * p256_Rinv * x) by ring.
  rewrite Z.mul_mod, p256_Rinv_ok, Z.mul_1_l, Z.mod_mod by (unfold p256; lia).
  apply Z.mod_small, Hx.
Qed.

Lemma limbs_range a : limbs_ok a -> 0 <= eval a < pow256 32.
Proof.
  change (pow256 32) with (W64 ^ 4); unfold limbs_ok, eval; unword; lia.
Qed.

(** C27: the postconditions the generated code states for its Montgomery arithmetic.  Every
    function maps inputs below p to an output below p in range limbs, and, read
    out of the Montgomery domain, [p256Mul] multiplies, [p256Square] squares,
    [p256Add] adds, [p256Sub] subtracts, [p256ToMontgomery] followed by reading
    is the identity modulo p and [p256FromMontgomery] computes the reading. *)
Theorem fiat_montgomery_correct a b :
  canonical a -> canonical b ->
  (canonical (p256Mul a b) /\ mont_val (p256Mul a b) = (mont_val a * mont_val b) mod p256) /\
  (canonical (p256Square a) /\ mont_val (p256Square a) = (mont_val a * mont_val a) mod p256) /\
  (canonical (p256Add a b) /\ mont_val (p256Add a b) = (mont_val a + mont_val b) mod p256) /\
  (canonical (p256Sub a b) /\ mont_val (p256Sub a b) = (mont_val a - mont_val b) mod p256) /\
  (canonical (p256FromMontgomery a) /\ eval (p256FromMontgomery a) = mont_val a) /\
  (canonical (p256ToMontgomery a) /\ mont_val (p256ToMontgomery a) = eval a).
Proof.
  intros Ha Hb.
  destruct (p256Mul_spec a b (canonical_limbs _ Ha) Hb) as [M1 M2].
  destruct (p256Mul_spec a a (canonical_limbs _ Ha) Ha) as [Q1 Q2].
  destruct (p256Add_spec a b Ha Hb) as [A1 A2]; destruct (p256Sub_spec a b Ha Hb) as [S1 S2].
  rewrite p256Square_eq_Mul.
  split; [split; [exact M1|]|split; [split; [exact Q1|]|]].
  1: { rewrite (mont_val_of _ _ M2 _ eq_refl); unfold mont_val; rewrite <- Zmult_mod.
       apply mod_eq; ring. }
  1: { rewrite (mont_val_of _ _ Q2 _ eq_refl); unfold mont_val; rewrite <- Zmult_mod.
       apply mod_eq; ring. }
  split; [split; [exact A1|]|split; [split; [exact S1|]|]].
  - unfold mont_val; rewrite A2, Zmult_mod_idemp_l, <- Zplus_mod, Z.mul_add_distr_r; reflexivity.
  - unfold mont_val; rewrite S2, Zmult_mod_idemp_l, <- Zminus_mod, Z.mul_sub_distr_r; reflexivity.
  - split; [apply p256FromMontgomery_spec, Ha|].
    destruct (p256ToMontgomery_spec a (canonical_limbs _ Ha)) as [T1 T2].
    split; [exact T1|]; unfold mont_val; rewrite T2; apply mont_of_to, canonical_range, Ha.
Qed.

Lemma fiat_montgomery_correct_witness :
  canonical p256SetOne /\ mont_val (p256Add p256SetOne p256SetOne) = 2.
Proof.
  split; [apply p256SetOne_canonical|].
  destruct (fiat_montgomery_correct p256SetOne p256SetOne p256SetOne_canonical
              p256SetOne_canonical) as (_ & _ & (_ & E) & _).
  rewrite E; vm_compute; reflexivity.
Defined.

(** byte conversion of non-Montgomery limbs: [p256ToBytes] gives the 32
    little-endian bytes of the value, [p256FromBytes] the value of its bytes, and
    the two are inverse to each other. *)
Theorem fiat_bytes_roundtrip :
  (forall a, limbs_ok a ->
     p256ToBytes a = le_bytes 32 (eval a) /\ p256FromBytes (p256ToBytes a) = a) /\
  (forall l, bytes l -> length l = 32%nat ->
     eval (p256FromBytes l) = le_val l /\ p256ToBytes (p256FromBytes l) = l).
Proof.
  assert (HB : forall l, bytes l -> length l = 32%nat -> p256ToBytes (p256FromBytes l) = l).
  { intros l Hl Hn; destruct (p256FromBytes_spec l Hl Hn) as [Hok E].
    rewrite p256ToBytes_spec, E, <- Hn by exact Hok; apply le_bytes_val, Hl. }
  split.
  - intros a Ha; pose proof (p256ToBytes_spec a Ha) as E; split; [exact E|].
    assert (Hb : bytes (p256ToBytes a)) by (rewrite E; apply bytes_le_bytes).
    assert (Hl : length (p256ToBytes a) = 32%nat) by (rewrite E; apply length_le_bytes).
    destruct (p256FromBytes_spec _ Hb Hl) as [Hok E2].
    apply eval_inj; [exact Hok|exact Ha|].
    rewrite E2, E, le_val_bytes; apply Z.mod_small, limbs_range, Ha.
  - intros l Hl Hn; split; [apply p256FromBytes_spec; assumption|apply HB; assumption].
Qed.

Lemma fiat_bytes_roundtrip_witness :
  p256ToBytes (p256FromBytes (repeat 7 32)) = repeat 7 32.
Proof.
  apply (proj2 fiat_bytes_roundtrip); [|reflexivity].
  apply Forall_forall; intros x Hx; apply repeat_spec in Hx; subst; unfold is_byte; lia.
Defined.

(** From here on the functions are used through their specifications. *)
#[global] Opaque p256CmovznzU64 p256Mul p256Square p256Add p256Sub p256FromMontgomery
  p256ToMontgomery p256Selectznz p256ToBytes p256FromBytes.
