(* ===== verification/P256Prime.v ===== *)
(** * Primality of the P-256 moduli

    Pocklington's criterion over a list of prime factors of [N - 1], and the
    certificates for the field prime and the group order.  Nothing here models
    code: the field inversion and the scalar inversion of the source rest on
    Fermat's little theorem, so both moduli have to be prime. *)

From Stdlib Require Import ZArith Lia List Znumtheory Zpow_facts Zmod Bool.
From S2P Require Import Prelude FiatP256.
Import ListNotations.
#[local] Open Scope Z_scope.

(** The order n of the curve's base point. *)
Definition p256N : Z := 0xffffffff00000000ffffffffffffffffbce6faada7179e84f3b9cac2fc632551.

(** ** Prime divisors *)

Lemma prime_divisor_exists d : 1 < d -> exists l, Z.prime l /\ (l | d).
Proof.
  revert d; apply (well_founded_ind (Z.lt_wf 0) (fun d => 1 < d -> exists l, Z.prime l /\ (l | d))).
  intros d IH Hd.
  destruct (Znumtheory.prime_dec d) as [Hp|Hp].
  - exists d; split; [apply prime_alt, Hp|apply Z.divide_refl].
  - destruct (not_prime_divide d) as (e & He & Hde); [exact Hd|exact Hp|].
    destruct (IH e) as (k & Hk & Hke); [lia|lia|].
    exists k; split; [exact Hk|eapply Z.divide_trans; eauto].
Qed.

Lemma small_prime_divisor n :
  1 < n -> ~ Z.prime n -> exists l, Z.prime l /\ (l | n) /\ l * l <= n.
Proof.
  intros Hn Hp.
  destruct (not_prime_divide n) as (d & Hd & Hdn); [exact Hn|rewrite <- prime_alt; exact Hp|].
  destruct Hdn as [e He].
  assert (He1 : 1 < e) by nia.
  destruct (Z_le_gt_dec d e) as [Hle|Hgt].
  - destruct (prime_divisor_exists d) as (l & Hl & Hld); [lia|].
    assert (l <= d) by (apply Z.divide_pos_le; [lia|exact Hld]). pose proof (Z.prime_ge_2 _ Hl).
    exists l; split; [exact Hl|split; [|nia]].
    eapply Z.divide_trans; [exact Hld|exists e; exact He].
  - destruct (prime_divisor_exists e) as (l & Hl & Hle'); [lia|].
    assert (l <= e) by (apply Z.divide_pos_le; [lia|exact Hle']). pose proof (Z.prime_ge_2 _ Hl).
    exists l; split; [exact Hl|split; [|nia]].
    eapply Z.divide_trans; [exact Hle'|exists d; lia].
Qed.

(** Powers of a residue that is 1. *)
Lemma pow_mod_1 c l k : 1 < l -> c mod l = 1 -> 0 <= k -> c ^ k mod l = 1.
Proof. intros Hl Hc Hk; rewrite <- Z.mod_pow_l, Hc, Z.pow_1_l by lia; apply Z.mod_small; lia. Qed.

(** An element whose [q]-th and [(l-1)]-th powers are 1, with the exponents
    coprime, is 1. *)
Lemma coprime_orders c q l :
  1 < l -> 0 < q -> Z.coprime q (l - 1) ->
  c ^ q mod l = 1 -> c ^ (l - 1) mod l = 1 -> c mod l = 1.
Proof.
  intros Hl Hq Hcop H1 H2; apply Z.Bezout_coprime_iff in Hcop; destruct Hcop as (u & v & Huv).
  set (t := Z.abs u + Z.abs v); set (K := u + t * (l - 1)); set (J := t * q - v).
  assert (HK : 0 <= K) by (unfold K, t; nia).
  assert (HJ : 0 <= J) by (unfold J, t; nia).
  assert (E : q * K = 1 + (l - 1) * J) by (unfold K, J; nia).
  assert (HJ' : 0 <= (l - 1) * J) by (apply Z.mul_nonneg_nonneg; lia).
  clearbody K J; clear Huv u v t.
  pose proof (pow_mod_1 _ _ K Hl H1 HK) as P1; pose proof (pow_mod_1 _ _ J Hl H2 HJ) as P2.
  rewrite <- Z.pow_mul_r in P1, P2 by lia; rewrite E, Z.pow_add_r, Z.pow_1_r in P1 by lia.
  rewrite Z.mul_mod, P2, Z.mul_1_r, Z.mod_mod in P1 by lia; exact P1.
Qed.

(** ** Pocklington's criterion *)

Section Pocklington.
Context (n a : Z) (Hn : 1 < n) (Hpow : a ^ (n - 1) mod n = 1).

(** A prime factor [q] of [n - 1] with [gcd (a^((n-1)/q) - 1) n = 1] divides
    [l - 1] for every prime divisor [l] of [n]. *)
Lemma pocklington_factor q r l :
  Z.prime q -> n - 1 = q * r -> Z.gcd (a ^ r - 1) n = 1 ->
  Z.prime l -> (l | n) -> (q | l - 1).
Proof.
  intros Hq Hqr Hgcd Hl Hln.
  pose proof (Z.prime_ge_2 _ Hq); pose proof (Z.prime_ge_2 _ Hl).
  destruct (Z.eq_dec ((l - 1) mod q) 0) as [Hd|Hnd]; [apply Z.mod_divide; lia|exfalso].
  rewrite Z.mod_divide in Hnd by lia.
  apply (Z.coprime_prime_l q _ Hq) in Hnd.
  assert (Hr : 0 <= r) by nia.
  assert (H1 : (a ^ r) ^ q mod l = 1).
  { rewrite <- Z.pow_mul_r, (Z.mul_comm r), <- Hqr, <- (Z.mod_mod_divide _ n l Hln), Hpow by lia.
    apply Z.mod_small; lia. }
  assert (Hnz : (a ^ r) mod l <> 0).
  { intros E; rewrite <- Z.mod_pow_l, E, Z.pow_0_l, Z.mod_0_l in H1 by lia; lia. }
  pose proof (Z.fermat_nz _ _ Hl Hnz) as H2.
  pose proof (coprime_orders (a ^ r) q l ltac:(lia) ltac:(lia) Hnd H1 H2) as Hc.
  assert (Hd : (l | 1)).
  { rewrite <- Hgcd; apply Z.gcd_greatest; [|exact Hln].
    apply Z.mod_divide; [lia|]; rewrite Zminus_mod, Hc.
    rewrite (Z.mod_small 1) by lia; reflexivity. }
  apply Z.divide_1_r_nonneg in Hd; lia.
Qed.

(** Checked certificate entries: primes [q] with their cofactors. *)
Definition poly_entry (e : Z) : Prop :=
  Z.prime e /\ (e | n - 1) /\ Z.gcd (a ^ ((n - 1) / e) - 1) n = 1.

Lemma product_divides qs m :
  Forall (fun q => Z.prime q /\ (q | m)) qs -> NoDup qs -> (fold_right Z.mul 1 qs | m).
Proof.
  intros H Hnd; induction H as [|q qs [Hq Hqm] Hqs IH]; cbn [fold_right]; [apply Z.divide_1_l|].
  inversion Hnd as [|? ? Hnin Hnd']; subst.
  specialize (IH Hnd'); destruct Hqm as [k ->].
  rewrite (Z.mul_comm k q); apply Z.mul_divide_mono_l.
  apply (Z.gauss _ q k); [rewrite (Z.mul_comm q k); exact IH|].
  clear IH Hnd Hnd'; change (Z.coprime (fold_right Z.mul 1 qs) q).
  induction Hqs as [|p ps [Hp _] _ IH]; cbn [fold_right]; [apply Z.coprime_1_l|].
  apply Z.coprime_mul_l; [|apply IH; intros Hin; apply Hnin; right; exact Hin].
  apply Z.coprime_prime_l; [exact Hp|].
  intros Hd; apply Z.divide_prime_prime in Hd; [|assumption..].
  apply Hnin; left; exact Hd.
Qed.

Lemma pocklington qs :
  Forall poly_entry qs -> NoDup qs -> n < fold_right Z.mul 1 qs * fold_right Z.mul 1 qs ->
  Z.prime n.
Proof.
  intros Hqs Hnd HF.
  destruct (Znumtheory.prime_dec n) as [Hp|Hp]; [apply prime_alt, Hp|exfalso].
  rewrite <- prime_alt in Hp.
  destruct (small_prime_divisor n Hn Hp) as (l & Hl & Hln & Hsq).
  assert (Hd : (fold_right Z.mul 1 qs | l - 1)).
  { apply product_divides; [|exact Hnd].
    eapply Forall_impl; [|exact Hqs]; intros q (Hq & [r Hr] & Hg); split; [exact Hq|].
    pose proof (Z.prime_ge_2 _ Hq).
    rewrite Hr, Z.div_mul in Hg by lia.
    apply (pocklington_factor q r l); [exact Hq|rewrite Hr; ring|exact Hg|exact Hl|exact Hln]. }
  pose proof (Z.prime_ge_2 _ Hl).
  assert (Hle : fold_right Z.mul 1 qs <= l - 1) by (apply Z.divide_pos_le; [lia|exact Hd]).
  assert (Hpos : 0 < fold_right Z.mul 1 qs).
  { clear - Hqs; induction Hqs as [|q qs [Hq _] _ IH]; cbn [fold_right]; [lia|].
    pose proof (Z.prime_ge_2 _ Hq); apply Z.mul_pos_pos; lia. }
  nia.
Qed.
End Pocklington.

(** ** Checking certificates by computation *)

(** Trial division, for the leaves. *)
Definition trial_prime (n : nat) (p : Z) : bool :=
  (1 <? p) && (p <? Z.of_nat n * Z.of_nat n) &&
  forallb (fun d => negb (p mod Z.of_nat d =? 0)) (seq 2 (n - 2)).

Lemma trial_prime_ok n p : trial_prime n p = true -> Z.prime p.
Proof.
  unfold trial_prime; rewrite !andb_true_iff, forallb_forall; intros [[H1 H2] H3].
  apply Z.ltb_lt in H1, H2.
  destruct (Znumtheory.prime_dec p) as [Hp|Hp]; [apply prime_alt, Hp|exfalso].
  rewrite <- prime_alt in Hp.
  destruct (small_prime_divisor p H1 Hp) as (d & Hd & Hdp & Hsq); pose proof (Z.prime_ge_2 _ Hd).
  specialize (H3 (Z.to_nat d)); rewrite Z2Nat.id in H3 by lia.
  apply Z.mod_divide in Hdp; [|lia]; rewrite Hdp in H3.
  discriminate H3; apply in_seq; nia.
Qed.

Lemma gcd_congr n x y : n <> 0 -> x mod n = y mod n -> Z.gcd x n = Z.gcd y n.
Proof.
  intros Hn E; rewrite (Z.gcd_comm x), (Z.gcd_comm y), <- (Z.gcd_mod x n), <- (Z.gcd_mod y n), E by exact Hn.
  reflexivity.
Qed.

(** One certificate step: [a] and the primes [qs].  The powers share
    [d = a^((n-1)/F)] for the product [F] of the primes. *)
Definition pock_check (n a : Z) (qs : list Z) : bool :=
  let F := fold_right Z.mul 1 qs in
  let r := (n - 1) / F in
  let d := Zpow_mod a r n in
  (1 <? n) && (0 <? F) && (r * F =? n - 1) && (Zpow_mod d F n =? 1) &&
  forallb (fun q => (0 <? q) && (F / q * q =? F) &&
                    (Z.gcd (Zpow_mod d (F / q) n - 1) n =? 1)) qs &&
  (n <? F * F).

Lemma pow_pow_mod a x y n : 0 <= x -> 0 <= y -> (a ^ x mod n) ^ y mod n = a ^ (x * y) mod n.
Proof. intros; rewrite Z.mod_pow_l, Z.pow_mul_r by assumption; reflexivity. Qed.

Lemma pock_check_ok n a qs :
  pock_check n a qs = true -> Forall Z.prime qs -> NoDup qs -> Z.prime n.
Proof.
  unfold pock_check; set (F := fold_right Z.mul 1 qs); set (r := (n - 1) / F); cbv zeta.
  rewrite !andb_true_iff, forallb_forall; intros [[[[[H1 HF] Hr] H2] H3] H4] Hqs Hnd.
  apply Z.ltb_lt in H1, HF, H4; apply Z.eqb_eq in Hr, H2.
  assert (Hr0 : 0 <= r) by (unfold r; apply Z.div_pos; lia).
  rewrite !Zpow_mod_correct, pow_pow_mod, Hr in H2 by lia.
  apply (pocklington n a H1 H2 qs); [|exact Hnd|exact H4].
  apply Forall_forall; intros q Hin; split; [eapply Forall_forall in Hqs; eauto|].
  specialize (H3 q Hin); rewrite !andb_true_iff in H3; destruct H3 as [[Hq Hm] Hg].
  apply Z.eqb_eq in Hm, Hg; apply Z.ltb_lt in Hq.
  assert (HFq : 0 <= F / q) by (apply Z.div_pos; lia).
  assert (E : n - 1 = r * (F / q) * q) by (rewrite <- Z.mul_assoc, Hm; lia).
  split; [exists (r * (F / q)); exact E|].
  rewrite E, Z.div_mul by lia.
  rewrite !Zpow_mod_correct, pow_pow_mod in Hg by lia.
  etransitivity; [|exact Hg]; apply gcd_congr; [lia|].
  rewrite Zminus_mod_idemp_l; reflexivity.
Qed.

Ltac by_trial k := apply (trial_prime_ok k); vm_compute; reflexivity.
Ltac by_pock a qs :=
  apply (pock_check_ok _ a qs);
  [vm_compute; reflexivity|repeat (apply Forall_cons; [solve [auto with janos nocore]|]); apply Forall_nil
  |repeat (apply NoDup_cons; [cbn; intuition discriminate|]); apply NoDup_nil].

(** ** The certificates *)
Lemma prime_704251 : Z.prime 704251.
Proof. by_trial 840%nat. Qed.
#[export] Hint Resolve prime_704251 : janos.
Lemma prime_78283 : Z.prime 78283.
Proof. by_trial 280%nat. Qed.
#[export] Hint Resolve prime_78283 : janos.
Lemma prime_46076956_17 : Z.prime 46076956964474543.
Proof. by_pock 2 [704251; 78283]. Qed.
#[export] Hint Resolve prime_46076956_17 : janos.
Lemma prime_3677 : Z.prime 3677.
Proof. by_trial 61%nat. Qed.
#[export] Hint Resolve prime_3677 : janos.
Lemma prime_197 : Z.prime 197.
Proof. by_trial 15%nat. Qed.
#[export] Hint Resolve prime_197 : janos.
Lemma prime_66417393611 : Z.prime 66417393611.
Proof. by_pock 2 [3677; 197]. Qed.
#[export] Hint Resolve prime_66417393611 : janos.
Lemma prime_11290956_14 : Z.prime 11290956913871.
Proof. by_pock 2 [66417393611]. Qed.
#[export] Hint Resolve prime_11290956_14 : janos.
Lemma prime_77402318_45 : Z.prime 774023187263532362759620327192479577272145303.
Proof. by_pock 2 [46076956964474543; 11290956913871]. Qed.
#[export] Hint Resolve prime_77402318_45 : janos.
Lemma prime_83594504_48 : Z.prime 835945042244614951780389953367877943453916927241.
Proof. by_pock 2 [774023187263532362759620327192479577272145303]. Qed.
#[export] Hint Resolve prime_83594504_48 : janos.
Lemma prime_p256 : Z.prime p256.
Proof. by_pock 2 [835945042244614951780389953367877943453916927241]. Qed.
#[export] Hint Resolve prime_p256 : janos.
Lemma prime_155317 : Z.prime 155317.
Proof. by_trial 395%nat. Qed.
#[export] Hint Resolve prime_155317 : janos.
Lemma prime_191039911 : Z.prime 191039911.
Proof. by_pock 2 [155317]. Qed.
#[export] Hint Resolve prime_191039911 : janos.
Lemma prime_3023 : Z.prime 3023.
Proof. by_trial 55%nat. Qed.
#[export] Hint Resolve prime_3023 : janos.
Lemma prime_20815093_18 : Z.prime 208150935158385979.
Proof. by_pock 2 [191039911; 3023]. Qed.
#[export] Hint Resolve prime_20815093_18 : janos.
Lemma prime_26247475_28 : Z.prime 2624747550333869278416773953.
Proof. by_pock 2 [208150935158385979]. Qed.
#[export] Hint Resolve prime_26247475_28 : janos.
Lemma prime_104471 : Z.prime 104471.
Proof. by_trial 324%nat. Qed.
#[export] Hint Resolve prime_104471 : janos.
Lemma prime_3969899 : Z.prime 3969899.
Proof. by_pock 2 [104471]. Qed.
#[export] Hint Resolve prime_3969899 : janos.
Lemma prime_10023280_13 : Z.prime 1002328039319.
Proof. by_pock 2 [3969899]. Qed.
#[export] Hint Resolve prime_10023280_13 : janos.
Lemma prime_p256N : Z.prime p256N.
Proof. by_pock 2 [2624747550333869278416773953; 1002328039319]. Qed.
#[export] Hint Resolve prime_p256N : janos.
