(* ===== verification/P256NoRoot.v ===== *)
(** * The curve has no point of order two

    The cubic x^3 - 3x + b has no root modulo p.  With u a root of
    u^2 + b u + 1, a root r of the cubic gives a w with r = w + 1/w and w^3 = u
    (Vieta's substitution), but u is not a cube: u^((p-1)/3) is not 1.  Nothing here
    models code; it is the arithmetic fact that makes the formulas of [P256Point]
    complete. *)

From Stdlib Require Import ZArith Lia List Zpow_facts Zmod Field.
From S2P Require Import Prelude FiatP256 P256Prime.
#[local] Open Scope Z_scope.

(** The curve constant b. *)
Definition p256b : Z := 0x5ac635d8aa3a93e7b3ebbd55769886bc651d06b0cc53b0f63bce3c3e27d2604b.

Definition vieta_u : Z := 0xe6bc85a78096c1f9b695d42f2c755e0275c2a78c319ffe2632a254c7351713cf.

Abbreviation Fp' := (Zmod.Zmod p256).

Add Field Fp_field : (@Zmod.field_theory p256 prime_p256).

Declare Scope Fp_scope.
#[local] Delimit Scope Fp_scope with Fp.
#[local] Infix "*" := Zmod.mul : Fp_scope.
#[local] Infix "+" := Zmod.add : Fp_scope.
#[local] Infix "-" := Zmod.sub : Fp_scope.
#[local] Infix "/" := Zmod.mdiv : Fp_scope.
#[local] Notation "1" := Zmod.one : Fp_scope.
#[local] Notation "0" := Zmod.zero : Fp_scope.

Definition fp_cubic (b r : Fp') : Fp' := (r * r * r - (r + r + r) + b)%Fp.

Lemma vieta_power : Zpow_mod vieta_u ((p256 - 1) / 3) p256 <> Zmod.to_Z (Zmod.one : Fp').
Proof. apply Z.eqb_neq; vm_compute; reflexivity. Qed.

(** No cube root of [vieta_u]: its ((p-1)/3)-th power is not 1. *)
Lemma not_a_cube (w : Fp') : (w * w * w)%Fp <> Zmod.of_Z p256 vieta_u.
Proof.
  intros E.
  assert (Hw : w <> Zmod.zero).
  { intros ->; apply (f_equal Zmod.to_Z) in E; vm_compute in E; discriminate E. }
  pose proof (Zmod.fermat_nz w Hw prime_p256) as H.
  assert (E3 : Zmod.pow w 3 = Zmod.of_Z p256 vieta_u)
    by (rewrite <- E; change 3 with (1 + 1 + 1); rewrite !Zmod.pow_add_r_nonneg, Zmod.pow_1_r by lia; reflexivity).
  replace (Z.pred p256) with (3 * ((p256 - 1) / 3)) in H by reflexivity.
  rewrite Zmod.pow_mul_r_nonneg, E3 in H by (vm_compute; discriminate).
  apply (f_equal Zmod.to_Z) in H.
  rewrite Zmod.to_Z_pow_nonneg_r, Zmod.to_Z_of_Z, Z.mod_pow_l in H by (vm_compute; discriminate).
  assert (Hp : p256 <> 0) by (unfold p256; lia).
  rewrite <- (Zpow_mod_correct vieta_u ((p256 - 1) / 3) p256 Hp) in H.
  exact (vieta_power H).
Qed.

(** Vieta's substitution over an arbitrary [b] and [u]. *)
Lemma vieta (b u r : Fp') :
  (1 + 1 : Fp')%Fp <> 0%Fp -> (u * u + b * u + 1)%Fp = 0%Fp ->
  (b * b)%Fp <> ((1 + 1) * (1 + 1) : Fp')%Fp -> fp_cubic b r = 0%Fp ->
  exists w : Fp', (w * w * w)%Fp = u.
Proof.
  intros H2 Hu Hb Hr; unfold fp_cubic in Hr.
  assert (Hu0 : u <> 0%Fp).
  { intros ->; apply H2. exfalso.
    assert (H1 : (1 : Fp')%Fp = 0%Fp) by (rewrite <- Hu; ring).
    apply H2; transitivity ((1 + 1) * (1 : Fp'))%Fp; [ring|rewrite H1; ring]. }
  assert (Eb : b = ((r + r + r) - r * r * r)%Fp)
    by (transitivity ((r * r * r - (r + r + r) + b) + ((r + r + r) - r * r * r))%Fp; [ring|rewrite Hr; ring]).
  assert (Hr1 : (r * r - 1)%Fp <> 0%Fp).
  { intros E; apply Hb; assert (Er : (r * r)%Fp = 1%Fp)
      by (transitivity ((r * r - 1) + 1)%Fp; [ring|rewrite E; ring]).
    rewrite Eb; ring [Er]. }
  set (v := (1 / u)%Fp).
  assert (Ev : (u * v)%Fp = 1%Fp) by (unfold v; field; exact Hu0).
  assert (Euv : (u + v)%Fp = (r * r * r - (r + r + r))%Fp).
  { transitivity ((v * (u * u + b * u + 1) - b * (u * v) - u * (u * v - 1)))%Fp; [ring|].
    rewrite Hu, Ev, Eb; ring. }
  set (s := ((u - v) / (r * r - 1))%Fp).
  assert (Es : (s * (r * r - 1))%Fp = (u - v)%Fp) by (unfold s; field; exact Hr1).
  set (w := ((r + s) / (1 + 1))%Fp).
  assert (Ew : (w * (1 + 1))%Fp = (r + s)%Fp) by (unfold w; field; exact H2).
  exists w; clearbody s v w.
  assert (Ess : (s * s)%Fp = (r * r - (1 + 1) * (1 + 1))%Fp).
  { apply (Zmod.mul_cancel_l_prime ((r * r - 1) * (r * r - 1))%Fp);
      [exact prime_p256|rewrite Zmod.mul_0_iff_prime by exact prime_p256; tauto|].
    transitivity ((s * (r * r - 1)) * (s * (r * r - 1)))%Fp; [ring|rewrite Es].
    transitivity ((u + v) * (u + v) - (1 + 1) * (1 + 1) * (u * v))%Fp; [ring|].
    rewrite Euv, Ev; ring. }
  apply (Zmod.mul_cancel_l_prime ((1 + 1) * (1 + 1) * (1 + 1))%Fp);
    [exact prime_p256|rewrite !Zmod.mul_0_iff_prime by exact prime_p256; tauto|].
  transitivity ((w * (1 + 1)) * (w * (1 + 1)) * (w * (1 + 1)))%Fp; [ring|rewrite Ew].
  transitivity ((1 + 1) * (1 + 1) * ((u + v) + (s * (r * r - 1))))%Fp;
    [rewrite Euv; ring [Ess]|rewrite Es; ring].
Qed.

Lemma fp_no_root (r : Fp') : fp_cubic (Zmod.of_Z p256 p256b) r <> Zmod.zero.
Proof.
  intros Hr; destruct (vieta (Zmod.of_Z p256 p256b) (Zmod.of_Z p256 vieta_u) r) as [w Hw].
  - intros E; apply (f_equal Zmod.to_Z) in E; vm_compute in E; discriminate E.
  - apply Zmod.to_Z_inj; vm_compute; reflexivity.
  - intros E; apply (f_equal Zmod.to_Z) in E; vm_compute in E; discriminate E.
  - exact Hr.
  - exact (not_a_cube w Hw).
Qed.
