(* ===== verification/P256Field.v ===== *)
(** * P-256 field elements

    [src/runtime/janos_p256_field.go]: the [janosP256Element] wrapper over the
    Montgomery limbs, its byte conversions and its constant-time comparisons.
    Methods that set their receiver and return it are functions to the new value. *)

From Stdlib Require Import ZArith Lia List Bool.
From S2P Require Import Prelude MathBits FiatP256.
Import ListNotations.
#[local] Open Scope Z_scope.

(** [type janosP256Element struct { x p256MontgomeryDomainFieldElement }] *)
Definition Element := Limbs4.

Definition Element_zero : Element := MkLimbs4 0 0 0 0.

Definition Element_One : Element := p256SetOne.
Definition Element_Add (t1 t2 : Element) : Element := p256Add t1 t2.
Definition Element_Sub (t1 t2 : Element) : Element := p256Sub t1 t2.
Definition Element_Mul (t1 t2 : Element) : Element := p256Mul t1 t2.
Definition Element_Square (t : Element) : Element := p256Square t.

(** [v.Select(a, b, cond)]: [p256Selectznz] with its arms swapped. *)
Definition Element_Select (a b : Element) (cond : Z) : Element := p256Selectznz cond b a.

(** In-place reversal, as the loop of swaps it is. *)
Definition InvertEndianness (v : list Z) : list Z :=
  for_range 0 (length v / 2)
    (fun i v =>
       let a := nth i v 0 in
       let b := nth (length v - 1 - i) v 0 in
       upd (upd v i b) (length v - 1 - i) a) v.

Definition Element_Bytes (e : Element) : list Z :=
  let tmp := p256FromMontgomery e in
  let out := p256ToBytes tmp in
  InvertEndianness out.

Definition Element_Equal (e t : Element) : Z :=
  let eBytes := Element_Bytes e in
  let tBytes := Element_Bytes t in
  byte_is_zero (ct_diff eBytes tBytes).

Definition Element_IsZero (e : Element) : Z :=
  byte_is_zero (fold_left Z.lor (Element_Bytes e) 0).

(** The bytes the source compares with.  They are not those of p - 1 (see
    [SetBytes_rejects_canonical] below). *)
Definition p256MinusOneBytesBE : list Z :=
  [0xff; 0xff; 0xff; 0xff; 0; 0; 0; 0;
   0; 0; 0; 0; 0; 0; 0; 0;
   0; 0; 0; 0; 0; 0; 0; 0;
   0xff; 0xff; 0xff; 0xff; 0xff; 0xff; 0xff; 0xfe].

(** [&^] on bytes. *)
Definition andnot (x y : Z) : Z := Z.ldiff x y.

Definition LessOrEqBytes32 (a b : list Z) : bool :=
  if negb (length a =? 32)%nat then false
  else
    let '(lt, gt) :=
      for_range 0 32 (fun i '(lt, gt) =>
        let lessThis := if nth i a 0 <? nth i b 0 then 1 else 0 in
        let greaterThis := if nth i a 0 >? nth i b 0 then 1 else 0 in
        let decided := Z.lor lt gt in
        (Z.lor lt (andnot lessThis decided), Z.lor gt (andnot greaterThis decided))) (0, 0) in
    gt =? 0.

Definition Element_SetBytes (v : list Z) : option Element :=
  if negb (length v =? 32)%nat then None
  else if negb (LessOrEqBytes32 v p256MinusOneBytesBE) then None
  else
    let tmp := p256FromBytes (InvertEndianness v) in
    Some (p256ToMontgomery tmp).

(** ** Byte order *)

Lemma InvertEndianness_rev v : InvertEndianness v = rev v.
Proof.
  unfold InvertEndianness.
  set (n := length v).
  assert (H : length v = n) by reflexivity; clearbody n.
  match goal with |- for_range 0 _ ?body v = _ =>
    pose proof (for_range_ind (fun i w => length w = n /\ forall j, (j < n)%nat ->
      nth j w 0 = if (j <? i)%nat || (n - i <=? j)%nat
                  then nth (n - 1 - j) v 0 else nth j v 0) 0 (n / 2) body v) as Hloop
  end; cbn [Nat.add] in Hloop.
  pose proof (Nat.div_mod_eq n 2) as Hdiv; pose proof (Nat.mod_upper_bound n 2 ltac:(lia)).
  destruct Hloop as [Hlen Hnth].
  - split; [exact H|]; intros j Hj.
    destruct (Nat.ltb_spec j 0), (Nat.leb_spec (n - 0) j); try lia; reflexivity.
  - intros i w Hi [Hw IH]; split; [rewrite !length_upd; exact Hw|].
    intros j Hj; rewrite !nth_upd by (rewrite ?length_upd; lia).
    rewrite Hw, !IH by lia.
    destruct (Nat.eqb_spec j (n - 1 - i)); destruct (Nat.eqb_spec j i);
    repeat match goal with |- context [(?x <? ?y)%nat] => destruct (Nat.ltb_spec x y)
      | |- context [(?x <=? ?y)%nat] => destruct (Nat.leb_spec x y) end; cbn [orb];
      try lia; f_equal; lia.
  - apply (nth_ext _ _ 0 0); [rewrite length_rev, Hlen; lia|].
    intros j Hj; rewrite Hlen in Hj; rewrite Hnth, rev_nth by lia.
    destruct (Nat.ltb_spec j (n / 2)), (Nat.leb_spec (n - n / 2) j); cbn [orb];
      f_equal; lia.
Qed.

(** ** Values *)

(** The integer modulo p an element stands for. *)
Definition fval (e : Element) : Z := mont_val e.

Lemma fval_range e : 0 <= fval e < p256.
Proof. apply Z.mod_pos_bound; reflexivity. Qed.
#[export] Hint Resolve fval_range : janos.

Lemma Element_Bytes_eq e : canonical e -> Element_Bytes e = be_bytes 32 (fval e).
Proof.
  intros He; destruct (p256FromMontgomery_spec e He) as [[Hl _] Hv].
  unfold Element_Bytes, be_bytes, fval; cbv zeta.
  rewrite InvertEndianness_rev, p256ToBytes_spec, Hv by exact Hl; reflexivity.
Qed.

Lemma p256_lt_pow z : 0 <= z < p256 -> 0 <= z < pow256 32.
Proof. change (pow256 32) with (W64 ^ 4); unfold p256; lia. Qed.

Lemma be_bytes_inj n x y :
  0 <= x < pow256 n -> 0 <= y < pow256 n -> be_bytes n x = be_bytes n y -> x = y.
Proof.
  intros Hx Hy E; rewrite <- (Z.mod_small x (pow256 n)), <- (Z.mod_small y (pow256 n)) by assumption.
  rewrite <- !be_val_bytes, E; reflexivity.
Qed.

(** Leaving and re-entering the domain. *)
Lemma mont_back x : (((x * p256_Rinv) mod p256) * W64 ^ 4) mod p256 = x mod p256.
Proof.
  rewrite Zmult_mod_idemp_l.
  replace (x * p256_Rinv * W64 ^ 4) with (W64 ^ 4 * p256_Rinv * x) by ring.
  rewrite Z.mul_mod, p256_Rinv_ok, Z.mul_1_l, Z.mod_mod by easy; reflexivity.
Qed.

(** Montgomery representation is faithful: distinct canonical limbs are distinct values. *)
Lemma fval_inj a b : canonical a -> canonical b -> fval a = fval b -> a = b.
Proof.
  intros Ha Hb E; apply eval_inj; try apply Ha; try apply Hb.
  apply canonical_range in Ha, Hb.
  rewrite <- (Z.mod_small (eval a) p256), <- (Z.mod_small (eval b) p256) by assumption.
  rewrite <- (mont_back (eval a)), <- (mont_back (eval b)).
  unfold fval, mont_val in E; rewrite E; reflexivity.
Qed.

(** ** Arithmetic *)

Lemma Element_zero_ok : canonical Element_zero /\ fval Element_zero = 0.
Proof. split; [unfold canonical, limbs_ok, is_u64; cbn; repeat split; easy|reflexivity]. Qed.

Lemma Element_One_ok : canonical Element_One /\ fval Element_One = 1.
Proof. split; [apply p256SetOne_canonical|reflexivity]. Qed.

Lemma Element_Add_ok a b :
  canonical a -> canonical b ->
  canonical (Element_Add a b) /\ fval (Element_Add a b) = (fval a + fval b) mod p256.
Proof.
  intros Ha Hb; destruct (p256Add_spec a b Ha Hb) as [Hc He]; split; [exact Hc|].
  unfold fval, mont_val, Element_Add; rewrite He, Zmult_mod_idemp_l, <- Zplus_mod.
  f_equal; ring.
Qed.

Lemma Element_Sub_ok a b :
  canonical a -> canonical b ->
  canonical (Element_Sub a b) /\ fval (Element_Sub a b) = (fval a - fval b) mod p256.
Proof.
  intros Ha Hb; destruct (p256Sub_spec a b Ha Hb) as [Hc He]; split; [exact Hc|].
  unfold fval, mont_val, Element_Sub; rewrite He, Zmult_mod_idemp_l, <- Zminus_mod.
  f_equal; ring.
Qed.

Lemma Element_Mul_ok a b :
  canonical a -> canonical b ->
  canonical (Element_Mul a b) /\ fval (Element_Mul a b) = (fval a * fval b) mod p256.
Proof.
  intros Ha Hb; destruct (p256Mul_spec a b (canonical_limbs _ Ha) Hb) as [Hc He].
  split; [exact Hc|].
  unfold fval, mont_val, Element_Mul; rewrite He, Zmult_mod_idemp_l, <- Zmult_mod.
  f_equal; ring.
Qed.

Lemma Element_Square_ok a :
  canonical a ->
  canonical (Element_Square a) /\ fval (Element_Square a) = (fval a * fval a) mod p256.
Proof.
  intros Ha; unfold Element_Square; rewrite p256Square_eq_Mul; fold (Element_Mul a a).
  apply Element_Mul_ok; exact Ha.
Qed.

Lemma Element_Select_ok a b cond :
  0 <= cond <= 1 -> canonical a -> canonical b ->
  Element_Select a b cond = if cond =? 1 then a else b.
Proof.
  intros Hc Ha Hb; unfold Element_Select; rewrite p256Selectznz_spec by auto with janos.
  assert (cond = 0 \/ cond = 1) as [-> | ->] by lia; reflexivity.
Qed.

(** ** Comparison *)

Lemma Element_Equal_ok a b :
  canonical a -> canonical b ->
  Element_Equal a b = if fval a =? fval b then 1 else 0.
Proof.
  intros Ha Hb; unfold Element_Equal; cbv zeta.
  rewrite !Element_Bytes_eq by assumption.
  rewrite byte_is_zero_spec by (apply ct_diff_byte; auto with janos).
  destruct (ct_diff_0 (be_bytes 32 (fval a)) (be_bytes 32 (fval b))) as [H1 H2];
    [rewrite !length_be_bytes; reflexivity|].
  destruct (Z.eqb_spec (fval a) (fval b)) as [E|Hne].
  - rewrite H2 by (rewrite E; reflexivity); reflexivity.
  - destruct (Z.eqb_spec (ct_diff (be_bytes 32 (fval a)) (be_bytes 32 (fval b))) 0); [|reflexivity].
    exfalso; apply Hne, (be_bytes_inj 32); auto using p256_lt_pow, fval_range.
Qed.

Lemma fold_lor_ct l d :
  fold_left Z.lor l d = fold_left (fun d '(x, y) => Z.lor d (Z.lxor x y)) (combine l (repeat 0 (length l))) d.
Proof.
  revert d; induction l as [|x l IH]; intros d; cbn; [reflexivity|].
  rewrite Z.lxor_0_r; apply IH.
Qed.

Lemma be_bytes_0 n : be_bytes n 0 = repeat 0 n.
Proof.
  unfold be_bytes; assert (le_bytes n 0 = repeat 0 n) as -> by (induction n; cbn; congruence).
  apply rev_repeat.
Qed.

Lemma Element_IsZero_ok a :
  canonical a -> Element_IsZero a = if fval a =? 0 then 1 else 0.
Proof.
  intros Ha; destruct Element_zero_ok as [Hz Vz]; rewrite <- Vz.
  rewrite <- Element_Equal_ok by assumption.
  unfold Element_IsZero, Element_Equal, ct_diff; cbv zeta; rewrite fold_lor_ct.
  rewrite (Element_Bytes_eq Element_zero Hz), Vz, be_bytes_0, Element_Bytes_eq, length_be_bytes
    by exact Ha; reflexivity.
Qed.

(** ** Decoding *)

(** The constant-time comparison is numeric order. *)
Lemma LessOrEqBytes32_ok a b :
  bytes a -> bytes b -> length a = 32%nat -> length b = 32%nat ->
  LessOrEqBytes32 a b = (be_val a <=? be_val b).
Proof.
  intros Ha Hb La Lb; unfold LessOrEqBytes32; rewrite La; cbn [Nat.eqb negb].
  match goal with |- context [for_range 0 32 ?body ?s] =>
    pose proof (for_range_ind (fun i st =>
      st = let x := be_val (firstn i a) in let y := be_val (firstn i b) in
           ((if x <? y then 1 else 0), (if x >? y then 1 else 0))) 0 32 body s) as H;
    destruct (for_range 0 32 body s) as [lt gt] end; cbn [Nat.add] in H.
  assert (Ea : firstn 32 a = a) by (rewrite <- La; apply firstn_all).
  assert (Eb : firstn 32 b = b) by (rewrite <- Lb; apply firstn_all).
  rewrite Ea, Eb in H.
  unshelve epose proof (H _ _) as E; clear H; [| |injection E as _ ->].
  - reflexivity.
  - intros i [lt' gt'] Hi [= -> ->]; rewrite !be_val_firstn_S by lia.
    pose proof (bytes_nth _ i Ha); pose proof (bytes_nth _ i Hb); unword.
    generalize dependent (be_val (firstn i a)); generalize dependent (be_val (firstn i b)).
    generalize dependent (nth i a 0); generalize dependent (nth i b 0).
    intros; rewrite !Z.gtb_ltb.
    repeat match goal with |- context [?x <? ?y] => destruct (Z.ltb_spec x y) end;
      try lia; reflexivity.
  - rewrite Z.gtb_ltb; destruct (Z.ltb_spec (be_val b) (be_val a)), (Z.leb_spec (be_val a) (be_val b));
      try lia; reflexivity.
Qed.

(** The largest value [SetBytes] lets through. *)
Definition setbytes_max : Z := be_val p256MinusOneBytesBE.

Lemma setbytes_max_lt : setbytes_max < p256.
Proof. reflexivity. Qed.

Lemma bytes_p256MinusOne : bytes p256MinusOneBytesBE.
Proof. repeat constructor; unword; lia. Qed.

Lemma fval_ToMontgomery a : limbs_ok a -> fval (p256ToMontgomery a) = eval a mod p256.
Proof.
  intros Ha; destruct (p256ToMontgomery_spec a Ha) as [_ E].
  unfold fval, mont_val; rewrite E, Zmult_mod_idemp_l; generalize (eval a); intros x.
  rewrite <- (mont_back x), Zmult_mod_idemp_l.
  replace (x * p256_Rinv * W64 ^ 4) with (x * W64 ^ 4 * p256_Rinv) by ring; reflexivity.
Qed.

Lemma Element_SetBytes_eq v :
  bytes v ->
  match Element_SetBytes v with
  | Some e => length v = 32%nat /\ be_val v <= setbytes_max /\ canonical e /\ fval e = be_val v
  | None => length v <> 32%nat \/ setbytes_max < be_val v
  end.
Proof.
  intros Hv; unfold Element_SetBytes.
  destruct (Nat.eqb_spec (length v) 32) as [Hl|Hl]; cbn [negb]; [|left; exact Hl].
  rewrite LessOrEqBytes32_ok by (exact Hl || exact Hv || apply bytes_p256MinusOne || reflexivity).
  fold setbytes_max.
  destruct (Z.leb_spec (be_val v) setbytes_max) as [Hle|Hgt]; cbn [negb]; [|right; exact Hgt].
  rewrite InvertEndianness_rev; cbv zeta.
  destruct (p256FromBytes_spec (rev v)) as [Hok He];
    [apply bytes_rev, Hv|rewrite length_rev; exact Hl|].
  change (le_val (rev v)) with (be_val v) in He.
  pose proof (be_val_range v Hv); pose proof setbytes_max_lt.
  split; [exact Hl|split; [exact Hle|split; [apply p256ToMontgomery_spec, Hok|]]].
  rewrite fval_ToMontgomery, He by exact Hok. apply Z.mod_small; lia.
Qed.

(** Decoding accepts only canonical encodings, and re-encoding gives them back. *)
Lemma Element_SetBytes_Bytes v e :
  bytes v -> Element_SetBytes v = Some e -> Element_Bytes e = v.
Proof.
  intros Hv E; pose proof (Element_SetBytes_eq v Hv) as H; rewrite E in H.
  destruct H as (Hl & _ & Hc & Hf); rewrite Element_Bytes_eq, Hf, <- Hl by exact Hc.
  apply be_bytes_val, Hv.
Qed.

Lemma Element_Bytes_SetBytes e :
  canonical e -> fval e <= setbytes_max -> Element_SetBytes (Element_Bytes e) = Some e.
Proof.
  intros He Hle.
  rewrite Element_Bytes_eq by exact He.
  assert (Hv : be_val (be_bytes 32 (fval e)) = fval e)
    by (rewrite be_val_bytes; apply Z.mod_small, p256_lt_pow, fval_range).
  pose proof (Element_SetBytes_eq (be_bytes 32 (fval e)) (bytes_be_bytes _ _)) as H.
  rewrite length_be_bytes, Hv in H.
  destruct (Element_SetBytes _) as [e'|].
  - destruct H as (_ & _ & Hc & Hf); f_equal; apply fval_inj; assumption.
  - destruct H; [congruence|lia].
Qed.

(** the element API on canonical elements.  Zero and one are what they say,
    [Add]/[Sub]/[Mul]/[Square] are the operations modulo p and keep elements
    canonical, [Select] selects, and [Equal]/[IsZero] decide equality and
    zeroness of the represented values. *)
Theorem element_api_correct a b cond :
  canonical a -> canonical b -> 0 <= cond <= 1 ->
  fval Element_zero = 0 /\ fval Element_One = 1 /\
  Forall canonical [Element_zero; Element_One; Element_Add a b; Element_Sub a b;
                    Element_Mul a b; Element_Square a] /\
  fval (Element_Add a b) = (fval a + fval b) mod p256 /\
  fval (Element_Sub a b) = (fval a - fval b) mod p256 /\
  fval (Element_Mul a b) = (fval a * fval b) mod p256 /\
  fval (Element_Square a) = (fval a * fval a) mod p256 /\
  Element_Select a b cond = (if cond =? 1 then a else b) /\
  Element_Equal a b = (if fval a =? fval b then 1 else 0) /\
  Element_IsZero a = (if fval a =? 0 then 1 else 0).
Proof.
  intros Ha Hb Hc.
  destruct Element_zero_ok as [Z1 Z2], Element_One_ok as [O1 O2].
  destruct (Element_Add_ok a b Ha Hb) as [A1 A2], (Element_Sub_ok a b Ha Hb) as [S1 S2].
  destruct (Element_Mul_ok a b Ha Hb) as [M1 M2], (Element_Square_ok a Ha) as [Q1 Q2].
  split; [exact Z2|split; [exact O2|split]].
  - repeat (apply Forall_cons; [assumption|]); apply Forall_nil.
  - rewrite A2, S2, M2, Q2, Element_Select_ok, Element_Equal_ok, Element_IsZero_ok by assumption.
    auto 10.
Qed.

Lemma element_api_correct_witness :
  canonical Element_One /\ Element_IsZero Element_One = 0 /\
  Element_Select Element_One Element_zero 0 = Element_zero.
Proof.
  split; [apply p256SetOne_canonical|].
  destruct (element_api_correct Element_One Element_zero 0 p256SetOne_canonical
              (proj1 Element_zero_ok) ltac:(lia)) as (_ & E1 & _ & _ & _ & _ & _ & S & _ & Z).
  rewrite Z, S, E1; split; reflexivity.
Defined.

(** [SetBytes] and [Bytes].  Decoding succeeds exactly on 32-byte strings whose
    big-endian value is at most [setbytes_max], yields a canonical element with that
    value, and [Bytes] returns the same string; conversely [Bytes] of a canonical
    element of value at most [setbytes_max] decodes to that element. *)
Theorem element_bytes_roundtrip :
  (forall v, bytes v ->
     Element_SetBytes v <> None <-> length v = 32%nat /\ be_val v <= setbytes_max) /\
  (forall v e, bytes v -> Element_SetBytes v = Some e ->
     canonical e /\ fval e = be_val v /\ Element_Bytes e = v) /\
  (forall e, canonical e -> fval e <= setbytes_max ->
     Element_SetBytes (Element_Bytes e) = Some e).
Proof.
  split; [|split].
  - intros v Hv; pose proof (Element_SetBytes_eq v Hv) as H.
    destruct (Element_SetBytes v) as [e|].
    + split; [intros _; tauto|discriminate].
    + split; [congruence|]. intros [H1 H2]; destruct H; [congruence|lia].
  - intros v e Hv E; pose proof (Element_SetBytes_eq v Hv) as H; rewrite E in H.
    split; [apply H|split; [apply H|apply Element_SetBytes_Bytes; assumption]].
  - exact Element_Bytes_SetBytes.
Qed.

Lemma element_bytes_roundtrip_witness :
  Element_SetBytes (Element_Bytes Element_One) = Some Element_One.
Proof.
  apply (proj2 (proj2 element_bytes_roundtrip)); [apply p256SetOne_canonical|].
  rewrite (proj2 Element_One_ok); vm_compute; discriminate.
Defined.

(** the constant the decoder compares with is not p - 1 but about 2^192 below it:
    the canonical encodings in between, of p - 1 among others, are refused, while
    every non-canonical encoding is refused as intended. *)
Theorem SetBytes_rejects_canonical :
  setbytes_max < p256 - 1 /\
  p256 - 1 - setbytes_max = 2 ^ 192 + 2 ^ 96 - 2 ^ 64 /\
  (forall z, setbytes_max < z < p256 -> Element_SetBytes (be_bytes 32 z) = None) /\
  (forall v, bytes v -> length v = 32%nat -> p256 <= be_val v -> Element_SetBytes v = None).
Proof.
  assert (Hbig : forall v, bytes v -> setbytes_max < be_val v -> Element_SetBytes v = None).
  { intros v Hv Hgt; pose proof (Element_SetBytes_eq v Hv) as H.
    destruct (Element_SetBytes v); [lia|reflexivity]. }
  split; [reflexivity|split; [vm_compute; reflexivity|split]].
  - intros z Hz; apply Hbig; [apply bytes_be_bytes|].
    rewrite be_val_bytes, Z.mod_small; [lia|].
    assert (0 <= setbytes_max) by (vm_compute; discriminate).
    apply p256_lt_pow; lia.
  - intros v Hv _ Hge; pose proof setbytes_max_lt; apply Hbig; [exact Hv|lia].
Qed.

Lemma SetBytes_rejects_canonical_witness :
  setbytes_max < p256 - 1 < p256 /\ Element_SetBytes (be_bytes 32 (p256 - 1)) = None.
Proof.
  assert (H : setbytes_max < p256 - 1 < p256) by (split; reflexivity).
  split; [exact H|apply (proj1 (proj2 (proj2 SetBytes_rejects_canonical))), H].
Defined.
