(* ===== verification/P256Ops.v ===== *)
(** * Interfaces between the P-256 field and the code written over it

    The inversion chain and the point formulas of the source only combine
    elements with field operations.  They are written once over the classes below
    and instantiated with the Montgomery limbs (which is the code) and with
    [Zmod p256] (which is what the code means).  [FieldRel] is the promise the
    limb arithmetic makes to them: its operations simulate those of the field. *)

From Stdlib Require Import ZArith Lia List Zmod.
From S2P Require Import Prelude MathBits FiatP256 P256Field.
#[local] Open Scope Z_scope.

Class MulOps (F : Type) := { fmul : F -> F -> F; fsq : F -> F }.

Class FieldOps (F : Type) := {
  #[global] field_mul_ops :: MulOps F;
  fzero : F; fone : F; fadd : F -> F -> F; fsub : F -> F -> F;
}.

(** A relation kept by multiplication and squaring. *)
Class MulRel {A B} `{MulOps A, MulOps B} (R : A -> B -> Prop) : Prop := {
  rel_mul a a' b b' : R a a' -> R b b' -> R (fmul a b) (fmul a' b');
  rel_sq a a' : R a a' -> R (fsq a) (fsq a');
}.

Class FieldRel {A B} `{FieldOps A, FieldOps B} (R : A -> B -> Prop) : Prop := {
  #[global] field_rel_mul :: MulRel R;
  rel_zero : R fzero fzero;
  rel_one : R fone fone;
  rel_add a a' b b' : R a a' -> R b b' -> R (fadd a b) (fadd a' b');
  rel_sub a a' b b' : R a a' -> R b b' -> R (fsub a b) (fsub a' b');
}.

(** Related values stay related through a local binding. *)
Lemma rel_let {A B C D} (R : A -> B -> Prop) (S : C -> D -> Prop) a a' (k : A -> C) (k' : B -> D) :
  R a a' -> (forall v v', R v v' -> S (k v) (k' v')) ->
  S (let v := a in k v) (let v := a' in k' v).
Proof. intros Ha Hk; apply Hk, Ha. Qed.

(** Carries a relation through straight-line code. *)
Ltac rel_auto :=
  repeat first [ eassumption
    | match goal with |- ?R (fmul _ _) (fmul _ _) => apply (rel_mul (R := R)) end
    | match goal with |- ?R (fsq _) (fsq _) => apply (rel_sq (R := R)) end
    | match goal with |- ?R (fadd _ _) (fadd _ _) => apply (rel_add (R := R)) end
    | match goal with |- ?R (fsub _ _) (fsub _ _) => apply (rel_sub (R := R)) end
    | match goal with |- ?R fzero fzero => apply (rel_zero (R := R)) end
    | match goal with |- ?R fone fone => apply (rel_one (R := R)) end
    | solve [eauto 3 with janos typeclass_instances] ].

(** One binding: prove the bound values related with [tac], keep them abstract. *)
Ltac rel_bind R tac :=
  lazymatch goal with
  | |- ?S (let v := ?a in @?k v) (let v' := ?a' in @?k' v') =>
      let x := fresh "v" in let x' := fresh "v'" in let H := fresh "Hv" in
      assert (H : R a a') by tac;
      change (S (k a) (k' a'));
      revert H; generalize a, a'; intros x x' H; cbv beta
  end.

Ltac rel_steps R := repeat (rel_bind R rel_auto); rel_auto.

(** ** The instances *)

#[export] Instance Element_mul_ops : MulOps Element :=
  { fmul := Element_Mul; fsq := Element_Square }.
#[export] Instance Element_ops : FieldOps Element :=
  { fzero := Element_zero; fone := Element_One; fadd := Element_Add; fsub := Element_Sub }.

(** The field with p elements. *)
Definition Fp := Zmod.Zmod p256.

#[export] Instance Fp_mul_ops : MulOps Fp := { fmul := Zmod.mul; fsq x := Zmod.mul x x }.
#[export] Instance Fp_ops : FieldOps Fp :=
  { fzero := Zmod.zero; fone := Zmod.one; fadd := Zmod.add; fsub := Zmod.sub }.

(** Limb vector [e] represents the field element [z]. *)
Definition represents (e : Element) (z : Fp) : Prop :=
  canonical e /\ fval e = Zmod.to_Z z.

(** The abstraction function. *)
Definition fp (e : Element) : Fp := Zmod.of_Z p256 (fval e).

Lemma represents_fp e : canonical e -> represents e (fp e).
Proof.
  intros He; split; [exact He|]; unfold fp.
  rewrite Zmod.to_Z_of_Z, Z.mod_small; [reflexivity|apply fval_range].
Qed.

Lemma represents_eq e z : represents e z -> fp e = z.
Proof. intros [_ E]; unfold fp; rewrite E; apply Zmod.of_Z_to_Z. Qed.
#[export] Hint Resolve represents_fp : janos.

Lemma represents_Mul a b x y :
  represents a x -> represents b y -> represents (Element_Mul a b) (Zmod.mul x y).
Proof.
  intros [Ha Ea] [Hb Eb]; destruct (Element_Mul_ok a b Ha Hb) as [Hc E].
  split; [exact Hc|]; rewrite E, Ea, Eb, Zmod.to_Z_mul; reflexivity.
Qed.

#[export] Instance represents_mul : MulRel represents.
Proof.
  split.
  - intros a a' b b' Ha Hb; exact (represents_Mul a b a' b' Ha Hb).
  - intros a a' [Ha Ea]; destruct (Element_Square_ok a Ha) as [Hc E].
    split; [exact Hc|]; cbn [fsq Element_mul_ops Fp_mul_ops].
    rewrite E, Ea, Zmod.to_Z_mul; reflexivity.
Qed.

(** The Montgomery limbs implement the field. *)
#[export] Instance represents_field : FieldRel represents.
Proof.
  split.
  - apply represents_mul.
  - split; [apply Element_zero_ok|reflexivity].
  - split; [apply Element_One_ok|reflexivity].
  - intros a a' b b' [Ha Ea] [Hb Eb]; destruct (Element_Add_ok a b Ha Hb) as [Hc E].
    split; [exact Hc|]; cbn [fadd Element_ops Fp_ops].
    rewrite E, Ea, Eb, Zmod.to_Z_add; reflexivity.
  - intros a a' b b' [Ha Ea] [Hb Eb]; destruct (Element_Sub_ok a b Ha Hb) as [Hc E].
    split; [exact Hc|]; cbn [fsub Element_ops Fp_ops].
    rewrite E, Ea, Eb, Zmod.to_Z_sub; reflexivity.
Qed.
