(* ===== verification/P256Invert.v ===== *)
(** * Field inversion

    [src/runtime/janos_p256_invert.go]: the addition chain for [x^(p-2)]. *)

From Stdlib Require Import ZArith Lia List Zmod.
From S2P Require Import Prelude MathBits FiatP256 P256Prime P256Field P256Ops.
#[local] Open Scope Z_scope.

(** [for s := 0; s < n; s++ { t.Square(t) }] *)
Definition SquareN {F} `{MulOps F} (n : nat) (t : F) : F := Nat.iter n fsq t.

Definition Invert {F} `{MulOps F} (x : F) : F :=
  let z := fsq x in
  let z := fmul x z in
  let z := fsq z in
  let z := fmul x z in
  let t0 := fsq z in
  let t0 := SquareN 2 t0 in
  let t0 := fmul z t0 in
  let t1 := fsq t0 in
  let t1 := SquareN 5 t1 in
  let t0 := fmul t0 t1 in
  let t0 := SquareN 3 t0 in
  let z := fmul z t0 in
  let t0 := fsq z in
  let t0 := fmul x t0 in
  let t1 := fsq t0 in
  let t1 := SquareN 15 t1 in
  let t0 := fmul t0 t1 in
  let t0 := SquareN 15 t0 in
  let z := fmul z t0 in
  let t0 := SquareN 17 t0 in
  let t0 := fmul x t0 in
  let t0 := SquareN 143 t0 in
  let t0 := fmul z t0 in
  let t0 := SquareN 47 t0 in
  let z := fmul z t0 in
  let z := SquareN 2 z in
  let z := fmul x z in
  z.

Definition Element_Invert (x : Element) : Element := Invert x.

Lemma rel_SquareN {A B} `{MulOps A, MulOps B} (R : A -> B -> Prop) `{!MulRel R} n a a' :
  R a a' -> R (SquareN n a) (SquareN n a').
Proof. intros Ha; unfold SquareN; induction n; [exact Ha|apply rel_sq, IHn]. Qed.

Lemma rel_Invert {A B} `{MulOps A, MulOps B} (R : A -> B -> Prop) `{!MulRel R} a a' :
  R a a' -> R (Invert a) (Invert a').
Proof. intros Ha; cbv beta delta [Invert].
  repeat rel_bind R ltac:(solve [rel_auto | apply rel_SquareN; [assumption|rel_auto]]).
  assumption.
Qed.

(** ** The exponent the chain computes

    Run on exponents, multiplication is addition and squaring is doubling. *)
#[local] Instance exponent_ops : MulOps Z := { fmul := Z.add; fsq x := x + x }.

Lemma Invert_exponent : Invert (1 : Z) = p256 - 2.
Proof. vm_compute; reflexivity. Qed.

Definition is_power (x : Fp) (v : Fp) (e : Z) : Prop := 0 <= e /\ v = Zmod.pow x e.

#[local] Instance is_power_rel x : MulRel (is_power x).
Proof.
  split.
  - intros a a' b b' [Pa ->] [Pb ->]; split; cbn [fmul exponent_ops Fp_mul_ops]; [lia|].
    symmetry; apply Zmod.pow_add_r_nonneg; assumption.
  - intros a a' [Pa ->]; split; cbn [fsq exponent_ops Fp_mul_ops]; [lia|].
    symmetry; apply Zmod.pow_add_r_nonneg; assumption.
Qed.

Lemma Invert_pow (x : Fp) : Invert x = Zmod.pow x (p256 - 2).
Proof.
  assert (H : is_power x (Invert x) (Invert (1 : Z))).
  { apply rel_Invert; [apply is_power_rel|]. split; [lia|].
    symmetry; apply Zmod.pow_1_r. }
  rewrite Invert_exponent in H; apply H.
Qed.

Lemma Element_Invert_represents e z :
  represents e z -> represents (Element_Invert e) (Zmod.pow z (p256 - 2)).
Proof.
  intros H; rewrite <- Invert_pow; apply rel_Invert; [typeclasses eauto|exact H].
Qed.

(** The multiplicative inverse, and 0 for 0. *)
Lemma Fp_pow_inv (z : Fp) : Zmod.pow z (p256 - 2) = Zmod.inv z.
Proof.
  destruct (Zmod.eqb_spec z Zmod.zero) as [->|Hz].
  - vm_compute; reflexivity.
  - apply Zmod.fermat_inv; [exact Hz|apply prime_p256].
Qed.

Lemma Element_Invert_inv e z : represents e z -> represents (Element_Invert e) (Zmod.inv z).
Proof. rewrite <- Fp_pow_inv; apply Element_Invert_represents. Qed.

(** [Invert] computes the modular inverse: for a canonical non-zero element the product
    with the result is 1 modulo p, and for zero the result is zero, as the
    comment in the source promises. *)
Theorem Invert_correct e :
  canonical e ->
  canonical (Element_Invert e) /\
  (fval e * fval (Element_Invert e)) mod p256 = (if fval e =? 0 then 0 else 1) /\
  (fval e = 0 -> fval (Element_Invert e) = 0).
Proof.
  intros He; destruct (Element_Invert_inv e (fp e) (represents_fp e He)) as [Hc Hv].
  destruct (represents_fp e He) as [_ Hz].
  split; [exact Hc|]; rewrite Hv, Hz.
  destruct (Z.eqb_spec (Zmod.to_Z (fp e)) 0) as [E|E].
  - split; [rewrite E; reflexivity|intros _].
    assert (fp e = Zmod.zero) as -> by (apply Zmod.to_Z_inj; rewrite E; reflexivity).
    reflexivity.
  - split; [|contradiction].
    rewrite <- Zmod.to_Z_mul, Zmod.mul_inv_same_r_prime; [reflexivity|apply prime_p256|].
    intros E'; apply E; rewrite E'; reflexivity.
Qed.

Lemma Invert_correct_witness :
  canonical Element_One /\
  (fval Element_One * fval (Element_Invert Element_One)) mod p256 = 1.
Proof.
  split; [apply p256SetOne_canonical|].
  apply (Invert_correct Element_One p256SetOne_canonical).
Defined.
