(* ===== verification/P256Point.v ===== *)
(** * P-256 points

    [src/runtime/janos_p256_point.go]: projective points, the complete addition and
    doubling formulas of Renes, Costello and Batina, point decoding and the
    variable-time scalar multiplication.  The formulas are written over the field
    interface of [P256Ops]; the code is their instance at [Element]. *)

From Stdlib Require Import ZArith Lia List Bool Zmod.
From S2P Require Import Prelude MathBits FiatP256 P256Field P256Ops P256Invert.
Import ListNotations.
#[local] Open Scope Z_scope.

(** [type janosP256Point struct { x, y, z janosP256Element }] *)
Record Point (F : Type) := MkPoint { px : F; py : F; pz : F }.
Arguments MkPoint {F}. Arguments px {F}. Arguments py {F}. Arguments pz {F}.

(** The field operations with the curve's constants [b], [Gx], [Gy]. *)
Class CurveOps (F : Type) := {
  #[global] curve_field_ops :: FieldOps F; cb : F; cgx : F; cgy : F;
}.

Definition p256BMont : Element :=
  MkLimbs4 0xd89cdf6229c4bddf 0xacf005cd78843090 0xe5a220abf7212ed6 0xdc30061d04874834.
Definition p256GxMont : Element :=
  MkLimbs4 0x79e730d418a9143c 0x75ba95fc5fedb601 0x79fb732b77622510 0x18905f76a53755c6.
Definition p256GyMont : Element :=
  MkLimbs4 0xddf25357ce95560a 0x8b4ab8e4ba19e45c 0xd2e88688dd21f325 0x8571ff1825885d85.

#[export] Instance Element_curve : CurveOps Element :=
  { curve_field_ops := Element_ops; cb := p256BMont; cgx := p256GxMont; cgy := p256GyMont }.

Section Formulas.
Context {F : Type} {C : CurveOps F}.

Definition SetInfinity : Point F := MkPoint fzero fone fzero.

Definition SetGenerator : Point F := MkPoint cgx cgy fone.

Definition Point_Add (p1 p2 : Point F) : Point F :=
  let t0 := fmul (px p1) (px p2) in
  let t1 := fmul (py p1) (py p2) in
  let t2 := fmul (pz p1) (pz p2) in
  let t3 := fadd (px p1) (py p1) in
  let t4 := fadd (px p2) (py p2) in
  let t3 := fmul t3 t4 in
  let t4 := fadd t0 t1 in
  let t3 := fsub t3 t4 in
  let t4 := fadd (py p1) (pz p1) in
  let x3 := fadd (py p2) (pz p2) in
  let t4 := fmul t4 x3 in
  let x3 := fadd t1 t2 in
  let t4 := fsub t4 x3 in
  let x3 := fadd (px p1) (pz p1) in
  let y3 := fadd (px p2) (pz p2) in
  let x3 := fmul x3 y3 in
  let y3 := fadd t0 t2 in
  let y3 := fsub x3 y3 in
  let z3 := fmul cb t2 in
  let x3 := fsub y3 z3 in
  let z3 := fadd x3 x3 in
  let x3 := fadd x3 z3 in
  let z3 := fsub t1 x3 in
  let x3 := fadd t1 x3 in
  let y3 := fmul cb y3 in
  let t1 := fadd t2 t2 in
  let t2 := fadd t1 t2 in
  let y3 := fsub y3 t2 in
  let y3 := fsub y3 t0 in
  let t1 := fadd y3 y3 in
  let y3 := fadd t1 y3 in
  let t1 := fadd t0 t0 in
  let t0 := fadd t1 t0 in
  let t0 := fsub t0 t2 in
  let t1 := fmul t4 y3 in
  let t2 := fmul t0 y3 in
  let y3 := fmul x3 z3 in
  let y3 := fadd y3 t2 in
  let x3 := fmul t3 x3 in
  let x3 := fsub x3 t1 in
  let z3 := fmul t4 z3 in
  let t1 := fmul t3 t0 in
  let z3 := fadd z3 t1 in
  MkPoint x3 y3 z3.

Definition Point_Double (p : Point F) : Point F :=
  let t0 := fsq (px p) in
  let t1 := fsq (py p) in
  let t2 := fsq (pz p) in
  let t3 := fmul (px p) (py p) in
  let t3 := fadd t3 t3 in
  let z3 := fmul (px p) (pz p) in
  let z3 := fadd z3 z3 in
  let y3 := fmul cb t2 in
  let y3 := fsub y3 z3 in
  let x3 := fadd y3 y3 in
  let y3 := fadd x3 y3 in
  let x3 := fsub t1 y3 in
  let y3 := fadd t1 y3 in
  let y3 := fmul x3 y3 in
  let x3 := fmul x3 t3 in
  let t3 := fadd t2 t2 in
  let t2 := fadd t2 t3 in
  let z3 := fmul cb z3 in
  let z3 := fsub z3 t2 in
  let z3 := fsub z3 t0 in
  let t3 := fadd z3 z3 in
  let z3 := fadd z3 t3 in
  let t3 := fadd t0 t0 in
  let t0 := fadd t3 t0 in
  let t0 := fsub t0 t2 in
  let t0 := fmul t0 z3 in
  let y3 := fadd y3 t0 in
  let t0 := fmul (py p) (pz p) in
  let t0 := fadd t0 t0 in
  let z3 := fmul t0 z3 in
  let x3 := fsub x3 z3 in
  let z3 := fmul t0 t1 in
  let z3 := fadd z3 z3 in
  let z3 := fadd z3 z3 in
  MkPoint x3 y3 z3.

Definition Negate (p : Point F) : Point F :=
  let negY := fsub fzero (py p) in
  MkPoint (px p) negY (pz p).

(** The inner loop body of [ScalarMult]: one bit of the scalar. *)
Definition ScalarMult_bit (b : Point F) (byteVal : Z) (result : Point F) (bit : nat) : Point F :=
  let result := Point_Double result in
  if Z.land (Z.shiftr byteVal (Z.of_nat bit)) 1 =? 1 then Point_Add result b else result.

Definition ScalarMult (base : Point F) (k : list Z) : option (Point F) :=
  if negb (length k =? 32)%nat then None
  else
    Some (for_range 0 32 (fun i result =>
            let byteVal := nth i k 0 in
            fold_left (ScalarMult_bit base byteVal) [7; 6; 5; 4; 3; 2; 1; 0]%nat result)
          SetInfinity).

Definition ScalarBaseMult (k : list Z) : option (Point F) := ScalarMult SetGenerator k.

(** Both sides of the curve equation in [isOnCurve]. *)
Definition curve_rhs (p : Point F) : F :=
  let rhs := fsq (px p) in
  let rhs := fmul rhs (px p) in
  let threeX := fadd (px p) (px p) in
  let threeX := fadd threeX (px p) in
  let rhs := fsub rhs threeX in
  let rhs := fadd rhs cb in
  rhs.

End Formulas.

Definition isOnCurve (p : Point Element) : bool :=
  let rhs := curve_rhs p in
  let tmp := fsq (py p) in
  Element_Equal rhs tmp =? 1.

Definition IsInfinity (p : Point Element) : bool := Element_IsZero (pz p) =? 1.

Definition SetUncompressedBytes (b : list Z) : option (Point Element) :=
  if negb (length b =? 64)%nat then None
  else
    match Element_SetBytes (firstn 32 b) with
    | None => None
    | Some x =>
        match Element_SetBytes (skipn 32 b) with
        | None => None
        | Some y =>
            let p := MkPoint x y Element_One in
            if negb (isOnCurve p) then None else Some p
        end
    end.

(** Affine x-coordinate; [None] is the source's [(zero, false)]. *)
Definition AffineX (p : Point Element) : option (list Z) :=
  if IsInfinity p then None
  else
    let zinv := Element_Invert (pz p) in
    let x := Element_Mul (px p) zinv in
    Some (Element_Bytes x).
