(* ===== verification/P256Scalar.v ===== *)
(** * P-256 scalars

    [src/runtime/janos_p256_scalar.go]: arithmetic modulo the group order n, with
    coarsely integrated Montgomery multiplication on four 64-bit limbs and a six-word
    accumulator, decoding with reduction, encoding, and inversion by a power. *)

From Stdlib Require Import ZArith Lia List Bool Zmod.
From S2P Require Import Prelude MathBits FiatP256 P256Prime.
Import ListNotations.
#[local] Open Scope Z_scope.

(** [type janosP256Scalar struct { limbs [4]uint64 }] *)
Definition Scalar := Limbs4.

(** The array as a list, for the indexed loops. *)
Definition arr (a : Limbs4) : list Z := [l0 a; l1 a; l2 a; l3 a].

Definition p256ScalarN : Limbs4 :=
  MkLimbs4 0xf3b9cac2fc632551 0xbce6faada7179e84 0xffffffffffffffff 0xffffffff00000000.

Definition p256ScalarNInv0 : Z := 0xccd1c8aaee00bc4f.

Definition p256ScalarRR : Limbs4 :=
  MkLimbs4 0x83244c95be79eea2 0x4699799c49bd6fa6 0x2845b2392b6bec59 0x66e12d94f3d95620.

(** Body of both inner loops: multiply, add [t[j]], add the two-word running carry. *)
Definition mac_step (x y tj cLo cHi : Z) : Z * Z * Z :=
  let '(hi, lo) := Mul64 x y in
  let '(lo, c) := Add64 lo tj 0 in
  let '(hi, _) := Add64 hi 0 c in
  let '(lo, c) := Add64 lo cLo 0 in
  let '(hi, cc) := Add64 hi cHi c in
  (lo, hi, cc).

(** [for j := 0; j < 4; j++ { ... }] over [x[j] * y], from a zero carry. *)
Definition mac_loop (x : list Z) (y : Z) (t : list Z) : list Z * Z * Z :=
  for_range 0 4 (fun j '(t, cLo, cHi) =>
    let '(lo, hi, cc) := mac_step (nth j x 0) y (nth j t 0) cLo cHi in
    (upd t j lo, hi, cc)) (t, 0, 0).

(** Draining the carry into [t[4]] and [t[5]]. *)
Definition drain (st : list Z * Z * Z) : list Z :=
  let '(t, cLo, cHi) := st in
  let '(t4, cc) := Add64 (nth 4 t 0) cLo 0 in
  let t := upd t 4 t4 in
  let '(t5, _) := Add64 (nth 5 t 0) cHi cc in
  upd t 5 t5.

(** One outer iteration. *)
Definition mont_iter (a : list Z) (bi : Z) (t : list Z) : list Z :=
  let t := drain (mac_loop a bi t) in
  let m := u64 (nth 0 t 0 * p256ScalarNInv0) in
  let t := drain (mac_loop (arr p256ScalarN) m t) in
  let t := upd t 0 (nth 1 t 0) in
  let t := upd t 1 (nth 2 t 0) in
  let t := upd t 2 (nth 3 t 0) in
  let t := upd t 3 (nth 4 t 0) in
  let t := upd t 4 (nth 5 t 0) in
  upd t 5 0.

(** [sub, borrow = a - n]. *)
Definition sub_n (a0 a1 a2 a3 : Z) : Z * Z * Z * Z * Z :=
  let '(s0, borrow) := Sub64 a0 (l0 p256ScalarN) 0 in
  let '(s1, borrow) := Sub64 a1 (l1 p256ScalarN) borrow in
  let '(s2, borrow) := Sub64 a2 (l2 p256ScalarN) borrow in
  let '(s3, borrow) := Sub64 a3 (l3 p256ScalarN) borrow in
  (s0, s1, s2, s3, borrow).

Definition mont_final (t : list Z) : Limbs4 :=
  let '(s0, s1, s2, s3, borrow) := sub_n (nth 0 t 0) (nth 1 t 0) (nth 2 t 0) (nth 3 t 0) in
  let mask := if (borrow =? 0) || negb (nth 4 t 0 =? 0) then not64 0 else 0 in
  MkLimbs4 (Z.lor (Z.land s0 mask) (Z.ldiff (nth 0 t 0) mask))
           (Z.lor (Z.land s1 mask) (Z.ldiff (nth 1 t 0) mask))
           (Z.lor (Z.land s2 mask) (Z.ldiff (nth 2 t 0) mask))
           (Z.lor (Z.land s3 mask) (Z.ldiff (nth 3 t 0) mask)).

Definition p256ScalarMontMul (a b : Limbs4) : Limbs4 :=
  mont_final
    (for_range 0 4 (fun i t => mont_iter (arr a) (nth i (arr b) 0) t) [0; 0; 0; 0; 0; 0]).

Definition p256ScalarMontSqr (a : Limbs4) (n : nat) : Limbs4 :=
  let out := p256ScalarMontMul a a in
  for_range 1 (n - 1) (fun _ out => p256ScalarMontMul out out) out.

(** Eight bytes to a word, most significant first. *)
Definition be_limb (b : list Z) (i : nat) : Z :=
  Z.lor (Z.lor (Z.lor (Z.lor (Z.lor (Z.lor (Z.lor
    (u64 (Z.shiftl (nth i b 0) 56)) (u64 (Z.shiftl (nth (i + 1) b 0) 48)))
    (u64 (Z.shiftl (nth (i + 2) b 0) 40))) (u64 (Z.shiftl (nth (i + 3) b 0) 32)))
    (u64 (Z.shiftl (nth (i + 4) b 0) 24))) (u64 (Z.shiftl (nth (i + 5) b 0) 16)))
    (u64 (Z.shiftl (nth (i + 6) b 0) 8))) (nth (i + 7) b 0).

Definition SetBytesBE (b : list Z) : option Scalar :=
  if negb (length b =? 32)%nat then None
  else
    let s3 := be_limb b 0 in
    let s2 := be_limb b 8 in
    let s1 := be_limb b 16 in
    let s0 := be_limb b 24 in
    let '(d0, d1, d2, d3, borrow) := sub_n s0 s1 s2 s3 in
    let limbs := if borrow =? 0 then MkLimbs4 d0 d1 d2 d3 else MkLimbs4 s0 s1 s2 s3 in
    Some (p256ScalarMontMul limbs p256ScalarRR).

Definition beWriteUint64 (v : Z) : list Z :=
  [u8 (Z.shiftr v 56); u8 (Z.shiftr v 48); u8 (Z.shiftr v 40); u8 (Z.shiftr v 32);
   u8 (Z.shiftr v 24); u8 (Z.shiftr v 16); u8 (Z.shiftr v 8); u8 v].

Definition scalar_one : Limbs4 := MkLimbs4 1 0 0 0.

Definition Scalar_Bytes (s : Scalar) : list Z :=
  let t := p256ScalarMontMul s scalar_one in
  beWriteUint64 (l3 t) ++ beWriteUint64 (l2 t) ++ beWriteUint64 (l1 t) ++ beWriteUint64 (l0 t).

Definition Scalar_IsZero (s : Scalar) : bool :=
  Z.lor (Z.lor (Z.lor (l0 s) (l1 s)) (l2 s)) (l3 s) =? 0.

Definition Scalar_Mul (a b : Scalar) : Scalar := p256ScalarMontMul a b.

Definition p256ScalarNMinus2 : Limbs4 :=
  MkLimbs4 0xf3b9cac2fc63254f 0xbce6faada7179e84 0xffffffffffffffff 0xffffffff00000000.

(** Square, and multiply when the exponent bit is set. *)
Definition invert_bit (base : Limbs4) (limb : Z) (result : Limbs4) (bit : nat) : Limbs4 :=
  let result := p256ScalarMontMul result result in
  if Z.land (Z.shiftr limb (Z.of_nat bit)) 1 =? 1 then p256ScalarMontMul result base else result.

(** All bits of one exponent limb, from the top. *)
Definition invert_limb (base result : Limbs4) (limbIdx : nat) : Limbs4 :=
  let limb := nth limbIdx (arr p256ScalarNMinus2) 0 in
  fold_left (invert_bit base limb) (rev (seq 0 64)) result.

Definition Scalar_Invert (x : Scalar) : Scalar :=
  if Scalar_IsZero x then MkLimbs4 0 0 0 0
  else
    let result := p256ScalarMontMul p256ScalarRR scalar_one in
    fold_left (invert_limb x) [3; 2; 1; 0]%nat result.

(** ** The inner loops *)

Lemma mac_step_spec x y tj cLo cHi lo hi cc :
  is_u64 x -> is_u64 y -> is_u64 tj -> is_u64 cLo -> 0 <= cHi <= 1 ->
  mac_step x y tj cLo cHi = (lo, hi, cc) ->
  lo + W64 * (hi + W64 * cc) = x * y + tj + cLo + W64 * cHi /\
  is_u64 lo /\ is_u64 hi /\ 0 <= cc <= 1.
Proof.
  intros Hx Hy Ht Hc Hh; unfold mac_step.
  assert (is_u64 cHi) by (unword; lia).
  destruct (Mul64 x y) as [h l] eqn:E1; apply Mul64_spec in E1; [|assumption..].
  destruct E1 as (E1 & ? & ? & _).
  destruct (Add64 l tj 0) as [s1 c1] eqn:E2; apply Add64_spec in E2; [|assumption|assumption|lia].
  destruct E2 as (E2 & ? & ?).
  destruct (Add64 h 0 c1) as [s2 c2] eqn:E3; apply Add64_spec in E3;
    [|unword; lia|unword; lia|assumption]. destruct E3 as (E3 & ? & ?).
  destruct (Add64 s1 cLo 0) as [s3 c3] eqn:E4; apply Add64_spec in E4; [|assumption|assumption|lia].
  destruct E4 as (E4 & ? & ?).
  destruct (Add64 s2 cHi c3) as [s4 c4] eqn:E5; apply Add64_spec in E5; [|assumption..].
  destruct E5 as (E5 & ? & ?).
  intros [= <- <- <-]; split; [unword; lia|auto].
Qed.

Definition wval6 (t0 t1 t2 t3 t4 t5 : Z) : Z :=
  t0 + W64 * (t1 + W64 * (t2 + W64 * (t3 + W64 * (t4 + W64 * t5)))).

(** One pass [t += x * y]: exact as long as the sum fits six words. *)
Lemma mac_pass a y t0 t1 t2 t3 t4 t5 :
  limbs_ok a -> is_u64 y -> is_u64 t0 -> is_u64 t1 -> is_u64 t2 -> is_u64 t3 -> is_u64 t4 ->
  is_u64 t5 -> wval6 t0 t1 t2 t3 t4 t5 + eval a * y < W64 ^ 6 ->
  exists u0 u1 u2 u3 u4 u5,
    drain (mac_loop (arr a) y [t0; t1; t2; t3; t4; t5]) = [u0; u1; u2; u3; u4; u5] /\
    is_u64 u0 /\ is_u64 u1 /\ is_u64 u2 /\ is_u64 u3 /\ is_u64 u4 /\ is_u64 u5 /\
    wval6 u0 u1 u2 u3 u4 u5 = wval6 t0 t1 t2 t3 t4 t5 + eval a * y.
Proof.
  destruct a as [a0 a1 a2 a3]; intros (A0 & A1 & A2 & A3) Hy T0 T1 T2 T3 T4 T5 Hlt.
  cbn [l0 l1 l2 l3] in *; assert (H0 : is_u64 0) by (unword; lia).
  unfold mac_loop, for_range, arr; cbn [seq fold_left nth l0 l1 l2 l3].
  destruct (mac_step a0 y t0 0 0) as [[u0 h0] c0] eqn:E0; apply mac_step_spec in E0; auto; [|lia].
  destruct E0 as (E0 & U0 & Hh0 & Hc0); cbn [upd nth].
  destruct (mac_step a1 y t1 h0 c0) as [[u1 h1] c1] eqn:E1; apply mac_step_spec in E1; auto.
  destruct E1 as (E1 & U1 & Hh1 & Hc1); cbn [upd nth].
  destruct (mac_step a2 y t2 h1 c1) as [[u2 h2] c2] eqn:E2; apply mac_step_spec in E2; auto.
  destruct E2 as (E2 & U2 & Hh2 & Hc2); cbn [upd nth].
  destruct (mac_step a3 y t3 h2 c2) as [[u3 h3] c3] eqn:E3; apply mac_step_spec in E3; auto.
  destruct E3 as (E3 & U3 & Hh3 & Hc3); cbn [upd nth drain].
  destruct (Add64 t4 h3 0) as [u4 c4] eqn:E4; apply Add64_spec in E4; auto; [|lia].
  destruct E4 as (E4 & U4 & Hc4); cbn [upd nth].
  destruct (Add64 t5 c3 c4) as [u5 c5] eqn:E5; apply Add64_spec in E5; auto; [|unword; lia].
  destruct E5 as (E5 & U5 & Hc5); cbn [upd nth].
  exists u0, u1, u2, u3, u4, u5; split; [reflexivity|].
  repeat (split; [assumption|]).
  assert (Hsum : wval6 u0 u1 u2 u3 u4 u5 + W64 ^ 6 * c5 =
                 wval6 t0 t1 t2 t3 t4 t5 + eval (MkLimbs4 a0 a1 a2 a3) * y).
  { unfold eval; cbn [l0 l1 l2 l3].
    replace ((a0 + W64 * (a1 + W64 * (a2 + W64 * a3))) * y)
      with (a0 * y + W64 * (a1 * y + W64 * (a2 * y + W64 * (a3 * y)))) by ring.
    generalize dependent (a0 * y); generalize dependent (a1 * y); generalize dependent (a2 * y);
      generalize dependent (a3 * y); unfold wval6; intros; lia. }
  assert (c5 = 0) by (unfold wval6 in *; unword; lia).
  lia.
Qed.

(** ** One Montgomery step *)

Lemma eval_N : eval p256ScalarN = p256N.
Proof. reflexivity. Qed.

Lemma N_limbs_ok : limbs_ok p256ScalarN.
Proof. repeat split; easy. Qed.

(** The multiple of n added makes the low word vanish. *)
Lemma low_word_zero t0 :
  (t0 + p256N * u64 (t0 * p256ScalarNInv0)) mod W64 = 0.
Proof.
  unfold u64; rewrite <- Zplus_mod_idemp_r, Zmult_mod_idemp_r, Zplus_mod_idemp_r.
  replace (t0 + p256N * (t0 * p256ScalarNInv0)) with (t0 * (1 + p256N * p256ScalarNInv0)) by ring.
  rewrite Z.mul_mod by lia.
  replace ((1 + p256N * p256ScalarNInv0) mod W64) with 0 by (vm_compute; reflexivity).
  rewrite Z.mul_0_r; reflexivity.
Qed.

Lemma mont_iter_spec a bi t0 t1 t2 t3 t4 :
  limbs_ok a -> eval a < p256N -> is_u64 bi ->
  is_u64 t0 -> is_u64 t1 -> is_u64 t2 -> is_u64 t3 -> is_u64 t4 ->
  wval6 t0 t1 t2 t3 t4 0 < 2 * p256N ->
  exists u0 u1 u2 u3 u4 m,
    mont_iter (arr a) bi [t0; t1; t2; t3; t4; 0] = [u0; u1; u2; u3; u4; 0] /\
    is_u64 u0 /\ is_u64 u1 /\ is_u64 u2 /\ is_u64 u3 /\ is_u64 u4 /\
    W64 * wval6 u0 u1 u2 u3 u4 0 = wval6 t0 t1 t2 t3 t4 0 + eval a * bi + p256N * m /\
    wval6 u0 u1 u2 u3 u4 0 < 2 * p256N.
Proof.
  intros Ha Hlt Hb T0 T1 T2 T3 T4 Hval.
  pose proof (limbs_nonneg a Ha) as Hnn.
  assert (H0 : is_u64 0) by (unword; lia).
  assert (Hab : 0 <= eval a * bi <= (p256N - 1) * (W64 - 1))
    by (unword; split; [nia|apply Z.mul_le_mono_nonneg; lia]).
  assert (HN : p256N = 0xffffffff00000000ffffffffffffffffbce6faada7179e84f3b9cac2fc632551) by reflexivity.
  destruct (mac_pass a bi t0 t1 t2 t3 t4 0) as (v0 & v1 & v2 & v3 & v4 & v5 & E1 & V0 & V1 & V2 & V3 & V4 & V5 & EV);
    auto; [lia|].
  unfold mont_iter; rewrite E1; cbn [nth].
  set (m := u64 (v0 * p256ScalarNInv0)).
  assert (Hm : is_u64 m) by apply u64_range.
  assert (Hmn : 0 <= p256N * m <= p256N * (W64 - 1)) by (unword; lia).
  destruct (mac_pass p256ScalarN m v0 v1 v2 v3 v4 v5) as
    (w0 & w1 & w2 & w3 & w4 & w5 & E2 & V0' & V1' & V2' & V3' & V4' & V5' & EW);
    auto using N_limbs_ok; [rewrite eval_N; lia|].
  rewrite eval_N in EW; rewrite E2; cbn [upd nth].
  exists w1, w2, w3, w4, w5, m; split; [reflexivity|]; repeat (split; [assumption|]).
  pose proof (low_word_zero v0) as HZ; fold m in HZ.
  assert (Hw0 : w0 = 0).
  { assert (E : w0 mod W64 = 0).
    { rewrite <- HZ; apply (f_equal (fun z => z mod W64)) in EW; unfold wval6 in EW.
      rewrite !(Z.mul_comm W64), Z_mod_plus_full in EW; rewrite EW.
      rewrite <- Z.add_assoc, (Z.add_comm _ (p256N * m)), Z.add_assoc, Z_mod_plus_full; reflexivity. }
    rewrite Z.mod_small in E by exact V0'; exact E. }
  subst w0; unfold wval6 in *; split; lia.
Qed.

(** ** Multiplication *)

(** A reduced scalar. *)
Definition scalar_ok (a : Limbs4) : Prop := limbs_ok a /\ eval a < p256N.

Lemma scalar_range a : scalar_ok a -> 0 <= eval a < p256N.
Proof. intros [H Hlt]; split; [apply limbs_nonneg, H|exact Hlt]. Qed.

Lemma mask_all s t : is_u64 s -> is_u64 t -> Z.lor (Z.land s (not64 0)) (Z.ldiff t (not64 0)) = s.
Proof.
  intros Hs Ht; change (not64 0) with (2 ^ 64 - 1).
  rewrite land_mask by lia; replace (2 ^ 64 - 1) with (Z.ones 64) by reflexivity.
  rewrite Z.ldiff_ones_r, Z.shiftr_div_pow2, Z.div_small, Z.shiftl_0_l, Z.lor_0_r
    by (lia || exact Ht).
  apply Z.mod_small, Hs.
Qed.

Lemma mask_none s t : Z.lor (Z.land s 0) (Z.ldiff t 0) = t.
Proof. rewrite Z.land_0_r, Z.ldiff_0_r; reflexivity. Qed.

Lemma sub_n_spec t0 t1 t2 t3 s0 s1 s2 s3 b :
  is_u64 t0 -> is_u64 t1 -> is_u64 t2 -> is_u64 t3 ->
  sub_n t0 t1 t2 t3 = (s0, s1, s2, s3, b) ->
  is_u64 s0 /\ is_u64 s1 /\ is_u64 s2 /\ is_u64 s3 /\ 0 <= b <= 1 /\
  eval (MkLimbs4 s0 s1 s2 s3) - W64 ^ 4 * b = eval (MkLimbs4 t0 t1 t2 t3) - p256N.
Proof.
  intros H0 H1 H2 H3; unfold sub_n.
  destruct N_limbs_ok as (N0 & N1 & N2 & N3); rewrite <- eval_N; unfold eval; cbn [l0 l1 l2 l3].
  destruct (Sub64 t0 _ 0) as [d0 b0] eqn:E0; apply Sub64_spec in E0; auto; [|lia].
  destruct E0 as (E0 & ? & ?).
  destruct (Sub64 t1 _ b0) as [d1 b1] eqn:E1; apply Sub64_spec in E1; auto. destruct E1 as (E1 & ? & ?).
  destruct (Sub64 t2 _ b1) as [d2 b2] eqn:E2; apply Sub64_spec in E2; auto. destruct E2 as (E2 & ? & ?).
  destruct (Sub64 t3 _ b2) as [d3 b3] eqn:E3; apply Sub64_spec in E3; auto. destruct E3 as (E3 & ? & ?).
  intros [= <- <- <- <- <-]; repeat (split; [assumption|]); lia.
Qed.

Lemma mont_final_spec t0 t1 t2 t3 t4 :
  is_u64 t0 -> is_u64 t1 -> is_u64 t2 -> is_u64 t3 -> is_u64 t4 ->
  wval6 t0 t1 t2 t3 t4 0 < 2 * p256N ->
  scalar_ok (mont_final [t0; t1; t2; t3; t4; 0]) /\
  exists q, eval (mont_final [t0; t1; t2; t3; t4; 0]) = wval6 t0 t1 t2 t3 t4 0 - q * p256N.
Proof.
  intros T0 T1 T2 T3 T4 Hlt; unfold mont_final; cbn [nth].
  destruct (sub_n t0 t1 t2 t3) as [[[[s0 s1] s2] s3] b] eqn:E.
  apply sub_n_spec in E; auto; destruct E as (S0 & S1 & S2 & S3 & Hb & E).
  assert (Hval : wval6 t0 t1 t2 t3 t4 0 = eval (MkLimbs4 t0 t1 t2 t3) + W64 ^ 4 * t4)
    by (unfold wval6, eval; cbn [l0 l1 l2 l3]; lia).
  pose proof (limbs_range (MkLimbs4 t0 t1 t2 t3) (conj T0 (conj T1 (conj T2 T3)))) as RT.
  pose proof (limbs_range (MkLimbs4 s0 s1 s2 s3) (conj S0 (conj S1 (conj S2 S3)))) as RS.
  change (pow256 32) with (W64 ^ 4) in *; unfold p256N in *.
  destruct (Z.eqb_spec b 0) as [Hb0|Hb0], (Z.eqb_spec t4 0) as [H4|H4]; cbn [orb negb];
    rewrite ?mask_all, ?mask_none by assumption;
    match goal with |- scalar_ok ?r /\ _ => assert (limbs_ok r) by (split; [|split; [|split]]; assumption) end;
    unfold scalar_ok, p256N; (split; [split; [assumption|unword; lia]|]).
  - exists 1; lia.
  - exists 1; unword; lia.
  - exists 0; lia.
  - exists 1; unword; lia.
Qed.

Lemma p256ScalarMontMul_spec a b :
  scalar_ok a -> limbs_ok b ->
  scalar_ok (p256ScalarMontMul a b) /\
  exists M, W64 ^ 4 * eval (p256ScalarMontMul a b) = eval a * eval b + M * p256N.
Proof.
  intros [Ha Hlt] Hb; destruct Hb as (B0 & B1 & B2 & B3).
  assert (H0 : is_u64 0) by (unword; lia).
  unfold p256ScalarMontMul, for_range; cbn [seq fold_left nth arr].
  destruct (mont_iter_spec a (l0 b) 0 0 0 0 0) as
    (u0 & u1 & u2 & u3 & u4 & m0 & E0 & U0 & U1 & U2 & U3 & U4 & V0 & L0); auto.
  { unfold wval6, p256N; lia. }
  change ([l0 a; l1 a; l2 a; l3 a]) with (arr a); rewrite E0.
  destruct (mont_iter_spec a (l1 b) u0 u1 u2 u3 u4) as
    (v0 & v1 & v2 & v3 & v4 & m1 & E1 & X0 & X1 & X2 & X3 & X4 & V1 & L1); auto; rewrite E1.
  destruct (mont_iter_spec a (l2 b) v0 v1 v2 v3 v4) as
    (w0 & w1 & w2 & w3 & w4 & m2 & E2 & Y0 & Y1 & Y2 & Y3 & Y4 & V2 & L2); auto; rewrite E2.
  destruct (mont_iter_spec a (l3 b) w0 w1 w2 w3 w4) as
    (z0 & z1 & z2 & z3 & z4 & m3 & E3 & Z0 & Z1 & Z2 & Z3 & Z4 & V3 & L3); auto; rewrite E3.
  destruct (mont_final_spec z0 z1 z2 z3 z4) as [Hok [q Eq]]; auto; split; [exact Hok|].
  rewrite Eq; exists (m0 + W64 * (m1 + W64 * (m2 + W64 * m3)) - W64 ^ 4 * q); unfold eval.
  change (wval6 0 0 0 0 0 0) with 0 in V0.
  set (A := l0 a + W64 * (l1 a + W64 * (l2 a + W64 * l3 a))) in *.
  fold A in V0, V1, V2, V3; unfold eval in V0, V1, V2, V3; fold A in V0, V1, V2, V3.
  clear -V0 V1 V2 V3; revert V0 V1 V2 V3.
  generalize (wval6 u0 u1 u2 u3 u4 0) (wval6 v0 v1 v2 v3 v4 0) (wval6 w0 w1 w2 w3 w4 0)
    (wval6 z0 z1 z2 z3 z4 0); intros u v w z V0 V1 V2 V3.
  transitivity (W64 ^ 3 * (W64 * z) - W64 ^ 4 * q * p256N); [ring|rewrite V3].
  transitivity (W64 ^ 2 * (W64 * w) + W64 ^ 3 * (A * l3 b + p256N * m3) - W64 ^ 4 * q * p256N);
    [ring|rewrite V2].
  transitivity (W64 * (W64 * v) + W64 ^ 2 * (A * l2 b + p256N * m2)
    + W64 ^ 3 * (A * l3 b + p256N * m3) - W64 ^ 4 * q * p256N); [ring|rewrite V1].
  transitivity (W64 * u + W64 * (A * l1 b + p256N * m1) + W64 ^ 2 * (A * l2 b + p256N * m2)
    + W64 ^ 3 * (A * l3 b + p256N * m3) - W64 ^ 4 * q * p256N); [ring|rewrite V0; ring].
Qed.

(** ** Values modulo n *)

(** The inverse of the Montgomery radix modulo n. *)
Definition p256N_Rinv : Z :=
  0x60d066334905c1e907f8b6041e607725badef3e243566fafce1bc8f79c197c79.

Lemma p256N_Rinv_ok : (W64 ^ 4 * p256N_Rinv) mod p256N = 1.
Proof. reflexivity. Qed.

(** The field with n elements. *)
Definition Fn := Zmod.Zmod p256N.

Definition sval (s : Scalar) : Z := (eval s * p256N_Rinv) mod p256N.

(** Scalar [s] represents [z]. *)
Definition srep (s : Scalar) (z : Fn) : Prop := scalar_ok s /\ sval s = Zmod.to_Z z.

Lemma N_div_unique z v M :
  0 <= z < p256N -> W64 ^ 4 * z = v + M * p256N -> z = (v * p256N_Rinv) mod p256N.
Proof.
  intros Hz E.
  assert (Ev : v = W64 ^ 4 * z - M * p256N) by lia.
  replace (v * p256N_Rinv)
    with ((W64 ^ 4 * p256N_Rinv) * z + (- M * p256N_Rinv) * p256N) by (rewrite Ev; ring).
  rewrite Z_mod_plus_full, Z.mul_mod, p256N_Rinv_ok, Z.mul_1_l, Z.mod_mod by (unfold p256N; lia).
  symmetry; apply Z.mod_small, Hz.
Qed.

Lemma MontMul_eval a b :
  scalar_ok a -> limbs_ok b ->
  scalar_ok (p256ScalarMontMul a b) /\
  eval (p256ScalarMontMul a b) = (eval a * eval b * p256N_Rinv) mod p256N.
Proof.
  intros Ha Hb; destruct (p256ScalarMontMul_spec a b Ha Hb) as [Hok [M E]].
  split; [exact Hok|]; eapply N_div_unique; [apply scalar_range, Hok|exact E].
Qed.
#[global] Opaque p256ScalarMontMul.

Lemma srep_Mul a b x y : srep a x -> srep b y -> srep (Scalar_Mul a b) (Zmod.mul x y).
Proof.
  intros [Ha Ea] [Hb Eb]; destruct (MontMul_eval a b Ha (proj1 Hb)) as [Hok E].
  split; [exact Hok|]; rewrite Zmod.to_Z_mul, <- Ea, <- Eb; unfold sval, Scalar_Mul; rewrite E.
  rewrite Zmult_mod_idemp_l, <- Zmult_mod.
  replace (eval a * p256N_Rinv * (eval b * p256N_Rinv))
    with (eval a * eval b * p256N_Rinv * p256N_Rinv) by ring; reflexivity.
Qed.

Lemma srep_inj a b x : srep a x -> srep b x -> a = b.
Proof.
  intros [Ha Ea] [Hb Eb]; apply eval_inj; [apply Ha|apply Hb|].
  assert (Hback : forall u, 0 <= u < p256N ->
    u = (W64 ^ 4 * ((u * p256N_Rinv) mod p256N)) mod p256N).
  { intros u Hu; rewrite Zmult_mod_idemp_r.
    replace (W64 ^ 4 * (u * p256N_Rinv)) with (W64 ^ 4 * p256N_Rinv * u) by ring.
    rewrite Z.mul_mod, p256N_Rinv_ok, Z.mul_1_l, Z.mod_mod by (unfold p256N; lia).
    symmetry; apply Z.mod_small, Hu. }
  rewrite (Hback (eval a)), (Hback (eval b)) by (apply scalar_range; assumption).
  unfold sval in *; rewrite Ea, Eb; reflexivity.
Qed.

(** ** Decoding and encoding *)

Lemma lor_step A B k :
  0 <= k -> 0 <= B < 256 ->
  Z.lor (A * 2 ^ (k + 8)) (B * 2 ^ k) = (A * 256 + B) * 2 ^ k.
Proof.
  intros Hk HB; rewrite Z.pow_add_r, (Z.mul_comm (2 ^ k)), Z.mul_assoc by lia.
  rewrite <- !Z.shiftl_mul_pow2, <- Z.shiftl_lor by lia; f_equal.
  rewrite Z.shiftl_mul_pow2 by lia; apply (lor_add_high A B 8); lia.
Qed.

Lemma be_limb_value b i :
  bytes b -> be_limb b i = be_val (map (fun j => nth (i + j) b 0) (seq 0 8)) /\ is_u64 (be_limb b i).
Proof.
  intros Hb; pose proof (fun j => bytes_nth b j Hb) as Hn; unword.
  unfold be_limb; rewrite !Z.shiftl_mul_pow2 by lia.
  rewrite !u64_small by (unword; match goal with |- context [nth ?j b 0] => specialize (Hn j) end; lia).
  cbn [seq map]; rewrite Nat.add_0_r.
  pose proof (Hn i); pose proof (Hn (i + 1)%nat); pose proof (Hn (i + 2)%nat);
    pose proof (Hn (i + 3)%nat); pose proof (Hn (i + 4)%nat); pose proof (Hn (i + 5)%nat);
    pose proof (Hn (i + 6)%nat); pose proof (Hn (i + 7)%nat); clear Hn.
  rewrite (lor_step _ _ 48), (lor_step _ _ 40), (lor_step _ _ 32), (lor_step _ _ 24),
    (lor_step _ _ 16), (lor_step _ _ 8) by lia.
  rewrite (lor_add_high _ _ 8) by lia.
  unfold be_val; cbn [rev app le_val]; change (2 ^ 8) with 256; unword; lia.
Qed.

Lemma be_limbs_value b :
  bytes b -> length b = 32%nat ->
  let a := MkLimbs4 (be_limb b 24) (be_limb b 16) (be_limb b 8) (be_limb b 0) in
  limbs_ok a /\ eval a = be_val b.
Proof.
  intros Hb Hl a.
  destruct (be_limb_value b 0 Hb) as [E0 R0], (be_limb_value b 8 Hb) as [E1 R1],
    (be_limb_value b 16 Hb) as [E2 R2], (be_limb_value b 24 Hb) as [E3 R3].
  split; [split; [exact R3|split; [exact R2|split; [exact R1|exact R0]]]|].
  unfold a, eval; cbn [l0 l1 l2 l3]; rewrite E0, E1, E2, E3, !map_nth_seq by lia.
  rewrite (split_32 b Hl) at 5; rewrite !be_val_app.
  rewrite !length_app, !length_firstn, !length_skipn, Hl.
  change (pow256 (Nat.min 8 (32 - 24))) with W64.
  change (pow256 (Nat.min 8 (32 - 16) + Nat.min 8 (32 - 24))) with (W64 * W64).
  change (pow256 (Nat.min 8 (32 - 8) + (Nat.min 8 (32 - 16) + Nat.min 8 (32 - 24))))
    with (W64 * W64 * W64).
  cbn [skipn]; ring.
Qed.

Lemma RR_ok : scalar_ok p256ScalarRR.
Proof. split; [repeat split; easy|reflexivity]. Qed.

Lemma scalar_one_ok : scalar_ok scalar_one.
Proof. split; [repeat split; easy|reflexivity]. Qed.

(** Decoding reduces modulo n. *)
Lemma SetBytesBE_rep b :
  bytes b ->
  match SetBytesBE b with
  | Some s => length b = 32%nat /\ srep s (Zmod.of_Z p256N (be_val b))
  | None => length b <> 32%nat
  end.
Proof.
  intros Hb; unfold SetBytesBE.
  destruct (Nat.eqb_spec (length b) 32) as [Hl|Hl]; cbn [negb]; [|exact Hl].
  destruct (be_limbs_value b Hb Hl) as [Hok Hv]; cbv zeta in *.
  destruct (sub_n _ _ _ _) as [[[[d0 d1] d2] d3] br] eqn:E.
  apply sub_n_spec in E; [|apply Hok..]; destruct E as (D0 & D1 & D2 & D3 & Hbr & E).
  split; [exact Hl|].
  pose proof (limbs_range _ Hok) as R1.
  pose proof (limbs_range (MkLimbs4 d0 d1 d2 d3) (conj D0 (conj D1 (conj D2 D3)))) as R2.
  set (s := MkLimbs4 (be_limb b 24) (be_limb b 16) (be_limb b 8) (be_limb b 0)) in *.
  change (pow256 32) with (W64 ^ 4) in *.
  set (lm := if br =? 0 then MkLimbs4 d0 d1 d2 d3 else s).
  assert (Hlm : scalar_ok lm /\ eval lm mod p256N = be_val b mod p256N).
  { unfold lm; destruct (Z.eqb_spec br 0) as [->|Hne].
    - split; [split; [exact (conj D0 (conj D1 (conj D2 D3)))|unfold p256N in *; lia]|].
      apply Z.cong_iff_ex; exists (-1); lia.
    - split; [split; [exact Hok|unfold p256N in *; lia]|rewrite Hv; reflexivity]. }
  destruct Hlm as [Hlm Ev].
  destruct (MontMul_eval lm p256ScalarRR Hlm (proj1 RR_ok)) as [Ho Ee].
  split; [exact Ho|]; unfold sval; rewrite Ee, Zmod.to_Z_of_Z, Zmult_mod_idemp_l, <- Ev.
  replace (eval lm * eval p256ScalarRR * p256N_Rinv * p256N_Rinv)
    with (eval lm * (eval p256ScalarRR * p256N_Rinv * p256N_Rinv)) by ring.
  rewrite Z.mul_mod by (unfold p256N; lia).
  replace ((eval p256ScalarRR * p256N_Rinv * p256N_Rinv) mod p256N) with 1 by (vm_compute; reflexivity).
  rewrite Z.mul_1_r, Z.mod_mod by (unfold p256N; lia); reflexivity.
Qed.

Lemma beWriteUint64_eq v : is_u64 v -> beWriteUint64 v = be_bytes 8 v.
Proof.
  intros Hv; unfold beWriteUint64, be_bytes; rewrite limb_bytes; cbn [rev app].
  rewrite !Z.shiftr_div_pow2 by lia; unfold u8.
  repeat (rewrite Z.div_div by lia); reflexivity.
Qed.

Lemma Scalar_Bytes_rep s z : srep s z -> Scalar_Bytes s = be_bytes 32 (Zmod.to_Z z).
Proof.
  intros [Hs Ez]; unfold Scalar_Bytes; cbv zeta.
  destruct (MontMul_eval s scalar_one Hs (proj1 scalar_one_ok)) as [[Hok _] E].
  change (eval scalar_one) with 1 in E; rewrite Z.mul_1_r in E; fold (sval s) in E.
  set (t := p256ScalarMontMul s scalar_one) in *; clearbody t.
  rewrite <- Ez, <- E; unfold be_bytes; rewrite (le_bytes_eval t Hok).
  destruct Hok as (T0 & T1 & T2 & T3); rewrite !beWriteUint64_eq by assumption.
  unfold be_bytes; rewrite !rev_app_distr, <- !app_assoc; reflexivity.
Qed.

Lemma Scalar_IsZero_rep s z : srep s z -> Scalar_IsZero s = Zmod.eqb z Zmod.zero.
Proof.
  intros [Hs Ez].
  assert (E0 : Scalar_IsZero s = true <-> s = MkLimbs4 0 0 0 0).
  { destruct s as [a b c d]; unfold Scalar_IsZero; cbn [l0 l1 l2 l3].
    rewrite Z.eqb_eq, !Z.lor_eq_0_iff; split; [intros [[[-> ->] ->] ->]; reflexivity|].
    intros [= -> -> -> ->]; auto. }
  assert (H0 : srep (MkLimbs4 0 0 0 0) Zmod.zero)
    by (split; [split; [repeat split; easy|reflexivity]|reflexivity]).
  destruct (Zmod.eqb_spec z Zmod.zero) as [->|Hz].
  - apply E0; eapply srep_inj; [split; [exact Hs|exact Ez]|exact H0].
  - destruct (Scalar_IsZero s); [|reflexivity].
    contradiction Hz; apply Zmod.to_Z_inj; rewrite <- Ez, (proj1 E0 eq_refl); reflexivity.
Qed.

(** ** Inversion *)

Lemma invert_bits_rep x z limb bits r e :
  srep x z -> srep r (Zmod.pow z e) -> 0 <= e ->
  let e' := fold_left (fun e i => 2 * e + Z.b2z (Z.testbit limb (Z.of_nat i))) bits e in
  srep (fold_left (invert_bit x limb) bits r) (Zmod.pow z e') /\ 0 <= e'.
Proof.
  intros Hx; revert r e; induction bits as [|i bits IH]; intros r e Hr He; cbn [fold_left]; [auto|].
  apply IH; [|destruct (Z.testbit limb (Z.of_nat i)); cbn [Z.b2z]; lia].
  unfold invert_bit; rewrite bit_test.
  pose proof (srep_Mul _ _ _ _ Hr Hr) as H2; rewrite <- Zmod.pow_add_r_nonneg in H2 by exact He.
  replace (e + e) with (2 * e) in H2 by ring.
  destruct (Z.testbit limb (Z.of_nat i)); cbn [Z.b2z]; [|rewrite Z.add_0_r; exact H2].
  rewrite Zmod.pow_add_r_nonneg, Zmod.pow_1_r by lia; exact (srep_Mul _ _ _ _ H2 Hx).
Qed.

(** The exponent the two nested loops spell out. *)
Definition exponent_limb (e : Z) (limbIdx : nat) : Z :=
  fold_left (fun e i => 2 * e + Z.b2z (Z.testbit (nth limbIdx (arr p256ScalarNMinus2) 0) (Z.of_nat i)))
    (rev (seq 0 64)) e.

Lemma invert_exponent : fold_left exponent_limb [3; 2; 1; 0]%nat 0 = p256N - 2.
Proof. vm_compute; reflexivity. Qed.

Lemma invert_limbs_gen x z (L : list Z) bits idxs r e :
  srep x z -> srep r (Zmod.pow z e) -> 0 <= e ->
  srep (fold_left (fun r i => fold_left (invert_bit x (nth i L 0)) bits r) idxs r)
       (Zmod.pow z (fold_left (fun e i =>
          fold_left (fun e j => 2 * e + Z.b2z (Z.testbit (nth i L 0) (Z.of_nat j))) bits e) idxs e)).
Proof.
  intros Hx; revert r e; induction idxs as [|i idxs IH]; intros r e Hr He; cbn [fold_left]; [exact Hr|].
  destruct (invert_bits_rep x z (nth i L 0) bits r e Hx Hr He) as [H1 H2].
  exact (IH _ _ H1 H2).
Qed.

Lemma invert_limbs_rep x z idxs r e :
  srep x z -> srep r (Zmod.pow z e) -> 0 <= e ->
  srep (fold_left (invert_limb x) idxs r) (Zmod.pow z (fold_left exponent_limb idxs e)).
Proof. exact (invert_limbs_gen x z (arr p256ScalarNMinus2) (rev (seq 0 64)) idxs r e). Qed.

Lemma srep_one : srep (p256ScalarMontMul p256ScalarRR scalar_one) Zmod.one.
Proof.
  destruct (MontMul_eval _ _ RR_ok (proj1 scalar_one_ok)) as [Hok E]; split; [exact Hok|].
  unfold sval; rewrite E; vm_compute; reflexivity.
Qed.

Lemma srep_zero : srep (MkLimbs4 0 0 0 0) Zmod.zero.
Proof. split; [split; [repeat split; easy|reflexivity]|reflexivity]. Qed.

Lemma Scalar_Invert_rep x z : srep x z -> srep (Scalar_Invert x) (Zmod.inv z).
Proof.
  intros Hx; unfold Scalar_Invert; rewrite (Scalar_IsZero_rep _ _ Hx).
  destruct (Zmod.eqb_spec z Zmod.zero) as [->|Hz].
  - rewrite Zmod.inv_0; exact srep_zero.
  - cbv zeta; rewrite <- Zmod.fermat_inv by (exact Hz || exact prime_p256N).
    rewrite <- invert_exponent; apply invert_limbs_rep; [exact Hx| |lia].
    rewrite Zmod.pow_0_r; exact srep_one.
Qed.

(** ** Properties *)

(** CIOS Montgomery multiplication.  For a reduced first operand and any four-limb
    second operand the result is below n and times 2^256 congruent to the
    product modulo n; no carry of the six-word accumulator is lost. *)
Theorem MontMul_correct a b :
  scalar_ok a -> limbs_ok b ->
  scalar_ok (p256ScalarMontMul a b) /\
  (W64 ^ 4 * eval (p256ScalarMontMul a b)) mod p256N = (eval a * eval b) mod p256N.
Proof.
  intros Ha Hb; destruct (p256ScalarMontMul_spec a b Ha Hb) as [Hok [M E]].
  split; [exact Hok|]; rewrite E; apply Z_mod_plus_full.
Qed.

Lemma MontMul_correct_witness :
  scalar_ok p256ScalarRR /\ scalar_ok (p256ScalarMontMul p256ScalarRR p256ScalarRR).
Proof.
  split; [exact RR_ok|].
  exact (proj1 (MontMul_correct p256ScalarRR p256ScalarRR RR_ok (proj1 RR_ok))).
Defined.

(** the scalar API.  [SetBytesBE] accepts exactly 32 bytes and represents their value
    modulo n; [Bytes] of a scalar built from bytes gives the reduced value back;
    [Mul], [IsZero] and [Invert] are multiplication, the zero test and the inverse
    (0 for 0) modulo n. *)
Theorem scalar_api_correct b c :
  bytes b -> bytes c ->
  match SetBytesBE b, SetBytesBE c with
  | Some s, Some t =>
      length b = 32%nat /\ length c = 32%nat /\
      Scalar_Bytes s = be_bytes 32 (be_val b mod p256N) /\
      Scalar_Bytes (Scalar_Mul s t) = be_bytes 32 ((be_val b * be_val c) mod p256N) /\
      (Scalar_IsZero s = true <-> be_val b mod p256N = 0) /\
      Scalar_Bytes (Scalar_Mul s (Scalar_Invert s)) =
        be_bytes 32 (if be_val b mod p256N =? 0 then 0 else 1)
  | _, _ => length b <> 32%nat \/ length c <> 32%nat
  end.
Proof.
  intros Hb Hc; pose proof (SetBytesBE_rep b Hb) as R1; pose proof (SetBytesBE_rep c Hc) as R2.
  destruct (SetBytesBE b) as [s|]; [|left; exact R1].
  destruct (SetBytesBE c) as [t|]; [|right; exact R2].
  destruct R1 as [L1 R1], R2 as [L2 R2]; split; [exact L1|split; [exact L2|]].
  pose proof (srep_Mul _ _ _ _ R1 (Scalar_Invert_rep _ _ R1)) as RI.
  rewrite (Scalar_Bytes_rep _ _ R1), (Scalar_Bytes_rep _ _ (srep_Mul _ _ _ _ R1 R2)),
    (Scalar_Bytes_rep _ _ RI), (Scalar_IsZero_rep _ _ R1), <- Zmod.of_Z_mul, !Zmod.to_Z_of_Z.
  split; [reflexivity|split; [reflexivity|]].
  destruct (Zmod.eqb_spec (Zmod.of_Z p256N (be_val b)) Zmod.zero) as [E|E].
  - assert (E' : be_val b mod p256N = 0)
      by (rewrite <- Zmod.to_Z_of_Z, E; reflexivity).
    split; [tauto|]; rewrite E, E', Zmod.mul_0_l; reflexivity.
  - assert (E' : be_val b mod p256N <> 0)
      by (intros E'; apply E; apply Zmod.to_Z_inj; rewrite Zmod.to_Z_of_Z; exact E').
    split; [split; [discriminate|contradiction]|].
    rewrite Zmod.mul_inv_same_r_prime by (exact prime_p256N || exact E).
    destruct (Z.eqb_spec (be_val b mod p256N) 0); [contradiction|reflexivity].
Qed.

Lemma scalar_api_correct_witness :
  bytes (be_bytes 32 2) /\
  match SetBytesBE (be_bytes 32 2), SetBytesBE (be_bytes 32 3) with
  | Some s, Some t => Scalar_Bytes (Scalar_Mul s t) = be_bytes 32 6
  | _, _ => False
  end.
Proof.
  split; [apply bytes_be_bytes|].
  pose proof (scalar_api_correct (be_bytes 32 2) (be_bytes 32 3) (bytes_be_bytes _ _)
                (bytes_be_bytes _ _)) as H.
  destruct (SetBytesBE (be_bytes 32 2)); [|destruct H as [H|H]; apply H; reflexivity].
  destruct (SetBytesBE (be_bytes 32 3)); [|destruct H as [H|H]; apply H; reflexivity].
  destruct H as (_ & _ & _ & H & _); rewrite H; reflexivity.
Defined.
