(* ===== verification/P256Curve.v ===== *)
(** * The group law behind the point formulas

    Textbook chord-and-tangent addition on y^2 = x^3 - 3x + b over a field, and the
    proof that the projective formulas of [P256Point] compute it for all inputs:
    identity, opposite points and doublings included.  Completeness needs that
    the curve has no point of order two, which [P256NoRoot] shows for P-256. *)

From Stdlib Require Import ZArith Lia List Field.
From S2P Require Import Prelude MathBits FiatP256 P256Field P256Ops P256Invert P256Point.
Import ListNotations.

Section Curve.
Context {F : Type} (rO rI : F) (radd rmul rsub : F -> F -> F) (ropp : F -> F)
  (rdiv : F -> F -> F) (rinv : F -> F) (b gx gy : F).
Context (Fth : field_theory rO rI radd rmul rsub ropp rdiv rinv eq).
Context (Fdec : forall x y : F, {x = y} + {x <> y}).

Add Field Ffield : Fth.

Notation "0" := rO. Notation "1" := rI.
Infix "+" := radd. Infix "*" := rmul. Infix "-" := rsub. Infix "/" := rdiv.
Notation "- x" := (ropp x).

Instance ring_mul_ops : MulOps F := { fmul := rmul; fsq x := x * x }.
Instance ring_ops : FieldOps F := { fzero := 0; fone := 1; fadd := radd; fsub := rsub }.
Instance ring_curve : CurveOps F := { cb := b; cgx := gx; cgy := gy }.

Definition cubic (x : F) : F := x * x * x - (x + x + x) + b.

(** Affine points; [None] is the point at infinity. *)
Definition affine := option (F * F).

Definition on_curve (p : affine) : Prop :=
  match p with None => True | Some (x, y) => y * y = cubic x end.

(** The third intersection of the line of slope [m] through [(x1, y1)], reflected. *)
Definition line_point (m x1 y1 x2 : F) : F * F :=
  let x3 := m * m - x1 - x2 in (x3, m * (x1 - x3) - y1).

Definition aff_add (p q : affine) : affine :=
  match p, q with
  | None, _ => q
  | _, None => p
  | Some (x1, y1), Some (x2, y2) =>
      if Fdec x1 x2 then
        if Fdec (y1 + y2) 0 then None
        else Some (line_point (((1 + 1 + 1) * x1 * x1 - (1 + 1 + 1)) / (y1 + y1)) x1 y1 x2)
      else Some (line_point ((y2 - y1) / (x2 - x1)) x1 y1 x2)
  end.

Definition aff_neg (p : affine) : affine :=
  match p with None => None | Some (x, y) => Some (x, - y) end.

(** Projective representatives of a curve point. *)
Definition proj (P : Point F) (p : affine) : Prop :=
  match p with
  | None => px P = 0 /\ pz P = 0 /\ py P <> 0
  | Some (x, y) => pz P <> 0 /\ px P = x * pz P /\ py P = y * pz P /\ y * y = cubic x
  end.

(** Two facts about the field and the curve. *)
Context (two_nz : 1 + 1 <> 0) (no_root : forall x, cubic x <> 0).

Lemma mul_nz x y : x <> 0 -> y <> 0 -> x * y <> 0.
Proof.
  intros Hx Hy E; apply Hy.
  transitivity (rinv x * (x * y)); [field; exact Hx|rewrite E; ring].
Qed.

Lemma mul_cancel k x y : k <> 0 -> k * x = k * y -> x = y.
Proof.
  intros Hk E; transitivity (rinv k * (k * x)); [field; exact Hk|].
  rewrite E; field; exact Hk.
Qed.

(** No point has y = 0. *)
Lemma y_nz x y : y * y = cubic x -> y <> 0.
Proof. intros E ->; apply (no_root x); rewrite <- E; ring. Qed.

Ltac point_eq := f_equal; cbn; ring.

Lemma Add_expand x1 y1 z1 x2 y2 z2 :
  Point_Add (MkPoint x1 y1 z1) (MkPoint x2 y2 z2) =
  let s := x1 * z2 + x2 * z1 in
  let A := y1 * y2 - (1+1+1) * (b * z1 * z2 - s) in
  let B := y1 * y2 + (1+1+1) * (b * z1 * z2 - s) in
  let C := (1+1+1) * (b * s - x1 * x2 - (1+1+1) * z1 * z2) in
  let D := (1+1+1) * (x1 * x2 - z1 * z2) in
  let u := x1 * y2 + x2 * y1 in
  let v := y1 * z2 + y2 * z1 in
  MkPoint (u * A - v * C) (A * B + D * C) (v * B + u * D).
Proof. cbv zeta; unfold Point_Add; point_eq. Qed.

(** The curve constant, solved from a point on the curve. *)
Lemma b_of_point x y : y * y = cubic x -> b = y * y - x * x * x + (x + x + x).
Proof. unfold cubic; intros ->; ring. Qed.

Definition num_x n d x1 x2 := n * n - (x1 + x2) * (d * d).
Definition num_y n d x1 y1 x2 := n * (x1 * (d * d) - num_x n d x1 x2) - y1 * (d * d * d).

(** The formulas at z = 1, for two points with different x: the result is the
    chord's third point scaled by Z3, and Z3 is the numerator of the
    y-coordinate of the difference of the points. *)
Lemma chord_identities x1 y1 x2 y2 X3 Y3 Z3 :
  y1 * y1 = cubic x1 -> y2 * y2 = cubic x2 ->
  Point_Add (MkPoint x1 y1 1) (MkPoint x2 y2 1) = MkPoint X3 Y3 Z3 ->
  let n := y2 - y1 in let d := x2 - x1 in
  X3 * (d * d) = Z3 * num_x n d x1 x2 /\
  Y3 * (d * d * d) = Z3 * num_y n d x1 y1 x2 /\
  Z3 = num_y (- y2 - y1) d x1 y1 x2.
Proof.
  intros E1 E2; rewrite Add_expand; cbv zeta; intros [= <- <- <-].
  pose proof (b_of_point _ _ E1) as Eb.
  assert (E : y2 * y2 = x2 * x2 * x2 - (x2 + x2 + x2) + (y1 * y1 - x1 * x1 * x1 + (x1 + x1 + x1)))
    by (rewrite <- Eb; exact E2).
  rewrite Eb; clear E1 E2 Eb; unfold num_y, num_x.
  split; [ring [E]|split; [ring [E]|ring [E]]].
Qed.
Notation "3" := (1 + 1 + 1).

(** Opposite points: the numerator of the doubled point appears in Y3. *)
Lemma opposite_identities x1 y1 X3 Y3 Z3 :
  y1 * y1 = cubic x1 ->
  Point_Add (MkPoint x1 y1 1) (MkPoint x1 (- y1) 1) = MkPoint X3 Y3 Z3 ->
  X3 = 0 /\ Z3 = 0 /\ Y3 = num_y (3 * x1 * x1 - 3) (y1 + y1) x1 y1 x1.
Proof.
  intros E1; rewrite Add_expand; cbv zeta; intros [= <- <- <-].
  rewrite (b_of_point _ _ E1); unfold num_y, num_x.
  split; [ring|split; ring].
Qed.

(** Doubling, by the addition formula and by the doubling formula. *)
Lemma tangent_identities x1 y1 X3 Y3 Z3 :
  y1 * y1 = cubic x1 ->
  Point_Add (MkPoint x1 y1 1) (MkPoint x1 y1 1) = MkPoint X3 Y3 Z3 \/
  Point_Double (MkPoint x1 y1 1) = MkPoint X3 Y3 Z3 ->
  let n := 3 * x1 * x1 - 3 in let d := y1 + y1 in
  X3 * (d * d) = Z3 * num_x n d x1 x1 /\
  Y3 * (d * d * d) = Z3 * num_y n d x1 y1 x1 /\ Z3 = d * d * d.
Proof.
  intros E1 [H|H]; revert H; [rewrite Add_expand; cbv zeta|unfold Point_Double; cbn];
    intros [= <- <- <-]; rewrite (b_of_point _ _ E1); unfold num_y, num_x;
    (split; [ring|split; ring]).
Qed.

(** ** From numerators to the line through the points *)

Lemma num_x_line n d x1 y1 x2 :
  d <> 0 -> num_x n d x1 x2 = d * d * fst (line_point (n / d) x1 y1 x2).
Proof. intros Hd; unfold num_x, line_point; cbn [fst]; field; exact Hd. Qed.

Lemma num_y_line n d x1 y1 x2 :
  d <> 0 -> num_y n d x1 y1 x2 = d * d * d * snd (line_point (n / d) x1 y1 x2).
Proof. intros Hd; unfold num_y, num_x, line_point; cbn [snd]; field; exact Hd. Qed.

(** A line that meets the curve at [x1] and [x1 + d] (twice at [x1] for d = 0)
    meets it again at its third point. *)
Lemma line_on_curve m x1 y1 d :
  y1 * y1 = cubic x1 ->
  d * d = y1 * m + y1 * m + m * m * d - 3 * x1 * x1 - 3 * x1 * d + 3 ->
  let '(x3, y3) := line_point m x1 y1 (x1 + d) in y3 * y3 = cubic x3.
Proof.
  intros E1 E; unfold line_point, cubic; rewrite (b_of_point _ _ E1); ring [E].
Qed.

Lemma chord_on_curve x1 y1 x2 y2 :
  x1 <> x2 -> y1 * y1 = cubic x1 -> y2 * y2 = cubic x2 ->
  let '(x3, y3) := line_point ((y2 - y1) / (x2 - x1)) x1 y1 x2 in y3 * y3 = cubic x3.
Proof.
  intros Hne E1 E2.
  assert (Hd : x2 - x1 <> 0) by (intros E; apply Hne; transitivity (x2 - (x2 - x1)); [ring|rewrite E; ring]).
  set (d := x2 - x1) in *; set (m := (y2 - y1) / d).
  assert (Hx2 : x2 = x1 + d) by (unfold d; ring).
  assert (Hy2 : y2 = y1 + m * d) by (unfold m; field; exact Hd).
  rewrite Hx2; apply line_on_curve; [exact E1|].
  apply (mul_cancel d); [exact Hd|].
  clearbody m d; subst x2 y2; revert E2; unfold cubic; rewrite (b_of_point _ _ E1); intros E2.
  transitivity ((x1 + d) * (x1 + d) * (x1 + d) - ((x1 + d) + (x1 + d) + (x1 + d))
    + (y1 * y1 - x1 * x1 * x1 + (x1 + x1 + x1)) - y1 * y1
    + 3 * d - 3 * x1 * x1 * d - 3 * x1 * d * d); [ring|].
  rewrite <- E2; ring.
Qed.

Lemma tangent_on_curve x1 y1 :
  y1 + y1 <> 0 -> y1 * y1 = cubic x1 ->
  let '(x3, y3) := line_point ((3 * x1 * x1 - 3) / (y1 + y1)) x1 y1 x1 in y3 * y3 = cubic x3.
Proof.
  intros Hd E1; set (m := (3 * x1 * x1 - 3) / (y1 + y1)).
  assert (Em : y1 * m + y1 * m = 3 * x1 * x1 - 3) by (unfold m; field; exact Hd).
  pose proof (line_on_curve m x1 y1 0 E1) as H.
  replace (x1 + 0) with x1 in H by ring; apply H; rewrite Em; ring.
Qed.

Lemma double_y_nz y : y <> 0 -> y + y <> 0.
Proof.
  intros Hy E; apply (mul_nz (1 + 1) y two_nz Hy).
  transitivity (y + y); [ring|exact E].
Qed.

(** ** The formulas compute the group law *)

Lemma line_scaled X3 Y3 Z3 n d x1 y1 x2 :
  d <> 0 -> X3 * (d * d) = Z3 * num_x n d x1 x2 -> Y3 * (d * d * d) = Z3 * num_y n d x1 y1 x2 ->
  let '(x3, y3) := line_point (n / d) x1 y1 x2 in X3 = x3 * Z3 /\ Y3 = y3 * Z3.
Proof.
  intros Hd HX HY; rewrite (num_x_line n d x1 y1 x2) in HX by exact Hd.
  rewrite num_y_line in HY by exact Hd.
  rewrite (surjective_pairing (line_point (n / d) x1 y1 x2)).
  set (x3 := fst (line_point (n / d) x1 y1 x2)) in *.
  set (y3 := snd (line_point (n / d) x1 y1 x2)) in *.
  split; [apply (mul_cancel (d * d))|apply (mul_cancel (d * d * d))];
    auto using mul_nz.
  - transitivity (X3 * (d * d)); [ring|]; etransitivity; [exact HX|]; clearbody x3 y3; ring.
  - transitivity (Y3 * (d * d * d)); [ring|]; etransitivity; [exact HY|]; clearbody x3 y3; ring.
Qed.

(** Scaling a representative scales the result. *)
Lemma Add_scale x1 y1 k1 x2 y2 k2 :
  let k := k1 * k1 * (k2 * k2) in
  Point_Add (MkPoint (x1 * k1) (y1 * k1) k1) (MkPoint (x2 * k2) (y2 * k2) k2) =
  let R := Point_Add (MkPoint x1 y1 1) (MkPoint x2 y2 1) in
  MkPoint (px R * k) (py R * k) (pz R * k).
Proof. cbv zeta; rewrite !Add_expand; cbv zeta; cbn [px py pz]; f_equal; ring. Qed.

Lemma Double_scale x1 y1 k1 :
  let k := k1 * k1 * (k1 * k1) in
  Point_Double (MkPoint (x1 * k1) (y1 * k1) k1) =
  let R := Point_Double (MkPoint x1 y1 1) in
  MkPoint (px R * k) (py R * k) (pz R * k).
Proof. cbv zeta; unfold Point_Double; cbn; f_equal; ring. Qed.

Lemma proj_scale P p k :
  k <> 0 -> proj P p -> proj (MkPoint (px P * k) (py P * k) (pz P * k)) p.
Proof.
  intros Hk; destruct p as [[x y]|]; cbn [proj px py pz].
  - intros (Hz & -> & -> & E); split; [apply mul_nz; assumption|].
    split; [ring|split; [ring|exact E]].
  - intros (-> & -> & Hy); split; [ring|split; [ring|apply mul_nz; assumption]].
Qed.

Lemma mul_nz_r k x y : k = x * y -> k <> 0 -> y <> 0.
Proof. intros E H ->; apply H; rewrite E; ring. Qed.

(** Sums at z = 1, distinct x-coordinates. *)
Lemma proj_chord x1 y1 x2 y2 :
  x1 <> x2 -> y1 * y1 = cubic x1 -> y2 * y2 = cubic x2 ->
  proj (Point_Add (MkPoint x1 y1 1) (MkPoint x2 y2 1))
       (Some (line_point ((y2 - y1) / (x2 - x1)) x1 y1 x2)).
Proof.
  intros Hne E1 E2.
  assert (Hd : x2 - x1 <> 0) by (intros E; apply Hne; transitivity (x2 - (x2 - x1)); [ring|rewrite E; ring]).
  destruct (Point_Add _ _) as [X3 Y3 Z3] eqn:ER.
  destruct (chord_identities _ _ _ _ _ _ _ E1 E2 ER) as (HX & HY & HZ).
  pose proof (line_scaled _ _ _ _ _ _ _ _ Hd HX HY) as HL.
  pose proof (chord_on_curve _ _ _ _ Hne E1 E2) as HC.
  destruct (line_point ((y2 - y1) / (x2 - x1)) x1 y1 x2) as [x3 y3].
  destruct HL as [HX' HY']; cbn [proj px py pz].
  split; [|split; [exact HX'|split; [exact HY'|exact HC]]].
  rewrite HZ, num_y_line by exact Hd.
  assert (E2' : (- y2) * (- y2) = cubic x2) by (rewrite <- E2; ring).
  pose proof (chord_on_curve x1 y1 x2 (- y2) Hne E1 E2') as HC'.
  destruct (line_point ((- y2 - y1) / (x2 - x1)) x1 y1 x2) as [xd yd]; cbn [snd].
  apply y_nz in HC'; auto using mul_nz.
Qed.

(** Opposite points. *)
Lemma proj_opposite x1 y1 :
  y1 * y1 = cubic x1 -> proj (Point_Add (MkPoint x1 y1 1) (MkPoint x1 (- y1) 1)) None.
Proof.
  intros E1; destruct (Point_Add _ _) as [X3 Y3 Z3] eqn:ER.
  destruct (opposite_identities _ _ _ _ _ E1 ER) as (HX & HZ & HY); cbn [proj px py pz].
  split; [exact HX|split; [exact HZ|]].
  assert (Hd : y1 + y1 <> 0) by eauto using double_y_nz, y_nz.
  pose proof (tangent_on_curve _ _ Hd E1) as HC.
  rewrite HY, num_y_line by exact Hd.
  destruct (line_point _ x1 y1 x1) as [xd yd]; cbn [snd].
  apply y_nz in HC; auto using mul_nz.
Qed.

Lemma proj_tangent x1 y1 X3 Y3 Z3 :
  y1 * y1 = cubic x1 ->
  Point_Add (MkPoint x1 y1 1) (MkPoint x1 y1 1) = MkPoint X3 Y3 Z3 \/
  Point_Double (MkPoint x1 y1 1) = MkPoint X3 Y3 Z3 ->
  proj (MkPoint X3 Y3 Z3) (Some (line_point ((3 * x1 * x1 - 3) / (y1 + y1)) x1 y1 x1)).
Proof.
  intros E1 ER; destruct (tangent_identities _ _ _ _ _ E1 ER) as (HX & HY & HZ).
  assert (Hd : y1 + y1 <> 0) by eauto using double_y_nz, y_nz.
  pose proof (line_scaled _ _ _ _ _ _ _ _ Hd HX HY) as HL.
  pose proof (tangent_on_curve _ _ Hd E1) as HC.
  destruct (line_point _ x1 y1 x1) as [x3 y3]; destruct HL as [HX' HY']; cbn [proj px py pz].
  split; [rewrite HZ; auto using mul_nz|split; [exact HX'|split; [exact HY'|exact HC]]].
Qed.

Lemma proj_aff_add x1 y1 x2 y2 :
  y1 * y1 = cubic x1 -> y2 * y2 = cubic x2 ->
  proj (Point_Add (MkPoint x1 y1 1) (MkPoint x2 y2 1)) (aff_add (Some (x1, y1)) (Some (x2, y2))).
Proof.
  intros E1 E2; cbn [aff_add].
  destruct (Fdec x1 x2) as [<-|Hne]; [|apply proj_chord; assumption].
  destruct (Fdec (y1 + y2) 0) as [Hs|Hs].
  - replace y2 with (- y1) by (transitivity ((y1 + y2) - y1); [rewrite Hs; ring|ring]).
    apply proj_opposite, E1.
  - assert (y2 = y1) as ->.
    { apply (mul_cancel (y1 + y2)); [exact Hs|].
      transitivity (y2 * y2 + y1 * y2); [ring|rewrite E2, <- E1; ring]. }
    destruct (Point_Add _ _) as [X3 Y3 Z3] eqn:ER; apply proj_tangent; auto.
Qed.

Lemma proj_of_affine P x y :
  proj P (Some (x, y)) -> P = MkPoint (x * pz P) (y * pz P) (pz P) /\ pz P <> 0 /\ y * y = cubic x.
Proof. destruct P; cbn; intros (Hz & -> & -> & E); auto. Qed.

(** Completeness: no input is exceptional. *)
Theorem proj_add P Q p q : proj P p -> proj Q q -> proj (Point_Add P Q) (aff_add p q).
Proof.
  destruct p as [[x1 y1]|], q as [[x2 y2]|].
  - intros HP HQ; apply proj_of_affine in HP, HQ.
    destruct HP as (-> & Hz1 & E1), HQ as (-> & Hz2 & E2); cbn [pz].
    rewrite Add_scale; apply proj_scale; [auto using mul_nz|apply proj_aff_add; assumption].
  - intros HP (Qx & Qz & Qy); apply proj_of_affine in HP; destruct HP as (-> & Hz1 & E1).
    destruct Q as [x2 y2 z2]; cbn [px py pz] in *; subst; rewrite Add_expand; cbn.
    pose proof (y_nz _ _ E1) as Hy.
    split; [|split; [ring|split; [ring|exact E1]]].
    intros E; apply (mul_nz (y1 * pz P * y2) (y2 * pz P)); [auto using mul_nz..|].
    rewrite <- E; ring.
  - intros (Qx & Qz & Qy) HP; apply proj_of_affine in HP; destruct HP as (-> & Hz1 & E1).
    destruct P as [x1 y1 z1]; cbn [px py pz] in *; subst; rewrite Add_expand; cbn.
    pose proof (y_nz _ _ E1) as Hy.
    split; [|split; [ring|split; [ring|exact E1]]].
    intros E; apply (mul_nz (y2 * pz Q * y1) (y1 * pz Q)); [auto using mul_nz..|].
    rewrite <- E; ring.
  - intros (P1 & P2 & P3) (Q1 & Q2 & Q3); destruct P as [x1 y1 z1], Q as [x2 y2 z2].
    cbn [px py pz] in *; subst; rewrite Add_expand; cbn; split; [ring|split; [ring|]].
    intros E; apply (mul_nz (y1 * y2) (y1 * y2)); [auto using mul_nz..|rewrite <- E; ring].
Qed.

Theorem proj_double P p : proj P p -> proj (Point_Double P) (aff_add p p).
Proof.
  destruct p as [[x1 y1]|].
  - intros HP; apply proj_of_affine in HP; destruct HP as (-> & Hz1 & E1); cbn [pz].
    rewrite Double_scale; apply proj_scale; [auto using mul_nz|].
    destruct (Point_Double (MkPoint x1 y1 1)) as [X3 Y3 Z3] eqn:ER; cbn [px py pz].
    cbn [aff_add]; destruct (Fdec x1 x1) as [_|H]; [|contradiction H; reflexivity].
    destruct (Fdec (y1 + y1) 0) as [H|_].
    + destruct (double_y_nz _ (y_nz _ _ E1) H).
    + apply proj_tangent; auto.
  - intros (P1 & P2 & P3); destruct P as [x y z]; cbn [px py pz] in *; subst; cbn.
    split; [ring|split; [ring|]].
    intros E; apply (mul_nz (y * y) (y * y)); [auto using mul_nz..|rewrite <- E; ring].
Qed.

Lemma proj_negate P p : proj P p -> proj (Negate P) (aff_neg p).
Proof.
  destruct p as [[x y]|]; cbn.
  - intros (Hz & -> & -> & E); split; [exact Hz|split; [reflexivity|split; [ring|]]].
    rewrite <- E; ring.
  - intros (H1 & H2 & H3); split; [exact H1|split; [exact H2|]].
    intros E; apply H3; transitivity (0 - (0 - py P)); [ring|rewrite E; ring].
Qed.

Lemma proj_infinity : 1 <> 0 -> proj SetInfinity None.
Proof. intros H; cbn; auto. Qed.

Lemma aff_add_on_curve p q : on_curve p -> on_curve q -> on_curve (aff_add p q).
Proof.
  intros Hp Hq; destruct p as [[x1 y1]|], q as [[x2 y2]|]; try assumption.
  cbn [on_curve] in Hp, Hq.
  pose proof (proj_aff_add _ _ _ _ Hp Hq) as H.
  destruct (aff_add _ _) as [[x3 y3]|]; [apply H|exact I].
Qed.
End Curve.
