(* ===== verification/P256Group.v ===== *)
(** * The point code computes the P-256 group law

    The limb-level functions of [P256Point] against affine chord-and-tangent
    arithmetic over [Fp]: representation of points, refinement of each operation,
    scalar multiplication, decoding and the affine x-coordinate. *)

From Stdlib Require Import ZArith Lia List Bool Zmod.
From S2P Require Import Prelude MathBits FiatP256 P256Prime P256NoRoot P256Field P256Ops P256Invert P256Point P256Curve.
Import ListNotations.
#[local] Open Scope Z_scope.

(** ** The curve over [Fp] *)

Definition p256Gx : Z := 0x6b17d1f2e12c4247f8bce6e563a440f277037d812deb33a0f4a13945d898c296.
Definition p256Gy : Z := 0x4fe342e2fe1a7f9b8ee7eb4a7c0f9e162bce33576b315ececbb6406837bf51f5.

#[export] Instance Fp_curve : CurveOps Fp := {
  curve_field_ops := Fp_ops;
  cb := Zmod.of_Z p256 p256b; cgx := Zmod.of_Z p256 p256Gx; cgy := Zmod.of_Z p256 p256Gy;
}.

(** The same operations as the abstract curve of [P256Curve]. *)
Lemma Fp_curve_ring :
  ring_curve Zmod.zero Zmod.one Zmod.add Zmod.mul Zmod.sub
    (Zmod.of_Z p256 p256b) (Zmod.of_Z p256 p256Gx) (Zmod.of_Z p256 p256Gy) = Fp_curve.
Proof. reflexivity. Qed.

Definition Fp_dec (x y : Fp) : {x = y} + {x <> y}.
Proof.
  destruct (Z.eq_dec (Zmod.to_Z x) (Zmod.to_Z y)) as [E|E];
    [left; apply Zmod.to_Z_inj, E|right; intros ->; apply E; reflexivity].
Defined.

(** Affine points of P-256, their sum and negation. *)
Definition EC : Type := @affine Fp.
Definition ec_add : EC -> EC -> EC :=
  aff_add Zmod.zero Zmod.one Zmod.add Zmod.mul Zmod.sub Zmod.mdiv Fp_dec.
Definition ec_neg : EC -> EC := aff_neg Zmod.opp.
Definition ec_on_curve : EC -> Prop := on_curve Zmod.add Zmod.mul Zmod.sub (Zmod.of_Z p256 p256b).

(** Projective representation in the field, and in limbs. *)
Definition fproj : Point Fp -> EC -> Prop :=
  proj Zmod.zero Zmod.add Zmod.mul Zmod.sub (Zmod.of_Z p256 p256b).

Definition map_fp (P : Point Element) : Point Fp := MkPoint (fp (px P)) (fp (py P)) (fp (pz P)).

Definition point_ok (P : Point Element) : Prop :=
  canonical (px P) /\ canonical (py P) /\ canonical (pz P).

(** Limb point [P] is a representative of the affine point [p]. *)
Definition point_rep (P : Point Element) (p : EC) : Prop := point_ok P /\ fproj (map_fp P) p.

Lemma two_nz_Fp : Zmod.add (Zmod.one : Fp) Zmod.one <> Zmod.zero.
Proof. intros E; apply (f_equal Zmod.to_Z) in E; vm_compute in E; discriminate E. Qed.

Lemma one_nz_Fp : (Zmod.one : Fp) <> Zmod.zero.
Proof. intros E; apply (f_equal Zmod.to_Z) in E; vm_compute in E; discriminate E. Qed.

(** ** The formulas commute with the abstraction *)

Definition rel_point (P : Point Element) (P' : Point Fp) : Prop :=
  represents (px P) (px P') /\ represents (py P) (py P') /\ represents (pz P) (pz P').

Lemma rel_point_map P P' : rel_point P P' -> point_ok P /\ map_fp P = P'.
Proof.
  destruct P' as [x y z]; intros (Hx & Hy & Hz); cbn in *; split.
  - split; [apply Hx|split; [apply Hy|apply Hz]].
  - unfold map_fp; rewrite (represents_eq _ _ Hx), (represents_eq _ _ Hy), (represents_eq _ _ Hz).
    reflexivity.
Qed.

Lemma map_rel_point P : point_ok P -> rel_point P (map_fp P).
Proof. intros (? & ? & ?); repeat split; apply represents_fp; assumption. Qed.

(** A Montgomery constant of the source is the field constant it should be. *)
Lemma represents_const e z :
  limbs_ok e -> (eval e <? p256) = true -> (fval e =? z mod p256) = true -> represents e (Zmod.of_Z p256 z).
Proof.
  intros Hl H1 H2; apply Z.ltb_lt in H1; apply Z.eqb_eq in H2.
  split; [split; assumption|rewrite Zmod.to_Z_of_Z; exact H2].
Qed.

Ltac mont_const :=
  apply represents_const; [repeat split; easy|vm_compute; reflexivity|vm_compute; reflexivity].

Lemma rel_cb : represents cb cb.
Proof. mont_const. Qed.
Lemma rel_cgx : represents cgx cgx.
Proof. mont_const. Qed.
Lemma rel_cgy : represents cgy cgy.
Proof. mont_const. Qed.
#[export] Hint Resolve rel_cb rel_cgx rel_cgy : janos.

(** Straight-line formulas whose result is a point. *)
Ltac rel_formula :=
  repeat (rel_bind represents rel_auto); (split; [|split]); rel_auto.

Lemma rel_Point_Add P P' Q Q' :
  rel_point P P' -> rel_point Q Q' -> rel_point (Point_Add P Q) (Point_Add P' Q').
Proof.
  intros (P1 & P2 & P3) (Q1 & Q2 & Q3); cbv beta delta [Point_Add]; rel_formula.
Qed.

Lemma rel_Point_Double P P' : rel_point P P' -> rel_point (Point_Double P) (Point_Double P').
Proof. intros (P1 & P2 & P3); cbv beta delta [Point_Double]; rel_formula. Qed.

Lemma rel_Negate P P' : rel_point P P' -> rel_point (Negate P) (Negate P').
Proof. intros (P1 & P2 & P3); cbv beta delta [Negate]; rel_formula. Qed.

(** ** The operations on representatives *)

Lemma point_rep_Add P Q p q :
  point_rep P p -> point_rep Q q -> point_rep (Point_Add P Q) (ec_add p q).
Proof.
  intros [HP Hp] [HQ Hq].
  destruct (rel_point_map _ _ (rel_Point_Add _ _ _ _ (map_rel_point P HP) (map_rel_point Q HQ)))
    as [Hok E].
  split; [exact Hok|rewrite E].
  pose proof (proj_add _ _ _ _ _ _ _ _ _ (Zmod.of_Z p256 p256Gx) (Zmod.of_Z p256 p256Gy)
    (Zmod.field_theory p256 prime_p256) Fp_dec two_nz_Fp fp_no_root _ _ _ _ Hp Hq) as H.
  rewrite Fp_curve_ring in H; exact H.
Qed.

Lemma point_rep_Double P p : point_rep P p -> point_rep (Point_Double P) (ec_add p p).
Proof.
  intros [HP Hp].
  destruct (rel_point_map _ _ (rel_Point_Double _ _ (map_rel_point P HP))) as [Hok E].
  split; [exact Hok|rewrite E].
  pose proof (proj_double _ _ _ _ _ _ _ _ _ (Zmod.of_Z p256 p256Gx) (Zmod.of_Z p256 p256Gy)
    (Zmod.field_theory p256 prime_p256) Fp_dec two_nz_Fp fp_no_root _ _ Hp) as H.
  rewrite Fp_curve_ring in H; exact H.
Qed.

Lemma point_rep_Negate P p : point_rep P p -> point_rep (Negate P) (ec_neg p).
Proof.
  intros [HP Hp].
  destruct (rel_point_map _ _ (rel_Negate _ _ (map_rel_point P HP))) as [Hok E].
  split; [exact Hok|rewrite E].
  pose proof (proj_negate _ _ _ _ _ _ _ _ _ (Zmod.of_Z p256 p256Gx) (Zmod.of_Z p256 p256Gy)
    (Zmod.field_theory p256 prime_p256) _ _ Hp) as H.
  rewrite Fp_curve_ring in H; exact H.
Qed.

Lemma point_rep_Infinity : point_rep SetInfinity None.
Proof.
  assert (H : rel_point SetInfinity SetInfinity).
  { split; [apply rel_zero|split; [apply rel_one|apply rel_zero]]. }
  destruct (rel_point_map _ _ H) as [Hok E]; split; [exact Hok|rewrite E].
  pose proof (proj_infinity Zmod.zero Zmod.one Zmod.add Zmod.mul Zmod.sub (Zmod.of_Z p256 p256b)
    (Zmod.of_Z p256 p256Gx) (Zmod.of_Z p256 p256Gy) one_nz_Fp) as HI.
  rewrite Fp_curve_ring in HI; exact HI.
Qed.

(** The base point. *)
Definition ec_G : EC := Some (Zmod.of_Z p256 p256Gx, Zmod.of_Z p256 p256Gy).

(** Points in affine form. *)
Lemma point_rep_affine ex ey x y :
  represents ex x -> represents ey y -> ec_on_curve (Some (x, y)) ->
  point_rep (MkPoint ex ey Element_One) (Some (x, y)).
Proof.
  intros Hx Hy E.
  assert (H : rel_point (MkPoint ex ey Element_One) (MkPoint x y Zmod.one)).
  { split; [exact Hx|split; [exact Hy|exact (rel_one (R := represents))]]. }
  destruct (rel_point_map _ _ H) as [Hok Em]; split; [exact Hok|rewrite Em].
  split; [exact one_nz_Fp|]; cbn [px py pz]; rewrite !Zmod.mul_1_r; auto.
Qed.

Lemma ec_G_on_curve : ec_on_curve ec_G.
Proof. apply Zmod.to_Z_inj; vm_compute; reflexivity. Qed.

Lemma point_rep_Generator : point_rep SetGenerator ec_G.
Proof. apply point_rep_affine; [apply rel_cgx|apply rel_cgy|apply ec_G_on_curve]. Qed.
#[export] Hint Resolve point_rep_Add point_rep_Double point_rep_Infinity point_rep_Generator : janos.

(** ** Scalar multiplication *)

(** Left-to-right double-and-add on the scalar's bits. *)
Fixpoint ec_mul_pos (n : positive) (p : EC) : EC :=
  match n with
  | xH => p
  | xO n => let q := ec_mul_pos n p in ec_add q q
  | xI n => let q := ec_mul_pos n p in ec_add (ec_add q q) p
  end.

Definition ec_mul (n : Z) (p : EC) : EC :=
  match n with Z.pos n => ec_mul_pos n p | _ => None end.

Lemma ec_mul_bit n (b : bool) p :
  0 <= n ->
  ec_mul (2 * n + Z.b2z b) p =
  let q := ec_mul n p in let d := ec_add q q in if b then ec_add d p else d.
Proof. destruct n, b; intros Hn; try lia; reflexivity. Qed.

(** The bits of a byte, most significant first. *)
Lemma byte_bits_value n x :
  is_byte x ->
  fold_left (fun n i => 2 * n + Z.b2z (Z.testbit x (Z.of_nat i))) [7; 6; 5; 4; 3; 2; 1; 0]%nat n
  = W8 * n + x.
Proof.
  intros Hx.
  assert (E : fold_left (fun n i => 2 * n + Z.b2z (Z.testbit x (Z.of_nat i)))
                [7; 6; 5; 4; 3; 2; 1; 0]%nat 0 = x).
  { apply Z.eqb_eq, (byte_exhaust (fun x => fold_left (fun n i =>
      2 * n + Z.b2z (Z.testbit x (Z.of_nat i))) [7; 6; 5; 4; 3; 2; 1; 0]%nat 0 =? x));
    [vm_compute; reflexivity|exact Hx]. }
  cbn [fold_left] in *; lia.
Qed.

Lemma ScalarMult_bits_rep B p bits byteVal R n :
  point_rep B p -> point_rep R (ec_mul n p) -> 0 <= n ->
  let m := fold_left (fun n i => 2 * n + Z.b2z (Z.testbit byteVal (Z.of_nat i))) bits n in
  point_rep (fold_left (ScalarMult_bit B byteVal) bits R) (ec_mul m p) /\ 0 <= m.
Proof.
  intros HB; revert R n; induction bits as [|i bits IH]; intros R n HR Hn; cbn [fold_left]; [auto|].
  apply IH; [|destruct (Z.testbit byteVal (Z.of_nat i)); cbn [Z.b2z]; lia].
  rewrite ec_mul_bit by exact Hn; cbv zeta.
  unfold ScalarMult_bit; rewrite bit_test.
  destruct (Z.testbit byteVal (Z.of_nat i)); auto with janos.
Qed.

Lemma ScalarMult_rep B p k :
  point_rep B p -> bytes k -> length k = 32%nat ->
  exists R, ScalarMult B k = Some R /\ point_rep R (ec_mul (be_val k) p).
Proof.
  intros HB Hk Hl; unfold ScalarMult; rewrite Hl; cbn [Nat.eqb negb].
  eexists; split; [reflexivity|].
  assert (Ek : firstn 32 k = k) by (rewrite <- Hl; apply firstn_all).
  match goal with |- point_rep (for_range 0 32 ?body ?s) _ =>
    pose proof (for_range_ind (fun i R => point_rep R (ec_mul (be_val (firstn i k)) p)) 0 32 body s)
      as H end.
  cbn [Nat.add] in H; rewrite Ek in H; apply H; clear H.
  - exact point_rep_Infinity.
  - intros i R Hi HR.
    destruct (ScalarMult_bits_rep B p [7; 6; 5; 4; 3; 2; 1; 0]%nat (nth i k 0) R _ HB HR) as [H _].
    + apply be_val_range, bytes_firstn, Hk.
    + rewrite be_val_firstn_S, <- byte_bits_value by (lia || apply bytes_nth, Hk). exact H.
Qed.

(** ** Infinity, coordinates, decoding *)

Lemma IsInfinity_rep P p : point_rep P p -> IsInfinity P = match p with None => true | _ => false end.
Proof.
  intros [(_ & _ & Hz) Hp]; unfold IsInfinity; rewrite Element_IsZero_ok by exact Hz.
  destruct (represents_fp _ Hz) as [_ Ez]; rewrite Ez.
  destruct p as [[x y]|].
  - destruct Hp as [Hnz _]; cbn [pz map_fp] in Hnz.
    destruct (Z.eqb_spec (Zmod.to_Z (fp (pz P))) 0) as [E|E]; [|reflexivity].
    contradiction Hnz; apply Zmod.to_Z_inj; rewrite E; reflexivity.
  - destruct Hp as (_ & Hz0 & _); cbn [pz map_fp] in Hz0; rewrite Hz0; reflexivity.
Qed.

Lemma AffineX_rep P p :
  point_rep P p ->
  AffineX P = match p with None => None | Some (x, _) => Some (be_bytes 32 (Zmod.to_Z x)) end.
Proof.
  intros HP; unfold AffineX; rewrite (IsInfinity_rep _ _ HP).
  destruct p as [[x y]|]; [|reflexivity].
  destruct HP as [(Hx & _ & Hz) (Hnz & Ex & _)]; cbn [px pz map_fp] in *; cbv zeta.
  assert (H : represents (Element_Mul (px P) (Element_Invert (pz P))) x).
  { replace x with (Zmod.mul (fp (px P)) (Zmod.inv (fp (pz P)))).
    - apply represents_Mul; [apply represents_fp, Hx|].
      apply Element_Invert_inv, represents_fp, Hz.
    - rewrite Ex, <- Zmod.mul_assoc, Zmod.mul_inv_same_r_prime, Zmod.mul_1_r;
        [reflexivity|apply prime_p256|exact Hnz]. }
  destruct H as [Hc E]; rewrite Element_Bytes_eq, E by exact Hc; reflexivity.
Qed.

(** The curve equation on integers. *)
Definition on_curve_Z (x y : Z) : Prop := (y * y) mod p256 = (x * x * x - 3 * x + p256b) mod p256.

Lemma on_curve_Z_Fp x y :
  on_curve_Z x y <-> ec_on_curve (Some (Zmod.of_Z p256 x, Zmod.of_Z p256 y)).
Proof.
  unfold on_curve_Z, ec_on_curve, on_curve, cubic.
  rewrite <- !Zmod.of_Z_add, <- !Zmod.of_Z_mul, <- Zmod.of_Z_sub, <- Zmod.of_Z_add.
  replace (x * x * x - 3 * x + p256b) with (x * x * x - (x + x + x) + p256b) by ring.
  symmetry; apply Zmod.of_Z_inj.
Qed.

Lemma isOnCurve_ok ex ey x y :
  represents ex x -> represents ey y ->
  isOnCurve (MkPoint ex ey Element_One) = true <-> ec_on_curve (Some (x, y)).
Proof.
  intros Hx Hy; unfold isOnCurve; cbn [py].
  assert (Hr : represents (curve_rhs (MkPoint ex ey Element_One))
                          (curve_rhs (MkPoint x y Zmod.one))).
  { cbv beta delta [curve_rhs]; cbn [px py pz]; rel_steps represents; apply rel_cb. }
  assert (Hl : represents (fsq ey) (fsq y)) by (apply (rel_sq (R := represents)); exact Hy).
  destruct Hr as [Cr Er], Hl as [Cl El].
  rewrite (Element_Equal_ok _ _ Cr Cl), Er, El.
  change (ec_on_curve (Some (x, y))) with (fsq y = curve_rhs (MkPoint x y Zmod.one)).
  destruct (Z.eqb_spec (Zmod.to_Z (curve_rhs (MkPoint x y Zmod.one))) (Zmod.to_Z (fsq y))) as [E|E].
  - split; [intros _; apply Zmod.to_Z_inj; symmetry; exact E|reflexivity].
  - split; [discriminate|intros H; contradiction E; rewrite H; reflexivity].
Qed.

(** The affine point a 64-byte public key encodes. *)
Definition pubkey_point (k : list Z) : EC :=
  Some (Zmod.of_Z p256 (be_val (firstn 32 k)), Zmod.of_Z p256 (be_val (skipn 32 k))).

(** The keys [SetUncompressedBytes] lets through. *)
Definition pubkey_accepted (k : list Z) : Prop :=
  length k = 64%nat /\ be_val (firstn 32 k) <= setbytes_max /\ be_val (skipn 32 k) <= setbytes_max /\
  on_curve_Z (be_val (firstn 32 k)) (be_val (skipn 32 k)).

Lemma SetBytes_represents v e :
  bytes v -> Element_SetBytes v = Some e -> represents e (Zmod.of_Z p256 (be_val v)).
Proof.
  intros Hv E; pose proof (Element_SetBytes_eq v Hv) as H; rewrite E in H.
  destruct H as (_ & _ & Hc & Hf); split; [exact Hc|].
  rewrite Zmod.to_Z_of_Z, <- Hf, Z.mod_small; [reflexivity|apply fval_range].
Qed.

Lemma SetUncompressedBytes_rep k :
  bytes k ->
  match SetUncompressedBytes k with
  | Some P => pubkey_accepted k /\ point_rep P (pubkey_point k)
  | None => ~ pubkey_accepted k
  end.
Proof.
  intros Hk; unfold SetUncompressedBytes, pubkey_accepted.
  destruct (Nat.eqb_spec (length k) 64) as [Hl|Hl]; cbn [negb]; [|tauto].
  pose proof (bytes_firstn 32 k Hk) as Hx; pose proof (bytes_skipn 32 k Hk) as Hy.
  pose proof (Element_SetBytes_eq _ Hx) as Ex; pose proof (Element_SetBytes_eq _ Hy) as Ey.
  assert (Lx : length (firstn 32 k) = 32%nat) by (rewrite length_firstn, Hl; reflexivity).
  assert (Ly : length (skipn 32 k) = 32%nat) by (rewrite length_skipn, Hl; reflexivity).
  destruct (Element_SetBytes (firstn 32 k)) as [ex|] eqn:E1; [|lia].
  destruct (Element_SetBytes (skipn 32 k)) as [ey|] eqn:E2; [|lia].
  pose proof (SetBytes_represents _ _ Hx E1) as Rx; pose proof (SetBytes_represents _ _ Hy E2) as Ry.
  pose proof (isOnCurve_ok _ _ _ _ Rx Ry) as Hc; rewrite <- on_curve_Z_Fp in Hc.
  destruct (isOnCurve _); cbn [negb].
  - split; [tauto|]. apply point_rep_affine; [exact Rx|exact Ry|].
    apply on_curve_Z_Fp; tauto.
  - intros (_ & _ & _ & H); apply Hc in H; discriminate H.
Qed.

(** ** Properties *)

(** C16: completeness of the point formulas.  On representatives of any two points of
    the curve, [Add] returns a representative of their chord-and-tangent sum and
    [Double] of the double; no pair is exceptional (infinity, equal and opposite points
    included).  [Negate], [SetInfinity] and [SetGenerator] represent the negation,
    the identity and the base point. *)
Theorem point_formulas_complete P Q p q :
  point_rep P p -> point_rep Q q ->
  point_rep (Point_Add P Q) (ec_add p q) /\
  point_rep (Point_Double P) (ec_add p p) /\
  point_rep (Negate P) (ec_neg p) /\
  point_rep SetInfinity None /\
  point_rep SetGenerator ec_G.
Proof.
  intros HP HQ.
  split; [apply point_rep_Add; assumption|split; [apply point_rep_Double; assumption|]].
  split; [apply point_rep_Negate, HP|split; [apply point_rep_Infinity|apply point_rep_Generator]].
Qed.

Lemma point_formulas_complete_witness :
  point_rep SetGenerator ec_G /\
  point_rep (Point_Add SetGenerator SetGenerator) (ec_add ec_G ec_G).
Proof.
  split; [exact point_rep_Generator|].
  exact (proj1 (point_formulas_complete _ _ _ _ point_rep_Generator point_rep_Generator)).
Defined.

(** C28: [ScalarMult] on a representative of a curve point and a 32-byte big-endian scalar
    succeeds and represents the double-and-add multiple of the point; any other
    scalar length is refused. *)
Theorem ScalarMult_correct B p k :
  point_rep B p -> bytes k ->
  match ScalarMult B k with
  | Some R => length k = 32%nat /\ point_rep R (ec_mul (be_val k) p)
  | None => length k <> 32%nat
  end.
Proof.
  intros HB Hk; destruct (Nat.eq_dec (length k) 32) as [Hl|Hl].
  - destruct (ScalarMult_rep B p k HB Hk Hl) as (R & -> & HR); auto.
  - unfold ScalarMult; destruct (Nat.eqb_spec (length k) 32); [contradiction|exact Hl].
Qed.

Lemma ScalarMult_correct_witness :
  match ScalarMult SetGenerator (repeat 0 31 ++ [3]) with
  | Some R => length (repeat 0 31 ++ [3]) = 32%nat /\
              point_rep R (ec_mul (be_val (repeat 0 31 ++ [3])) ec_G)
  | None => length (repeat 0 31 ++ [3]) <> 32%nat
  end.
Proof.
  apply (ScalarMult_correct SetGenerator ec_G); [exact point_rep_Generator|].
  repeat constructor; unfold is_byte; lia.
Defined.

(** [IsInfinity] and [AffineX] read a representative back: infinity is recognised
    and has no x-coordinate, any other point yields the 32 big-endian bytes of its
    affine x. *)
Theorem AffineX_correct P p :
  point_rep P p ->
  IsInfinity P = (match p with None => true | Some _ => false end) /\
  AffineX P = match p with
              | None => None
              | Some (x, _) => Some (be_bytes 32 (Zmod.to_Z x))
              end.
Proof.
  intros HP; split; [|apply AffineX_rep, HP].
  rewrite (IsInfinity_rep _ _ HP); reflexivity.
Qed.

Lemma AffineX_correct_witness :
  point_rep SetGenerator ec_G /\ AffineX SetGenerator = Some (be_bytes 32 p256Gx).
Proof.
  split; [exact point_rep_Generator|].
  destruct (AffineX_correct _ _ point_rep_Generator) as [_ E]; rewrite E.
  unfold ec_G; rewrite Zmod.to_Z_of_Z; reflexivity.
Defined.

(** decoding of public keys: exactly the 64-byte strings whose coordinates the field
    decoder accepts and which satisfy the curve equation are accepted, and the
    result represents that point. *)
Theorem SetUncompressedBytes_correct k :
  bytes k ->
  (SetUncompressedBytes k <> None <-> pubkey_accepted k) /\
  (forall P, SetUncompressedBytes k = Some P -> point_rep P (pubkey_point k)).
Proof.
  intros Hk; pose proof (SetUncompressedBytes_rep k Hk) as H.
  destruct (SetUncompressedBytes k) as [P|].
  - split; [split; [intros _; apply H|discriminate]|intros P' [= <-]; apply H].
  - split; [split; [congruence|contradiction]|discriminate].
Qed.

Lemma SetUncompressedBytes_correct_witness :
  bytes (be_bytes 32 p256Gx ++ be_bytes 32 p256Gy) /\
  SetUncompressedBytes (be_bytes 32 p256Gx ++ be_bytes 32 p256Gy) <> None.
Proof.
  assert (H : bytes (be_bytes 32 p256Gx ++ be_bytes 32 p256Gy))
    by (apply bytes_app; split; apply bytes_be_bytes).
  split; [exact H|apply (SetUncompressedBytes_correct _ H)].
  unfold pubkey_accepted, on_curve_Z; vm_compute; repeat split; discriminate.
Defined.

(** A point of the curve with x = p - 3. *)
Definition rejected_key : list Z :=
  be_bytes 32 (p256 - 3) ++
  be_bytes 32 0x19719bebf6aea13f25c96dfd7c71f5225d4c8fc09eb5a0ab9f39e9178e55c121.

(** the wrong bound of the field decoder reaches public keys: there is a 64-byte key
    with both coordinates below p on the curve that [SetUncompressedBytes] refuses. *)
Theorem valid_public_key_rejected :
  length rejected_key = 64%nat /\
  be_val (firstn 32 rejected_key) < p256 /\ be_val (skipn 32 rejected_key) < p256 /\
  on_curve_Z (be_val (firstn 32 rejected_key)) (be_val (skipn 32 rejected_key)) /\
  SetUncompressedBytes rejected_key = None.
Proof. unfold on_curve_Z; vm_compute; auto. Qed.
