(* ===== verification/EcdsaP256.v ===== *)
(** * ECDSA verification on P-256

    [src/runtime/janos_ecdsa_p256.go]: the pure-Go verifier the scheduler
    initialisation runs over the certificate slot, against the textbook
    verification equation. *)

From Stdlib Require Import ZArith Lia List Bool Zmod.
From S2P Require Import Prelude MathBits FiatP256 P256Prime P256Field P256Ops P256Invert P256Point P256Scalar P256Curve P256Group.
Import ListNotations.
#[local] Open Scope Z_scope.

Definition nBytes : list Z :=
  [0xff; 0xff; 0xff; 0xff; 0; 0; 0; 0;
   0xff; 0xff; 0xff; 0xff; 0xff; 0xff; 0xff; 0xff;
   0xbc; 0xe6; 0xfa; 0xad; 0xa7; 0x17; 0x9e; 0x84;
   0xf3; 0xb9; 0xca; 0xc2; 0xfc; 0x63; 0x25; 0x51].

(** The short-circuiting byte walk. *)
Fixpoint less_walk (b n : list Z) : bool :=
  match b, n with
  | x :: b, y :: n => if x <? y then true else if x >? y then false else less_walk b n
  | _, _ => false
  end.

Definition ScalarBytesLessThanN (b : list Z) : bool :=
  if negb (length b =? 32)%nat then false else less_walk b nBytes.

(** [janosP256VerifyRS]: public key [X || Y], 32-byte digest, signature [r || s]. *)
Definition VerifyRS (pubkey digest sig : list Z) : bool :=
  match SetBytesBE (firstn 32 sig) with
  | None => false
  | Some r =>
  match SetBytesBE (skipn 32 sig) with
  | None => false
  | Some s =>
  if Scalar_IsZero r || Scalar_IsZero s then false else
  if negb (ScalarBytesLessThanN (firstn 32 sig)) || negb (ScalarBytesLessThanN (skipn 32 sig))
  then false else
  match SetUncompressedBytes pubkey with
  | None => false
  | Some q =>
  match SetBytesBE digest with
  | None => false
  | Some e =>
  let w := Scalar_Invert s in
  let u1 := Scalar_Mul e w in
  let u2 := Scalar_Mul r w in
  let u1Bytes := Scalar_Bytes u1 in
  let u2Bytes := Scalar_Bytes u2 in
  match ScalarBaseMult u1Bytes with
  | None => false
  | Some u1G =>
  match ScalarMult q u2Bytes with
  | None => false
  | Some u2Q =>
  let r0 := Point_Add u1G u2Q in
  if IsInfinity r0 then false else
  match AffineX r0 with
  | None => false
  | Some rxBytes =>
  match SetBytesBE rxBytes with
  | None => false
  | Some v =>
  let vBytes := Scalar_Bytes v in
  let rBytes := Scalar_Bytes r in
  ct_diff vBytes rBytes =? 0
  end end end end end end end end.

(** ** The specification

    r and s in [1, n-1], a public key the decoder accepts, and the x-coordinate of
    (e/s) G + (r/s) Q congruent to r modulo n. *)
Definition ecdsa_spec (pubkey digest sig : list Z) : Prop :=
  let r := be_val (firstn 32 sig) in
  let s := be_val (skipn 32 sig) in
  1 <= r < p256N /\ 1 <= s < p256N /\ pubkey_accepted pubkey /\
  exists w x y,
    (s * w) mod p256N = 1 /\ 0 <= w < p256N /\
    ec_add (ec_mul ((be_val digest * w) mod p256N) ec_G)
           (ec_mul ((r * w) mod p256N) (pubkey_point pubkey)) = Some (x, y) /\
    Zmod.to_Z x mod p256N = r.

Lemma less_walk_ok b n :
  bytes b -> bytes n -> length b = length n -> less_walk b n = (be_val b <? be_val n).
Proof.
  intros Hb; revert n; induction Hb as [|x b Hx Hb IH]; intros n Hn Hl.
  - destruct n; [reflexivity|discriminate].
  - destruct n as [|y n]; [discriminate|]; inversion Hn as [|? ? Hy Hn']; subst.
    injection Hl as Hl; cbn [less_walk]; rewrite (IH n Hn' Hl), Z.gtb_ltb.
    change (x :: b) with ([x] ++ b); change (y :: n) with ([y] ++ n); rewrite !be_val_app, Hl.
    pose proof (be_val_range b Hb) as R1; pose proof (be_val_range n Hn') as R2; rewrite Hl in R1.
    unfold be_val at 3 5; cbn [rev app le_val]; rewrite !Z.mul_0_r, !Z.add_0_r.
    pose proof (pow256_pos (length n)); unword.
    destruct (Z.ltb_spec x y), (Z.ltb_spec y x), (Z.ltb_spec (be_val b) (be_val n));
      symmetry; (apply Z.ltb_lt || apply Z.ltb_ge); nia.
Qed.

Lemma bytes_nBytes : bytes nBytes.
Proof. repeat constructor; unfold is_byte; lia. Qed.

Lemma ScalarBytesLessThanN_ok b :
  bytes b -> length b = 32%nat -> ScalarBytesLessThanN b = (be_val b <? p256N).
Proof.
  intros Hb Hl; unfold ScalarBytesLessThanN; rewrite Hl; cbn [Nat.eqb negb].
  rewrite less_walk_ok by (exact Hb || exact Hl || exact bytes_nBytes).
  reflexivity.
Qed.

Lemma Fn_range (z : Fn) : 0 <= Zmod.to_Z z < p256N.
Proof. destruct (Zmod.to_Z_range z) as [H|[H|H]]; [exact H|discriminate|unfold p256N in *; lia]. Qed.

Lemma Fp_range (z : Fp) : 0 <= Zmod.to_Z z < p256.
Proof. destruct (Zmod.to_Z_range z) as [H|[H|H]]; [exact H|discriminate|unfold p256 in *; lia]. Qed.

(** Modular inverse of an integer, from the field. *)
Lemma Fn_inv_Z s :
  1 <= s < p256N ->
  let w := Zmod.to_Z (Zmod.inv (Zmod.of_Z p256N s)) in
  0 <= w < p256N /\ (s * w) mod p256N = 1.
Proof.
  intros Hs w; split; [apply Fn_range|].
  assert (Hnz : Zmod.of_Z p256N s <> Zmod.zero).
  { intros E; apply (f_equal Zmod.to_Z) in E; rewrite Zmod.to_Z_of_Z, Z.mod_small in E by lia.
    change (Zmod.to_Z (Zmod.zero : Fn)) with 0 in E; lia. }
  pose proof (Zmod.mul_inv_same_r_prime _ prime_p256N Hnz) as E.
  apply (f_equal Zmod.to_Z) in E; rewrite Zmod.to_Z_mul, Zmod.to_Z_of_Z in E.
  rewrite Zmult_mod_idemp_l in E; exact E.
Qed.

Lemma inverse_unique s w w' :
  0 <= w < p256N -> 0 <= w' < p256N ->
  (s * w) mod p256N = 1 -> (s * w') mod p256N = 1 -> w = w'.
Proof.
  intros Hw Hw' E E'.
  transitivity ((w * (s * w')) mod p256N).
  - rewrite <- Zmult_mod_idemp_r, E', Z.mul_1_r, Z.mod_small by exact Hw; reflexivity.
  - replace (w * (s * w')) with ((s * w) * w') by ring.
    rewrite <- Zmult_mod_idemp_l, E, Z.mul_1_l, Z.mod_small by exact Hw'; reflexivity.
Qed.

(** The last part of the verifier, over the points and scalars it stands for. *)
Lemma point_rep_x_bytes P p :
  point_rep P p -> IsInfinity P = false ->
  exists x y, p = Some (x, y) /\ AffineX P = Some (be_bytes 32 (Zmod.to_Z x)).
Proof.
  intros HP HI; rewrite (IsInfinity_rep _ _ HP) in HI; rewrite (AffineX_rep _ _ HP).
  destruct p as [[x y]|]; [exists x, y; auto|discriminate].
Qed.

Lemma Fp_be_val (x : Fp) : be_val (be_bytes 32 (Zmod.to_Z x)) = Zmod.to_Z x.
Proof.
  rewrite be_val_bytes; apply Z.mod_small, p256_lt_pow, Fp_range.
Qed.

Lemma compare_x r x v :
  0 <= r < p256N -> srep v (Zmod.of_Z p256N (Zmod.to_Z (x : Fp))) ->
  forall sr, srep sr (Zmod.of_Z p256N r) ->
  (ct_diff (Scalar_Bytes v) (Scalar_Bytes sr) =? 0) = (Zmod.to_Z x mod p256N =? r).
Proof.
  intros Hr Hv sr Hs; rewrite (Scalar_Bytes_rep _ _ Hv), (Scalar_Bytes_rep _ _ Hs), !Zmod.to_Z_of_Z.
  rewrite (Z.mod_small r) by exact Hr.
  pose proof (Z.mod_pos_bound (Zmod.to_Z x) p256N ltac:(reflexivity)) as Hx.
  assert (Hp : forall z, 0 <= z < p256N -> 0 <= z < pow256 32)
    by (change (pow256 32) with (W64 ^ 4); unfold p256N; lia).
  pose proof (ct_diff_0 (be_bytes 32 (Zmod.to_Z x mod p256N)) (be_bytes 32 r)
                ltac:(rewrite !length_be_bytes; reflexivity)) as Hct.
  destruct (Z.eqb_spec (Zmod.to_Z x mod p256N) r) as [E|E].
  - apply Z.eqb_eq, Hct; rewrite E; reflexivity.
  - apply Z.eqb_neq; intros E0; apply E, (be_bytes_inj 32); auto; apply Hct, E0.
Qed.

(** The tail of [VerifyRS], after the range checks and the decoding of the key. *)
Definition verify_tail (q : Point Element) (r e w : Scalar) : bool :=
  match ScalarBaseMult (Scalar_Bytes (Scalar_Mul e w)) with
  | None => false
  | Some u1G =>
  match ScalarMult q (Scalar_Bytes (Scalar_Mul r w)) with
  | None => false
  | Some u2Q =>
  let r0 := Point_Add u1G u2Q in
  if IsInfinity r0 then false else
  match AffineX r0 with
  | None => false
  | Some rxBytes =>
  match SetBytesBE rxBytes with
  | None => false
  | Some v => ct_diff (Scalar_Bytes v) (Scalar_Bytes r) =? 0
  end end end end.

Lemma srep_bytes_val s z : srep s z ->
  bytes (Scalar_Bytes s) /\ length (Scalar_Bytes s) = 32%nat /\ be_val (Scalar_Bytes s) = Zmod.to_Z z.
Proof.
  intros H; rewrite (Scalar_Bytes_rep _ _ H).
  split; [apply bytes_be_bytes|split; [apply length_be_bytes|]].
  rewrite be_val_bytes; apply Z.mod_small; pose proof (Fn_range z).
  change (pow256 32) with (W64 ^ 4); unfold p256N in *; lia.
Qed.

Lemma verify_tail_ok q Q r e w rz ez wz :
  point_rep q Q -> 0 <= rz < p256N ->
  srep r (Zmod.of_Z p256N rz) -> srep e (Zmod.of_Z p256N ez) -> srep w (Zmod.of_Z p256N wz) ->
  verify_tail q r e w = true <->
  exists x y,
    ec_add (ec_mul ((ez * wz) mod p256N) ec_G) (ec_mul ((rz * wz) mod p256N) Q) = Some (x, y) /\
    Zmod.to_Z x mod p256N = rz.
Proof.
  intros Hq Hr Sr Se Sw; unfold verify_tail.
  destruct (srep_bytes_val _ _ (srep_Mul _ _ _ _ Se Sw)) as (B1 & L1 & V1).
  destruct (srep_bytes_val _ _ (srep_Mul _ _ _ _ Sr Sw)) as (B2 & L2 & V2).
  rewrite <- Zmod.of_Z_mul, Zmod.to_Z_of_Z in V1, V2.
  destruct (ScalarMult_rep _ _ _ point_rep_Generator B1 L1) as (R1 & E1 & P1).
  destruct (ScalarMult_rep _ _ _ Hq B2 L2) as (R2 & E2 & P2).
  unfold ScalarBaseMult; rewrite E1, E2; rewrite V1 in P1; rewrite V2 in P2; cbv zeta.
  pose proof (point_rep_Add _ _ _ _ P1 P2) as PA; revert PA.
  generalize (Point_Add R1 R2); intros R0 PA.
  pose proof (IsInfinity_rep _ _ PA) as HI; pose proof (AffineX_rep _ _ PA) as HX.
  destruct (ec_add _ _) as [[x y]|].
  - rewrite HI, HX.
    pose proof (SetBytesBE_rep (be_bytes 32 (Zmod.to_Z x)) (bytes_be_bytes _ _)) as Hv.
    destruct (SetBytesBE _) as [v|]; [|contradiction Hv; apply length_be_bytes].
    destruct Hv as [_ Hv]; rewrite Fp_be_val in Hv.
    rewrite (compare_x rz x v Hr Hv r Sr), Z.eqb_eq; split.
    + intros E; exists x, y; auto.
    + intros (x' & y' & [= -> ->] & E); exact E.
  - rewrite HI; split; [discriminate|intros (x & y & H & _); discriminate H].
Qed.

Lemma VerifyRS_unfold pubkey digest sig :
  VerifyRS pubkey digest sig =
  match SetBytesBE (firstn 32 sig), SetBytesBE (skipn 32 sig) with
  | Some r, Some s =>
      if Scalar_IsZero r || Scalar_IsZero s then false else
      if negb (ScalarBytesLessThanN (firstn 32 sig)) || negb (ScalarBytesLessThanN (skipn 32 sig))
      then false else
      match SetUncompressedBytes pubkey, SetBytesBE digest with
      | Some q, Some e => verify_tail q r e (Scalar_Invert s)
      | _, _ => false
      end
  | _, _ => false
  end.
Proof. reflexivity. Qed.

(** The two range checks together. *)
Lemma range_checks b s :
  bytes b -> length b = 32%nat -> srep s (Zmod.of_Z p256N (be_val b)) ->
  Scalar_IsZero s = false /\ ScalarBytesLessThanN b = true <-> 1 <= be_val b < p256N.
Proof.
  intros Hb Hl Hs; rewrite (ScalarBytesLessThanN_ok b Hb Hl), (Scalar_IsZero_rep _ _ Hs), Z.ltb_lt.
  pose proof (be_val_range b Hb) as Hr.
  destruct (Zmod.eqb_spec (Zmod.of_Z p256N (be_val b)) Zmod.zero) as [E|E].
  - apply (f_equal Zmod.to_Z) in E; rewrite Zmod.to_Z_of_Z in E.
    change (Zmod.to_Z (Zmod.zero : Fn)) with 0 in E.
    split; [intros [H _]; discriminate H|intros H].
    rewrite Z.mod_small in E by lia; lia.
  - split; [intros [_ H]; split; [|exact H]|intros H; split; [reflexivity|apply H]].
    destruct (Z.eq_dec (be_val b) 0) as [E0|]; [|lia].
    contradiction E; rewrite E0; reflexivity.
Qed.

(** [VerifyRS] decides [ecdsa_spec] on inputs of the fixed sizes. *)
Lemma VerifyRS_ok pubkey digest sig :
  bytes pubkey -> bytes digest -> bytes sig ->
  length pubkey = 64%nat -> length digest = 32%nat -> length sig = 64%nat ->
  VerifyRS pubkey digest sig = true <-> ecdsa_spec pubkey digest sig.
Proof.
  intros Hk Hd Hs Lk Ld Ls; rewrite VerifyRS_unfold; unfold ecdsa_spec; cbv zeta.
  pose proof (bytes_firstn 32 sig Hs) as B1; pose proof (bytes_skipn 32 sig Hs) as B2.
  assert (L1 : length (firstn 32 sig) = 32%nat) by (rewrite length_firstn, Ls; reflexivity).
  assert (L2 : length (skipn 32 sig) = 32%nat) by (rewrite length_skipn, Ls; reflexivity).
  pose proof (SetBytesBE_rep _ B1) as R1; pose proof (SetBytesBE_rep _ B2) as R2.
  pose proof (SetBytesBE_rep _ Hd) as R3; pose proof (SetUncompressedBytes_rep _ Hk) as R4.
  destruct (SetBytesBE (firstn 32 sig)) as [r|]; [|contradiction].
  destruct (SetBytesBE (skipn 32 sig)) as [s|]; [|contradiction].
  destruct (SetBytesBE digest) as [e|]; [|contradiction].
  destruct R1 as [_ R1], R2 as [_ R2], R3 as [_ R3].
  pose proof (range_checks _ _ B1 L1 R1) as C1; pose proof (range_checks _ _ B2 L2 R2) as C2.
  set (rz := be_val (firstn 32 sig)) in *; set (sz := be_val (skipn 32 sig)) in *.
  destruct (Scalar_IsZero r); [split; [discriminate|intros H; exfalso; intuition discriminate]|].
  destruct (Scalar_IsZero s); [split; [discriminate|intros H; exfalso; intuition discriminate]|].
  destruct (ScalarBytesLessThanN (firstn 32 sig));
    [|split; [discriminate|intros H; exfalso; intuition discriminate]].
  destruct (ScalarBytesLessThanN (skipn 32 sig));
    [|split; [discriminate|intros H; exfalso; intuition discriminate]].
  assert (Hr : 1 <= rz < p256N) by (apply C1; auto).
  assert (Hsr : 1 <= sz < p256N) by (apply C2; auto).
  destruct (Fn_inv_Z sz Hsr) as [Hw1 Hw2].
  set (wz := Zmod.to_Z (Zmod.inv (Zmod.of_Z p256N sz))) in *.
  cbn [orb negb]; destruct (SetUncompressedBytes pubkey) as [q|];
    [|split; [discriminate|tauto]].
  destruct R4 as [Hacc Hq].
  pose proof (Scalar_Invert_rep _ _ R2) as RI.
  rewrite <- (Zmod.of_Z_to_Z (Zmod.inv _)) in RI; fold wz in RI.
  rewrite (verify_tail_ok _ _ _ _ _ rz _ _ Hq ltac:(lia) R1 R3 RI); split.
  - intros (x & y & H); split; [exact Hr|split; [exact Hsr|split; [exact Hacc|]]].
    exists wz, x, y; tauto.
  - intros (_ & _ & _ & w & x & y & E & Hw & H).
    rewrite (inverse_unique sz w wz Hw Hw1 E Hw2) in H; exists x, y; exact H.
Qed.

(** C1: the verifier decides the ECDSA equation.  On the 64-byte key, 32-byte digest and
    64-byte signature the certificate slot supplies, [VerifyRS] answers true exactly when
    r and s are in [1, n-1], the key decodes to a curve point Q and, with w the inverse of s,
    the x-coordinate of (e w) G + (r w) Q is congruent to r modulo n. *)
Theorem VerifyRS_correct pubkey digest sig :
  bytes pubkey -> bytes digest -> bytes sig ->
  length pubkey = 64%nat -> length digest = 32%nat -> length sig = 64%nat ->
  VerifyRS pubkey digest sig = true <-> ecdsa_spec pubkey digest sig.
Proof. intros; apply VerifyRS_ok; assumption. Qed.

(** A key, digest and signature with e w = r w = 1: the public key is 2G and the
    checked point is 3G. *)
Definition demo_key : list Z :=
  be_bytes 32 0x7cf27b188d034f7e8a52380304b51ac3c08969e277f21b35a60b48fc47669978 ++
  be_bytes 32 0x7775510db8ed040293d9ac69f7430dbba7dade63ce982299e04b79d227873d1.
Definition demo_r : Z := 0x5ecbe4d1a6330a44c8f7ef951d4bf165e6c6b721efada985fb41661bc6e7fd6c.
Definition demo_w : Z := 0xce9f3786ce5f0be4861f9857984a3fa64f2c15b560f271d51b3e74ebd898e653.
Definition demo_sig : list Z := be_bytes 32 demo_r ++ be_bytes 32 demo_r.

Lemma demo_spec : ecdsa_spec demo_key (be_bytes 32 demo_r) demo_sig.
Proof.
  unfold ecdsa_spec; split; [vm_compute; split; [discriminate|reflexivity]|].
  split; [vm_compute; split; [discriminate|reflexivity]|].
  split; [unfold pubkey_accepted, on_curve_Z; vm_compute; repeat split; discriminate|].
  exists demo_w, (Zmod.of_Z p256 0x5ecbe4d1a6330a44c8f7ef951d4bf165e6c6b721efada985fb41661bc6e7fd6c),
    (Zmod.of_Z p256 0x8734640c4998ff7e374b06ce1a64a2ecd82ab036384fb83d9a79b127a27d5032).
  split; [vm_compute; reflexivity|split; [vm_compute; split; [discriminate|reflexivity]|]].
  split; [vm_compute; reflexivity|vm_compute; reflexivity].
Qed.

Lemma VerifyRS_correct_witness :
  ecdsa_spec demo_key (be_bytes 32 demo_r) demo_sig /\
  VerifyRS demo_key (be_bytes 32 demo_r) demo_sig = true.
Proof.
  split; [exact demo_spec|].
  apply (VerifyRS_correct demo_key (be_bytes 32 demo_r) demo_sig);
    [apply bytes_app; split; apply bytes_be_bytes|apply bytes_be_bytes
    |apply bytes_app; split; apply bytes_be_bytes|reflexivity|reflexivity|reflexivity|exact demo_spec].
Defined.
