(* ===== verification/Sha2.v ===== *)
(** * SHA-256 and SHA-512

    [src/internal/runtime/janos_hash/sha256.go] and [sha512.go].  The two files are the same
    code at two word sizes; what they share is a section over a record of parameters, and
    what they write out (constants, initial state, the four sigma functions) is one
    definition per file. *)

From Stdlib Require Import ZArith Lia List Bool.
From S2P Require Import Prelude Slices.
Import ListNotations.
#[local] Open Scope Z_scope.

Definition sha256K : list Z :=
  [0x428A2F98; 0x71374491; 0xB5C0FBCF; 0xE9B5DBA5; 0x3956C25B; 0x59F111F1;
   0x923F82A4; 0xAB1C5ED5; 0xD807AA98; 0x12835B01; 0x243185BE; 0x550C7DC3;
   0x72BE5D74; 0x80DEB1FE; 0x9BDC06A7; 0xC19BF174; 0xE49B69C1; 0xEFBE4786;
   0x0FC19DC6; 0x240CA1CC; 0x2DE92C6F; 0x4A7484AA; 0x5CB0A9DC; 0x76F988DA;
   0x983E5152; 0xA831C66D; 0xB00327C8; 0xBF597FC7; 0xC6E00BF3; 0xD5A79147;
   0x06CA6351; 0x14292967; 0x27B70A85; 0x2E1B2138; 0x4D2C6DFC; 0x53380D13;
   0x650A7354; 0x766A0ABB; 0x81C2C92E; 0x92722C85; 0xA2BFE8A1; 0xA81A664B;
   0xC24B8B70; 0xC76C51A3; 0xD192E819; 0xD6990624; 0xF40E3585; 0x106AA070;
   0x19A4C116; 0x1E376C08; 0x2748774C; 0x34B0BCB5; 0x391C0CB3; 0x4ED8AA4A;
   0x5B9CCA4F; 0x682E6FF3; 0x748F82EE; 0x78A5636F; 0x84C87814; 0x8CC70208;
   0x90BEFFFA; 0xA4506CEB; 0xBEF9A3F7; 0xC67178F2].

Definition sha512K : list Z :=
  [0x428A2F98D728AE22; 0x7137449123EF65CD; 0xB5C0FBCFEC4D3B2F; 0xE9B5DBA58189DBBC;
   0x3956C25BF348B538; 0x59F111F1B605D019; 0x923F82A4AF194F9B; 0xAB1C5ED5DA6D8118;
   0xD807AA98A3030242; 0x12835B0145706FBE; 0x243185BE4EE4B28C; 0x550C7DC3D5FFB4E2;
   0x72BE5D74F27B896F; 0x80DEB1FE3B1696B1; 0x9BDC06A725C71235; 0xC19BF174CF692694;
   0xE49B69C19EF14AD2; 0xEFBE4786384F25E3; 0x0FC19DC68B8CD5B5; 0x240CA1CC77AC9C65;
   0x2DE92C6F592B0275; 0x4A7484AA6EA6E483; 0x5CB0A9DCBD41FBD4; 0x76F988DA831153B5;
   0x983E5152EE66DFAB; 0xA831C66D2DB43210; 0xB00327C898FB213F; 0xBF597FC7BEEF0EE4;
   0xC6E00BF33DA88FC2; 0xD5A79147930AA725; 0x06CA6351E003826F; 0x142929670A0E6E70;
   0x27B70A8546D22FFC; 0x2E1B21385C26C926; 0x4D2C6DFC5AC42AED; 0x53380D139D95B3DF;
   0x650A73548BAF63DE; 0x766A0ABB3C77B2A8; 0x81C2C92E47EDAEE6; 0x92722C851482353B;
   0xA2BFE8A14CF10364; 0xA81A664BBC423001; 0xC24B8B70D0F89791; 0xC76C51A30654BE30;
   0xD192E819D6EF5218; 0xD69906245565A910; 0xF40E35855771202A; 0x106AA07032BBD1B8;
   0x19A4C116B8D2D0C8; 0x1E376C085141AB53; 0x2748774CDF8EEB99; 0x34B0BCB5E19B48A8;
   0x391C0CB3C5C95A63; 0x4ED8AA4AE3418ACB; 0x5B9CCA4F7763E373; 0x682E6FF3D6B2B8A3;
   0x748F82EE5DEFB2FC; 0x78A5636F43172F60; 0x84C87814A1F0AB72; 0x8CC702081A6439EC;
   0x90BEFFFA23631E28; 0xA4506CEBDE82BDE9; 0xBEF9A3F7B2C67915; 0xC67178F2E372532B;
   0xCA273ECEEA26619C; 0xD186B8C721C0C207; 0xEADA7DD6CDE0EB1E; 0xF57D4F7FEE6ED178;
   0x06F067AA72176FBA; 0x0A637DC5A2C898A6; 0x113F9804BEF90DAE; 0x1B710B35131C471B;
   0x28DB77F523047D84; 0x32CAAB7B40C72493; 0x3C9EBE0A15C9BEBC; 0x431D67C49C100D4C;
   0x4CC5D4BECB3E42B6; 0x597F299CFC657E2A; 0x5FCB6FAB3AD6FAEC; 0x6C44198C4A475817].

(** What differs between the two files. *)
Record sha_params := MkSha {
  word_bits : Z;        (** 32 or 64 *)
  chunk : nat;          (** block size in bytes *)
  len_bytes : nat;      (** bytes of the length field of the padding *)
  rounds : nat;
  rk : list Z;          (** round constants *)
  h_init : list Z;      (** initial state *)
  small_s1 : Z -> Z; small_s0 : Z -> Z;
  big_S1 : Z -> Z; big_S0 : Z -> Z;
}.

(** [type SHA256 struct], [type SHA512 struct]. *)
Record SHA := MkSHA { sh : list Z; sx : list Z; snx : nat; slen : Z }.

(** The working variables [a .. h]. *)
Definition regs : Type := (Z * Z * Z * Z * Z * Z * Z * Z)%type.

Section Code.
Context (P : sha_params).

Definition wordN (z : Z) : Z := z mod 2 ^ word_bits P.
Definition notN (x : Z) : Z := Z.lxor x (2 ^ word_bits P - 1).

Definition Reset (d : SHA) : SHA := MkSHA (h_init P) (sx d) 0 0.

(** A zero value: [var d SHA256]. *)
Definition sha_zero : SHA := MkSHA (repeat 0 8) (repeat 0 (chunk P)) 0 0.

(** Word [i] of a block, [uint32(p[j])<<24 | ...] with the bytes in the source's order. *)
Definition load_word (p : list Z) (i : nat) : Z :=
  let n := Z.to_nat (word_bits P / 8) in
  fold_left (fun acc k =>
    Z.lor acc (wordN (Z.shiftl (nth (i * n + k) p 0) (word_bits P - 8 - 8 * Z.of_nat k))))
    (seq 0 n) 0.

(** The new working variables. *)
Definition round_regs (k w : Z) (r : regs) : regs :=
  let '(a, b, c, dd, e, f, g, h) := r in
  let S1 := big_S1 P e in
  let ch := Z.lxor (Z.land e f) (Z.land (notN e) g) in
  let t1 := wordN (wordN (wordN (wordN (h + S1) + ch) + k) + w) in
  let S0 := big_S0 P a in
  let maj := Z.lxor (Z.lxor (Z.land a b) (Z.land a c)) (Z.land b c) in
  let t2 := wordN (S0 + maj) in
  (wordN (t1 + t2), a, b, c, wordN (dd + t1), e, f, g).

(** One iteration of the round loop: the schedule word, then the working variables. *)
Definition round (p : list Z) (i : nat) (st : list Z * regs) : list Z * regs :=
  let '(w, r) := st in
  let wi :=
    if (i <? 16)%nat then load_word p i
    else
      let v1 := nth (i - 2) w 0 in
      let s1 := small_s1 P v1 in
      let v2 := nth (i - 15) w 0 in
      let s0 := small_s0 P v2 in
      wordN (wordN (wordN (s1 + nth (i - 7) w 0) + s0) + nth (i - 16) w 0) in
  let w := upd w i wi in
  (w, round_regs (nth i (rk P) 0) (nth i w 0) r).

Definition regs_of (hs : list Z) : regs :=
  let h i := nth i hs 0 in (h 0%nat, h 1%nat, h 2%nat, h 3%nat, h 4%nat, h 5%nat, h 6%nat, h 7%nat).

(** [h0 += a; ...; h7 += h]. *)
Definition add_regs (hs : list Z) (r : regs) : list Z :=
  let h i := nth i hs 0 in
  let '(a, b, c, dd, e, f, g, hh) := r in
  [wordN (h 0%nat + a); wordN (h 1%nat + b); wordN (h 2%nat + c); wordN (h 3%nat + dd);
   wordN (h 4%nat + e); wordN (h 5%nat + f); wordN (h 6%nat + g); wordN (h 7%nat + hh)].

(** One block. *)
Definition block_one (hs p : list Z) : list Z :=
  add_regs hs (snd (for_range 0 (rounds P) (round p) (repeat 0 (rounds P), regs_of hs))).

(** [for len(p) >= Chunk { ...; p = p[Chunk:] }]; each turn shortens [p], so [length p]
    turns are enough. *)
Fixpoint block_loop (fuel : nat) (hs p : list Z) : list Z :=
  match fuel with
  | O => hs
  | S fuel =>
      if (chunk P <=? length p)%nat
      then block_loop fuel (block_one hs (firstn (chunk P) p)) (skipn (chunk P) p)
      else hs
  end.

Definition Block (hs p : list Z) : list Z := block_loop (length p) hs p.

(** [copy(dst[at:], src)]: the new destination and the number of bytes copied. *)
Definition copy_at (dst : list Z) (at_ : nat) (src : list Z) : list Z * nat :=
  let n := Nat.min (length dst - at_) (length src) in
  (firstn at_ dst ++ firstn n src ++ skipn (at_ + n) dst, n).

(** First part of [Write]: top up a partial block. *)
Definition write_fill (d : SHA) (p : list Z) : list Z * list Z * nat * list Z :=
  if (0 <? snx d)%nat then
    let '(x, n) := copy_at (sx d) (snx d) p in
    let nx := (snx d + n)%nat in
    if (nx =? chunk P)%nat then (Block (sh d) x, x, 0%nat, skipn n p)
    else (sh d, x, nx, skipn n p)
  else (sh d, sx d, snx d, p).

(** The rest of [Write]: whole blocks straight from [p], then the tail into the buffer. *)
Definition write_rest (hs x : list Z) (nx : nat) (p : list Z) : list Z * list Z * nat :=
  let n := Z.to_nat (Z.ldiff (Z.of_nat (length p)) (Z.of_nat (chunk P) - 1)) in
  let '(hs, p) := if (0 <? n)%nat then (Block hs (firstn n p), skipn n p) else (hs, p) in
  let '(x, nx) := if (0 <? length p)%nat then copy_at x 0 p else (x, nx) in
  (hs, x, nx).

Definition Write (d : SHA) (p : list Z) : SHA :=
  let len' := u64 (slen d + Z.of_nat (length p)) in
  let '(hs, x, nx, p) := write_fill d p in
  let '(hs, x, nx) := write_rest hs x nx p in
  MkSHA hs x nx len'.

(** The padding [pad[:t+8]] (or [pad[:t+16]]) for a message of [length] bytes. *)
Definition sum_pad (length : Z) : list Z :=
  let c := Z.of_nat (chunk P) in
  let lb := Z.of_nat (len_bytes P) in
  let tmp := upd (repeat 0 (chunk P + len_bytes P)) 0 0x80 in
  let t := Z.to_nat (if length mod c <? c - lb then c - lb - length mod c
                     else c + (c - lb) - length mod c) in
  let length := u64 (Z.shiftl length 3) in
  let pad := firstn (t + len_bytes P) tmp in
  let o := (t + (len_bytes P - 8))%nat in
  for_range 0 8 (fun i pad => upd pad (o + i) (u8 (Z.shiftr length (56 - 8 * Z.of_nat i)))) pad.

Definition store_word (v : Z) : list Z :=
  let n := Z.to_nat (word_bits P / 8) in
  map (fun i => u8 (Z.shiftr v (word_bits P - 8 - 8 * Z.of_nat i))) (seq 0 n).

Definition Sum (d : SHA) : list Z :=
  let dd := Write d (sum_pad (slen d)) in
  flat_map store_word (sh dd).

(** [d.Reset(); d.Write(p); d.Sum()] on a fresh value. *)
Definition Hash (p : list Z) : list Z := Sum (Write (Reset sha_zero) p).

End Code.

(** ** The two instances *)

Definition rot32 (x r l : Z) : Z := Z.lor (Z.shiftr x r) (u32 (Z.shiftl x l)).
Definition rot64 (x r l : Z) : Z := Z.lor (Z.shiftr x r) (u64 (Z.shiftl x l)).

Definition sha256_params : sha_params :=
  MkSha 32 64 8 64 sha256K
    [0x6A09E667; 0xBB67AE85; 0x3C6EF372; 0xA54FF53A; 0x510E527F; 0x9B05688C; 0x1F83D9AB; 0x5BE0CD19]
    (fun v1 => Z.lxor (Z.lxor (rot32 v1 17 15) (rot32 v1 19 13)) (Z.shiftr v1 10))
    (fun v2 => Z.lxor (Z.lxor (rot32 v2 7 25) (rot32 v2 18 14)) (Z.shiftr v2 3))
    (fun e => Z.lxor (Z.lxor (rot32 e 6 26) (rot32 e 11 21)) (rot32 e 25 7))
    (fun a => Z.lxor (Z.lxor (rot32 a 2 30) (rot32 a 13 19)) (rot32 a 22 10)).

Definition sha512_params : sha_params :=
  MkSha 64 128 16 80 sha512K
    [0x6A09E667F3BCC908; 0xBB67AE8584CAA73B; 0x3C6EF372FE94F82B; 0xA54FF53A5F1D36F1;
   0x510E527FADE682D1; 0x9B05688C2B3E6C1F; 0x1F83D9ABFB41BD6B; 0x5BE0CD19137E2179]
    (fun v1 => Z.lxor (Z.lxor (rot64 v1 19 45) (rot64 v1 61 3)) (Z.shiftr v1 6))
    (fun v2 => Z.lxor (Z.lxor (rot64 v2 1 63) (rot64 v2 8 56)) (Z.shiftr v2 7))
    (fun e => Z.lxor (Z.lxor (rot64 e 14 50) (rot64 e 18 46)) (rot64 e 41 23))
    (fun a => Z.lxor (Z.lxor (rot64 a 28 36) (rot64 a 34 30)) (rot64 a 39 25)).

Definition sha256_Reset (d : SHA) : SHA := Reset sha256_params d.
Definition sha256_Write (d : SHA) (p : list Z) : SHA := Write sha256_params d p.
Definition sha256_Sum (d : SHA) : list Z := Sum sha256_params d.
Definition sha256_Block (hs p : list Z) : list Z := Block sha256_params hs p.
Definition sha256 (p : list Z) : list Z := Hash sha256_params p.

Definition sha512_Reset (d : SHA) : SHA := Reset sha512_params d.
Definition sha512_Write (d : SHA) (p : list Z) : SHA := Write sha512_params d p.
Definition sha512_Sum (d : SHA) : list Z := Sum sha512_params d.
Definition sha512_Block (hs p : list Z) : list Z := Block sha512_params hs p.
Definition sha512 (p : list Z) : list Z := Hash sha512_params p.

(** ** FIPS 180-4

    The specification: padding, message schedule, compression with one reduction per
    sum, over whole messages.  The numbers of the standard are computed from what it says
    they are: fractional parts of roots of the first primes. *)

(** *** The constants *)

(** The first [n] primes, by trial division. *)
Definition is_prime (p : Z) : bool :=
  (1 <? p) && forallb (fun d => negb (p mod Z.of_nat d =? 0)) (seq 2 (Z.to_nat (Z.sqrt p) - 1)).
Definition first_primes (n : nat) : list Z := firstn n (filter is_prime (map Z.of_nat (seq 2 500))).

(** The integer cube root, bit by bit from bit [k - 1] on. *)
Fixpoint cube_root_from (k : nat) (r n : Z) : Z :=
  match k with
  | O => r
  | S k =>
      let r' := r + 2 ^ Z.of_nat k in
      cube_root_from k (if r' ^ 3 <=? n then r' else r) n
  end.
Definition cube_root (n : Z) : Z := cube_root_from (Z.to_nat (Z.log2_up (n + 1))) 0 n.

(** The first [w] bits of the fractional parts of the square and the cube root of [p]. *)
Definition sqrt_bits (w p : Z) : Z := Z.sqrt (p * 2 ^ (2 * w)) mod 2 ^ w.
Definition cbrt_bits (w p : Z) : Z := cube_root (p * 2 ^ (3 * w)) mod 2 ^ w.

Lemma cube_root_from_ok k : forall r n, 0 <= r -> r ^ 3 <= n < (r + 2 ^ Z.of_nat k) ^ 3 ->
  let c := cube_root_from k r n in 0 <= c /\ c ^ 3 <= n < (c + 1) ^ 3.
Proof.
  induction k as [|k IH]; intros r n Hr Hn; cbn [cube_root_from]; [exact (conj Hr Hn)|].
  replace (2 ^ Z.of_nat (S k)) with (2 ^ Z.of_nat k + 2 ^ Z.of_nat k) in Hn
    by (rewrite Nat2Z.inj_succ, Z.pow_succ_r by lia; lia).
  assert (0 < 2 ^ Z.of_nat k) by (apply Z.pow_pos_nonneg; lia).
  cbv zeta; destruct (Z.leb_spec ((r + 2 ^ Z.of_nat k) ^ 3) n); apply IH; try lia; rewrite <- ?Z.add_assoc; lia.
Qed.

Lemma cube_root_ok n : 0 <= n -> 0 <= cube_root n /\ cube_root n ^ 3 <= n < (cube_root n + 1) ^ 3.
Proof.
  intros Hn; unfold cube_root; apply cube_root_from_ok; [lia|]; pose proof (Z.log2_up_nonneg (n + 1)).
  rewrite Z2Nat.id by lia; cbn [Z.add]; set (k := Z.log2_up (n + 1)) in *.
  assert (n + 1 <= 2 ^ k) by (destruct (Z.eq_dec n 0) as [->|N]; [|apply Z.log2_up_spec; lia];
    unfold k; cbn; lia).
  assert (1 <= 2 ^ k) by lia; replace ((2 ^ k) ^ 3) with (2 ^ k * (2 ^ k * 2 ^ k)) by ring; split; [lia|nia].
Qed.

(** *** The functions: [ROTR] and [SHR] on [w]-bit words *)

Definition ROTR (w n x : Z) : Z := Z.lor (Z.shiftr x n) (Z.shiftl x (w - n) mod 2 ^ w).
Definition SHR (n x : Z) : Z := Z.shiftr x n.

(** Sections 4.1.2, 4.2.2 and 5.3.3 of the standard. *)
Definition fips_sha256 : sha_params := {|
  word_bits := 32; chunk := 64; len_bytes := 8; rounds := 64;
  rk := map (cbrt_bits 32) (first_primes 64);
  h_init := map (sqrt_bits 32) (first_primes 8);
  small_s0 := fun x => Z.lxor (Z.lxor (ROTR 32 7 x) (ROTR 32 18 x)) (SHR 3 x);
  small_s1 := fun x => Z.lxor (Z.lxor (ROTR 32 17 x) (ROTR 32 19 x)) (SHR 10 x);
  big_S0 := fun x => Z.lxor (Z.lxor (ROTR 32 2 x) (ROTR 32 13 x)) (ROTR 32 22 x);
  big_S1 := fun x => Z.lxor (Z.lxor (ROTR 32 6 x) (ROTR 32 11 x)) (ROTR 32 25 x);
|}.

(** Sections 4.1.3, 4.2.3 and 5.3.5. *)
Definition fips_sha512 : sha_params := {|
  word_bits := 64; chunk := 128; len_bytes := 16; rounds := 80;
  rk := map (cbrt_bits 64) (first_primes 80);
  h_init := map (sqrt_bits 64) (first_primes 8);
  small_s0 := fun x => Z.lxor (Z.lxor (ROTR 64 1 x) (ROTR 64 8 x)) (SHR 7 x);
  small_s1 := fun x => Z.lxor (Z.lxor (ROTR 64 19 x) (ROTR 64 61 x)) (SHR 6 x);
  big_S0 := fun x => Z.lxor (Z.lxor (ROTR 64 28 x) (ROTR 64 34 x)) (ROTR 64 39 x);
  big_S1 := fun x => Z.lxor (Z.lxor (ROTR 64 14 x) (ROTR 64 18 x)) (ROTR 64 41 x);
|}.

(** The source's tables and rotations are those. *)
Lemma sha256_numbers : map (cbrt_bits 32) (first_primes 64) = rk sha256_params /\ map (sqrt_bits 32) (first_primes 8) = h_init sha256_params.
Proof. split; vm_compute; reflexivity. Qed.
Lemma sha512_numbers : map (cbrt_bits 64) (first_primes 80) = rk sha512_params /\ map (sqrt_bits 64) (first_primes 8) = h_init sha512_params.
Proof. split; vm_compute; reflexivity. Qed.

Lemma fips_sha256_ok : sha256_params = fips_sha256.
Proof. unfold fips_sha256; destruct sha256_numbers as [-> ->]; reflexivity. Qed.
Lemma fips_sha512_ok : sha512_params = fips_sha512.
Proof. unfold fips_sha512; destruct sha512_numbers as [-> ->]; reflexivity. Qed.

(** *** The hash *)

Section Spec.
Context (P : sha_params).

Definition fips_pad (m : list Z) : list Z :=
  let k := Z.to_nat ((Z.of_nat (chunk P) - 1 - Z.of_nat (len_bytes P) - Z.of_nat (length m))
                     mod Z.of_nat (chunk P)) in
  m ++ [0x80] ++ repeat 0 k ++ be_bytes (len_bytes P) (8 * Z.of_nat (length m)).

(** The [i]-th word of a block. *)
Definition fips_word (p : list Z) (i : nat) : Z :=
  let n := Z.to_nat (word_bits P / 8) in be_val (firstn n (skipn (i * n) p)).

(** The first [n] words of the message schedule. *)
Fixpoint fips_schedule (p : list Z) (n : nat) : list Z :=
  match n with
  | O => []
  | S t =>
      let W := fips_schedule p t in
      let Wt := if (t <? 16)%nat then fips_word p t
                else (small_s1 P (nth (t - 2) W 0) + nth (t - 7) W 0
                      + small_s0 P (nth (t - 15) W 0) + nth (t - 16) W 0) mod 2 ^ word_bits P in
      W ++ [Wt]
  end.

Definition fips_Wt (p : list Z) (t : nat) : Z := nth t (fips_schedule p (S t)) 0.

Definition fips_round (p : list Z) (t : nat) (r : regs) : regs :=
  let '(a, b, c, d, e, f, g, h) := r in
  let Ch := Z.lxor (Z.land e f) (Z.land (Z.lxor e (2 ^ word_bits P - 1)) g) in
  let Maj := Z.lxor (Z.lxor (Z.land a b) (Z.land a c)) (Z.land b c) in
  let T1 := h + big_S1 P e + Ch + nth t (rk P) 0 + fips_Wt p t in
  let T2 := big_S0 P a + Maj in
  ((T1 + T2) mod 2 ^ word_bits P, a, b, c, (d + T1) mod 2 ^ word_bits P, e, f, g).

(** The working variables start as the eight words of the hash value and are added to them. *)
Definition fips_vars (hs : list Z) : regs :=
  let H j := nth j hs 0 in (H 0%nat, H 1%nat, H 2%nat, H 3%nat, H 4%nat, H 5%nat, H 6%nat, H 7%nat).
Definition fips_sum (hs : list Z) (r : regs) : list Z :=
  let '(a, b, c, d, e, f, g, h) := r in
  map (fun '(j, v) => (nth j hs 0 + v) mod 2 ^ word_bits P) (combine (seq 0 8) [a; b; c; d; e; f; g; h]).

Definition fips_compress (hs p : list Z) : list Z :=
  fips_sum hs (for_range 0 (rounds P) (fips_round p) (fips_vars hs)).

(** The blocks of a string whose length is a multiple of the block size. *)
Definition blocks (m : list Z) : list (list Z) :=
  map (fun i => firstn (chunk P) (skipn (i * chunk P) m)) (seq 0 (length m / chunk P)).

Definition fips_hash (m : list Z) : list Z :=
  flat_map (be_bytes (Z.to_nat (word_bits P / 8)))
    (fold_left fips_compress (blocks (fips_pad m)) (h_init P)).

End Spec.

(** FIPS 180-4 test vectors ("abc"). *)
Example sha256_abc :
  be_val (sha256 [97; 98; 99]) =
  0xBA7816BF8F01CFEA414140DE5DAE2223B00361A396177A9CB410FF61F20015AD.
Proof. vm_compute; reflexivity. Qed.

Example sha512_abc :
  be_val (sha512 [97; 98; 99]) =
  0xDDAF35A193617ABACC417349AE20413112E6FA4E89A97EA20A9EEEE64B55D39A2192992A274FC1A836BA3C23A3FEEBBD454D4423643CE80E2A9AC94FA54CA49F.
Proof. vm_compute; reflexivity. Qed.

(** ** The round loop *)

(** What the proofs need of the parameters. *)
Class ShaOk (P : sha_params) : Prop := {
  ok_word : exists n, (0 < n)%nat /\ word_bits P = 8 * Z.of_nat n /\ chunk P = (16 * n)%nat;
  ok_chunk : exists k, 0 <= k /\ Z.of_nat (chunk P) = 2 ^ k;
  ok_len : (8 <= len_bytes P < chunk P)%nat;
  ok_init : length (h_init P) = 8%nat;
}.

#[export] Instance sha256_ok : ShaOk sha256_params.
Proof.
  split; [exists 4%nat; cbn; lia|exists 6; split; [lia|reflexivity]|cbn; lia|reflexivity].
Qed.

#[export] Instance sha512_ok : ShaOk sha512_params.
Proof.
  split; [exists 8%nat; cbn; lia|exists 7; split; [lia|reflexivity]|cbn; lia|reflexivity].
Qed.

Section Rounds.
Context (P : sha_params) {HP : ShaOk P}.

Lemma fips_compress_eq hs p : fips_compress P hs p = add_regs P hs (for_range 0 (rounds P) (fips_round P p) (regs_of hs)).
Proof.
  unfold fips_compress; change (fips_vars hs) with (regs_of hs).
  destruct (for_range _ _ _ _) as [[[[[[[? ?] ?] ?] ?] ?] ?] ?]; reflexivity.
Qed.

Lemma length_schedule p n : length (fips_schedule P p n) = n.
Proof. induction n; cbn [fips_schedule]; [reflexivity|rewrite length_app, IHn; cbn; lia]. Qed.

Lemma schedule_nth p n t : (t < n)%nat -> nth t (fips_schedule P p n) 0 = fips_Wt P p t.
Proof.
  intros H; induction H as [|n H IH]; [reflexivity|].
  cbn [fips_schedule]; rewrite app_nth1 by (rewrite length_schedule; lia); exact IH.
Qed.

(** Bytes or-ed into place are the big-endian value. *)
Lemma load_word_gen p o bits n acc :
  bytes p -> 0 <= acc -> 8 * Z.of_nat n <= bits ->
  forall j, bits = 8 * Z.of_nat (j + n) -> acc < 2 ^ (8 * Z.of_nat j) ->
  fold_left (fun acc k => Z.lor acc ((Z.shiftl (nth (o + k) p 0) (bits - 8 - 8 * Z.of_nat k)) mod 2 ^ bits))
    (seq j n) (acc * 2 ^ (8 * Z.of_nat n)) =
  acc * 2 ^ (8 * Z.of_nat n) + be_val (map (fun k => nth (o + k) p 0) (seq j n)).
Proof.
  intros Hp; revert acc; induction n as [|n IH]; intros acc Ha Hb j Hj Hlt.
  - cbn; lia.
  - cbn [seq fold_left map].
    pose proof (bytes_nth p (o + j) Hp) as Hx; unword.
    set (x := nth (o + j) p 0) in *.
    replace (bits - 8 - 8 * Z.of_nat j) with (8 * Z.of_nat n) by lia.
    assert (Hx' : 0 <= x * 2 ^ (8 * Z.of_nat n) < 2 ^ bits).
    { split; [lia|]; apply Z.lt_le_trans with (2 ^ 8 * 2 ^ (8 * Z.of_nat n));
        [apply Z.mul_lt_mono_pos_r; lia|rewrite <- Z.pow_add_r by lia; apply Z.pow_le_mono_r; lia]. }
    rewrite Z.shiftl_mul_pow2, Z.mod_small by (lia || exact Hx').
    replace (8 * Z.of_nat (S n)) with (8 * Z.of_nat n + 8) by lia.
    assert (E : Z.lor (acc * 2 ^ (8 * Z.of_nat n + 8)) (x * 2 ^ (8 * Z.of_nat n)) =
                (acc * 256 + x) * 2 ^ (8 * Z.of_nat n)).
    { rewrite Z.pow_add_r, (Z.mul_comm (2 ^ _)), Z.mul_assoc by lia.
      rewrite <- !Z.shiftl_mul_pow2, <- Z.shiftl_lor by lia; f_equal.
      rewrite Z.shiftl_mul_pow2 by lia; apply (lor_add_high acc x 8); lia. }
    assert (Hacc : acc * 256 + x < 2 ^ (8 * Z.of_nat (S j))).
    { replace (8 * Z.of_nat (S j)) with (8 * Z.of_nat j + 8) by lia.
      rewrite Z.pow_add_r by lia; lia. }
    rewrite E, (IH (acc * 256 + x)) by (lia || exact Hacc).
    change (x :: map (fun k => nth (o + k) p 0) (seq (S j) n))
      with ([x] ++ map (fun k => nth (o + k) p 0) (seq (S j) n)).
    rewrite be_val_app, length_map, length_seq.
    replace (pow256 n) with (2 ^ (8 * Z.of_nat n)) by
      (unfold pow256; rewrite Z.pow_mul_r by lia; reflexivity).
    unfold be_val at 2; cbn [rev app le_val]; rewrite Z.pow_add_r by lia; ring.
Qed.

Lemma load_word_ok p i :
  bytes p -> (i < 16)%nat -> length p = chunk P -> load_word P p i = fips_word P p i.
Proof.
  intros Hp Hi Hl; destruct ok_word as (n & Hn & Hw & Hc).
  unfold load_word, fips_word, wordN; rewrite Hw, (Z.mul_comm 8), Z.div_mul, Nat2Z.id by lia.
  rewrite (Z.mul_comm _ 8).
  pose proof (load_word_gen p (i * n) (8 * Z.of_nat n) n 0 Hp ltac:(lia) ltac:(lia) 0%nat
                eq_refl ltac:(reflexivity)) as H.
  rewrite Z.mul_0_l, Z.add_0_l in H; rewrite H, map_nth_seq; [reflexivity|].
  rewrite Hl, Hc; nia.
Qed.

Lemma wordN_add_l x y : wordN P (wordN P x + y) = wordN P (x + y).
Proof. apply Zplus_mod_idemp_l. Qed.

Lemma wordN_add_r x y : wordN P (x + wordN P y) = wordN P (x + y).
Proof. apply Zplus_mod_idemp_r. Qed.

(** A chain of wrapping additions wraps once. *)
Lemma wordN_sum3 x y z w : wordN P (wordN P (wordN P (x + y) + z) + w) = wordN P (x + y + z + w).
Proof. rewrite wordN_add_l, <- !Z.add_assoc, wordN_add_l; f_equal; ring. Qed.

Lemma wordN_sum4 x y z w v :
  wordN P (wordN P (wordN P (wordN P (x + y) + z) + w) + v) = wordN P (x + y + z + w + v).
Proof. rewrite (wordN_sum3 x y z w), wordN_add_l; reflexivity. Qed.

Lemma round_regs_ok p t r :
  round_regs P (nth t (rk P) 0) (fips_Wt P p t) r = fips_round P p t r.
Proof.
  destruct r as [[[[[[[a b] c] d] e] f] g] h]; unfold round_regs, fips_round; cbv zeta.
  rewrite !(wordN_sum4 h (big_S1 P e)), wordN_add_l, !wordN_add_r; reflexivity.
Qed.

(** The interleaved loop computes the schedule and the rounds of the standard. *)
Lemma block_one_ok hs p :
  bytes p -> length p = chunk P -> block_one P hs p = fips_compress P hs p.
Proof.
  intros Hp Hl; unfold block_one; rewrite fips_compress_eq; f_equal.
  pose proof (for_range_ind (fun i '(w, r) =>
    length w = rounds P /\ firstn i w = fips_schedule P p i /\
    r = for_range 0 i (fips_round P p) (regs_of hs)) 0 (rounds P) (round P p)
    (repeat 0 (rounds P), regs_of hs)) as H; cbn [Nat.add] in H.
  destruct (for_range 0 (rounds P) (round P p) _) as [w r]; cbn [snd].
  apply H; clear H w r.
  - rewrite repeat_length; auto.
  - intros i [w r] Hi (Hw & Hs & ->).
    assert (Hnth : forall j, (j < i)%nat -> nth j w 0 = fips_Wt P p j).
    { intros j Hj; rewrite <- (schedule_nth p i j Hj), <- Hs, nth_firstn.
      destruct (Nat.ltb_spec j i); [reflexivity|lia]. }
    unfold round.
    set (wi := if (i <? 16)%nat then load_word P p i else _).
    assert (Hwi : wi = fips_Wt P p i).
    { unfold wi, fips_Wt; cbn [fips_schedule].
      rewrite app_nth2, length_schedule, Nat.sub_diag by (rewrite length_schedule; lia); cbn [nth].
      destruct (Nat.ltb_spec i 16) as [Hlt|Hge]; [apply load_word_ok; assumption|].
      rewrite !Hnth, !schedule_nth by lia; cbv zeta.
      rewrite wordN_sum3; reflexivity. }
    rewrite length_upd, Hw, nth_upd, Nat.eqb_refl, Hwi, round_regs_ok, for_range_S by lia.
    split; [reflexivity|split; [|reflexivity]].
    rewrite (firstn_S_nth _ i 0) by (rewrite length_upd; lia).
    rewrite nth_upd, Nat.eqb_refl by lia.
    replace (firstn i (upd w i (fips_Wt P p i))) with (firstn i w).
    + rewrite Hs; unfold fips_Wt; cbn [fips_schedule].
      rewrite app_nth2, length_schedule, Nat.sub_diag by (rewrite length_schedule; lia).
      reflexivity.
    + apply (nth_ext _ _ 0 0); rewrite !length_firstn, ?length_upd; [reflexivity|].
      intros j Hj; rewrite !nth_firstn, nth_upd by lia.
      destruct (Nat.ltb_spec j i), (Nat.eqb_spec j i); lia || reflexivity.
Qed.
End Rounds.

(** ** Streaming *)

Section Streaming.
Context (P : sha_params) {HP : ShaOk P}.

Lemma chunk_pos : (0 < chunk P)%nat.
Proof. destruct ok_word as (n & Hn & _ & ->); lia. Qed.

(** More fuel than the length changes nothing. *)
Lemma block_loop_fuel f hs p :
  (length p <= f)%nat -> block_loop P f hs p = block_loop P (length p) hs p.
Proof.
  pose proof chunk_pos as Hc.
  enough (H : forall n f f' hs p, (length p <= n)%nat -> (length p <= f)%nat -> (length p <= f')%nat ->
    block_loop P f hs p = block_loop P f' hs p) by (intros; apply (H (length p)); lia).
  clear f hs p; induction n as [|n IH]; intros f f' hs p Hn Hf Hf'.
  - destruct p; [|cbn in Hn; lia].
    destruct f, f'; cbn [block_loop length]; try destruct (Nat.leb_spec (chunk P) 0); lia || reflexivity.
  - destruct f as [|f], f' as [|f'].
    + reflexivity.
    + destruct p; [|cbn in Hf; lia]; cbn [block_loop length].
      destruct (Nat.leb_spec (chunk P) 0); [lia|reflexivity].
    + destruct p; [|cbn in Hf'; lia]; cbn [block_loop length].
      destruct (Nat.leb_spec (chunk P) 0); [lia|reflexivity].
    + cbn [block_loop]; destruct (Nat.leb_spec (chunk P) (length p)); [|reflexivity].
      apply IH; rewrite length_skipn; lia.
Qed.

Lemma Block_eq hs p :
  Block P hs p =
  if (chunk P <=? length p)%nat
  then Block P (block_one P hs (firstn (chunk P) p)) (skipn (chunk P) p) else hs.
Proof.
  pose proof chunk_pos as Hc; unfold Block; destruct p as [|x p].
  - cbn [length block_loop]; destruct (Nat.leb_spec (chunk P) 0); [lia|reflexivity].
  - cbn [length]; cbn [block_loop]; cbn [length]; destruct (Nat.leb_spec (chunk P) (S (length p))); [|reflexivity].
    apply block_loop_fuel; rewrite length_skipn; cbn [length]; lia.
Qed.

Lemma Block_short hs p : (length p < chunk P)%nat -> Block P hs p = hs.
Proof. intros H; rewrite Block_eq; destruct (Nat.leb_spec (chunk P) (length p)); [lia|reflexivity]. Qed.

(** Whole blocks can be absorbed in any grouping. *)
Lemma Block_app k hs p q :
  length p = (k * chunk P)%nat -> Block P hs (p ++ q) = Block P (Block P hs p) q.
Proof.
  pose proof chunk_pos as Hc; revert hs p; induction k as [|k IH]; intros hs p Hl.
  - destruct p; [|discriminate Hl]; reflexivity.
  - rewrite (Block_eq hs (p ++ q)), (Block_eq hs p), length_app.
    destruct (Nat.leb_spec (chunk P) (length p + length q)); [|lia].
    destruct (Nat.leb_spec (chunk P) (length p)); [|lia].
    rewrite firstn_app, skipn_app.
    replace (chunk P - length p)%nat with 0%nat by lia; rewrite firstn_O, app_nil_r, skipn_O.
    apply IH; rewrite length_skipn; lia.
Qed.

(** The multiple of the block size below a length, by the source's mask. *)
Lemma mask_chunk n :
  Z.to_nat (Z.ldiff (Z.of_nat n) (Z.of_nat (chunk P) - 1)) = (n / chunk P * chunk P)%nat.
Proof.
  destruct ok_chunk as (k & Hk & Ek); rewrite Ek.
  replace (2 ^ k - 1) with (Z.ones k) by (rewrite Z.ones_equiv; lia).
  rewrite Z.ldiff_ones_r, Z.shiftr_div_pow2, Z.shiftl_mul_pow2, <- Ek by exact Hk.
  rewrite <- Nat2Z.inj_div, <- Nat2Z.inj_mul, Nat2Z.id; reflexivity.
Qed.

(** Digest state [d] has absorbed the message [m]: the whole blocks are in the chaining
    value, the rest is at the front of the buffer. *)
Definition whole (m : list Z) : nat := (length m / chunk P * chunk P)%nat.

Record absorbed (d : SHA) (m : list Z) : Prop := {
  ab_h : sh d = Block P (h_init P) (firstn (whole m) m);
  ab_nx : snx d = (length m mod chunk P)%nat;
  ab_x : firstn (snx d) (sx d) = skipn (whole m) m;
  ab_buf : length (sx d) = chunk P;
  ab_len : slen d = u64 (Z.of_nat (length m));
}.

Lemma whole_le m : (whole m <= length m)%nat.
Proof. unfold whole; pose proof (Nat.div_mod_eq (length m) (chunk P)); lia. Qed.

Lemma whole_rest m : length (skipn (whole m) m) = (length m mod chunk P)%nat.
Proof.
  pose proof chunk_pos; rewrite length_skipn; unfold whole.
  pose proof (Nat.div_mod_eq (length m) (chunk P)); lia.
Qed.

Lemma whole_app k p q :
  length p = (k * chunk P)%nat -> whole (p ++ q) = (length p + whole q)%nat.
Proof.
  pose proof chunk_pos; intros Hp; unfold whole; rewrite length_app, Hp.
  rewrite Nat.div_add_l by lia; lia.
Qed.

Lemma firstn_whole_app k p q :
  length p = (k * chunk P)%nat -> firstn (whole (p ++ q)) (p ++ q) = p ++ firstn (whole q) q.
Proof. intros Hp; rewrite (whole_app k p q Hp); apply firstn_app_2. Qed.

Lemma skipn_whole_app k p q :
  length p = (k * chunk P)%nat -> skipn (whole (p ++ q)) (p ++ q) = skipn (whole q) q.
Proof.
  intros Hp; rewrite (whole_app k p q Hp), skipn_app.
  rewrite skipn_all2 by lia; cbn [app]; f_equal; lia.
Qed.

Lemma copy_at_0 dst src :
  (length src <= length dst)%nat ->
  copy_at dst 0 src = (src ++ skipn (length src) dst, length src).
Proof.
  intros H; unfold copy_at; rewrite Nat.sub_0_r, Nat.min_r, firstn_all by exact H; reflexivity.
Qed.

(** Absorbing [p] on a block boundary. *)
Lemma write_rest_ok hs x nx p :
  length x = chunk P -> nx = 0%nat ->
  let '(hs', x', nx') := write_rest P hs x nx p in
  hs' = Block P hs (firstn (whole p) p) /\ nx' = (length p mod chunk P)%nat /\
  firstn nx' x' = skipn (whole p) p /\ length x' = chunk P.
Proof.
  intros Hx ->; unfold write_rest; rewrite mask_chunk; fold (whole p); cbv zeta.
  pose proof chunk_pos as Hc; pose proof (whole_rest p) as Hr.
  pose proof (Nat.mod_upper_bound (length p) (chunk P) ltac:(lia)) as Hm.
  assert (E : (if (0 <? whole p)%nat then (Block P hs (firstn (whole p) p), skipn (whole p) p)
               else (hs, p)) = (Block P hs (firstn (whole p) p), skipn (whole p) p)).
  { destruct (Nat.ltb_spec 0 (whole p)) as [|H0]; [reflexivity|].
    replace (whole p) with 0%nat by lia; rewrite firstn_O, skipn_O, Block_short by (cbn; lia).
    reflexivity. }
  rewrite E; set (r := skipn (whole p) p) in *; rewrite <- Hr in *.
  destruct (Nat.ltb_spec 0 (length r)) as [H0|H0].
  - rewrite copy_at_0 by lia.
    split; [reflexivity|split; [reflexivity|]]; rewrite length_app, length_skipn, Hx.
    rewrite firstn_app, Nat.sub_diag, firstn_O, app_nil_r, firstn_all; split; [reflexivity|lia].
  - assert (r = []) as -> by (apply length_zero_iff_nil; lia).
    split; [reflexivity|split; [reflexivity|split; [reflexivity|exact Hx]]].
Qed.

Lemma u64_add_l x y : u64 (u64 x + y) = u64 (x + y).
Proof. apply Zplus_mod_idemp_l. Qed.

(** Splitting off the whole blocks of [m]: what follows is the buffered tail. *)
Lemma whole_tail m p :
  let r := skipn (whole m) m in
  firstn (whole (m ++ p)) (m ++ p) = firstn (whole m) m ++ firstn (whole (r ++ p)) (r ++ p) /\
  skipn (whole (m ++ p)) (m ++ p) = skipn (whole (r ++ p)) (r ++ p) /\
  (length (m ++ p) mod chunk P)%nat = (length (r ++ p) mod chunk P)%nat.
Proof.
  intros r; pose proof chunk_pos as Hc.
  assert (Lw : length (firstn (whole m) m) = (length m / chunk P * chunk P)%nat)
    by (rewrite length_firstn; pose proof (whole_le m); unfold whole in *; lia).
  assert (Emp : m ++ p = firstn (whole m) m ++ (r ++ p))
    by (rewrite app_assoc; unfold r; rewrite firstn_skipn; reflexivity).
  set (w := firstn (whole m) m) in *; clearbody w r.
  rewrite Emp, (firstn_whole_app _ _ _ Lw), (skipn_whole_app _ _ _ Lw).
  split; [reflexivity|split; [reflexivity|]].
  rewrite length_app, Lw, Nat.add_comm, Nat.Div0.mod_add; reflexivity.
Qed.

Lemma whole_short r : (length r < chunk P)%nat -> whole r = 0%nat.
Proof. intros H; unfold whole; rewrite Nat.div_small by exact H; reflexivity. Qed.

Lemma whole_len m : length (firstn (whole m) m) = (length m / chunk P * chunk P)%nat.
Proof. rewrite length_firstn; pose proof (whole_le m); unfold whole in *; lia. Qed.

(** The first part of [Write] on a partly filled buffer holding [r]. *)
Lemma write_fill_ok d p r :
  (0 < snx d)%nat -> (snx d < chunk P)%nat -> length (sx d) = chunk P ->
  r = firstn (snx d) (sx d) -> length r = snx d ->
  let n := Nat.min (chunk P - snx d) (length p) in
  (length (r ++ p) < chunk P)%nat /\
    (exists x, write_fill P d p = (sh d, x, (snx d + length p)%nat, []) /\
      length x = chunk P /\ firstn (snx d + length p) x = r ++ p)
  \/ (exists x, write_fill P d p = (Block P (sh d) x, x, 0%nat, skipn n p) /\
      length x = chunk P /\ r ++ p = x ++ skipn n p).
Proof.
  intros H0 Hlt Hb Er Lr n; unfold write_fill, copy_at; rewrite Hb, <- Er; fold n.
  destruct (Nat.ltb_spec 0 (snx d)); [|lia].
  destruct (Nat.eqb_spec (snx d + n) (chunk P)) as [E|E].
  - right; rewrite (skipn_all2 (sx d)), app_nil_r by lia.
    exists (r ++ firstn n p); split; [reflexivity|].
    rewrite length_app, length_firstn, Lr; split; [lia|].
    rewrite <- app_assoc, firstn_skipn; reflexivity.
  - left; assert (Hs : (snx d + length p < chunk P)%nat) by lia.
    assert (n = length p) as -> by lia.
    rewrite firstn_all, skipn_all, length_app, Lr; split; [lia|].
    exists (r ++ p ++ skipn (snx d + length p) (sx d)); split; [reflexivity|].
    rewrite !length_app, length_skipn, Hb, Lr; split; [lia|].
    rewrite app_assoc, firstn_app, firstn_all2, length_app, Lr, Nat.sub_diag, firstn_O, app_nil_r
      by (rewrite length_app; lia); reflexivity.
Qed.

(** [Write] absorbs. *)
Lemma Write_absorbed d m p : absorbed d m -> absorbed (Write P d p) (m ++ p).
Proof.
  intros [Hh Hn Hx Hb Hl]; pose proof chunk_pos as Hc.
  pose proof (Nat.mod_upper_bound (length m) (chunk P) ltac:(lia)) as Hm.
  pose proof (whole_rest m) as Hr; rewrite <- Hn in Hr.
  pose proof (whole_len m) as Lw; destruct (whole_tail m p) as (W1 & W2 & W3).
  set (r := skipn (whole m) m) in *; set (w := firstn (whole m) m) in *; clearbody r w.
  assert (Elen : u64 (slen d + Z.of_nat (length p)) = u64 (Z.of_nat (length (m ++ p))))
    by (rewrite Hl, u64_add_l, length_app, Nat2Z.inj_add; reflexivity).
  unfold Write; rewrite Elen.
  destruct (Nat.eq_dec (snx d) 0) as [H0|H0].
  - assert (r = []) as -> by (apply length_zero_iff_nil; lia).
    unfold write_fill; rewrite H0; cbn [Nat.ltb Nat.leb app] in *.
    pose proof (write_rest_ok (sh d) (sx d) 0 p Hb eq_refl) as H.
    destruct (write_rest P (sh d) (sx d) 0 p) as [[hs x] nx]; destruct H as (-> & -> & Ex & Lx).
    split; cbn [sh sx snx slen]; auto; [|rewrite W2; exact Ex].
    rewrite Hh, W1; symmetry; apply (Block_app _ _ _ _ Lw).
  - destruct (write_fill_ok d p r ltac:(lia) ltac:(lia) Hb (eq_sym Hx) Hr)
      as [(Hs & x & -> & Lx & Ex)|(x & -> & Lx & Ex)].
    + rewrite (whole_short _ Hs) in *; cbn [firstn skipn] in *; rewrite app_nil_r in W1.
      assert (Ew : write_rest P (sh d) x (snx d + length p) [] = (sh d, x, (snx d + length p)%nat)).
      { unfold write_rest; rewrite mask_chunk; cbn [length]; rewrite Nat.div_small by lia; reflexivity. }
      rewrite Ew; split; cbn [sh sx snx slen]; auto; try congruence.
      rewrite W3, Nat.mod_small by exact Hs; rewrite length_app; lia.
    + set (q := skipn _ p) in *.
      pose proof (write_rest_ok (Block P (sh d) x) x 0 q Lx eq_refl) as H.
      destruct (write_rest P (Block P (sh d) x) x 0 q) as [[hs x'] nx]; destruct H as (-> & -> & Ex' & Lx').
      assert (L1 : length x = (1 * chunk P)%nat) by lia.
      rewrite Ex, (firstn_whole_app _ _ _ L1) in W1; rewrite Ex, (skipn_whole_app _ _ _ L1) in W2.
      split; cbn [sh sx snx slen]; auto; [| |rewrite W2; exact Ex'].
      * rewrite Hh, W1, (Block_app _ _ _ _ Lw), (Block_app _ _ _ _ L1); reflexivity.
      * rewrite W3, Ex, length_app, Lx.
        replace (chunk P + length q)%nat with (length q + 1 * chunk P)%nat by lia.
        rewrite Nat.Div0.mod_add; reflexivity.
Qed.

Lemma Reset_absorbed d : length (sx d) = chunk P -> absorbed (Reset P d) [].
Proof.
  intros H; pose proof chunk_pos; unfold Reset; split; cbn [sh sx snx slen length]; auto.
  - rewrite firstn_nil; reflexivity.
  - symmetry; apply Nat.mod_small; lia.
  - rewrite skipn_nil; reflexivity.
Qed.

(** ** Finalisation *)

Lemma store_word_ok v : store_word P v = be_bytes (Z.to_nat (word_bits P / 8)) v.
Proof.
  destruct ok_word as (n & Hn & En & _); unfold store_word; rewrite En.
  replace (Z.to_nat (8 * Z.of_nat n / 8)) with n by (rewrite Z.mul_comm, Z.div_mul by lia; lia).
  apply be_bytes_shift.
Qed.

(** Storing the eight bytes of [x] one by one at offset [o]. *)
Lemma store_length_ok o x (l r : list Z) :
  length r = 8%nat -> length l = o ->
  for_range 0 8 (fun i pad => upd pad (o + i) (u8 (Z.shiftr x (56 - 8 * Z.of_nat i)))) (l ++ r)
  = l ++ be_bytes 8 x.
Proof.
  intros Hr <-; rewrite <- be_bytes_shift.
  do 8 (destruct r as [|? r]; [discriminate|]); destruct r; [|discriminate]; clear Hr.
  assert (U : forall i y (k : list Z), upd (l ++ k) (length l + i) y = l ++ upd k i y)
    by (clear; intros i y k; induction l as [|z l IH]; cbn; [reflexivity|rewrite IH; reflexivity]).
  unfold for_range; cbn [seq fold_left]; rewrite !U; reflexivity.
Qed.

(** [Sum]'s padding is the standard's. *)
Lemma sum_pad_ok m :
  Z.of_nat (length m) < 2 ^ 61 -> m ++ sum_pad P (Z.of_nat (length m)) = fips_pad P m.
Proof.
  intros Hm; unfold fips_pad; f_equal; unfold sum_pad; cbv zeta.
  pose proof ok_len as Hl; pose proof chunk_pos as Hc.
  set (k := Z.to_nat ((Z.of_nat (chunk P) - 1 - _ - _) mod _)).
  replace (Z.to_nat (if _ <? _ then _ else _)) with (S k).
  2:{ unfold k; pose proof (Z.mod_pos_bound (Z.of_nat (length m)) (Z.of_nat (chunk P)) ltac:(lia)) as Hr.
      pose proof (Z_div_mod_eq_full (Z.of_nat (length m)) (Z.of_nat (chunk P))) as Hd.
      set (c := Z.of_nat (chunk P)) in *; set (q := Z.of_nat (length m) / c) in *.
      set (r := Z.of_nat (length m) mod c) in *; rewrite Hd.
      destruct (Z.ltb_spec r (c - Z.of_nat (len_bytes P))).
      - rewrite <- (Z.mod_unique_pos _ c (- q) (c - 1 - Z.of_nat (len_bytes P) - r)); lia.
      - rewrite <- (Z.mod_unique_pos _ c (- q - 1) (c - 1 - Z.of_nat (len_bytes P) - r + c)); lia. }
  assert (Hk : (k < chunk P)%nat).
  { unfold k; pose proof (Z.mod_pos_bound (Z.of_nat (chunk P) - 1 - Z.of_nat (len_bytes P) - Z.of_nat (length m))
      (Z.of_nat (chunk P)) ltac:(lia)); lia. }
  replace (chunk P + len_bytes P)%nat with (S (k + (len_bytes P - 8) + 8 + (chunk P - 1 - k)))%nat by lia.
  cbn [repeat upd]; rewrite !repeat_app, !app_comm_cons, firstn_app.
  replace (S k + len_bytes P)%nat with (length ((128 :: repeat 0 k ++ repeat 0 (len_bytes P - 8)) ++ repeat 0 8))
    by (rewrite length_app; cbn [length]; rewrite length_app, !repeat_length; lia).
  rewrite Nat.sub_diag, firstn_O, app_nil_r, firstn_all, store_length_ok.
  - cbn [app]; rewrite <- app_assoc; do 2 f_equal.
    replace (len_bytes P) with ((len_bytes P - 8) + 8)%nat at 2 by lia.
    rewrite <- (be_bytes_wider _ 8) by apply u64_range.
    change (2 ^ 61) with 2305843009213693952 in Hm.
    rewrite Z.shiftl_mul_pow2 by lia; change (2 ^ 3) with 8.
    rewrite u64_small, Z.mul_comm by (clear -Hm; unword; lia); reflexivity.
  - reflexivity.
  - rewrite length_app; cbn [length]; rewrite !repeat_length; reflexivity.
Qed.

(** Whole blocks, one compression each. *)
Lemma Block_blocks k hs p :
  bytes p -> length p = (k * chunk P)%nat ->
  Block P hs p = fold_left (fips_compress P) (blocks P p) hs.
Proof.
  pose proof chunk_pos as Hc; unfold blocks; revert hs p; induction k as [|k IH]; intros hs p Hp Hl.
  - destruct p; [|discriminate Hl]; cbn [length]; rewrite Nat.Div0.div_0_l; reflexivity.
  - rewrite Block_eq; destruct (Nat.leb_spec (chunk P) (length p)); [|lia].
    rewrite Hl, Nat.div_mul by lia; cbn [seq map fold_left].
    rewrite Nat.mul_0_l, skipn_O, block_one_ok by
      (auto with janos; rewrite length_firstn; lia).
    assert (Hq : length (skipn (chunk P) p) = (k * chunk P)%nat) by (rewrite length_skipn; lia).
    rewrite IH, Hq, Nat.div_mul, <- seq_shift, map_map by (auto with janos; lia).
    f_equal; apply map_ext; intros i; rewrite skipn_skipn; f_equal; f_equal; lia.
Qed.

Lemma fips_pad_len m :
  exists k, length (fips_pad P m) = (k * chunk P)%nat.
Proof.
  pose proof chunk_pos as Hc; pose proof ok_len as Hl; unfold fips_pad.
  rewrite !length_app, repeat_length, length_be_bytes; cbn [length].
  set (c := Z.of_nat (chunk P)).
  set (a := c - 1 - Z.of_nat (len_bytes P) - Z.of_nat (length m)).
  pose proof (Z.mod_pos_bound a c ltac:(lia)); pose proof (Z_div_mod_eq_full a c).
  exists (Z.to_nat (1 - a / c)); apply Nat2Z.inj.
  rewrite Nat2Z.inj_mul, !Nat2Z.inj_add, !Z2Nat.id by nia; fold c; nia.
Qed.

Lemma bytes_fips_pad m : bytes m -> bytes (fips_pad P m).
Proof.
  intros Hm; unfold fips_pad; repeat (apply bytes_app; split); auto with janos.
  - repeat constructor; unword; lia.
  - apply Forall_forall; intros x Hx; apply repeat_spec in Hx as ->; unword; lia.
Qed.

Lemma Sum_ok d m :
  bytes m -> Z.of_nat (length m) < 2 ^ 61 -> absorbed d m -> Sum P d = fips_hash P m.
Proof.
  intros Hb Hm Hd; unfold Sum, fips_hash.
  assert (El : slen d = Z.of_nat (length m)).
  { rewrite (ab_len _ _ Hd); apply u64_small; unword.
    change (2 ^ 61) with 2305843009213693952 in Hm; lia. }
  pose proof (Write_absorbed _ _ (sum_pad P (slen d)) Hd) as Ha; rewrite El, sum_pad_ok in Ha by exact Hm.
  destruct (fips_pad_len m) as [k Hk]; pose proof chunk_pos.
  pose proof (ab_h _ _ Ha) as Eh; rewrite <- El in Eh.
  unfold whole in Eh; rewrite Hk, Nat.div_mul, <- Hk, firstn_all in Eh by lia.
  rewrite Eh, (Block_blocks k) by (auto using bytes_fips_pad).
  apply flat_map_ext, store_word_ok.
Qed.

(** Writing the chunks one after the other. *)
Definition Writes (d : SHA) (ps : list (list Z)) : SHA := fold_left (Write P) ps d.

Lemma Writes_absorbed d m ps : absorbed d m -> absorbed (Writes d ps) (m ++ concat ps).
Proof.
  unfold Writes; revert d m; induction ps as [|p ps IH]; intros d m Hd; cbn [fold_left concat].
  - rewrite app_nil_r; exact Hd.
  - rewrite app_assoc; apply IH, Write_absorbed, Hd.
Qed.

Lemma concat_bytes ps : Forall bytes ps -> bytes (concat ps).
Proof. induction 1; cbn; [constructor|apply bytes_app; split; assumption]. Qed.

(** However the message is split over [Write] calls, the digest is the standard's. *)
Lemma Sum_Writes d ps :
  Forall bytes ps -> Z.of_nat (length (concat ps)) < 2 ^ 61 -> length (sx d) = chunk P ->
  Sum P (Writes (Reset P d) ps) = fips_hash P (concat ps).
Proof.
  intros Hb Hl Hd; apply Sum_ok; [apply concat_bytes, Hb|exact Hl|].
  apply (Writes_absorbed _ []), Reset_absorbed, Hd.
Qed.

Lemma Hash_ok p : bytes p -> Z.of_nat (length p) < 2 ^ 61 -> Hash P p = fips_hash P p.
Proof.
  intros Hb Hl; unfold Hash; apply Sum_ok; [exact Hb|exact Hl|].
  apply (Write_absorbed _ [] p), Reset_absorbed, repeat_length.
Qed.

Lemma length_fips_hash m : length (fips_hash P m) = (8 * Z.to_nat (word_bits P / 8))%nat.
Proof.
  unfold fips_hash; set (f := fips_compress P).
  assert (H : forall l hs, length hs = 8%nat -> length (fold_left f l hs) = 8%nat).
  { induction l as [|b l IH]; intros hs Hs; cbn [fold_left]; [exact Hs|].
    apply IH; unfold f, fips_compress, fips_sum; destruct (for_range _ _ _ _) as [[[[[[[? ?] ?] ?] ?] ?] ?] ?].
    reflexivity. }
  rewrite (flat_map_constant_length (c := Z.to_nat (word_bits P / 8))), H.
  - lia.
  - apply ok_init.
  - intros; apply length_be_bytes.
Qed.

Lemma bytes_fips_hash m : bytes (fips_hash P m).
Proof.
  unfold fips_hash; apply Forall_flat_map, Forall_forall; intros; apply bytes_be_bytes.
Qed.
End Streaming.

(** ** The hashes of the source *)

(** The hash of the standard. *)
Lemma fips_hash_256 m : fips_hash fips_sha256 m = fips_hash sha256_params m.
Proof. rewrite fips_sha256_ok; reflexivity. Qed.
Lemma fips_hash_512 m : fips_hash fips_sha512 m = fips_hash sha512_params m.
Proof. rewrite fips_sha512_ok; reflexivity. Qed.

(** C29: The runtime's SHA-256 and SHA-512 of a message are the FIPS 180-4 digests of it: the
    padding, schedule and rounds of the standard with its rotations, and with the constants
    and initial values it defines, the leading fractional bits of the cube and square roots
    of the first primes. *)
Theorem sha2_fips p :
  bytes p -> Z.of_nat (length p) < 2 ^ 61 ->
  sha256 p = fips_hash fips_sha256 p /\ sha512 p = fips_hash fips_sha512 p.
Proof. intros Hp Hl; rewrite fips_hash_256, fips_hash_512; split; apply Hash_ok; try exact _; assumption. Qed.

Example sha2_fips_witness :
  bytes [0x61; 0x62; 0x63] /\ sha256 [0x61; 0x62; 0x63] = fips_hash fips_sha256 [0x61; 0x62; 0x63].
Proof.
  assert (H : bytes [0x61; 0x62; 0x63]) by (apply bytesb_ok; reflexivity).
  split; [exact H|].
  exact (proj1 (sha2_fips [0x61; 0x62; 0x63] H ltac:(reflexivity))).
Defined.

(** The streaming interface: after [Reset], however a message is split over [Write]
    calls, [Sum] is the digest of the concatenation, whatever the state held before. *)
Theorem sha2_streaming P d ps :
  P = sha256_params \/ P = sha512_params ->
  length (sx d) = chunk P -> Forall bytes ps -> Z.of_nat (length (concat ps)) < 2 ^ 61 ->
  Sum P (fold_left (Write P) ps (Reset P d)) = Hash P (concat ps).
Proof.
  intros HP Hd Hb Hl; assert (ShaOk P) by (destruct HP as [-> | ->]; exact _).
  rewrite Hash_ok by auto using concat_bytes; apply (Sum_Writes P d ps); assumption.
Qed.

Example sha2_streaming_witness :
  let ps := [repeat 7 63; []; repeat 9 66; [1; 2]] in
  Sum sha256_params (fold_left (Write sha256_params) ps (Reset sha256_params (sha_zero sha256_params)))
  = Hash sha256_params (concat ps).
Proof.
  intros ps; apply (sha2_streaming sha256_params (sha_zero sha256_params) ps).
  - left; reflexivity.
  - reflexivity.
  - apply bytesb_all; reflexivity.
  - reflexivity.
Defined.
