(* ===== verification/Kdf.v ===== *)
(** * Kdf: the key derivation behind identities

    The cryptographic half of runtime/janos_identity.go: HMAC-SHA256, the one-block HKDF
    expansion, the derivation of an identity's key pair, and the ECDH key agreement. *)

From Stdlib Require Import String ZArith Lia List Bool Zmod.
From S2P Require Import Prelude Slices MathBits FiatP256 P256Prime P256Field P256Ops P256Invert P256Point P256Scalar P256Curve P256Group Sha2.
Import ListNotations.
#[local] Open Scope Z_scope.

(** ** HMAC and HKDF *)

Definition SHA256Chunk : nat := 64.

Definition sha256_new : SHA := sha_zero sha256_params.

Definition janosHMACSHA256 (key msg : list Z) : list Z :=
  let k := repeat 0 SHA256Chunk in
  let k :=
    if (SHA256Chunk <? length key)%nat
    then copy_into k 0 (sha256_Sum (sha256_Write (sha256_Reset sha256_new) key))
    else copy_into k 0 key in
  let ipad := map (fun b => Z.lxor b 0x36) k in
  let opad := map (fun b => Z.lxor b 0x5C) k in
  let inner := sha256_Write (sha256_Write (sha256_Reset sha256_new) ipad) msg in
  let innerSum := sha256_Sum inner in
  let outer := sha256_Write (sha256_Write (sha256_Reset sha256_new) opad) innerSum in
  sha256_Sum outer.

Definition janosHKDFExpand32 (prk info : list Z) : list Z :=
  let buf := [] in
  let buf := buf ++ info in
  let buf := buf ++ [1] in
  janosHMACSHA256 prk buf.

(** ** Key pairs *)

(** [None] is the result [(zero, zero, false)]. *)
Definition janosP256AffineXY (p : Point Element) : option (list Z * list Z) :=
  if IsInfinity p then None
  else
    let zinv := Element_Invert (pz p) in
    let xa := Element_Mul (px p) zinv in
    let ya := Element_Mul (py p) zinv in
    Some (Element_Bytes xa, Element_Bytes ya).

(** The three throws. *)
Inductive derive_throw : Type := ThrowDerivedTwice | ThrowBaseMult | ThrowInfinity.

(** [for i < 8 { idxBytes[i] = byte(idx >> (i*8)) }] *)
Definition idx_bytes (idx : Z) : list Z :=
  for_range 0 8 (fun i b => upd b i (u8 (Z.shiftr idx (8 * Z.of_nat i)))) (repeat 0 8).

Definition janosDeriveIdentityKey (rootKey : list Z) (idx : Z) : outcome derive_throw (list Z * list Z) :=
  let idxBytes := idx_bytes idx in
  let seed := janosHMACSHA256 rootKey idxBytes in
  let priv :=
    match SetBytesBE seed with
    | None =>
        let reseed := janosHMACSHA256 seed idxBytes in
        match SetBytesBE reseed with
        | None => Fail ThrowDerivedTwice
        | Some _ => Ret reseed
        end
    | Some _ => Ret seed
    end in
  bind priv (fun priv =>
    match ScalarBaseMult priv with
    | None => Fail ThrowBaseMult
    | Some p =>
        match janosP256AffineXY p with
        | None => Fail ThrowInfinity
        | Some (x, y) => Ret (priv, copy_into (copy_into (repeat 0 64) 0 x) 32 y)
        end
    end).

(** ** Key agreement *)

(** The sentinel errors. *)
Inductive identity_error : Type :=
| ErrEmpty
| ErrTampered
| ErrCrossGoroutine
| ErrPeerLen
| ErrPeerInvalid.

Definition identity_error_Error (e : identity_error) : list Z :=
  match e with
  | ErrEmpty => str "identity: empty"
  | ErrTampered => str "identity: struct tampering detected"
  | ErrCrossGoroutine => str "identity: derive called from foreign goroutine"
  | ErrPeerLen => str "identity: peer public point must be 64 bytes"
  | ErrPeerInvalid => str "identity: peer public point is not a valid P-256 point"
  end.

(** The comparison loop over the first [n] bytes from [i]: whether to swap. *)
Fixpoint salt_swap (n : nat) (a b : list Z) (i : nat) : bool :=
  match n with
  | O => false
  | S n =>
      if nth i a 0 <? nth i b 0 then false
      else if nth i b 0 <? nth i a 0 then true
      else salt_swap n a b (S i)
  end.

Definition janosIdentityKDFSalt (a b : list Z) : list Z :=
  let '(first, second) := if salt_swap 64 a b 0 then (b, a) else (a, b) in
  let out := repeat 0 128 in
  copy_into (copy_into out 0 (firstn 64 first)) 64 second.

Definition kdf_info : list Z := str "JanOS-Ambrosia".

Definition janosIdentityECDH (priv ourPub peerBytes : list Z) : outcome identity_error (list Z) :=
  if negb (length peerBytes =? 64)%nat then Fail ErrPeerLen else
  match SetUncompressedBytes peerBytes with
  | None => Fail ErrPeerInvalid
  | Some peer =>
      match ScalarMult peer priv with
      | None => Fail ErrPeerInvalid
      | Some shared =>
          match janosP256AffineXY shared with
          | None => Fail ErrPeerInvalid
          | Some (sx, sy) =>
              let sharedBytes := copy_into (copy_into (repeat 0 64) 0 sx) 32 sy in
              let salt := janosIdentityKDFSalt ourPub peerBytes in
              let prk := janosHMACSHA256 salt sharedBytes in
              let okm := janosHKDFExpand32 prk kdf_info in
              Ret (copy_into (repeat 0 32) 0 okm)
          end
      end
  end.

(** ** Specifications *)

(** RFC 2104 over the FIPS 180-4 hash. *)
Definition sha256_spec : list Z -> list Z := fips_hash fips_sha256.

Definition hmac_key (key : list Z) : list Z :=
  let k := if (64 <? length key)%nat then sha256_spec key else key in k ++ repeat 0 (64 - length k).

Definition hmac_spec (key msg : list Z) : list Z :=
  let k0 := hmac_key key in
  sha256_spec (map (fun b => Z.lxor b 0x5C) k0 ++ sha256_spec (map (fun b => Z.lxor b 0x36) k0 ++ msg)).

(** The 64-byte encoding of an affine point. *)
Definition encode_point (x y : Fp) : list Z := be_bytes 32 (Zmod.to_Z x) ++ be_bytes 32 (Zmod.to_Z y).

(** ** Lemmas *)

Lemma copy_into_start dst src :
  (length src <= length dst)%nat -> copy_into dst 0 src = src ++ skipn (length src) dst.
Proof.
  intros H; unfold copy_into; rewrite Nat.sub_0_r, Nat.min_r, firstn_all by exact H; reflexivity.
Qed.

Lemma sha256_spec_eq m : sha256_spec m = fips_hash sha256_params m.
Proof. apply fips_hash_256. Qed.

Lemma sha256_spec_len m : length (sha256_spec m) = 32%nat.
Proof. rewrite sha256_spec_eq; apply (length_fips_hash sha256_params). Qed.

Lemma sha256_spec_bytes m : bytes (sha256_spec m).
Proof. rewrite sha256_spec_eq; apply bytes_fips_hash. Qed.

Lemma sha256_two a b :
  bytes a -> bytes b -> Z.of_nat (length a + length b) < 2 ^ 61 ->
  sha256_Sum (sha256_Write (sha256_Write (sha256_Reset sha256_new) a) b) = sha256_spec (a ++ b).
Proof.
  intros Ha Hb Hl; rewrite sha256_spec_eq; pose proof (Sum_Writes sha256_params sha256_new [a; b]) as H.
  cbn [concat] in H; rewrite app_nil_r in H; apply H.
  - repeat (constructor; [assumption|]); constructor.
  - rewrite length_app; exact Hl.
  - reflexivity.
Qed.

Lemma sha256_one a :
  bytes a -> Z.of_nat (length a) < 2 ^ 61 ->
  sha256_Sum (sha256_Write (sha256_Reset sha256_new) a) = sha256_spec a.
Proof. intros Ha Hl; rewrite sha256_spec_eq; apply (Hash_ok sha256_params); assumption. Qed.

Lemma bytes_map_lxor c l : is_byte c -> bytes l -> bytes (map (fun b => Z.lxor b c) l).
Proof.
  intros Hc Hl; apply Forall_map; eapply Forall_impl; [|exact Hl]; cbn; intros; apply byte_lxor; assumption.
Qed.

Lemma hmac_key_len key : length (hmac_key key) = 64%nat.
Proof.
  unfold hmac_key; destruct (Nat.ltb_spec 64 (length key));
    rewrite length_app, repeat_length, ?sha256_spec_len; lia.
Qed.

Lemma bytes_zeros n : bytes (repeat 0 n).
Proof. apply Forall_forall; intros y Hy; apply repeat_spec in Hy as ->; unword; lia. Qed.
#[export] Hint Resolve bytes_zeros sha256_spec_bytes : janos.

Lemma hmac_key_bytes key : bytes key -> bytes (hmac_key key).
Proof.
  intros H; unfold hmac_key; apply bytes_app; split; [|auto with janos].
  destruct (_ <? _)%nat; auto with janos.
Qed.

Lemma hmac_ok key msg :
  bytes key -> bytes msg -> Z.of_nat (length key) < 2 ^ 60 -> Z.of_nat (length msg) < 2 ^ 60 ->
  janosHMACSHA256 key msg = hmac_spec key msg.
Proof.
  intros Hk Hm Lk Lm; unfold janosHMACSHA256, hmac_spec; cbv zeta.
  change (2 ^ 60) with 1152921504606846976 in *.
  assert (E : (if (SHA256Chunk <? length key)%nat
               then copy_into (repeat 0 SHA256Chunk) 0 (sha256_Sum (sha256_Write (sha256_Reset sha256_new) key))
               else copy_into (repeat 0 SHA256Chunk) 0 key) = hmac_key key).
  { unfold hmac_key, SHA256Chunk; rewrite sha256_one by (try exact Hk; change (2 ^ 61) with 2305843009213693952; lia).
    destruct (Nat.ltb_spec 64 (length key)); rewrite copy_into_start by (rewrite repeat_length, ?sha256_spec_len; lia);
      f_equal; rewrite ?sha256_spec_len; [reflexivity|].
    replace 64%nat with (length key + (64 - length key))%nat at 1 by lia.
    rewrite repeat_app, skipn_app, repeat_length, Nat.sub_diag, skipn_all2 by (rewrite repeat_length; lia); reflexivity. }
  rewrite E; pose proof (hmac_key_len key) as L; pose proof (hmac_key_bytes key Hk) as B.
  set (k0 := hmac_key key) in *.
  rewrite (sha256_two (map (fun b => Z.lxor b 0x36) k0) msg);
    [|apply bytes_map_lxor; [unword; lia|exact B]|exact Hm|
     rewrite length_map, L; change (2 ^ 61) with 2305843009213693952; lia].
  apply sha256_two; [apply bytes_map_lxor; [unword; lia|exact B]|auto with janos|].
  rewrite length_map, L, sha256_spec_len; reflexivity.
Qed.

Lemma hmac_spec_len key msg : length (hmac_spec key msg) = 32%nat.
Proof. apply sha256_spec_len. Qed.

Lemma hmac_spec_bytes key msg : bytes (hmac_spec key msg).
Proof. apply sha256_spec_bytes. Qed.
#[export] Hint Resolve hmac_spec_bytes : janos.

Lemma idx_bytes_ok idx : idx_bytes idx = le_bytes 8 idx.
Proof. rewrite <- le_bytes_shift; reflexivity. Qed.

(** Affine coordinates of a representative. *)
Lemma AffineXY_rep P p :
  point_rep P p ->
  janosP256AffineXY P =
  match p with
  | None => None
  | Some (x, y) => Some (be_bytes 32 (Zmod.to_Z x), be_bytes 32 (Zmod.to_Z y))
  end.
Proof.
  intros HP; unfold janosP256AffineXY; rewrite (IsInfinity_rep _ _ HP).
  destruct p as [[x y]|]; [|reflexivity].
  destruct HP as [(Hx & Hy & Hz) (Hnz & Ex & Ey & _)]; cbn [px py pz map_fp] in *; cbv zeta.
  assert (H : forall e v, canonical e -> fp e = Zmod.mul v (fp (pz P)) ->
    represents (Element_Mul e (Element_Invert (pz P))) v).
  { intros e v He E; replace v with (Zmod.mul (fp e) (Zmod.inv (fp (pz P)))).
    - apply represents_Mul; [apply represents_fp, He|apply Element_Invert_inv, represents_fp, Hz].
    - rewrite E, <- Zmod.mul_assoc, Zmod.mul_inv_same_r_prime, Zmod.mul_1_r;
        [reflexivity|apply prime_p256|exact Hnz]. }
  destruct (H _ _ Hx Ex) as [Cx Vx], (H _ _ Hy Ey) as [Cy Vy].
  rewrite !Element_Bytes_eq, Vx, Vy by assumption; reflexivity.
Qed.

Lemma copy_pair a b :
  length a = 32%nat -> length b = 32%nat -> copy_into (copy_into (repeat 0 64) 0 a) 32 b = a ++ b.
Proof.
  intros La Lb; rewrite copy_into_start by (rewrite La; cbn; lia); rewrite La.
  change (skipn 32 (repeat 0 64)) with (repeat 0 32 ++ []); rewrite <- La at 2.
  rewrite copy_into_exact by (rewrite Lb; reflexivity); rewrite app_nil_r; reflexivity.
Qed.

(** A fixed-length copy over a fresh slice. *)
Lemma copy_whole n a : length a = n -> copy_into (repeat 0 n) 0 a = a.
Proof.
  intros <-; rewrite copy_into_start by (rewrite repeat_length; lia).
  rewrite skipn_all2 by (rewrite repeat_length; lia); apply app_nil_r.
Qed.

(** *** The salt *)

Lemma salt_swap_sym n a b i :
  (forall j, (i <= j < i + n)%nat -> nth j a 0 = nth j b 0) \/
  salt_swap n a b i = negb (salt_swap n b a i).
Proof.
  revert i; induction n as [|n IH]; intros i; [left; lia|cbn [salt_swap]].
  destruct (Z.ltb_spec (nth i a 0) (nth i b 0)), (Z.ltb_spec (nth i b 0) (nth i a 0)); try lia; auto.
  destruct (IH (S i)) as [H'|H']; [left|right; exact H'].
  intros j Hj; destruct (Nat.eq_dec j i) as [->|]; [lia|apply H'; lia].
Qed.

Lemma salt_swap_eq n a b i :
  (forall j, (i <= j < i + n)%nat -> nth j a 0 = nth j b 0) -> salt_swap n a b i = false.
Proof.
  revert i; induction n as [|n IH]; intros i H; [reflexivity|cbn [salt_swap]].
  rewrite (H i) by lia; rewrite Z.ltb_irrefl; apply IH; intros; apply H; lia.
Qed.

Lemma KDFSalt_cat a b :
  length a = 64%nat -> length b = 64%nat ->
  janosIdentityKDFSalt a b = if salt_swap 64 a b 0 then b ++ a else a ++ b.
Proof.
  intros La Lb; unfold janosIdentityKDFSalt.
  assert (G : forall x y, length x = 64%nat -> length y = 64%nat ->
    copy_into (copy_into (repeat 0 128) 0 (firstn 64 x)) 64 y = x ++ y).
  { intros x y Lx Ly; rewrite firstn_all2 by lia.
    rewrite copy_into_start by (rewrite Lx; cbn; lia); rewrite Lx.
    change (skipn 64 (repeat 0 128)) with (repeat 0 64 ++ []); rewrite <- Lx at 2.
    rewrite copy_into_exact by (rewrite Ly; reflexivity); rewrite app_nil_r; reflexivity. }
  destruct (salt_swap 64 a b 0); apply G; assumption.
Qed.

Lemma KDFSalt_sym a b :
  length a = 64%nat -> length b = 64%nat -> janosIdentityKDFSalt a b = janosIdentityKDFSalt b a.
Proof.
  intros La Lb; rewrite !KDFSalt_cat by assumption.
  destruct (salt_swap_sym 64 a b 0) as [H|H].
  - assert (a = b) as -> by (apply (nth_ext _ _ 0 0); [lia|intros; apply H; lia]); reflexivity.
  - rewrite H; destruct (salt_swap 64 b a 0); reflexivity.
Qed.

(** *** Key derivation and agreement *)

Lemma HKDF_ok prk info :
  bytes prk -> bytes info -> Z.of_nat (length prk) < 2 ^ 60 -> Z.of_nat (length info) < 2 ^ 59 ->
  janosHKDFExpand32 prk info = hmac_spec prk (info ++ [1]).
Proof.
  intros Hp Hi Lp Li; unfold janosHKDFExpand32; cbn [app]; apply hmac_ok; try assumption.
  - apply bytes_app; split; [exact Hi|repeat constructor; unword; lia].
  - rewrite length_app; cbn [length].
    change (2 ^ 60) with 1152921504606846976; change (2 ^ 59) with 576460752303423488 in Li; lia.
Qed.

(** The point a 32-byte scalar gives on a representative. *)
Lemma scalar_point B p k :
  point_rep B p -> bytes k -> length k = 32%nat ->
  exists R, ScalarMult B k = Some R /\
    janosP256AffineXY R =
    match ec_mul (be_val k) p with
    | None => None
    | Some (x, y) => Some (be_bytes 32 (Zmod.to_Z x), be_bytes 32 (Zmod.to_Z y))
    end.
Proof.
  intros HB Hk Lk; destruct (ScalarMult_rep B p k HB Hk Lk) as (R & E & HR).
  exists R; split; [exact E|apply AffineXY_rep, HR].
Qed.

Lemma derive_key_ok rootKey idx :
  bytes rootKey -> length rootKey = 32%nat ->
  janosDeriveIdentityKey rootKey idx =
  let seed := hmac_spec rootKey (le_bytes 8 idx) in
  match ec_mul (be_val seed) ec_G with
  | None => Fail ThrowInfinity
  | Some (x, y) => Ret (seed, encode_point x y)
  end.
Proof.
  intros Hr Lr; unfold janosDeriveIdentityKey; rewrite idx_bytes_ok.
  rewrite (hmac_ok rootKey) by (auto with janos; rewrite ?Lr, ?length_le_bytes; reflexivity).
  set (seed := hmac_spec rootKey (le_bytes 8 idx)).
  assert (Hs : bytes seed) by (unfold seed; auto with janos).
  assert (Ls : length seed = 32%nat) by apply hmac_spec_len.
  pose proof (SetBytesBE_rep seed Hs) as R; destruct (SetBytesBE seed); [|contradiction].
  cbn [bind]; destruct (scalar_point _ _ seed point_rep_Generator Hs Ls) as (P & E & EP).
  unfold ScalarBaseMult; rewrite E, EP; destruct (ec_mul _ _) as [[x y]|]; [|reflexivity].
  rewrite copy_pair by apply length_be_bytes; reflexivity.
Qed.

(** What a successful agreement returns. *)
Definition ecdh_output (ourPub peer : list Z) (x y : Fp) : list Z :=
  hmac_spec (hmac_spec (janosIdentityKDFSalt ourPub peer) (encode_point x y)) (kdf_info ++ [1]).

Lemma encode_point_wf x y : bytes (encode_point x y) /\ length (encode_point x y) = 64%nat.
Proof.
  unfold encode_point; split; [apply bytes_app; split; auto with janos|].
  rewrite length_app, !length_be_bytes; reflexivity.
Qed.

Lemma KDFSalt_wf a b :
  bytes a -> bytes b -> length a = 64%nat -> length b = 64%nat ->
  bytes (janosIdentityKDFSalt a b) /\ length (janosIdentityKDFSalt a b) = 128%nat.
Proof.
  intros Ha Hb La Lb; rewrite KDFSalt_cat by assumption.
  destruct (salt_swap 64 a b 0); rewrite length_app, La, Lb; (split; [apply bytes_app; auto|reflexivity]).
Qed.

Lemma ecdh_ok priv ourPub peer :
  bytes priv -> length priv = 32%nat -> bytes ourPub -> length ourPub = 64%nat ->
  bytes peer -> pubkey_accepted peer ->
  janosIdentityECDH priv ourPub peer =
  match ec_mul (be_val priv) (pubkey_point peer) with
  | None => Fail ErrPeerInvalid
  | Some (x, y) => Ret (ecdh_output ourPub peer x y)
  end.
Proof.
  intros Hp Lp Ho Lo Hq Ha; unfold janosIdentityECDH.
  destruct (Ha) as (Lq & _); destruct (Nat.eqb_spec (length peer) 64); [cbn [negb]|contradiction].
  pose proof (SetUncompressedBytes_rep peer Hq) as R.
  destruct (SetUncompressedBytes peer) as [B|]; [|contradiction].
  destruct (scalar_point _ _ priv (proj2 R) Hp Lp) as (P & E & EP); rewrite E, EP.
  destruct (ec_mul _ _) as [[x y]|]; [|reflexivity].
  rewrite copy_pair by apply length_be_bytes; fold (encode_point x y); cbv zeta; f_equal.
  destruct (KDFSalt_wf ourPub peer Ho Hq Lo Lq) as [Bs Ls].
  destruct (encode_point_wf x y) as [Be Le].
  rewrite (hmac_ok _ _ Bs Be) by (rewrite ?Ls, ?Le; reflexivity).
  rewrite HKDF_ok; [|auto with janos|apply bytes_str|rewrite hmac_spec_len; reflexivity|reflexivity].
  rewrite (copy_whole 32) by apply hmac_spec_len; unfold ecdh_output; reflexivity.
Qed.

(** ** Properties *)

(** C34: HMAC-SHA256 and the HKDF expansion are RFC 2104 and RFC 5869 over the FIPS hash,
    for keys on both sides of the block size. *)
Theorem hmac_hkdf_correct key msg :
  bytes key -> bytes msg -> Z.of_nat (length key) < 2 ^ 60 -> Z.of_nat (length msg) < 2 ^ 59 ->
  janosHMACSHA256 key msg = hmac_spec key msg /\
  janosHKDFExpand32 key msg = hmac_spec key (msg ++ [1]).
Proof.
  intros Hk Hm Lk Lm; split; [apply hmac_ok; try assumption|apply HKDF_ok; assumption].
  change (2 ^ 60) with 1152921504606846976; change (2 ^ 59) with 576460752303423488 in Lm; lia.
Qed.

(** RFC 4231, test case 2. *)
Lemma hmac_hkdf_correct_witness :
  hmac_spec (str "Jefe") (str "what do ya want for nothing?") =
  be_bytes 32 0x5BDCC146BF60754E6A042426089575C75A003F089D2739839DEC58B964EC3843.
Proof.
  rewrite <- (proj1 (hmac_hkdf_correct (str "Jefe") (str "what do ya want for nothing?")
    (bytes_str _) (bytes_str _) eq_refl eq_refl)); vm_compute; reflexivity.
Defined.

(** The key pair of an index: the private key is HMAC(root, index) as it is and the
    public point the encoding of that multiple of the base point; the reseeding branch is
    never taken (a 32-byte string is always a scalar), and the only failure is a seed
    whose multiple is the point at infinity. *)
Theorem identity_key_correct rootKey idx :
  bytes rootKey -> length rootKey = 32%nat ->
  SetBytesBE (janosHMACSHA256 rootKey (idx_bytes idx)) <> None /\
  janosDeriveIdentityKey rootKey idx =
  let seed := hmac_spec rootKey (le_bytes 8 idx) in
  match ec_mul (be_val seed) ec_G with
  | None => Fail ThrowInfinity
  | Some (x, y) => Ret (seed, encode_point x y)
  end.
Proof.
  intros Hr Lr; split; [|apply derive_key_ok; assumption].
  rewrite idx_bytes_ok, (hmac_ok rootKey) by (auto with janos; rewrite ?Lr, ?length_le_bytes; reflexivity).
  pose proof (SetBytesBE_rep _ (hmac_spec_bytes rootKey (le_bytes 8 idx))) as R.
  destruct (SetBytesBE _); [discriminate|contradiction R; apply hmac_spec_len].
Qed.

Lemma identity_key_correct_witness :
  SetBytesBE (janosHMACSHA256 (repeat 7 32) (idx_bytes 5)) <> None.
Proof. apply (identity_key_correct (repeat 7 32) 5); [apply bytesb_ok; reflexivity|reflexivity]. Defined.

(** Key agreement on every branch: another length than 64 and a key the decoder
    refuses are the two errors; otherwise the shared point is the scalar multiple of the
    peer's point, infinity is refused as an invalid peer, and the output is
    HKDF-Expand(HMAC(salt, shared point)). *)
Theorem ecdh_correct priv ourPub peer :
  bytes priv -> length priv = 32%nat -> bytes ourPub -> length ourPub = 64%nat -> bytes peer ->
  (length peer <> 64%nat -> janosIdentityECDH priv ourPub peer = Fail ErrPeerLen) /\
  (length peer = 64%nat -> ~ pubkey_accepted peer ->
     janosIdentityECDH priv ourPub peer = Fail ErrPeerInvalid) /\
  (pubkey_accepted peer ->
     janosIdentityECDH priv ourPub peer =
     match ec_mul (be_val priv) (pubkey_point peer) with
     | None => Fail ErrPeerInvalid
     | Some (x, y) => Ret (ecdh_output ourPub peer x y)
     end).
Proof.
  intros Hp Lp Ho Lo Hq; split; [|split].
  - intros L; unfold janosIdentityECDH; destruct (Nat.eqb_spec (length peer) 64); [contradiction|reflexivity].
  - intros L N; unfold janosIdentityECDH; destruct (Nat.eqb_spec (length peer) 64); [cbn [negb]|contradiction].
    pose proof (SetUncompressedBytes_rep peer Hq) as R.
    destruct (SetUncompressedBytes peer); [contradiction (N (proj1 R))|reflexivity].
  - intros Ha; apply ecdh_ok; assumption.
Qed.

Lemma ecdh_correct_witness :
  janosIdentityECDH (be_bytes 32 2) (repeat 1 64) (repeat 3 63) = Fail ErrPeerLen.
Proof.
  apply (ecdh_correct (be_bytes 32 2) (repeat 1 64) (repeat 3 63));
    [apply bytes_be_bytes|reflexivity|apply bytesb_ok; reflexivity|reflexivity|apply bytesb_ok; reflexivity|discriminate].
Defined.

(** Both sides of an exchange derive the same key whenever their scalar multiples meet
    in the same point: the salt does not depend on who computes it. *)
Theorem ecdh_agreement a A b B x y :
  bytes a -> length a = 32%nat -> bytes b -> length b = 32%nat ->
  bytes A -> bytes B -> pubkey_accepted A -> pubkey_accepted B ->
  ec_mul (be_val a) (pubkey_point B) = Some (x, y) -> ec_mul (be_val b) (pubkey_point A) = Some (x, y) ->
  janosIdentityECDH a A B = janosIdentityECDH b B A /\ is_ok (janosIdentityECDH a A B) = true.
Proof.
  intros Ha La Hb Lb HA HB PA PB E1 E2.
  rewrite (ecdh_ok a A B Ha La HA (proj1 PA) HB PB), (ecdh_ok b B A Hb Lb HB (proj1 PB) HA PA), E1, E2.
  split; [|reflexivity]; unfold ecdh_output; do 2 f_equal.
  rewrite (KDFSalt_sym A B (proj1 PA) (proj1 PB)); reflexivity.
Qed.

(** Secrets 2 and 1, public keys 2G and G. *)
Definition key_2G : list Z :=
  be_bytes 32 0x7CF27B188D034F7E8A52380304B51AC3C08969E277F21B35A60B48FC47669978 ++
  be_bytes 32 0x7775510DB8ED040293D9AC69F7430DBBA7DADE63CE982299E04B79D227873D1.
Definition key_G : list Z := be_bytes 32 p256Gx ++ be_bytes 32 p256Gy.

Lemma ecdh_agreement_witness :
  janosIdentityECDH (be_bytes 32 2) key_2G key_G = janosIdentityECDH (be_bytes 32 1) key_G key_2G.
Proof.
  assert (P1 : pubkey_accepted key_2G) by (unfold pubkey_accepted, on_curve_Z; vm_compute; intuition discriminate).
  assert (P2 : pubkey_accepted key_G) by (unfold pubkey_accepted, on_curve_Z; vm_compute; intuition discriminate).
  assert (W : forall u v, bytes (be_bytes 32 u ++ be_bytes 32 v))
    by (intros; apply bytes_app; split; apply bytes_be_bytes).
  refine (proj1 (ecdh_agreement (be_bytes 32 2) key_2G (be_bytes 32 1) key_G
    (Zmod.of_Z p256 (be_val (firstn 32 key_2G))) (Zmod.of_Z p256 (be_val (skipn 32 key_2G)))
    (bytes_be_bytes _ _) (length_be_bytes _ _) (bytes_be_bytes _ _) (length_be_bytes _ _)
    (W _ _) (W _ _) P1 P2 _ _)).
  - vm_compute; reflexivity.
  - vm_compute; reflexivity.
Defined.
