(* ===== verification/CertSlot.v ===== *)
(** * CertSlot: the JANOSCRT slot's wire format

    The encoder of cmd/janos/certslot (used by the linker) and the decoder of
    runtime/janos_cert_verify.go, over the same 2048-byte slot. *)

From Stdlib Require Import String ZArith Lia List Bool.
From S2P Require Import Prelude Slices.
Import ListNotations.

(** ** Layout *)

Definition SlotSize : nat := 2048.
Definition Magic : list Z := str "JANOSCRT".
Definition MagicSize : nat := 8.
Definition Version : Z := 1.
Definition HeaderSize : nat := 16.
Definition EntrySize : nat := 200.
Definition MaxEntries : nat := 8.

Definition LevelGuild : Z := 0.
Definition LevelRelease : Z := 1.
Definition LevelUser : Z := 2.
Definition LevelEmpty : Z := 0xFF.

(** A certificate, [certslot.Certificate] and [runtime.Certificate] (the two structs have
    the same fields). *)
Record Certificate : Type := MkCert {
  Level : Z;
  RevokeEpoch : Z;
  SignerPubKey : list Z;
  ParentCert : list Z;
  Signature : list Z;
}.

(** The Go types of the fields. *)
Record cert_wf (c : Certificate) : Prop := {
  wf_level : is_byte (Level c);
  wf_epoch : is_u32 (RevokeEpoch c);
  wf_pk : bytes (SignerPubKey c) /\ length (SignerPubKey c) = 64%nat;
  wf_parent : bytes (ParentCert c) /\ length (ParentCert c) = 64%nat;
  wf_sig : bytes (Signature c) /\ length (Signature c) = 64%nat;
}.

(** [Certificate{}] *)
Definition cert_zero : Certificate := MkCert 0 0 (repeat 0 64) (repeat 0 64) (repeat 0 64).

(** ** EncodeSlot *)

Definition entry_base (i : nat) : nat := HeaderSize + i * EntrySize.

(** The writes for one entry. *)
Definition write_entry (slot : list Z) (i : nat) (e : Certificate) : list Z :=
  let base := entry_base i in
  let slot := upd slot base (Level e) in
  let slot := upd slot (base + 1) (u8 (RevokeEpoch e)) in
  let slot := upd slot (base + 2) (u8 (Z.shiftr (RevokeEpoch e) 8)) in
  let slot := upd slot (base + 3) (u8 (Z.shiftr (RevokeEpoch e) 16)) in
  let slot := copy_into slot (base + 8) (firstn 64 (SignerPubKey e)) in
  let slot := copy_into slot (base + 72) (firstn 64 (ParentCert e)) in
  copy_into slot (base + 136) (firstn 64 (Signature e)).

(** [for i, e := range entries { if i >= MaxEntries { break }; ... }] *)
Fixpoint write_entries (slot : list Z) (i : nat) (entries : list Certificate) : list Z :=
  match entries with
  | [] => slot
  | e :: entries =>
      if (MaxEntries <=? i)%nat then slot else write_entries (write_entry slot i e) (S i) entries
  end.

Definition EncodeSlot (entries : list Certificate) : list Z :=
  let slot := repeat 0 SlotSize in
  let slot := copy_into slot 0 (firstn MagicSize Magic) in
  let slot := upd slot 8 Version in
  let slot := upd slot 9 (u8 (Z.of_nat (length entries))) in
  let slot := for_range 0 MaxEntries (fun i slot => upd slot (entry_base i) LevelEmpty) slot in
  write_entries slot 0 entries.

(** ** The runtime's decoder *)

Definition janosCertSlotStorageSize : nat := 2048.

Record janosCertEntry : Type := MkEntry {
  e_level : Z;
  e_revokeEpoch : Z;
  e_signerPK : list Z;
  e_parentCert : list Z;
  e_signature : list Z;
}.

(** [decodeJanosEntry]: [None] is the result [(janosCertEntry{}, false)]. *)
Definition decodeJanosEntry (slot : list Z) (idx : Z) : option janosCertEntry :=
  if (idx <? 0) || (Z.of_nat MaxEntries <=? idx) then None else
  let base := Z.of_nat HeaderSize + idx * Z.of_nat EntrySize in
  if Z.of_nat (length slot) <? base + Z.of_nat EntrySize then None else
  let at_ k := nth (Z.to_nat base + k) slot 0 in
  let sub lo n := firstn n (skipn (Z.to_nat base + lo) slot) in
  Some (MkEntry (at_ 0%nat)
          (Z.lor (Z.lor (at_ 1%nat) (u32 (Z.shiftl (at_ 2%nat) 8))) (u32 (Z.shiftl (at_ 3%nat) 16)))
          (sub 8%nat 64%nat) (sub 72%nat 64%nat) (sub 136%nat 64%nat)).

Definition checkJanosSlotHeader (slot : list Z) : bool :=
  if (length slot <? HeaderSize)%nat then false else
  if forallb (fun i => nth i slot 0 =? nth i Magic 0) (seq 0 MagicSize)
  then nth 8 slot 0 =? Version else false.

(** ** The layout as a concatenation *)

Definition entry_bytes (e : Certificate) : list Z :=
  Level e :: le_bytes 3 (RevokeEpoch e) ++ repeat 0 4 ++ SignerPubKey e ++ ParentCert e ++ Signature e.

Definition empty_entry : list Z := LevelEmpty :: repeat 0 (EntrySize - 1).

Definition header (n : nat) : list Z := Magic ++ Version :: u8 (Z.of_nat n) :: repeat 0 6.

Definition slot_layout (entries : list Certificate) : list Z :=
  header (length entries) ++ flat_map entry_bytes (firstn MaxEntries entries) ++
  concat (repeat empty_entry (MaxEntries - length entries)) ++ repeat 0 432.

Lemma upd_app (l k : list Z) i x : upd (l ++ k) (length l + i) x = l ++ upd k i x.
Proof. induction l as [|y l IH]; cbn; [reflexivity|rewrite IH; reflexivity]. Qed.

Lemma copy_into_app (l k : list Z) i src :
  copy_into (l ++ k) (length l + i) src = l ++ copy_into k i src.
Proof.
  unfold copy_into; rewrite firstn_app_2, <- app_assoc; f_equal.
  rewrite length_app; replace (length l + length k - (length l + i))%nat with (length k - i)%nat by lia.
  do 2 f_equal; rewrite <- Nat.add_assoc, skipn_app, skipn_all2 by lia; cbn [app]; f_equal; lia.
Qed.

Lemma length_entry_bytes e : cert_wf e -> length (entry_bytes e) = EntrySize.
Proof.
  intros H; unfold entry_bytes; cbn [length]; rewrite !length_app, length_le_bytes, repeat_length.
  rewrite (proj2 (wf_pk _ H)), (proj2 (wf_parent _ H)), (proj2 (wf_sig _ H)); reflexivity.
Qed.

(** Writing one entry over an empty one. *)
Lemma write_entry_ok pre post i e :
  cert_wf e -> length pre = entry_base i ->
  write_entry (pre ++ empty_entry ++ post) i e = pre ++ entry_bytes e ++ post.
Proof.
  intros H Hl; destruct (wf_pk _ H) as [_ H1], (wf_parent _ H) as [_ H2], (wf_sig _ H) as [_ H3].
  unfold write_entry; rewrite <- Hl; cbv zeta; rewrite !firstn_all2 by lia.
  rewrite <- (Nat.add_0_r (length pre)) at 1; rewrite !upd_app, !copy_into_app; f_equal.
  change (empty_entry ++ post) with
    (0xFF :: 0 :: 0 :: 0 :: repeat 0 4 ++ (repeat 0 64 ++ repeat 0 64 ++ repeat 0 64) ++ post); cbn [upd].
  unfold entry_bytes; set (hd := Level e :: _).
  replace (le_bytes 3 (RevokeEpoch e)) with
    [u8 (RevokeEpoch e); u8 (Z.shiftr (RevokeEpoch e) 8); u8 (Z.shiftr (RevokeEpoch e) 16)]
    by (rewrite <- le_bytes_shift; cbn [map seq]; rewrite Z.shiftr_0_r; reflexivity).
  pose (h8 := [Level e; u8 (RevokeEpoch e); u8 (Z.shiftr (RevokeEpoch e) 8);
               u8 (Z.shiftr (RevokeEpoch e) 16); 0; 0; 0; 0]).
  change hd with (h8 ++ (repeat 0 64 ++ repeat 0 64 ++ repeat 0 64) ++ post).
  rewrite <- !app_assoc.
  assert (put : forall a b c src n, n = length a -> length src = length b ->
    copy_into (a ++ b ++ c) n src = a ++ src ++ c) by (intros; subst; apply copy_into_exact; assumption).
  rewrite (put h8 (repeat 0 64)) by (rewrite ?H1; reflexivity).
  rewrite (app_assoc h8), (put _ (repeat 0 64)) by (rewrite ?length_app, ?H1, ?H2; reflexivity).
  rewrite (app_assoc (h8 ++ _)), (put _ (repeat 0 64)) by (rewrite ?length_app, ?H1, ?H2, ?H3; reflexivity).
  unfold h8; cbn [app repeat]; rewrite <- !app_assoc; reflexivity.
Qed.

Lemma length_flat_entries es : Forall cert_wf es -> length (flat_map entry_bytes es) = (length es * EntrySize)%nat.
Proof.
  intros H; apply flat_map_constant_length.
  intros x Hx; apply length_entry_bytes; eapply Forall_forall; eauto.
Qed.

Lemma length_concat_repeat n : length (concat (repeat empty_entry n)) = (n * EntrySize)%nat.
Proof. induction n as [|n IH]; [reflexivity|]; cbn [repeat concat]; rewrite length_app, IH; reflexivity. Qed.

Lemma write_entries_ok pre tail i es :
  Forall cert_wf es -> length pre = entry_base i -> (i <= MaxEntries)%nat ->
  write_entries (pre ++ concat (repeat empty_entry (MaxEntries - i)) ++ tail) i es =
  pre ++ flat_map entry_bytes (firstn (MaxEntries - i) es) ++
  concat (repeat empty_entry (MaxEntries - i - length es)) ++ tail.
Proof.
  intros H; revert pre i; induction H as [|e es He _ IH]; intros pre i Hl Hi; cbn [write_entries length].
  - rewrite firstn_nil, Nat.sub_0_r; reflexivity.
  - destruct (Nat.leb_spec MaxEntries i) as [Hge|Hlt].
    + replace (MaxEntries - i)%nat with 0%nat by lia; reflexivity.
    + replace (MaxEntries - i)%nat with (S (MaxEntries - S i)) by lia.
      cbn [repeat concat firstn flat_map Nat.sub]; rewrite <- app_assoc, (write_entry_ok pre _ i e He Hl).
      rewrite (app_assoc pre), IH.
      * rewrite <- !app_assoc; reflexivity.
      * rewrite length_app, Hl, (length_entry_bytes _ He); unfold entry_base; lia.
      * lia.
Qed.

(** The encoder's output, byte for byte. *)
Lemma EncodeSlot_layout es : Forall cert_wf es -> EncodeSlot es = slot_layout es.
Proof.
  intros H; unfold EncodeSlot; cbv zeta.
  set (n := u8 (Z.of_nat (length es))).
  replace (for_range 0 MaxEntries _ _)
    with ((Magic ++ Version :: n :: repeat 0 6) ++ concat (repeat empty_entry (MaxEntries - 0)) ++ repeat 0 432)
    by (vm_compute; reflexivity).
  rewrite write_entries_ok by (exact H || reflexivity || lia).
  rewrite Nat.sub_0_r; reflexivity.
Qed.

(** ** Decoding *)

(** What the decoder yields for an encoded entry. *)
Definition decoded (e : Certificate) : janosCertEntry :=
  MkEntry (Level e) (RevokeEpoch e mod 2 ^ 24) (SignerPubKey e) (ParentCert e) (Signature e).

Lemma epoch_bytes x :
  Z.lor (Z.lor (nth 0 (le_bytes 3 x) 0) (u32 (Z.shiftl (nth 1 (le_bytes 3 x) 0) 8)))
    (u32 (Z.shiftl (nth 2 (le_bytes 3 x) 0) 16)) = x mod 2 ^ 24.
Proof.
  change (x mod 2 ^ 24) with (x mod pow256 3); rewrite <- le_val_bytes; cbn [le_bytes nth le_val].
  assert (H : forall y, 0 <= y mod W8 < W8) by (intros; apply Z.mod_pos_bound; lia).
  pose proof (H x); pose proof (H (x / W8)); pose proof (H (x / W8 / W8)).
  rewrite !Z.shiftl_mul_pow2 by lia; change (2 ^ 8) with W8; change (2 ^ 16) with W16.
  rewrite !u32_small by (unword; lia).
  rewrite (lor_add_low _ _ 8), (lor_add_low _ _ 16) by (change (2 ^ 8) with W8; change (2 ^ 16) with W16; lia).
  change (2 ^ 8) with W8; change (2 ^ 16) with W16; lia.
Qed.

Lemma nth_app_off (l k : list Z) j d : nth (length l + j) (l ++ k) d = nth j k d.
Proof. rewrite app_nth2 by lia; f_equal; lia. Qed.

Lemma skipn_app_off (l k : list Z) j : skipn (length l + j) (l ++ k) = skipn j k.
Proof. rewrite skipn_app, skipn_all2 by lia; cbn [app]; f_equal; lia. Qed.

Lemma firstn_skipn_exact (a b c : list Z) n m :
  length a = n -> length b = m -> firstn m (skipn n (a ++ b ++ c)) = b.
Proof.
  intros <- <-; rewrite skipn_app, skipn_all, Nat.sub_diag; cbn [app skipn].
  rewrite firstn_app, Nat.sub_diag, firstn_O, app_nil_r; apply firstn_all.
Qed.

(** Decoding the entry at its place. *)
Lemma decode_at pre post e i :
  cert_wf e -> (i < MaxEntries)%nat -> length pre = entry_base i ->
  decodeJanosEntry (pre ++ entry_bytes e ++ post) (Z.of_nat i) = Some (decoded e).
Proof.
  intros He Hi Hl; pose proof (length_entry_bytes e He) as Le.
  destruct (wf_pk _ He) as [_ H1], (wf_parent _ He) as [_ H2], (wf_sig _ He) as [_ H3].
  unfold decodeJanosEntry.
  destruct (Z.ltb_spec (Z.of_nat i) 0), (Z.leb_spec (Z.of_nat MaxEntries) (Z.of_nat i)); try lia; cbn [orb].
  replace (Z.of_nat HeaderSize + Z.of_nat i * Z.of_nat EntrySize) with (Z.of_nat (length pre))
    by (rewrite Hl; unfold entry_base; lia).
  rewrite !length_app, Le; destruct (Z.ltb_spec (Z.of_nat (length pre + (EntrySize + length post)))
    (Z.of_nat (length pre) + Z.of_nat EntrySize)); [lia|].
  rewrite Nat2Z.id, !nth_app_off, !skipn_app_off; unfold decoded, entry_bytes.
  pose proof (length_le_bytes 3 (RevokeEpoch e)) as L3.
  set (ep := le_bytes 3 (RevokeEpoch e)) in *.
  set (hd := Level e :: ep ++ repeat 0 4).
  assert (Lh : length hd = 8%nat) by (unfold hd; cbn [length]; rewrite length_app, L3; reflexivity).
  replace ((Level e :: ep ++ repeat 0 4 ++ SignerPubKey e ++ ParentCert e ++ Signature e) ++ post)
    with (hd ++ SignerPubKey e ++ ParentCert e ++ Signature e ++ post)
    by (unfold hd; cbn [app]; rewrite <- !app_assoc; reflexivity).
  rewrite (firstn_skipn_exact hd) by assumption.
  rewrite (app_assoc hd), (firstn_skipn_exact (hd ++ _)) by (rewrite ?length_app; lia).
  rewrite (app_assoc (hd ++ _)), (firstn_skipn_exact ((hd ++ _) ++ _)) by (rewrite ?length_app; lia).
  f_equal; f_equal; rewrite <- !app_assoc; unfold hd; cbn [app nth].
  rewrite <- !app_assoc, !app_nth1 by lia; apply epoch_bytes.
Qed.

Lemma decode_empty pre post i :
  (i < MaxEntries)%nat -> length pre = entry_base i ->
  exists e, decodeJanosEntry (pre ++ empty_entry ++ post) (Z.of_nat i) = Some e /\ e_level e = LevelEmpty.
Proof.
  intros Hi Hl; pose (c := MkCert LevelEmpty 0 (repeat 0 64) (repeat 0 64) (repeat 0 64)).
  assert (Hc : cert_wf c).
  { split; unfold c; cbn [Level RevokeEpoch SignerPubKey ParentCert Signature]; try (unword; lia); try (vm_compute; split; [discriminate|reflexivity]);
      (split; [apply bytesb_ok; reflexivity|reflexivity]). }
  exists (decoded c); split; [exact (decode_at pre post c i Hc Hi Hl)|reflexivity].
Qed.

Lemma flat_map_split {A} (f : A -> list Z) (l : list A) i d :
  (i < length l)%nat ->
  flat_map f l = flat_map f (firstn i l) ++ f (nth i l d) ++ flat_map f (skipn (S i) l).
Proof.
  revert i; induction l as [|x l IH]; intros [|i] Hi; cbn in Hi; try lia; [reflexivity|].
  cbn [flat_map firstn nth skipn]; rewrite (IH i) by lia; rewrite <- app_assoc; reflexivity.
Qed.

Lemma length_header n : length (header n) = HeaderSize.
Proof. reflexivity. Qed.

Lemma decode_slot_layout es i :
  Forall cert_wf es -> (i < length es)%nat -> (i < MaxEntries)%nat ->
  decodeJanosEntry (slot_layout es) (Z.of_nat i) = Some (decoded (nth i es cert_zero)).
Proof.
  intros H Hi Hm; unfold slot_layout.
  assert (Hf : Forall cert_wf (firstn MaxEntries es)).
  { apply Forall_forall; intros x Hx; eapply Forall_forall; [exact H|].
    rewrite <- (firstn_skipn MaxEntries es); apply in_or_app; auto. }
  rewrite (flat_map_split _ _ i cert_zero) by (rewrite length_firstn; lia).
  rewrite <- !app_assoc, (app_assoc (header _)), decode_at.
  - rewrite nth_firstn; destruct (Nat.ltb_spec i MaxEntries); [reflexivity|lia].
  - apply (Forall_nth cert_wf); [exact Hf|rewrite length_firstn; lia].
  - exact Hm.
  - rewrite length_app, length_header, length_flat_entries.
    + rewrite !length_firstn; unfold entry_base; lia.
    + apply Forall_forall; intros x Hx; eapply Forall_forall; [exact Hf|].
      rewrite <- (firstn_skipn i (firstn _ _)); apply in_or_app; auto.
Qed.

Lemma decode_slot_empty es i :
  Forall cert_wf es -> (length es <= i)%nat -> (i < MaxEntries)%nat ->
  exists e, decodeJanosEntry (slot_layout es) (Z.of_nat i) = Some e /\ e_level e = LevelEmpty.
Proof.
  intros H Hi Hm; unfold slot_layout.
  replace (MaxEntries - length es)%nat with ((i - length es) + S (MaxEntries - S i))%nat by lia.
  rewrite repeat_app, concat_app; cbn [repeat concat].
  rewrite <- !app_assoc, (app_assoc (header _)), (app_assoc (header _ ++ _)).
  apply decode_empty; [exact Hm|].
  rewrite !length_app, length_header, length_concat_repeat, firstn_all2 by lia.
  rewrite length_flat_entries by exact H; unfold entry_base, EntrySize; lia.
Qed.

Lemma length_slot_layout es :
  Forall cert_wf es -> length (slot_layout es) = SlotSize.
Proof.
  intros H; unfold slot_layout; rewrite !length_app, length_header, length_concat_repeat, repeat_length.
  rewrite length_flat_entries.
  - rewrite length_firstn; unfold SlotSize, HeaderSize, EntrySize, MaxEntries; lia.
  - apply Forall_forall; intros x Hx; eapply Forall_forall; [exact H|].
    rewrite <- (firstn_skipn MaxEntries es); apply in_or_app; auto.
Qed.

Lemma bytes_repeat x n : is_byte x -> bytes (repeat x n).
Proof. intros H; apply Forall_forall; intros y Hy; apply repeat_spec in Hy as ->; exact H. Qed.

Lemma bytes_entry e : cert_wf e -> bytes (entry_bytes e).
Proof.
  intros [Hl _ [H1 _] [H2 _] [H3 _]]; unfold entry_bytes; constructor; [exact Hl|].
  repeat (apply bytes_app; split); auto with janos; apply bytes_repeat; unword; lia.
Qed.

Lemma bytes_slot_layout es : Forall cert_wf es -> bytes (slot_layout es).
Proof.
  intros H; unfold slot_layout, header; repeat (apply bytes_app; split).
  - apply bytesb_ok; reflexivity.
  - constructor; [unword; unfold Version; lia|constructor; [apply u8_range|apply bytes_repeat; unword; lia]].
  - apply Forall_flat_map, Forall_forall; intros x Hx; apply bytes_entry.
    eapply Forall_forall; [exact H|]; rewrite <- (firstn_skipn MaxEntries es); apply in_or_app; auto.
  - apply Forall_concat, Forall_forall; intros x Hx; apply repeat_spec in Hx as ->; apply bytesb_ok; reflexivity.
  - apply bytes_repeat; unword; lia.
Qed.

Lemma check_slot_layout es : checkJanosSlotHeader (slot_layout es) = true.
Proof. reflexivity. Qed.

(** ** Properties *)

(** C30: What the linker encodes the runtime decodes: the slot has the storage size and a
    valid header; the entries come back in order with every field intact except that the
    revocation epoch keeps only its low 24 bits; the unused places decode with the empty
    level; other indices decode to nothing. *)
Theorem EncodeSlot_roundtrip es :
  Forall cert_wf es ->
  let slot := EncodeSlot es in
  length slot = janosCertSlotStorageSize /\ checkJanosSlotHeader slot = true /\
  (forall i, (i < length es)%nat -> (i < MaxEntries)%nat ->
     decodeJanosEntry slot (Z.of_nat i) = Some (decoded (nth i es cert_zero))) /\
  (forall i, (length es <= i < MaxEntries)%nat ->
     exists e, decodeJanosEntry slot (Z.of_nat i) = Some e /\ e_level e = LevelEmpty) /\
  (forall idx, idx < 0 \/ 8 <= idx -> decodeJanosEntry slot idx = None).
Proof.
  intros H slot; subst slot; rewrite (EncodeSlot_layout _ H).
  split; [apply length_slot_layout, H|split; [apply check_slot_layout|split; [|split]]].
  - intros; apply decode_slot_layout; assumption.
  - intros i [? ?]; apply decode_slot_empty; assumption.
  - intros idx Hi; unfold decodeJanosEntry.
    destruct (Z.ltb_spec idx 0), (Z.leb_spec (Z.of_nat MaxEntries) idx); cbn [orb]; auto.
    unfold MaxEntries in *; lia.
Qed.

Lemma cert_zero_wf : cert_wf cert_zero.
Proof.
  split; try (vm_compute; split; [discriminate|reflexivity]);
    (split; [apply bytesb_ok; reflexivity|reflexivity]).
Qed.

Definition demo_cert (l ep : Z) : Certificate :=
  MkCert l ep (repeat 1 64) (repeat 2 64) (repeat 3 64).

Lemma demo_cert_wf l ep : is_byte l -> is_u32 ep -> cert_wf (demo_cert l ep).
Proof.
  intros; split; cbn [Level RevokeEpoch SignerPubKey ParentCert Signature demo_cert];
    try assumption; (split; [apply bytesb_ok; reflexivity|reflexivity]).
Qed.

Lemma EncodeSlot_roundtrip_witness :
  decodeJanosEntry (EncodeSlot [demo_cert 0 5; demo_cert 1 (2 ^ 24 + 9)]) 1
  = Some (MkEntry 1 9 (repeat 1 64) (repeat 2 64) (repeat 3 64)).
Proof.
  assert (H : Forall cert_wf [demo_cert 0 5; demo_cert 1 (2 ^ 24 + 9)])
    by (repeat (constructor; [apply demo_cert_wf; unword; change (2 ^ 24) with 16777216; lia|]); constructor).
  destruct (EncodeSlot_roundtrip _ H) as (_ & _ & D & _).
  exact (D 1%nat ltac:(repeat constructor) ltac:(unfold MaxEntries; lia)).
Defined.

(** Two different certificate lists have the same slot: the encoder drops the high
    byte of a revocation epoch without an error, so epochs that differ by a multiple of
    2^24 cannot be told apart at run time. *)
Theorem EncodeSlot_epoch_truncated es es' :
  Forall cert_wf es -> Forall cert_wf es' ->
  Forall2 (fun c c' => Level c = Level c' /\ SignerPubKey c = SignerPubKey c' /\
             ParentCert c = ParentCert c' /\ Signature c = Signature c' /\
             RevokeEpoch c mod 2 ^ 24 = RevokeEpoch c' mod 2 ^ 24) es es' ->
  EncodeSlot es = EncodeSlot es'.
Proof.
  intros H H' E; rewrite !EncodeSlot_layout by assumption; unfold slot_layout.
  rewrite (Forall2_length E); do 2 f_equal.
  generalize MaxEntries; clear H H'.
  induction E as [|c c' es es' (E0 & E1 & E2 & E3 & E4) _ IH]; intros n; [rewrite firstn_nil; reflexivity|].
  destruct n as [|n]; [reflexivity|]; cbn [firstn flat_map]; rewrite IH; f_equal.
  unfold entry_bytes; rewrite E0, E1, E2, E3.
  change (2 ^ 24) with (pow256 3) in E4; rewrite <- (le_bytes_mod 3 (RevokeEpoch c)), E4, le_bytes_mod; reflexivity.
Qed.

Lemma EncodeSlot_epoch_truncated_witness :
  EncodeSlot [demo_cert 1 7] = EncodeSlot [demo_cert 1 (2 ^ 24 + 7)].
Proof.
  apply EncodeSlot_epoch_truncated.
  - constructor; [apply demo_cert_wf; unword; lia|constructor].
  - constructor; [apply demo_cert_wf; unword; change (2 ^ 24) with 16777216; lia|constructor].
  - constructor; [|constructor]; repeat split; reflexivity.
Defined.
