(* ===== verification/Provenance.v ===== *)
(** * Provenance: the identity carried by every goroutine

    runtime/janos_provenance.go.  The random generator [rand] is an explicit stream of
    64-bit words, consumed from the front. *)

From Stdlib Require Import String ZArith Lia List Bool.
From S2P Require Import Prelude Slices.
Import ListNotations.

(** ** Trust levels *)

Definition TrustLevel : Type := Z.
Definition TrustNone : TrustLevel := 0.
Definition TrustSelfAttested : TrustLevel := 1.
Definition TrustJanosReleased : TrustLevel := 2.
Definition TrustHardwareAttested : TrustLevel := 3.
Definition TrustColonelAttested : TrustLevel := 4.

Definition TrustLevel_String (t : TrustLevel) : list Z :=
  if t =? TrustNone then str "none"
  else if t =? TrustSelfAttested then str "self-attested"
  else if t =? TrustJanosReleased then str "janos-released"
  else if t =? TrustHardwareAttested then str "hardware-attested"
  else if t =? TrustColonelAttested then str "colonel-attested"
  else str "unknown".

(** ** The per-goroutine record

    [identity] is a pointer to an identityBlock: the block's address, or nil.  The
    zero-sized [_self] field and the padding carry no data. *)
Record gProvenance : Type := MkProv {
  instanceID : list Z;
  binaryHash : list Z;
  guildCertID : list Z;
  releaseCertID : list Z;
  identity : option nat;
  trustLevel : TrustLevel;
}.

(** The zero value, what the boot goroutine starts with. *)
Definition prov_zero : gProvenance :=
  MkProv (repeat 0 16) (repeat 0 32) (repeat 0 32) (repeat 0 32) None TrustNone.

(** The exported snapshot. *)
Record Provenance : Type := MkProvenance {
  InstanceID : list Z;
  BinaryHash : list Z;
  GuildCertID : list Z;
  ReleaseCertID : list Z;
  Trust : TrustLevel;
}.

(** The types of the fields. *)
Record prov_wf (p : gProvenance) : Prop := {
  pw_iid : bytes (instanceID p) /\ length (instanceID p) = 16%nat;
  pw_hash : bytes (binaryHash p) /\ length (binaryHash p) = 32%nat;
  pw_guild : bytes (guildCertID p) /\ length (guildCertID p) = 32%nat;
  pw_release : bytes (releaseCertID p) /\ length (releaseCertID p) = 32%nat;
  pw_trust : is_byte (trustLevel p);
}.

(** ** Random words *)

(** [rand()]; an exhausted stream yields zeros. *)
Definition rand (rng : list Z) : Z * list Z :=
  match rng with [] => (0, []) | r :: rng => (r, rng) end.

(** [for i < 8 { dst[o+i] = byte(r >> (8*i)) }] *)
Definition put_word (dst : list Z) (o : nat) (r : Z) : list Z :=
  for_range 0 8 (fun i dst => upd dst (o + i) (u8 (Z.shiftr r (8 * Z.of_nat i)))) dst.

Lemma put_word_ok (l m r : list Z) x :
  length m = 8%nat -> put_word (l ++ m ++ r) (length l) x = l ++ le_bytes 8 x ++ r.
Proof.
  intros H; rewrite <- le_bytes_shift; unfold put_word, for_range.
  assert (U : forall i y (k : list Z), upd (l ++ k) (length l + i) y = l ++ upd k i y)
    by (clear; intros i y k; induction l as [|z l IH]; cbn; [reflexivity|rewrite IH; reflexivity]).
  do 8 (destruct m as [|? m]; [discriminate|]); destruct m; [|discriminate].
  cbn [seq fold_left]; rewrite !U; reflexivity.
Qed.

(** The two interleaved writes of the loop body touch different halves, so each half is a
    [put_word]. *)
Definition two_words (dst : list Z) (hi lo : Z) : list Z :=
  for_range 0 8 (fun i dst =>
    upd (upd dst i (u8 (Z.shiftr hi (8 * Z.of_nat i)))) (8 + i) (u8 (Z.shiftr lo (8 * Z.of_nat i)))) dst.

Lemma two_words_ok dst hi lo :
  length dst = 16%nat -> two_words dst hi lo = le_bytes 8 hi ++ le_bytes 8 lo.
Proof.
  intros H; rewrite <- !le_bytes_shift; unfold two_words, for_range.
  do 16 (destruct dst as [|? dst]; [discriminate|]); destruct dst; [|discriminate].
  reflexivity.
Qed.

(** ** Operations *)

Definition set_instanceID (p : gProvenance) (x : list Z) : gProvenance :=
  MkProv x (binaryHash p) (guildCertID p) (releaseCertID p) (identity p) (trustLevel p).
Definition set_identity (p : gProvenance) (x : option nat) : gProvenance :=
  MkProv (instanceID p) (binaryHash p) (guildCertID p) (releaseCertID p) x (trustLevel p).

Definition janosInitInstanceID (gp : gProvenance) (rng : list Z) : gProvenance * list Z :=
  let '(hi, rng) := rand rng in
  let '(lo, rng) := rand rng in
  (set_instanceID gp (two_words (instanceID gp) hi lo), rng).

Definition janosStoreBinaryHash (gp : gProvenance) (digest : list Z) : gProvenance :=
  MkProv (instanceID gp) digest (guildCertID gp) (releaseCertID gp) (identity gp) TrustSelfAttested.

Definition janosSetGProvenance (gp : gProvenance) (p : Provenance) : gProvenance :=
  MkProv (InstanceID p) (BinaryHash p) (GuildCertID p) (ReleaseCertID p) (identity gp) (Trust p).

Definition CurrentProvenance (gp : gProvenance) : Provenance :=
  MkProvenance (instanceID gp) (binaryHash gp) (guildCertID gp) (releaseCertID gp) (trustLevel gp).

Lemma CurrentProvenance_Set gp p : CurrentProvenance (janosSetGProvenance gp p) = p.
Proof. destruct p; reflexivity. Qed.

Lemma prov_zero_wf : prov_wf prov_zero.
Proof.
  split; try (split; [apply bytesb_ok; reflexivity|reflexivity]).
  vm_compute; split; [discriminate|reflexivity].
Qed.

Lemma janosInitInstanceID_wf gp rng :
  prov_wf gp -> prov_wf (fst (janosInitInstanceID gp rng)).
Proof.
  intros H; unfold janosInitInstanceID.
  destruct (rand rng) as [hi r1], (rand r1) as [lo r2]; cbn [fst].
  destruct H as [[_ Hl] ? ? ? ?]; split; try assumption.
  cbn [instanceID set_instanceID]; rewrite two_words_ok by exact Hl.
  split; [apply bytes_app; split; auto with janos|].
  rewrite length_app, !length_le_bytes; reflexivity.
Qed.
