(* ===== verification/CertVerify.v ===== *)
(** * CertVerify: the chain of trust checked at boot

    runtime/janos_cert_verify.go, janos_cert_revocation.go, janos_certificate.go and the
    gate of janos_cert_slot.go.  The chain walk is written against an interface, a
    signature verifier with a digest; its instance is the runtime's own P-256 verifier
    and SHA-256. *)

From Stdlib Require Import String ZArith Lia List Bool Zmod.
From S2P Require Import Prelude Slices P256Prime Sha2 P256Group EcdsaP256 CertSlot Provenance.
Import ListNotations.

(** ** Interface *)

(** What the chain walk calls. *)
Class SigScheme : Type := {
  verifyRS : list Z -> list Z -> list Z -> bool;
  digest : list Z -> list Z;
}.

(** What it relies on: on well-formed inputs the verifier decides a validity predicate,
    and digests are 32 bytes. *)
Class SigSchemeOk (S : SigScheme) : Type := {
  valid : list Z -> list Z -> list Z -> Prop;
  verifyRS_ok : forall pk h sig,
    bytes pk -> bytes h -> bytes sig ->
    length pk = 64%nat -> length h = 32%nat -> length sig = 64%nat ->
    verifyRS pk h sig = true <-> valid pk h sig;
  digest_ok : forall pk, bytes pk -> length pk = 64%nat -> bytes (digest pk) /\ length (digest pk) = 32%nat;
}.

(** ** Revocation *)

Record janosRevocationEntry : Type := MkRev { signerKeyID : list Z; revokeEpoch : Z }.

Definition janosWildcardRevokeEpoch : Z := not32 0.

(** The lists of this build. *)
Definition janosRevokedReleases : list janosRevocationEntry := [].
Definition janosRevokedUsers : list janosRevocationEntry := [].

Fixpoint janosIsRevoked (l : list janosRevocationEntry) (id : list Z) (epoch : Z) : bool :=
  match l with
  | [] => false
  | e :: l =>
      if negb (bytes_eqb (signerKeyID e) id) then janosIsRevoked l id epoch
      else if (revokeEpoch e =? janosWildcardRevokeEpoch) || (revokeEpoch e =? epoch) then true
      else janosIsRevoked l id epoch
  end.

(** ** The chain walk *)

Section Chain.
Context {S : SigScheme}.

Definition janosSha256Of (msg : list Z) : list Z := digest msg.
Definition janosCertIDFromPubKey (pk : list Z) : list Z := digest pk.

Definition cert_of (e : janosCertEntry) : Certificate :=
  MkCert (e_level e) (e_revokeEpoch e) (e_signerPK e) (e_parentCert e) (e_signature e).

(** The optional user entry: [None] aborts the chain. *)
Definition verify_user (revokedUsers : list janosRevocationEntry) (slot binaryHash : list Z)
  (r : janosCertEntry) : option (Certificate * bool) :=
  match decodeJanosEntry slot 2 with
  | None => Some (cert_zero, false)
  | Some u =>
      if e_level u =? LevelUser then
        let userPKDigest := janosSha256Of (e_signerPK u) in
        if negb (verifyRS (e_signerPK r) userPKDigest (e_parentCert u)) then None else
        if negb (verifyRS (e_signerPK u) binaryHash (e_signature u)) then None else
        if janosIsRevoked revokedUsers (janosCertIDFromPubKey (e_signerPK u)) (e_revokeEpoch u) then None else
        Some (cert_of u, true)
      else Some (cert_zero, false)
  end.

(** [janosVerifyChainSlot]: [None] is the all-zero result with [ok] false; otherwise
    [(guild, release, user, hasUser)] with [ok] true. *)
Definition janosVerifyChainSlot (revokedReleases revokedUsers : list janosRevocationEntry)
  (slot binaryHash expectGuildPK expectReleasePK : list Z)
  : option (Certificate * Certificate * Certificate * bool) :=
  if negb (checkJanosSlotHeader slot) then None else
  match decodeJanosEntry slot 0 with
  | None => None
  | Some g =>
      if negb (e_level g =? LevelGuild) then None else
      if negb (bytes_eqb (e_signerPK g) expectGuildPK) then None else
      match decodeJanosEntry slot 1 with
      | None => None
      | Some r =>
          if negb (e_level r =? LevelRelease) then None else
          if negb (bytes_eqb (e_signerPK r) expectReleasePK) then None else
          let releasePKDigest := janosSha256Of (e_signerPK r) in
          if negb (verifyRS expectGuildPK releasePKDigest (e_parentCert r)) then None else
          if negb (verifyRS (e_signerPK r) binaryHash (e_signature r)) then None else
          if janosIsRevoked revokedReleases (janosCertIDFromPubKey (e_signerPK r)) (e_revokeEpoch r) then None else
          match verify_user revokedUsers slot binaryHash r with
          | None => None
          | Some (user, hasUser) => Some (cert_of g, cert_of r, user, hasUser)
          end
      end
  end.
End Chain.

(** The runtime's verifier and hash. *)
#[export] Instance runtime_sig : SigScheme := { verifyRS := VerifyRS; digest := sha256 }.

(** ** The gate at schedinit *)

(** Package state the gate reads and publishes. *)
Record CertState : Type := MkCertState {
  slotBytes : list Z;
  expectedGuild : list Z;
  expectedRelease : list Z;
  guildCert : Certificate;
  releaseCert : Certificate;
  userCert : Certificate;
  hasUserCert : bool;
}.

Definition janosExpectedGuildUndivinedSentinel : list Z :=
  str "UNDIVINED-GUILD-PLACEHOLDER-XY-DOES-NOT-VERIFY-AS-A-P256-PUBKEY.".
Definition janosExpectedReleaseUndivinedSentinel : list Z :=
  str "UNDIVINED-RELEASE-PLACEHOLDER-XY-DOES-NOT-VERIFY-AS-A-P256-PUBKY".

(** The initial values of the package variables, before the linker patches them. *)
Definition janosCertSlotBytes : list Z := str "JANOSCRT" ++ repeat 0 (janosCertSlotStorageSize - 8).
Definition janosExpectedGuildPubKey : list Z :=
  str "UNDIVINED-GUILD-PLACEHOLDER-XY-DOES-NOT-VERIFY-AS-A-P256-PUBKEY.".
Definition janosExpectedReleasePubKey : list Z :=
  str "UNDIVINED-RELEASE-PLACEHOLDER-XY-DOES-NOT-VERIFY-AS-A-P256-PUBKY".

Definition cert_state_undivined : CertState :=
  MkCertState janosCertSlotBytes janosExpectedGuildPubKey janosExpectedReleasePubKey
    cert_zero cert_zero cert_zero false.

Definition JanosParentKeys (c : CertState) : list Z * list Z :=
  (if negb (bytes_eqb (expectedGuild c) janosExpectedGuildUndivinedSentinel)
   then expectedGuild c else repeat 0 64,
   if negb (bytes_eqb (expectedRelease c) janosExpectedReleaseUndivinedSentinel)
   then expectedRelease c else repeat 0 64).

Definition janosSlotVersionByte (c : CertState) : Z := nth 8 (slotBytes c) 0.

(** The reasons the gate throws. *)
Inductive throw : Type :=
| ThrowPartialKeys
| ThrowUndivinedSlot
| ThrowChainFailed.

(** [janosVerifyCertSlot]: a [Fail] is a [throw], which ends the process. *)
Definition janosVerifyCertSlot `{SigScheme} (revokedReleases revokedUsers : list janosRevocationEntry)
  (c : CertState) (gp : gProvenance) : outcome throw (CertState * gProvenance) :=
  let guildSentinel := bytes_eqb (expectedGuild c) janosExpectedGuildUndivinedSentinel in
  let releaseSentinel := bytes_eqb (expectedRelease c) janosExpectedReleaseUndivinedSentinel in
  if guildSentinel && releaseSentinel then Ret (c, gp) else
  if guildSentinel || releaseSentinel then Fail ThrowPartialKeys else
  if janosSlotVersionByte c =? 0 then Fail ThrowUndivinedSlot else
  match janosVerifyChainSlot revokedReleases revokedUsers (slotBytes c) (binaryHash gp)
          (expectedGuild c) (expectedRelease c) with
  | None => Fail ThrowChainFailed
  | Some (guild, release, user, hasUser) =>
      let c := MkCertState (slotBytes c) (expectedGuild c) (expectedRelease c) guild release
                 (if hasUser then user else userCert c) (if hasUser then true else hasUserCert c) in
      Ret (c, MkProv (instanceID gp) (binaryHash gp)
                (janosCertIDFromPubKey (SignerPubKey guild))
                (janosCertIDFromPubKey (SignerPubKey release)) (identity gp) TrustJanosReleased)
  end.

(** The accessors. *)
Definition GuildCert (c : CertState) : Certificate := guildCert c.
Definition ReleaseCert (c : CertState) : Certificate := releaseCert c.
Definition UserCert (c : CertState) : Certificate * bool :=
  if negb (hasUserCert c) then (cert_zero, false) else (userCert c, true).

(** ** Decoded entries are well formed *)

Record entry_wf (e : janosCertEntry) : Prop := {
  ew_level : is_byte (e_level e);
  ew_epoch : 0 <= e_revokeEpoch e < 2 ^ 24;
  ew_pk : bytes (e_signerPK e) /\ length (e_signerPK e) = 64%nat;
  ew_parent : bytes (e_parentCert e) /\ length (e_parentCert e) = 64%nat;
  ew_sig : bytes (e_signature e) /\ length (e_signature e) = 64%nat;
}.

(** The three epoch bytes or-ed into place. *)
Lemma epoch_lor a b c :
  is_byte a -> is_byte b -> is_byte c ->
  Z.lor (Z.lor a (u32 (Z.shiftl b 8))) (u32 (Z.shiftl c 16)) = a + W8 * b + W16 * c.
Proof.
  unword; intros; rewrite !Z.shiftl_mul_pow2 by lia.
  change (2 ^ 8) with W8; change (2 ^ 16) with W16; rewrite !u32_small by (unword; lia).
  rewrite (lor_add_low _ _ 8), (lor_add_low _ _ 16)
    by (change (2 ^ 8) with W8; change (2 ^ 16) with W16; lia).
  change (2 ^ 8) with W8; change (2 ^ 16) with W16; lia.
Qed.

Lemma decode_wf slot i e : bytes slot -> decodeJanosEntry slot i = Some e -> entry_wf e.
Proof.
  intros Hs; unfold decodeJanosEntry; cbv beta zeta.
  destruct (Z.ltb_spec i 0); [discriminate|]; cbn [orb].
  destruct (Z.leb_spec (Z.of_nat MaxEntries) i); [discriminate|].
  set (base := Z.of_nat HeaderSize + i * Z.of_nat EntrySize); destruct (Z.ltb_spec (Z.of_nat (length slot)) (base + Z.of_nat EntrySize));
    [discriminate|intros E; apply Some_inj in E; subst e].
  assert (Hb : 0 <= base) by (unfold base; lia).
  assert (Hn : forall k, is_byte (nth k slot 0)) by (intros; apply bytes_nth, Hs).
  assert (Hsub : forall lo, (lo + 64 <= 200)%nat ->
    bytes (firstn 64 (skipn (Z.to_nat base + lo) slot)) /\
    length (firstn 64 (skipn (Z.to_nat base + lo) slot)) = 64%nat).
  { intros lo Hlo; split; [auto with janos|].
    unfold EntrySize in *; rewrite length_firstn, length_skipn; lia. }
  split; cbn [e_level e_revokeEpoch e_signerPK e_parentCert e_signature];
    [apply Hn| |apply Hsub; lia|apply Hsub; lia|apply Hsub; lia].
  rewrite epoch_lor by apply Hn; change (2 ^ 24) with 16777216.
  pose proof (Hn (Z.to_nat base + 1)%nat); pose proof (Hn (Z.to_nat base + 2)%nat).
  pose proof (Hn (Z.to_nat base + 3)%nat); unword; lia.
Qed.

(** ** Revocation lists *)

Definition revoked (l : list janosRevocationEntry) (id : list Z) (epoch : Z) : Prop :=
  exists e, In e l /\ signerKeyID e = id /\
    (revokeEpoch e = janosWildcardRevokeEpoch \/ revokeEpoch e = epoch).

Lemma janosIsRevoked_ok l id epoch : janosIsRevoked l id epoch = true <-> revoked l id epoch.
Proof.
  unfold revoked; induction l as [|e l IH]; cbn [janosIsRevoked In].
  - split; [discriminate|intros (? & [] & _)].
  - destruct (bytes_eqb_spec (signerKeyID e) id) as [E|E]; cbn [negb].
    + destruct (Z.eqb_spec (revokeEpoch e) janosWildcardRevokeEpoch);
        [|destruct (Z.eqb_spec (revokeEpoch e) epoch)]; cbn [orb].
      * split; [intros _; exists e; auto|reflexivity].
      * split; [intros _; exists e; auto|reflexivity].
      * rewrite IH; split; [intros (x & ? & ?); exists x; auto|].
        intros (x & [<-|Hx] & Ex & Hr); [tauto|exists x; auto].
    + rewrite IH; split; [intros (x & ? & ?); exists x; auto|].
      intros (x & [<-|Hx] & Ex & Hr); [contradiction|exists x; auto].
Qed.

Lemma janosIsRevoked_false l id epoch : janosIsRevoked l id epoch = false <-> ~ revoked l id epoch.
Proof. rewrite <- janosIsRevoked_ok; destruct (janosIsRevoked _ _ _); intuition congruence. Qed.

(** ** The specification of the walk *)

Section ChainSpec.
Context {S : SigScheme} {OK : SigSchemeOk S}.
Context (revR revU : list janosRevocationEntry) (slot binaryHash eG eR : list Z).

(** Guild entry [g] and Release entry [r] form an acceptable chain. *)
Record chain_ok (g r : janosCertEntry) : Prop := {
  co_header : checkJanosSlotHeader slot = true;
  co_g : decodeJanosEntry slot 0 = Some g;
  co_g_level : e_level g = LevelGuild;
  co_g_pk : e_signerPK g = eG;
  co_r : decodeJanosEntry slot 1 = Some r;
  co_r_level : e_level r = LevelRelease;
  co_r_pk : e_signerPK r = eR;
  co_endorsed : valid eG (digest (e_signerPK r)) (e_parentCert r);
  co_signed : valid (e_signerPK r) binaryHash (e_signature r);
  co_live : ~ revoked revR (digest (e_signerPK r)) (e_revokeEpoch r);
}.

(** The third entry is not a user entry, or is a user entry in good standing. *)
Definition user_ok (r : janosCertEntry) (o : option janosCertEntry) : Prop :=
  match o with
  | None => forall u, decodeJanosEntry slot 2 = Some u -> e_level u <> LevelUser
  | Some u =>
      decodeJanosEntry slot 2 = Some u /\ e_level u = LevelUser /\
      valid (e_signerPK r) (digest (e_signerPK u)) (e_parentCert u) /\
      valid (e_signerPK u) binaryHash (e_signature u) /\
      ~ revoked revU (digest (e_signerPK u)) (e_revokeEpoch u)
  end.

Definition user_result (o : option janosCertEntry) : Certificate * bool :=
  match o with None => (cert_zero, false) | Some u => (cert_of u, true) end.

Context (Hslot : bytes slot) (Hh : bytes binaryHash) (Lh : length binaryHash = 32%nat).

(** A rejected test of the verifier. *)
Lemma verify_reject pk h sig :
  bytes pk -> bytes h -> bytes sig -> length pk = 64%nat -> length h = 32%nat -> length sig = 64%nat ->
  verifyRS pk h sig = false <-> ~ valid pk h sig.
Proof. intros; rewrite <- verifyRS_ok by assumption; destruct (verifyRS _ _ _); intuition congruence. Qed.

Lemma endorse_ok pk e :
  bytes pk -> length pk = 64%nat -> entry_wf e ->
  verifyRS pk (digest (e_signerPK e)) (e_parentCert e) = true <->
  valid pk (digest (e_signerPK e)) (e_parentCert e).
Proof.
  intros Hp Lp [_ _ [Hk Lk] [Hc Lc] _]; destruct (digest_ok _ Hk Lk).
  apply verifyRS_ok; assumption.
Qed.

Lemma signed_ok e :
  entry_wf e ->
  verifyRS (e_signerPK e) binaryHash (e_signature e) = true <->
  valid (e_signerPK e) binaryHash (e_signature e).
Proof. intros [_ _ [Hk Lk] _ [Hc Lc]]; apply verifyRS_ok; assumption. Qed.

Lemma verify_user_ok r uc hu :
  entry_wf r ->
  verify_user revU slot binaryHash r = Some (uc, hu) <->
  exists o, user_ok r o /\ (uc, hu) = user_result o.
Proof.
  intros Hr; destruct (ew_pk _ Hr) as [Hk Lk]; unfold verify_user, janosSha256Of, janosCertIDFromPubKey.
  assert (Hnone : (forall u, decodeJanosEntry slot 2 = Some u -> e_level u <> LevelUser) ->
    Some (cert_zero, false) = Some (uc, hu) <-> exists o, user_ok r o /\ (uc, hu) = user_result o).
  { intros Hn; split; [intros [= <- <-]; exists None; auto|intros ([u|] & Hu & [= -> ->]); [|reflexivity]].
    destruct Hu as (Hd & Hl & _); contradiction (Hn u Hd Hl). }
  destruct (decodeJanosEntry slot 2) as [u|] eqn:Hd; [|apply Hnone; discriminate].
  destruct (Z.eqb_spec (e_level u) LevelUser) as [Hl|Hl]; [|apply Hnone; intros u' [= <-]; exact Hl].
  clear Hnone; pose proof (decode_wf _ _ _ Hslot Hd) as Hu.
  pose proof (endorse_ok _ u Hk Lk Hu) as E1; pose proof (signed_ok u Hu) as E2.
  pose proof (janosIsRevoked_ok revU (digest (e_signerPK u)) (e_revokeEpoch u)) as E3.
  assert (Hex : forall o, user_ok r o -> user_ok r (Some u) /\ o = Some u).
  { intros [u'|] Ho; [|contradiction (Ho u Hd Hl)].
    destruct Ho as (Hd' & Ho); assert (u' = u) as -> by congruence; split; [split; assumption|reflexivity]. }
  destruct (verifyRS (e_signerPK r) _ _); cbn [negb];
    [|split; [discriminate|intros (o & Ho & _); destruct (Hex o Ho) as [(_ & _ & V & _) _];
       apply E1 in V; discriminate]].
  destruct (verifyRS (e_signerPK u) _ _); cbn [negb];
    [|split; [discriminate|intros (o & Ho & _); destruct (Hex o Ho) as [(_ & _ & _ & V & _) _];
       apply E2 in V; discriminate]].
  destruct (janosIsRevoked revU _ _);
    [split; [discriminate|intros (o & Ho & _); destruct (Hex o Ho) as [(_ & _ & _ & _ & V) _]; tauto]|].
  split.
  - intros [= <- <-]; exists (Some u); split; [|reflexivity].
    repeat (split; [assumption || tauto|]); intuition congruence.
  - intros (o & Ho & Er); destruct (Hex o Ho) as [_ ->]; symmetry; f_equal; exact Er.
Qed.

(** Two readings of one entry agree. *)
Ltac same_entries :=
  repeat match goal with
  | H : ?x = Some _, K : ?x = Some ?b |- _ => is_var b; rewrite H in K; injection K as ->
  end.

(** A test of the walk that fails: an acceptable chain would have passed it. *)
Ltac refuse_chain :=
  split; [discriminate|];
  let C := fresh in intros (?g' & ?r' & ?o & C & _); destruct C; same_entries; congruence || tauto || (intuition congruence).

(** The walk accepts exactly the acceptable chains and returns their certificates. *)
Lemma chain_ok_iff gc rc uc hu :
  bytes eG -> length eG = 64%nat ->
  janosVerifyChainSlot revR revU slot binaryHash eG eR = Some (gc, rc, uc, hu) <->
  exists g r o, chain_ok g r /\ user_ok r o /\
    gc = cert_of g /\ rc = cert_of r /\ (uc, hu) = user_result o.
Proof.
  intros HG LG; unfold janosVerifyChainSlot, janosSha256Of, janosCertIDFromPubKey.
  destruct (checkJanosSlotHeader slot) eqn:H0; cbn [negb]; [|refuse_chain].
  destruct (decodeJanosEntry slot 0) as [g|] eqn:Dg; [|refuse_chain].
  destruct (Z.eqb_spec (e_level g) LevelGuild) as [Lg|Lg]; cbn [negb]; [|refuse_chain].
  destruct (bytes_eqb_spec (e_signerPK g) eG) as [Pg|Pg]; cbn [negb]; [|refuse_chain].
  destruct (decodeJanosEntry slot 1) as [r|] eqn:Dr; [|refuse_chain].
  destruct (Z.eqb_spec (e_level r) LevelRelease) as [Lr|Lr]; cbn [negb]; [|refuse_chain].
  destruct (bytes_eqb_spec (e_signerPK r) eR) as [Pr|Pr]; cbn [negb]; [|refuse_chain].
  pose proof (decode_wf _ _ _ Hslot Dr) as Wr.
  pose proof (endorse_ok _ r HG LG Wr) as E1; pose proof (signed_ok r Wr) as E2.
  pose proof (janosIsRevoked_ok revR (digest (e_signerPK r)) (e_revokeEpoch r)) as E3.
  destruct (verifyRS eG _ _) eqn:V1; cbn [negb]; [|refuse_chain].
  destruct (verifyRS (e_signerPK r) _ _) eqn:V2; cbn [negb]; [|refuse_chain].
  destruct (janosIsRevoked revR _ _) eqn:V3; [refuse_chain|].
  assert (C : chain_ok g r) by (split; try assumption; try tauto; intuition congruence).
  pose proof (verify_user_ok r uc hu Wr) as U.
  destruct (verify_user revU slot binaryHash r) as [[uc' hu']|].
  - split.
    + intros [= <- <- -> ->]; destruct (proj1 U eq_refl) as (o & Ho & Eo); exists g, r, o; auto.
    + intros (g' & r' & o & C' & Ho & -> & -> & Eo); destruct C; destruct C'; same_entries.
      injection (proj2 U (ex_intro _ o (conj Ho Eo))) as -> ->; reflexivity.
  - split; [discriminate|intros (g' & r' & o & C' & Ho & _ & _ & Eo)]; destruct C; destruct C'; same_entries.
    discriminate (proj2 U (ex_intro _ o (conj Ho Eo))).
Qed.
End ChainSpec.

(** ** The runtime's instance *)

Lemma sha256_pk pk : bytes pk -> length pk = 64%nat -> bytes (sha256 pk) /\ length (sha256 pk) = 32%nat.
Proof.
  intros Hb Hl; unfold sha256; rewrite (Hash_ok sha256_params) by (exact Hb || (rewrite Hl; reflexivity)).
  split; [apply bytes_fips_hash|apply (length_fips_hash sha256_params)].
Qed.

#[export] Instance runtime_sig_ok : SigSchemeOk runtime_sig :=
  { valid := ecdsa_spec; verifyRS_ok := VerifyRS_ok; digest_ok := sha256_pk }.

(** ** Changing an epoch *)

(** Overwriting the three epoch bytes of entry [i]. *)
Definition with_epoch (slot : list Z) (i : nat) (ep : Z) : list Z :=
  let base := entry_base i in
  upd (upd (upd slot (base + 1) (u8 ep)) (base + 2) (u8 (Z.shiftr ep 8))) (base + 3) (u8 (Z.shiftr ep 16)).

Definition entry_with_epoch (e : janosCertEntry) (ep : Z) : janosCertEntry :=
  MkEntry (e_level e) ep (e_signerPK e) (e_parentCert e) (e_signature e).

Lemma nth_upd_ne (l : list Z) k x j : j <> k -> nth j (upd l k x) 0 = nth j l 0.
Proof.
  intros H; destruct (Nat.lt_ge_cases k (length l)).
  - rewrite nth_upd by assumption; destruct (Nat.eqb_spec j k); [contradiction|reflexivity].
  - replace (upd l k x) with l; [reflexivity|].
    clear H j; revert k H0; induction l as [|y l IH]; intros [|k] Hk; cbn in *; try reflexivity; [lia|].
    f_equal; apply IH; lia.
Qed.

Lemma sub_upd_out (l : list Z) k x a n :
  (k < a \/ a + n <= k)%nat -> firstn n (skipn a (upd l k x)) = firstn n (skipn a l).
Proof.
  intros H; apply (nth_ext _ _ 0 0); rewrite !length_firstn, !length_skipn, length_upd; [reflexivity|].
  intros j Hj; rewrite !nth_firstn, !nth_skipn; destruct (Nat.ltb_spec j n); [|reflexivity].
  rewrite nth_upd_ne by lia; reflexivity.
Qed.

Lemma nth_upd_eq (l : list Z) k x : (k < length l)%nat -> nth k (upd l k x) 0 = x.
Proof. intros; rewrite nth_upd, Nat.eqb_refl by assumption; reflexivity. Qed.

Lemma length_with_epoch slot i ep : length (with_epoch slot i ep) = length slot.
Proof. unfold with_epoch; rewrite !length_upd; reflexivity. Qed.

Lemma bytes_with_epoch slot i ep : bytes slot -> bytes (with_epoch slot i ep).
Proof. intros; unfold with_epoch; auto 10 with janos. Qed.

Lemma check_with_epoch slot i ep : checkJanosSlotHeader (with_epoch slot i ep) = checkJanosSlotHeader slot.
Proof.
  unfold checkJanosSlotHeader; rewrite length_with_epoch; destruct (_ <? _)%nat; [reflexivity|].
  assert (H : forall k, (k < 16)%nat -> nth k (with_epoch slot i ep) 0 = nth k slot 0).
  { intros k Hk; unfold with_epoch, entry_base, HeaderSize; rewrite !nth_upd_ne by lia; reflexivity. }
  rewrite H by lia; cbn [seq forallb MagicSize]; rewrite !H by lia; reflexivity.
Qed.

Lemma decode_bounds slot i e :
  decodeJanosEntry slot (Z.of_nat i) = Some e ->
  (i < MaxEntries)%nat /\ (entry_base i + EntrySize <= length slot)%nat.
Proof.
  unfold decodeJanosEntry.
  destruct (Z.ltb_spec (Z.of_nat i) 0); [discriminate|]; cbn [orb].
  destruct (Z.leb_spec (Z.of_nat MaxEntries) (Z.of_nat i)); [discriminate|].
  destruct (Z.ltb_spec (Z.of_nat (length slot)) (Z.of_nat HeaderSize + Z.of_nat i * Z.of_nat EntrySize + Z.of_nat EntrySize));
    [discriminate|intros _; unfold entry_base; lia].
Qed.

(** The decoder by offsets. *)
Lemma decode_eq slot i :
  (i < MaxEntries)%nat -> (entry_base i + EntrySize <= length slot)%nat ->
  decodeJanosEntry slot (Z.of_nat i) =
  Some (MkEntry (nth (entry_base i) slot 0)
    (Z.lor (Z.lor (nth (entry_base i + 1) slot 0) (u32 (Z.shiftl (nth (entry_base i + 2) slot 0) 8)))
       (u32 (Z.shiftl (nth (entry_base i + 3) slot 0) 16)))
    (firstn 64 (skipn (entry_base i + 8) slot)) (firstn 64 (skipn (entry_base i + 72) slot))
    (firstn 64 (skipn (entry_base i + 136) slot))).
Proof.
  intros Hi Hl; unfold decodeJanosEntry.
  destruct (Z.ltb_spec (Z.of_nat i) 0); [lia|]; cbn [orb].
  destruct (Z.leb_spec (Z.of_nat MaxEntries) (Z.of_nat i)); [lia|].
  replace (Z.of_nat HeaderSize + Z.of_nat i * Z.of_nat EntrySize) with (Z.of_nat (entry_base i))
    by (unfold entry_base; lia).
  destruct (Z.ltb_spec (Z.of_nat (length slot)) (Z.of_nat (entry_base i) + Z.of_nat EntrySize)); [lia|].
  rewrite Nat2Z.id, Nat.add_0_r; reflexivity.
Qed.

Lemma decode_with_epoch slot i ep e :
  0 <= ep < 2 ^ 24 ->
  decodeJanosEntry slot (Z.of_nat i) = Some e ->
  decodeJanosEntry (with_epoch slot i ep) (Z.of_nat i) = Some (entry_with_epoch e ep).
Proof.
  intros He H; destruct (decode_bounds _ _ _ H) as [Hi Hl].
  rewrite decode_eq in H by assumption; apply Some_inj in H; subst e.
  rewrite decode_eq by (rewrite ?length_with_epoch; assumption).
  unfold entry_with_epoch; cbn [e_level e_signerPK e_parentCert e_signature].
  unfold with_epoch, EntrySize in *; rewrite !sub_upd_out by lia; f_equal; f_equal.
  - rewrite !nth_upd_ne by lia; reflexivity.
  - rewrite (nth_upd_eq _ (_ + 3)) by (rewrite !length_upd; lia).
    rewrite (nth_upd_ne _ (_ + 3) _ (_ + 2)), (nth_upd_eq _ (_ + 2)) by (rewrite ?length_upd; lia).
    rewrite (nth_upd_ne _ (_ + 3)), (nth_upd_ne _ (_ + 2)), nth_upd_eq by lia.
    rewrite epoch_lor by auto with janos; unfold u8; rewrite !Z.shiftr_div_pow2 by lia.
    change (2 ^ 24) with 16777216 in He; change (2 ^ 8) with 256; change (2 ^ 16) with 65536.
    clear - He; Z.div_mod_to_equations; lia.
Qed.

Lemma decode_with_epoch_ne slot i j ep :
  (i < MaxEntries)%nat -> i <> j ->
  decodeJanosEntry (with_epoch slot i ep) (Z.of_nat j) = decodeJanosEntry slot (Z.of_nat j).
Proof.
  intros Hi Hne; destruct (Nat.lt_ge_cases j MaxEntries) as [Hj|Hj];
    [destruct (Nat.le_gt_cases (entry_base j + EntrySize) (length slot)) as [Hl|Hl]|].
  - rewrite !decode_eq by (rewrite ?length_with_epoch; assumption).
    unfold with_epoch, entry_base, HeaderSize, EntrySize in *.
    rewrite !sub_upd_out, !nth_upd_ne by lia; reflexivity.
  - assert (N : forall s, length s = length slot -> decodeJanosEntry s (Z.of_nat j) = None).
    { intros s Hs; destruct (decodeJanosEntry s (Z.of_nat j)) eqn:D; [|reflexivity].
      apply decode_bounds in D; lia. }
    rewrite !N by (rewrite ?length_with_epoch; reflexivity); reflexivity.
  - assert (N : forall s, decodeJanosEntry s (Z.of_nat j) = None).
    { intros s; destruct (decodeJanosEntry s (Z.of_nat j)) eqn:D; [|reflexivity].
      apply decode_bounds in D; lia. }
    rewrite !N; reflexivity.
Qed.

(** ** The policy of the gate *)

Section Gate.
Context {S : SigScheme} {OK : SigSchemeOk S}.
Context (revR revU : list janosRevocationEntry).

Definition both_sentinel (c : CertState) : Prop :=
  expectedGuild c = janosExpectedGuildUndivinedSentinel /\
  expectedRelease c = janosExpectedReleaseUndivinedSentinel.

Definition no_sentinel (c : CertState) : Prop :=
  expectedGuild c <> janosExpectedGuildUndivinedSentinel /\
  expectedRelease c <> janosExpectedReleaseUndivinedSentinel.

(** The types of the package variables. *)
Record state_wf (c : CertState) : Prop := {
  sw_slot : bytes (slotBytes c) /\ length (slotBytes c) = janosCertSlotStorageSize;
  sw_guild : bytes (expectedGuild c) /\ length (expectedGuild c) = 64%nat;
  sw_release : bytes (expectedRelease c) /\ length (expectedRelease c) = 64%nat;
}.

(** What the strict mode publishes for a chain. *)
Definition published (c c' : CertState) (gp gp' : gProvenance) (g r : janosCertEntry)
  (o : option janosCertEntry) : Prop :=
  slotBytes c' = slotBytes c /\ expectedGuild c' = expectedGuild c /\
  expectedRelease c' = expectedRelease c /\
  guildCert c' = cert_of g /\ releaseCert c' = cert_of r /\
  (userCert c', hasUserCert c') =
    match o with None => (userCert c, hasUserCert c) | Some u => (cert_of u, true) end /\
  gp' = MkProv (instanceID gp) (binaryHash gp) (digest (expectedGuild c)) (digest (expectedRelease c))
          (identity gp) TrustJanosReleased.

(** A chain exists for the state's slot and the goroutine's hash. *)
Definition chain_for (c : CertState) (gp : gProvenance) g r o : Prop :=
  chain_ok revR (slotBytes c) (binaryHash gp) (expectedGuild c) (expectedRelease c) g r /\
  user_ok revU (slotBytes c) (binaryHash gp) r o.

Lemma gate_cases c gp :
  state_wf c -> prov_wf gp ->
  match janosVerifyCertSlot revR revU c gp with
  | Ret (c', gp') =>
      (both_sentinel c /\ c' = c /\ gp' = gp) \/
      (no_sentinel c /\ janosSlotVersionByte c <> 0 /\
       exists g r o, chain_for c gp g r o /\ published c c' gp gp' g r o)
  | Fail ThrowPartialKeys => ~ both_sentinel c /\ ~ no_sentinel c
  | Fail ThrowUndivinedSlot => no_sentinel c /\ janosSlotVersionByte c = 0
  | Fail ThrowChainFailed =>
      no_sentinel c /\ janosSlotVersionByte c <> 0 /\ forall g r o, ~ chain_for c gp g r o
  | Panic => False
  end.
Proof.
  intros [[Hs _] [HG LG] _] [_ [Hh Lh] _ _ _]; unfold janosVerifyCertSlot, both_sentinel, no_sentinel.
  destruct (bytes_eqb_spec (expectedGuild c) janosExpectedGuildUndivinedSentinel),
    (bytes_eqb_spec (expectedRelease c) janosExpectedReleaseUndivinedSentinel); cbn [andb orb]; try tauto.
  destruct (Z.eqb_spec (janosSlotVersionByte c) 0); [tauto|].
  pose proof (chain_ok_iff revR revU (slotBytes c) (binaryHash gp) (expectedGuild c) (expectedRelease c) Hs Hh Lh) as H.
  destruct (janosVerifyChainSlot _ _ _ _ _ _) as [[[[gc rc] uc] hu]|].
  - destruct (proj1 (H gc rc uc hu HG LG) eq_refl) as (g & r & o & C & U & -> & -> & E).
    right; split; [tauto|split; [assumption|]]; exists g, r, o; split; [split; assumption|].
    unfold published; cbn [slotBytes expectedGuild expectedRelease guildCert releaseCert userCert hasUserCert].
    repeat (split; [reflexivity|]); split.
    + destruct o; cbn [user_result] in E; injection E as -> ->; reflexivity.
    + unfold janosCertIDFromPubKey, cert_of; cbn [SignerPubKey].
      rewrite (co_g_pk _ _ _ _ _ _ _ C), (co_r_pk _ _ _ _ _ _ _ C); reflexivity.
  - split; [tauto|split; [assumption|intros g r o [C U]]].
    destruct (user_result o) as [uc hu] eqn:E.
    discriminate (proj2 (H (cert_of g) (cert_of r) uc hu HG LG)
      (ex_intro _ g (ex_intro _ r (ex_intro _ o (conj C (conj U (conj eq_refl (conj eq_refl (eq_sym E))))))))).
Qed.

(** *** The linker's slot *)

(** Certificates the diviner may write, with what their signatures must satisfy. *)
Record chain_certs (h : list Z) (g r : Certificate) (us : list Certificate) : Prop := {
  cc_wf : Forall cert_wf (g :: r :: us);
  cc_levels : Level g = LevelGuild /\ Level r = LevelRelease /\ Forall (fun u => Level u = LevelUser) us;
  cc_count : (length us <= 1)%nat;
  cc_endorsed : valid (SignerPubKey g) (digest (SignerPubKey r)) (ParentCert r);
  cc_signed : valid (SignerPubKey r) h (Signature r);
  cc_users : Forall (fun u => valid (SignerPubKey r) (digest (SignerPubKey u)) (ParentCert u) /\
                              valid (SignerPubKey u) h (Signature u) /\
                              ~ revoked revU (digest (SignerPubKey u)) (RevokeEpoch u mod 2 ^ 24)) us;
  cc_live : ~ revoked revR (digest (SignerPubKey r)) (RevokeEpoch r mod 2 ^ 24);
}.

Lemma chain_of_certs h g r us :
  chain_certs h g r us ->
  let slot := EncodeSlot (g :: r :: us) in
  let o := match us with [] => None | u :: _ => Some (decoded u) end in
  bytes slot /\ length slot = janosCertSlotStorageSize /\
  chain_ok revR slot h (SignerPubKey g) (SignerPubKey r) (decoded g) (decoded r) /\
  user_ok revU slot h (decoded r) o.
Proof.
  intros [W (L1 & L2 & L3) N V1 V2 V3 V4] slot o; subst slot; rewrite (EncodeSlot_layout _ W).
  set (es := g :: r :: us) in *; set (slot := slot_layout es).
  assert (D : forall i, (i < length es)%nat -> (i < MaxEntries)%nat ->
    decodeJanosEntry slot (Z.of_nat i) = Some (decoded (nth i es cert_zero)))
    by (intros; apply decode_slot_layout; assumption).
  split; [apply bytes_slot_layout, W|split; [apply length_slot_layout, W|split]].
  - split; try assumption; try reflexivity.
    + apply (D 0%nat); cbn; unfold MaxEntries; lia.
    + apply (D 1%nat); cbn; unfold MaxEntries; lia.
  - subst o; destruct us as [|u us]; cbn [user_ok].
    + intros u Hu; destruct (decode_slot_empty es 2 W) as (e & He & Hl); [cbn; lia|unfold MaxEntries; lia|].
      change (Z.of_nat 2) with 2 in He; fold slot in He; rewrite He in Hu; apply Some_inj in Hu; subst u.
      rewrite Hl; discriminate.
    + split; [apply (D 2%nat); cbn; unfold MaxEntries; lia|].
      split; [inversion L3; assumption|inversion V3; assumption].
Qed.
End Gate.

(** ** A small scheme for examples

    The "signature" of [h] under [pk] is [h] followed by the first half of [pk]. *)
Definition toy_sig : SigScheme :=
  {| verifyRS := fun pk h sig => bytes_eqb sig (h ++ firstn 32 pk); digest := fun pk => firstn 32 pk |}.

Lemma toy_verify pk h sig :
  bytes pk -> bytes h -> bytes sig -> length pk = 64%nat -> length h = 32%nat -> length sig = 64%nat ->
  @verifyRS toy_sig pk h sig = true <-> sig = h ++ firstn 32 pk.
Proof. intros; apply bytes_eqb_eq. Qed.

Lemma toy_digest pk : bytes pk -> length pk = 64%nat ->
  bytes (@digest toy_sig pk) /\ length (@digest toy_sig pk) = 32%nat.
Proof. intros Hb Hl; cbn [digest toy_sig]; split; [auto with janos|rewrite length_firstn, Hl; reflexivity]. Qed.

Definition toy_sig_ok : SigSchemeOk toy_sig :=
  {| valid := fun pk h sig => sig = h ++ firstn 32 pk; verifyRS_ok := toy_verify; digest_ok := toy_digest |}.

Definition toy_cert (l ep k : Z) (parent h : list Z) : Certificate :=
  MkCert l ep (repeat k 64) (repeat k 32 ++ firstn 32 parent) (h ++ repeat k 32).
Definition toy_hash : list Z := repeat 7 32.
Definition toy_guild : Certificate := toy_cert LevelGuild 0 1 (repeat 0 64) toy_hash.
Definition toy_release (ep : Z) : Certificate := toy_cert LevelRelease ep 2 (repeat 1 64) toy_hash.
Definition toy_user : Certificate := toy_cert LevelUser 4 3 (repeat 2 64) toy_hash.

Definition toy_state (es : list Certificate) : CertState :=
  MkCertState (EncodeSlot es) (repeat 1 64) (repeat 2 64) cert_zero cert_zero cert_zero false.
Definition toy_prov : gProvenance :=
  MkProv (repeat 5 16) toy_hash (repeat 0 32) (repeat 0 32) None TrustSelfAttested.

Lemma toy_cert_wf l ep k parent :
  is_byte l -> is_u32 ep -> is_byte k -> bytes parent -> length parent = 64%nat ->
  cert_wf (toy_cert l ep k parent toy_hash).
Proof.
  intros Hl He Hk Hp Lp; pose proof (bytes_repeat k 32 Hk); pose proof (bytes_repeat k 64 Hk).
  split; cbn [toy_cert Level RevokeEpoch SignerPubKey ParentCert Signature]; try assumption.
  - split; [assumption|apply repeat_length].
  - rewrite length_app, length_firstn, repeat_length, Lp; split; [apply bytes_app; auto with janos|reflexivity].
  - split; [apply bytes_app; split; [apply bytesb_ok; reflexivity|assumption]|].
    rewrite length_app, repeat_length; reflexivity.
Qed.

Lemma toy_chain : @chain_certs toy_sig toy_sig_ok [] [] toy_hash toy_guild (toy_release 9) [toy_user].
Proof.
  split.
  - repeat (constructor; [apply toy_cert_wf; try (vm_compute; split; [discriminate|reflexivity]); try reflexivity;
      apply bytesb_ok; reflexivity|]); constructor.
  - split; [reflexivity|split; [reflexivity|repeat constructor]].
  - cbn; lia.
  - reflexivity.
  - reflexivity.
  - constructor; [|constructor]; split; [reflexivity|split; [reflexivity|intros (? & [] & _)]].
  - intros (? & [] & _).
Qed.

Lemma toy_state_wf es : Forall cert_wf es -> state_wf (toy_state es).
Proof.
  intros H; split; cbn [toy_state slotBytes expectedGuild expectedRelease].
  - rewrite (EncodeSlot_layout _ H); split; [apply bytes_slot_layout, H|apply length_slot_layout, H].
  - split; [apply bytesb_ok; reflexivity|reflexivity].
  - split; [apply bytesb_ok; reflexivity|reflexivity].
Qed.

Lemma toy_prov_wf : prov_wf toy_prov.
Proof.
  split; try (split; [apply bytesb_ok; reflexivity|reflexivity]).
  vm_compute; split; [discriminate|reflexivity].
Qed.

(** ** Properties *)

(** C2: The boot-time chain walk with the runtime's own primitives: on any slot it returns
    certificates exactly when the Guild and Release entries decode with their levels and
    expected keys, the Guild's ECDSA signature covers SHA-256 of the Release key, the
    Release's covers the binary hash, the Release is not revoked, and a User entry, when
    present, satisfies the same under the Release; the results are those entries. *)
Theorem chain_verification_correct revR revU slot h eG eR gc rc uc hu :
  bytes slot -> bytes h -> length h = 32%nat -> bytes eG -> length eG = 64%nat ->
  janosVerifyChainSlot revR revU slot h eG eR = Some (gc, rc, uc, hu) <->
  exists g r o,
    chain_ok (S := runtime_sig) revR slot h eG eR g r /\ user_ok (S := runtime_sig) revU slot h r o /\
    gc = cert_of g /\ rc = cert_of r /\ (uc, hu) = user_result o.
Proof. intros; apply (chain_ok_iff (S := runtime_sig)); assumption. Qed.

(** A release whose endorsement is all zero is refused. *)
Lemma chain_verification_correct_witness :
  janosVerifyChainSlot [] [] (EncodeSlot [demo_cert 0 0; MkCert 1 0 (repeat 1 64) (repeat 0 64) (repeat 3 64)])
    (repeat 7 32) (repeat 1 64) (repeat 1 64) <> Some (cert_zero, cert_zero, cert_zero, false).
Proof.
  set (slot := EncodeSlot _).
  assert (B : bytes slot) by (apply bytesb_ok; vm_compute; reflexivity).
  intros E.
  destruct (proj1 (chain_verification_correct [] [] slot (repeat 7 32) (repeat 1 64) (repeat 1 64)
    cert_zero cert_zero cert_zero false B ltac:(apply bytesb_ok; reflexivity) eq_refl
    ltac:(apply bytesb_ok; reflexivity) eq_refl) E) as (g & r & o & C & _).
  pose proof (co_r _ _ _ _ _ _ _ C) as D; pose proof (co_endorsed _ _ _ _ _ _ _ C) as V.
  vm_compute in D; injection D as <-; destruct V as [[V _] _]; vm_compute in V; apply V; reflexivity.
Defined.

(** C3: The gate's whole policy, for any signature scheme meeting the interface: with both
    placeholder keys it changes nothing; with exactly one it throws; with none it throws
    on an undivined slot and on a slot without an acceptable chain, and otherwise
    publishes that chain's certificates and raises the trust level.  So the level
    TrustJanosReleased is only reached through a verified chain. *)
Theorem gate_policy S (OK : SigSchemeOk S) revR revU c gp :
  state_wf c -> prov_wf gp ->
  match janosVerifyCertSlot revR revU c gp with
  | Ret (c', gp') =>
      (both_sentinel c /\ c' = c /\ gp' = gp) \/
      (no_sentinel c /\ janosSlotVersionByte c <> 0 /\
       exists g r o, chain_for revR revU c gp g r o /\ published c c' gp gp' g r o)
  | Fail ThrowPartialKeys => ~ both_sentinel c /\ ~ no_sentinel c
  | Fail ThrowUndivinedSlot => no_sentinel c /\ janosSlotVersionByte c = 0
  | Fail ThrowChainFailed =>
      no_sentinel c /\ janosSlotVersionByte c <> 0 /\ forall g r o, ~ chain_for revR revU c gp g r o
  | Panic => False
  end.
Proof. apply gate_cases. Qed.

Lemma gate_policy_witness :
  janosSlotVersionByte (toy_state []) <> 0 /\
  forall g r o, ~ chain_for (S := toy_sig) (OK := toy_sig_ok) [] [] (toy_state []) toy_prov g r o.
Proof.
  pose proof (gate_policy toy_sig toy_sig_ok [] [] (toy_state []) toy_prov
    (toy_state_wf [] (Forall_nil _)) toy_prov_wf) as H.
  replace (@janosVerifyCertSlot toy_sig [] [] (toy_state []) toy_prov) with
    (@Fail throw (CertState * gProvenance) ThrowChainFailed) in H by (vm_compute; reflexivity).
  exact (proj2 H).
Defined.

(** Every correctly signed chain boots: a slot the linker encodes from a Guild, a
    Release and at most one User certificate whose signatures are valid and whose
    keys (with the epochs' low 24 bits) are not revoked passes the gate, which publishes
    these certificates and sets TrustJanosReleased. *)
Theorem divined_slot_boots S (OK : SigSchemeOk S) revR revU g r us c gp :
  chain_certs revR revU (binaryHash gp) g r us -> prov_wf gp ->
  slotBytes c = EncodeSlot (g :: r :: us) ->
  expectedGuild c = SignerPubKey g -> expectedRelease c = SignerPubKey r -> no_sentinel c ->
  exists c' gp',
    janosVerifyCertSlot revR revU c gp = Ret (c', gp') /\
    published c c' gp gp' (decoded g) (decoded r) (match us with [] => None | u :: _ => Some (decoded u) end).
Proof.
  intros C Hp Es Eg Er Hn.
  destruct (chain_of_certs _ _ _ _ _ _ C) as (Hb & Hl & C1 & C2).
  rewrite <- Es, <- Eg, <- Er in *.
  set (o := match us with [] => None | u :: _ => Some (decoded u) end) in *.
  assert (W : state_wf c).
  { pose proof (cc_wf _ _ _ _ _ _ C) as W; inversion W as [|? ? Wg W']; inversion W' as [|? ? Wr _]; subst.
    split; [split; assumption|rewrite Eg; apply Wg|rewrite Er; apply Wr]. }
  pose proof (gate_cases revR revU c gp W Hp) as G.
  destruct (janosVerifyCertSlot revR revU c gp) as [[c' gp']|[]|].
  - destruct G as [[B _]|(_ & _ & g' & r' & o' & [D1 D2] & P)];
      [destruct B, Hn; contradiction|].
    assert (Eq : g' = decoded g /\ r' = decoded r /\ o' = o).
    { pose proof (co_g _ _ _ _ _ _ _ C1); pose proof (co_g _ _ _ _ _ _ _ D1).
      pose proof (co_r _ _ _ _ _ _ _ C1); pose proof (co_r _ _ _ _ _ _ _ D1).
      split; [congruence|split; [congruence|]].
      destruct o as [u|], o' as [u'|]; cbn [user_ok] in C2, D2;
        [destruct C2 as (? & _), D2 as (? & _); congruence
        |destruct C2 as (E1 & E2 & _); contradiction (D2 _ E1 E2)
        |destruct D2 as (E1 & E2 & _); contradiction (C2 _ E1 E2)|reflexivity]. }
    destruct Eq as (-> & -> & ->); exists c', gp'; auto.
  - tauto.
  - destruct G as [_ G]; unfold janosSlotVersionByte in G; rewrite Es, (EncodeSlot_layout _ (cc_wf _ _ _ _ _ _ C)) in G; discriminate G.
  - destruct G as (_ & _ & G); contradiction (G _ _ _ (conj C1 C2)).
  - contradiction.
Qed.

Lemma divined_slot_boots_witness :
  exists c' gp',
    @janosVerifyCertSlot toy_sig [] [] (toy_state [toy_guild; toy_release 9; toy_user]) toy_prov = Ret (c', gp') /\
    trustLevel gp' = TrustJanosReleased /\ RevokeEpoch (releaseCert c') = 9.
Proof.
  destruct (divined_slot_boots toy_sig toy_sig_ok [] [] toy_guild (toy_release 9) [toy_user]
    (toy_state [toy_guild; toy_release 9; toy_user]) toy_prov toy_chain toy_prov_wf
    ltac:(cbn [toy_state slotBytes]; reflexivity) eq_refl eq_refl ltac:(split; discriminate)) as (c' & gp' & E & (_ & _ & _ & _ & Er & _ & Ep)).
  exists c', gp'; split; [exact E|rewrite Er, Ep; split; reflexivity].
Defined.

(** C31: An epoch-specific revocation can be undone by editing the slot: no signature
    covers the revocation epoch, so whenever a chain is accepted, rewriting the three
    epoch bytes of the Release entry to any epoch the (possibly newer) list does not name
    gives a slot that is accepted again, with the same keys and signatures. *)
Theorem epoch_not_authenticated S (OK : SigSchemeOk S) revR revR' revU slot h eG eR gc rc uc hu ep :
  bytes slot -> bytes h -> length h = 32%nat -> bytes eG -> length eG = 64%nat ->
  janosVerifyChainSlot revR revU slot h eG eR = Some (gc, rc, uc, hu) ->
  0 <= ep < 2 ^ 24 -> ~ revoked revR' (digest eR) ep ->
  janosVerifyChainSlot revR' revU (with_epoch slot 1 ep) h eG eR =
  Some (gc, MkCert (Level rc) ep (SignerPubKey rc) (ParentCert rc) (Signature rc), uc, hu).
Proof.
  intros Hs Hh Lh HG LG H He Hn.
  apply chain_ok_iff in H; try assumption; destruct H as (g & r & o & C & U & -> & -> & Eu).
  apply chain_ok_iff; try assumption; [apply bytes_with_epoch, Hs|].
  destruct C as [C1 C2 C3 C4 C5 C6 C7 C8 C9 _].
  assert (D : forall j, (j <> 1)%nat ->
    decodeJanosEntry (with_epoch slot 1 ep) (Z.of_nat j) = decodeJanosEntry slot (Z.of_nat j))
    by (intros; apply decode_with_epoch_ne; [unfold MaxEntries|]; lia).
  exists g, (entry_with_epoch r ep), o; split; [|split; [|split; [reflexivity|split; [reflexivity|exact Eu]]]].
  - split; try assumption.
    + rewrite check_with_epoch; exact C1.
    + exact (eq_trans (D 0%nat ltac:(lia)) C2).
    + apply (decode_with_epoch slot 1 ep r He C5).
    + cbn [e_revokeEpoch e_signerPK entry_with_epoch]; rewrite C7; exact Hn.
  - destruct o as [u|]; cbn [user_ok] in *; change 2 with (Z.of_nat 2) at 1; rewrite (D 2%nat ltac:(lia)); exact U.
Qed.

(** The Release of the toy chain is revoked at its epoch 9; epoch 10 is accepted. *)
Lemma epoch_not_authenticated_witness :
  let slot := EncodeSlot [toy_guild; toy_release 9; toy_user] in
  let rl := [MkRev (repeat 2 32) 9] in
  @janosVerifyChainSlot toy_sig rl [] slot toy_hash (repeat 1 64) (repeat 2 64) = None /\
  @janosVerifyChainSlot toy_sig rl [] (with_epoch slot 1 10) toy_hash (repeat 1 64) (repeat 2 64) <> None.
Proof.
  intros slot rl; split; [vm_compute; reflexivity|].
  destruct (@janosVerifyChainSlot toy_sig [] [] slot toy_hash (repeat 1 64) (repeat 2 64))
    as [[[[gc rc] uc] hu]|] eqn:E; [|vm_compute in E; discriminate E].
  rewrite (epoch_not_authenticated toy_sig toy_sig_ok [] rl [] slot toy_hash (repeat 1 64) (repeat 2 64)
    gc rc uc hu 10 ltac:(apply bytesb_ok; vm_compute; reflexivity) ltac:(apply bytesb_ok; reflexivity) eq_refl
    ltac:(apply bytesb_ok; reflexivity) eq_refl E ltac:(lia)).
  - discriminate.
  - intros (e & [<-|[]] & _ & [H|H]); discriminate H.
Defined.

(** A revocation entry for one epoch at or above 2^24 has no effect: the decoded epoch
    has 24 bits, so such an entry (short of the wildcard) matches no slot, although
    certificates with such epochs can be issued. *)
Theorem large_epoch_revocation_void S id ep revR revU slot h eG eR :
  bytes slot -> 2 ^ 24 <= ep < janosWildcardRevokeEpoch ->
  janosVerifyChainSlot (S := S) (MkRev id ep :: revR) revU slot h eG eR =
  janosVerifyChainSlot (S := S) revR revU slot h eG eR /\
  janosVerifyChainSlot (S := S) revR (MkRev id ep :: revU) slot h eG eR =
  janosVerifyChainSlot (S := S) revR revU slot h eG eR.
Proof.
  intros Hs He.
  assert (R : forall l e i x, decodeJanosEntry slot i = Some e ->
    janosIsRevoked (MkRev id ep :: l) x (e_revokeEpoch e) = janosIsRevoked l x (e_revokeEpoch e)).
  { intros l e i x D; pose proof (ew_epoch _ (decode_wf _ _ _ Hs D)) as Hb; cbn [janosIsRevoked signerKeyID revokeEpoch].
    destruct (bytes_eqb id x); cbn [negb]; [|reflexivity].
    destruct (Z.eqb_spec ep janosWildcardRevokeEpoch), (Z.eqb_spec ep (e_revokeEpoch e)); cbn [orb]; lia || reflexivity. }
  split; unfold janosVerifyChainSlot, verify_user, janosCertIDFromPubKey.
  - destruct (decodeJanosEntry slot 1) as [r|] eqn:D; [rewrite (R _ _ _ _ D)|]; reflexivity.
  - destruct (decodeJanosEntry slot 2) as [u|] eqn:D; [rewrite (R _ _ _ _ D)|]; reflexivity.
Qed.

Lemma large_epoch_revocation_void_witness :
  2 ^ 24 <= 2 ^ 24 + 9 < janosWildcardRevokeEpoch /\
  @janosVerifyChainSlot toy_sig [MkRev (repeat 2 32) (2 ^ 24 + 9)] []
    (EncodeSlot [toy_guild; toy_release (2 ^ 24 + 9); toy_user]) toy_hash (repeat 1 64) (repeat 2 64) <> None.
Proof.
  assert (H : 2 ^ 24 <= 2 ^ 24 + 9 < janosWildcardRevokeEpoch) by (vm_compute; split; [discriminate|reflexivity]).
  split; [exact H|].
  rewrite (proj1 (large_epoch_revocation_void toy_sig (repeat 2 32) (2 ^ 24 + 9) [] []
    (EncodeSlot [toy_guild; toy_release (2 ^ 24 + 9); toy_user]) toy_hash (repeat 1 64) (repeat 2 64)
    ltac:(apply bytesb_ok; vm_compute; reflexivity) H)).
  vm_compute; discriminate.
Defined.
