(* ===== verification/Identity.v ===== *)
(** * Identity: goroutines and their identity blocks

    The state half of runtime/janos_identity.go with the two ways a goroutine is born:
    [go] (newproc1 in runtime/proc.go copies the creator's provenance) and janosSpark
    (a fresh block).  A block's address is its position in the heap of blocks; the
    collector is not modelled, so addresses are never reused. *)

From Stdlib Require Import String ZArith Lia List Bool Zmod.
From S2P Require Import Prelude Slices P256Group Sha2 Kdf Provenance.
Import ListNotations.

(** ** Interface *)

(** What identities ask of the cryptography: a key pair for an index under the root key,
    and key agreement. *)
Class KeyScheme : Type := {
  derive_key : list Z -> Z -> outcome derive_throw (list Z * list Z);
  key_agree : list Z -> list Z -> list Z -> outcome identity_error (list Z);
}.

(** What they rely on: public points are 64 bytes. *)
Class KeySchemeOk (K : KeyScheme) : Prop := {
  derive_key_pub : forall root idx priv pub,
    bytes root -> length root = 32%nat -> derive_key root idx = Ret (priv, pub) -> bytes pub /\ length pub = 64%nat;
}.

(** The runtime's own. *)
#[export] Instance runtime_keys : KeyScheme := {
  derive_key := janosDeriveIdentityKey;
  key_agree := janosIdentityECDH;
}.

#[export] Instance runtime_keys_ok : KeySchemeOk runtime_keys.
Proof.
  split; intros root idx priv pub Hb Hl; cbn [derive_key runtime_keys]; rewrite derive_key_ok by assumption; cbv zeta.
  destruct (ec_mul _ ec_G) as [[x y]|]; [|discriminate]; intros H; apply Ret_inj in H; injection H as <- <-.
  apply encode_point_wf.
Qed.

(** ** State *)

Record identityBlock : Type := MkBlock {
  b_parentInstanceID : list Z;
  b_index : Z;
  b_privateKey : list Z;
  b_publicPoint : list Z;
}.

(** The value [Identify] returns; [None] is a nil block pointer. *)
Record Identity : Type := MkIdentity {
  i_index : Z;
  i_PublicPoint : list Z;
  i_block : option nat;
}.

Definition identity_zero : Identity := MkIdentity 0 (repeat 0 64) None.

(** A goroutine: its provenance, and for a spark whose first instructions have not run
    yet, the identity and instance they will install. *)
Record goroutine : Type := MkG {
  g_prov : gProvenance;
  g_install : option (nat * list Z);
}.

Record RT : Type := MkRT {
  rng : list Z;
  janosRootKey : list Z;
  heap : list identityBlock;
  gs : list goroutine;
  janosFinalizersReady : Z;
  janosDeferredFinalizerBlock : option nat;
  with_finalizer : list nat;
}.

Definition set_rng (s : RT) (r : list Z) : RT :=
  MkRT r (janosRootKey s) (heap s) (gs s) (janosFinalizersReady s) (janosDeferredFinalizerBlock s) (with_finalizer s).
Definition set_gs (s : RT) (x : list goroutine) : RT :=
  MkRT (rng s) (janosRootKey s) (heap s) x (janosFinalizersReady s) (janosDeferredFinalizerBlock s) (with_finalizer s).

Definition goroutine_at (s : RT) (i : nat) : option goroutine := nth_error (gs s) i.

Definition set_prov (s : RT) (i : nat) (p : gProvenance) : RT :=
  set_gs s (upd (gs s) i (MkG p None)).

(** ** The atomic flag *)

Definition AtomicBool_Load (v : Z) : bool := negb (v =? 0).
Definition AtomicBool_Store (b : bool) : Z := if b then 1 else 0.

Section Keys.
Context {KS : KeyScheme}.

(** ** Minting *)

(** [uint64(hi)<<32 | uint64(lo)] *)
Definition mint_index (hi lo : Z) : Z := Z.lor (u64 (Z.shiftl hi 32)) lo.

Definition janosMintIdentity (s : RT) (parentInstanceID : list Z) : outcome derive_throw (nat * RT) :=
  let '(hi, r) := rand (rng s) in
  let '(lo, r) := rand r in
  let idx := mint_index hi lo in
  bind (derive_key (janosRootKey s) idx) (fun '(priv, pub) =>
    let b := MkBlock parentInstanceID idx priv pub in
    let addr := length (heap s) in
    let ready := AtomicBool_Load (janosFinalizersReady s) in
    Ret (addr,
      MkRT r (janosRootKey s) (heap s ++ [b]) (gs s) (janosFinalizersReady s)
        (if ready then janosDeferredFinalizerBlock s else Some addr)
        (if ready then with_finalizer s ++ [addr] else with_finalizer s))).

Definition janosLateFinalizerInit (s : RT) : RT :=
  MkRT (rng s) (janosRootKey s) (heap s) (gs s) (AtomicBool_Store true) None
    (match janosDeferredFinalizerBlock s with
     | Some b => with_finalizer s ++ [b]
     | None => with_finalizer s
     end).

Definition janosFreshInstanceID (r : list Z) : list Z * list Z :=
  let '(hi, r) := rand r in
  let '(lo, r) := rand r in
  (two_words (repeat 0 16) hi lo, r).

(** [for i < 4 { r := rand(); for j < 8 { janosRootKey[i*8+j] = byte(r >> (j*8)) } }] *)
Definition fill_root_key (rootKey r : list Z) : list Z * list Z :=
  for_range 0 4 (fun i '(key, r) => let '(x, r) := rand r in (put_word key (i * 8) x, r)) (rootKey, r).

(** On the boot goroutine, number 0. *)
Definition janosInitIdentity (s : RT) : outcome derive_throw RT :=
  let '(key, r) := fill_root_key (janosRootKey s) (rng s) in
  let s := MkRT r key (heap s) (gs s) (janosFinalizersReady s) (janosDeferredFinalizerBlock s) (with_finalizer s) in
  bind (janosMintIdentity s (repeat 0 16)) (fun '(addr, s) =>
    match goroutine_at s 0 with
    | None => Panic
    | Some g => Ret (set_prov s 0 (set_identity (g_prov g) (Some addr)))
    end).

(** ** Reading and using an identity *)

Definition Identify (s : RT) (g : nat) : option Identity :=
  match goroutine_at s g with
  | None => None
  | Some g =>
      match identity (g_prov g) with
      | None => Some identity_zero
      | Some ib =>
          match nth_error (heap s) ib with
          | None => None
          | Some b => Some (MkIdentity (b_index b) (b_publicPoint b) (Some ib))
          end
      end
  end.

(** [id.Derive(other...)] called on goroutine [g]. *)
Definition Derive (s : RT) (g : nat) (id : Identity) (other : list Z) : outcome identity_error (list Z) :=
  match i_block id with
  | None => Fail ErrEmpty
  | Some ib =>
      match nth_error (heap s) ib, goroutine_at s g with
      | Some b, Some g =>
          if negb (i_index id =? b_index b) || negb (bytes_eqb (i_PublicPoint id) (b_publicPoint b))
          then Fail ErrTampered
          else if negb (match identity (g_prov g) with Some a => (a =? ib)%nat | None => false end)
          then Fail ErrCrossGoroutine
          else if (length other =? 0)%nat then Ret (copy_into (repeat 0 64) 0 (b_publicPoint b))
          else key_agree (b_privateKey b) (b_publicPoint b) other
      | _, _ => Panic
      end
  end.

(** ** Birth of goroutines *)

(** [go f()] on goroutine [g]: [newg.provenance = callergp.provenance]. *)
Definition newproc (s : RT) (g : nat) : option RT :=
  match goroutine_at s g with
  | None => None
  | Some p => Some (set_gs s (gs s ++ [MkG (g_prov p) None]))
  end.

(** [janosSpark(f)] on goroutine [g]: everything happens on the parent; the child is
    left with the values its first instructions install. *)
Definition janosSpark (s : RT) (g : nat) : outcome derive_throw RT :=
  match goroutine_at s g with
  | None => Panic
  | Some p =>
      let parentInstanceID := instanceID (g_prov p) in
      bind (janosMintIdentity s parentInstanceID) (fun '(newBlock, s) =>
        let '(freshIID, r) := janosFreshInstanceID (rng s) in
        let s := set_rng s r in
        Ret (set_gs s (gs s ++ [MkG (g_prov p) (Some (newBlock, freshIID))])))
  end.

(** The child's first instructions. *)
Definition spark_prologue (s : RT) (g : nat) : option RT :=
  match goroutine_at s g with
  | Some (MkG p (Some (newBlock, freshIID))) =>
      Some (set_prov s g (set_instanceID (set_identity p (Some newBlock)) freshIID))
  | _ => None
  end.

(** [janosIdentityBlockAddr]: 0 for a nil block, otherwise a non-zero key. *)
Definition janosIdentityBlockAddr (id : Identity) : nat :=
  match i_block id with None => 0%nat | Some a => S a end.

(** ** Finalisation hooks *)

(** [janosRegisterBlockFinalizedHook] and [janosBlockFinalized]: the hooks are a list in
    order of registration and each is called with the block's address, on a snapshot. *)
Definition janosRegisterBlockFinalizedHook {H} (fns : list H) (fn : H) : list H := fns ++ [fn].

Definition janosBlockFinalized {H W} (call : H -> nat -> W -> W) (fns : list H) (addr : nat) (w : W) : W :=
  let snapshot := firstn (length fns) fns in
  fold_left (fun w fn => call fn addr w) snapshot w.

(** ** Steps *)

(** User code runs on goroutines without a pending prologue. *)
Definition running (s : RT) (g : nat) : Prop :=
  exists p, goroutine_at s g = Some (MkG p None).

Inductive step : RT -> RT -> Prop :=
| step_go s g s' : running s g -> newproc s g = Some s' -> step s s'
| step_spark s g s' : running s g -> janosSpark s g = Ret s' -> step s s'
| step_prologue s g s' : spark_prologue s g = Some s' -> step s s'
| step_late s : step s (janosLateFinalizerInit s).

Inductive reachable (s0 : RT) : RT -> Prop :=
| reach_refl : reachable s0 s0
| reach_step s s' : reachable s0 s -> step s s' -> reachable s0 s'.

(** The state [schedinit] hands to janosInitIdentity: one goroutine, no block. *)
Definition boot_state (r : list Z) (p : gProvenance) : RT :=
  MkRT r (repeat 0 32) [] [MkG p None] 0 None [].

(** A state of a process that booted with some randomness. *)
Definition live (s : RT) : Prop :=
  exists r p s0, prov_wf p /\ Forall is_u64 r /\ janosInitIdentity (boot_state r p) = Ret s0 /\ reachable s0 s.

(** ** Lemmas *)

Lemma nth_error_upd {A} (l : list A) i j x :
  nth_error (upd l i x) j =
  if (j =? i)%nat then (if (i <? length l)%nat then Some x else None) else nth_error l j.
Proof.
  revert i j; induction l as [|y l IH]; intros [|i] [|j]; cbn [upd nth_error length Nat.eqb]; try reflexivity.
  - destruct (j =? i)%nat; reflexivity.
  - rewrite IH; destruct (Nat.eqb_spec j i), (Nat.ltb_spec i (length l)), (Nat.ltb_spec (S i) (S (length l)));
      lia || reflexivity.
Qed.

Lemma nth_error_snoc {A} (l : list A) x j :
  nth_error (l ++ [x]) j = if (j =? length l)%nat then Some x else nth_error l j.
Proof.
  destruct (Nat.eqb_spec j (length l)) as [->|H].
  - rewrite nth_error_app2, Nat.sub_diag by lia; reflexivity.
  - destruct (Nat.lt_ge_cases j (length l)); [apply nth_error_app1; assumption|].
    transitivity (@None A); [|symmetry]; apply nth_error_None; rewrite ?length_app; cbn [length]; lia.
Qed.

Lemma rand_u64 r : Forall is_u64 r -> is_u64 (fst (rand r)) /\ Forall is_u64 (snd (rand r)).
Proof. intros H; destruct H; cbn; split; auto; unword; lia. Qed.

Lemma fill_root_key_ok key r :
  bytes key -> length key = 32%nat -> Forall is_u64 r ->
  bytes (fst (fill_root_key key r)) /\ length (fst (fill_root_key key r)) = 32%nat /\
  Forall is_u64 (snd (fill_root_key key r)).
Proof.
  intros Hb Hl Hr; unfold fill_root_key.
  match goal with |- context [for_range 0 4 ?body ?s] =>
    pose proof (for_range_ind (fun _ '(k, r) => bytes k /\ length k = 32%nat /\ Forall is_u64 r) 0 4 body s) as H end.
  destruct (for_range 0 4 _ _) as [k r']; cbn [fst snd]; apply H; [auto|clear H].
  intros i [k2 r2] _ (H1 & H2 & H3); pose proof (rand_u64 r2 H3) as [_ H4].
  destruct (rand r2) as [x r3]; cbn [snd] in H4.
  enough (G : bytes (put_word k2 (i * 8) x) /\ length (put_word k2 (i * 8) x) = 32%nat) by tauto.
  unfold put_word; clear - H1 H2.
  pose proof (for_range_ind (fun _ k => bytes k /\ length k = 32%nat) 0 8
    (fun j dst => upd dst (i * 8 + j) (u8 (Z.shiftr x (8 * Z.of_nat j)))) k2) as H; cbn [Nat.add] in H.
  apply H; [auto|intros j k _ [? ?]; split; [auto with janos|rewrite length_upd; assumption]].
Qed.

Lemma fresh_iid_ok r :
  Forall is_u64 r -> bytes (fst (janosFreshInstanceID r)) /\
  length (fst (janosFreshInstanceID r)) = 16%nat /\ Forall is_u64 (snd (janosFreshInstanceID r)).
Proof.
  intros H; unfold janosFreshInstanceID.
  pose proof (rand_u64 r H) as [_ H1]; destruct (rand r) as [hi r1]; cbn [snd] in H1.
  pose proof (rand_u64 r1 H1) as [_ H2]; destruct (rand r1) as [lo r2]; cbn [fst snd] in *.
  rewrite two_words_ok by reflexivity.
  split; [apply bytes_app; split; auto with janos|split; [|exact H2]].
  rewrite length_app, !length_le_bytes; reflexivity.
Qed.

(** *** The invariant *)

(** A block holds the key pair its index derives. *)
Definition block_ok (root : list Z) (b : identityBlock) : Prop :=
  derive_key root (b_index b) = Ret (b_privateKey b, b_publicPoint b).

(** Goroutine [p] at place [i]: a valid identity, and a pending identity nobody else has. *)
Record goroutine_ok (s : RT) (i : nat) (p : goroutine) : Prop := {
  go_prov : prov_wf (g_prov p);
  go_ident : exists a, identity (g_prov p) = Some a /\ (a < length (heap s))%nat;
  go_install : forall a iid, g_install p = Some (a, iid) ->
    (a < length (heap s))%nat /\ bytes iid /\ length iid = 16%nat /\
    (forall j q, nth_error (gs s) j = Some q -> identity (g_prov q) <> Some a) /\
    (forall j q iid', nth_error (gs s) j = Some q -> g_install q = Some (a, iid') -> j = i);
}.

Record inv (s : RT) : Prop := {
  inv_rng : Forall is_u64 (rng s);
  inv_root : bytes (janosRootKey s) /\ length (janosRootKey s) = 32%nat;
  inv_heap : Forall (block_ok (janosRootKey s)) (heap s);
  inv_gs : forall i p, nth_error (gs s) i = Some p -> goroutine_ok s i p;
}.

Lemma mint_ok s parent a s' :
  inv s \/ (Forall is_u64 (rng s) /\ bytes (janosRootKey s) /\ length (janosRootKey s) = 32%nat /\ heap s = []) ->
  janosMintIdentity s parent = Ret (a, s') ->
  a = length (heap s) /\ gs s' = gs s /\ janosRootKey s' = janosRootKey s /\
  Forall is_u64 (rng s') /\
  exists b, heap s' = heap s ++ [b] /\ block_ok (janosRootKey s) b /\ b_parentInstanceID b = parent.
Proof.
  intros Hs; unfold janosMintIdentity.
  assert (Hr : Forall is_u64 (rng s)) by (destruct Hs as [H|H]; [apply H|tauto]).
  pose proof (rand_u64 _ Hr) as [_ H1]; destruct (rand (rng s)) as [hi r1]; cbn [snd] in H1.
  pose proof (rand_u64 _ H1) as [_ H2]; destruct (rand r1) as [lo r2]; cbn [snd] in H2.
  destruct (derive_key _ _) as [[priv pub]| |] eqn:E; cbn [bind]; try discriminate.
  intros H; apply Ret_inj in H; injection H as <- <-; cbn [heap gs janosRootKey rng].
  repeat (split; [reflexivity || assumption|]).
  exists (MkBlock parent (mint_index hi lo) priv pub); split; [reflexivity|split; [exact E|reflexivity]].
Qed.

(** A goroutine stays in order when the heap grows and others keep away from its pending
    block. *)
Lemma goroutine_ok_grow s s' i p :
  goroutine_ok s i p -> (length (heap s) <= length (heap s'))%nat ->
  (forall j q, nth_error (gs s') j = Some q -> nth_error (gs s) j = Some q \/
     (exists k r, nth_error (gs s) k = Some r /\ g_prov q = g_prov r) /\
     (forall a iid, g_install q = Some (a, iid) -> (length (heap s) <= a)%nat)) ->
  goroutine_ok s' i p.
Proof.
  intros [H1 (a & H2 & H3) H4] Hl Hn; split; [exact H1|exists a; split; [exact H2|lia]|].
  intros b iid Hi; destruct (H4 b iid Hi) as (K1 & K2 & K3 & K4 & K5).
  split; [lia|split; [exact K2|split; [exact K3|split]]].
  - intros j q Hq; destruct (Hn j q Hq) as [Hq'|[(k & r & Hr & ->) _]]; eauto.
  - intros j q iid' Hq Hi'; destruct (Hn j q Hq) as [Hq'|[_ Hg]]; [eauto|].
    specialize (Hg b iid' Hi'); lia.
Qed.

Lemma newproc_inv s g s' : inv s -> running s g -> newproc s g = Some s' -> inv s'.
Proof.
  intros I [p Hp]; unfold newproc; rewrite Hp; intros [= <-]; destruct I as [I1 I2 I3 I4].
  split; cbn [set_gs rng janosRootKey heap gs g_prov]; try assumption.
  assert (Hn : forall j q, nth_error (gs s ++ [MkG p None]) j = Some q ->
    nth_error (gs s) j = Some q \/ (exists k r, nth_error (gs s) k = Some r /\ g_prov q = g_prov r) /\
    (forall a iid, g_install q = Some (a, iid) -> (length (heap s) <= a)%nat)).
  { intros j q; rewrite nth_error_snoc; destruct (Nat.eqb_spec j (length (gs s))); [|auto].
    intros [= <-]; right; split; [exists g, (MkG p None); auto|discriminate]. }
  intros i q; rewrite nth_error_snoc; destruct (Nat.eqb_spec i (length (gs s))) as [->|].
  - intros [= <-]; destruct (I4 g _ Hp) as [K1 K2 _]; split; [exact K1|exact K2|discriminate].
  - intros Hq; apply (goroutine_ok_grow s); [apply I4, Hq|reflexivity|exact Hn].
Qed.

Lemma spark_inv s g s' : inv s -> running s g -> janosSpark s g = Ret s' -> inv s'.
Proof.
  intros I [p Hp]; unfold janosSpark; rewrite Hp; cbn [g_prov].
  destruct (janosMintIdentity s _) as [[a s1]| |] eqn:E; cbn [bind]; try discriminate.
  destruct (mint_ok _ _ _ _ (or_introl I) E) as (-> & Eg & Er & Hr & b & Eh & Hb & _).
  destruct (fresh_iid_ok _ Hr) as (F1 & F2 & F3); destruct (janosFreshInstanceID (rng s1)) as [iid r]; cbn [fst snd] in *.
  intros H; apply Ret_inj in H; subst s'; pose proof I as [I1 I2 I3 I4].
  split; cbn [set_gs set_rng rng janosRootKey heap gs]; rewrite ?Er, ?Eg, ?Eh; try assumption.
  { apply Forall_app; split; [exact I3|constructor; [exact Hb|constructor]]. }
  set (new := MkG p (Some (length (heap s), iid))).
  assert (Hn : forall j q, nth_error (gs s ++ [new]) j = Some q ->
    nth_error (gs s) j = Some q \/ (exists k r, nth_error (gs s) k = Some r /\ g_prov q = g_prov r) /\
    (forall a iid, g_install q = Some (a, iid) -> (length (heap s) <= a)%nat)).
  { intros j q; rewrite nth_error_snoc; destruct (Nat.eqb_spec j (length (gs s))); [|auto].
    intros [= <-]; right; split; [exists g, (MkG p None); auto|intros a' iid' [= <- <-]; lia]. }
  intros i q; rewrite nth_error_snoc; destruct (Nat.eqb_spec i (length (gs s))) as [->|].
  - intros [= <-]; destruct (I4 g _ Hp) as [K1 (a & K2 & K3) _].
    split; cbn [new g_prov g_install heap gs set_gs set_rng]; [exact K1|exists a; rewrite Eh, length_app; split; [exact K2|lia]|].
    intros a' iid' [= <- <-]; cbn [set_gs set_rng heap gs]; rewrite Eh, ?Eg, length_app; cbn [length].
    split; [lia|split; [exact F1|split; [exact F2|split]]].
    + intros j q Hq Hi; destruct (Hn j q Hq) as [Hq'|[(k & r' & Hr' & Ep) _]].
      * destruct (I4 j q Hq') as [_ (x & X1 & X2) _]; rewrite Hi in X1; injection X1 as <-; lia.
      * destruct (I4 k r' Hr') as [_ (x & X1 & X2) _]; rewrite <- Ep, Hi in X1; injection X1 as <-; lia.
    + intros j q iid' Hq Hi; rewrite nth_error_snoc in Hq; destruct (Nat.eqb_spec j (length (gs s))); [assumption|].
      destruct (I4 j q Hq) as [_ _ X]; destruct (X _ _ Hi); lia.
  - intros Hq; apply (goroutine_ok_grow s); cbn [set_gs set_rng heap gs];
      [apply I4, Hq|rewrite Eh, length_app; lia|rewrite ?Eg; exact Hn].
Qed.

Lemma prologue_inv s g s' : inv s -> spark_prologue s g = Some s' -> inv s'.
Proof.
  intros [I1 I2 I3 I4]; unfold spark_prologue, set_prov.
  destruct (goroutine_at s g) as [[p [[a iid]|]]|] eqn:Hp; try discriminate; intros [= <-].
  split; cbn [set_gs rng janosRootKey heap gs]; try assumption.
  destruct (I4 g _ Hp) as [K1 (x & K2 & K3) K4]; destruct (K4 a iid eq_refl) as (L1 & L2 & L3 & L4 & L5).
  assert (Hlen : (g < length (gs s))%nat) by (apply nth_error_Some; unfold goroutine_at in Hp; congruence).
  set (new := MkG (set_instanceID (set_identity p (Some a)) iid) None).
  intros i q; rewrite nth_error_upd; destruct (Nat.eqb_spec i g) as [->|Hne].
  - destruct (Nat.ltb_spec g (length (gs s))); [|lia]; intros [= <-]; split; [|exists a; auto|discriminate].
    destruct K1; split; cbn [new g_prov set_instanceID set_identity instanceID binaryHash guildCertID releaseCertID trustLevel] in *; auto.
  - intros Hq; destruct (I4 i q Hq) as [M1 M2 M4]; split; [exact M1|exact M2|].
    intros b iid' Hb; destruct (M4 b iid' Hb) as (N1 & N2 & N3 & N4 & N5).
    assert (Hab : b <> a) by (intros ->; apply Hne, (L5 i q iid' Hq Hb)).
    split; [exact N1|split; [exact N2|split; [exact N3|split]]]; cbn [set_gs gs];
      intros j r; rewrite nth_error_upd; (destruct (Nat.eqb_spec j g) as [->|]; [|eauto]);
      (destruct (Nat.ltb_spec g (length (gs s))); [|lia]).
    + intros [= <-]; cbn [new g_prov set_instanceID set_identity identity]; congruence.
    + intros iid2 [= <-]; discriminate.
Qed.

Lemma late_inv s : inv s -> inv (janosLateFinalizerInit s).
Proof. intros [I1 I2 I3 I4]; split; try assumption; intros i p Hp; destruct (I4 i p Hp); split; assumption. Qed.

Lemma step_inv s s' : inv s -> step s s' -> inv s'.
Proof.
  intros I H; destruct H as [s g s' R H|s g s' R H|s g s' H|s].
  - exact (newproc_inv _ _ _ I R H).
  - exact (spark_inv _ _ _ I R H).
  - exact (prologue_inv _ _ _ I H).
  - exact (late_inv _ I).
Qed.

Lemma init_inv r p s : prov_wf p -> Forall is_u64 r -> janosInitIdentity (boot_state r p) = Ret s -> inv s.
Proof.
  intros Hp Hr; unfold janosInitIdentity, boot_state; cbn [janosRootKey rng heap gs].
  destruct (fill_root_key_ok (repeat 0 32) r ltac:(apply bytesb_ok; reflexivity) eq_refl Hr) as (F1 & F2 & F3).
  destruct (fill_root_key (repeat 0 32) r) as [key r1]; cbn [fst snd] in *.
  set (s1 := MkRT r1 key _ _ _ _ _).
  destruct (janosMintIdentity s1 _) as [[a s2]| |] eqn:E; cbn [bind]; try discriminate.
  assert (Hm : inv s1 \/ Forall is_u64 (rng s1) /\ bytes (janosRootKey s1) /\ length (janosRootKey s1) = 32%nat /\ heap s1 = [])
    by (right; auto).
  destruct (mint_ok _ _ _ _ Hm E) as (-> & Eg & Er & Hr2 & b & Eh & Hb & _).
  unfold goroutine_at; rewrite Eg; cbn [s1 gs nth_error heap app length] in *.
  intros H; apply Ret_inj in H; subst s; unfold set_prov; rewrite Eg; cbn [upd g_prov].
  split; cbn [set_gs rng janosRootKey heap gs]; rewrite ?Er, ?Eh; auto.
  - intros [|[|i]] q; cbn [nth_error]; try discriminate; intros [= <-].
    split; cbn [g_prov g_install]; [|exists 0%nat; cbn [set_gs heap]; rewrite Eh; cbn; split; [reflexivity|lia]|discriminate].
    destruct Hp; split; assumption.
Qed.

Lemma live_inv s : live s -> inv s.
Proof.
  intros (r & p & s0 & Hp & Hr & E & R); induction R as [|s s' _ IH Hs]; [exact (init_inv _ _ _ Hp Hr E)|].
  exact (step_inv _ _ IH Hs).
Qed.

(** *** What the invariant gives a goroutine *)

Lemma running_live s g : inv s -> running s g -> exists p a b,
  goroutine_at s g = Some (MkG p None) /\ identity p = Some a /\ nth_error (heap s) a = Some b /\
  block_ok (janosRootKey s) b /\ Identify s g = Some (MkIdentity (b_index b) (b_publicPoint b) (Some a)).
Proof.
  intros I [p Hp]; destruct (inv_gs _ I g _ Hp) as [_ (a & Ha & Hl) _]; cbn [g_prov] in Ha.
  destruct (nth_error (heap s) a) as [b|] eqn:Hb; [|apply nth_error_None in Hb; lia].
  exists p, a, b; split; [exact Hp|split; [exact Ha|split; [exact Hb|split]]].
  - exact (proj1 (Forall_forall _ _) (inv_heap _ I) b (nth_error_In _ _ Hb)).
  - unfold Identify; rewrite Hp; cbn [g_prov]; rewrite Ha, Hb; reflexivity.
Qed.

Lemma block_pub `{!KeySchemeOk KS} root b :
  bytes root -> length root = 32%nat -> block_ok root b -> length (b_publicPoint b) = 64%nat.
Proof. intros Hb Hl Ok; exact (proj2 (derive_key_pub root _ _ _ Hb Hl Ok)). Qed.

Lemma Derive_own s g p a b other :
  goroutine_at s g = Some p -> identity (g_prov p) = Some a -> nth_error (heap s) a = Some b ->
  Derive s g (MkIdentity (b_index b) (b_publicPoint b) (Some a)) other =
  if (length other =? 0)%nat then Ret (copy_into (repeat 0 64) 0 (b_publicPoint b))
  else key_agree (b_privateKey b) (b_publicPoint b) other.
Proof.
  intros Hp Ha Hb; unfold Derive; cbn [i_block i_index i_PublicPoint]; rewrite Hb, Hp, Ha.
  rewrite Z.eqb_refl, bytes_eqb_refl, Nat.eqb_refl; reflexivity.
Qed.

Lemma Derive_foreign s g p a b other :
  goroutine_at s g = Some p -> identity (g_prov p) <> Some a -> nth_error (heap s) a = Some b ->
  Derive s g (MkIdentity (b_index b) (b_publicPoint b) (Some a)) other = Fail ErrCrossGoroutine.
Proof.
  intros Hp Ha Hb; unfold Derive; cbn [i_block i_index i_PublicPoint]; rewrite Hb, Hp.
  rewrite Z.eqb_refl, bytes_eqb_refl; cbn [negb orb].
  destruct (identity (g_prov p)) as [a'|]; [|reflexivity].
  destruct (Nat.eqb_spec a' a) as [->|]; [contradiction|reflexivity].
Qed.

(** *** Finalizers *)

(** Goroutines started while package initialisers run. *)
Inductive go_only (s0 : RT) : RT -> Prop :=
| go_refl : go_only s0 s0
| go_step s g s' : go_only s0 s -> running s g -> newproc s g = Some s' -> go_only s0 s'.

Definition finalizers_ok (s : RT) : Prop :=
  janosFinalizersReady s = 1 /\ janosDeferredFinalizerBlock s = None /\ with_finalizer s = seq 0 (length (heap s)).

Lemma go_only_same s0 s : go_only s0 s ->
  heap s = heap s0 /\ janosFinalizersReady s = janosFinalizersReady s0 /\
  janosDeferredFinalizerBlock s = janosDeferredFinalizerBlock s0 /\ with_finalizer s = with_finalizer s0.
Proof.
  induction 1 as [|s g s' _ IH _ H]; [auto|].
  unfold newproc in H; destruct (goroutine_at s g); [|discriminate]; injection H as <-; exact IH.
Qed.

Lemma mint_finalizer s parent a s' :
  janosMintIdentity s parent = Ret (a, s') -> finalizers_ok s -> finalizers_ok s'.
Proof.
  unfold janosMintIdentity; destruct (rand (rng s)) as [hi r1], (rand r1) as [lo r2].
  destruct (derive_key _ _) as [[priv pub]| |]; cbn [bind]; try discriminate.
  intros H (H1 & H2 & H3); apply Ret_inj in H; injection H as <- <-; unfold finalizers_ok; cbn [janosFinalizersReady janosDeferredFinalizerBlock with_finalizer heap].
  rewrite H1, H2, H3, length_app; cbn [AtomicBool_Load Z.eqb negb length].
  split; [reflexivity|split; [reflexivity|]]; rewrite seq_app; reflexivity.
Qed.

Lemma step_finalizers s s' : step s s' -> finalizers_ok s -> finalizers_ok s'.
Proof.
  intros H; destruct H as [s g s' _ H|s g s' _ H|s g s' H|s]; intros F.
  - unfold newproc in H; destruct (goroutine_at s g); [|discriminate]; injection H as <-; exact F.
  - unfold janosSpark in H; destruct (goroutine_at s g) as [p|]; [|discriminate].
    destruct (janosMintIdentity s _) as [[a s1]| |] eqn:E; cbn [bind] in H; try discriminate.
    destruct (janosFreshInstanceID (rng s1)); apply Ret_inj in H; subst s'.
    exact (mint_finalizer _ _ _ _ E F).
  - unfold spark_prologue, set_prov in H; destruct (goroutine_at s g) as [[p [[? ?]|]]|]; try discriminate.
    injection H as <-; exact F.
  - destruct F as (_ & F2 & F3); unfold finalizers_ok, janosLateFinalizerInit;
      cbn [janosFinalizersReady janosDeferredFinalizerBlock with_finalizer heap]; rewrite F2; auto.
Qed.

(** *** Frames *)

Lemma goroutine_snoc s x g p : nth_error (gs s) g = Some p -> nth_error (gs s ++ [x]) g = Some p.
Proof. intros H; rewrite nth_error_app1; [exact H|apply nth_error_Some; congruence]. Qed.

Lemma step_frame s s' g :
  inv s -> step s s' -> running s g ->
  (exists l, heap s' = heap s ++ l) /\ goroutine_at s' g = goroutine_at s g.
Proof.
  intros I H [p Hp]; unfold goroutine_at in *.
  destruct H as [s h s' _ H|s h s' _ H|s h s' H|s].
  - unfold newproc in H; destruct (goroutine_at s h); [|discriminate]; injection H as <-.
    split; [exists []; symmetry; apply app_nil_r|cbn [set_gs gs]; rewrite Hp; apply goroutine_snoc, Hp].
  - unfold janosSpark in H; destruct (goroutine_at s h) as [q|]; [|discriminate].
    destruct (janosMintIdentity s _) as [[a s1]| |] eqn:E; cbn [bind] in H; try discriminate.
    destruct (mint_ok _ _ _ _ (or_introl I) E) as (_ & Eg & _ & _ & b & Eh & _).
    destruct (janosFreshInstanceID (rng s1)); apply Ret_inj in H; subst s'; cbn [set_gs set_rng gs heap].
    split; [exists [b]; exact Eh|rewrite Eg, Hp; apply goroutine_snoc, Hp].
  - unfold spark_prologue in H; destruct (goroutine_at s h) as [[q [[a iid]|]]|] eqn:Eq; try discriminate.
    injection H as <-; unfold set_prov; cbn [set_gs gs heap]; split; [exists []; symmetry; apply app_nil_r|].
    rewrite nth_error_upd; destruct (Nat.eqb_spec g h) as [->|]; [|reflexivity].
    unfold goroutine_at in Eq; rewrite Hp in Eq; discriminate.
  - split; [exists []; symmetry; apply app_nil_r|reflexivity].
Qed.

(** What [Identify] reads. *)
Lemma Identify_frame s s' g h p :
  inv s -> goroutine_at s g = Some p -> goroutine_at s' h = Some p -> (exists l, heap s' = heap s ++ l) ->
  Identify s' h = Identify s g.
Proof.
  intros I Hg Hh [l Hl]; destruct (inv_gs _ I g _ Hg) as [_ (a & Ha & La) _].
  unfold Identify; rewrite Hg, Hh, Ha, Hl, nth_error_app1 by exact La; reflexivity.
Qed.

Lemma newproc_child s g s' p :
  goroutine_at s g = Some (MkG p None) -> newproc s g = Some s' ->
  goroutine_at s' (length (gs s)) = Some (MkG p None) /\ heap s' = heap s.
Proof.
  intros Hp; unfold newproc; rewrite Hp; intros [= <-]; split; [|reflexivity].
  unfold goroutine_at; cbn [set_gs gs]; rewrite nth_error_snoc, Nat.eqb_refl; reflexivity.
Qed.

(** After the prologue only the child has the block. *)
Lemma prologue_child s g s' :
  inv s -> spark_prologue s g = Some s' ->
  exists p a iid b, goroutine_at s g = Some (MkG p (Some (a, iid))) /\ nth_error (heap s') a = Some b /\
    goroutine_at s' g = Some (MkG (set_instanceID (set_identity p (Some a)) iid) None) /\
    forall h q, h <> g -> goroutine_at s' h = Some q -> identity (g_prov q) <> Some a.
Proof.
  intros I; unfold spark_prologue, set_prov.
  destruct (goroutine_at s g) as [[p [[a iid]|]]|] eqn:Hp; try discriminate; intros [= <-].
  destruct (inv_gs _ I g _ Hp) as [_ _ K]; destruct (K a iid eq_refl) as (K1 & _ & _ & K4 & _).
  destruct (nth_error (heap s) a) as [b|] eqn:Hb; [|apply nth_error_None in Hb; lia].
  exists p, a, iid, b; split; [reflexivity|split; [exact Hb|split]]; unfold goroutine_at in *; cbn [set_gs gs].
  - rewrite nth_error_upd, Nat.eqb_refl; destruct (Nat.ltb_spec g (length (gs s))) as [|N]; [reflexivity|].
    apply nth_error_None in N; congruence.
  - intros h q Hne; rewrite nth_error_upd; destruct (Nat.eqb_spec h g); [contradiction|eauto].
Qed.

(** ** Properties *)

(** C35: In every state a booted process can reach by starting goroutines, sparking and
    finishing sparks, each goroutine running user code has a well-formed provenance and a
    non-empty identity whose key pair is the one its index derives from the root key, and
    the root key is 32 bytes. *)
Theorem identity_invariant s g :
  live s -> running s g ->
  length (janosRootKey s) = 32%nat /\
  exists p a b,
    goroutine_at s g = Some (MkG p None) /\ prov_wf p /\ identity p = Some a /\ nth_error (heap s) a = Some b /\
    Identify s g = Some (MkIdentity (b_index b) (b_publicPoint b) (Some a)) /\
    derive_key (janosRootKey s) (b_index b) = Ret (b_privateKey b, b_publicPoint b).
Proof.
  intros L R; pose proof (live_inv _ L) as I; split; [apply (inv_root _ I)|].
  destruct (running_live _ _ I R) as (p & a & b & Hp & Ha & Hb & Ok & Hi).
  exists p, a, b; repeat (split; [first [assumption|exact (go_prov _ _ _ (inv_gs _ I g _ Hp))]|]); exact Ok.
Qed.

(** Everything [Derive] can answer a goroutine: an identity without block is empty, one
    whose index or point differs from its block's is tampered, one that is not the
    caller's own is refused, and the caller's own yields the public point or the key
    agreement with the given peer. *)
Theorem Derive_correct `{!KeySchemeOk KS} s g id other :
  live s -> running s g ->
  (i_block id = None -> Derive s g id other = Fail ErrEmpty) /\
  (forall a b, i_block id = Some a -> nth_error (heap s) a = Some b ->
     ((i_index id <> b_index b \/ i_PublicPoint id <> b_publicPoint b) -> Derive s g id other = Fail ErrTampered) /\
     (i_index id = b_index b -> i_PublicPoint id = b_publicPoint b -> Identify s g <> Some id ->
        Derive s g id other = Fail ErrCrossGoroutine) /\
     (Identify s g = Some id ->
        Derive s g id other =
        if (length other =? 0)%nat then Ret (i_PublicPoint id)
        else key_agree (b_privateKey b) (i_PublicPoint id) other)).
Proof.
  intros L R; pose proof (live_inv _ L) as I; destruct (inv_root _ I) as [Br Lr].
  destruct (running_live _ _ I R) as (p & a' & b' & Hp & Ha & Hb & Ok & Hi).
  split; [intros E; unfold Derive; rewrite E; reflexivity|].
  destruct id as [ix pub bl]; cbn [i_block i_index i_PublicPoint]; intros a b -> Hab; split; [|split].
  - intros T; unfold Derive; cbn [i_block i_index i_PublicPoint]; rewrite Hab, Hp.
    destruct (Z.eqb_spec ix (b_index b)), (bytes_eqb_spec pub (b_publicPoint b)); try reflexivity; tauto.
  - intros -> -> N; apply (Derive_foreign s g (MkG p None)); [exact Hp| |exact Hab].
    cbn [g_prov]; rewrite Ha; intros [= <-]; apply N; rewrite Hi; congruence.
  - rewrite Hi; intros [= <- <- <-]; assert (b = b') as -> by congruence.
    rewrite (Derive_own s g (MkG p None) a' b' other Hp Ha Hb).
    rewrite copy_whole by exact (block_pub _ _ Br Lr Ok); reflexivity.
Qed.

(** C6: Identities do not move: a step leaves every goroutine already running user code
    with the identity it had; a goroutine started by [go] gets its creator's; and a spark
    that has installed its identity shares it with no other goroutine, so nobody else's
    [Derive] accepts it while its own does. *)
Theorem authority_flow `{!KeySchemeOk KS} s s' :
  live s -> step s s' ->
  (forall g, running s g -> running s' g /\ Identify s' g = Identify s g) /\
  (forall g, running s g -> newproc s g = Some s' ->
     running s' (length (gs s)) /\ Identify s' (length (gs s)) = Identify s g) /\
  (forall g, spark_prologue s g = Some s' ->
     exists id, Identify s' g = Some id /\ Derive s' g id [] = Ret (i_PublicPoint id) /\
       forall h other, h <> g -> goroutine_at s' h <> None -> Derive s' h id other = Fail ErrCrossGoroutine).
Proof.
  intros L St; pose proof (live_inv _ L) as I; pose proof (step_inv _ _ I St) as I'.
  destruct (inv_root _ I') as [Br Lr]; split; [|split].
  - intros g R; destruct (step_frame _ _ _ I St R) as [Hl Hg]; destruct R as [p Hp].
    split; [exists p; congruence|apply (Identify_frame s s' g g (MkG p None)); congruence || assumption].
  - intros g [p Hp] H; destruct (newproc_child _ _ _ _ Hp H) as [Hc Hh].
    split; [exists p; exact Hc|apply (Identify_frame s s' g _ (MkG p None)); [assumption..|]].
    exists []; rewrite Hh; symmetry; apply app_nil_r.
  - intros g H; destruct (prologue_child _ _ _ I H) as (p & a & iid & b & _ & Hb & Hg & Hn).
    assert (Ok : block_ok (janosRootKey s') b)
      by exact (proj1 (Forall_forall _ _) (inv_heap _ I') b (nth_error_In _ _ Hb)).
    exists (MkIdentity (b_index b) (b_publicPoint b) (Some a)); cbn [i_PublicPoint]; split; [|split].
    + unfold Identify; rewrite Hg; cbn [g_prov set_instanceID set_identity identity]; rewrite Hb; reflexivity.
    + rewrite (Derive_own s' g _ a b [] Hg eq_refl Hb).
      cbn [length Nat.eqb]; rewrite copy_whole by exact (block_pub _ _ Br Lr Ok); reflexivity.
    + intros h other Hne Hh; destruct (goroutine_at s' h) as [q|] eqn:Eq; [|contradiction].
      exact (Derive_foreign s' h q a b other Eq (Hn h q Hne Eq) Hb).
Qed.

(** No block misses its finalizer: when the initialisers of packages only start
    goroutines before janosLateFinalizerInit, every block minted before or after carries
    the finalizer exactly once, whatever runs next, and nothing stays deferred. *)
Theorem finalizers_complete r p s0 s1 s :
  janosInitIdentity (boot_state r p) = Ret s0 -> go_only s0 s1 -> reachable (janosLateFinalizerInit s1) s ->
  with_finalizer s = seq 0 (length (heap s)) /\ janosDeferredFinalizerBlock s = None.
Proof.
  intros E G R; enough (F : finalizers_ok s) by (split; apply F).
  induction R as [|s s' _ IH St]; [|exact (step_finalizers _ _ St IH)].
  destruct (go_only_same _ _ G) as (Gh & Gr & Gd & Gf).
  unfold janosInitIdentity, boot_state in E; cbn [janosRootKey rng heap gs] in E; destruct (fill_root_key _ _) as [key r1].
  unfold janosMintIdentity in E; cbn [rng janosRootKey] in E.
  destruct (rand r1) as [hi r2], (rand r2) as [lo r3].
  destruct (derive_key _ _) as [[priv pub]| |]; cbn [bind] in E; try discriminate.
  apply Ret_inj in E; subst s0; unfold finalizers_ok, janosLateFinalizerInit;
    cbn [janosFinalizersReady janosDeferredFinalizerBlock with_finalizer heap].
  rewrite Gh, Gd, Gf; auto.
Qed.

End Keys.

(** With the runtime's cryptography: the keys are HMAC(root, index) and its multiple of the
    base point. *)
Corollary runtime_identity_keys s g :
  live (KS := runtime_keys) s -> running s g ->
  exists id a b x y,
    Identify s g = Some id /\ i_block id = Some a /\ nth_error (heap s) a = Some b /\
    b_privateKey b = hmac_spec (janosRootKey s) (le_bytes 8 (b_index b)) /\
    ec_mul (be_val (b_privateKey b)) ec_G = Some (x, y) /\ i_PublicPoint id = encode_point x y.
Proof.
  intros L R; pose proof (live_inv _ L) as I; destruct (inv_root _ I) as [Br Lr].
  destruct (running_live _ _ I R) as (p & a & b & _ & _ & Hb & Ok & Hi).
  unfold block_ok in Ok; cbn [derive_key runtime_keys] in Ok; rewrite derive_key_ok in Ok by assumption; cbv zeta in Ok.
  destruct (ec_mul _ ec_G) as [[x y]|] eqn:E; [|discriminate].
  apply Ret_inj in Ok; injection Ok as Ok1 Ok2.
  exists (MkIdentity (b_index b) (b_publicPoint b) (Some a)), a, b, x, y; cbn [i_block i_PublicPoint].
  rewrite <- Ok1; repeat (split; [first [assumption|reflexivity]|]); symmetry; exact Ok2.
Qed.

(** ** A scheme for the witnesses: the index is the key. *)

Definition toy_keys : KeyScheme := {|
  derive_key root idx := Ret (le_bytes 32 idx, le_bytes 64 idx);
  key_agree priv pub peer := Ret (copy_into (repeat 0 32) 0 peer);
|}.

Lemma toy_keys_ok : KeySchemeOk toy_keys.
Proof.
  split; intros root idx priv pub _ _ H; apply Ret_inj, (f_equal snd) in H; change (le_bytes 64 idx = pub) in H; subst pub.
  split; [apply bytes_le_bytes|apply length_le_bytes].
Qed.

Definition demo_boot : RT := boot_state (map Z.of_nat (seq 1 16)) prov_zero.

(** Main alone; then main with a spark about to install its identity; then after it. *)
Definition demo_state (n : nat) : RT :=
  match janosInitIdentity (KS := toy_keys) demo_boot with
  | Ret s0 =>
      match n, janosSpark (KS := toy_keys) s0 0 with
      | O, _ => s0
      | S O, Ret s1 => s1
      | _, Ret s1 => match spark_prologue s1 1 with Some s2 => s2 | None => s1 end
      | _, _ => s0
      end
  | _ => demo_boot
  end.

Lemma demo_live n : (n < 2)%nat -> live (KS := toy_keys) (demo_state n) /\ running (demo_state n) 0.
Proof.
  assert (Hr : Forall is_u64 (map Z.of_nat (seq 1 16)))
    by (apply Forall_forall; intros x Hx; apply in_map_iff in Hx as (m & <- & Hm); apply in_seq in Hm; unword; lia).
  assert (R0 : running (demo_state 0) 0) by (eexists; vm_compute; reflexivity).
  assert (E : janosInitIdentity (KS := toy_keys) demo_boot = Ret (demo_state 0)) by (vm_compute; reflexivity).
  intros H; destruct n as [|[|n]]; [|split|lia].
  - split; [|exact R0]; exists (map Z.of_nat (seq 1 16)), prov_zero, (demo_state 0).
    split; [apply prov_zero_wf|split; [exact Hr|split; [exact E|apply reach_refl]]].
  - exists (map Z.of_nat (seq 1 16)), prov_zero, (demo_state 0).
    split; [apply prov_zero_wf|split; [exact Hr|split; [exact E|]]].
    eapply reach_step; [apply reach_refl|eapply step_spark; [exact R0|vm_compute; reflexivity]].
  - eexists; vm_compute; reflexivity.
Qed.

Lemma identity_invariant_witness : exists id, Identify (demo_state 0) 0 = Some id /\ i_block id <> None.
Proof.
  destruct (demo_live 0 ltac:(lia)) as [L R].
  destruct (identity_invariant (KS := toy_keys) (demo_state 0) 0 L R) as (_ & p & a & b & _ & _ & _ & _ & Hi & _).
  eexists; split; [exact Hi|discriminate].
Defined.

Lemma Derive_correct_witness :
  Derive (KS := toy_keys) (demo_state 0) 0 identity_zero [] = Fail ErrEmpty /\
  exists id, Identify (demo_state 0) 0 = Some id /\ Derive (KS := toy_keys) (demo_state 0) 0 id [] = Ret (i_PublicPoint id).
Proof.
  destruct (demo_live 0 ltac:(lia)) as [L R].
  destruct (running_live (demo_state 0) 0 (live_inv _ L) R) as (p & a & b & _ & _ & Hb & _ & Hi).
  pose proof (fun id => Derive_correct (KS := toy_keys) (KeySchemeOk0 := toy_keys_ok) (demo_state 0) 0 id [] L R) as D.
  split; [exact (proj1 (D identity_zero) eq_refl)|].
  exists (MkIdentity (b_index b) (b_publicPoint b) (Some a)); split; [exact Hi|].
  destruct (D (MkIdentity (b_index b) (b_publicPoint b) (Some a))) as [_ H].
  destruct (H a b eq_refl Hb) as (_ & _ & G); exact (G Hi).
Defined.

Lemma authority_flow_witness : exists id, Identify (demo_state 2) 1 = Some id /\
  Derive (KS := toy_keys) (demo_state 2) 1 id [] = Ret (i_PublicPoint id) /\
  Derive (KS := toy_keys) (demo_state 2) 0 id [] = Fail ErrCrossGoroutine.
Proof.
  destruct (demo_live 1 ltac:(lia)) as [L _].
  assert (P : spark_prologue (demo_state 1) 1 = Some (demo_state 2)) by (vm_compute; reflexivity).
  destruct (authority_flow (KS := toy_keys) (KeySchemeOk0 := toy_keys_ok) (demo_state 1) (demo_state 2) L (step_prologue _ 1 _ P)) as (_ & _ & H).
  destruct (H 1%nat P) as (id & H1 & H2 & H3); exists id; split; [exact H1|split; [exact H2|]].
  apply H3; [discriminate|vm_compute; discriminate].
Defined.

Lemma finalizers_complete_witness : exists s1, newproc (demo_state 0) 0 = Some s1 /\
  with_finalizer (janosLateFinalizerInit s1) = [0%nat].
Proof.
  destruct (demo_live 0 ltac:(lia)) as [_ R].
  assert (N : exists s1, newproc (demo_state 0) 0 = Some s1 /\ length (heap s1) = 1%nat)
    by (eexists; split; vm_compute; reflexivity).
  destruct N as (s1 & N & Hh); exists s1; split; [exact N|].
  assert (E : janosInitIdentity (KS := toy_keys) demo_boot = Ret (demo_state 0)) by (vm_compute; reflexivity).
  rewrite (proj1 (finalizers_complete (KS := toy_keys) _ _ (demo_state 0) s1 (janosLateFinalizerInit s1) E
    (go_step _ _ 0 s1 (go_refl _) R N) (reach_refl _))).
  change (heap (janosLateFinalizerInit s1)) with (heap s1); rewrite Hh; reflexivity.
Defined.
