(* ===== verification/SelfHash.v ===== *)
(** * SelfHash: the binary's canonical hash

    runtime/janos_selfhash.go with the per-platform readers.  The buffer is a byte list;
    a load outside it is the result [None] (a Go panic, which at schedinit ends the
    process).  File offsets are 32-bit in the Mach-O walk and 64-bit in the ELF walk and
    wrap as in the source. *)

From Stdlib Require Import String ZArith Lia List Bool.
From S2P Require Import Prelude Slices Sha2 CertSlot Provenance CertVerify.
Import ListNotations.

(** ** Zeroing *)

(** [for k := s; k < e; k++ { buf[k] = 0 }], where the callers have capped [e] at the
    length. *)
Definition zero_range (buf : list Z) (s e : Z) : list Z :=
  for_range (Z.to_nat s) (Z.to_nat (e - s)) (fun k buf => upd buf k 0) buf.

(** [if e > len(buf) { e = len(buf) }; for k := s; k < e; k++ ...] *)
Definition zero_capped (buf : list Z) (s e : Z) : list Z :=
  zero_range buf s (if Z.of_nat (length buf) <? e then Z.of_nat (length buf) else e).

(** ** The JANOSCRT slot *)

(** The tests of one turn of the scan. *)
Definition slot_header_at (buf : list Z) (i : nat) : bool :=
  let b k := nth (i + k) buf 0 in
  forallb (fun k => b k =? nth k Magic 0) (seq 0 8) &&
  (b 8%nat =? 1) &&
  negb ((b 9%nat =? 0) || (8 <? b 9%nat)) &&
  forallb (fun k => b k =? 0) (seq 10 6).

Definition janosLocateDivinedSlot (buf : list Z) : option nat :=
  find (slot_header_at buf) (seq 0 (length buf - 15)).

(** ** Zeroing a pattern *)

(** The inner comparison at position [i]. *)
Definition matches_at (buf pattern : list Z) (i : nat) : bool :=
  forallb (fun j => nth (i + j) buf 0 =? nth j pattern 0) (seq 0 (length pattern)).

(** The scan: [i] stays at most [limit + 1], and every turn advances it, so [length buf]
    turns suffice. *)
Fixpoint zero_all_loop (fuel i limit : nat) (buf pattern : list Z) : list Z :=
  match fuel with
  | O => buf
  | S fuel =>
      if (limit <? i)%nat then buf
      else if matches_at buf pattern i
      then zero_all_loop fuel (i + length pattern) limit
             (for_range 0 (length pattern) (fun j buf => upd buf (i + j) 0) buf) pattern
      else zero_all_loop fuel (S i) limit buf pattern
  end.

Definition janosZeroAll (buf pattern : list Z) : list Z :=
  let n := length pattern in
  if (n =? 0)%nat || (length buf <? n)%nat then buf
  else zero_all_loop (S (length buf)) 0 (length buf - n) buf pattern.

(** ** The Go build ID marker *)

Definition janosGoBuildIDMarker : list Z := 0xFF :: str " Go build ID: " ++ [34].

(** The scan for the closing quote: the first index from [from] whose byte is a double
    quote, or the length. *)
Fixpoint quote_end (fuel : nat) (buf : list Z) (from : nat) : nat :=
  match fuel with
  | O => from
  | S fuel => if (from <? length buf)%nat && negb (nth from buf 0 =? 34)
              then quote_end fuel buf (S from) else from
  end.

(** The marker at [i] with its closing quote and suffix: the end of the ID. *)
Definition build_id_at (buf : list Z) (i : nat) : option nat :=
  if negb (matches_at buf janosGoBuildIDMarker i) then None else
  let e := quote_end (length buf) buf (i + 16) in
  if (length buf <=? e + 3)%nat then None else
  if (nth e buf 0 =? 34) && (nth (e + 1) buf 0 =? 10) && (nth (e + 2) buf 0 =? 32) &&
     (nth (e + 3) buf 0 =? 0xFF)
  then Some e else None.

Fixpoint first_build_id (buf : list Z) (idxs : list nat) : option (nat * nat) :=
  match idxs with
  | [] => None
  | i :: idxs => match build_id_at buf i with
               | Some e => Some ((i + 16)%nat, e)
               | None => first_build_id buf idxs
               end
  end.

Definition janosFindBuildIDInBuf (buf : list Z) : option (nat * nat) :=
  first_build_id buf (seq 0 (length buf - 19)).

(** ** Little-endian loads *)

#[local] Open Scope option_scope.

Definition janosU16LE (b : list Z) : option Z :=
  match b with b0 :: b1 :: _ => Some (Z.lor b0 (Z.shiftl b1 8)) | _ => None end.

Definition janosU32LE (b : list Z) : option Z :=
  match b with
  | b0 :: b1 :: b2 :: b3 :: _ =>
      Some (Z.lor (Z.lor (Z.lor b0 (Z.shiftl b1 8)) (Z.shiftl b2 16)) (Z.shiftl b3 24))
  | _ => None
  end.

Definition janosU64LE (b : list Z) : option Z :=
  match b with
  | b0 :: b1 :: b2 :: b3 :: b4 :: b5 :: b6 :: b7 :: _ =>
      Some (Z.lor (Z.lor (Z.lor (Z.lor (Z.lor (Z.lor (Z.lor b0 (Z.shiftl b1 8)) (Z.shiftl b2 16))
        (Z.shiftl b3 24)) (Z.shiftl b4 32)) (Z.shiftl b5 40)) (Z.shiftl b6 48)) (Z.shiftl b7 56))
  | _ => None
  end.

(** [buf[off], ..., buf[off+3]] or-ed into a uint32, at a 32-bit offset. *)
Definition load32 (buf : list Z) (off : Z) : option Z :=
  do* b0 := index buf off in do* b1 := index buf (u32 (off + 1)) in
  do* b2 := index buf (u32 (off + 2)) in do* b3 := index buf (u32 (off + 3)) in
  Some (Z.lor (Z.lor (Z.lor b0 (Z.shiftl b1 8)) (Z.shiftl b2 16)) (Z.shiftl b3 24)).

(** ** Mach-O *)

(** One load command at [off]: the new buffer and offset, or [None] for the early
    [return] with the buffer as it is. *)
Definition macho_cmd (buf : list Z) (off end_ : Z) : option (list Z * option Z) :=
  do* cmd := load32 buf off in
  do* cmdsize := load32 buf (u32 (off + 4)) in
  if (cmdsize <? 8) || (end_ <? u32 (off + cmdsize)) then Some (buf, None) else
  do* buf :=
    (if (cmd =? 0x1D) && (16 <=? cmdsize) then
       do* dataoff := load32 buf (u32 (off + 8)) in
       do* datasize := load32 buf (u32 (off + 12)) in
       Some (zero_capped buf dataoff (dataoff + datasize))
     else Some buf) in
  let buf := if (cmd =? 0x1B) && (24 <=? cmdsize) then zero_capped buf (off + 8) (off + 24) else buf in
  Some (buf, Some (u32 (off + cmdsize))).

(** [for i := 0; i < ncmds && off+8 <= end; i++]: the fuel is the count itself. *)
Fixpoint macho_loop (ncmds : nat) (buf : list Z) (off end_ : Z) : option (list Z) :=
  match ncmds with
  | O => Some buf
  | S ncmds =>
      if u32 (off + 8) <=? end_ then
        do* (buf, next) := macho_cmd buf off end_ in
        match next with None => Some buf | Some off => macho_loop ncmds buf off end_ end
      else Some buf
  end.

Definition janosZeroMachoExcludes (buf : list Z) : option (list Z) :=
  if (length buf <? 32)%nat then Some buf else
  if negb ((nth 0 buf 0 =? 0xCF) && (nth 1 buf 0 =? 0xFA) && (nth 2 buf 0 =? 0xED) && (nth 3 buf 0 =? 0xFE))
  then Some buf else
  do* ncmds := load32 buf 16 in
  do* sizeofcmds := load32 buf 20 in
  let end_ := u32 (32 + sizeofcmds) in
  let end_ := if u32 (Z.of_nat (length buf)) <? end_ then u32 (Z.of_nat (length buf)) else end_ in
  macho_loop (Z.to_nat ncmds) buf 32 end_.

(** ** ELF *)

Definition elf_name_matches (buf target : list Z) (nameStart : Z) : option bool :=
  do* cs := (fix go (k : nat) (t : list Z) : option bool :=
      match t with
      | [] => Some true
      | c :: t => do* b := index buf (u64 (nameStart + Z.of_nat k)) in
                  if b =? c then go (S k) t else Some false
      end) 0%nat target in
  if cs then do* z := index buf (u64 (nameStart + Z.of_nat (length target))) in Some (z =? 0)
  else Some false.

(** One section header: [None] is a panic, [Some None] is [continue]. *)
Definition elf_section_at (buf target : list Z) (shoff shentsize strTabOff strTabSize i : Z)
  : option (option (Z * Z)) :=
  let hdrOff := u64 (shoff + u64 (i * shentsize)) in
  do* h := slice_from buf hdrOff in
  do* nameIdx := janosU32LE h in
  if strTabSize <=? nameIdx then Some None else
  let nameStart := u64 (strTabOff + nameIdx) in
  if Z.of_nat (length buf) <? u64 (u64 (nameStart + Z.of_nat (length target)) + 1) then Some None else
  do* ok := elf_name_matches buf target nameStart in
  if negb ok then Some None else
  do* o := slice_from buf (u64 (hdrOff + 24)) in do* off := janosU64LE o in
  do* s := slice_from buf (u64 (hdrOff + 32)) in do* size := janosU64LE s in
  Some (Some (off, size)).

(** The scan over the section headers, [shnum] at most 65535. *)
Fixpoint elf_scan (n : nat) (buf target : list Z) (shoff shentsize strTabOff strTabSize i : Z)
  : option (option (Z * Z)) :=
  match n with
  | O => Some None
  | S n =>
      do* r := elf_section_at buf target shoff shentsize strTabOff strTabSize i in
      match r with
      | Some x => Some (Some x)
      | None => elf_scan n buf target shoff shentsize strTabOff strTabSize (i + 1)
      end
  end.

(** [None] is a panic; [Some None] the result [(0, 0, false)]. *)
Definition janosFindElfSection (buf target : list Z) : option (option (Z * Z)) :=
  if (length buf <? 64)%nat then Some None else
  if negb ((nth 0 buf 0 =? 0x7F) && (nth 1 buf 0 =? 69) && (nth 2 buf 0 =? 76) && (nth 3 buf 0 =? 70))
  then Some None else
  if negb ((nth 4 buf 0 =? 2) && (nth 5 buf 0 =? 1)) then Some None else
  do* b := slice_from buf 40 in do* shoff := janosU64LE b in
  do* b := slice_from buf 58 in do* shentsize := janosU16LE b in
  do* b := slice_from buf 60 in do* shnum := janosU16LE b in
  do* b := slice_from buf 62 in do* shstrndx := janosU16LE b in
  if (shentsize <? 64) || (shnum =? 0) || (shnum <=? shstrndx) then Some None else
  if Z.of_nat (length buf) <? u64 (shoff + u64 (shnum * shentsize)) then Some None else
  let strTabHdrOff := u64 (shoff + u64 (shstrndx * shentsize)) in
  do* b := slice_from buf (u64 (strTabHdrOff + 24)) in do* strTabOff := janosU64LE b in
  do* b := slice_from buf (u64 (strTabHdrOff + 32)) in do* strTabSize := janosU64LE b in
  if Z.of_nat (length buf) <? u64 (strTabOff + strTabSize) then Some None else
  elf_scan (Z.to_nat shnum) buf target shoff shentsize strTabOff strTabSize 0.

Definition janosZeroElfExcludes (buf : list Z) : option (list Z) :=
  do* r := janosFindElfSection buf (str ".note.gnu.build-id") in
  match r with
  | None => Some buf
  | Some (secOff, secSize) =>
      if secSize <? 16 then Some buf
      else Some (zero_capped buf (u64 (secOff + 16)) (u64 (secOff + secSize)))
  end.

(** [None] is a panic; [Some None] the result [(nil, false)]. *)
Definition janosFindElfGoBuildID (buf : list Z) : option (option (list Z)) :=
  do* r := janosFindElfSection buf (str ".note.go.buildid") in
  match r with
  | None => Some None
  | Some (secOff, secSize) =>
      if secSize <? 16 then Some None else
      if Z.of_nat (length buf) <? u64 (secOff + secSize) then Some None else
      do* b := slice_from buf secOff in do* namesz := janosU32LE b in
      do* b := slice_from buf (u64 (secOff + 4)) in do* descsz := janosU32LE b in
      if negb (namesz =? 4) || (descsz =? 0) then Some None else
      if u64 (secOff + secSize) <? u64 (u64 (secOff + 16) + descsz) then Some None else
      do* id := slice buf (u64 (secOff + 16)) (u64 (u64 (secOff + 16) + descsz)) in
      Some (Some id)
  end.

(** ** The canonical hash *)

(** Step 1. *)
Definition zero_slot (buf : list Z) : list Z :=
  match janosLocateDivinedSlot buf with
  | Some off => zero_capped buf (Z.of_nat off) (Z.of_nat off + Z.of_nat janosCertSlotStorageSize)
  | None => buf
  end.

(** Step 4. *)
Definition zero_build_id (buf : list Z) : option (list Z) :=
  match janosFindBuildIDInBuf buf with
  | Some (s, e) =>
      let id := firstn (e - s) (skipn s buf) in
      Some (if (0 <? length id)%nat then janosZeroAll buf id else buf)
  | None =>
      do* r := janosFindElfGoBuildID buf in
      match r with
      | Some id => Some (if (0 <? length id)%nat then janosZeroAll buf id else buf)
      | None => Some buf
      end
  end.

(** Steps 1 to 4. *)
Definition canonical_form (buf guildKey releaseKey : list Z) : option (list Z) :=
  let buf := zero_slot buf in
  let buf := janosZeroAll buf guildKey in
  let buf := janosZeroAll buf releaseKey in
  do* buf := janosZeroMachoExcludes buf in
  do* buf := janosZeroElfExcludes buf in
  zero_build_id buf.

Definition janosCanonicalHash (buf guildKey releaseKey : list Z) : option (list Z) :=
  do* buf := canonical_form buf guildKey releaseKey in Some (sha256 buf).

Definition janosHashCanonical (c : CertState) (buf : list Z) : option (list Z) :=
  janosCanonicalHash buf (expectedGuild c) (expectedRelease c).

(** ** Reading the executable *)

Definition janosMaxBinarySize : Z := 256 * 2 ^ 20.

(** The results of successive [read] calls on the descriptor: an error, or the bytes
    returned (none at end of file). *)
Inductive read_result : Type := ReadErr | ReadBytes (data : list Z).

(** [for total < mapped { ... }]: the buffer filled so far, or [None] for a read error.
    A read asks for [mapped - total] bytes, on Windows for at most [chunk] of them, and
    returns at most what it is asked for; a script that ends stands for end of file. *)
Fixpoint read_loop (chunk mapped : Z) (script : list read_result) (got : list Z) : option (list Z) :=
  if Z.of_nat (length got) <? mapped then
    match script with
    | [] => Some got
    | ReadErr :: _ => None
    | ReadBytes data :: script =>
        let want := mapped - Z.of_nat (length got) in
        let want := if chunk <? want then chunk else want in
        let data := firstn (Z.to_nat want) data in
        if (length data =? 0)%nat then Some got else read_loop chunk mapped script (got ++ data)
    end
  else Some got.

(** The tail the readers share: [None] is a panic, [Some None] the refusal of a read error,
    an empty file or one that fills the mapping. *)
Definition hash_reader (c : CertState) (chunk : Z) (script : list read_result) : option (option (list Z)) :=
  match read_loop chunk janosMaxBinarySize script [] with
  | None => Some None
  | Some buf =>
      let total := Z.of_nat (length buf) in
      if (total =? 0) || (janosMaxBinarySize <=? total) then Some None else
      do* d := janosHashCanonical c buf in Some (Some d)
  end.

(** [janosHashFD]; [mmap_ok] is whether the anonymous mapping succeeded. *)
Definition janosHashFD (c : CertState) (mmap_ok : bool) (script : list read_result)
  : option (option (list Z)) :=
  if negb mmap_ok then Some None else hash_reader c janosMaxBinarySize script.

Definition janosDarwinPathMax : nat := 1024.
Definition janosWinMaxPath : Z := 1024.
Definition janosWinReadChunk : Z := 2 ^ 20.

(** What the platform's calls answer: [open], the mapping, the reads; on Darwin the length
    of the executable's path, on Windows what GetModuleFileNameW returned. *)
Inductive platform : Type :=
| Stub
| Linux (open_ok mmap_ok : bool) (script : list read_result)
| Darwin (path_len : nat) (open_ok mmap_ok : bool) (script : list read_result)
| Windows (name_len : Z) (create_ok alloc_ok : bool) (script : list read_result).

Definition store_digest (gp : gProvenance) (r : option (option (list Z))) : option gProvenance :=
  do* r := r in
  match r with
  | None => Some gp
  | Some digest => Some (janosStoreBinaryHash gp digest)
  end.

(** [janosInitBinaryHash] of the four files. *)
Definition janosInitBinaryHash (c : CertState) (pf : platform) (gp : gProvenance) : option gProvenance :=
  match pf with
  | Stub => Some gp
  | Linux open_ok mmap_ok script =>
      if negb open_ok then Some gp else store_digest gp (janosHashFD c mmap_ok script)
  | Darwin path_len open_ok mmap_ok script =>
      if (path_len =? 0)%nat || (janosDarwinPathMax <=? path_len)%nat then Some gp
      else if negb open_ok then Some gp else store_digest gp (janosHashFD c mmap_ok script)
  | Windows name_len create_ok alloc_ok script =>
      if (name_len =? 0) || (janosWinMaxPath <=? name_len) then Some gp
      else if negb create_ok then Some gp
      else if negb alloc_ok then Some gp
      else store_digest gp (hash_reader c janosWinReadChunk script)
  end.

(** ** Zeroing, as lists *)

Lemma for_range_zero (l m r : list Z) :
  for_range 0 (length m) (fun j buf => upd buf (length l + j) 0) (l ++ m ++ r) = l ++ repeat 0 (length m) ++ r.
Proof.
  set (n := length m).
  pose proof (for_range_ind (fun i b => b = l ++ repeat 0 i ++ skipn i m ++ r) 0 n
    (fun j buf => upd buf (length l + j) 0) (l ++ m ++ r)) as H; cbn [Nat.add] in H.
  rewrite H.
  - unfold n; rewrite skipn_all; reflexivity.
  - reflexivity.
  - intros i b Hi ->; rewrite upd_app; f_equal.
    assert (Em : skipn i m = nth i m 0 :: skipn (S i) m).
    { clear - Hi; unfold n in Hi; clear n; revert m Hi; induction i as [|i IH]; intros [|x m] Hi; cbn in Hi; try lia;
        [reflexivity|]. cbn [skipn nth]; apply IH; lia. }
    pose proof (upd_app (repeat 0 i) (nth i m 0 :: skipn (S i) m ++ r) 0 0) as U.
    rewrite repeat_length, Nat.add_0_r in U; rewrite Em; cbn [app] in *; rewrite U.
    cbn [upd]; change (repeat 0 (S i)) with (0 :: repeat 0 i).
    rewrite repeat_cons, <- app_assoc; reflexivity.
Qed.

Lemma zero_range_app (l m r : list Z) :
  zero_range (l ++ m ++ r) (Z.of_nat (length l)) (Z.of_nat (length l) + Z.of_nat (length m)) =
  l ++ repeat 0 (length m) ++ r.
Proof.
  unfold zero_range; rewrite Z.add_simpl_l, !Nat2Z.id, <- for_range_zero.
  unfold for_range; rewrite <- (Nat.add_0_r (length l)) at 1.
  generalize (l ++ m ++ r); generalize 0%nat; induction (length m) as [|n IH]; intros k b; [reflexivity|].
  cbn [seq fold_left]; rewrite <- Nat.add_succ_r; apply IH.
Qed.

Lemma length_zero_range buf s e : length (zero_range buf s e) = length buf.
Proof.
  unfold zero_range, for_range; generalize (seq (Z.to_nat s) (Z.to_nat (e - s))); intros l; revert buf.
  induction l as [|i l IH]; intros buf; cbn [fold_left]; [reflexivity|rewrite IH, length_upd; reflexivity].
Qed.

Lemma length_zero_capped buf s e : length (zero_capped buf s e) = length buf.
Proof. apply length_zero_range. Qed.

Lemma bytes_zero_range buf s e : bytes buf -> bytes (zero_range buf s e).
Proof.
  unfold zero_range, for_range; generalize (seq (Z.to_nat s) (Z.to_nat (e - s))); intros l; revert buf.
  induction l as [|i l IH]; intros buf H; cbn [fold_left]; [exact H|apply IH, bytes_upd; [exact H|unword; lia]].
Qed.

(** ** Zeroing a pattern, by structure *)

(** Left to right: at an occurrence, zero its bytes and go on after it. *)
Fixpoint zero_occ (pat : list Z) (skip : nat) (l : list Z) : list Z :=
  match l with
  | [] => []
  | x :: l' =>
      match skip with
      | S k => 0 :: zero_occ pat k l'
      | O => if is_prefix pat l then 0 :: zero_occ pat (length pat - 1) l' else x :: zero_occ pat 0 l'
      end
  end.

Lemma zero_occ_skip pat l r : zero_occ pat (length l) (l ++ r) = repeat 0 (length l) ++ zero_occ pat 0 r.
Proof. induction l as [|x l IH]; [reflexivity|]; cbn [length app zero_occ repeat]; rewrite IH; reflexivity. Qed.

Lemma forallb_map {A B} (f : B -> bool) (g : A -> B) l : forallb f (map g l) = forallb (fun x => f (g x)) l.
Proof. induction l as [|x l IH]; cbn; [reflexivity|rewrite IH; reflexivity]. Qed.

Lemma forallb_pointwise {A} (f g : A -> bool) l : (forall x, In x l -> f x = g x) -> forallb f l = forallb g l.
Proof. induction l as [|x l IH]; intros H; cbn; [reflexivity|]. rewrite H, IH; auto with datatypes. Qed.

Lemma matches_at_app l r pat :
  (length pat <= length r)%nat -> matches_at (l ++ r) pat (length l) = is_prefix pat r.
Proof.
  unfold matches_at; revert l r; induction pat as [|x pat IH]; intros l r H; [reflexivity|].
  destruct r as [|y r]; [cbn in H; lia|]; cbn [length seq forallb is_prefix].
  rewrite nth_app_off; cbn [nth]; f_equal.
  specialize (IH (l ++ [y]) r ltac:(cbn in H; lia)); rewrite <- IH, <- seq_shift.
  rewrite forallb_map, <- app_assoc; cbn [app].
  apply forallb_pointwise; intros j _; rewrite length_app; cbn [length].
  replace (length l + S j)%nat with (length l + 1 + j)%nat by lia; reflexivity.
Qed.

Lemma zero_occ_short pat l : (length l < length pat)%nat -> zero_occ pat 0 l = l.
Proof.
  induction l as [|x l IH]; intros H; [reflexivity|].
  cbn [zero_occ]; rewrite is_prefix_short by exact H; f_equal; apply IH; cbn in H; lia.
Qed.

Lemma zero_all_loop_ok pat fuel limit l r :
  pat <> [] -> (limit + length pat = length l + length r)%nat -> (length r < fuel)%nat ->
  zero_all_loop fuel (length l) limit (l ++ r) pat = l ++ zero_occ pat 0 r.
Proof.
  intros Hp; assert (Lp : (0 < length pat)%nat) by (destruct pat; [contradiction|cbn; lia]).
  revert l r; induction fuel as [|fuel IH]; intros l r Hl Hf; [lia|].
  cbn [zero_all_loop]; destruct (Nat.ltb_spec limit (length l)) as [H|H].
  - rewrite zero_occ_short by lia; reflexivity.
  - rewrite matches_at_app by lia; destruct r as [|x r]; [cbn in *; lia|].
    destruct (is_prefix pat (x :: r)) eqn:E.
    + cbn [zero_occ]; rewrite E; pose proof (is_prefix_split _ _ E) as Er.
      set (q := skipn (length pat) (x :: r)) in *; rewrite Er, for_range_zero.
      rewrite app_assoc; replace (length l + length pat)%nat with (length (l ++ repeat 0 (length pat)))
        by (rewrite length_app, repeat_length; reflexivity).
      assert (Lq : length (x :: r) = (length pat + length q)%nat) by (rewrite Er, length_app; reflexivity).
      rewrite IH by (rewrite ?length_app, ?repeat_length; cbn [length] in *; lia).
      rewrite <- app_assoc; f_equal; destruct pat as [|y pat]; [contradiction|].
      cbn [app] in Er; injection Er as _ Er; rewrite Er; cbn [length repeat app].
      replace (S (length pat) - 1)%nat with (length pat) by lia; rewrite zero_occ_skip; reflexivity.
    + cbn [zero_occ]; rewrite E.
      replace (l ++ x :: r) with ((l ++ [x]) ++ r) by (rewrite <- app_assoc; reflexivity).
      replace (S (length l)) with (length (l ++ [x])) by (rewrite length_app; cbn; lia).
      rewrite IH, <- app_assoc by (rewrite ?length_app; cbn [length] in *; lia); reflexivity.
Qed.

Lemma janosZeroAll_occ buf pat : pat <> [] -> janosZeroAll buf pat = zero_occ pat 0 buf.
Proof.
  intros Hp; unfold janosZeroAll; destruct (Nat.eqb_spec (length pat) 0) as [E|E];
    [destruct pat; [contradiction|discriminate]|]; cbn [orb].
  destruct (Nat.ltb_spec (length buf) (length pat)); [rewrite zero_occ_short by assumption; reflexivity|].
  apply (zero_all_loop_ok pat _ _ [] buf); [exact Hp|cbn [length]; lia|lia].
Qed.

Lemma length_zero_occ pat k l : length (zero_occ pat k l) = length l.
Proof.
  revert k; induction l as [|x l IH]; intros k; [reflexivity|]; cbn [zero_occ].
  destruct k; [destruct (is_prefix _ _)|]; cbn [length]; rewrite IH; reflexivity.
Qed.

(** ** The slot in the file *)

Lemma slot_header_at_ext b b' i :
  (forall k, (k < 16)%nat -> nth (i + k) b 0 = nth (i + k) b' 0) -> slot_header_at b i = slot_header_at b' i.
Proof.
  intros H; unfold slot_header_at; rewrite !(H 8%nat), !(H 9%nat) by lia.
  f_equal; [f_equal; f_equal|]; apply forallb_pointwise; intros k Hk; apply in_seq in Hk; rewrite H by lia; reflexivity.
Qed.

Lemma find_first (f : nat -> bool) n N :
  (forall i, (i < n)%nat -> f i = false) -> f n = true -> (n < N)%nat -> find f (seq 0 N) = Some n.
Proof.
  intros Hb Hn HN; replace N with (n + S (N - S n))%nat by lia; rewrite seq_app; cbn [Nat.add seq].
  assert (E : forall l r, (forall x, In x l -> f x = false) -> find f (l ++ r) = find f r)
    by (induction l as [|x l IH]; intros r H; cbn; [reflexivity|rewrite H, IH; auto with datatypes]).
  rewrite E by (intros x Hx; apply in_seq in Hx; apply Hb; lia); cbn [find]; rewrite Hn; reflexivity.
Qed.

Lemma find_first_inv (f : nat -> bool) N n :
  find f (seq 0 N) = Some n -> f n = true /\ (n < N)%nat /\ forall i, (i < n)%nat -> f i = false.
Proof.
  intros H; pose proof (find_some _ _ H) as [Hin Hf]; apply in_seq in Hin.
  split; [exact Hf|split; [lia|intros i Hi]].
  destruct (f i) eqn:E; [|reflexivity].
  pose proof (find_first) as F.
  assert (Hmin : exists j, (j <= i)%nat /\ f j = true /\ forall k, (k < j)%nat -> f k = false).
  { clear - E; induction i as [i IH] using lt_wf_ind.
    destruct (find f (seq 0 i)) as [j|] eqn:Ej.
    - apply find_some in Ej as [Hj Ej]; apply in_seq in Hj.
      destruct (IH j ltac:(lia) Ej) as (j' & ? & ? & ?); exists j'; split; [lia|auto].
    - exists i; split; [lia|split; [exact E|]]; intros k Hk.
      apply (find_none _ _ Ej), in_seq; lia. }
  destruct Hmin as (j & Hj & Fj & Hk); rewrite (F f j N Hk Fj ltac:(lia)) in H; injection H as ->; lia.
Qed.

Lemma nth_app_l (l r : list Z) k : (k < length l)%nat -> nth k (l ++ r) 0 = nth k l 0.
Proof. intros; apply app_nth1; assumption. Qed.

(** An encoded slot is recognised where it is. *)
Lemma slot_header_here pre es post :
  Forall cert_wf es -> (1 <= length es <= 8)%nat ->
  slot_header_at (pre ++ EncodeSlot es ++ post) (length pre) = true.
Proof.
  intros W H; rewrite (EncodeSlot_layout _ W); unfold slot_layout.
  transitivity (slot_header_at (pre ++ header (length es)) (length pre)).
  - apply slot_header_at_ext; intros k Hk; rewrite !nth_app_off, <- !app_assoc, nth_app_l by exact Hk; reflexivity.
  - assert (L : (length es = 1 \/ length es = 2 \/ length es = 3 \/ length es = 4 \/
      length es = 5 \/ length es = 6 \/ length es = 7 \/ length es = 8)%nat) by lia.
    cbv beta zeta delta [slot_header_at]; rewrite !nth_app_off.
    rewrite (forallb_pointwise _ (fun k => nth k (header (length es)) 0 =? nth k Magic 0))
      by (intros; rewrite nth_app_off; reflexivity).
    rewrite (forallb_pointwise (fun k => nth (length pre + k) _ 0 =? 0) (fun k => nth k (header (length es)) 0 =? 0))
      by (intros; rewrite nth_app_off; reflexivity).
    repeat (destruct L as [L|L]; [rewrite L; reflexivity|]); rewrite L; reflexivity.
Qed.

(** Two slots with the same number of entries start with the same sixteen bytes. *)
Lemma slot_prefix es es' post post' k :
  Forall cert_wf es -> Forall cert_wf es' -> length es = length es' -> (k < 16)%nat ->
  nth k (EncodeSlot es ++ post) 0 = nth k (EncodeSlot es' ++ post') 0.
Proof.
  intros W W' L Hk; rewrite !EncodeSlot_layout by assumption; unfold slot_layout.
  rewrite <- !app_assoc, !(nth_app_l (header _)), L by (rewrite length_header; exact Hk); reflexivity.
Qed.

Lemma zero_slot_encoded pre es post :
  Forall cert_wf es -> (1 <= length es <= 8)%nat ->
  (forall i, (i < length pre)%nat -> slot_header_at (pre ++ EncodeSlot es ++ post) i = false) ->
  zero_slot (pre ++ EncodeSlot es ++ post) = pre ++ repeat 0 SlotSize ++ post.
Proof.
  intros W H Hf; unfold zero_slot, janosLocateDivinedSlot.
  assert (Ls : length (EncodeSlot es) = SlotSize) by (rewrite (EncodeSlot_layout _ W); apply length_slot_layout, W).
  assert (Lz : (16 <= SlotSize)%nat) by (unfold SlotSize; lia).
  rewrite (find_first _ (length pre));
    [|exact Hf|apply slot_header_here; assumption|rewrite !length_app, Ls; lia].
  unfold zero_capped; change janosCertSlotStorageSize with SlotSize; rewrite <- Ls.
  destruct (Z.ltb_spec (Z.of_nat (length (pre ++ EncodeSlot es ++ post)))
    (Z.of_nat (length pre) + Z.of_nat (length (EncodeSlot es)))) as [Hlt|_];
    [rewrite !length_app in Hlt; lia|].
  apply zero_range_app.
Qed.

(** ** Reading *)

(** A piece a read can return whole: not empty, and within what one read asks for. *)
Definition piece_ok (chunk mapped : Z) (x : list Z) : Prop :=
  x <> [] /\ (Z.of_nat (length x) <= chunk \/ mapped <= chunk).

Lemma read_loop_chunks chunk mapped chunks got :
  Forall (piece_ok chunk mapped) chunks -> Z.of_nat (length (got ++ concat chunks)) < mapped ->
  read_loop chunk mapped (map ReadBytes chunks) got = Some (got ++ concat chunks).
Proof.
  intros H; revert got; induction H as [|c cs [Hc Hk] _ IH]; intros got Hl; cbn [map concat read_loop] in *.
  - rewrite app_nil_r; destruct (_ <? _); reflexivity.
  - rewrite !length_app in Hl; destruct (Z.ltb_spec (Z.of_nat (length got)) mapped); [|lia].
    rewrite firstn_all2 by (destruct (Z.ltb_spec chunk (mapped - Z.of_nat (length got))); lia).
    destruct (Nat.eqb_spec (length c) 0); [destruct c; [contradiction|discriminate]|].
    rewrite IH, app_assoc by (rewrite !length_app; lia); reflexivity.
Qed.

Lemma read_loop_done chunk mapped script got :
  Z.of_nat (length got) = mapped -> read_loop chunk mapped script got = Some got.
Proof. intros <-; destruct script; cbn [read_loop]; rewrite Z.ltb_irrefl; reflexivity. Qed.

Lemma read_loop_full chunk mapped chunks got :
  Forall (piece_ok chunk mapped) chunks -> 0 <= mapped -> 0 < chunk -> Z.of_nat (length got) <= mapped ->
  mapped <= Z.of_nat (length (got ++ concat chunks)) ->
  exists r, read_loop chunk mapped (map ReadBytes chunks) got = Some r /\ Z.of_nat (length r) = mapped.
Proof.
  intros H; revert got; induction H as [|c cs [Hc Hk] _ IH]; intros got Hm Hp Hg Hl; cbn [map concat read_loop] in *.
  - rewrite app_nil_r in Hl; exists got; destruct (_ <? _); split; (reflexivity || lia).
  - destruct (Z.ltb_spec (Z.of_nat (length got)) mapped); [|exists got; split; (reflexivity || lia)].
    rewrite !length_app in Hl.
    assert (Lc : (0 < length c)%nat) by (destruct c; [contradiction|cbn; lia]).
    set (d := firstn _ c).
    assert (Ld : Z.of_nat (length d) = Z.min (mapped - Z.of_nat (length got)) (Z.of_nat (length c)))
      by (unfold d; rewrite length_firstn; destruct (Z.ltb_spec chunk (mapped - Z.of_nat (length got))); lia).
    destruct (Nat.eqb_spec (length d) 0); [lia|].
    destruct (Z.le_gt_cases (Z.of_nat (length c)) (mapped - Z.of_nat (length got))).
    + apply IH; rewrite ?length_app; lia.
    + exists (got ++ d); split; [apply read_loop_done|]; rewrite length_app; lia.
Qed.

(** The readers hash the whole file or refuse it. *)
Lemma hash_reader_ok c chunk chunks :
  0 < chunk -> Forall (piece_ok chunk janosMaxBinarySize) chunks ->
  let file := concat chunks in
  hash_reader c chunk (map ReadBytes chunks) =
  if (Z.of_nat (length file) =? 0) || (janosMaxBinarySize <=? Z.of_nat (length file)) then Some None
  else obind (janosHashCanonical c file) (fun d => Some (Some d)).
Proof.
  intros Hc H file; unfold hash_reader.
  assert (Hm : 0 < janosMaxBinarySize) by reflexivity.
  destruct (Z.lt_ge_cases (Z.of_nat (length file)) janosMaxBinarySize) as [Hlt|Hge].
  - rewrite (read_loop_chunks _ _ chunks [] H Hlt); reflexivity.
  - destruct (read_loop_full chunk janosMaxBinarySize chunks [] H) as (r & -> & Hr); [lia|lia|cbn; lia|exact Hge|].
    rewrite Hr; destruct (Z.eqb_spec janosMaxBinarySize 0), (Z.leb_spec janosMaxBinarySize janosMaxBinarySize),
      (Z.eqb_spec (Z.of_nat (length file)) 0), (Z.leb_spec janosMaxBinarySize (Z.of_nat (length file)));
      cbn [orb]; lia || reflexivity.
Qed.

(** ** Loads in range *)

(** The [n]-byte little-endian field at [off]. *)
Definition le_at (n : nat) (buf : list Z) (off : Z) : Z := le_val (firstn n (skipn (Z.to_nat off) buf)).

Lemma le_at_range n buf off : bytes buf -> 0 <= le_at n buf off < pow256 n.
Proof.
  intros H; unfold le_at.
  pose proof (le_val_range (firstn n (skipn (Z.to_nat off) buf)) ltac:(auto with janos)) as R.
  rewrite length_firstn in R.
  enough (pow256 (Nat.min n (length (skipn (Z.to_nat off) buf))) <= pow256 n) by lia.
  unfold pow256; apply Z.pow_le_mono_r; lia.
Qed.

Lemma slice_from_ok buf off :
  0 <= off <= Z.of_nat (length buf) -> slice_from buf off = Some (skipn (Z.to_nat off) buf).
Proof.
  intros H; unfold slice_from; apply slice_Some; split; [lia|split; [lia|]].
  rewrite firstn_all2; [reflexivity|rewrite length_skipn; lia].
Qed.

Lemma lor_shift_add a b k : 0 <= k -> 0 <= a < 2 ^ k -> 0 <= b -> Z.lor a (Z.shiftl b k) = a + b * 2 ^ k.
Proof. intros; rewrite Z.shiftl_mul_pow2 by assumption; apply lor_add_low; assumption. Qed.

Lemma U16LE_ok b : bytes b -> (2 <= length b)%nat -> janosU16LE b = Some (le_val (firstn 2 b)).
Proof.
  intros H L; do 2 (destruct b as [|? b]; [cbn in L; lia|]).
  unfold bytes in *; repeat match goal with H : Forall _ (_ :: _) |- _ => inversion H; clear H; subst end.
  unfold janosU16LE; unword; rewrite lor_shift_add by (change (2 ^ 8) with W8; lia).
  cbn [firstn le_val]; change (2 ^ 8) with W8; f_equal; lia.
Qed.

Lemma U64LE_ok b : bytes b -> (8 <= length b)%nat -> janosU64LE b = Some (le_val (firstn 8 b)).
Proof.
  intros H L; do 8 (destruct b as [|? b]; [cbn in L; lia|]).
  unfold bytes in *; repeat match goal with H : Forall _ (_ :: _) |- _ => inversion H; clear H; subst end.
  unfold janosU64LE; unword.
  change (2 ^ 8) with 256.
  rewrite (lor_shift_add _ _ 8) by (change (2 ^ 8) with 256; lia).
  rewrite (lor_shift_add _ _ 16) by (change (2 ^ 8) with 256; change (2 ^ 16) with 65536; lia).
  rewrite (lor_shift_add _ _ 24) by (change (2 ^ 8) with 256; change (2 ^ 16) with 65536; change (2 ^ 24) with 16777216; lia).
  change (2 ^ 8) with 256; change (2 ^ 16) with 65536; change (2 ^ 24) with 16777216.
  rewrite (lor_shift_add _ _ 32) by (change (2 ^ 32) with 4294967296; lia).
  change (2 ^ 32) with 4294967296.
  rewrite (lor_shift_add _ _ 40) by (change (2 ^ 40) with 1099511627776; lia).
  change (2 ^ 40) with 1099511627776.
  rewrite (lor_shift_add _ _ 48) by (change (2 ^ 48) with 281474976710656; lia).
  change (2 ^ 48) with 281474976710656.
  rewrite (lor_shift_add _ _ 56) by (change (2 ^ 56) with 72057594037927936; lia).
  change (2 ^ 56) with 72057594037927936.
  cbn [firstn le_val]; f_equal; lia.
Qed.

Lemma U32LE_ok b : bytes b -> (4 <= length b)%nat -> janosU32LE b = Some (le_val (firstn 4 b)).
Proof.
  intros H L; do 4 (destruct b as [|? b]; [cbn in L; lia|]).
  unfold bytes in *; repeat match goal with H : Forall _ (_ :: _) |- _ => inversion H; clear H; subst end.
  unfold janosU32LE; unword.
  rewrite (lor_shift_add _ _ 8) by (change (2 ^ 8) with 256; lia).
  rewrite (lor_shift_add _ _ 16) by (change (2 ^ 8) with 256; change (2 ^ 16) with 65536; lia).
  rewrite (lor_shift_add _ _ 24) by (change (2 ^ 8) with 256; change (2 ^ 16) with 65536; change (2 ^ 24) with 16777216; lia).
  change (2 ^ 8) with 256; change (2 ^ 16) with 65536; change (2 ^ 24) with 16777216.
  cbn [firstn le_val]; f_equal; lia.
Qed.

Section Loads.
Context (buf : list Z) (Hb : bytes buf).

Lemma load16_k {A} off (k : Z -> option A) :
  0 <= off -> off + 2 <= Z.of_nat (length buf) ->
  obind (slice_from buf off) (fun b => obind (janosU16LE b) k) = k (le_at 2 buf off).
Proof.
  intros H0 H1; rewrite slice_from_ok by lia; cbn [obind].
  rewrite U16LE_ok; [reflexivity|auto with janos|rewrite length_skipn; lia].
Qed.

Lemma load32_k {A} off (k : Z -> option A) :
  0 <= off -> off + 4 <= Z.of_nat (length buf) ->
  obind (slice_from buf off) (fun b => obind (janosU32LE b) k) = k (le_at 4 buf off).
Proof.
  intros H0 H1; rewrite slice_from_ok by lia; cbn [obind].
  rewrite U32LE_ok; [reflexivity|auto with janos|rewrite length_skipn; lia].
Qed.

Lemma load64_k {A} off (k : Z -> option A) :
  0 <= off -> off + 8 <= Z.of_nat (length buf) ->
  obind (slice_from buf off) (fun b => obind (janosU64LE b) k) = k (le_at 8 buf off).
Proof.
  intros H0 H1; rewrite slice_from_ok by lia; cbn [obind].
  rewrite U64LE_ok; [reflexivity|auto with janos|rewrite length_skipn; lia].
Qed.

(** *** The ELF scan *)

Context (target : list Z) (Ht : Z.of_nat (length target) < 2 ^ 31) (Hlen : Z.of_nat (length buf) < 2 ^ 62).

Lemma index_not_None i : 0 <= i < Z.of_nat (length buf) -> index buf i <> None.
Proof. intros H; rewrite index_ok by exact H; discriminate. Qed.

Lemma elf_name_no_panic n :
  0 <= n -> n + Z.of_nat (length target) + 1 <= Z.of_nat (length buf) -> elf_name_matches buf target n <> None.
Proof.
  intros H0 H1; unfold elf_name_matches; apply obind_not_None.
  - assert (G : forall t k, n + Z.of_nat (k + length t) + 1 <= Z.of_nat (length buf) ->
      (fix go (k : nat) (t : list Z) : option bool :=
        match t with
        | [] => Some true
        | c :: t => do* b := index buf (u64 (n + Z.of_nat k)) in if b =? c then go (S k) t else Some false
        end) k t <> None).
    { induction t as [|c t IH]; intros k Hk; [discriminate|]; cbn [length] in Hk.
      rewrite u64_small by (unword; lia); apply obind_not_None; [apply index_not_None; lia|].
      intros b _; destruct (b =? c); [apply IH; lia|discriminate]. }
    apply G; lia.
  - intros [] _; [|discriminate]; rewrite u64_small by (unword; lia).
    apply obind_not_None; [apply index_not_None; lia|discriminate].
Qed.

Lemma elf_section_no_panic shoff shentsize shnum o s i :
  0 <= shoff -> 64 <= shentsize < W16 -> 0 <= i < shnum -> shnum < W16 ->
  shoff + shnum * shentsize <= Z.of_nat (length buf) -> 0 <= o -> 0 <= s -> o + s <= Z.of_nat (length buf) ->
  elf_section_at buf target shoff shentsize o s i <> None.
Proof.
  intros H0 H1 H2 H3 H4 Ho Hs Hos; unfold elf_section_at.
  assert (Hm : i * shentsize + shentsize <= shnum * shentsize) by nia.
  assert (Hi : 0 <= i * shentsize) by nia.
  rewrite (u64_small (i * shentsize)), (u64_small (shoff + _)) by (unword; nia).
  set (h := shoff + i * shentsize); rewrite load32_k by (unfold h; lia); cbv beta.
  pose proof (le_at_range 4 buf h Hb) as Hn; change (pow256 4) with W32 in Hn.
  destruct (Z.leb_spec s (le_at 4 buf h)); [discriminate|].
  rewrite (u64_small (o + _)) by (unword; lia).
  rewrite !u64_small by (unword; rewrite ?u64_small by (unword; lia); lia).
  destruct (Z.ltb_spec (Z.of_nat (length buf)) (o + le_at 4 buf h + Z.of_nat (length target) + 1)); [discriminate|].
  apply obind_not_None; [apply elf_name_no_panic; lia|intros ok _].
  destruct ok; cbn [negb]; [|discriminate].
  rewrite !load64_k by (unfold h; lia).
  discriminate.
Qed.

(** The parse returns, found or not, when its two sums of file fields do not wrap. *)
Lemma find_section_no_panic :
  le_at 8 buf 40 + le_at 2 buf 60 * le_at 2 buf 58 < W64 ->
  (let h := le_at 8 buf 40 + le_at 2 buf 62 * le_at 2 buf 58 in
   le_at 8 buf (h + 24) + le_at 8 buf (h + 32) < W64) ->
  janosFindElfSection buf target <> None.
Proof.
  intros H1 H2; unfold janosFindElfSection.
  destruct (Nat.ltb_spec (length buf) 64) as [|L]; [discriminate|].
  destruct (negb _); [discriminate|]; destruct (negb _); [discriminate|].
  rewrite load64_k by lia; cbv beta; rewrite load16_k by lia; cbv beta.
  rewrite load16_k by lia; cbv beta; rewrite load16_k by lia; cbv beta.
  pose proof (le_at_range 8 buf 40 Hb) as R1; pose proof (le_at_range 2 buf 58 Hb) as R2.
  pose proof (le_at_range 2 buf 60 Hb) as R3; pose proof (le_at_range 2 buf 62 Hb) as R4.
  change (pow256 8) with W64 in *; change (pow256 2) with W16 in *.
  set (shoff := le_at 8 buf 40) in *; set (es := le_at 2 buf 58) in *.
  set (sn := le_at 2 buf 60) in *; set (sx := le_at 2 buf 62) in *.
  destruct (Z.ltb_spec es 64); [discriminate|]; destruct (Z.eqb_spec sn 0); [discriminate|].
  destruct (Z.leb_spec sn sx); [discriminate|]; cbn [orb].
  assert (M : 0 <= sx * es /\ sx * es + es <= sn * es) by nia.
  rewrite !(u64_small (_ * _)) by (unword; nia); rewrite (u64_small (shoff + _)) by (unword; nia).
  destruct (Z.ltb_spec (Z.of_nat (length buf)) (shoff + sn * es)); [discriminate|].
  rewrite (u64_small (shoff + _)) by (unword; nia).
  rewrite !u64_small by (unword; lia).
  rewrite load64_k by lia; cbv beta; rewrite load64_k by lia; cbv beta.
  cbv zeta in H2; set (h := shoff + sx * es) in *.
  pose proof (le_at_range 8 buf (h + 24) Hb) as R5; pose proof (le_at_range 8 buf (h + 32) Hb) as R6.
  rewrite (u64_small (_ + _)) by (unword; lia).
  destruct (Z.ltb_spec (Z.of_nat (length buf)) (le_at 8 buf (h + 24) + le_at 8 buf (h + 32))); [discriminate|].
  assert (G : forall m i, 0 <= i -> i + Z.of_nat m <= sn ->
    elf_scan m buf target shoff es (le_at 8 buf (h + 24)) (le_at 8 buf (h + 32)) i <> None).
  { induction m as [|m IH]; intros i Hi Hn; [discriminate|]; cbn [elf_scan]; apply obind_not_None.
    - apply (elf_section_no_panic shoff es sn); lia.
    - intros [x|] _; [discriminate|apply IH; lia]. }
  apply G; lia.
Qed.
End Loads.

(** ** Malformed headers *)

(** A 64-byte ELF header whose section table ends exactly at 2^64. *)
Definition wrapping_elf : list Z :=
  [0x7F; 69; 76; 70; 2; 1] ++ repeat 0 34 ++ [0xC0] ++ repeat 0xFF 7 ++ repeat 0 10 ++ [64; 0; 1; 0; 0; 0].

(** A Mach-O header with one code-signature command whose size wraps the offset. *)
Definition wrapping_macho : list Z :=
  [0xCF; 0xFA; 0xED; 0xFE] ++ repeat 0 12 ++ [1; 0; 0; 0; 8; 0; 0; 0] ++ repeat 0 8 ++
  [0x1D; 0; 0; 0; 0xF0; 0xFF; 0xFF; 0xFF].

(** ** Properties *)

(** The hash does not depend on what the slot says: two files that differ only in the
    contents of an encoded slot with the same number of entries (the certificates, keys
    and signatures in it) have the same canonical hash, provided nothing earlier in the
    file looks like a slot header.  So a signature over the hash can be written into the
    slot afterwards. *)
Theorem slot_contents_ignored pre es es' post guildKey releaseKey :
  Forall cert_wf es -> Forall cert_wf es' -> length es = length es' -> (1 <= length es <= 8)%nat ->
  (forall i, (i < length pre)%nat -> slot_header_at (pre ++ EncodeSlot es ++ post) i = false) ->
  janosCanonicalHash (pre ++ EncodeSlot es ++ post) guildKey releaseKey =
  janosCanonicalHash (pre ++ EncodeSlot es' ++ post) guildKey releaseKey.
Proof.
  intros W W' L H Hf; unfold janosCanonicalHash, canonical_form.
  rewrite (zero_slot_encoded pre es post W H Hf).
  rewrite (zero_slot_encoded pre es' post W'); [reflexivity|lia|].
  intros i Hi; rewrite <- (Hf i Hi); apply slot_header_at_ext; intros k Hk.
  destruct (Nat.lt_ge_cases (i + k) (length pre)).
  - rewrite !nth_app_l by assumption; reflexivity.
  - replace (i + k)%nat with (length pre + (i + k - length pre))%nat by lia.
    rewrite !nth_app_off; apply slot_prefix; (assumption || lia).
Qed.

Lemma slot_contents_ignored_witness :
  janosCanonicalHash (repeat 9 40 ++ EncodeSlot [demo_cert 0 1; demo_cert 1 2] ++ [1; 2; 3]) (repeat 1 64) (repeat 1 64) =
  janosCanonicalHash (repeat 9 40 ++ EncodeSlot [demo_cert 0 7; demo_cert 1 8] ++ [1; 2; 3]) (repeat 1 64) (repeat 1 64).
Proof.
  assert (W : forall a b, is_u32 a -> is_u32 b -> Forall cert_wf [demo_cert 0 a; demo_cert 1 b])
    by (intros; repeat (constructor; [apply demo_cert_wf; [unword; lia|assumption]|]); constructor).
  apply (slot_contents_ignored (repeat 9 40) [demo_cert 0 1; demo_cert 1 2] [demo_cert 0 7; demo_cert 1 8] [1; 2; 3]).
  - apply W; unword; lia.
  - apply W; unword; lia.
  - reflexivity.
  - cbn; lia.
  - intros i Hi; cbn [length repeat] in Hi.
    do 40 (destruct i as [|i]; [vm_compute; reflexivity|]); lia.
Defined.

(** [janosZeroAll] is the left-to-right zeroing of every non-overlapping occurrence,
    on every buffer and pattern, the empty and the overlong ones included. *)
Theorem janosZeroAll_correct buf pat :
  janosZeroAll buf pat = match pat with [] => buf | _ => zero_occ pat 0 buf end.
Proof.
  destruct pat as [|x pat]; [reflexivity|apply janosZeroAll_occ; discriminate].
Qed.

(** C32: Reading in pieces: whatever non-empty pieces the kernel returns (on Windows of at
    most 1 MiB), a file below the size limit hashes to its canonical hash, an empty one is
    refused, and one at or above the limit is refused after exactly the limit has been
    read.  The stored digest is that hash with trust level self-attested, on each of the
    three platforms that can open the file; a failed open leaves the provenance alone. *)
Theorem self_hash_readers_correct c chunks gp n k :
  Forall (fun x => x <> []) chunks -> (0 < n < 1024)%nat -> 0 < k < 1024 ->
  let file := concat chunks in
  let script := map ReadBytes chunks in
  let result :=
    if (Z.of_nat (length file) =? 0) || (janosMaxBinarySize <=? Z.of_nat (length file)) then Some gp
    else obind (janosHashCanonical c file) (fun d => Some (janosStoreBinaryHash gp d)) in
  janosInitBinaryHash c (Linux true true script) gp = result /\
  janosInitBinaryHash c (Darwin n true true script) gp = result /\
  (Forall (fun x => Z.of_nat (length x) <= 2 ^ 20) chunks ->
     janosInitBinaryHash c (Windows k true true script) gp = result) /\
  janosInitBinaryHash c (Linux false true script) gp = Some gp.
Proof.
  intros H Hn Hk file script result.
  assert (S : forall chunk, 0 < chunk -> Forall (piece_ok chunk janosMaxBinarySize) chunks ->
    store_digest gp (hash_reader c chunk script) = result).
  { intros chunk Hp Hc; unfold script; rewrite hash_reader_ok by assumption; unfold result, file.
    destruct (_ || _); [reflexivity|]; destruct (janosHashCanonical c _); reflexivity. }
  assert (U : store_digest gp (janosHashFD c true script) = result).
  { apply S; [reflexivity|]; eapply Forall_impl; [|exact H]; intros x Hx; split; [exact Hx|right; lia]. }
  split; [exact U|split; [|split; [|reflexivity]]].
  - cbn [janosInitBinaryHash]; unfold janosDarwinPathMax.
    destruct (Nat.eqb_spec n 0), (Nat.leb_spec 1024 n); try lia; exact U.
  - intros Hw; cbn [janosInitBinaryHash]; unfold janosWinMaxPath.
    destruct (Z.eqb_spec k 0), (Z.leb_spec 1024 k); try lia; apply S; [reflexivity|].
    rewrite Forall_forall in *; intros x Hx; split; [auto|left; apply Hw, Hx].
Qed.

Lemma self_hash_readers_correct_witness :
  janosInitBinaryHash cert_state_undivined (Linux true true (map ReadBytes [[1; 2]; [3]])) prov_zero =
  Some (janosStoreBinaryHash prov_zero (sha256 [1; 2; 3])).
Proof.
  refine (eq_trans (proj1 (self_hash_readers_correct cert_state_undivined [[1; 2]; [3]] prov_zero 1 1 _ _ _)) _).
  - repeat constructor; discriminate.
  - lia.
  - lia.
  - vm_compute; reflexivity.
Defined.

(** The ELF parser is total up to wrap-around: on any file whose section table end
    and string table end do not exceed 2^64 as sums of the header's fields, locating a
    section and excluding the build-id note return, whatever else the file contains. *)
Theorem elf_parser_no_panic buf target :
  bytes buf -> Z.of_nat (length buf) < 2 ^ 62 -> Z.of_nat (length target) < 2 ^ 31 ->
  le_at 8 buf 40 + le_at 2 buf 60 * le_at 2 buf 58 < W64 ->
  (let h := le_at 8 buf 40 + le_at 2 buf 62 * le_at 2 buf 58 in
   le_at 8 buf (h + 24) + le_at 8 buf (h + 32) < W64) ->
  janosFindElfSection buf target <> None /\
  exists buf', janosZeroElfExcludes buf = Some buf' /\ length buf' = length buf.
Proof.
  intros Hb Hl Ht H1 H2; split; [apply find_section_no_panic; assumption|].
  pose proof (find_section_no_panic buf Hb (str ".note.gnu.build-id") ltac:(reflexivity) Hl H1 H2) as N.
  unfold janosZeroElfExcludes; destruct (janosFindElfSection buf _) as [[[o s]|]|]; [| |contradiction]; cbn [obind].
  - destruct (s <? 16); eexists; (split; [reflexivity|]); [reflexivity|apply length_zero_capped].
  - eexists; split; reflexivity.
Qed.

(** A 64-byte header without sections. *)
Lemma elf_parser_no_panic_witness :
  janosFindElfSection ([0x7F; 69; 76; 70; 2; 1] ++ repeat 0 58) (str ".note.go.buildid") <> None.
Proof.
  apply (elf_parser_no_panic ([0x7F; 69; 76; 70; 2; 1] ++ repeat 0 58) (str ".note.go.buildid"));
    [apply bytesb_ok|..]; vm_compute; reflexivity.
Defined.

(** C33: The parsers do not bail out cleanly on every malformed header: there are an ELF
    file and a Mach-O file, of 64 and 40 bytes, on which a bounds check wraps and
    canonicalisation runs into an out-of-range load, a panic at schedinit. *)
Theorem malformed_header_panics guildKey releaseKey :
  length guildKey = 64%nat -> length releaseKey = 64%nat ->
  guildKey <> wrapping_elf -> releaseKey <> wrapping_elf ->
  janosCanonicalHash wrapping_elf guildKey releaseKey = None /\
  janosCanonicalHash wrapping_macho guildKey releaseKey = None.
Proof.
  intros L1 L2 N1 N2.
  assert (Z1 : forall k, length k = 64%nat -> k <> wrapping_elf -> janosZeroAll wrapping_elf k = wrapping_elf).
  { intros k L N; rewrite janosZeroAll_occ by (destruct k; discriminate).
    change wrapping_elf with (nth 0 wrapping_elf 0 :: skipn 1 wrapping_elf); cbn [zero_occ].
    change (nth 0 wrapping_elf 0 :: skipn 1 wrapping_elf) with wrapping_elf.
    destruct (is_prefix k wrapping_elf) eqn:E.
    - apply is_prefix_split in E; contradiction N; rewrite E, L; symmetry; apply app_nil_r.
    - exact (f_equal (cons 0x7F) (zero_occ_short k (skipn 1 wrapping_elf) ltac:(rewrite L; cbn; lia))). }
  assert (Z2 : forall k, length k = 64%nat -> janosZeroAll wrapping_macho k = wrapping_macho).
  { intros k L; unfold janosZeroAll; rewrite L; reflexivity. }
  unfold janosCanonicalHash, canonical_form; split.
  - change (zero_slot wrapping_elf) with wrapping_elf; rewrite !Z1 by assumption; vm_compute; reflexivity.
  - change (zero_slot wrapping_macho) with wrapping_macho; rewrite !Z2 by assumption; vm_compute; reflexivity.
Qed.

Lemma malformed_header_panics_witness :
  janosCanonicalHash wrapping_elf janosExpectedGuildPubKey janosExpectedReleasePubKey = None.
Proof.
  apply (malformed_header_panics janosExpectedGuildPubKey janosExpectedReleasePubKey);
    [reflexivity|reflexivity|discriminate|discriminate].
Defined.
