(* ===== verification/Genesis.v ===== *)
(** * Genesis: the classified self of every identity

    runtime/genesis/genesis.go.  The registry of selfStates is a finite map from block
    addresses (0 is the nil block) and every operation runs on behalf of the goroutine
    whose block is [addr].  Values of type [any] and reflect.Types are parameters with the
    laws of the language's type assertions; so are the bodies of the user's functions,
    which are given by what they do to this package's state. *)

From Stdlib Require Import String ZArith Lia List Bool.
From stdpp Require Import base option list gmap.
From S2P Require Import Prelude Slices.
Import ListNotations.
Open Scope Z_scope.

(** ** Function names

    [parseFuncOrigin]: the scans for the last slash and for the first dot after it. *)
Fixpoint last_slash (fn : list Z) (n : nat) : option nat :=
  match n with
  | O => None
  | S i => if nth i fn 0 =? 47 then Some i else last_slash fn i
  end.

Fixpoint first_dot (fn : list Z) (i n : nat) : option nat :=
  match n with
  | O => None
  | S n => if nth i fn 0 =? 46 then Some i else first_dot fn (S i) n
  end.

Definition parseFuncOrigin (fn : list Z) : list Z * list Z :=
  let slash := last_slash fn (length fn) in
  let scanStart := match slash with Some s => S s | None => O end in
  match first_dot fn scanStart (length fn - scanStart) with
  | None => ([], [])
  | Some dot =>
      match slash with
      | None => ([], firstn dot fn)
      | Some s => (firstn s fn, firstn (dot - S s) (skipn (S s) fn))
      end
  end.

(** The names of the frames runtime.Callers yields, outermost last. *)
Fixpoint callerOrigin (frames : list (list Z)) : list Z * list Z :=
  match frames with
  | [] => ([], [])
  | f :: more =>
      if (length f =? 0)%nat then callerOrigin more
      else
        let '(module, pkg) := parseFuncOrigin f in
        if negb (length pkg =? 0)%nat then (module, pkg) else callerOrigin more
  end.

Definition doInit1_name : list Z := str "runtime.doInit1".
Definition doInit_name : list Z := str "runtime.doInit".

(** [true]: return; [false]: panic. *)
Definition mustBeInInitPhase (frames : list (list Z)) : bool :=
  existsb (fun f => bytes_eqb f doInit1_name || bytes_eqb f doInit_name) frames.

(** ** Values and types *)

(** What the package asks of [any] and of package reflect: a value's dynamic type, and
    which types are interfaces and who implements them. *)
Class GoTypes (V T : Type) : Type := {
  TypeOf : V -> T;
  isInterface : T -> bool;
  implements : T -> T -> bool;
  waitGroupType : T;
}.

(** A dynamic type is never an interface type. *)
Class GoTypesOk (V T : Type) {G : GoTypes V T} : Prop := {
  dynamic_concrete : forall v : V, isInterface (TypeOf v) = false;
}.

Inductive gerror : Type :=
| ErrPhaseOpen
| ErrNotFound
| ErrAmbiguous
| errPhaseClosed
| errDuplicateType (module pkg : list Z)
| errNilTrait
| errWorkNil
| errPrimaryNil
| errSparkParent (e : gerror).

(** Where the process exits for want of an identity. *)
Inductive fatal : Type := fatalMissingIdentity (where_ : list Z).

Section Genesis.
Context {V T F : Type} `{GT : !GoTypes V T} `{ET : !EqDecision T} `{CT : !Countable T}.

(** ** State *)

(** [Complex] is an [any]: a value or nil. *)
Record Trait : Type := MkTrait {
  Module : list Z;
  Package : list Z;
  Complex : option V;
}.

Record Self : Type := MkSelf {
  Traits : list Trait;
  Inception : Z;
}.

(** [typeIdx]'s keys are reflect.Types; [None] is the nil one.  [wg] is the phase's
    WaitGroup counter.  [F] is the type of deferred functions. *)
Record selfState : Type := MkState {
  traits : list Trait;
  typeIdx : gmap (option T) nat;
  wg : nat;
  frozen : bool;
  deferred : list F;
  inception : Z;
}.

Record world : Type := MkWorld {
  registry : gmap nat selfState;
  shutdown : list F;
  mainBlockAddr : nat;
  mainInception : Z;
}.

Definition set_registry (w : world) (r : gmap nat selfState) : world :=
  MkWorld r (shutdown w) (mainBlockAddr w) (mainInception w).
Definition put (w : world) (addr : nat) (st : selfState) : world := set_registry w (<[addr := st]> (registry w)).
Definition set_deferred (st : selfState) (d : list F) : selfState :=
  MkState (traits st) (typeIdx st) (wg st) (frozen st) d (inception st).
Definition set_inception (st : selfState) (t : Z) : selfState :=
  MkState (traits st) (typeIdx st) (wg st) (frozen st) (deferred st) t.
Definition freeze (st : selfState) : selfState :=
  MkState (traits st) (typeIdx st) (wg st) true (deferred st) (inception st).

Definition reflect_TypeOf (v : option V) : option T := TypeOf <$> v.

(** ** The current identity's state *)

Definition onBlockFinalized (w : world) (addr : nat) : world := set_registry w (delete addr (registry w)).

Definition new_state (w : world) (addr : nat) : selfState :=
  MkState [] ∅ 0 false [] (if (addr =? mainBlockAddr w)%nat then mainInception w else 0).

(** [None] is the nil result; otherwise the state, allocated on first use. *)
Definition stateForCurrent (w : world) (addr : nat) : option (selfState * world) :=
  if (addr =? 0)%nat then None
  else
    match registry w !! addr with
    | Some st => Some (st, w)
    | None => let st := new_state w addr in Some (st, put w addr st)
    end.

(** What an address holds, a new state when it has no entry. *)
Definition state_at (w : world) (addr : nat) : selfState := default (new_state w addr) (registry w !! addr).

(** Every API function starts with it; the process exits without an identity. *)
Definition with_state {A} (where_ : list Z) (w : world) (addr : nat) (k : selfState -> world -> outcome fatal A) : outcome fatal A :=
  match stateForCurrent w addr with
  | None => Fail (fatalMissingIdentity where_)
  | Some (st, w) => k st w
  end.

(** ** Traits *)

Definition index_trait (st : selfState) (i : nat) : outcome fatal Trait :=
  match traits st !! i with Some tr => Ret tr | None => Panic end.

(** The common tail of [registerTrait] and [registerTraitAny], under the lock: the new
    state or the error. *)
Definition add_trait (st : selfState) (typ : option T) (tr : Trait) : outcome fatal (selfState * option gerror) :=
  if frozen st then Ret (st, Some errPhaseClosed)
  else
    match typeIdx st !! typ with
    | Some existing =>
        bind (index_trait st existing) (fun e => Ret (st, Some (errDuplicateType (Module e) (Package e))))
    | None =>
        let ts := traits st ++ [tr] in
        Ret (MkState ts (<[typ := (length ts - 1)%nat]> (typeIdx st)) (wg st) (frozen st) (deferred st) (inception st), None)
    end.

(** [registerTrait[T]]: the key is the static type. *)
Definition registerTrait (typ : T) (w : world) (addr : nat) (frames : list (list Z)) (t : option V)
  : outcome fatal (world * option gerror) :=
  with_state (str "registerTrait") w addr (fun st w =>
    let '(module, pkg) := callerOrigin frames in
    bind (add_trait st (Some typ) (MkTrait module pkg t)) (fun '(st, e) => Ret (put w addr st, e))).

(** The key is the dynamic type. *)
Definition registerTraitAny (w : world) (addr : nat) (frames : list (list Z)) (v : option V)
  : outcome fatal (world * option gerror) :=
  match v with
  | None => Ret (w, Some errNilTrait)
  | Some x =>
      with_state (str "registerTraitAny") w addr (fun st w =>
        let '(module, pkg) := callerOrigin frames in
        bind (add_trait st (Some (TypeOf x)) (MkTrait module pkg v)) (fun '(st, e) => Ret (put w addr st, e)))
  end.

(** ** Closing the phase *)

(** [None] is the nil WaitGroup. *)
Definition phaseWaitGroup (w : world) (addr : nat) : outcome fatal (option nat * world) :=
  with_state (str "phaseWaitGroup") w addr (fun st w => Ret (if frozen st then None else Some (wg st), w)).

(** [during] is what other goroutines do while this one is in [st.wg.Wait()]; the call
    returns when the counter is zero, and blocks for ever ([None]) if it is not then.  The
    entry of a live identity is never evicted, so [st] is still the registry's. *)
Definition closePhase (during : world -> world) (w : world) (addr : nat)
  : outcome fatal (option (world * option gerror)) :=
  with_state (str "closePhase") w addr (fun st w =>
    if frozen st then Ret (Some (w, Some errPhaseClosed))
    else
      let w := during w in
      let st := state_at w addr in
      if negb (wg st =? 0)%nat then Ret None
      else if frozen st then Ret (Some (w, Some errPhaseClosed))
      else Ret (Some (put w addr (freeze st), None))).

(** The hook runtime.main calls: an error is a panic. *)
Definition mainPhaseCloseHook (during : world -> world) (w : world) (addr : nat) : outcome fatal (option world) :=
  bind (closePhase during w addr) (fun r =>
    match r with
    | None => Ret None
    | Some (w, None) => Ret (Some w)
    | Some (_, Some _) => Panic
    end).

(** ** Reading a self *)

Definition CurrentSelf (w : world) (addr : nat) : outcome fatal (world * (Self + gerror)) :=
  with_state (str "CurrentSelf") w addr (fun st w =>
    Ret (w, if negb (frozen st) then inr ErrPhaseOpen else inl (MkSelf (traits st) (inception st)))).

(** The type assertion [v.(typ)]: a panic when it does not hold. *)
Definition assert_type (typ : T) (v : option V) : outcome fatal V :=
  match v with
  | None => Panic
  | Some x =>
      if (if isInterface typ then implements (TypeOf x) typ else bool_decide (TypeOf x = typ)) then Ret x else Panic
  end.

(** The filters' tests on one trait. *)
Definition filters_match (filters : list (list Z)) (tr : Trait) : bool :=
  match filters with
  | [] => true
  | [m] => bytes_eqb (Module tr) m
  | m :: p :: _ => bytes_eqb (Module tr) m && bytes_eqb (Package tr) p
  end.

Definition trait_matches (typ : T) (filters : list (list Z)) (tr : Trait) : bool :=
  bool_decide (reflect_TypeOf (Complex tr) = Some typ) && filters_match filters tr.

(** The scan with [matchedIdx]: [None] is ErrAmbiguous. *)
Fixpoint scan_traits (typ : T) (filters : list (list Z)) (ts : list Trait) (i : nat) (matched : option nat)
  : option (option nat) :=
  match ts with
  | [] => Some matched
  | tr :: ts =>
      if negb (trait_matches typ filters tr) then scan_traits typ filters ts (S i) matched
      else match matched with
           | Some _ => None
           | None => scan_traits typ filters ts (S i) (Some i)
           end
  end.

Definition TraitOf (typ : T) (w : world) (addr : nat) (filters : list (list Z))
  : outcome fatal (world * (V + gerror)) :=
  with_state (str "TraitOf") w addr (fun st w =>
    if negb (frozen st) then Ret (w, inr ErrPhaseOpen)
    else if (length filters =? 0)%nat then
      match typeIdx st !! Some typ with
      | Some idx => bind (index_trait st idx) (fun tr => bind (assert_type typ (Complex tr)) (fun v => Ret (w, inl v)))
      | None => Ret (w, inr ErrNotFound)
      end
    else
      match scan_traits typ filters (traits st) 0 None with
      | None => Ret (w, inr ErrAmbiguous)
      | Some None => Ret (w, inr ErrNotFound)
      | Some (Some i) => bind (index_trait st i) (fun tr => bind (assert_type typ (Complex tr)) (fun v => Ret (w, inl v)))
      end).

(** ** Register *)

(** A user's initialiser: what it does to this package's state, and its result, [None] for
    a panic. *)
Definition init_fn : Type := world -> world * option (option V).

(** The shapes [registerDispatch] tells apart; a [Func] may be nil. *)
Inductive thing : Type :=
| ThingNil
| ThingValue (v : V)
| ThingFunc (ins outs : list T) (body : option init_fn).

(** The frames of this package between registerTraitAny and the caller of [Register]. *)
Definition register_frames : list (list Z) :=
  [str "runtime/genesis.registerValue"; str "runtime/genesis.registerDispatch"; str "runtime/genesis.Register"].

Definition registerValue (w : world) (addr : nat) (frames : list (list Z)) (v : option V) : outcome fatal (world * option V) :=
  bind (registerTraitAny w addr frames v) (fun '(w, e) => match e with None => Ret (w, v) | Some _ => Panic end).

(** [rv.Call]: a nil function panics. *)
Definition call_init (body : option init_fn) (w : world) : outcome fatal (world * option V) :=
  match body with
  | None => Panic
  | Some f => match f w with (w, Some v) => Ret (w, v) | (_, None) => Panic end
  end.

Definition registerDispatch (w : world) (addr : nat) (frames : list (list Z)) (t : thing) : outcome fatal (world * option V) :=
  match t with
  | ThingNil => Panic
  | ThingValue v => registerValue w addr frames (Some v)
  | ThingFunc [] [_] body => bind (call_init body w) (fun '(w, out) => registerValue w addr frames out)
  | ThingFunc [i] [_] body =>
      if bool_decide (i = waitGroupType) then
        bind (phaseWaitGroup w addr) (fun '(g, w) =>
          match g with
          | None => Panic
          | Some _ => bind (call_init body w) (fun '(w, out) => registerValue w addr frames out)
          end)
      else Panic
  | ThingFunc _ _ _ => Panic
  end.

(** [frames] are the caller's. *)
Definition Register (w : world) (addr : nat) (frames : list (list Z)) (t : thing) : outcome fatal (world * option V) :=
  if negb (mustBeInInitPhase frames) then Panic
  else registerDispatch w addr (register_frames ++ frames) t.

(** ** Deferral *)

Definition Defer (w : world) (f : option F) : outcome fatal world :=
  match f with
  | None => Panic
  | Some f => Ret (MkWorld (registry w) (shutdown w ++ [f]) (mainBlockAddr w) (mainInception w))
  end.

Definition DeferSelf (w : world) (addr : nat) (f : option F) : outcome fatal world :=
  match f with
  | None => Panic
  | Some x =>
      if (addr =? 0)%nat then Fail (fatalMissingIdentity (str "DeferSelf"))
      else if (addr =? mainBlockAddr w)%nat then Defer w f
      else with_state (str "DeferSelf") w addr (fun st w => Ret (put w addr (set_deferred st (deferred st ++ [x]))))
  end.

(** [run f w]: one cleanup, its panic caught; [settle fns w]: the background work of a
    batch that finishes before [wg.Wait()] returns. *)
Section Drain.
Context (run : F -> world -> world) (settle : list F -> world -> world).

(** [for i := len(fns) - 1; i >= 0; i-- { ... f(&wg) ... }; wg.Wait()] *)
Definition runDeferred (fns : list F) (w : world) : world :=
  settle fns (fold_left (fun w f => run f w) (rev fns) w).

(** The loop: the cleanups called, in order, and the final state; [None] when the fuel is
    too small. *)
Fixpoint drainShutdown (fuel : nat) (w : world) : option (list F * world) :=
  match fuel with
  | O => None
  | S fuel =>
      let fns := shutdown w in
      let w := MkWorld (registry w) [] (mainBlockAddr w) (mainInception w) in
      if (length fns =? 0)%nat then Some ([], w)
      else match drainShutdown fuel (runDeferred fns w) with
           | None => None
           | Some (called, w) => Some (rev fns ++ called, w)
           end
  end.

Fixpoint drainSelfDeferred (fuel : nat) (addr : nat) (w : world) : option (list F * world) :=
  match fuel with
  | O => None
  | S fuel =>
      let st := state_at w addr in
      let fns := deferred st in
      let w := put w addr (set_deferred st []) in
      if (length fns =? 0)%nat then Some ([], w)
      else match drainSelfDeferred fuel addr (runDeferred fns w) with
           | None => None
           | Some (called, w) => Some (rev fns ++ called, w)
           end
  end.
End Drain.

(** ** SparkAs *)

(** How a child's function ends. *)
Inductive child_end : Type := Panicked | Exited | Blocked.

(** Child code: a state with an early end; a panic keeps the state it happened in. *)
Definition cmd (A : Type) : Type := world -> (A + child_end) * world.
Definition cret {A} (a : A) : cmd A := fun w => (inl a, w).
Definition cthrow {A} (e : child_end) : cmd A := fun w => (inr e, w).
Definition cbind {A B} (m : cmd A) (k : A -> cmd B) : cmd B :=
  fun w => match m w with (inl a, w) => k a w | (inr e, w) => (inr e, w) end.
Definition lift {A} (m : world -> outcome fatal (world * A)) : cmd A :=
  fun w => match m w with Ret (w, a) => (inl a, w) | Fail _ => (inr Exited, w) | Panic => (inr Panicked, w) end.
Definition no_error (e : option gerror) : cmd unit := match e with None => cret tt | Some _ => cthrow Panicked end.
Definition call (f : init_fn) : cmd (option V) :=
  fun w => match f w with (w, Some v) => (inl v, w) | (w, None) => (inr Panicked, w) end.

Definition inherit_one (st : selfState) (tr : Trait) : selfState :=
  MkState (traits st ++ [tr]) (<[reflect_TypeOf (Complex tr) := length (traits st)]> (typeIdx st))
    (wg st) (frozen st) (deferred st) (inception st).
Definition inherit (st : selfState) (ts : list Trait) : selfState := fold_left inherit_one ts st.

Definition spark_frames : list (list Z) := [str "runtime/genesis.SparkAs[...].func1"; str "runtime.janosSpark.func1"; str "runtime.goexit"].

Definition modify_state (addr : nat) (f : selfState -> selfState) : cmd unit :=
  fun w => (inl tt, put w addr (f (state_at w addr))).

Definition register_child (addr : nat) (v : option V) : cmd unit :=
  cbind (lift (fun w => registerTraitAny w addr spark_frames v)) no_error.

Definition close_child (during : world -> world) (addr : nat) : cmd unit :=
  fun w =>
    match closePhase during w addr with
    | Ret (Some (w, e)) => no_error e w
    | Ret None => (inr Blocked, during w)
    | Fail _ => (inr Exited, w)
    | Panic => (inr Panicked, w)
    end.

(** [for i, init := range additionalInits]: a nil entry panics. *)
Fixpoint additional (addr : nat) (inits : list (option init_fn)) : cmd unit :=
  match inits with
  | [] => cret tt
  | None :: _ => cthrow Panicked
  | Some init :: inits =>
      cbind (call init) (fun v => cbind (register_child addr v) (fun _ => additional addr inits))
  end.

(** What happens between installing the deferred drain and [work]. *)
Definition child_genesis (during : world -> world) (addr : nat) (parent : Self) (primaryInit : init_fn)
    (inits : list (option init_fn)) : cmd (option V) :=
  cbind (modify_state addr (fun st => inherit st (Traits parent))) (fun _ =>
  cbind (call primaryInit) (fun primary =>
  cbind (register_child addr primary) (fun _ =>
  cbind (additional addr inits) (fun _ =>
  cbind (close_child during addr) (fun _ => cret primary))))).

(** [work]: what it does, [false] for a panic. *)
Definition work_fn : Type := option V -> world -> world * bool.
Definition run_work (work : work_fn) (primary : option V) : cmd unit :=
  fun w => match work primary w with (w, true) => (inl tt, w) | (w, false) => (inr Panicked, w) end.

(** The closure [runtimeJanosSpark] runs on the child, whose block is [addr].  The deferred
    drain runs when the body returns and when it panics. *)
Definition spark_child (run : F -> world -> world) (settle : list F -> world -> world) (fuel : nat)
    (during : world -> world) (now : Z) (parent : Self) (primaryInit : init_fn) (inits : list (option init_fn))
    (work : work_fn) (addr : nat) (w : world) : option ((unit + child_end) * world) :=
  match stateForCurrent w addr with
  | None => Some (inr Exited, w)
  | Some (st, w) =>
      let w := put w addr (set_inception st now) in
      let '(r, w) := cbind (child_genesis during addr parent primaryInit inits) (run_work work) w in
      match r with
      | inl _ | inr Panicked =>
          match drainSelfDeferred run settle fuel addr w with
          | None => None
          | Some (_, w) => Some (r, w)
          end
      | inr _ => Some (r, w)
      end
  end.

(** The parent's side: the error, or the self the child is started with. *)
Definition SparkAs (w : world) (addr : nat) (work : option work_fn) (primaryInit : option init_fn)
  : outcome fatal (world * (work_fn * init_fn * Self + gerror)) :=
  match work, primaryInit with
  | None, _ => Ret (w, inr errWorkNil)
  | _, None => Ret (w, inr errPrimaryNil)
  | Some work, Some primaryInit =>
      bind (CurrentSelf w addr) (fun '(w, r) =>
        match r with
        | inr e => Ret (w, inr (errSparkParent e))
        | inl self => Ret (w, inl (work, primaryInit, self))
        end)
  end.

(** ** Well-formed selves *)

(** Every trait has a value; the index is exact, so no two traits share a dynamic type; the
    recorded origin is what [callerOrigin] gives for the frames of this package. *)
Definition genesis_origin : list Z * list Z := (str "runtime", str "genesis").

Definition trait_ok (tr : Trait) : Prop :=
  Complex tr <> None /\ (Module tr, Package tr) = genesis_origin.

Record self_ok (ts : list Trait) (idx : gmap (option T) nat) : Prop := {
  so_traits : Forall trait_ok ts;
  so_index : forall i tr, ts !! i = Some tr -> idx !! reflect_TypeOf (Complex tr) = Some i;
  so_range : forall k i, idx !! k = Some i -> exists tr, ts !! i = Some tr /\ reflect_TypeOf (Complex tr) = k;
}.

Definition state_ok (st : selfState) : Prop := self_ok (traits st) (typeIdx st).
Definition world_ok (w : world) : Prop := forall a st, registry w !! a = Some st -> state_ok st.

(** ** What the package's operations amount to

    Each is a sequence of primitive changes of one entry. *)
Definition set_wg (st : selfState) (n : nat) : selfState :=
  MkState (traits st) (typeIdx st) n (frozen st) (deferred st) (inception st).
Definition set_shutdown (w : world) (fs : list F) : world :=
  MkWorld (registry w) fs (mainBlockAddr w) (mainInception w).

Inductive prim : world -> world -> Prop :=
| prim_touch w a : a <> 0%nat -> prim w (put w a (state_at w a))
| prim_add w a frames x w' e :
    callerOrigin frames = genesis_origin -> registerTraitAny w a frames (Some x) = Ret (w', e) -> prim w w'
| prim_birth w a now : prim w (put w a (set_inception (state_at w a) now))
| prim_inherit w a ts idx :
    traits (state_at w a) = [] -> typeIdx (state_at w a) = ∅ -> frozen (state_at w a) = false ->
    self_ok ts idx -> prim w (put w a (inherit (state_at w a) ts))
| prim_freeze w a : prim w (put w a (freeze (state_at w a)))
| prim_wg w a n : prim w (put w a (set_wg (state_at w a) n))
| prim_defer w a fs : prim w (put w a (set_deferred (state_at w a) fs))
| prim_shutdown w fs : prim w (set_shutdown w fs)
| prim_final w a : prim w (onBlockFinalized w a).

(** User code reaches this package through its operations only. *)
Definition polite (f : world -> world) : Prop := forall w, rtc prim w (f w).
Definition polite_init (f : init_fn) : Prop := polite (fun w => fst (f w)).
Definition polite_work (work : work_fn) : Prop := forall v, polite (fun w => fst (work v w)).

Definition boot_world (main : nat) (now : Z) : world := MkWorld ∅ [] main now.

(** ** Lemmas *)

Lemma lookup_put w a b st : registry (put w a st) !! b = if decide (a = b) then Some st else registry w !! b.
Proof. apply lookup_insert. Qed.

Lemma state_at_put w a st : state_at (put w a st) a = st.
Proof. unfold state_at; rewrite lookup_put, decide_True by reflexivity; reflexivity. Qed.

Lemma put_put w a st st' : put (put w a st) a st' = put w a st'.
Proof. unfold put, set_registry; cbn; f_equal; apply insert_insert_eq. Qed.

Lemma stateForCurrent_Some w a st w' :
  stateForCurrent w a = Some (st, w') -> a <> 0%nat /\ st = state_at w a /\ w' = put w a st.
Proof.
  unfold stateForCurrent, state_at; destruct (Nat.eqb_spec a 0); [discriminate|].
  destruct (registry w !! a) as [s|] eqn:E; intros [= <- <-]; (split; [assumption|split; [reflexivity|]]); [|reflexivity].
  destruct w as [r sh mb mi]; unfold put, set_registry; cbn in *; f_equal; symmetry; apply insert_id, E.
Qed.

Lemma with_state_Ret {A} where_ w a (k : selfState -> world -> outcome fatal A) r :
  with_state where_ w a k = Ret r -> a <> 0%nat /\ k (state_at w a) (put w a (state_at w a)) = Ret r.
Proof.
  unfold with_state; destruct (stateForCurrent w a) as [[st w']|] eqn:E; [|discriminate].
  apply stateForCurrent_Some in E as (H & -> & ->); auto.
Qed.

Lemma with_state_live {A} where_ w a (k : selfState -> world -> outcome fatal A) :
  a <> 0%nat -> with_state where_ w a k = k (state_at w a) (put w a (state_at w a)).
Proof.
  intros H; unfold with_state, stateForCurrent, state_at; destruct (Nat.eqb_spec a 0); [contradiction|].
  destruct (registry w !! a) as [s|] eqn:E; [|reflexivity].
  cbn; f_equal; destruct w; unfold put, set_registry; cbn in *; f_equal; symmetry; apply insert_id, E.
Qed.

Lemma self_ok_nil : self_ok [] ∅.
Proof.
  split; [constructor|intros i tr H; rewrite lookup_nil in H; discriminate|].
  intros k i H; rewrite lookup_empty in H; discriminate.
Qed.

Lemma state_ok_at w a : world_ok w -> state_ok (state_at w a).
Proof.
  intros W; unfold state_at; destruct (registry w !! a) as [st|] eqn:E; [exact (W a st E)|apply self_ok_nil].
Qed.

(** Adding a trait whose type is new. *)
Lemma self_ok_snoc ts idx tr :
  self_ok ts idx -> trait_ok tr -> idx !! reflect_TypeOf (Complex tr) = None ->
  self_ok (ts ++ [tr]) (<[reflect_TypeOf (Complex tr) := length ts]> idx).
Proof.
  intros [H1 H2 H3] Ht Hn; split.
  - apply Forall_app; auto.
  - intros i tr' Hi; apply lookup_app_Some in Hi as [Hi|[Hl Hi]].
    + rewrite lookup_insert_ne; [auto|]; intros E; rewrite E in Hn; rewrite (H2 i tr' Hi) in Hn; discriminate.
    + destruct (i - length ts)%nat eqn:Ei; [|discriminate]; injection Hi as <-.
      rewrite lookup_insert_eq; f_equal; lia.
  - intros k i; rewrite lookup_insert; case_decide as Hk.
    + intros [= <-]; exists tr; split; [|exact Hk]; apply list_lookup_middle; reflexivity.
    + intros Hi; destruct (H3 k i Hi) as (tr' & ? & ?); exists tr'; split; [apply lookup_app_l_Some; assumption|assumption].
Qed.

(** [registerTraitAny]'s effect on the state, every branch. *)
Lemma add_trait_spec st x m p :
  state_ok st ->
  add_trait st (Some (TypeOf x)) (MkTrait m p (Some x)) =
  if frozen st then Ret (st, Some errPhaseClosed)
  else match typeIdx st !! Some (TypeOf x) with
       | Some i => match traits st !! i with
                   | Some e => Ret (st, Some (errDuplicateType (Module e) (Package e)))
                   | None => Panic
                   end
       | None => Ret (MkState (traits st ++ [MkTrait m p (Some x)]) (<[Some (TypeOf x) := length (traits st)]> (typeIdx st))
                   (wg st) false (deferred st) (inception st), None)
       end.
Proof.
  intros H; unfold add_trait; destruct (frozen st) eqn:Ef; [reflexivity|].
  destruct (typeIdx st !! Some (TypeOf x)) as [i|] eqn:E.
  - unfold index_trait; destruct (traits st !! i); reflexivity.
  - rewrite length_app; cbn [length]; rewrite Nat.add_sub; reflexivity.
Qed.

Lemma add_trait_ok st x m p st' e :
  state_ok st -> (m, p) = genesis_origin -> add_trait st (Some (TypeOf x)) (MkTrait m p (Some x)) = Ret (st', e) ->
  state_ok st'.
Proof.
  intros H Ho; rewrite add_trait_spec by exact H; destruct (frozen st); [intros [= <- <-]; exact H|].
  destruct (typeIdx st !! Some (TypeOf x)) as [i|] eqn:E.
  - destruct (traits st !! i); [intros [= <- <-]; exact H|discriminate].
  - intros [= <- <-]; apply (self_ok_snoc (traits st) (typeIdx st) (MkTrait m p (Some x)) H); [|exact E].
    split; [discriminate|exact Ho].
Qed.

Lemma inherit_spec ts st : 
  traits (inherit st ts) = traits st ++ ts /\ frozen (inherit st ts) = frozen st /\
  wg (inherit st ts) = wg st /\ deferred (inherit st ts) = deferred st /\ inception (inherit st ts) = inception st.
Proof.
  revert st; induction ts as [|tr ts IH]; intros st; cbn [inherit fold_left].
  - rewrite app_nil_r; auto.
  - destruct (IH (inherit_one st tr)) as (H1 & H2); unfold inherit in *; rewrite H1; cbn [inherit_one traits].
    rewrite <- app_assoc; auto.
Qed.

(** A well-formed self inherited by a fresh state. *)
Lemma inherit_ok ts idx st :
  self_ok ts idx -> traits st = [] -> typeIdx st = ∅ -> state_ok (inherit st ts).
Proof.
  intros H Ht Hi.
  enough (G : forall ts2 ts1 idx1 st1, ts1 ++ ts2 = ts -> traits st1 = ts1 -> typeIdx st1 = idx1 ->
    self_ok ts1 idx1 -> state_ok (inherit st1 ts2))
    by exact (G ts [] ∅ st eq_refl Ht Hi self_ok_nil).
  induction ts2 as [|tr ts2 IH]; intros ts1 idx1 st1 E E1 E2 Ok; [unfold state_ok; cbn; congruence|].
  assert (Hl : ts !! length ts1 = Some tr) by (rewrite <- E; apply list_lookup_middle; reflexivity).
  cbn [inherit fold_left]; eapply (IH (ts1 ++ [tr])); [rewrite <- app_assoc; exact E|cbn; congruence|reflexivity|].
  cbn [inherit_one typeIdx]; rewrite E1, E2; apply self_ok_snoc; [exact Ok|apply (Forall_lookup_1 _ _ _ _ (so_traits _ _ H) Hl)|].
  destruct (idx1 !! reflect_TypeOf (Complex tr)) as [i|] eqn:Ei; [exfalso|reflexivity].
  destruct (so_range _ _ Ok _ _ Ei) as (tr' & Hi' & Ht').
  assert (Hi2 : ts !! i = Some tr') by (rewrite <- E; apply lookup_app_l_Some, Hi').
  pose proof (so_index _ _ H _ _ Hi2) as A; pose proof (so_index _ _ H _ _ Hl) as B; rewrite Ht' in A.
  apply lookup_lt_Some in Hi'; rewrite A in B; injection B as ->; lia.
Qed.

Lemma world_ok_put w a st : world_ok w -> state_ok st -> world_ok (put w a st).
Proof. intros W H b st'; rewrite lookup_put; case_decide; [intros [= <-]; exact H|apply W]. Qed.

Lemma registerTraitAny_state w a frames x w' e :
  registerTraitAny w a frames (Some x) = Ret (w', e) ->
  exists st, a <> 0%nat /\ w' = put w a st /\
    add_trait (state_at w a) (Some (TypeOf x)) (MkTrait (fst (callerOrigin frames)) (snd (callerOrigin frames)) (Some x)) = Ret (st, e).
Proof.
  unfold registerTraitAny; intros H; apply with_state_Ret in H as [Ha H].
  destruct (callerOrigin frames) as [m p]; cbn [fst snd].
  destruct (add_trait _ _ _) as [[st e']| |]; cbn [bind] in H; try discriminate.
  injection H as <- <-; exists st; split; [exact Ha|split; [apply put_put|reflexivity]].
Qed.

Lemma prim_ok w w' : prim w w' -> world_ok w -> world_ok w'.
Proof.
  intros H W; destruct H as [w a Ha|w a frames x w' e Ho H|w a now|w a ts idx H1 H2 H3 H4|w a|w a n|w a fs|w fs|w a];
    try (apply world_ok_put; [exact W|exact (state_ok_at w a W)]).
  - apply registerTraitAny_state in H as (st & _ & -> & E); rewrite Ho in E.
    apply world_ok_put; [exact W|exact (add_trait_ok _ _ _ _ _ _ (state_ok_at w a W) eq_refl E)].
  - apply world_ok_put; [exact W|exact (inherit_ok ts idx _ H4 H1 H2)].
  - exact W.
  - intros b st; cbn; rewrite lookup_delete; case_decide; [discriminate|apply W].
Qed.

Lemma prims_ok w w' : rtc prim w w' -> world_ok w -> world_ok w'.
Proof. induction 1; eauto using prim_ok. Qed.

Lemma boot_world_ok main now : world_ok (boot_world main now).
Proof. intros a st H; cbn in H; rewrite lookup_empty in H; discriminate. Qed.

(** *** The operations are sequences of primitive changes *)

Lemma self_prims w a w' r : CurrentSelf w a = Ret (w', r) -> rtc prim w w'.
Proof.
  unfold CurrentSelf; intros H; apply with_state_Ret in H as [Ha H]; injection H as <- _.
  apply rtc_once, prim_touch, Ha.
Qed.

Lemma TraitOf_world typ w a filters w' r :
  TraitOf typ w a filters = Ret (w', r) -> a <> 0%nat /\ w' = put w a (state_at w a).
Proof.
  unfold TraitOf; intros H; apply with_state_Ret in H as [Ha H]; split; [exact Ha|].
  assert (G : forall (o : outcome fatal Trait),
    bind o (fun tr => bind (assert_type typ (Complex tr)) (fun v => Ret (put w a (state_at w a), inl v))) = Ret (w', r) ->
    w' = put w a (state_at w a)).
  { intros o Ho; apply bind_Ret in Ho as (tr & _ & Ho); apply bind_Ret in Ho as (v & _ & Ho); congruence. }
  destruct (negb (frozen _)); [congruence|]; destruct (length filters =? 0)%nat.
  - destruct (typeIdx _ !! _); [exact (G _ H)|congruence].
  - destruct (scan_traits _ _ _ _ _) as [[i|]|]; [exact (G _ H)|congruence|congruence].
Qed.

Lemma TraitOf_prims typ w a filters w' r : TraitOf typ w a filters = Ret (w', r) -> rtc prim w w'.
Proof. intros H; apply TraitOf_world in H as [Ha ->]; apply rtc_once, prim_touch, Ha. Qed.

Lemma phaseWaitGroup_prims w a g w' : phaseWaitGroup w a = Ret (g, w') -> rtc prim w w'.
Proof.
  unfold phaseWaitGroup; intros H; apply with_state_Ret in H as [Ha H]; injection H as _ <-.
  apply rtc_once, prim_touch, Ha.
Qed.

Lemma register_prims w a frames v w' e :
  callerOrigin frames = genesis_origin -> registerTraitAny w a frames v = Ret (w', e) -> rtc prim w w'.
Proof.
  intros Ho H; destruct v as [x|]; [exact (rtc_once _ _ (prim_add _ _ _ _ _ _ Ho H))|].
  injection H as <- _; reflexivity.
Qed.

Lemma callerOrigin_here name rest m p :
  name <> [] -> parseFuncOrigin name = (m, p) -> p <> [] -> callerOrigin (name :: rest) = (m, p).
Proof.
  intros Hn E Hp; cbn [callerOrigin]; rewrite E; destruct name; [contradiction|destruct p; [contradiction|reflexivity]].
Qed.

(** The frame of registerValue is inside this package. *)
Lemma register_frames_origin frames : callerOrigin (register_frames ++ frames) = genesis_origin.
Proof. apply callerOrigin_here; [discriminate|vm_compute; reflexivity|discriminate]. Qed.

Lemma spark_frames_origin : callerOrigin spark_frames = genesis_origin.
Proof. apply callerOrigin_here; [discriminate|vm_compute; reflexivity|discriminate]. Qed.

Lemma registerValue_prims w a frames v w' r :
  callerOrigin frames = genesis_origin -> registerValue w a frames v = Ret (w', r) -> rtc prim w w'.
Proof.
  unfold registerValue; intros Ho H; apply bind_Ret in H as ([w1 e] & E & H).
  destruct e; [discriminate|injection H as <- _]; exact (register_prims _ _ _ _ _ _ Ho E).
Qed.

Definition polite_thing (t : thing) : Prop :=
  match t with ThingFunc _ _ (Some f) => polite_init f | _ => True end.

Lemma call_init_prims body w w' v :
  match body with Some f => polite_init f | None => True end ->
  call_init body w = Ret (w', v) -> rtc prim w w'.
Proof.
  destruct body as [f|]; [|discriminate]; intros P H; specialize (P w); cbv beta in P; cbn [call_init] in H.
  destruct (f w) as [w1 [o|]]; [injection H as <- _; exact P|discriminate].
Qed.

Lemma Register_prims w a frames t w' v :
  polite_thing t -> Register w a frames t = Ret (w', v) -> rtc prim w w'.
Proof.
  unfold Register; destruct (negb _); [discriminate|]; pose proof (register_frames_origin frames) as Ho; intros P H.
  assert (B : forall ins outs body w0 r, t = ThingFunc ins outs body ->
    bind (call_init body w0) (fun '(w, out) => registerValue w a (register_frames ++ frames) out) = Ret r ->
    rtc prim w0 (fst r)).
  { intros ins outs body w0 [w1 r] -> Hb; apply bind_Ret in Hb as ([w2 out] & E & Hb).
    etransitivity; [|exact (registerValue_prims _ _ _ _ _ _ Ho Hb)].
    apply (call_init_prims body w0 w2 out); [destruct body; exact P|exact E]. }
  destruct t as [|x|ins outs body]; cbn [registerDispatch] in H; [discriminate|exact (registerValue_prims _ _ _ _ _ _ Ho H)|].
  destruct ins as [|i [|? ?]], outs as [|o [|? ?]]; try discriminate; [exact (B _ _ _ _ _ eq_refl H)|].
  destruct (bool_decide _); [|discriminate]; apply bind_Ret in H as ([g w1] & E & H).
  destruct g; [|discriminate]; etransitivity; [exact (phaseWaitGroup_prims _ _ _ _ E)|exact (B _ _ _ _ _ eq_refl H)].
Qed.

Lemma closePhase_prims during w a w' e :
  polite during -> closePhase during w a = Ret (Some (w', e)) -> rtc prim w w'.
Proof.
  unfold closePhase; intros P H; apply with_state_Ret in H as [Ha H].
  assert (T0 : rtc prim w (put w a (state_at w a))) by apply rtc_once, prim_touch, Ha.
  destruct (frozen _); [injection H as <- _; exact T0|].
  etransitivity; [exact T0|]; etransitivity; [apply P|]; cbv zeta in H.
  destruct (negb _); [discriminate|]; destruct (frozen _); injection H as <- _; [reflexivity|].
  apply rtc_once, prim_freeze.
Qed.

Lemma DeferSelf_prims w a f w' : DeferSelf w a f = Ret w' -> rtc prim w w'.
Proof.
  unfold DeferSelf, Defer; destruct f as [x|]; [|discriminate]; destruct (Nat.eqb_spec a 0); [discriminate|].
  destruct (a =? mainBlockAddr w)%nat; [intros [= <-]; apply rtc_once, (prim_shutdown w)|].
  intros H; apply with_state_Ret in H as [Ha H]; injection H as <-.
  eapply rtc_l; [apply prim_touch, Ha|].
  pose proof (prim_defer (put w a (state_at w a)) a (deferred (state_at w a) ++ [x])) as P.
  rewrite state_at_put in P; apply rtc_once, P.
Qed.

(** *** A child *)

Definition cmd_prims {A} (m : cmd A) : Prop := forall w, rtc prim w (snd (m w)).

Lemma cbind_prims {A B} (m : cmd A) (k : A -> cmd B) :
  cmd_prims m -> (forall a, cmd_prims (k a)) -> cmd_prims (cbind m k).
Proof.
  intros Hm Hk w; unfold cbind; specialize (Hm w); destruct (m w) as [[a|e] w1]; cbn [snd] in *; [|exact Hm].
  etransitivity; [exact Hm|apply Hk].
Qed.

Lemma cret_prims {A} (a : A) : cmd_prims (cret a).
Proof. intros w; reflexivity. Qed.

Lemma no_error_prims e : cmd_prims (no_error e).
Proof. intros w; destruct e; reflexivity. Qed.

Lemma call_prims f : polite_init f -> cmd_prims (call f).
Proof. intros P w; specialize (P w); cbv beta in P; unfold call; destruct (f w) as [w1 [v|]]; exact P. Qed.

Lemma register_child_prims a v : cmd_prims (register_child a v).
Proof.
  apply cbind_prims; [|intros; apply no_error_prims]; intros w; unfold lift.
  destruct (registerTraitAny w a spark_frames v) as [[w' e]| |] eqn:E; cbn [snd]; try reflexivity.
  exact (register_prims _ _ _ _ _ _ spark_frames_origin E).
Qed.

Lemma additional_prims a inits :
  Forall (fun i => match i with Some f => polite_init f | None => True end) inits -> cmd_prims (additional a inits).
Proof.
  induction 1 as [|[f|] inits P _ IH]; cbn [additional]; try (intros w; reflexivity).
  apply cbind_prims; [apply call_prims, P|intros v; apply cbind_prims; [apply register_child_prims|intros; exact IH]].
Qed.

Lemma close_child_prims during a : polite during -> cmd_prims (close_child during a).
Proof.
  intros P w; unfold close_child; destruct (closePhase during w a) as [[[w' e]|]| |] eqn:E; [|apply P|reflexivity..].
  etransitivity; [exact (closePhase_prims _ _ _ _ _ P E)|apply no_error_prims].
Qed.

Lemma run_work_prims work v : polite_work work -> cmd_prims (run_work work v).
Proof. intros P w; specialize (P v w); cbv beta in P; unfold run_work; destruct (work v w) as [w1 []]; exact P. Qed.

Lemma fold_prims run fns w :
  (forall f : F, polite (run f)) -> rtc prim w (fold_left (fun w f => run f w) fns w).
Proof.
  intros P; revert w; induction fns as [|f fns IH]; intros w; cbn [fold_left]; [reflexivity|].
  etransitivity; [apply P|apply IH].
Qed.

Lemma drain_self_prims run settle fuel a w called w' :
  (forall f : F, polite (run f)) -> (forall fns, polite (settle fns)) ->
  drainSelfDeferred run settle fuel a w = Some (called, w') -> rtc prim w w'.
Proof.
  intros P Q; revert w called; induction fuel as [|fuel IH]; intros w called; cbn [drainSelfDeferred]; [discriminate|].
  set (w1 := put w a _); assert (D : rtc prim w w1) by apply rtc_once, prim_defer.
  destruct (_ =? 0)%nat; [intros [= _ <-]; exact D|].
  destruct (drainSelfDeferred _ _ _ _ _) as [[c w2]|] eqn:E; [|discriminate]; intros [= _ <-].
  etransitivity; [exact D|]; etransitivity; [|exact (IH _ _ E)].
  unfold runDeferred; etransitivity; [apply fold_prims, P|apply Q].
Qed.

Lemma child_genesis_prims during a parent idx primaryInit inits w :
  polite during -> polite_init primaryInit ->
  Forall (fun i => match i with Some f => polite_init f | None => True end) inits ->
  self_ok (Traits parent) idx -> traits (state_at w a) = [] -> typeIdx (state_at w a) = ∅ ->
  frozen (state_at w a) = false ->
  rtc prim w (snd (child_genesis during a parent primaryInit inits w)).
Proof.
  intros P1 P2 P3 H H1 H2 H3; unfold child_genesis, cbind at 1; cbn [modify_state].
  eapply rtc_l; [apply (prim_inherit w a (Traits parent) idx); assumption|].
  apply cbind_prims; [apply call_prims, P2|intros v].
  apply cbind_prims; [apply register_child_prims|intros _].
  apply cbind_prims; [apply additional_prims, P3|intros _].
  apply cbind_prims; [apply close_child_prims, P1|intros _; apply cret_prims].
Qed.

Lemma cbind_snd {A B} (m : cmd A) (k : A -> cmd B) w :
  rtc prim w (snd (m w)) -> (forall a, cmd_prims (k a)) -> rtc prim w (snd (cbind m k w)).
Proof.
  intros Hm Hk; unfold cbind; destruct (m w) as [[a|e] w1]; cbn [snd] in *; [|exact Hm].
  etransitivity; [exact Hm|apply Hk].
Qed.

Lemma spark_child_prims run settle fuel during now parent idx primaryInit inits work a w r w' :
  (forall f : F, polite (run f)) -> (forall fns, polite (settle fns)) -> polite during -> polite_work work ->
  polite_init primaryInit -> Forall (fun i => match i with Some f => polite_init f | None => True end) inits ->
  self_ok (Traits parent) idx -> registry w !! a = None ->
  spark_child run settle fuel during now parent primaryInit inits work a w = Some (r, w') -> rtc prim w w'.
Proof.
  intros Q1 Q2 P1 P4 P2 P3 H Hn; unfold spark_child.
  destruct (stateForCurrent w a) as [[st w1]|] eqn:E; [|intros [= _ <-]; reflexivity].
  apply stateForCurrent_Some in E as (Ha & Est & ->); rewrite put_put.
  set (w1 := put w a (set_inception st now)).
  assert (T1 : rtc prim w w1) by (unfold w1; rewrite Est; apply rtc_once, prim_birth).
  assert (T2 : rtc prim w1 (snd (cbind (child_genesis during a parent primaryInit inits) (run_work work) w1))).
  { apply cbind_snd; [|intros v; apply run_work_prims, P4].
    apply (child_genesis_prims during a parent idx); auto; unfold w1; rewrite state_at_put, Est;
      unfold state_at; rewrite Hn; reflexivity. }
  destruct (cbind _ _ w1) as [x w2]; cbn [snd] in T2; intros D; etransitivity; [exact T1|etransitivity; [exact T2|]].
  assert (G : match drainSelfDeferred run settle fuel a w2 with None => None | Some (_, w) => Some (x, w) end = Some (r, w') ->
    rtc prim w2 w').
  { destruct (drainSelfDeferred _ _ _ _ _) as [[c w3]|] eqn:Ed; [|discriminate]; intros [= _ <-].
    exact (drain_self_prims _ _ _ _ _ _ _ Q1 Q2 Ed). }
  destruct x as [u|[]]; try exact (G D); injection D as _ <-; reflexivity.
Qed.

(** *** Frozen selves *)

Definition same_self (st st' : selfState) : Prop :=
  traits st' = traits st /\ typeIdx st' = typeIdx st /\ frozen st' = frozen st.

(** A step that does not evict the entry of [a]. *)
Definition prim_keeping (a : nat) (w w' : world) : Prop := prim w w' /\ registry w' !! a <> None.

Lemma frozen_put w a st b st0 :
  registry w !! a = Some st0 -> frozen st0 = true ->
  (b = a -> traits st = traits (state_at w b) /\ typeIdx st = typeIdx (state_at w b) /\ frozen st = true) ->
  exists st', registry (put w b st) !! a = Some st' /\ same_self st0 st'.
Proof.
  intros H0 Hf K; rewrite lookup_put; case_decide as E; [|exists st0; split; [exact H0|repeat split]].
  subst b; exists st; split; [reflexivity|]; destruct (K eq_refl) as (K1 & K2 & K3).
  unfold state_at in *; rewrite H0 in K1, K2; cbn in K1, K2; split; [exact K1|split; [exact K2|congruence]].
Qed.

Lemma prim_frozen w w' a st :
  prim_keeping a w w' -> registry w !! a = Some st -> frozen st = true ->
  exists st', registry w' !! a = Some st' /\ same_self st st'.
Proof.
  intros [P Hk] H0 Hf.
  assert (Ha : state_at w a = st) by (unfold state_at; rewrite H0; reflexivity).
  destruct P as [w b Hb|w b frames x w' e Ho H|w b now|w b ts idx H1 H2 H3 H4|w b|w b n|w b fs|w fs|w b];
    try (apply (frozen_put _ _ _ _ st H0 Hf); intros ->; rewrite ?Ha; auto; fail).
  - apply registerTraitAny_state in H as (st1 & _ & -> & E).
    apply (frozen_put _ _ _ _ st H0 Hf); intros ->; rewrite Ha in *.
    unfold add_trait in E; rewrite Hf in E; injection E as <- _; auto.
  - apply (frozen_put _ _ _ _ st H0 Hf); intros ->; rewrite Ha, Hf in H3; discriminate.
  - exists st; split; [exact H0|repeat split].
  - cbn in Hk |- *; rewrite lookup_delete in *; case_decide; [contradiction|exists st; split; [exact H0|repeat split]].
Qed.

Lemma prims_frozen w w' a st :
  rtc (prim_keeping a) w w' -> registry w !! a = Some st -> frozen st = true ->
  exists st', registry w' !! a = Some st' /\ same_self st st'.
Proof.
  intros R; revert st; induction R as [w|w w1 w' P _ IH]; intros st H0 Hf; [exists st; split; [exact H0|repeat split]|].
  destruct (prim_frozen _ _ _ _ P H0 Hf) as (st1 & H1 & A1 & A2 & A3).
  destruct (IH st1 H1) as (st2 & H2 & B1 & B2 & B3); [congruence|].
  exists st2; split; [exact H2|unfold same_self; repeat split; congruence].
Qed.

(** *** Queries *)

(** The first trait of the wanted type that passes the filters. *)
Definition lookup_trait (typ : T) (filters : list (list Z)) (ts : list Trait) : option V :=
  match find (trait_matches typ filters) ts with Some tr => Complex tr | None => None end.

Lemma find_lookup {A} (p : A -> bool) l :
  match find p l with
  | None => forall i x, l !! i = Some x -> p x = false
  | Some x => p x = true /\ exists i, l !! i = Some x
  end.
Proof.
  induction l as [|y l IH]; cbn [find]; [intros i x H; rewrite lookup_nil in H; discriminate|].
  destruct (p y) eqn:Ey; [split; [exact Ey|exists 0%nat; reflexivity]|].
  destruct (find p l); [destruct IH as [H [i Hi]]; split; [exact H|exists (S i); exact Hi]|].
  intros [|i] x; cbn; [congruence|apply IH].
Qed.

Lemma scan_none typ filters ts i m :
  (forall j tr, ts !! j = Some tr -> trait_matches typ filters tr = false) ->
  scan_traits typ filters ts i m = Some m.
Proof.
  revert i; induction ts as [|tr ts IH]; intros i H; cbn [scan_traits]; [reflexivity|].
  rewrite (H 0%nat tr eq_refl); cbn [negb]; apply IH; intros j tr' Hj; exact (H (S j) tr' Hj).
Qed.

Lemma scan_unique typ filters ts i j tr :
  ts !! j = Some tr -> trait_matches typ filters tr = true ->
  (forall k tr', ts !! k = Some tr' -> trait_matches typ filters tr' = true -> k = j) ->
  scan_traits typ filters ts i None = Some (Some (i + j)%nat).
Proof.
  revert i j; induction ts as [|tr0 ts IH]; intros i j Hj Hm U; [rewrite lookup_nil in Hj; discriminate|].
  cbn [scan_traits]; destruct j as [|j].
  - injection Hj as ->; rewrite Hm; cbn [negb]; rewrite Nat.add_0_r; apply scan_none.
    intros k tr' Hk; destruct (trait_matches typ filters tr') eqn:E; [|reflexivity].
    discriminate (U (S k) tr' Hk E).
  - destruct (trait_matches typ filters tr0) eqn:E; [discriminate (U 0%nat tr0 eq_refl E)|]; cbn [negb].
    rewrite (IH (S i) j Hj Hm); [f_equal; f_equal; lia|].
    intros k tr' Hk Hm'; injection (U (S k) tr' Hk Hm') as ->; reflexivity.
Qed.

Lemma trait_matches_type typ filters tr :
  trait_matches typ filters tr = true -> exists v, Complex tr = Some v /\ TypeOf v = typ.
Proof.
  unfold trait_matches; intros H; apply andb_true_iff in H as [H _]; apply bool_decide_eq_true in H.
  unfold reflect_TypeOf in H; destruct (Complex tr) as [v|]; [|discriminate]; exists v; split; [reflexivity|].
  injection H as H; exact H.
Qed.

Lemma assert_dynamic `{!GoTypesOk V T} v : assert_type (TypeOf v) (Some v) = Ret v.
Proof. unfold assert_type; rewrite dynamic_concrete, bool_decide_true; reflexivity. Qed.

(** [TraitOf] on a closed phase is [lookup_trait]. *)
Lemma TraitOf_closed `{!GoTypesOk V T} typ w a filters :
  a <> 0%nat -> state_ok (state_at w a) -> frozen (state_at w a) = true ->
  TraitOf typ w a filters =
  Ret (put w a (state_at w a),
       match lookup_trait typ filters (traits (state_at w a)) with Some v => inl v | None => inr ErrNotFound end).
Proof.
  intros Ha [Ht Hi Hr] Hf; unfold TraitOf; rewrite with_state_live by exact Ha; rewrite Hf; cbn [negb].
  unfold lookup_trait; set (st := state_at w a) in *.
  pose proof (find_lookup (trait_matches typ filters) (traits st)) as L.
  assert (U : forall j k tr tr', traits st !! j = Some tr -> traits st !! k = Some tr' ->
    reflect_TypeOf (Complex tr) = reflect_TypeOf (Complex tr') -> k = j).
  { intros j k tr tr' Hj Hk E; apply Hi in Hj, Hk; rewrite E in Hj; congruence. }
  assert (Found : forall (w0 : world) tr j, traits st !! j = Some tr -> trait_matches typ filters tr = true ->
    bind (index_trait st j) (fun tr => bind (assert_type typ (Complex tr)) (fun v => Ret (w0, inl v))) =
    Ret (w0, match Complex tr with Some v => inl v | None => inr ErrNotFound end)).
  { intros w0 tr j Hj Hm; unfold index_trait; rewrite Hj; cbn [bind].
    destruct (trait_matches_type _ _ _ Hm) as (v & Ev & <-); rewrite Ev, assert_dynamic; reflexivity. }
  destruct filters as [|m filters]; cbn [length Nat.eqb].
  - destruct (typeIdx st !! Some typ) as [i|] eqn:Ei.
    + destruct (Hr _ _ Ei) as (tr & Hj & Et).
      assert (Hm : trait_matches typ [] tr = true)
        by (unfold trait_matches; rewrite bool_decide_true by exact Et; reflexivity).
      rewrite (Found _ tr i Hj Hm); destruct (find _ _) as [tr'|]; [|rewrite (L _ _ Hj) in Hm; discriminate].
      destruct L as [Hm' [k Hk]]; destruct (trait_matches_type _ _ _ Hm') as (v' & Ev' & Et').
      assert (k = i) as -> by (apply (U i k tr tr' Hj Hk); rewrite Et, Ev'; cbn; congruence).
      rewrite Hj in Hk; injection Hk as ->; reflexivity.
    + destruct (find _ _) as [tr|]; [|reflexivity]; destruct L as [Hm [k Hk]].
      destruct (trait_matches_type _ _ _ Hm) as (v & Ev & Et); apply Hi in Hk.
      rewrite Ev in Hk; cbn in Hk; rewrite Et in Hk; congruence.
  - destruct (find _ _) as [tr|].
    + destruct L as [Hm [k Hk]].
      rewrite (scan_unique typ (m :: filters) _ 0 k tr Hk Hm); [exact (Found _ tr k Hk Hm)|].
      intros j tr' Hj Hm'; apply (U k j tr tr' Hk Hj).
      destruct (trait_matches_type _ _ _ Hm) as (v & -> & <-), (trait_matches_type _ _ _ Hm') as (v' & -> & E).
      cbn; rewrite E; reflexivity.
    + rewrite (scan_none _ _ _ 0 None L); reflexivity.
Qed.

(** *** The child's genesis *)

Definition self_data (st : selfState) : list Trait * gmap (option T) nat * bool * Z :=
  (traits st, typeIdx st, frozen st, inception st).

(** Code that leaves the self of [a] alone: it may query it and defer cleanups. *)
Definition keeps (a : nat) (f : world -> world) : Prop :=
  forall w, self_data (state_at (f w) a) = self_data (state_at w a).

Definition returns (a : nat) (f : init_fn) (v : V) : Prop :=
  keeps a (fun w => fst (f w)) /\ forall w, snd (f w) = Some (Some v).

Definition spark_trait (v : V) : Trait := MkTrait (str "runtime") (str "genesis") (Some v).

Lemma call_returns a f v w :
  returns a f v -> exists w', call f w = (inl (Some v), w') /\ self_data (state_at w' a) = self_data (state_at w a).
Proof.
  intros [K R]; specialize (K w); specialize (R w); cbv beta in K; unfold call.
  destruct (f w) as [w1 o]; cbn in *; rewrite R; exists w1; auto.
Qed.

Lemma register_child_step a v w ts idx now :
  a <> 0%nat -> self_data (state_at w a) = (ts, idx, false, now) -> self_ok ts idx ->
  (idx !! Some (TypeOf v) <> None -> fst (register_child a (Some v) w) = inr Panicked) /\
  (idx !! Some (TypeOf v) = None -> exists w', register_child a (Some v) w = (inl tt, w') /\
     self_data (state_at w' a) = (ts ++ [spark_trait v], <[Some (TypeOf v) := length ts]> idx, false, now) /\
     self_ok (ts ++ [spark_trait v]) (<[Some (TypeOf v) := length ts]> idx)).
Proof.
  intros Ha E Ok; injection E as E1 E2 E3 E4.
  assert (Sok : state_ok (state_at w a)) by (unfold state_ok; rewrite E1, E2; exact Ok).
  unfold register_child, cbind, lift, registerTraitAny; rewrite with_state_live by exact Ha.
  rewrite spark_frames_origin; cbn [genesis_origin].
  change (let '(module, pkg) := genesis_origin in ?b) with b.
  rewrite add_trait_spec by exact Sok; rewrite E3, E2, E1; split; intros Hn.
  - destruct (idx !! Some (TypeOf v)) as [i|] eqn:Ei; [|contradiction].
    destruct (so_range _ _ Ok _ _ Ei) as (tr & -> & _); reflexivity.
  - rewrite Hn; cbn [bind no_error cret]; eexists; split; [reflexivity|]; rewrite put_put, state_at_put; split.
    + unfold self_data; cbn [traits typeIdx frozen inception]; rewrite E4; reflexivity.
    + apply (self_ok_snoc ts idx (spark_trait v) Ok); [split; [discriminate|reflexivity]|exact Hn].
Qed.

Definition types_of (ts : list Trait) : list (option T) := map (fun tr => reflect_TypeOf (Complex tr)) ts.

Lemma self_ok_types ts idx k : self_ok ts idx -> idx !! k = None <-> ~ In k (types_of ts).
Proof.
  intros Ok; unfold types_of; split.
  - intros Hn Hi; apply in_map_iff in Hi as (tr & <- & Hin); apply list_elem_of_In, list_elem_of_lookup in Hin as [i Hi].
    rewrite (so_index _ _ Ok _ _ Hi) in Hn; discriminate.
  - intros N; destruct (idx !! k) as [i|] eqn:E; [exfalso; apply N|reflexivity].
    destruct (so_range _ _ Ok _ _ E) as (tr & Hi & <-).
    apply (in_map (fun tr => reflect_TypeOf (Complex tr))), list_elem_of_In, list_elem_of_lookup; eauto.
Qed.

Lemma self_ok_NoDup ts idx : self_ok ts idx -> List.NoDup (types_of ts).
Proof.
  intros Ok; apply (NoDup_nth _ None); unfold types_of; rewrite length_map; intros i j Hi Hj E.
  apply lookup_lt_is_Some in Hi as [x Hx], Hj as [y Hy].
  assert (N : forall k z, ts !! k = Some z -> nth k (map (fun tr => reflect_TypeOf (Complex tr)) ts) None = reflect_TypeOf (Complex z)).
  { intros k z Hz; apply nth_lookup_Some; rewrite list_lookup_fmap, Hz; reflexivity. }
  rewrite (N i x Hx), (N j y Hy) in E; apply (so_index _ _ Ok) in Hx, Hy; rewrite E in Hx; congruence.
Qed.

(** A whole list of initialisers. *)
Lemma additional_spec a inits vs : 
  Forall2 (fun i v => exists f, i = Some f /\ returns a f v) inits vs ->
  a <> 0%nat -> forall w ts idx now,
  self_data (state_at w a) = (ts, idx, false, now) -> self_ok ts idx ->
  (List.NoDup (types_of (ts ++ map spark_trait vs)) ->
     exists w' idx', additional a inits w = (inl tt, w') /\ self_ok (ts ++ map spark_trait vs) idx' /\
       self_data (state_at w' a) = (ts ++ map spark_trait vs, idx', false, now)) /\
  (~ List.NoDup (types_of (ts ++ map spark_trait vs)) -> fst (additional a inits w) = inr Panicked).
Proof.
  intros H Ha; induction H as [|i v inits vs (f & -> & R) _ IH]; intros w ts idx now E Ok; cbn [additional map].
  - rewrite app_nil_r; split; [intros _; exists w, idx; auto|intros N; destruct (N (self_ok_NoDup _ _ Ok))].
  - destruct (call_returns a f v w R) as (w1 & Ec & Es); rewrite E in Es; unfold cbind at 1 3; rewrite Ec.
    destruct (register_child_step a v w1 ts idx now Ha Es Ok) as [Dup New].
    assert (Split : types_of (ts ++ spark_trait v :: map spark_trait vs) =
      types_of ((ts ++ [spark_trait v]) ++ map spark_trait vs)) by (rewrite <- app_assoc; reflexivity).
    destruct (idx !! Some (TypeOf v)) as [i|] eqn:Ei.
    + assert (N : ~ List.NoDup (types_of (ts ++ spark_trait v :: map spark_trait vs))).
      { unfold types_of; rewrite map_app; cbn [map]; intros N; apply NoDup_remove_2 in N; apply N, in_or_app; left.
        assert (D : ~ ~ In (Some (TypeOf v)) (types_of ts)) by (rewrite <- (self_ok_types _ _ _ Ok), Ei; discriminate).
        destruct (in_dec (fun x y => decide (x = y)) (Some (TypeOf v)) (types_of ts)); [assumption|contradiction]. }
      split; [intros N'; contradiction|intros _]; specialize (Dup ltac:(discriminate)).
      unfold cbind; destruct (register_child a (Some v) w1) as [r w2]; cbn [fst] in *; rewrite Dup; reflexivity.
    + destruct (New eq_refl) as (w2 & Er & Es2 & Ok2); unfold cbind; rewrite Er.
      destruct (IH w2 _ _ now Es2 Ok2) as [I1 I2]; rewrite Split; split; [|exact I2].
      intros N; destruct (I1 N) as (w' & idx' & X1 & X2 & X3); exists w', idx'.
      change (spark_trait v :: map spark_trait vs) with ([spark_trait v] ++ map spark_trait vs).
      rewrite app_assoc; auto.
Qed.

Lemma close_child_ok during a w ts idx now :
  a <> 0%nat -> keeps a during -> (forall w, wg (state_at (during w) a) = 0%nat) ->
  self_data (state_at w a) = (ts, idx, false, now) ->
  exists w', close_child during a w = (inl tt, w') /\ self_data (state_at w' a) = (ts, idx, true, now).
Proof.
  intros Ha K W E; unfold close_child, closePhase; rewrite with_state_live by exact Ha.
  pose proof E as E'; injection E' as E1 E2 E3 E4; rewrite E3.
  set (w1 := put w a (state_at w a)).
  assert (K1 : self_data (state_at (during w1) a) = (ts, idx, false, now)) by (rewrite K; unfold w1; rewrite state_at_put; exact E).
  rewrite W; cbn [Nat.eqb negb]; injection K1 as F1 F2 F3 F4; rewrite F3.
  eexists; split; [reflexivity|]; rewrite state_at_put; unfold self_data; cbn [freeze traits typeIdx frozen inception].
  congruence.
Qed.

Lemma inherit_types ts idx st :
  self_ok ts idx -> traits st = [] -> typeIdx st = ∅ -> exists idx', self_ok ts idx' /\ typeIdx (inherit st ts) = idx'.
Proof.
  intros Ok H1 H2; exists (typeIdx (inherit st ts)); split; [|reflexivity].
  pose proof (inherit_ok ts idx st Ok H1 H2) as S; unfold state_ok in S.
  destruct (inherit_spec ts st) as (E & _); rewrite E, H1 in S; exact S.
Qed.

Lemma child_genesis_spec during a parent idx primaryInit v inits vs w now :
  a <> 0%nat -> keeps a during -> (forall w, wg (state_at (during w) a) = 0%nat) ->
  self_ok (Traits parent) idx -> returns a primaryInit v ->
  Forall2 (fun i v => exists f, i = Some f /\ returns a f v) inits vs ->
  self_data (state_at w a) = ([], ∅, false, now) ->
  let ts := Traits parent ++ map spark_trait (v :: vs) in
  (List.NoDup (types_of ts) ->
     exists w' idx', child_genesis during a parent primaryInit inits w = (inl (Some v), w') /\
       self_ok ts idx' /\ self_data (state_at w' a) = (ts, idx', true, now)) /\
  (~ List.NoDup (types_of ts) -> fst (child_genesis during a parent primaryInit inits w) = inr Panicked).
Proof.
  intros Ha K W Ok R Rs E ts; pose proof E as E'; injection E' as E1 E2 E3 E4.
  destruct (inherit_types _ _ _ Ok E1 E2) as (idx1 & Ok1 & Ei).
  destruct (inherit_spec (Traits parent) (state_at w a)) as (G1 & G2 & _ & _ & G5).
  set (w1 := put w a (inherit (state_at w a) (Traits parent))).
  assert (E0 : self_data (state_at w1 a) = (Traits parent, idx1, false, now)).
  { unfold w1; rewrite state_at_put; unfold self_data; rewrite G1, E1, G2, E3, G5, E4, Ei; reflexivity. }
  assert (Unf : child_genesis during a parent primaryInit inits w =
    cbind (additional a (Some primaryInit :: inits)) (fun _ => cbind (close_child during a) (fun _ => cret (Some v))) w1).
  { unfold child_genesis, cbind at 1; cbn [modify_state]; fold w1; cbn [additional].
    destruct (call_returns a primaryInit v w1 R) as (w2 & Ec & _); unfold cbind; rewrite Ec.
    destruct (register_child a (Some v) w2) as [[[]|e] w3]; [|reflexivity].
    destruct (additional a inits w3) as [[[]|e] w4]; reflexivity. }
  assert (Rs' : Forall2 (fun i v => exists f, i = Some f /\ returns a f v) (Some primaryInit :: inits) (v :: vs))
    by (constructor; [exists primaryInit; auto|exact Rs]).
  destruct (additional_spec a _ _ Rs' Ha w1 _ _ now E0 Ok1) as [A1 A2]; rewrite Unf; split; intros N.
  - destruct (A1 N) as (w2 & idx2 & X1 & X2 & X3); unfold cbind at 1; rewrite X1.
    destruct (close_child_ok during a w2 _ _ _ Ha K W X3) as (w3 & Y1 & Y2).
    exists w3, idx2; unfold cbind; rewrite Y1; auto.
  - specialize (A2 N); unfold cbind; destruct (additional _ _ _) as [x w2]; cbn [fst] in A2; subst x; reflexivity.
Qed.

(** *** Draining *)

(** The batches: every cleanup of a batch runs, last registered first, and what they
    register is the next batch. *)
Fixpoint batches (regs : F -> list F) (n : nat) (fns : list F) : list (list F) :=
  match n, fns with
  | S n, _ :: _ => rev fns :: batches regs n (flat_map regs (rev fns))
  | _, _ => []
  end.

Section Batches.
Context (run : F -> world -> world) (settle : list F -> world -> world) (regs : F -> list F) (rank : F -> nat).
Context (rank_regs : forall f g, In g (regs f) -> (rank g < rank f)%nat).

(** One kind of deferral: where the functions are kept. *)
Record deferral (get : world -> list F) : Prop := {
  get_run : forall f w, get (run f w) = get w ++ regs f;
  get_settle : forall fns w, get (settle fns w) = get w;
}.

Lemma runDeferred_get get fns w : deferral get -> get w = [] -> get (runDeferred run settle fns w) = flat_map regs (rev fns).
Proof.
  intros [Hr Hs] H0; unfold runDeferred; rewrite Hs.
  enough (G : forall l w, get (fold_left (fun w f => run f w) l w) = get w ++ flat_map regs l) by (rewrite G, H0; reflexivity).
  induction l as [|f l IH]; intros w'; cbn [fold_left flat_map]; [rewrite app_nil_r; reflexivity|].
  rewrite IH, Hr, app_assoc; reflexivity.
Qed.

Lemma next_rank n fns :
  (forall f, In f fns -> (rank f < S n)%nat) -> forall g, In g (flat_map regs (rev fns)) -> (rank g < n)%nat.
Proof.
  intros H g Hg; apply in_flat_map in Hg as (f & Hf & Hg); apply in_rev, H in Hf; apply rank_regs in Hg; lia.
Qed.

Lemma drainShutdown_ok n fuel w :
  deferral shutdown -> (n < fuel)%nat -> (forall f, In f (shutdown w) -> (rank f < n)%nat) ->
  exists w', drainShutdown run settle fuel w = Some (concat (batches regs n (shutdown w)), w') /\ shutdown w' = [].
Proof.
  intros D; revert fuel w; induction n as [|n IH]; intros [|fuel] w Hf Hr; try lia; cbn [drainShutdown].
  - destruct (shutdown w) as [|f fns] eqn:E; [|specialize (Hr f (or_introl eq_refl)); lia].
    eexists; split; [reflexivity|reflexivity].
  - destruct (shutdown w) as [|f fns] eqn:E; [eexists; split; reflexivity|].
    rewrite <- E in *; set (w1 := MkWorld _ [] _ _).
    pose proof (runDeferred_get shutdown (shutdown w) w1 D eq_refl) as G.
    destruct (IH fuel (runDeferred run settle (shutdown w) w1)) as (w' & X1 & X2); [lia|rewrite G; apply next_rank, Hr|].
    rewrite X1, G; exists w'; split; [|exact X2]; rewrite E at 1; cbn [length Nat.eqb].
    rewrite E; reflexivity.
Qed.

Lemma drainSelf_ok a n fuel w :
  deferral (fun w => deferred (state_at w a)) -> (n < fuel)%nat ->
  (forall f, In f (deferred (state_at w a)) -> (rank f < n)%nat) ->
  exists w', drainSelfDeferred run settle fuel a w = Some (concat (batches regs n (deferred (state_at w a))), w') /\
    deferred (state_at w' a) = [].
Proof.
  intros D; revert fuel w; induction n as [|n IH]; intros [|fuel] w Hf Hr; try lia; cbn [drainSelfDeferred].
  - destruct (deferred (state_at w a)) as [|f fns] eqn:E; [|specialize (Hr f (or_introl eq_refl)); lia].
    eexists; split; [reflexivity|rewrite state_at_put; reflexivity].
  - destruct (deferred (state_at w a)) as [|f fns] eqn:E; [eexists; split; [reflexivity|rewrite state_at_put; reflexivity]|].
    rewrite <- E in *; set (w1 := put w a _).
    assert (G0 : deferred (state_at w1 a) = []) by (unfold w1; rewrite state_at_put; reflexivity).
    pose proof (runDeferred_get (fun w => deferred (state_at w a)) (deferred (state_at w a)) w1 D G0) as G; cbv beta in G.
    destruct (IH fuel (runDeferred run settle (deferred (state_at w a)) w1)) as (w' & X1 & X2); [lia|rewrite G; apply next_rank, Hr|].
    rewrite X1, G; exists w'; split; [|exact X2]; rewrite E at 1; cbn [length Nat.eqb].
    rewrite E; reflexivity.
Qed.
End Batches.

(** ** Properties *)

(** Whatever sequence of operations a program runs from boot, every self has pairwise
    distinct dynamic types, an index that is exact in both directions, and traits that
    have a value and the origin runtime/genesis. *)
Theorem self_invariant main now w a st :
  rtc prim (boot_world main now) w -> registry w !! a = Some st ->
  List.NoDup (types_of (traits st)) /\
  (forall k i, typeIdx st !! k = Some i <-> exists tr, traits st !! i = Some tr /\ reflect_TypeOf (Complex tr) = k) /\
  Forall (fun tr => Complex tr <> None /\ Module tr = str "runtime" /\ Package tr = str "genesis") (traits st).
Proof.
  intros R H; pose proof (prims_ok _ _ R (boot_world_ok main now) a st H) as Ok; pose proof Ok as [H1 H2 H3].
  split; [exact (self_ok_NoDup _ _ Ok)|split].
  - intros k i; split; [apply H3|intros (tr & Ht & <-); exact (H2 i tr Ht)].
  - eapply Forall_impl; [exact H1|]; intros tr [Hc Ho]; split; [exact Hc|]; injection Ho as H4 H5; split; assumption.
Qed.

(** Every operation is a sequence of the primitive changes, whatever the user's functions
    do through this package, so that the worlds [prim] reaches from boot include those of
    every program.  What each operation answers is in GenesisSpec.v. *)
Theorem operations_are_prims w a w' :
  (forall frames t v, polite_thing t -> Register w a frames t = Ret (w', v) -> rtc prim w w') /\
  (forall r, CurrentSelf w a = Ret (w', r) -> rtc prim w w') /\
  (forall typ filters r, TraitOf typ w a filters = Ret (w', r) -> rtc prim w w') /\
  (forall f, DeferSelf w a f = Ret w' -> rtc prim w w') /\
  (forall during e, polite during -> closePhase during w a = Ret (Some (w', e)) -> rtc prim w w') /\
  (forall run settle fuel during now parent idx primaryInit inits work r,
     (forall f : F, polite (run f)) -> (forall fns, polite (settle fns)) -> polite during -> polite_work work ->
     polite_init primaryInit -> Forall (fun i => match i with Some f => polite_init f | None => True end) inits ->
     self_ok (Traits parent) idx -> registry w !! a = None ->
     spark_child run settle fuel during now parent primaryInit inits work a w = Some (r, w') -> rtc prim w w').
Proof.
  split; [intros; eapply Register_prims; eassumption|split; [intros; eapply self_prims; eassumption|split; [intros; eapply TraitOf_prims; eassumption|]]].
  split; [intros; eapply DeferSelf_prims; eassumption|split; [intros; eapply closePhase_prims; eassumption|]].
  intros run settle fuel during now parent idx primaryInit inits work r Q1 Q2 P1 P4 P2 P3 H Hn E.
  exact (spark_child_prims run settle fuel during now parent idx primaryInit inits work a w r w' Q1 Q2 P1 P4 P2 P3 H Hn E).
Qed.

(** C7: A self is seen whole or not at all: before the phase closes every query and every
    spark is refused; from then on, as long as the identity lives, the self is the one
    that was closed, and nothing can be added to it. *)
Theorem atomic_on_open w a :
  a <> 0%nat ->
  (frozen (state_at w a) = false ->
     (forall typ filters, exists w', TraitOf typ w a filters = Ret (w', inr ErrPhaseOpen)) /\
     (exists w', CurrentSelf w a = Ret (w', inr ErrPhaseOpen)) /\
     (forall work init, exists w', SparkAs w a (Some work) (Some init) = Ret (w', inr (errSparkParent ErrPhaseOpen)))) /\
  (forall st w', registry w !! a = Some st -> frozen st = true -> rtc (prim_keeping a) w w' ->
     (exists w2 t, CurrentSelf w' a = Ret (w2, inl (MkSelf (traits st) t))) /\
     (forall x frames, exists w2, registerTraitAny w' a frames (Some x) = Ret (w2, Some errPhaseClosed))).
Proof.
  intros Ha; split; [intros Hf|intros st w' H Hf R].
  - assert (C : CurrentSelf w a = Ret (put w a (state_at w a), inr ErrPhaseOpen))
      by (unfold CurrentSelf; rewrite with_state_live, Hf by exact Ha; reflexivity).
    split; [|split; [eexists; exact C|]].
    + intros typ filters; eexists; unfold TraitOf; rewrite with_state_live, Hf by exact Ha; reflexivity.
    + intros work init; eexists; unfold SparkAs; rewrite C; reflexivity.
  - destruct (prims_frozen _ _ _ _ R H Hf) as (st' & H' & E1 & E2 & E3).
    assert (Es : state_at w' a = st') by (unfold state_at; rewrite H'; reflexivity).
    split; [eexists _, _; unfold CurrentSelf; rewrite with_state_live by exact Ha; rewrite Es, E3, Hf, E1; reflexivity|].
    intros x frames; unfold registerTraitAny; rewrite with_state_live by exact Ha; rewrite Es.
    destruct (callerOrigin frames); unfold add_trait; rewrite E3, Hf; eexists; reflexivity.
Qed.

(** C37: [TraitOf] on every branch: an open phase is an error; on a closed one the answer is
    the trait of exactly that dynamic type which passes the filters, and ErrNotFound when
    there is none; ErrAmbiguous and the failed assertion never happen.  A filter for any
    module but runtime finds nothing, since that is the origin every trait records. *)
Theorem TraitOf_correct `{!GoTypesOk V T} main now typ w a filters :
  rtc prim (boot_world main now) w -> a <> 0%nat ->
  TraitOf typ w a filters =
  Ret (put w a (state_at w a),
       if negb (frozen (state_at w a)) then inr ErrPhaseOpen
       else match lookup_trait typ filters (traits (state_at w a)) with Some v => inl v | None => inr ErrNotFound end) /\
  (forall m rest, filters = m :: rest -> m <> str "runtime" -> lookup_trait typ filters (traits (state_at w a)) = None).
Proof.
  intros R Ha; pose proof (state_ok_at w a (prims_ok _ _ R (boot_world_ok main now))) as Ok; split.
  - destruct (frozen (state_at w a)) eqn:Ef; [exact (TraitOf_closed typ w a filters Ha Ok Ef)|].
    unfold TraitOf; rewrite with_state_live, Ef by exact Ha; reflexivity.
  - intros m rest -> Hm; unfold lookup_trait.
    pose proof (find_lookup (trait_matches typ (m :: rest)) (traits (state_at w a))) as L.
    destruct (find _ _) as [tr|]; [exfalso|reflexivity]; destruct L as [Ht [i Hi]].
    destruct (Forall_lookup_1 _ _ _ _ (so_traits _ _ Ok) Hi) as [_ Ho]; injection Ho as Hmod _.
    unfold trait_matches in Ht; apply andb_true_iff in Ht as [_ Ht]; apply Hm.
    destruct rest as [|p rest]; cbn [filters_match] in Ht; [|apply andb_true_iff in Ht as [Ht _]];
      apply bytes_eqb_eq in Ht; congruence.
Qed.

(** A spark child's genesis: on a fresh identity whose initialisers return values and
    touch the package only to query and defer, the child's self is the parent's traits,
    then the primary one, then the additional ones, in order, closed, with the time of
    the SparkAs call; the work function runs on the primary value in that state, and the
    spark's cleanups are drained after it whether it returns or panics.  If two traits
    share a dynamic type the child panics and the work function never runs. *)
Theorem spark_child_correct run settle fuel during now parent idx primaryInit v inits vs work a w :
  a <> 0%nat -> registry w !! a = None -> self_ok (Traits parent) idx ->
  keeps a during -> (forall w, wg (state_at (during w) a) = 0%nat) ->
  returns a primaryInit v -> Forall2 (fun i v => exists f, i = Some f /\ returns a f v) inits vs ->
  let ts := Traits parent ++ map spark_trait (v :: vs) in
  let child := spark_child run settle fuel during now parent primaryInit inits work a w in
  (List.NoDup (types_of ts) ->
     exists w1, (exists w2, CurrentSelf w1 a = Ret (w2, inl (MkSelf ts now))) /\
       child = let '(w3, ok) := work (Some v) w1 in
               match drainSelfDeferred run settle fuel a w3 with
               | None => None
               | Some (_, w4) => Some (if ok then inl tt else inr Panicked, w4)
               end) /\
  (~ List.NoDup (types_of ts) ->
     exists w1, child = match drainSelfDeferred run settle fuel a w1 with
                        | None => None
                        | Some (_, w4) => Some (inr Panicked, w4)
                        end).
Proof.
  intros Ha Hn Ok K W R Rs ts child.
  assert (Es : stateForCurrent w a = Some (new_state w a, put w a (new_state w a)))
    by (unfold stateForCurrent; destruct (Nat.eqb_spec a 0); [contradiction|rewrite Hn; reflexivity]).
  unfold child, spark_child; rewrite Es, put_put; set (w0 := put w a _).
  assert (E : self_data (state_at w0 a) = ([], ∅, false, now)) by (unfold w0; rewrite state_at_put; reflexivity).
  destruct (child_genesis_spec during a parent idx primaryInit v inits vs w0 now Ha K W Ok R Rs E) as [G1 G2].
  split; intros N.
  - destruct (G1 N) as (w1 & idx' & X1 & _ & X3); exists w1; split.
    + injection X3 as Y1 Y2 Y3 Y4; eexists; unfold CurrentSelf; rewrite with_state_live by exact Ha.
      rewrite Y1, Y3, Y4; reflexivity.
    + unfold cbind; rewrite X1; unfold run_work; destruct (work (Some v) w1) as [w3 []]; reflexivity.
  - specialize (G2 N); unfold cbind; destruct (child_genesis _ _ _ _ _ _) as [x w1]; cbn [fst] in G2; subst x.
    exists w1; reflexivity.
Qed.

(** C38: Both drains end, when no cleanup registers, however indirectly, a cleanup of its own
    rank or above: every registered cleanup is called exactly once per registration, last
    registered first within a batch, those registered meanwhile in the next batch, and
    none is left. *)
Theorem drains_terminate (run : F -> world -> world) settle regs (rank : F -> nat) n fuel a w :
  (forall f g, In g (regs f) -> (rank g < rank f)%nat) -> (n < fuel)%nat ->
  (deferral run settle regs shutdown -> (forall f, In f (shutdown w) -> (rank f < n)%nat) ->
     exists w', drainShutdown run settle fuel w = Some (concat (batches regs n (shutdown w)), w') /\ shutdown w' = []) /\
  (let get := fun w => deferred (state_at w a) in
   deferral run settle regs get -> (forall f, In f (get w) -> (rank f < n)%nat) ->
     exists w', drainSelfDeferred run settle fuel a w = Some (concat (batches regs n (get w)), w') /\ get w' = []).
Proof.
  intros H Hf; split.
  - intros D Hr; exact (drainShutdown_ok run settle regs rank H n fuel w D Hf Hr).
  - intros get D Hr; exact (drainSelf_ok run settle regs rank H a n fuel w D Hf Hr).
Qed.

End Genesis.

(** *** Instances for the witnesses

    Values are numbers whose last digit is their type; types from 100 are interfaces. *)
#[export] Instance digit_types : GoTypes nat nat := {
  TypeOf v := (v mod 10)%nat;
  isInterface t := (100 <=? t)%nat;
  implements _ _ := false;
  waitGroupType := 99%nat;
}.

#[export] Instance digit_types_ok : GoTypesOk nat nat.
Proof.
  split; intros v; change ((100 <=? v mod 10)%nat = false); apply Nat.leb_gt.
  pose proof (Nat.mod_upper_bound v 10 ltac:(discriminate)); lia.
Qed.

Definition nat_world : Type := world (V := nat) (T := nat) (F := nat).

Definition demo_frames : list (list Z) := [str "example.com/app/radio.init"; str "runtime.doInit1"].

(** Value 42 registered from package initialisation on block 7. *)
Definition demo_world : nat_world :=
  match Register (boot_world 7 1000) 7 demo_frames (ThingValue 42%nat) with Ret (w, _) => w | _ => boot_world 7 1000 end.

Lemma demo_reach : rtc prim (boot_world 7 1000) demo_world.
Proof.
  apply (Register_prims (boot_world 7 1000) 7 demo_frames (ThingValue 42%nat) demo_world (Some 42%nat) I).
  vm_compute; reflexivity.
Qed.

Lemma self_invariant_witness : exists st, registry demo_world !! 7%nat = Some st /\ List.NoDup (types_of (traits st)) /\
  length (traits st) = 1%nat.
Proof.
  assert (H : exists st, registry demo_world !! 7%nat = Some st /\ length (traits st) = 1%nat)
    by (eexists; split; vm_compute; reflexivity).
  destruct H as (st & H & L); exists st; split; [exact H|split; [|exact L]].
  exact (proj1 (self_invariant 7 1000 demo_world 7 st demo_reach H)).
Defined.

Lemma operations_are_prims_witness : rtc prim (boot_world 7 1000) demo_world.
Proof.
  destruct (operations_are_prims (V := nat) (T := nat) (F := nat) (boot_world 7 1000) 7 demo_world) as [H _].
  apply (H demo_frames (ThingValue 42%nat) (Some 42%nat) I); vm_compute; reflexivity.
Defined.

Definition demo_closed : nat_world := put demo_world 7 (freeze (state_at demo_world 7)).

Lemma demo_closed_reach : rtc prim (boot_world 7 1000) demo_closed.
Proof. etransitivity; [apply demo_reach|apply rtc_once, prim_freeze]. Qed.

Lemma atomic_on_open_witness :
  (exists w', CurrentSelf demo_world 7 = Ret (w', inr ErrPhaseOpen)) /\
  (exists w2 t, CurrentSelf demo_closed 7 = Ret (w2, inl (MkSelf [MkTrait (str "runtime") (str "genesis") (Some 42%nat)] t))).
Proof.
  split.
  - destruct (atomic_on_open demo_world 7 ltac:(discriminate)) as [H _]; apply H; vm_compute; reflexivity.
  - destruct (atomic_on_open demo_closed 7 ltac:(discriminate)) as [_ H].
    destruct (H (state_at demo_closed 7) demo_closed) as [G _];
      [vm_compute; reflexivity|vm_compute; reflexivity|reflexivity|].
    destruct G as (w2 & t & G); exists w2, t; rewrite G; do 3 f_equal; vm_compute; reflexivity.
Defined.

Lemma TraitOf_correct_witness :
  (exists w', TraitOf 2%nat demo_closed 7 [] = Ret (w', inl 42%nat)) /\
  (exists w', TraitOf 2%nat demo_closed 7 [str "example.com/app"] = Ret (w', inr ErrNotFound)).
Proof.
  split; (destruct (TraitOf_correct 7 1000 2%nat demo_closed 7 []) as [H _]; [exact demo_closed_reach|discriminate|]).
  - eexists; rewrite H; f_equal; f_equal; vm_compute; reflexivity.
  - destruct (TraitOf_correct 7 1000 2%nat demo_closed 7 [str "example.com/app"]) as [H1 H2];
      [exact demo_closed_reach|discriminate|].
    eexists; rewrite H1, (H2 _ _ eq_refl) by discriminate; f_equal; f_equal; vm_compute; reflexivity.
Defined.

(** A child with primary value 13 and one more initialiser returning [x]. *)
Definition quiet (w : nat_world) : world := put w 8 (set_wg (state_at w 8) 0).
Definition give (x : nat) : nat_world -> nat_world * option (option nat) := fun w => (w, Some (Some x)).
Definition demo_child (x : nat) : option ((unit + child_end) * world) :=
  spark_child (fun _ w => w) (fun _ w => w) 2 quiet 50 (MkSelf [] 0) (give 13) [Some (give x)] (fun _ w => (w, true)) 8
    (boot_world 7 1000).

Lemma quiet_ok : keeps 8 quiet /\ forall w, wg (state_at (quiet w) 8) = 0%nat.
Proof. split; intros w; unfold quiet; rewrite state_at_put; reflexivity. Qed.

Lemma give_returns a x : returns a (give x) x.
Proof. split; intros w; reflexivity. Qed.

Lemma spark_child_correct_witness :
  (exists w1 w2, CurrentSelf w1 8 = Ret (w2, inl (MkSelf [spark_trait 13%nat; spark_trait 24%nat] 50)) /\
     demo_child 24 = match drainSelfDeferred (fun (_ : nat) w => w) (fun _ w => w) 2 8 w1 with
                     | None => None
                     | Some (_, w4) => Some (inl tt, w4)
                     end) /\
  (exists r, demo_child 23 = Some (inr Panicked, r)).
Proof.
  destruct quiet_ok as [K W]; split.
  - destruct (spark_child_correct (fun (_ : nat) w => w) (fun _ w => w) 2 quiet 50 (MkSelf [] 0) ∅ (give 13) 13%nat
      [Some (give 24)] [24%nat] (fun _ w => (w, true)) 8 (boot_world 7 1000) ltac:(discriminate) eq_refl self_ok_nil K W
      (give_returns 8 13) ltac:(constructor; [exists (give 24); split; [reflexivity|apply give_returns]|constructor])) as [H _].
    destruct H as (w1 & [w2 H1] & H2); [repeat constructor; cbn; intuition discriminate|].
    exists w1, w2; split; [exact H1|exact H2].
  - destruct (spark_child_correct (fun (_ : nat) w => w) (fun _ w => w) 2 quiet 50 (MkSelf [] 0) ∅ (give 13) 13%nat
      [Some (give 23)] [23%nat] (fun _ w => (w, true)) 8 (boot_world 7 1000) ltac:(discriminate) eq_refl self_ok_nil K W
      (give_returns 8 13) ltac:(constructor; [exists (give 23); split; [reflexivity|apply give_returns]|constructor])) as [_ H].
    destruct H as (w1 & H); [intros N; apply NoDup_cons_iff in N as [N _]; apply N; left; reflexivity|].
    destruct (drainSelfDeferred _ _ _ _ w1) as [[c w4]|] eqn:E; [exists w4; exact H|].
    exfalso; revert H; vm_compute; discriminate.
Defined.

(** Cleanup n registers n - 1. *)
Definition count_regs (n : nat) : list nat := match n with O => [] | S m => [m] end.
Definition count_run (n : nat) (w : nat_world) : world := set_shutdown w (shutdown w ++ count_regs n).

Lemma drains_terminate_witness : exists w',
  drainShutdown count_run (fun _ w => w) 4 (set_shutdown (boot_world 7 1000) [0; 2]%nat) = Some ([2; 0; 1; 0]%nat, w').
Proof.
  destruct (drains_terminate count_run (fun _ w => w) count_regs (fun n => n) 3 4 7
    (set_shutdown (boot_world 7 1000) [0; 2]%nat)) as [H _].
  - intros [|f] g Hg; [destruct Hg|destruct Hg as [<-|[]]; lia].
  - lia.
  - destruct H as (w' & H & _); [split; [reflexivity|reflexivity]|cbn; lia|].
    exists w'; rewrite H; reflexivity.
Defined.
