(* ===== verification/GenesisSpec.v ===== *)
(** * What the genesis package promises

    An abstract machine for runtime/genesis/genesis.go: a self is the list of its values
    with a flag, the number of initialisers it waits for, its cleanups and its birth; the
    program has a self for every identity and a list of cleanups of its own.  It knows
    nothing of the registry, of the type index or of recorded origins.  [genesis_refines]
    runs any program, as a list of calls by any identities, on both and compares every
    answer and every final state. *)

From Stdlib Require Import String ZArith Lia List Bool.
From stdpp Require Import base option list gmap relations.
From S2P Require Import Prelude Slices Genesis.
Import ListNotations.
Open Scope Z_scope.

Section GenesisSpec.
Context {V T F : Type} `{GT : !GoTypes V T} `{ET : !EqDecision T} `{CT : !Countable T} `{GO : !GoTypesOk V T}.
Context (main : nat) (birth : Z).

Implicit Types (a b : nat) (v x : V).

(** ** The abstract machine *)

Record aself : Type := ASelf {
  vals : list V;
  waits : nat;
  closed : bool;
  cleanups : list F;
  since : Z;
}.

Record asystem : Type := ASystem {
  selves : nat -> aself;
  at_exit : list F;
}.

Definition newborn a : aself := ASelf [] 0 false [] (if (a =? main)%nat then birth else 0).
Definition a_boot : asystem := ASystem newborn [].

Definition a_put (s : asystem) a (x : aself) : asystem :=
  ASystem (fun b => if (b =? a)%nat then x else selves s b) (at_exit s).
Definition a_at_exit (s : asystem) (fs : list F) : asystem := ASystem (selves s) fs.

Definition with_vals (x : aself) (l : list V) : aself := ASelf l (waits x) (closed x) (cleanups x) (since x).
Definition with_waits (x : aself) (n : nat) : aself := ASelf (vals x) n (closed x) (cleanups x) (since x).
Definition with_closed (x : aself) : aself := ASelf (vals x) (waits x) true (cleanups x) (since x).
Definition with_cleanups (x : aself) (fs : list F) : aself := ASelf (vals x) (waits x) (closed x) fs (since x).

(** ** Calls *)

(** What Register is handed: a function is given by its signature and its result, [None]
    for a nil function, [Some None] for a panic. *)
Inductive offer : Type :=
| OfferNil
| OfferValue (v : V)
| OfferFunc (ins outs : list T) (body : option (option (option V))).

(** The calls of user code, each by the identity [a]; 0 is a missing identity. *)
Inductive op : Type :=
| ORegister (a : nat) (frames : list (list Z)) (t : offer)
| OWgAdd (a : nat)
| OWgDone (a : nat)
| ODefer (f : option F)
| ODeferSelf (a : nat) (f : option F)
| OSelf (a : nat)
| OTrait (a : nat) (typ : T) (filters : list (list Z))
| OClose (a : nat)
| ODrain (a : nat)
| OExit.

(** An initialiser: the calls it makes, then its result, [None] for a panic. *)
Definition initialiser : Type := list op * option (option V).

(** [Close a others]: the others run while [a] waits for its group.  [Spark]: a whole
    spark of the parent [p] on the fresh identity [a]; the work function makes the calls
    [fst work] and returns or panics. *)
Inductive event : Type :=
| Op (o : op)
| Close (a : nat) (others : list op)
| Spark (p a : nat) (now : Z) (primary : initialiser) (inits : list (option initialiser)) (others : list op) (work : list op * bool)
| Forget (a : nat).

Inductive answer : Type :=
| Done
| Got (v : option V)
| Saw (s : Self (V := V))
| Found (v : V)
| Ran (fs : list F)
| Refused (e : gerror)
| Ended (e : unit + child_end)
| Panics
| Exits
| Blocks
| Busy.

(** *** What the machine does *)

Definition admits (x : aself) v : bool := negb (closed x) && bool_decide (TypeOf v ∉ map TypeOf (vals x)).

(** The value on offer, [None] when the shape is not one of the three or the function
    panics. *)
Definition offered (x : aself) (t : offer) : option (option V) :=
  match t with
  | OfferNil => None
  | OfferValue v => Some (Some v)
  | OfferFunc [] [_] (Some r) => r
  | OfferFunc [i] [_] (Some r) => if bool_decide (i = waitGroupType) && negb (closed x) then r else None
  | OfferFunc _ _ _ => None
  end.

(** The shape that needs the identity before the function is called. *)
Definition asks_group (t : offer) : bool :=
  match t with OfferFunc [i] [_] _ => bool_decide (i = waitGroupType) | _ => false end.

Definition in_init (frames : list (list Z)) : bool :=
  bool_decide (str "runtime.doInit1" ∈ frames \/ str "runtime.doInit" ∈ frames).

Definition a_register (s : asystem) a (frames : list (list Z)) (t : offer) : asystem * answer :=
  if negb (in_init frames) then (s, Panics)
  else if (a =? 0)%nat && asks_group t then (s, Exits)
  else match offered (selves s a) t with
       | Some (Some v) =>
           if (a =? 0)%nat then (s, Exits)
           else if admits (selves s a) v then (a_put s a (with_vals (selves s a) (vals (selves s a) ++ [v])), Got (Some v))
           else (s, Panics)
       | _ => (s, Panics)
       end.

Definition a_trait v : Trait := MkTrait (str "runtime") (str "genesis") (Some v).

(** Every value counts as contributed by this package. *)
Definition filters_accept (filters : list (list Z)) : bool :=
  match filters with
  | [] => true
  | [m] => bool_decide (m = str "runtime")
  | m :: p :: _ => bool_decide (m = str "runtime") && bool_decide (p = str "genesis")
  end.

Definition a_query (x : aself) typ (filters : list (list Z)) : answer :=
  if negb (closed x) then Refused ErrPhaseOpen
  else if negb (filters_accept filters) then Refused ErrNotFound
  else match List.find (fun v => bool_decide (TypeOf v = typ)) (vals x) with
       | Some v => Found v
       | None => Refused ErrNotFound
       end.

Definition a_close (during : asystem -> asystem) (s : asystem) a : asystem * answer :=
  if (a =? 0)%nat then (s, Exits)
  else if closed (selves s a) then (s, Refused errPhaseClosed)
  else
    let s := during s in
    if negb (waits (selves s a) =? 0)%nat then (s, Blocks)
    else if closed (selves s a) then (s, Refused errPhaseClosed)
    else (a_put s a (with_closed (selves s a)), Done).

Definition a_drain (s : asystem) a : asystem := a_put s a (with_cleanups (selves s a) []).

Definition a_op (s : asystem) (o : op) : asystem * answer :=
  match o with
  | ORegister a frames t => a_register s a frames t
  | OWgAdd a => (a_put s a (with_waits (selves s a) (S (waits (selves s a)))), Done)
  | OWgDone a =>
      match waits (selves s a) with
      | O => (s, Panics)
      | S n => (a_put s a (with_waits (selves s a) n), Done)
      end
  | ODefer None | ODeferSelf _ None => (s, Panics)
  | ODefer (Some f) => (a_at_exit s (at_exit s ++ [f]), Done)
  | ODeferSelf a (Some f) =>
      if (a =? 0)%nat then (s, Exits)
      else if (a =? main)%nat then (a_at_exit s (at_exit s ++ [f]), Done)
      else (a_put s a (with_cleanups (selves s a) (cleanups (selves s a) ++ [f])), Done)
  | OSelf a =>
      if (a =? 0)%nat then (s, Exits)
      else if closed (selves s a) then (s, Saw (MkSelf (map a_trait (vals (selves s a))) (since (selves s a))))
      else (s, Refused ErrPhaseOpen)
  | OTrait a typ filters => if (a =? 0)%nat then (s, Exits) else (s, a_query (selves s a) typ filters)
  | OClose a => a_close id s a
  | ODrain a => (a_drain s a, Ran (rev (cleanups (selves s a))))
  | OExit => (a_at_exit s [], Ran (rev (at_exit s)))
  end.

Definition a_ops (os : list op) (s : asystem) : asystem := fold_left (fun s o => fst (a_op s o)) os s.

(** The child's contributions in order; [false] for a panic. *)
Fixpoint a_contribute a (inits : list (option initialiser)) (s : asystem) : bool * asystem :=
  match inits with
  | [] => (true, s)
  | None :: _ => (false, s)
  | Some (os, r) :: inits =>
      let s := a_ops os s in
      match r with
      | Some (Some v) =>
          if admits (selves s a) v
          then a_contribute a inits (a_put s a (with_vals (selves s a) (vals (selves s a) ++ [v])))
          else (false, s)
      | _ => (false, s)
      end
  end.

Definition fresh_self (x : aself) : bool :=
  (length (vals x) =? 0)%nat && (waits x =? 0)%nat && negb (closed x) && (length (cleanups x) =? 0)%nat.

(** A spark: refused while the parent is open; otherwise the child begins with the
    parent's values, contributes its own, closes, works, and its cleanups are drained
    whatever made it end. *)
Definition a_spark (s : asystem) p a now primary inits others (work : list op * bool) : asystem * answer :=
  if (p =? 0)%nat then (s, Exits)
  else if negb (closed (selves s p)) then (s, Refused (errSparkParent ErrPhaseOpen))
  else if (a =? 0)%nat then (s, Ended (inr Exited))
  else if negb (fresh_self (selves s a)) then (s, Busy)
  else
    let s := a_put s a (ASelf (vals (selves s p)) 0 false [] now) in
    let '(ok, s) := a_contribute a (Some primary :: inits) s in
    if negb ok then (a_drain s a, Ended (inr Panicked))
    else match a_close (a_ops others) s a with
         | (s, Done) =>
             let s := a_ops (fst work) s in
             (a_drain s a, Ended (if snd work then inl tt else inr Panicked))
         | (s, Blocks) => (s, Ended (inr Blocked))
         | (s, _) => (a_drain s a, Ended (inr Panicked))
         end.

Definition a_event (s : asystem) (e : event) : asystem * answer :=
  match e with
  | Op o => a_op s o
  | Close a others => a_close (a_ops others) s a
  | Spark p a now primary inits others work => a_spark s p a now primary inits others work
  | Forget a => (a_put s a (newborn a), Done)
  end.

(** A whole program: the answers in order. *)
Fixpoint a_run (es : list event) (s : asystem) : asystem * list answer :=
  match es with
  | [] => (s, [])
  | e :: es => let '(s, r) := a_event s e in let '(s, rs) := a_run es s in (s, r :: rs)
  end.

(** *** What the package does with the same calls

    A call that panics or exits leaves the package's state as it found it. *)
Definition gworld : Type := world (V := V) (T := T) (F := F).

Definition answer_of {A} (w : gworld) (k : A -> answer) (o : outcome fatal (gworld * A)) : gworld * answer :=
  match o with Ret (w', x) => (w', k x) | Panic => (w, Panics) | Fail _ => (w, Exits) end.
Definition done_of (w : gworld) (o : outcome fatal gworld) : gworld * answer :=
  match o with Ret w' => (w', Done) | Panic => (w, Panics) | Fail _ => (w, Exits) end.
Definition error_answer (e : option gerror) : answer := match e with None => Done | Some e => Refused e end.

Definition thing_of (t : offer) : thing (V := V) (T := T) (F := F) :=
  match t with
  | OfferNil => ThingNil
  | OfferValue v => ThingValue v
  | OfferFunc ins outs body => ThingFunc ins outs (option_map (fun r w => (w, r)) body)
  end.

Definition close_answer (during : gworld -> gworld) (w : gworld) a : gworld * answer :=
  match closePhase during w a with
  | Ret (Some (w', e)) => (w', error_answer e)
  | Ret None => (during w, Blocks)
  | Panic => (w, Panics)
  | Fail _ => (w, Exits)
  end.

(** The cleanups here register nothing more. *)
Definition inert (_ : F) (w : gworld) : gworld := w.
Definition settled (_ : list F) (w : gworld) : gworld := w.

Definition ran_of (w : gworld) (r : option (list F * gworld)) : gworld * answer :=
  match r with Some (fs, w') => (w', Ran fs) | None => (w, Blocks) end.

Definition g_op (w : gworld) (o : op) : gworld * answer :=
  match o with
  | ORegister a frames t => answer_of w Got (Register w a frames (thing_of t))
  | OWgAdd a => (put w a (set_wg (state_at w a) (S (wg (state_at w a)))), Done)
  | OWgDone a =>
      match wg (state_at w a) with
      | O => (w, Panics)
      | S n => (put w a (set_wg (state_at w a) n), Done)
      end
  | ODefer f => done_of w (Defer w f)
  | ODeferSelf a f => done_of w (DeferSelf w a f)
  | OSelf a => answer_of w (fun r => match r with inl s => Saw s | inr e => Refused e end) (CurrentSelf w a)
  | OTrait a typ filters =>
      answer_of w (fun r => match r with inl v => Found v | inr e => Refused e end) (TraitOf typ w a filters)
  | OClose a => close_answer id w a
  | ODrain a => ran_of w (drainSelfDeferred inert settled 2 a w)
  | OExit => ran_of w (drainShutdown inert settled 2 w)
  end.

Definition g_ops (os : list op) (w : gworld) : gworld := fold_left (fun w o => fst (g_op w o)) os w.

Definition init_of (i : initialiser) : init_fn (V := V) (T := T) (F := F) := fun w => (g_ops (fst i) w, snd i).
Definition work_of (work : list op * bool) : work_fn (V := V) (T := T) (F := F) := fun _ w => (g_ops (fst work) w, snd work).

Definition self_view (st : selfState (V := V) (T := T) (F := F)) : aself :=
  ASelf (omap Complex (traits st)) (wg st) (frozen st) (deferred st) (inception st).

Definition g_spark (w : gworld) p a now primary inits others work : gworld * answer :=
  match SparkAs w p (Some (work_of work)) (Some (init_of primary)) with
  | Ret (w', inl (wf, pf, parent)) =>
      if (a =? 0)%nat then (w', Ended (inr Exited))
      else if negb (fresh_self (self_view (state_at w' a))) then (w', Busy)
      else match spark_child inert settled 2 (g_ops others) now parent pf (map (option_map init_of) inits) wf a w' with
           | Some (r, w'') => (w'', Ended r)
           | None => (w', Blocks)
           end
  | Ret (w', inr e) => (w', Refused e)
  | Panic => (w, Panics)
  | Fail _ => (w, Exits)
  end.

Definition g_event (w : gworld) (e : event) : gworld * answer :=
  match e with
  | Op o => g_op w o
  | Close a others => close_answer (g_ops others) w a
  | Spark p a now primary inits others work => g_spark w p a now primary inits others work
  | Forget a => (onBlockFinalized w a, Done)
  end.

Fixpoint g_run (es : list event) (w : gworld) : gworld * list answer :=
  match es with
  | [] => (w, [])
  | e :: es => let '(w, r) := g_event w e in let '(w, rs) := g_run es w in (w, r :: rs)
  end.

(** ** The simulation *)

Record sim (w : gworld) (s : asystem) : Prop := {
  sim_ok : world_ok w;
  sim_selves : forall a, self_view (state_at w a) = selves s a;
  sim_exit : shutdown w = at_exit s;
  sim_main : mainBlockAddr w = main;
  sim_birth : mainInception w = birth;
}.

Implicit Types (w : gworld) (s : asystem).

(** A step on both sides. *)
Definition agree (r : gworld * answer) (q : asystem * answer) : Prop := sim (fst r) (fst q) /\ snd r = snd q.

Lemma state_at_put_ne w a b st : a <> b -> state_at (put w a st) b = state_at w b.
Proof. intros H; unfold state_at; rewrite lookup_put, decide_False by exact H; reflexivity. Qed.

Lemma sim_put w s a st (x : aself) :
  sim w s -> state_ok st -> self_view st = x -> sim (put w a st) (a_put s a x).
Proof.
  intros [H1 H2 H3 H4 H5] Ok <-; split; [apply world_ok_put; assumption| |exact H3|exact H4|exact H5].
  intros b; cbn [a_put selves]; destruct (Nat.eqb_spec b a) as [->|N]; [rewrite state_at_put; reflexivity|].
  rewrite state_at_put_ne by auto; apply H2.
Qed.

Lemma sim_state w s a : sim w s -> state_ok (state_at w a).
Proof. intros H; exact (state_ok_at w a (sim_ok w s H)). Qed.

Lemma sim_touch w s a : sim w s -> sim (put w a (state_at w a)) s.
Proof.
  intros H; destruct (sim_put w s a (state_at w a) (selves s a) H (sim_state w s a H) (sim_selves w s H a)) as [H1 H2 H3 H4 H5].
  split; try assumption; intros b; rewrite H2; cbn; destruct (Nat.eqb_spec b a) as [->|]; reflexivity.
Qed.

Lemma sim_shutdown w s fs : sim w s -> sim (set_shutdown w fs) (a_at_exit s fs).
Proof. intros [H1 H2 H3 H4 H5]; split; [exact H1|exact H2|reflexivity|exact H4|exact H5]. Qed.

Lemma sim_put_put w s a st (x : aself) :
  sim w s -> state_ok st -> self_view st = x -> sim (put (put w a (state_at w a)) a st) (a_put s a x).
Proof. rewrite put_put; apply sim_put. Qed.

Lemma agree_same w s a r : sim w s -> agree (put w a (state_at w a), r) (s, r).
Proof. intros H; split; [apply sim_touch, H|reflexivity]. Qed.

(** The fields of a self, one by one. *)
Lemma sim_fields w s a :
  sim w s ->
  omap Complex (traits (state_at w a)) = vals (selves s a) /\ wg (state_at w a) = waits (selves s a) /\
  frozen (state_at w a) = closed (selves s a) /\ deferred (state_at w a) = cleanups (selves s a) /\
  inception (state_at w a) = since (selves s a).
Proof. intros H; rewrite <- (sim_selves w s H a); repeat split. Qed.

(** The recorded traits are the values with this package's origin. *)
Lemma traits_vals ts idx : self_ok ts idx -> ts = map a_trait (omap Complex ts).
Proof.
  intros [H _ _]; induction H as [|[m p [v|]] ts [Hc Ho] _ IH]; cbn; [reflexivity| |contradiction].
  injection Ho as -> ->; f_equal; exact IH.
Qed.

Lemma index_vals ts idx v :
  self_ok ts idx -> idx !! Some (TypeOf v) = None <-> TypeOf v ∉ map TypeOf (omap Complex ts).
Proof.
  intros Ok; rewrite (self_ok_types ts idx _ Ok), list_elem_of_In; pose proof (traits_vals ts idx Ok) as E.
  enough (types_of ts = map Some (map TypeOf (omap Complex ts))) as ->.
  { split; intros N Hi; apply N; [apply in_map, Hi|apply in_map_iff in Hi as (t & [= ->] & Hi); exact Hi]. }
  rewrite E at 1; unfold types_of; rewrite !map_map; reflexivity.
Qed.

(** *** Registration *)

Lemma register_any w s a frames v :
  sim w s -> a <> 0%nat -> callerOrigin frames = genesis_origin ->
  exists w' e, registerTraitAny w a frames (Some v) = Ret (w', e) /\
    if admits (selves s a) v
    then e = None /\ sim w' (a_put s a (with_vals (selves s a) (vals (selves s a) ++ [v])))
    else e <> None /\ sim w' s.
Proof.
  intros H Ha Ho; pose proof (sim_state w s a H) as Ok; destruct (sim_fields w s a H) as (E1 & E2 & E3 & E4 & E5).
  unfold registerTraitAny; rewrite with_state_live by exact Ha; rewrite Ho; cbn [genesis_origin].
  change (let '(module, pkg) := genesis_origin in ?k) with k; rewrite add_trait_spec by exact Ok.
  unfold admits; rewrite <- E3, <- E1; pose proof (index_vals _ _ v Ok) as Ix.
  destruct (frozen (state_at w a)) eqn:Ef; cbn [negb andb].
  { eexists _, _; split; [reflexivity|]; split; [discriminate|rewrite put_put; apply sim_touch, H]. }
  destruct (typeIdx (state_at w a) !! Some (TypeOf v)) as [i|] eqn:Ei.
  - destruct (so_range _ _ Ok _ _ Ei) as (tr & -> & _); cbn [bind].
    rewrite bool_decide_false by (intros N; apply Ix in N; discriminate).
    eexists _, _; split; [reflexivity|]; split; [discriminate|rewrite put_put; apply sim_touch, H].
  - rewrite bool_decide_true by (apply Ix; reflexivity); cbn [bind].
    eexists _, _; split; [reflexivity|]; split; [reflexivity|]; apply sim_put_put; [exact H| |].
    + exact (self_ok_snoc _ _ (a_trait v) Ok ltac:(split; [discriminate|reflexivity]) Ei).
    + unfold self_view, with_vals; cbn [traits wg frozen deferred inception]; rewrite omap_app; cbn.
      f_equal; [exact E2|congruence|exact E4|exact E5].
Qed.

Lemma in_init_spec frames : mustBeInInitPhase frames = in_init frames.
Proof.
  apply eq_bool_prop_intro; unfold mustBeInInitPhase, in_init; rewrite bool_decide_spec, !list_elem_of_In.
  rewrite Is_true_true, existsb_exists; split.
  - intros (f & Hf & E); apply orb_true_iff in E as [E|E]; apply bytes_eqb_eq in E; subst f; auto.
  - intros [Hf|Hf]; eexists; (split; [exact Hf|]); apply orb_true_iff; [left|right]; apply bytes_eqb_eq; reflexivity.
Qed.

(** What a value on offer leads to. *)
Definition a_value s a (v : option V) : asystem * answer :=
  match v with
  | Some x =>
      if (a =? 0)%nat then (s, Exits)
      else if admits (selves s a) x then (a_put s a (with_vals (selves s a) (vals (selves s a) ++ [x])), Got v)
      else (s, Panics)
  | None => (s, Panics)
  end.

Lemma agree_value w w0 s a frames (v : option V) :
  sim w s -> sim w0 s ->
  agree (answer_of w Got (registerValue w0 a (register_frames ++ frames) v)) (a_value s a v).
Proof.
  intros H H0; destruct v as [x|]; [|split; [exact H|reflexivity]]; unfold registerValue, a_value.
  destruct (Nat.eqb_spec a 0) as [->|Ha]; [split; [exact H|reflexivity]|].
  destruct (register_any w0 s a _ x H0 Ha (register_frames_origin frames)) as (w' & e & -> & R); cbn [bind].
  destruct (admits _ _); destruct R as [He R]; [subst e; split; [exact R|reflexivity]|].
  destruct e; [split; [exact H|reflexivity]|contradiction].
Qed.

Lemma agree_called w w0 s a frames body :
  sim w s -> sim w0 s ->
  agree (answer_of w Got (bind (call_init (option_map (fun (r : option (option V)) w => (w, r)) body) w0)
           (fun '(w, out) => registerValue w a (register_frames ++ frames) out)))
        (match body with Some (Some v) => a_value s a v | _ => (s, Panics) end).
Proof.
  intros H H0; destruct body as [[v|]|]; cbn [option_map call_init bind]; try (split; [exact H|reflexivity]).
  apply agree_value; assumption.
Qed.

Lemma agree_register w s a frames t : sim w s -> agree (g_op w (ORegister a frames t)) (a_op s (ORegister a frames t)).
Proof.
  intros H; cbn [g_op a_op]; unfold Register, a_register; rewrite in_init_spec.
  assert (P : agree (w, Panics) (s, Panics)) by (split; [exact H|reflexivity]).
  destruct (in_init frames); cbn [negb]; [|exact P].
  assert (Fold : forall o : option (option V), match o with Some (Some v) =>
      if (a =? 0)%nat then (s, Exits)
      else if admits (selves s a) v then (a_put s a (with_vals (selves s a) (vals (selves s a) ++ [v])), Got (Some v))
      else (s, Panics) | _ => (s, Panics) end = match o with Some v => a_value s a v | None => (s, Panics) end)
    by (intros [[v|]|]; reflexivity).
  rewrite Fold; destruct t as [|v|ins outs body]; cbn [thing_of registerDispatch asks_group offered];
    rewrite ?andb_false_r; [exact P|apply agree_value; exact H|].
  destruct ins as [|i [|? ?]], outs as [|o [|? ?]]; cbn [asks_group offered]; rewrite ?andb_false_r; try exact P.
  - pose proof (agree_called w w s a frames body H H) as G; destruct body as [[v|]|]; exact G.
  - destruct (bool_decide (i = waitGroupType)); rewrite ?andb_false_r, ?andb_true_r; cbn [andb];
      [|destruct body as [r|]; exact P].
    unfold phaseWaitGroup; destruct (Nat.eqb_spec a 0) as [->|Ha]; [split; [exact H|reflexivity]|].
    rewrite with_state_live by exact Ha; cbn [bind].
    destruct (sim_fields w s a H) as (_ & _ & -> & _).
    destruct (closed (selves s a)); cbn [negb]; [destruct body as [r|]; exact P|].
    pose proof (agree_called w (put w a (state_at w a)) s a frames body H (sim_touch w s a H)) as G.
    destruct body as [[v|]|]; exact G.
Qed.

(** *** Queries *)

Lemma filters_match_spec filters v : filters_match filters (a_trait v) = filters_accept filters.
Proof.
  assert (B : forall x y : list Z, bytes_eqb x y = bool_decide (y = x)).
  { intros x y; apply eq_bool_prop_intro; rewrite bool_decide_spec, Is_true_true, bytes_eqb_eq; split; congruence. }
  destruct filters as [|m [|p rest]]; cbn [filters_match filters_accept a_trait Module Package]; rewrite ?B; reflexivity.
Qed.

Lemma lookup_vals typ filters vs :
  lookup_trait typ filters (map a_trait vs) =
  if filters_accept filters then List.find (fun v => bool_decide (TypeOf v = typ)) vs else None.
Proof.
  unfold lookup_trait; induction vs as [|v vs IH]; cbn [map List.find]; [destruct (filters_accept _); reflexivity|].
  unfold trait_matches at 1; rewrite filters_match_spec; cbn [a_trait Complex reflect_TypeOf].
  assert (bool_decide (reflect_TypeOf (Some v) = Some typ) = bool_decide (TypeOf v = typ)) as ->.
  { apply bool_decide_ext; cbn; split; congruence. }
  destruct (bool_decide (TypeOf v = typ)), (filters_accept filters); cbn [andb]; try reflexivity; exact IH.
Qed.

Lemma agree_query w s a typ filters : sim w s -> agree (g_op w (OTrait a typ filters)) (a_op s (OTrait a typ filters)).
Proof.
  intros H; cbn [g_op a_op]; destruct (Nat.eqb_spec a 0) as [->|Ha]; [split; [exact H|reflexivity]|].
  pose proof (sim_state w s a H) as Ok; destruct (sim_fields w s a H) as (E1 & _ & E3 & _); unfold a_query; rewrite <- E3, <- E1.
  destruct (frozen (state_at w a)) eqn:Ef; cbn [negb].
  - rewrite (TraitOf_closed typ w a filters Ha Ok Ef), (traits_vals _ _ Ok) at 1; rewrite lookup_vals.
    destruct (filters_accept filters); cbn [negb]; [destruct (List.find _ _)|]; apply (agree_same w s a _ H).
  - unfold TraitOf; rewrite with_state_live, Ef by exact Ha; apply (agree_same w s a _ H).
Qed.

Lemma self_of w s a :
  sim w s -> a <> 0%nat ->
  CurrentSelf w a = Ret (put w a (state_at w a),
    if closed (selves s a) then inl (MkSelf (map a_trait (vals (selves s a))) (since (selves s a))) else inr ErrPhaseOpen).
Proof.
  intros H Ha; unfold CurrentSelf; rewrite with_state_live by exact Ha.
  destruct (sim_fields w s a H) as (<- & _ & <- & _ & <-); rewrite <- (traits_vals _ _ (sim_state w s a H)).
  destruct (frozen (state_at w a)); reflexivity.
Qed.

Lemma agree_self w s a : sim w s -> agree (g_op w (OSelf a)) (a_op s (OSelf a)).
Proof.
  intros H; cbn [g_op a_op]; destruct (Nat.eqb_spec a 0) as [->|Ha]; [split; [exact H|reflexivity]|].
  rewrite (self_of w s a H Ha); destruct (closed (selves s a)); apply (agree_same w s a _ H).
Qed.

(** *** Closing, deferring, draining *)

Lemma agree_close during aduring w s a :
  (forall w s, sim w s -> sim (during w) (aduring s)) -> sim w s ->
  agree (close_answer during w a) (a_close aduring s a).
Proof.
  intros D H; unfold close_answer, a_close, closePhase.
  destruct (Nat.eqb_spec a 0) as [->|Ha]; [split; [exact H|reflexivity]|].
  rewrite with_state_live by exact Ha; pose proof (sim_touch w s a H) as H1.
  destruct (sim_fields w s a H) as (_ & _ & -> & _); destruct (closed (selves s a)); [split; [exact H1|reflexivity]|].
  pose proof (D _ _ H1) as H2; destruct (sim_fields _ _ a H2) as (F1 & F2 & F3 & F4 & F5).
  cbv zeta; rewrite F2, F3; destruct (negb _) eqn:Ew; [split; [exact (D _ _ H)|reflexivity]|].
  destruct (closed (selves (aduring s) a)) eqn:Ec; [split; [exact H2|reflexivity]|].
  split; [|reflexivity]; apply sim_put; [exact H2|exact (sim_state _ _ a H2)|].
  rewrite <- (sim_selves _ _ H2 a); reflexivity.
Qed.

Lemma agree_defer w s (f : F) : sim w s -> agree (done_of w (Defer w (Some f))) (a_at_exit s (at_exit s ++ [f]), Done).
Proof. intros H; rewrite <- (sim_exit w s H); split; [exact (sim_shutdown w s _ H)|reflexivity]. Qed.

Lemma agree_defer_self w s a f : sim w s -> agree (g_op w (ODeferSelf a f)) (a_op s (ODeferSelf a f)).
Proof.
  intros H; cbn [g_op a_op]; destruct f as [x|]; [|split; [exact H|reflexivity]]; unfold DeferSelf.
  destruct (Nat.eqb_spec a 0) as [->|Ha]; [split; [exact H|reflexivity]|].
  rewrite (sim_main w s H); destruct (a =? main)%nat; [apply agree_defer, H|].
  rewrite with_state_live by exact Ha; split; [|reflexivity].
  apply sim_put_put; [exact H|exact (sim_state w s a H)|].
  rewrite <- (sim_selves w s H a); reflexivity.
Qed.

Lemma drain_self w s a :
  sim w s -> exists w', drainSelfDeferred inert settled 2 a w = Some (rev (cleanups (selves s a)), w') /\ sim w' (a_drain s a).
Proof.
  intros H; destruct (sim_fields w s a H) as (_ & _ & _ & <- & _).
  assert (E : sim (put w a (set_deferred (state_at w a) [])) (a_drain s a)).
  { apply sim_put; [exact H|exact (sim_state w s a H)|]; rewrite <- (sim_selves w s H a); reflexivity. }
  cbn [drainSelfDeferred]; destruct (deferred (state_at w a)) as [|f fns] eqn:Ed; [eexists; split; [reflexivity|exact E]|].
  cbn [length Nat.eqb]; unfold runDeferred, settled, inert.
  assert (forall l (w : gworld), fold_left (fun w (_ : F) => w) l w = w) as -> by (induction l; auto).
  rewrite state_at_put; cbn [set_deferred deferred length Nat.eqb]; eexists; split; [rewrite app_nil_r; reflexivity|].
  rewrite put_put; exact E.
Qed.

Lemma agree_exit w s : sim w s -> agree (g_op w OExit) (a_op s OExit).
Proof.
  intros H; cbn [g_op a_op]; rewrite <- (sim_exit w s H); pose proof (sim_shutdown w s [] H) as E.
  cbn [drainShutdown]; destruct (shutdown w) as [|f fns] eqn:Es; [split; [exact E|reflexivity]|].
  cbn [length Nat.eqb]; unfold runDeferred, settled, inert.
  assert (forall l (w : gworld), fold_left (fun w (_ : F) => w) l w = w) as -> by (induction l; auto).
  cbn [shutdown length Nat.eqb ran_of]; rewrite app_nil_r; split; [exact E|reflexivity].
Qed.

Lemma agree_op w s o : sim w s -> agree (g_op w o) (a_op s o).
Proof.
  intros H; destruct o as [a fr t|a|a|f|a f|a|a typ fs|a|a|]; cbn [g_op a_op].
  - apply agree_register, H.
  - split; [|reflexivity]; apply sim_put; [exact H|exact (sim_state w s a H)|]; rewrite <- (sim_selves w s H a); reflexivity.
  - destruct (sim_fields w s a H) as (_ & -> & _); destruct (waits (selves s a)); [split; [exact H|reflexivity]|].
    split; [|reflexivity]; apply sim_put; [exact H|exact (sim_state w s a H)|]; rewrite <- (sim_selves w s H a); reflexivity.
  - destruct f as [f|]; [apply agree_defer, H|split; [exact H|reflexivity]].
  - apply agree_defer_self, H.
  - apply agree_self, H.
  - apply agree_query, H.
  - apply agree_close; [auto|exact H].
  - destruct (drain_self w s a H) as (w' & -> & R); split; [exact R|reflexivity].
  - apply agree_exit, H.
Qed.

Lemma sim_ops os w s : sim w s -> sim (g_ops os w) (a_ops os s).
Proof.
  revert w s; induction os as [|o os IH]; intros w s H; [exact H|]; apply IH, agree_op, H.
Qed.

(** *** Sparks *)

Definition a_admit (s : asystem) a (r : option (option V)) : option V :=
  match r with Some (Some v) => if admits (selves s a) v then Some v else None | _ => None end.

Lemma contribute_one {A} a (i : initialiser) (k : option V -> cmd (V := V) (T := T) (F := F) A) w s :
  sim w s -> a <> 0%nat ->
  exists w', let s1 := a_ops (fst i) s in
    cbind (call (init_of i)) (fun v : option V => cbind (register_child a v) (fun _ => k v)) w =
    match a_admit s1 a (snd i) with Some v => k (Some v) w' | None => (inr Panicked, w') end /\
    match a_admit s1 a (snd i) with
    | Some v => sim w' (a_put s1 a (with_vals (selves s1 a) (vals (selves s1 a) ++ [v])))
    | None => sim w' s1
    end.
Proof.
  intros H Ha; pose proof (sim_ops (fst i) w s H) as H1; destruct i as [os r]; unfold cbind at 1, call, init_of.
  cbn [fst snd] in *; destruct r as [[v|]|]; cbn [a_admit]; [|exists (g_ops os w); split; [reflexivity|exact H1]..].
  unfold cbind, register_child, lift.
  destruct (register_any _ _ a spark_frames v H1 Ha spark_frames_origin) as (w' & e & X & R); unfold cbind; rewrite X.
  exists w'; destruct (admits _ _); destruct R as [He R]; [subst e; split; [reflexivity|exact R]|].
  destruct e; [split; [reflexivity|exact R]|contradiction].
Qed.

Lemma a_contribute_cons a (i : initialiser) inits s :
  a_contribute a (Some i :: inits) s =
  let s1 := a_ops (fst i) s in
  match a_admit s1 a (snd i) with
  | Some v => a_contribute a inits (a_put s1 a (with_vals (selves s1 a) (vals (selves s1 a) ++ [v])))
  | None => (false, s1)
  end.
Proof. destruct i as [os [[v|]|]]; cbn [a_contribute a_admit fst snd]; try reflexivity; destruct (admits _ _); reflexivity. Qed.

Lemma sim_additional a inits w s :
  sim w s -> a <> 0%nat ->
  let q := a_contribute a inits s in
  exists w', additional a (map (option_map init_of) inits) w = ((if fst q then inl tt else inr Panicked), w') /\ sim w' (snd q).
Proof.
  intros H Ha; revert w s H; induction inits as [|[i|] inits IH]; intros w s H; cbn [map option_map additional];
    [exists w; split; [reflexivity|exact H]| |exists w; split; [reflexivity|exact H]].
  cbv zeta; rewrite a_contribute_cons; cbv zeta.
  destruct (contribute_one a i (fun _ => additional a (map (option_map init_of) inits)) w s H Ha) as (w' & E & R).
  cbv beta zeta in E, R; rewrite E; destruct (a_admit _ _ _) as [v|]; [exact (IH _ _ R)|exists w'; split; [reflexivity|exact R]].
Qed.

Lemma a_close_lives during s a : a <> 0%nat -> snd (a_close during s a) <> Exits.
Proof.
  intros Ha; unfold a_close; destruct (Nat.eqb_spec a 0); [contradiction|].
  destruct (closed _); [discriminate|]; destruct (negb _); [discriminate|]; destruct (closed _); discriminate.
Qed.

(** From the parent's values to the closed phase. *)
Definition a_genesis (s : asystem) a primary inits others : (unit + child_end) * asystem :=
  let '(ok, s) := a_contribute a (Some primary :: inits) s in
  if negb ok then (inr Panicked, s)
  else match a_close (a_ops others) s a with
       | (s, Done) => (inl tt, s)
       | (s, Blocks) => (inr Blocked, s)
       | (s, _) => (inr Panicked, s)
       end.

Lemma sim_genesis a parent (primary : initialiser) inits others w s :
  sim (put w a (inherit (state_at w a) (Traits parent))) s -> a <> 0%nat ->
  let q := a_genesis s a primary inits others in
  exists r w', child_genesis (g_ops others) a parent (init_of primary) (map (option_map init_of) inits) w = (r, w') /\
    sim w' (snd q) /\
    match fst q with inl _ => exists u, r = inl u | inr e => r = inr e end.
Proof.
  intros H Ha; unfold child_genesis, cbind at 1; cbn [modify_state]; unfold a_genesis; rewrite a_contribute_cons.
  destruct (contribute_one a primary (fun primary : option V => cbind (additional a (map (option_map init_of) inits)) (fun _ =>
    cbind (close_child (g_ops others) a) (fun _ => cret primary))) _ s H Ha) as (w1 & E & R).
  cbv beta zeta in E, R |- *; rewrite E; destruct (a_admit _ _ _) as [v|]; [|eexists _, w1; split; [reflexivity|split; [exact R|reflexivity]]].
  destruct (sim_additional a inits w1 _ R Ha) as (w2 & E2 & R2); unfold cbind at 1; rewrite E2.
  destruct (a_contribute _ _ _) as [[] s2]; cbn [fst snd negb] in *; [|eexists _, w2; split; [reflexivity|split; [exact R2|reflexivity]]].
  destruct (agree_close (g_ops others) (a_ops others) w2 s2 a (sim_ops others) R2) as [R3 A3].
  pose proof (a_close_lives (a_ops others) s2 a Ha) as L.
  unfold cbind, close_child; unfold close_answer in R3, A3.
  destruct (a_close _ _ _) as [s3 ans]; destruct (closePhase (g_ops others) w2 a) as [[[w3 [e|]]|]|f|];
    cbn [fst snd error_answer no_error cret cthrow] in *; subst ans; try contradiction;
    (eexists _, _; split; [reflexivity|split; [exact R3|]]); [reflexivity|eexists; reflexivity|reflexivity|reflexivity].
Qed.

(** The state a child starts from. *)
Lemma sim_birth_state w s p a now :
  sim w s -> fresh_self (self_view (state_at w a)) = true ->
  let w1 := put w a (set_inception (state_at w a) now) in
  sim (put w1 a (inherit (state_at w1 a) (traits (state_at w p))))
      (a_put s a (ASelf (vals (selves s p)) 0 false [] now)).
Proof.
  intros H Hf w1; unfold w1; rewrite state_at_put, put_put.
  set (st := state_at w a) in *; pose proof (sim_state w s a H) as Ok; fold st in Ok.
  unfold fresh_self in Hf; rewrite !andb_true_iff, !Nat.eqb_eq, negb_true_iff in Hf.
  destruct Hf as (((F1 & F2) & F3) & F4); cbn [self_view vals waits closed cleanups] in *.
  assert (Et : traits st = []).
  { rewrite (traits_vals _ _ Ok); destruct (omap Complex (traits st)); [reflexivity|discriminate]. }
  assert (Ei : typeIdx st = ∅).
  { apply map_eq; intros k; rewrite lookup_empty; destruct (typeIdx st !! k) as [i|] eqn:E; [|reflexivity].
    destruct (so_range _ _ Ok _ _ E) as (tr & Hi & _); rewrite Et, lookup_nil in Hi; discriminate. }
  destruct (inherit_spec (traits (state_at w p)) (set_inception st now)) as (I1 & I2 & I3 & I4 & I5).
  apply sim_put; [exact H|exact (inherit_ok _ _ (set_inception st now) (sim_state w s p H) Et Ei)|].
  unfold self_view; rewrite I1, I2, I3, I4, I5; cbn [set_inception traits frozen wg deferred inception]; rewrite Et.
  cbn [app]; destruct (sim_fields w s p H) as (-> & _); rewrite F2, F3.
  destruct (deferred st); [reflexivity|discriminate].
Qed.

Lemma agree_child w s p a now primary inits others (work : list op * bool) parent :
  sim w s -> a <> 0%nat -> fresh_self (selves s a) = true -> Traits parent = traits (state_at w p) ->
  exists r w', spark_child inert settled 2 (g_ops others) now parent (init_of primary) (map (option_map init_of) inits)
      (work_of work) a w = Some (r, w') /\
    let '(q, s1) := a_genesis (a_put s a (ASelf (vals (selves s p)) 0 false [] now)) a primary inits others in
    match q with
    | inl _ => r = (if snd work then inl tt else inr Panicked) /\ sim w' (a_drain (a_ops (fst work) s1) a)
    | inr Panicked => r = inr Panicked /\ sim w' (a_drain s1 a)
    | inr e => r = inr e /\ sim w' s1
    end.
Proof.
  intros H Ha Hf Hp; unfold spark_child.
  assert (stateForCurrent w a = Some (state_at w a, put w a (state_at w a))) as ->.
  { destruct (stateForCurrent w a) as [[st w0]|] eqn:E.
    - apply stateForCurrent_Some in E as (_ & -> & ->); reflexivity.
    - unfold stateForCurrent in E; destruct (Nat.eqb_spec a 0); [contradiction|]; destruct (registry w !! a); discriminate. }
  rewrite put_put; pose proof (sim_birth_state w s p a now H) as B; rewrite (sim_selves w s H a) in B.
  specialize (B Hf); cbv zeta in B; rewrite <- Hp in B.
  destruct (sim_genesis a parent primary inits others _ _ B Ha) as (r & w1 & E & R & X); unfold cbind; rewrite E.
  destruct (a_genesis _ _ _ _ _) as [q s1]; cbn [fst snd] in *; destruct q as [[]|e].
  - destruct X as [u ->]; unfold run_work, work_of; pose proof (sim_ops (fst work) _ _ R) as R2.
    destruct (drain_self _ _ a R2) as (w2 & D & R3); destruct work as [os []]; cbn [fst snd] in *; rewrite D;
      eexists _, _; (split; [reflexivity|split; [reflexivity|exact R3]]).
  - subst r; destruct (drain_self _ _ a R) as (w2 & D & R3).
    destruct e; [rewrite D|..]; eexists _, _; (split; [reflexivity|split; [reflexivity|assumption]]).
Qed.

Lemma agree_spark w s p a now primary inits others (work : list op * bool) :
  sim w s -> agree (g_spark w p a now primary inits others work) (a_spark s p a now primary inits others work).
Proof.
  intros H; unfold g_spark, a_spark, SparkAs; destruct (Nat.eqb_spec p 0) as [->|Hp]; [split; [exact H|reflexivity]|].
  rewrite (self_of w s p H Hp); cbn [bind]; pose proof (sim_touch w s p H) as H1.
  destruct (closed (selves s p)); cbn [negb]; [|split; [exact H1|reflexivity]].
  destruct (Nat.eqb_spec a 0) as [->|Ha]; [split; [exact H1|reflexivity]|].
  rewrite (sim_selves _ _ H1 a); destruct (fresh_self (selves s a)) eqn:Ef; cbn [negb]; [|split; [exact H1|reflexivity]].
  destruct (agree_child _ s p a now primary inits others work (MkSelf (map a_trait (vals (selves s p))) (since (selves s p))) H1 Ha Ef)
    as (r & w' & -> & X).
  { cbn [Traits]; destruct (sim_fields _ _ p H1) as (<- & _); symmetry; exact (traits_vals _ _ (sim_state _ _ p H1)). }
  unfold a_genesis in X; destruct (a_contribute _ _ _) as [[] s1]; cbn [negb] in *;
    [|destruct X as [-> X]; split; [exact X|reflexivity]].
  destruct (a_close _ _ _) as [s2 []]; destruct X as [-> X]; (split; [exact X|reflexivity]).
Qed.

Lemma agree_event w s e : sim w s -> agree (g_event w e) (a_event s e).
Proof.
  intros H; destruct e as [o|a others|p a now pr inits others work|a]; cbn [g_event a_event].
  - apply agree_op, H.
  - apply agree_close; [apply sim_ops|exact H].
  - apply agree_spark, H.
  - split; [|reflexivity]; destruct H as [H1 H2 H3 H4 H5]; split; try assumption.
    + intros b st; cbn; rewrite lookup_delete; case_decide; [discriminate|apply H1].
    + intros b; unfold state_at; cbn; rewrite lookup_delete; destruct (Nat.eqb_spec b a) as [->|N].
      * rewrite decide_True by reflexivity; cbn; unfold new_state, newborn; cbn; rewrite H4, H5; reflexivity.
      * rewrite decide_False by auto; apply H2.
Qed.

Lemma sim_boot : sim (boot_world main birth) a_boot.
Proof.
  split; [apply boot_world_ok| |reflexivity..]; intros a; unfold state_at; cbn [boot_world registry].
  rewrite lookup_empty; reflexivity.
Qed.

Lemma sim_run es w s : sim w s -> sim (fst (g_run es w)) (fst (a_run es s)) /\ snd (g_run es w) = snd (a_run es s).
Proof.
  revert w s; induction es as [|e es IH]; intros w s H; [split; [exact H|reflexivity]|]; cbn [g_run a_run].
  destruct (agree_event w s e H) as [H1 E1]; destruct (g_event w e) as [w1 r], (a_event s e) as [s1 q].
  cbn [fst snd] in *; destruct (IH w1 s1 H1) as [H2 E2]; destruct (g_run es w1), (a_run es s1).
  cbn [fst snd] in *; split; [exact H2|congruence].
Qed.

(** ** The contract *)

(** C36: Any program, as a sequence of calls by any identities - registrations of the three
    shapes, wait groups, deferrals at both scales, queries, phase closes with calls of
    others in between, whole sparks, drains of cleanups that register nothing more,
    evictions - gets from the package exactly the answers of the abstract machine, and
    leaves every self with the machine's values, group count, flag, cleanups and birth,
    and the machine's exit list.  In that machine a registration is refused when the
    phase is closed or the type taken, cleanups accumulate in order, a close waits for
    its group and happens once, and a child starts from its closed parent's values. *)
Theorem genesis_refines es :
  let '(w, answers) := g_run es (boot_world main birth) in
  let '(s, answers') := a_run es a_boot in
  answers = answers' /\ (forall a, self_view (state_at w a) = selves s a) /\ shutdown w = at_exit s.
Proof.
  destruct (sim_run es _ _ sim_boot) as [H E]; destruct (g_run es _) as [w rs], (a_run es _) as [s qs].
  split; [exact E|split; [exact (sim_selves w s H)|exact (sim_exit w s H)]].
Qed.
End GenesisSpec.

(** Main (block 7, born at 1000) registers 42, fails to register another value of its
    type, waits for its group, closes, and sparks a child that adds 13. *)
Definition demo_program : list (event (V := nat) (T := nat) (F := nat)) :=
  [ Op (ORegister 7 demo_frames (OfferValue 42));
    Op (ORegister 7 demo_frames (OfferFunc [] [2%nat] (Some (Some (Some 52)))));
    Op (OTrait 7 2 []); Op (OWgAdd 7); Close 7 []; Close 7 [OWgDone 7];
    Op (OTrait 7 2 []); Op (OTrait 7 2 [str "example.com/app"]);
    Op (ODeferSelf 7 (Some 3)); Op (ODefer (Some 4));
    Spark 7 8 50 ([ODeferSelf 8 (Some 1)], Some (Some 13)) [] [] ([], true);
    Op (OSelf 8); Op OExit ]%nat.

Definition demo_answers : list (answer (V := nat) (F := nat)) :=
  [ Got (Some 42); Panics; Refused ErrPhaseOpen; Done; Blocks; Done; Found 42; Refused ErrNotFound; Done; Done;
    Ended (inl tt); Saw (MkSelf [a_trait 42; a_trait 13] 50); Ran [4; 3] ]%nat.

Lemma genesis_refines_witness :
  snd (g_run demo_program (boot_world 7 1000)) = demo_answers /\
  at_exit (fst (a_run (F := nat) 7 1000 demo_program (a_boot 7 1000))) = [].
Proof.
  pose proof (genesis_refines (F := nat) 7 1000 demo_program) as H.
  destruct (g_run demo_program _) as [w rs] eqn:E, (a_run 7 1000 demo_program _) as [s qs] eqn:E2.
  destruct H as (-> & _ & X); cbn [fst snd]; split.
  - change (snd (s, qs) = demo_answers); rewrite <- E2; vm_compute; reflexivity.
  - rewrite <- X; change (shutdown (fst (w, qs)) = []); rewrite <- E; vm_compute; reflexivity.
Defined.
