(* ===== verification/Idempotent.v ===== *)
(** * Idempotent: once per identity, with its locks

    sync/janos_idempotent.go as a machine of concurrent calls.  A call of [Do] or of the
    finalisation hook is a thread with a program counter at the points where it can block;
    what happens between two of them under a lock is one step.  Instances and identity
    blocks are numbers, a once-slot is its position in the list of all slots made. *)

From Stdlib Require Import ZArith Lia List Bool.
From stdpp Require Import base option list gmap.
From S2P Require Import Prelude Slices.
Import ListNotations.

(** ** State *)

(** A mutex: the thread that holds it. *)
Definition Mutex : Type := option nat.

Record Once : Type := MkOnce { done : bool; m : Mutex }.

Record Idempotent : Type := MkIdem {
  mu : Mutex;
  entries : gmap nat nat;
  registered : bool;
}.
Definition zero_idem : Idempotent := MkIdem None ∅ false.

(** Where a call is.  [Do] on instance [i] from identity block [a] :
    waiting for [i.mu]; holding it; holding it and waiting for the registry's; holding it
    and past registration; with its slot; waiting for the slot's mutex; running [f]
    under it; returned; thrown.  The hook for block [a]: waiting for the registry's
    mutex; walking the list; waiting for the mutex of an instance. *)
Inductive pc : Type :=
| DoLock (i a : nat)
| DoHeld (i a : nat)
| DoRegister (i a : nat)
| DoEntry (i a : nat)
| DoOnce (i a o : nat)
| DoSlow (i a o : nat)
| DoRun (i a o : nat)
| DoReturned (i a o : nat)
| Thrown
| FinLock (a : nat)
| FinWalk (a : nat) (rest kept : list nat)
| FinEvict (a j : nat) (rest kept : list nat)
| FinReturned.

(** What is recorded of a run: a call of [f] for a slot, and an eviction. *)
Inductive event : Type := Run (i a o : nat) | Evict (i a : nat).

Record state : Type := MkState {
  insts : gmap nat Idempotent;
  onces : list Once;
  reg_mu : Mutex;
  reg_list : list nat;
  collected : list nat;
  threads : list pc;
  log : list event;
}.

Definition inst (s : state) (i : nat) : Idempotent := default zero_idem (insts s !! i).
Definition set_inst (s : state) (i : nat) (x : Idempotent) : state :=
  MkState (<[i := x]> (insts s)) (onces s) (reg_mu s) (reg_list s) (collected s) (threads s) (log s).
Definition set_onces (s : state) (l : list Once) : state :=
  MkState (insts s) l (reg_mu s) (reg_list s) (collected s) (threads s) (log s).
Definition set_once (s : state) (o : nat) (x : Once) : state :=
  set_onces s (<[o := x]> (onces s)).
Definition set_reg (s : state) (mu : Mutex) (l : list nat) : state :=
  MkState (insts s) (onces s) mu l (collected s) (threads s) (log s).
Definition goto (s : state) (t : nat) (p : pc) : state :=
  MkState (insts s) (onces s) (reg_mu s) (reg_list s) (collected s) (<[t := p]> (threads s)) (log s).
Definition record (s : state) (e : event) : state :=
  MkState (insts s) (onces s) (reg_mu s) (reg_list s) (collected s) (threads s) (log s ++ [e]).

(** ** Operations *)

(** [entry, ok := i.entries[addr]; if !ok { entry = &Once{}; i.entries[addr] = entry };
    i.mu.Unlock()]: the slot and the new state. *)
Definition take_entry (s : state) (i a : nat) : nat * state :=
  let x := inst s i in
  match entries x !! a with
  | Some o => (o, set_inst s i (MkIdem None (entries x) (registered x)))
  | None =>
      let o := length (onces s) in
      (o, set_inst (set_onces s (onces s ++ [MkOnce false None])) i (MkIdem None (<[a := o]> (entries x)) (registered x)))
  end.

(** [selfRegister]: one critical section of the registry. *)
Definition selfRegister (s : state) (i : nat) : state := set_reg s (reg_mu s) (reg_list s ++ [i]).

(** [evictBlock]: one critical section of the instance. *)
Definition evictBlock (s : state) (j a : nat) : state :=
  let x := inst s j in
  record (set_inst s j (MkIdem (mu x) (delete a (entries x)) (registered x))) (Evict j a).

Definition free (x : Mutex) : bool := match x with None => true | Some _ => false end.

(** One step of thread [t]; [None] when it is blocked or has returned. *)
Definition exec (s : state) (t : nat) : option state :=
  match threads s !! t with
  | None => None
  | Some p =>
      match p with
      | DoLock i a =>
          let x := inst s i in
          if free (mu x) then Some (goto (set_inst s i (MkIdem (Some t) (entries x) (registered x))) t (DoHeld i a)) else None
      | DoHeld i a =>
          let x := inst s i in
          if negb (registered x)
          then Some (goto (set_inst s i (MkIdem (mu x) (entries x) true)) t (DoRegister i a))
          else Some (goto s t (DoEntry i a))
      | DoRegister i a => if free (reg_mu s) then Some (goto (selfRegister s i) t (DoEntry i a)) else None
      | DoEntry i a => let '(o, s) := take_entry s i a in Some (goto s t (DoOnce i a o))
      | DoOnce i a o =>
          match onces s !! o with
          | None => None
          | Some x => Some (goto s t (if done x then DoReturned i a o else DoSlow i a o))
          end
      | DoSlow i a o =>
          match onces s !! o with
          | None => None
          | Some x =>
              if negb (free (m x)) then None
              else if done x then Some (goto s t (DoReturned i a o))
              else Some (goto (record (set_once s o (MkOnce (done x) (Some t))) (Run i a o)) t (DoRun i a o))
          end
      | DoRun i a o => Some (goto (set_once s o (MkOnce true None)) t (DoReturned i a o))
      | FinLock a => if free (reg_mu s) then Some (goto (set_reg s (Some t) (reg_list s)) t (FinWalk a (reg_list s) [])) else None
      | FinWalk a [] kept => Some (goto (set_reg s None kept) t FinReturned)
      | FinWalk a (j :: rest) kept =>
          if bool_decide (j ∈ collected s) then Some (goto s t (FinWalk a rest kept))
          else Some (goto s t (FinEvict a j rest (kept ++ [j])))
      | FinEvict a j rest kept =>
          if free (mu (inst s j)) then Some (goto (evictBlock s j a) t (FinWalk a rest kept)) else None
      | DoReturned _ _ _ | Thrown | FinReturned => None
      end
  end.

(** The calls: [Do] throws without an identity. *)
Definition call_Do (s : state) (i a : nat) : state :=
  MkState (insts s) (onces s) (reg_mu s) (reg_list s) (collected s)
    (threads s ++ [if (a =? 0)%nat then Thrown else DoLock i a]) (log s).
Definition idempotentOnBlockFinalized (s : state) (a : nat) : state :=
  MkState (insts s) (onces s) (reg_mu s) (reg_list s) (collected s) (threads s ++ [FinLock a]) (log s).

(** The instance a thread has a pointer to. *)
Definition uses (p : pc) : option nat :=
  match p with
  | DoLock i _ | DoHeld i _ | DoRegister i _ | DoEntry i _ => Some i
  | FinEvict _ j _ _ => Some j
  | _ => None
  end.

(** The collector takes an instance nobody has a pointer to. *)
Definition collect (s : state) (i : nat) : state :=
  MkState (insts s) (onces s) (reg_mu s) (reg_list s) (i :: collected s) (threads s) (log s).

Inductive step : state -> state -> Prop :=
| step_thread s t s' : exec s t = Some s' -> step s s'
| step_do s i a : ~ In i (collected s) -> step s (call_Do s i a)
| step_fin s a : step s (idempotentOnBlockFinalized s a)
| step_gc s i : (forall t p, threads s !! t = Some p -> uses p <> Some i) -> step s (collect s i).

Definition start : state := MkState ∅ [] None [] [] [] [].

(** ** The invariant *)

Definition holds_inst (p : pc) : option nat :=
  match p with DoHeld i _ | DoRegister i _ | DoEntry i _ => Some i | _ => None end.
Definition holds_reg (p : pc) : option unit :=
  match p with FinWalk _ _ _ | FinEvict _ _ _ _ => Some tt | _ => None end.
Definition holds_once (p : pc) : option nat := match p with DoRun _ _ o => Some o | _ => None end.
Definition registering (p : pc) : option nat := match p with DoRegister i _ => Some i | _ => None end.
Definition slot_of (p : pc) : option (nat * nat * nat) :=
  match p with DoOnce i a o | DoSlow i a o | DoRun i a o | DoReturned i a o => Some (i, a, o) | _ => None end.
Definition returned (p : pc) : option nat := match p with DoReturned _ _ o => Some o | _ => None end.
Definition walking (p : pc) : option (list nat) :=
  match p with FinWalk _ rest kept => Some (rest ++ kept) | FinEvict _ j rest kept => Some (j :: rest ++ kept) | _ => None end.

(** What thread [t] is seen to do by [h]. *)
Definition at_pc {A} (h : pc -> option A) (s : state) (t : nat) : option A := threads s !! t ≫= h.

Definition run_slot (e : event) : option nat := match e with Run _ _ o => Some o | _ => None end.
Definition runs (s : state) (i a : nat) : nat :=
  length (List.filter (fun e => match e with Run j b _ => (i =? j)%nat && (a =? b)%nat | _ => false end) (log s)).
Definition evictions (l : list event) (i a : nat) : nat :=
  length (List.filter (fun e => match e with Evict j b => (i =? j)%nat && (a =? b)%nat | _ => false end) l).
Definition slots_of (owners : list (nat * nat)) (i a : nat) : nat :=
  length (List.filter (fun p => (i =? fst p)%nat && (a =? snd p)%nat) owners).

(** [owners] gives every slot the instance and block it was made for. *)
Record inv (s : state) (owners : list (nat * nat)) : Prop := {
  i_mu : forall i t, mu (inst s i) = Some t <-> at_pc holds_inst s t = Some i;
  i_reg : forall t, reg_mu s = Some t <-> at_pc holds_reg s t = Some tt;
  i_once : forall o x t, onces s !! o = Some x -> m x = Some t <-> at_pc holds_once s t = Some o;
  i_listed : forall j, j ∈ reg_list s -> registered (inst s j) = true;
  i_listed_once : forall j t, j ∈ reg_list s -> at_pc registering s t <> Some j;
  i_walked : forall j t l, at_pc walking s t = Some l -> j ∈ l -> registered (inst s j) = true;
  i_walked_once : forall j t l t', at_pc walking s t = Some l -> j ∈ l -> at_pc registering s t' <> Some j;
  i_pending : forall t i, at_pc registering s t = Some i -> registered (inst s i) = true;
  i_len : length owners = length (onces s);
  i_slot : forall t i a o, at_pc slot_of s t = Some (i, a, o) -> owners !! o = Some (i, a);
  i_entry : forall i a o, entries (inst s i) !! a = Some o -> owners !! o = Some (i, a);
  i_ran : forall o x, onces s !! o = Some x -> (done x = true \/ m x <> None) <-> exists i a, In (Run i a o) (log s);
  i_owner : forall i a o, In (Run i a o) (log s) -> owners !! o = Some (i, a);
  i_nodup : NoDup (omap run_slot (log s));
  i_count : forall i a, (slots_of owners i a <= evictions (log s) i a + (if entries (inst s i) !! a is Some _ then 1 else 0))%nat;
  i_returned : forall t o, at_pc returned s t = Some o -> exists x, onces s !! o = Some x /\ done x = true;
}.

(** ** Lemmas *)

Lemma at_goto {A} (h : pc -> option A) s t p t' :
  (t < length (threads s))%nat -> at_pc h (goto s t p) t' = if decide (t = t') then h p else at_pc h s t'.
Proof.
  intros H; unfold at_pc; cbn [goto threads]; case_decide as E; [subst t'; rewrite list_lookup_insert_eq by exact H; reflexivity|].
  rewrite list_lookup_insert_ne by exact E; reflexivity.
Qed.

Lemma at_spawn {A} (h : pc -> option A) ts p t' s :
  threads s = ts -> h p = None ->
  at_pc h (MkState (insts s) (onces s) (reg_mu s) (reg_list s) (collected s) (ts ++ [p]) (log s)) t' = at_pc h s t'.
Proof.
  intros E Hp; unfold at_pc; cbn [threads]; rewrite E; destruct (decide (t' < length ts)%nat) as [H|H].
  - rewrite lookup_app_l by exact H; reflexivity.
  - rewrite (lookup_ge_None_2 ts) by lia; rewrite lookup_app_r by lia; destruct (t' - length ts)%nat; [exact Hp|].
    reflexivity.
Qed.

Lemma inst_set s i x i' : inst (set_inst s i x) i' = if decide (i = i') then x else inst s i'.
Proof. unfold inst, set_inst; cbn [insts]; rewrite lookup_insert; case_decide; reflexivity. Qed.

Lemma inst_goto s t p i : inst (goto s t p) i = inst s i.
Proof. reflexivity. Qed.

Lemma at_here {A} (h : pc -> option A) s t p : threads s !! t = Some p -> at_pc h s t = h p.
Proof. intros H; unfold at_pc; rewrite H; reflexivity. Qed.

Lemma inv_start : inv start [].
Proof.
  assert (E : forall i, inst start i = zero_idem) by (intros i; unfold inst; cbn; rewrite lookup_empty; reflexivity).
  assert (A : forall X (h : pc -> option X) t, at_pc h start t = None) by (intros X h t; unfold at_pc; cbn; rewrite lookup_nil; reflexivity).
  split; intros; rewrite ?A, ?E in *; cbn in *; try discriminate; try (split; discriminate); try contradiction; try lia.
  all: try match goal with
    | H : _ ∈ [] |- _ => apply not_elem_of_nil in H; contradiction
    | H : [] !! _ = Some _ |- _ => rewrite lookup_nil in H; discriminate
    end.
  constructor.
Qed.

Lemma at_set_inst {A} (h : pc -> option A) s i x t : at_pc h (set_inst s i x) t = at_pc h s t.
Proof. reflexivity. Qed.
Lemma at_set_onces {A} (h : pc -> option A) s l t : at_pc h (set_onces s l) t = at_pc h s t.
Proof. reflexivity. Qed.
Lemma at_set_reg {A} (h : pc -> option A) s mu l t : at_pc h (set_reg s mu l) t = at_pc h s t.
Proof. reflexivity. Qed.
Lemma at_record {A} (h : pc -> option A) s e t : at_pc h (record s e) t = at_pc h s t.
Proof. reflexivity. Qed.

Lemma inst_onces s l i : inst (set_onces s l) i = inst s i.
Proof. reflexivity. Qed.
Lemma inst_reg s mu l i : inst (set_reg s mu l) i = inst s i.
Proof. reflexivity. Qed.
Lemma inst_record s e i : inst (record s e) i = inst s i.
Proof. reflexivity. Qed.

Ltac frame :=
  unfold set_once in *;
  repeat (rewrite ?at_set_inst, ?at_set_onces, ?at_set_reg, ?at_record, ?inst_set, ?inst_goto, ?inst_onces, ?inst_reg, ?inst_record in *);
  cbn [goto set_inst set_onces set_reg record insts onces reg_mu reg_list collected threads log
       mu entries registered m done] in *.

(** A step of thread [t], at [p] before and [p'] after it. *)
Ltac at_thread Hp :=
  match type of Hp with threads ?s !! ?t = Some ?p =>
    pose proof (lookup_lt_Some _ _ _ Hp);
    pose proof (at_here holds_inst s t p Hp); pose proof (at_here holds_reg s t p Hp);
    pose proof (at_here holds_once s t p Hp); pose proof (at_here registering s t p Hp);
    pose proof (at_here walking s t p Hp); pose proof (at_here slot_of s t p Hp);
    pose proof (at_here returned s t p Hp);
    cbn [holds_inst holds_reg holds_once registering walking slot_of returned] in *
  end.

Ltac normalise :=
  frame; rewrite ?at_goto in * by assumption; frame; repeat case_decide; subst;
  cbn [holds_inst holds_reg holds_once registering walking slot_of returned mu entries registered m done] in *.

Ltac use_here :=
  repeat match goal with H : at_pc ?h ?s ?t = _, H' : context [at_pc ?h ?s ?t] |- _ => rewrite H in H' end.
Ltac iff_done := use_here; intuition congruence.
Ltac solve_mu I :=
  let i := fresh "i" in let u := fresh "u" in intros i u; pose proof (i_mu _ _ I i u); normalise; iff_done.
Ltac solve_reg I := let u := fresh "u" in intros u; pose proof (i_reg _ _ I u); normalise; iff_done.
Ltac solve_once I :=
  let o := fresh "o" in let x := fresh "x" in let u := fresh "u" in let Hx := fresh "Hx" in
  intros o x u Hx; frame; try pose proof (i_once _ _ I o x u Hx); normalise; try iff_done.
Ltac solve_clause I :=
  intros; normalise;
  try (simplify_eq; eauto using i_listed, i_listed_once, i_walked, i_walked_once, i_pending, i_slot, i_entry,
         i_owner, i_returned, i_len, i_nodup, i_ran, i_count; congruence).
Ltac solve_inv I := split; [solve_mu I|solve_reg I|solve_once I|solve_clause I..].

Lemma lock_inv s owners t i a :
  inv s owners -> threads s !! t = Some (DoLock i a) -> mu (inst s i) = None ->
  inv (goto (set_inst s i (MkIdem (Some t) (entries (inst s i)) (registered (inst s i)))) t (DoHeld i a)) owners.
Proof. intros I Hp Hf; at_thread Hp; solve_inv I. Qed.

Lemma held_inv s owners t i a :
  inv s owners -> threads s !! t = Some (DoHeld i a) -> 
  inv (if negb (registered (inst s i))
       then goto (set_inst s i (MkIdem (mu (inst s i)) (entries (inst s i)) true)) t (DoRegister i a)
       else goto s t (DoEntry i a)) owners.
Proof.
  intros I Hp; at_thread Hp; destruct (registered (inst s i)) eqn:Hr; cbn [negb]; solve_inv I.
  - intros [= ->]; pose proof (i_listed _ _ I j); intuition congruence.
  - intros [= ->]; pose proof (i_walked _ _ I j t0 l); intuition congruence.
Qed.

Lemma registering_holds s u i : at_pc registering s u = Some i -> at_pc holds_inst s u = Some i.
Proof. unfold at_pc; destruct (threads s !! u) as [[]|]; cbn; try discriminate; intros E; exact E. Qed.

Lemma register_inv s owners t i a :
  inv s owners -> threads s !! t = Some (DoRegister i a) -> reg_mu s = None ->
  inv (goto (selfRegister s i) t (DoEntry i a)) owners.
Proof.
  intros I Hp Hf; at_thread Hp; unfold selfRegister.
  assert (Hm : mu (inst s i) = Some t) by (apply (i_mu _ _ I); assumption).
  assert (Only : forall u, t <> u -> at_pc registering s u <> Some i).
  { intros u Hu E; apply registering_holds, (i_mu _ _ I) in E; congruence. }
  solve_inv I.
  - match goal with Hj : _ ∈ _ ++ [_] |- _ => apply elem_of_app in Hj as [Hj|Hj] end; [exact (i_listed _ _ I _ ltac:(eassumption))|].
    match goal with Hj : _ ∈ [_] |- _ => apply list_elem_of_singleton in Hj as -> end; apply (i_pending _ _ I t i); assumption.
  - match goal with Hj : _ ∈ _ ++ [_] |- _ => apply elem_of_app in Hj as [Hj|Hj] end; [apply (i_listed_once _ _ I); assumption|].
    match goal with Hj : _ ∈ [_] |- _ => apply list_elem_of_singleton in Hj as -> end; apply Only; assumption.
Qed.

Lemma once_inv s owners t i a o x :
  inv s owners -> threads s !! t = Some (DoOnce i a o) -> onces s !! o = Some x ->
  inv (goto s t (if done x then DoReturned i a o else DoSlow i a o)) owners.
Proof. intros I Hp Hx; at_thread Hp; destruct (done x) eqn:Hd; solve_inv I. Qed.

Lemma slow_done_inv s owners t i a o x :
  inv s owners -> threads s !! t = Some (DoSlow i a o) -> onces s !! o = Some x -> done x = true ->
  inv (goto s t (DoReturned i a o)) owners.
Proof. intros I Hp Hx Hd; at_thread Hp; solve_inv I. Qed.

(** Reading the list of slots after an update. *)
Lemma once_set (l : list Once) o x o' y :
  <[o := x]> l !! o' = Some y -> (o' = o /\ y = x) \/ (o' <> o /\ l !! o' = Some y).
Proof. intros H; apply list_lookup_insert_Some in H as [(-> & -> & _)|[Hne H]]; [left|right]; auto. Qed.

Lemma filter_snoc {A} (f : A -> bool) l x : List.filter f (l ++ [x]) = List.filter f l ++ (if f x then [x] else []).
Proof. rewrite List.filter_app; reflexivity. Qed.

Lemma evictions_run l i a j b o : evictions (l ++ [Run j b o]) i a = evictions l i a.
Proof. unfold evictions; rewrite filter_snoc, app_nil_r; reflexivity. Qed.

Lemma slow_run_inv s owners t i a o x :
  inv s owners -> threads s !! t = Some (DoSlow i a o) -> onces s !! o = Some x -> m x = None -> done x = false ->
  inv (goto (record (set_once s o (MkOnce (done x) (Some t))) (Run i a o)) t (DoRun i a o)) owners.
Proof.
  intros I Hp Hx Hm Hd; at_thread Hp; pose proof (i_slot _ _ I t i a o ltac:(assumption)) as Ho.
  assert (Nr : forall i a, ~ In (Run i a o) (log s)).
  { intros i' a' H'; destruct (proj2 (i_ran _ _ I o x Hx)) as [E|E]; [eauto|congruence|contradiction]. }
  solve_inv I.
  all: try (apply once_set in Hx0 as [[-> ->]|[Hne Hx0]]; [pose proof (i_once _ _ I _ _ u Hx)|pose proof (i_once _ _ I _ _ u Hx0)]; normalise; iff_done).
  - rewrite length_insert; apply (i_len _ _ I).
  - match goal with H : <[_ := _]> _ !! _ = _ |- _ => apply once_set in H as [[-> ->]|[Hne H]] end.
    + split; [intros _; exists i, a; apply in_or_app; right; left; reflexivity|intros _; right; discriminate].
    + rewrite (i_ran _ _ I _ _ ltac:(eassumption)); split; intros (i' & a' & H'); exists i', a'; [apply in_or_app; auto|].
      apply in_app_or in H' as [H'|[[= -> -> ->]|[]]]; [exact H'|contradiction].
  - match goal with H : In _ (_ ++ _) |- _ => apply in_app_or in H as [H|[[= -> -> ->]|[]]]; [exact (i_owner _ _ I _ _ _ H)|exact Ho] end.
  - rewrite omap_app; apply NoDup_app; split; [apply I|split; [|apply NoDup_singleton]].
    intros o' Hin1 Hin2; apply list_elem_of_singleton in Hin2 as ->; apply list_elem_of_omap in Hin1 as (e & Hin1 & He).
    destruct e as [i' a' o'|]; [|discriminate]; injection He as ->; apply list_elem_of_In in Hin1; exact (Nr _ _ Hin1).
  - rewrite evictions_run; apply (i_count _ _ I).
  - match goal with H : at_pc returned s _ = Some ?o' |- _ => destruct (i_returned _ _ I _ _ H) as (y & Hy & Hdy) end.
    exists y; split; [|exact Hdy]; rewrite list_lookup_insert_ne; [exact Hy|congruence].
Qed.

Lemma run_inv s owners t i a o :
  inv s owners -> threads s !! t = Some (DoRun i a o) -> (exists x, onces s !! o = Some x) ->
  inv (goto (set_once s o (MkOnce true None)) t (DoReturned i a o)) owners.
Proof.
  intros I Hp [x Hx]; at_thread Hp.
  assert (Hm : m x = Some t) by (apply (i_once _ _ I o x t Hx); assumption).
  assert (Hlen : (o < length (onces s))%nat) by (eapply lookup_lt_Some; eassumption).
  solve_inv I.
  all: try (apply once_set in Hx0 as [[-> ->]|[Hne Hx0]]; [pose proof (i_once _ _ I _ _ u Hx)|pose proof (i_once _ _ I _ _ u Hx0)]; normalise; iff_done).
  - rewrite length_insert; apply (i_len _ _ I).
  - match goal with H : <[_ := _]> _ !! _ = _ |- _ => apply once_set in H as [[-> ->]|[Hne H]] end; [|apply (i_ran _ _ I); assumption].
    rewrite <- (i_ran _ _ I o x Hx); split; intros _; [right; congruence|left; reflexivity].
  - match goal with E : Some _ = Some _ |- _ => injection E as <- end.
    exists (MkOnce true None); split; [apply list_lookup_insert_eq, Hlen|reflexivity].
  - match goal with H : at_pc returned s _ = Some ?o' |- _ => destruct (i_returned _ _ I _ _ H) as (y & Hy & Hdy) end.
    destruct (decide (o = o0)) as [->|Hne]; [exists (MkOnce true None); split; [apply list_lookup_insert_eq, Hlen|reflexivity]|].
    exists y; split; [rewrite list_lookup_insert_ne; [exact Hy|exact Hne]|exact Hdy].
Qed.

Lemma fin_lock_inv s owners t a :
  inv s owners -> threads s !! t = Some (FinLock a) -> reg_mu s = None ->
  inv (goto (set_reg s (Some t) (reg_list s)) t (FinWalk a (reg_list s) [])) owners.
Proof.
  intros I Hp Hf; at_thread Hp; solve_inv I;
    match goal with E : Some (_ ++ []) = Some ?l, Hj : _ ∈ ?l |- _ => rewrite app_nil_r in E; injection E as <- end.
  - apply (i_listed _ _ I); assumption.
  - apply (i_listed_once _ _ I); assumption.
Qed.

Lemma fin_end_inv s owners t a kept :
  inv s owners -> threads s !! t = Some (FinWalk a [] kept) ->
  inv (goto (set_reg s None kept) t FinReturned) owners.
Proof. intros I Hp; at_thread Hp; assert (Hr : reg_mu s = Some t) by (apply (i_reg _ _ I t); assumption); solve_inv I. Qed.

(** A walker whose list only loses members. *)
Lemma walk_inv s owners t p p' l l' :
  inv s owners -> threads s !! t = Some p -> walking p = Some l -> walking p' = Some l' -> (forall j, j ∈ l' -> j ∈ l) ->
  inv (goto s t p') owners.
Proof.
  intros I Hp Hw Hw' Hsub.
  destruct p; try discriminate; destruct p'; try discriminate; injection Hw as <-; injection Hw' as <-; at_thread Hp; solve_inv I.
  all: match goal with E : Some _ = Some ?l, Hj : _ ∈ ?l |- _ => injection E as <-; apply Hsub in Hj end.
  all: first [eapply (i_walked _ _ I); eassumption|eapply (i_walked_once _ _ I); eassumption].
Qed.

Lemma fin_skip_inv s owners t a j rest kept :
  inv s owners -> threads s !! t = Some (FinWalk a (j :: rest) kept) ->
  inv (goto s t (FinWalk a rest kept)) owners /\ inv (goto s t (FinEvict a j rest (kept ++ [j]))) owners.
Proof.
  intros I Hp; split; eapply walk_inv; try eassumption; try reflexivity; intros j'; cbn [app];
    rewrite ?elem_of_cons, ?elem_of_app, ?list_elem_of_singleton; tauto.
Qed.

Lemma evictions_snoc l i a j b :
  evictions (l ++ [Evict j b]) i a = (evictions l i a + (if (i =? j)%nat && (a =? b)%nat then 1 else 0))%nat.
Proof. unfold evictions; rewrite filter_snoc, length_app; destruct (_ && _); reflexivity. Qed.

Lemma evict_inv s owners t a j rest kept :
  inv s owners -> threads s !! t = Some (FinEvict a j rest kept) ->
  inv (goto (evictBlock s j a) t (FinWalk a rest kept)) owners.
Proof.
  intros I Hp.
  assert (W : inv (goto s t (FinWalk a rest kept)) owners)
    by (eapply walk_inv; try eassumption; try reflexivity; intros j'; cbn [app]; rewrite ?elem_of_cons; tauto).
  clear I Hp; unfold evictBlock; set (s' := goto s t (FinWalk a rest kept)) in *.
  change (goto _ t _) with (record (set_inst s' j (MkIdem (mu (inst s' j)) (delete a (entries (inst s' j))) (registered (inst s' j)))) (Evict j a)).
  clearbody s'; clear s; solve_inv W.
  - match goal with H : delete _ _ !! _ = _ |- _ => apply lookup_delete_Some in H as [_ H]; exact (i_entry _ _ W _ _ _ H) end.
  - rewrite (i_ran _ _ W _ _ ltac:(eassumption)); split; intros (i' & a' & H'); exists i', a'; [apply in_or_app; auto|].
    apply in_app_or in H' as [H'|[H'|[]]]; [exact H'|discriminate].
  - match goal with H : In _ (_ ++ _) |- _ => apply in_app_or in H as [H|[H|[]]]; [exact (i_owner _ _ W _ _ _ H)|discriminate] end.
  - rewrite omap_app, app_nil_r; apply W.
  - rewrite evictions_snoc, Nat.eqb_refl; pose proof (i_count _ _ W i a0) as C; cbn [andb].
    destruct (Nat.eqb_spec a0 a) as [->|Hne]; [destruct (entries _ !! a); lia|].
    rewrite lookup_delete_ne by congruence; lia.
  - rewrite evictions_snoc; pose proof (i_count _ _ W i a0); lia.
Qed.

Lemma slots_snoc owners i a j b :
  slots_of (owners ++ [(j, b)]) i a = (slots_of owners i a + (if (i =? j)%nat && (a =? b)%nat then 1 else 0))%nat.
Proof. unfold slots_of; rewrite filter_snoc, length_app; cbn [fst snd]; destruct (_ && _); reflexivity. Qed.

Lemma holds_once_slot s u o : at_pc holds_once s u = Some o -> exists i a, at_pc slot_of s u = Some (i, a, o).
Proof. unfold at_pc; destruct (threads s !! u) as [[]|]; cbn; try discriminate; intros [= <-]; eauto. Qed.

Lemma entry_inv s owners t i a :
  inv s owners -> threads s !! t = Some (DoEntry i a) ->
  exists owners', inv (let '(o, s) := take_entry s i a in goto s t (DoOnce i a o)) owners'.
Proof.
  intros I Hp; assert (Hm : mu (inst s i) = Some t) by (apply (i_mu _ _ I); rewrite (at_here _ _ _ _ Hp); reflexivity).
  unfold take_entry; destruct (entries (inst s i) !! a) as [o|] eqn:He.
  - exists owners; at_thread Hp; pose proof (i_entry _ _ I _ _ _ He); solve_inv I.
  - set (o := length (onces s)); exists (owners ++ [(i, a)]).
    assert (Lo : o = length owners) by (symmetry; apply (i_len _ _ I)).
    assert (Grow : forall o' p, owners !! o' = Some p -> (owners ++ [(i, a)]) !! o' = Some p)
      by (intros; apply lookup_app_l_Some; assumption).
    assert (New : (owners ++ [(i, a)]) !! o = Some (i, a)) by (apply list_lookup_middle; exact Lo).
    assert (Old : forall o' y, (onces s ++ [MkOnce false None]) !! o' = Some y -> onces s !! o' = Some y \/ (o' = o /\ y = MkOnce false None)).
    { intros o' y H'; apply lookup_app_Some in H' as [H'|[Hl H']]; [left; exact H'|right].
      destruct (o' - length (onces s))%nat eqn:Eo; [|discriminate]; injection H' as <-; split; [unfold o; lia|reflexivity]. }
    assert (Fresh : forall j b, ~ In (Run j b o) (log s))
      by (intros j b H'; apply (i_owner _ _ I) in H'; apply lookup_lt_Some in H'; lia).
    assert (Idle : forall u, at_pc holds_once s u <> Some o).
    { intros u E; apply holds_once_slot in E as (j & b & E); apply (i_slot _ _ I) in E; apply lookup_lt_Some in E; lia. }
    at_thread Hp; clearbody o; solve_inv I.
    1, 2: apply Old in Hx as [Hx|[-> ->]]; [pose proof (i_once _ _ I _ _ u Hx)|pose proof (Idle u)]; normalise; iff_done.
    + rewrite !length_app; f_equal; apply (i_len _ _ I).
    + apply lookup_insert_Some in H7 as [[<- <-]|[_ H7]]; [exact New|exact (Grow _ _ (i_entry _ _ I _ _ _ H7))].
    + match goal with E : _ !! _ = Some x |- _ => apply Old in E as [E|[-> ->]]; [exact (i_ran _ _ I _ _ E)|] end.
      split; [intros [E|E]; [discriminate|contradiction]|intros (j & b & E); destruct (Fresh _ _ E)].
    + rewrite slots_snoc, Nat.eqb_refl; pose proof (i_count _ _ I i0 a0) as C; cbn [andb].
      destruct (Nat.eqb_spec a0 a) as [->|Hne]; [rewrite He in C; rewrite lookup_insert_eq; lia|].
      rewrite lookup_insert_ne by congruence; lia.
    + rewrite slots_snoc; pose proof (i_count _ _ I i0 a0) as C; destruct (Nat.eqb_spec i0 i); [congruence|cbn [andb]; lia].
    + match goal with E : at_pc returned s _ = Some _ |- _ => destruct (i_returned _ _ I _ _ E) as (y & Hy & Hdy) end.
      exists y; split; [apply lookup_app_l_Some, Hy|exact Hdy].
Qed.

(** New calls and collections. *)
Lemma spawn_inv s owners p :
  inv s owners -> (p = Thrown \/ (exists i a, p = DoLock i a) \/ exists a, p = FinLock a) ->
  inv (MkState (insts s) (onces s) (reg_mu s) (reg_list s) (collected s) (threads s ++ [p]) (log s)) owners.
Proof.
  intros I Hp.
  assert (A : forall X (h : pc -> option X) u, h p = None ->
    at_pc h (MkState (insts s) (onces s) (reg_mu s) (reg_list s) (collected s) (threads s ++ [p]) (log s)) u = at_pc h s u)
    by (intros; apply at_spawn; [reflexivity|assumption]).
  assert (N : holds_inst p = None /\ holds_reg p = None /\ holds_once p = None /\ registering p = None /\
    walking p = None /\ slot_of p = None /\ returned p = None)
    by (destruct Hp as [->|[(i & a & ->)|(a & ->)]]; repeat split).
  destruct N as (N1 & N2 & N3 & N4 & N5 & N6 & N7), I.
  split; intros; rewrite ?A in * by assumption; eauto.
Qed.

Lemma collect_inv s owners i : inv s owners -> inv (collect s i) owners.
Proof. intros I; destruct I; split; assumption. Qed.

Lemma exec_inv s owners t s' : inv s owners -> exec s t = Some s' -> exists owners', inv s' owners'.
Proof.
  intros I; unfold exec; destruct (threads s !! t) as [p|] eqn:Hp; [|discriminate].
  destruct p as [i a|i a|i a|i a|i a o|i a o|i a o|i a o| |a|a rest kept|a j rest kept|]; try discriminate.
  - destruct (mu (inst s i)) eqn:Hm; [discriminate|]; intros [= <-]; eexists; apply (lock_inv _ _ _ _ _ I Hp Hm).
  - pose proof (held_inv _ _ _ _ _ I Hp) as H; destruct (negb _); intros [= <-]; eexists; exact H.
  - destruct (reg_mu s) eqn:Hm; [discriminate|]; intros [= <-]; eexists; apply (register_inv _ _ _ _ _ I Hp Hm).
  - destruct (entry_inv _ _ _ _ _ I Hp) as [owners' H]; destruct (take_entry s i a); intros [= <-]; eexists; exact H.
  - destruct (onces s !! o) as [x|] eqn:Hx; [|discriminate]; intros [= <-]; eexists; apply (once_inv _ _ _ _ _ _ _ I Hp Hx).
  - destruct (onces s !! o) as [x|] eqn:Hx; [|discriminate]; destruct (m x) eqn:Hm; [discriminate|]; cbn [free negb].
    destruct (done x) eqn:Hd; intros [= <-]; eexists; [apply (slow_done_inv _ _ _ _ _ _ _ I Hp Hx Hd)|].
    rewrite <- Hd; apply (slow_run_inv _ _ _ _ _ _ _ I Hp Hx Hm Hd).
  - intros [= <-]; eexists; apply (run_inv _ _ _ _ _ _ I Hp).
    assert (E : owners !! o = Some (i, a)) by (apply (i_slot _ _ I t); rewrite (at_here _ _ _ _ Hp); reflexivity).
    apply lookup_lt_Some in E; rewrite (i_len _ _ I) in E; apply lookup_lt_is_Some in E; exact E.
  - destruct (reg_mu s) eqn:Hm; [discriminate|]; intros [= <-]; eexists; apply (fin_lock_inv _ _ _ _ I Hp Hm).
  - destruct rest as [|j rest]; [intros [= <-]; eexists; apply (fin_end_inv _ _ _ _ _ I Hp)|].
    pose proof (fin_skip_inv _ _ _ _ _ _ _ I Hp) as [H1 H2]; case_bool_decide; intros [= <-]; eexists; eassumption.
  - destruct (mu (inst s j)) eqn:Hm; [discriminate|]; intros [= <-]; eexists; apply (evict_inv _ _ _ _ _ _ _ I Hp).
Qed.

Lemma machine_step_inv s owners s' : inv s owners -> step s s' -> exists owners', inv s' owners'.
Proof.
  intros I H; destruct H as [s t s' H|s i a _|s a|s i _].
  - exact (exec_inv _ _ _ _ I H).
  - exists owners; unfold call_Do; apply spawn_inv; [exact I|destruct (a =? 0)%nat; eauto 6].
  - exists owners; apply spawn_inv; [exact I|eauto].
  - exists owners; apply collect_inv, I.
Qed.

Lemma reach_inv s : rtc step start s -> exists owners, inv s owners.
Proof.
  enough (G : forall s0, rtc step s0 s -> forall owners, inv s0 owners -> exists owners', inv s owners')
    by (intros R; exact (G _ R _ inv_start)).
  induction 1 as [x|x y z H _ IH]; intros owners I; [eauto|].
  destruct (machine_step_inv _ _ _ I H) as [owners' I']; exact (IH _ I').
Qed.

(** *** Counting runs *)

Lemma length_filter_map {A B} (f : B -> bool) (g : A -> B) l :
  length (List.filter f (map g l)) = length (List.filter (fun x => f (g x)) l).
Proof. induction l as [|x l IH]; cbn; [reflexivity|destruct (f (g x)); cbn; rewrite IH; reflexivity]. Qed.

Lemma slots_of_index owners i a :
  slots_of owners i a =
  length (List.filter (fun o => (i =? fst (nth o owners (0, 0)%nat))%nat && (a =? snd (nth o owners (0, 0)%nat))%nat)
            (seq 0 (length owners))).
Proof.
  unfold slots_of; rewrite <- (length_filter_map (fun p => (i =? fst p)%nat && (a =? snd p)%nat) (fun o => nth o owners (0, 0)%nat)).
  pose proof (map_nth_seq owners (0, 0)%nat 0 (length owners) (le_n _)) as E; cbn [Nat.add skipn] in E.
  rewrite E, firstn_all; reflexivity.
Qed.

(** Distinct slots all made for [i] and [a]. *)
Lemma slots_bound owners i a l :
  List.NoDup l -> (forall o, In o l -> owners !! o = Some (i, a)) -> (length l <= slots_of owners i a)%nat.
Proof.
  intros N H; rewrite slots_of_index; apply NoDup_incl_length; [exact N|]; intros o Ho; apply H in Ho.
  apply filter_In; split; [apply in_seq; apply lookup_lt_Some in Ho; lia|].
  rewrite (nth_lookup_Some _ _ _ _ Ho); cbn [fst snd]; rewrite !Nat.eqb_refl; reflexivity.
Qed.

Definition run_of (i a : nat) (e : event) : option nat :=
  match e with Run j b o => if (i =? j)%nat && (a =? b)%nat then Some o else None | _ => None end.

Lemma runs_omap s i a : runs s i a = length (omap (run_of i a) (log s)).
Proof.
  unfold runs; induction (log s) as [|e l IH]; [reflexivity|]; cbn [List.filter omap list_omap].
  destruct e as [j b o|j b]; cbn [run_of]; [|exact IH]; destruct (_ && _); cbn [length]; [f_equal|]; exact IH.
Qed.

Lemma run_of_In i a l o : In o (omap (run_of i a) l) -> In (Run i a o) l.
Proof.
  intros H; apply list_elem_of_In, list_elem_of_omap in H as (e & He & E); apply list_elem_of_In in He.
  destruct e as [j b o'|]; [|discriminate]; cbn [run_of] in E.
  destruct (Nat.eqb_spec i j) as [->|], (Nat.eqb_spec a b) as [->|]; cbn [andb] in E; try discriminate.
  injection E as ->; exact He.
Qed.

Lemma run_of_NoDup i a l : NoDup (omap run_slot l) -> NoDup (omap (run_of i a) l).
Proof.
  induction l as [|e l IH]; [intros; constructor|]; cbn [omap list_omap].
  destruct e as [j b o|j b]; cbn [run_slot run_of]; [|exact IH].
  intros N; apply NoDup_cons in N as [N1 N2]; destruct (_ && _); [|exact (IH N2)].
  apply NoDup_cons; split; [|exact (IH N2)]; intros H; apply N1.
  apply list_elem_of_In, run_of_In in H; apply list_elem_of_omap; exists (Run i a o).
  split; [apply list_elem_of_In, H|reflexivity].
Qed.

(** *** Progress *)

Definition unfinished (p : pc) : bool :=
  match p with DoReturned _ _ _ | Thrown | FinReturned => false | _ => true end.

(** A call that waits for no mutex can go on. *)
Lemma exec_ready s owners t p :
  inv s owners -> threads s !! t = Some p ->
  (match p with DoHeld _ _ | DoEntry _ _ | DoOnce _ _ _ | DoRun _ _ _ | FinWalk _ _ _ => True | _ => False end) ->
  exec s t <> None.
Proof.
  intros I Hp; unfold exec; rewrite Hp; destruct p as [i a|i a|i a|i a|i a o|i a o|i a o|i a o| |a|a rest kept|a j rest kept|]; try contradiction; intros _.
  - destruct (negb _); discriminate.
  - destruct (take_entry s i a); discriminate.
  - assert (E : owners !! o = Some (i, a)) by (apply (i_slot _ _ I t); rewrite (at_here _ _ _ _ Hp); reflexivity).
    apply lookup_lt_Some in E; rewrite (i_len _ _ I) in E; apply lookup_lt_is_Some in E as [x ->]; discriminate.
  - discriminate.
  - destruct rest; [|case_bool_decide]; discriminate.
Qed.

(** Who holds a mutex is past the point of waiting for it. *)
Lemma holder_inst s owners i t : inv s owners -> mu (inst s i) = Some t -> exists a,
  threads s !! t = Some (DoHeld i a) \/ threads s !! t = Some (DoRegister i a) \/ threads s !! t = Some (DoEntry i a).
Proof.
  intros I H; apply (i_mu _ _ I) in H; unfold at_pc in H; destruct (threads s !! t) as [[]|]; cbn in H; try discriminate;
    injection H as ->; eauto.
Qed.

Lemma holder_reg s owners t : inv s owners -> reg_mu s = Some t -> exists a,
  (exists rest kept, threads s !! t = Some (FinWalk a rest kept)) \/
  (exists j rest kept, threads s !! t = Some (FinEvict a j rest kept)).
Proof.
  intros I H; apply (i_reg _ _ I) in H; unfold at_pc in H; destruct (threads s !! t) as [[]|]; cbn in H; try discriminate; eauto 7.
Qed.

(** The walker is never behind a call that waits for the registry. *)
Lemma evict_progress s owners t a j rest kept :
  inv s owners -> threads s !! t = Some (FinEvict a j rest kept) -> exists u s', exec s u = Some s'.
Proof.
  intros I Hp; destruct (mu (inst s j)) as [u|] eqn:Hm.
  - destruct (holder_inst _ _ _ _ I Hm) as (b & [Hu|[Hu|Hu]]).
    + destruct (exec s u) as [s'|] eqn:E; [eauto|destruct (exec_ready _ _ _ _ I Hu Logic.I E)].
    + destruct (i_walked_once _ _ I j t (j :: rest ++ kept) u); [rewrite (at_here _ _ _ _ Hp); reflexivity|left|].
      rewrite (at_here _ _ _ _ Hu); reflexivity.
    + destruct (exec s u) as [s'|] eqn:E; [eauto|destruct (exec_ready _ _ _ _ I Hu Logic.I E)].
  - exists t; eexists; unfold exec; rewrite Hp, Hm; reflexivity.
Qed.

Lemma reg_progress s owners t : inv s owners -> reg_mu s = Some t -> exists u s', exec s u = Some s'.
Proof.
  intros I H; destruct (holder_reg _ _ _ I H) as (a & [(rest & kept & Ht)|(j & rest & kept & Ht)]).
  - destruct (exec s t) as [s'|] eqn:E; [eauto|destruct (exec_ready _ _ _ _ I Ht Logic.I E)].
  - exact (evict_progress _ _ _ _ _ _ _ I Ht).
Qed.

Lemma register_progress s owners t i a :
  inv s owners -> threads s !! t = Some (DoRegister i a) -> exists u s', exec s u = Some s'.
Proof.
  intros I Hp; destruct (reg_mu s) as [u|] eqn:Hr; [exact (reg_progress _ _ _ I Hr)|].
  exists t; eexists; unfold exec; rewrite Hp, Hr; reflexivity.
Qed.

(** ** Properties *)

(** C17: Once per identity: in every reachable state, the function of an instance has been
    called for an identity at most once more than the identity's slot has been evicted,
    so at most once while the identity lives; and a call of [Do] that has returned
    returned after the call of its slot had completed. *)
Theorem once_per_identity s :
  rtc step start s ->
  (forall i a, (runs s i a <= evictions (log s) i a + 1)%nat) /\
  (forall t i a o, threads s !! t = Some (DoReturned i a o) ->
     In (Run i a o) (log s) /\ exists x, onces s !! o = Some x /\ done x = true).
Proof.
  intros R; destruct (reach_inv s R) as [owners I]; split.
  - intros i a; rewrite runs_omap; transitivity (slots_of owners i a).
    + apply slots_bound; [apply NoDup_ListNoDup, run_of_NoDup, (i_nodup _ _ I)|].
      intros o Ho; apply (i_owner _ _ I), (run_of_In i a), Ho.
    + pose proof (i_count _ _ I i a); destruct (entries (inst s i) !! a); lia.
  - intros t i a o Ht; destruct (i_returned _ _ I t o) as (x & Hx & Hd); [rewrite (at_here _ _ _ _ Ht); reflexivity|].
    split; [|exists x; auto]; destruct (proj1 (i_ran _ _ I o x Hx) (or_introl Hd)) as (i' & a' & Hin).
    pose proof (i_owner _ _ I _ _ _ Hin) as E; rewrite (i_slot _ _ I t i a o) in E by (rewrite (at_here _ _ _ _ Ht); reflexivity).
    injection E as -> ->; exact Hin.
Qed.

(** C39: No deadlock: the registry's mutex and the instances' are taken in both orders, by
    registration and by eviction, yet in every reachable state with an unfinished call
    some call can make a step (the functions themselves are assumed to return), because
    an instance that is still registering is in no list an eviction walks. *)
Theorem no_deadlock s t p :
  rtc step start s -> threads s !! t = Some p -> unfinished p = true -> exists u s', exec s u = Some s'.
Proof.
  intros R Hp U; destruct (reach_inv s R) as [owners I].
  destruct p as [i a|i a|i a|i a|i a o|i a o|i a o|i a o| |a|a rest kept|a j rest kept|]; try discriminate;
    try (destruct (exec s t) as [s'|] eqn:E; [eauto|destruct (exec_ready _ _ _ _ I Hp Logic.I E)]; fail).
  - destruct (mu (inst s i)) as [u|] eqn:Hm; [|exists t; eexists; unfold exec; rewrite Hp, Hm; reflexivity].
    destruct (holder_inst _ _ _ _ I Hm) as (b & [Hu|[Hu|Hu]]); [|exact (register_progress _ _ _ _ _ I Hu)|];
      (destruct (exec s u) as [s'|] eqn:E; [eauto|destruct (exec_ready _ _ _ _ I Hu Logic.I E)]).
  - exact (register_progress _ _ _ _ _ I Hp).
  - assert (E : owners !! o = Some (i, a)) by (apply (i_slot _ _ I t); rewrite (at_here _ _ _ _ Hp); reflexivity).
    apply lookup_lt_Some in E; rewrite (i_len _ _ I) in E; apply lookup_lt_is_Some in E as [x Hx].
    destruct (m x) as [u|] eqn:Hm; [|exists t; unfold exec; rewrite Hp, Hx, Hm; cbn [free negb]; destruct (done x); eauto].
    apply (i_once _ _ I _ _ _ Hx) in Hm; unfold at_pc in Hm; destruct (threads s !! u) as [q|] eqn:Hu; [|discriminate].
    destruct q; cbn in Hm; try discriminate; destruct (exec s u) as [s'|] eqn:E; [eauto|destruct (exec_ready _ _ _ _ I Hu Logic.I E)].
  - destruct (reg_mu s) as [u|] eqn:Hr; [exact (reg_progress _ _ _ I Hr)|].
    exists t; eexists; unfold exec; rewrite Hp, Hr; reflexivity.
  - exact (evict_progress _ _ _ _ _ _ _ I Hp).
Qed.

(** Two goroutines of identity 5 and one of identity 6 call [Do] on instance 1. *)
Fixpoint run_schedule (s : state) (ts : list nat) : option state :=
  match ts with
  | [] => Some s
  | t :: ts => match exec s t with Some s' => run_schedule s' ts | None => None end
  end.

Lemma schedule_reach s ts s' : run_schedule s ts = Some s' -> rtc step s s'.
Proof.
  revert s; induction ts as [|t ts IH]; intros s; cbn [run_schedule]; [intros [= ->]; reflexivity|].
  destruct (exec s t) as [s1|] eqn:E; [|discriminate]; intros H; exact (rtc_l _ _ _ _ (step_thread _ _ _ E) (IH _ H)).
Qed.

Definition demo_calls : state := call_Do (call_Do (call_Do start 1 5) 1 5) 1 6.
Definition demo_schedule : list nat := [0; 0; 0; 0; 1; 1; 1; 0; 0; 1; 2; 2; 0; 2; 2; 2; 2; 1]%nat.

Lemma demo_calls_reach : rtc step start demo_calls.
Proof.
  eapply rtc_l; [apply (step_do start 1 5); intros []|].
  eapply rtc_l; [apply (step_do _ 1 5); intros []|].
  eapply rtc_l; [apply (step_do _ 1 6); intros []|reflexivity].
Qed.

Lemma once_per_identity_witness : exists s, run_schedule demo_calls demo_schedule = Some s /\
  length (log s) = 2%nat /\ (runs s 1 5 <= 1)%nat /\ In (Run 1 5 0) (log s).
Proof.
  assert (E : exists s, run_schedule demo_calls demo_schedule = Some s /\ length (log s) = 2%nat /\
    evictions (log s) 1 5 = 0%nat /\ threads s !! 1%nat = Some (DoReturned 1 5 0))
    by (eexists; split; [vm_compute; reflexivity|vm_compute; auto]).
  destruct E as (s & E & L & V & T); exists s; split; [exact E|split; [exact L|]].
  destruct (once_per_identity s) as [H1 H2]; [etransitivity; [apply demo_calls_reach|exact (schedule_reach _ _ _ E)]|].
  split; [specialize (H1 1%nat 5%nat); rewrite V in H1; exact H1|exact (proj1 (H2 _ _ _ _ T))].
Defined.

(** The first caller holds the instance and waits for the registry, which a hook holds. *)
Lemma no_deadlock_witness : exists s u s',
  run_schedule (idempotentOnBlockFinalized demo_calls 9) [0; 0; 3]%nat = Some s /\
  threads s !! 0%nat = Some (DoRegister 1 5) /\ exec s 0 = None /\ exec s u = Some s'.
Proof.
  assert (E : exists s, run_schedule (idempotentOnBlockFinalized demo_calls 9) [0; 0; 3]%nat = Some s /\
    threads s !! 0%nat = Some (DoRegister 1 5) /\ exec s 0 = None)
    by (eexists; split; [vm_compute; reflexivity|vm_compute; auto]).
  destruct E as (s & E & T & B).
  destruct (no_deadlock s 0 (DoRegister 1 5)) as (u & s' & H); [|exact T|reflexivity|exists s, u, s'; auto].
  etransitivity; [apply demo_calls_reach|]; eapply rtc_l; [apply (step_fin _ 9)|exact (schedule_reach _ _ _ E)].
Defined.
