(* ===== verification/Boot.v ===== *)
(** * Boot: the order of initialisation

    The JanOS calls of runtime/proc.go: schedinit (instance identifier, self-hash,
    certificate gate, identity), with the components they call composed as they are in
    the source, and what every goroutine of the process inherits from it. *)

From Stdlib Require Import String ZArith Lia List Bool.
From stdpp Require Import base option list gmap.
From S2P Require Import Prelude Slices Sha2 Kdf CertSlot Provenance CertVerify Identity SelfHash Genesis.
Import ListNotations.
Open Scope Z_scope.

(** ** schedinit *)

Inductive boot_throw : Type := CertThrow (t : throw) | KeyThrow (t : derive_throw).

Definition map_fail {E E' A} (f : E -> E') (x : outcome E A) : outcome E' A :=
  match x with Ret a => Ret a | Fail e => Fail (f e) | Panic => Panic end.

Section Boot.
Context {KS : KeyScheme} (SS : SigScheme).

(** On the boot goroutine, whose provenance is the zero value. *)
Definition schedinit (revR revU : list janosRevocationEntry) (c : CertState) (pf : platform) (rng : list Z)
  : outcome boot_throw (CertState * RT) :=
  let '(gp, rng) := janosInitInstanceID prov_zero rng in
  match janosInitBinaryHash c pf gp with
  | None => Panic
  | Some gp =>
      bind (map_fail CertThrow (janosVerifyCertSlot revR revU c gp)) (fun '(c, gp) =>
      bind (map_fail KeyThrow (janosInitIdentity (boot_state rng gp))) (fun s => Ret (c, s)))
  end.

(** ** The stored hash is a hash *)

Definition wf_len (n : nat) (buf : list Z) : Prop := bytes buf /\ length buf = n.

Lemma zero_capped_wf n buf s e : wf_len n buf -> wf_len n (zero_capped buf s e).
Proof. intros [H <-]; split; [apply bytes_zero_range, H|apply length_zero_capped]. Qed.

Lemma zero_occ_wf pat n k buf : wf_len n buf -> wf_len n (zero_occ pat k buf).
Proof.
  intros [H <-]; split; [|apply length_zero_occ]; revert k; induction H as [|x l Hx _ IH]; intros k; [destruct k; constructor|].
  cbn [zero_occ]; destruct k; [|constructor; [unword; lia|apply IH]].
  destruct (is_prefix _ _); constructor; try apply IH; [unword; lia|exact Hx].
Qed.

Lemma ZeroAll_wf n buf pat : wf_len n buf -> wf_len n (janosZeroAll buf pat).
Proof.
  intros H; destruct pat as [|x pat]; [exact H|rewrite janosZeroAll_occ by discriminate; apply zero_occ_wf, H].
Qed.

Lemma macho_wf n k buf off e b : wf_len n buf -> macho_loop k buf off e = Some b -> wf_len n b.
Proof.
  revert buf off; induction k as [|k IH]; intros buf off H; cbn [macho_loop]; [intros [= <-]; exact H|].
  destruct (_ <=? _); [|intros [= <-]; exact H]; intros E; apply obind_Some in E as ([buf' next] & E & E').
  assert (H' : wf_len n buf').
  { unfold macho_cmd in E; apply obind_Some in E as (cmd & _ & E); apply obind_Some in E as (cs & _ & E).
    destruct (_ || _); [injection E as <- _; exact H|]; apply obind_Some in E as (b1 & E1 & E).
    assert (H1 : wf_len n b1).
    { destruct ((cmd =? 0x1D) && (16 <=? cs)); [|injection E1 as <-; exact H].
      apply obind_Some in E1 as (d1 & _ & E1); apply obind_Some in E1 as (d2 & _ & E1); injection E1 as <-.
      apply zero_capped_wf, H. }
    injection E as <- _; destruct ((cmd =? 0x1B) && (24 <=? cs)); [apply zero_capped_wf|]; exact H1. }
  destruct next; [exact (IH _ _ H' E')|injection E' as <-; exact H'].
Qed.

Lemma canonical_wf n buf gk rk b : wf_len n buf -> canonical_form buf gk rk = Some b -> wf_len n b.
Proof.
  intros H E; unfold canonical_form in E; apply obind_Some in E as (b1 & E1 & E); apply obind_Some in E as (b2 & E2 & E).
  assert (H0 : wf_len n (janosZeroAll (janosZeroAll (zero_slot buf) gk) rk)).
  { do 2 apply ZeroAll_wf; unfold zero_slot; destruct (janosLocateDivinedSlot buf); [apply zero_capped_wf|]; exact H. }
  assert (H1 : wf_len n b1).
  { unfold janosZeroMachoExcludes in E1; destruct (_ <? _)%nat; [injection E1 as <-; exact H0|].
    destruct (negb _); [injection E1 as <-; exact H0|].
    apply obind_Some in E1 as (x & _ & E1); apply obind_Some in E1 as (y & _ & E1); exact (macho_wf _ _ _ _ _ _ H0 E1). }
  assert (H2 : wf_len n b2).
  { unfold janosZeroElfExcludes in E2; apply obind_Some in E2 as ([[o z]|] & _ & E2); [|injection E2 as <-; exact H1].
    destruct (_ <? _); injection E2 as <-; [|apply zero_capped_wf]; exact H1. }
  assert (Z1 : forall id, wf_len n (if (0 <? length id)%nat then janosZeroAll b2 id else b2))
    by (intros id; destruct (_ <? _)%nat; [apply ZeroAll_wf|]; exact H2).
  unfold zero_build_id in E; destruct (janosFindBuildIDInBuf b2) as [[x y]|]; [injection E as <-; apply Z1|].
  apply obind_Some in E as ([id|] & _ & E); injection E as <-; [apply Z1|exact H2].
Qed.

(** What the platform reads are bytes. *)
Definition script_ok (script : list read_result) : Prop :=
  Forall (fun r => match r with ReadErr => True | ReadBytes d => bytes d end) script.
Definition platform_ok (pf : platform) : Prop :=
  match pf with Stub => True | Linux _ _ s | Darwin _ _ _ s | Windows _ _ _ s => script_ok s end.

Lemma read_loop_bytes chunk mapped script got b :
  script_ok script -> bytes got -> read_loop chunk mapped script got = Some b -> bytes b.
Proof.
  intros S; revert got; induction S as [|r script Hr _ IH]; intros got Hg; cbn [read_loop].
  - destruct (_ <? _); intros [= <-]; exact Hg.
  - destruct (_ <? _); [|intros [= <-]; exact Hg]; destruct r as [|d]; [discriminate|].
    destruct (_ =? _)%nat; [intros [= <-]; exact Hg|apply IH, bytes_app; split; [exact Hg|apply bytes_firstn, Hr]].
Qed.

Lemma hash_reader_wf c chunk script d :
  script_ok script -> hash_reader c chunk script = Some (Some d) -> bytes d /\ length d = 32%nat.
Proof.
  intros S; unfold hash_reader; destruct (read_loop _ _ _ _) as [b|] eqn:E; [|discriminate].
  pose proof (read_loop_bytes _ _ _ [] b S (List.Forall_nil _) E) as Hb.
  destruct (_ || (janosMaxBinarySize <=? _)) eqn:El; [discriminate|]; apply orb_false_iff in El as [_ El]; apply Z.leb_gt in El.
  intros H; apply obind_Some in H as (x & H & [= <-]); unfold janosHashCanonical, janosCanonicalHash in H.
  apply obind_Some in H as (f & Hf & H); apply Some_inj in H; subst x.
  destruct (canonical_wf (length b) _ _ _ _ (conj Hb eq_refl) Hf) as [Bf Lf]; unfold sha256.
  rewrite (Hash_ok sha256_params); [split; [apply bytes_fips_hash|apply (length_fips_hash sha256_params)]|exact Bf|].
  rewrite Lf; unfold janosMaxBinarySize in El; lia.
Qed.

Lemma store_digest_wf gp r gp' :
  prov_wf gp -> (forall d, r = Some (Some d) -> bytes d /\ length d = 32%nat) ->
  store_digest gp r = Some gp' ->
  prov_wf gp' /\ ((gp' = gp) \/ exists d, r = Some (Some d) /\ gp' = janosStoreBinaryHash gp d).
Proof.
  intros H W E; unfold store_digest in E; apply obind_Some in E as ([d|] & -> & E); injection E as <-; [|auto].
  split; [|eauto]; destruct H; split; cbn [janosStoreBinaryHash instanceID binaryHash guildCertID releaseCertID trustLevel]; auto.
  unfold TrustSelfAttested; unword; lia.
Qed.

(** The digest a platform stores. *)
Definition stored_digest (c : CertState) (pf : platform) (d : list Z) : Prop :=
  match pf with
  | Stub => False
  | Linux _ _ s | Darwin _ _ _ s => hash_reader c janosMaxBinarySize s = Some (Some d)
  | Windows _ _ _ s => hash_reader c janosWinReadChunk s = Some (Some d)
  end.

Lemma init_hash_wf c pf gp gp' :
  prov_wf gp -> platform_ok pf -> janosInitBinaryHash c pf gp = Some gp' ->
  prov_wf gp' /\ (gp' = gp \/ exists d, stored_digest c pf d /\ gp' = janosStoreBinaryHash gp d).
Proof.
  intros H P E.
  assert (U : forall ok s, script_ok s -> store_digest gp (janosHashFD c ok s) = Some gp' ->
    prov_wf gp' /\ (gp' = gp \/ exists d, hash_reader c janosMaxBinarySize s = Some (Some d) /\ gp' = janosStoreBinaryHash gp d)).
  { intros ok s S E'; unfold janosHashFD in E'; destruct ok; cbn [negb] in E'; [|injection E' as <-; auto].
    apply store_digest_wf in E'; [exact E'|exact H|intros d; apply hash_reader_wf, S]. }
  destruct pf as [|o mm s|n o mm s|n o mm s]; cbn [janosInitBinaryHash stored_digest platform_ok] in *.
  - injection E as <-; auto.
  - destruct o; cbn [negb] in E; [exact (U _ _ P E)|injection E as <-; auto].
  - destruct (_ || _); [injection E as <-; auto|]; destruct o; cbn [negb] in E; [exact (U _ _ P E)|injection E as <-; auto].
  - destruct (_ || _); [injection E as <-; auto|]; destruct o; cbn [negb] in E; [|injection E as <-; auto].
    destruct mm; cbn [negb] in E; [|injection E as <-; auto].
    apply store_digest_wf in E; [exact E|exact H|intros d; apply hash_reader_wf, P].
Qed.

(** ** What every goroutine inherits *)

Definition same_trust (p q : gProvenance) : Prop :=
  binaryHash q = binaryHash p /\ guildCertID q = guildCertID p /\ releaseCertID q = releaseCertID p /\
  trustLevel q = trustLevel p.

Definition uniform (p : gProvenance) (s : RT) : Prop :=
  forall i q, nth_error (gs s) i = Some q -> same_trust p (g_prov q).

Lemma uniform_snoc p s x : uniform p s -> same_trust p (g_prov x) -> forall i q, nth_error (gs s ++ [x]) i = Some q -> same_trust p (g_prov q).
Proof.
  intros U Hx i q; rewrite nth_error_snoc; destruct (_ =? _)%nat; [intros [= <-]; exact Hx|apply U].
Qed.

Lemma step_uniform p s s' : Identity.inv s -> step s s' -> uniform p s -> uniform p s'.
Proof.
  intros I H U; destruct H as [s g s' _ H|s g s' _ H|s g s' H|s].
  - unfold newproc in H; destruct (goroutine_at s g) as [x|] eqn:E; [|discriminate]; injection H as <-.
    intros i q; cbn [set_gs gs]; apply (uniform_snoc p s _ U); exact (U g x E).
  - unfold janosSpark in H; destruct (goroutine_at s g) as [x|] eqn:E; [|discriminate].
    destruct (janosMintIdentity s _) as [[a s1]| |] eqn:Em; cbn [bind] in H; try discriminate.
    destruct (mint_ok _ _ _ _ (or_introl I) Em) as (_ & Eg & _).
    destruct (janosFreshInstanceID (rng s1)); apply Ret_inj in H; subst s'.
    intros i q; cbn [set_gs set_rng gs]; rewrite Eg; apply (uniform_snoc p s _ U); exact (U g x E).
  - unfold spark_prologue in H; destruct (goroutine_at s g) as [[x [[a iid]|]]|] eqn:E; try discriminate; injection H as <-.
    intros i q; unfold set_prov; cbn [set_gs gs]; rewrite nth_error_upd; destruct (_ =? _)%nat; [|apply U].
    destruct (_ <? _)%nat; [intros [= <-]; exact (U g _ E)|discriminate].
  - exact U.
Qed.

Lemma reach_uniform p s0 s : Identity.inv s0 -> uniform p s0 -> reachable s0 s -> uniform p s /\ Identity.inv s.
Proof.
  intros I U R; induction R as [|s s' _ [IH I'] H]; [auto|].
  split; [exact (step_uniform _ _ _ I' H IH)|exact (Identity.step_inv _ _ I' H)].
Qed.

(** janosInitIdentity only adds the identity. *)
Lemma init_prov r p s : janosInitIdentity (boot_state r p) = Ret s ->
  exists q, goroutine_at s 0 = Some (MkG q None) /\ q = set_identity p (Some 0%nat) /\ gs s = [MkG q None].
Proof.
  unfold janosInitIdentity, boot_state; cbn [janosRootKey rng heap gs]; destruct (fill_root_key _ _) as [key r1].
  unfold janosMintIdentity; cbn [rng janosRootKey heap length]; destruct (rand r1) as [hi r2], (rand r2) as [lo r3].
  destruct (derive_key _ _) as [[priv pub]| |]; cbn [bind]; try discriminate.
  intros H; apply Ret_inj in H; subst s; eexists; split; [reflexivity|split; reflexivity].
Qed.

(** The digests of the embedded keys are identifiers. *)
Lemma published_wf (OK : SigSchemeOk SS) c c' gp gp' g r o :
  state_wf c -> prov_wf gp -> published c c' gp gp' g r o -> prov_wf gp'.
Proof.
  intros C [] (_ & _ & _ & _ & _ & _ & ->).
  destruct (digest_ok _ (proj1 (sw_guild _ C)) (proj2 (sw_guild _ C))), (digest_ok _ (proj1 (sw_release _ C)) (proj2 (sw_release _ C))).
  split; cbn [instanceID binaryHash guildCertID releaseCertID trustLevel]; auto; unfold TrustJanosReleased; unword; lia.
Qed.

(** C13: What a successful boot means for every goroutine that ever runs: main's instance
    identifier is the first two random words; all goroutines carry main's hash,
    certificate identifiers and trust level; the hash is that of the executable, or zero
    when it was not read; and the level is TrustJanosReleased exactly in a build with
    both keys, and then a chain in the slot is acceptable for that hash under these keys,
    while a build without keys has TrustSelfAttested when the hash was stored and
    TrustNone otherwise. *)
Theorem boot_trust (KO : KeySchemeOk KS) (OK : SigSchemeOk SS) revR revU c pf hi lo rng c' s0 s :
  Forall is_u64 (hi :: lo :: rng) -> state_wf c -> platform_ok pf ->
  schedinit revR revU c pf (hi :: lo :: rng) = Ret (c', s0) -> reachable s0 s ->
  exists p,
    instanceID p = le_bytes 8 hi ++ le_bytes 8 lo /\
    goroutine_at s0 0 = Some (MkG (set_identity p (Some 0%nat)) None) /\
    uniform p s /\
    (binaryHash p = repeat 0 32 \/ stored_digest c pf (binaryHash p)) /\
    ((both_sentinel c /\ (trustLevel p = TrustNone /\ binaryHash p = repeat 0 32 \/
                          trustLevel p = TrustSelfAttested /\ stored_digest c pf (binaryHash p))) \/
     (no_sentinel c /\ trustLevel p = TrustJanosReleased /\
      exists g r o, chain_for (S := SS) (OK := OK) revR revU c p g r o)).
Proof.
  intros Hr Hc Hp E R; unfold schedinit in E; cbn [janosInitInstanceID rand] in E.
  set (gp0 := set_instanceID prov_zero _) in E; inversion_clear Hr as [|? ? Hhi Hr']; inversion_clear Hr' as [|? ? Hlo Hr].
  assert (W0 : prov_wf gp0) by exact (janosInitInstanceID_wf prov_zero (hi :: lo :: rng) prov_zero_wf).
  assert (I0 : instanceID gp0 = le_bytes 8 hi ++ le_bytes 8 lo) by (apply two_words_ok; reflexivity).
  destruct (janosInitBinaryHash c pf gp0) as [gp1|] eqn:E1; [|discriminate].
  destruct (init_hash_wf _ _ _ _ W0 Hp E1) as [W1 D1].
  destruct (janosVerifyCertSlot revR revU c gp1) as [[c1 gp2]|f|] eqn:E2; cbn [map_fail bind] in E; try discriminate.
  pose proof (gate_cases (S := SS) (OK := OK) revR revU c gp1 Hc W1) as G; rewrite E2 in G.
  destruct (janosInitIdentity (boot_state rng gp2)) as [s1|f|] eqn:E3; cbn [map_fail bind] in E; try discriminate.
  apply Ret_inj in E; injection E as -> ->.
  destruct (init_prov _ _ _ E3) as (q & Q0 & -> & Q1).
  assert (I1 : instanceID gp1 = instanceID gp0) by (destruct D1 as [->|(d & _ & ->)]; reflexivity).
  assert (H1 : binaryHash gp1 = repeat 0 32 \/ stored_digest c pf (binaryHash gp1)) by (destruct D1 as [->|(d & D & ->)]; [left; reflexivity|right; exact D]).
  assert (W2 : prov_wf gp2) by (destruct G as [(_ & _ & ->)|(_ & _ & g & r & o & _ & P)]; [exact W1|exact (published_wf OK _ _ _ _ _ _ _ Hc W1 P)]).
  assert (U0 : uniform gp2 s0).
  { intros i x; rewrite Q1; destruct i as [|i]; [intros [= <-]; repeat split|destruct i; discriminate]. }
  exists gp2; split; [|split; [exact Q0|split; [exact (proj1 (reach_uniform _ _ _ (Identity.init_inv _ _ _ W2 Hr E3) U0 R))|]]].
  - rewrite <- I0, <- I1; destruct G as [(_ & _ & ->)|(_ & _ & g & r & o & _ & (_ & _ & _ & _ & _ & _ & ->))]; reflexivity.
  - destruct G as [(B & _ & ->)|(N & _ & g & r & o & C & (_ & _ & _ & _ & _ & _ & ->))].
    + split; [exact H1|left; split; [exact B|]]; destruct D1 as [->|(d & D & ->)]; [left; split; reflexivity|right; split; [reflexivity|exact D]].
    + split; [exact H1|right; split; [exact N|split; [reflexivity|exists g, r, o; exact C]]].
Qed.
End Boot.

Lemma state_undivined_wf : state_wf cert_state_undivined.
Proof. split; (split; [apply bytesb_ok; vm_compute; reflexivity|vm_compute; reflexivity]). Qed.

(** Without keys, on a platform that reads nothing: main of the machine just booted. *)
Lemma boot_trust_witness : exists c s,
  schedinit (KS := toy_keys) toy_sig [] [] cert_state_undivined Stub [1; 2; 3; 4; 5; 6; 7; 8] = Ret (c, s) /\
  exists p, instanceID p = le_bytes 8 1 ++ le_bytes 8 2 /\ trustLevel p = TrustNone /\ uniform p s.
Proof.
  assert (E : exists r, schedinit (KS := toy_keys) toy_sig [] [] cert_state_undivined
    Stub [1; 2; 3; 4; 5; 6; 7; 8] = Ret r /\
    match goroutine_at (snd r) 0 with Some q => trustLevel (g_prov q) = TrustNone | None => False end)
    by (eexists; split; [vm_compute; reflexivity|vm_compute; reflexivity]).
  destruct E as ([c s] & E & T); exists c, s; split; [exact E|].
  destruct (boot_trust (KS := toy_keys) toy_sig toy_keys_ok toy_sig_ok [] [] cert_state_undivined Stub 1 2 [3; 4; 5; 6; 7; 8] c s s
    ltac:(repeat constructor; unword; lia) state_undivined_wf Logic.I E (reach_refl _))
    as (p & I & G & U & _ & L); exists p; split; [exact I|split; [|exact U]].
  cbn [snd] in T; rewrite G in T; exact T.
Defined.
