(* ===== verification/GoText.v ===== *)
(** * GoText: text as the toolchain files see it

    The functions of strings, unicode/utf8, unicode, encoding/hex and strconv that
    cmd/janos/signet and the tools that print signet files call.  A string is the list of
    its bytes. *)

From Stdlib Require Import String ZArith Lia List Bool.
From S2P Require Import Prelude Slices.
Import ListNotations.

(** ** encoding/hex *)

Inductive hex_error : Type := InvalidByteError (c : Z) | ErrLength.

Definition hextable : list Z := str "0123456789abcdef".

Definition EncodeToString (src : list Z) : list Z :=
  flat_map (fun v => [nth (Z.to_nat (Z.shiftr v 4)) hextable 0; nth (Z.to_nat (Z.land v 15)) hextable 0]) src.

(** The table, by its ranges. *)
Definition reverseHexTable (c : Z) : Z :=
  if (48 <=? c) && (c <=? 57) then c - 48
  else if (65 <=? c) && (c <=? 70) then c - 55
  else if (97 <=? c) && (c <=? 102) then c - 87
  else 0xFF.

(** [Decode] into a fresh slice. *)
Fixpoint DecodeString (src : list Z) : outcome hex_error (list Z) :=
  match src with
  | [] => Ret []
  | [p] => if 0x0F <? reverseHexTable p then Fail (InvalidByteError p) else Fail ErrLength
  | p :: q :: src =>
      let a := reverseHexTable p in
      let b := reverseHexTable q in
      if 0x0F <? a then Fail (InvalidByteError p)
      else if 0x0F <? b then Fail (InvalidByteError q)
      else bind (DecodeString src) (fun dst => Ret (Z.lor (u8 (Z.shiftl a 4)) b :: dst))
  end.

(** ** strconv *)

Inductive num_error : Type := ErrSyntax | ErrRange.

Definition lower (c : Z) : Z := Z.lor c 32.

(** The loop of [ParseUint] in base 10. *)
Fixpoint parse_digits (maxVal : Z) (s : list Z) (n : Z) : outcome num_error Z :=
  match s with
  | [] => Ret n
  | c :: s =>
      let d :=
        if (48 <=? c) && (c <=? 57) then Some (u8 (c - 48))
        else if (97 <=? lower c) && (lower c <=? 122) then Some (u8 (u8 (lower c - 97) + 10))
        else None in
      match d with
      | None => Fail ErrSyntax
      | Some d =>
          if 10 <=? d then Fail ErrSyntax
          else if (W64 - 1) / 10 + 1 <=? n then Fail ErrRange
          else
            let n := u64 (n * 10) in
            let n1 := u64 (n + d) in
            if (n1 <? n) || (maxVal <? n1) then Fail ErrRange else parse_digits maxVal s n1
      end
  end.

(** [ParseUint(s, 10, bitSize)] for a [bitSize] from 1 to 64. *)
Definition ParseUint (s : list Z) (bitSize : Z) : outcome num_error Z :=
  match s with [] => Fail ErrSyntax | _ => parse_digits (u64 (u64 (Z.shiftl 1 bitSize) - 1)) s 0 end.

(** ** unicode/utf8 and unicode *)

Definition RuneError : Z := 0xFFFD.
Definition RuneSelf : Z := 0x80.

(** [first], by its ranges: [None] for the values that are at least [as] (an invalid first
    byte here, because callers have dealt with ASCII), otherwise the size and the range
    accepted for the second byte. *)
Definition utf8_first (c : Z) : option (nat * Z * Z) :=
  if (0xC2 <=? c) && (c <=? 0xDF) then Some (2%nat, 0x80, 0xBF)
  else if c =? 0xE0 then Some (3%nat, 0xA0, 0xBF)
  else if c =? 0xED then Some (3%nat, 0x80, 0x9F)
  else if (0xE1 <=? c) && (c <=? 0xEF) then Some (3%nat, 0x80, 0xBF)
  else if c =? 0xF0 then Some (4%nat, 0x90, 0xBF)
  else if (0xF1 <=? c) && (c <=? 0xF3) then Some (4%nat, 0x80, 0xBF)
  else if c =? 0xF4 then Some (4%nat, 0x80, 0x8F)
  else None.

Definition cont (c : Z) : bool := (0x80 <=? c) && (c <=? 0xBF).

Definition decodeRuneInStringSlow (s : list Z) : Z * nat :=
  match s with
  | [] => (RuneError, 0%nat)
  | s0 :: rest =>
      match utf8_first s0 with
      | None => if s0 <? RuneSelf then (s0, 1%nat) else (RuneError, 1%nat)
      | Some (sz, lo, hi) =>
          if (length s <? sz)%nat then (RuneError, 1%nat) else
          let s1 := nth 0 rest 0 in
          if (s1 <? lo) || (hi <? s1) then (RuneError, 1%nat) else
          if (sz <=? 2)%nat then (Z.lor (Z.shiftl (Z.land s0 0x1F) 6) (Z.land s1 0x3F), 2%nat) else
          let s2 := nth 1 rest 0 in
          if negb (cont s2) then (RuneError, 1%nat) else
          if (sz <=? 3)%nat
          then (Z.lor (Z.lor (Z.shiftl (Z.land s0 0x0F) 12) (Z.shiftl (Z.land s1 0x3F) 6)) (Z.land s2 0x3F), 3%nat) else
          let s3 := nth 2 rest 0 in
          if negb (cont s3) then (RuneError, 1%nat) else
          (Z.lor (Z.lor (Z.lor (Z.shiftl (Z.land s0 0x07) 18) (Z.shiftl (Z.land s1 0x3F) 12)) (Z.shiftl (Z.land s2 0x3F) 6)) (Z.land s3 0x3F), 4%nat)
      end
  end.

Definition DecodeRuneInString (s : list Z) : Z * nat :=
  match s with
  | c :: _ => if c <? RuneSelf then (c, 1%nat) else decodeRuneInStringSlow s
  | [] => decodeRuneInStringSlow s
  end.

Definition RuneStart (b : Z) : bool := negb (Z.land b 0xC0 =? 0x80).

(** [for start--; start >= lim; start-- { if RuneStart(s[start]) { break } }]: from
    [start] down, at most [n] bytes. *)
Fixpoint rune_start_scan (n start : nat) (s : list Z) : Z :=
  match n with
  | O => Z.of_nat start - 1
  | S n =>
      match start with
      | O => -1
      | S start => if RuneStart (nth start s 0) then Z.of_nat start else rune_start_scan n start s
      end
  end.

Definition DecodeLastRuneInString (s : list Z) : Z * nat :=
  match length s with
  | O => (RuneError, 0%nat)
  | S start =>
      let r := nth start s 0 in
      if r <? RuneSelf then (r, 1%nat) else
      let from := Z.to_nat (rune_start_scan (Nat.min 3 start) start s) in
      let '(r, size) := DecodeRuneInString (skipn from s) in
      if negb (from + size =? S start)%nat then (RuneError, 1%nat) else (r, size)
  end.

Definition IsSpace (r : Z) : bool :=
  if (0 <=? r) && (r <=? 0xFF) then
    existsb (fun c => r =? c) [9; 10; 11; 12; 13; 32; 0x85; 0xA0]
  else
    (r =? 0x1680) || ((0x2000 <=? r) && (r <=? 0x200A)) || ((0x2028 <=? r) && (r <=? 0x2029)) ||
    (r =? 0x202F) || (r =? 0x205F) || (r =? 0x3000).

(** ** strings *)

(** The first index at which [substr] occurs. *)
Fixpoint Index (s substr : list Z) : option nat :=
  if is_prefix substr s then Some 0%nat
  else match s with [] => None | _ :: s => option_map S (Index s substr) end.

Definition IndexByte (s : list Z) (c : Z) : option nat := Index s [c].
Definition HasPrefix (s prefix : list Z) : bool := is_prefix prefix s.

(** [Split(s, sep)] for a separator of one byte: [Count] pieces are cut off, the rest is
    the last one. *)
Fixpoint genSplit (n : nat) (s : list Z) (sep : Z) : list (list Z) :=
  match n with
  | O => [s]
  | S n => match IndexByte s sep with None => [s] | Some m => firstn m s :: genSplit n (skipn (m + 1) s) sep end
  end.
Definition Count (s : list Z) (c : Z) : nat := length (filter (fun x => x =? c) s).
Definition Split (s : list Z) (sep : Z) : list (list Z) := genSplit (Count s sep) s sep.

Definition asciiSpace (c : Z) : bool := existsb (fun x => c =? x) [9; 10; 11; 12; 13; 32].

(** [indexFunc(s, IsSpace, false)] from index [i]; a rune has at least one byte. *)
Fixpoint indexFunc (fuel i : nat) (s : list Z) : option nat :=
  match fuel, skipn i s with
  | O, _ | _, [] => None
  | S fuel, rest =>
      let '(r, size) := DecodeRuneInString rest in
      if negb (IsSpace r) then Some i else indexFunc fuel (i + size) s
  end.

Definition TrimLeftFunc (s : list Z) : list Z :=
  match indexFunc (length s) 0 s with None => [] | Some i => skipn i s end.

(** [lastIndexFunc(s, IsSpace, false)], [i] bytes are left. *)
Fixpoint lastIndexFunc (fuel i : nat) (s : list Z) : option nat :=
  match fuel, i with
  | O, _ | _, O => None
  | S fuel, _ =>
      let '(r, size) := DecodeLastRuneInString (firstn i s) in
      let i := (i - size)%nat in
      if negb (IsSpace r) then Some i else lastIndexFunc fuel i s
  end.

Definition TrimRightFunc (s : list Z) : list Z :=
  match lastIndexFunc (length s) (length s) s with
  | None => []
  | Some i => firstn (i + snd (DecodeRuneInString (skipn i s))) s
  end.

Definition TrimFunc (s : list Z) : list Z := TrimRightFunc (TrimLeftFunc s).

(** The scan of [TrimSpace] from the end; [hi] bytes are left. *)
Fixpoint trim_end (hi : nat) (s : list Z) : list Z :=
  match hi with
  | O => []
  | S hi' =>
      let c := nth hi' s 0 in
      if RuneSelf <=? c then TrimRightFunc (firstn hi s)
      else if negb (asciiSpace c) then firstn hi s
      else trim_end hi' s
  end.

(** The scan from the front.  At a byte that is no space the scan from the end returns,
    at that byte at the latest. *)
Fixpoint TrimSpace (s : list Z) : list Z :=
  match s with
  | [] => []
  | c :: s' =>
      if RuneSelf <=? c then TrimFunc s
      else if asciiSpace c then TrimSpace s'
      else trim_end (length s) s
  end.

(** ** fmt *)

(** [%d] of an unsigned integer: the digits below [n] in front of [buf]; a uint64 has at
    most 20. *)
Fixpoint fmt_digits (fuel : nat) (u : Z) (buf : list Z) : list Z :=
  match fuel with
  | O => buf
  | S fuel => if 10 <=? u then fmt_digits fuel (u / 10) (48 + u - u / 10 * 10 :: buf) else 48 + u :: buf
  end.
Definition fmtUint (u : Z) : list Z := fmt_digits 20 u [].

(** ** Lemmas *)

Lemma hex_digit a : 0 <= a < 16 ->
  let c := nth (Z.to_nat a) hextable 0 in reverseHexTable c = a /\ 48 <= c <= 102 /\ c <> 61.
Proof.
  intros H; assert (E : forallb (fun a => let c := nth (Z.to_nat a) hextable 0 in
    (reverseHexTable c =? a) && (48 <=? c) && (c <=? 102) && negb (c =? 61)) [0;1;2;3;4;5;6;7;8;9;10;11;12;13;14;15] = true)
    by (vm_compute; reflexivity).
  rewrite forallb_forall in E; specialize (E a ltac:(cbn; lia)); cbv zeta in *.
  rewrite !andb_true_iff, negb_true_iff, Z.eqb_eq, !Z.leb_le, Z.eqb_neq in E; lia.
Qed.

Lemma byte_split v : is_byte v ->
  0 <= Z.shiftr v 4 < 16 /\ 0 <= Z.land v 15 < 16 /\ Z.lor (u8 (Z.shiftl (Z.shiftr v 4) 4)) (Z.land v 15) = v.
Proof.
  unword; intros H; change 15 with (2 ^ 4 - 1); rewrite (land_mask v 4), Z.shiftr_div_pow2 by lia; change (2 ^ 4) with 16.
  pose proof (Z.div_mod v 16 ltac:(lia)); pose proof (Z.mod_pos_bound v 16 ltac:(lia)).
  assert (0 <= v / 16 < 16) by (split; [apply Z.div_pos; lia|apply Z.div_lt_upper_bound; lia]).
  split; [lia|split; [lia|]]; rewrite Z.shiftl_mul_pow2 by lia; change (2 ^ 4) with 16.
  rewrite u8_small by (unword; lia); change 16 with (2 ^ 4) at 2; rewrite (lor_add_high (v / 16) (v mod 16) 4) by (change (2 ^ 4) with 16; lia).
  change (2 ^ 4) with 16; lia.
Qed.

Lemma hex_roundtrip l : bytes l -> DecodeString (EncodeToString l) = Ret l.
Proof.
  induction 1 as [|v l Hv _ IH]; [reflexivity|].
  destruct (byte_split v Hv) as (H1 & H2 & H3), (hex_digit _ H1) as [E1 _], (hex_digit _ H2) as [E2 _].
  unfold EncodeToString in *; cbn [flat_map app DecodeString]; cbv zeta; rewrite E1, E2.
  destruct (Z.ltb_spec 0x0F (Z.shiftr v 4)), (Z.ltb_spec 0x0F (Z.land v 15)); try lia.
  rewrite IH; cbn [bind]; rewrite H3; reflexivity.
Qed.

Lemma hex_chars l : bytes l -> Forall (fun c => 48 <= c <= 102 /\ c <> 61) (EncodeToString l).
Proof.
  induction 1 as [|v l Hv _ IH]; [constructor|]; destruct (byte_split v Hv) as (H1 & H2 & _).
  unfold EncodeToString in *; cbn [flat_map app]; constructor; [apply (hex_digit _ H1)|constructor; [apply (hex_digit _ H2)|exact IH]].
Qed.

Lemma length_hex l : length (EncodeToString l) = (2 * length l)%nat.
Proof. induction l as [|v l IH]; [reflexivity|]; unfold EncodeToString in *; cbn [flat_map app length]; rewrite IH; lia. Qed.

(** What [DecodeString] returns are bytes, half as many. *)
Lemma DecodeString_wf : forall s l, DecodeString s = Ret l -> bytes l /\ length s = (2 * length l)%nat.
Proof.
  fix IH 1; intros [|p [|q s]] l; cbn [DecodeString]; [intros [= <-]; split; [constructor|reflexivity]|destruct (_ <? _); discriminate|].
  destruct (Z.ltb_spec 0x0F (reverseHexTable p)) as [|Hp]; [discriminate|].
  destruct (Z.ltb_spec 0x0F (reverseHexTable q)) as [|Hq]; [discriminate|].
  intros H; apply bind_Ret in H as (d & E & H); apply Ret_inj in H; subst l; destruct (IH _ _ E) as [B L].
  split; [constructor; [|exact B]|cbn [length]; lia].
  assert (R : forall c, 0 <= reverseHexTable c) by
    (intros c; unfold reverseHexTable;
     destruct ((48 <=? c) && (c <=? 57)) eqn:?, ((65 <=? c) && (c <=? 70)) eqn:?, ((97 <=? c) && (c <=? 102)) eqn:?; lia).
  apply byte_lor; [apply u8_range|pose proof (R q); unword; lia].
Qed.

(** Decimal printing and parsing. *)
Lemma parse_digit max c s n :
  0 <= c <= 9 -> 0 <= n -> n * 10 + c < W64 ->
  parse_digits max (48 + c :: s) n = if max <? n * 10 + c then Fail ErrRange else parse_digits max s (n * 10 + c).
Proof.
  intros Hc Hn Hu; cbn [parse_digits].
  destruct (Z.leb_spec 48 (48 + c)), (Z.leb_spec (48 + c) 57); try lia; cbn [andb].
  replace (48 + c - 48) with c by lia; rewrite (u8_small c) by (unword; lia).
  destruct (Z.leb_spec 10 c); [lia|].
  pose proof (Z.div_mod (W64 - 1) 10 ltac:(lia)); pose proof (Z.mod_pos_bound (W64 - 1) 10 ltac:(lia)).
  destruct (Z.leb_spec ((W64 - 1) / 10 + 1) n); [lia|].
  rewrite (u64_small (n * 10)) by (unword; lia); rewrite (u64_small (n * 10 + c)) by (unword; lia).
  destruct (Z.ltb_spec (n * 10 + c) (n * 10)); [lia|]; reflexivity.
Qed.

Lemma fmt_parse max fuel u buf :
  0 <= u < W64 -> u < 10 ^ Z.of_nat fuel -> (0 < fuel)%nat ->
  parse_digits max (fmt_digits fuel u buf) 0 = if max <? u then Fail ErrRange else parse_digits max buf u.
Proof.
  revert u buf; induction fuel as [|fuel IH]; intros u buf Hu Hf H0; [lia|]; cbn [fmt_digits].
  destruct (Z.leb_spec 10 u) as [H|H]; [|apply (parse_digit max u buf 0); lia].
  pose proof (Z.div_mod u 10 ltac:(lia)) as E; pose proof (Z.mod_pos_bound u 10 ltac:(lia)).
  assert (P : 0 <= u / 10 <= u) by lia.
  rewrite Nat2Z.inj_succ, Z.pow_succ_r in Hf by lia.
  assert (F : u / 10 < 10 ^ Z.of_nat fuel) by lia.
  destruct fuel as [|fuel]; [change (10 ^ Z.of_nat 0) with 1 in F; lia|].
  rewrite IH by (assumption || lia).
  replace (48 + u - u / 10 * 10) with (48 + u mod 10) by lia.
  rewrite parse_digit by lia; replace (u / 10 * 10 + u mod 10) with u by lia.
  destruct (Z.ltb_spec max (u / 10)), (Z.ltb_spec max u); try reflexivity; lia.
Qed.

Lemma fmt_digits_not_nil fuel u buf : (0 < fuel)%nat -> fmt_digits fuel u buf <> [].
Proof.
  revert u buf; induction fuel as [|fuel IH]; intros u buf H; [lia|]; cbn [fmt_digits].
  destruct (_ <=? _); [|discriminate]; destruct fuel; [discriminate|apply IH; lia].
Qed.

(** Parsing what [%d] printed: the number, or the range error. *)
Lemma ParseUint_fmt u bits : 0 <= u < W64 -> 0 < bits <= 64 ->
  ParseUint (fmtUint u) bits = if u <? 2 ^ bits then Ret u else Fail ErrRange.
Proof.
  intros Hu Hb; unfold ParseUint, fmtUint.
  pose proof (fmt_digits_not_nil 20 u [] ltac:(lia)) as N.
  destruct (fmt_digits 20 u []) as [|c l] eqn:E; [contradiction|]; rewrite <- E.
  rewrite fmt_parse by (assumption || lia || (change (10 ^ Z.of_nat 20) with 100000000000000000000; lia)); cbn [parse_digits].
  assert (M : u64 (u64 (Z.shiftl 1 bits) - 1) = 2 ^ bits - 1).
  { rewrite Z.shiftl_1_l; destruct (Z.eq_dec bits 64) as [->|]; [reflexivity|].
    assert (2 ^ bits <= 2 ^ 63) by (apply Z.pow_le_mono_r; lia); change (2 ^ 63) with 9223372036854775808 in *.
    pose proof (Z.pow_pos_nonneg 2 bits ltac:(lia) ltac:(lia)).
    rewrite (u64_small (2 ^ bits)) by (unword; lia); apply u64_small; unword; lia. }
  rewrite M; destruct (Z.ltb_spec (2 ^ bits - 1) u), (Z.ltb_spec u (2 ^ bits)); reflexivity || lia.
Qed.

Lemma fmt_chars fuel u buf : 0 <= u -> Forall (fun c => 48 <= c <= 57) buf -> u < 10 ^ Z.of_nat fuel -> Forall (fun c => 48 <= c <= 57) (fmt_digits fuel u buf).
Proof.
  revert u buf; induction fuel as [|fuel IH]; intros u buf Hu H B; [exact H|]; cbn [fmt_digits].
  destruct (Z.leb_spec 10 u); [|constructor; [lia|exact H]].
  pose proof (Z.div_mod u 10 ltac:(lia)); pose proof (Z.mod_pos_bound u 10 ltac:(lia)).
  rewrite Nat2Z.inj_succ, Z.pow_succ_r in B by lia.
  apply IH; [lia|constructor; [lia|exact H]|lia].
Qed.

(** ** Lines and their ends *)

(** A byte that ends a trimmed string: ASCII and no space. *)
Definition solid (c : Z) : bool := (c <? RuneSelf) && negb (asciiSpace c).

Lemma solid_spec c : solid c = true -> (RuneSelf <=? c) = false /\ asciiSpace c = false.
Proof. unfold solid; rewrite andb_true_iff, negb_true_iff; intros [H ->]; split; [apply Z.leb_gt, Z.ltb_lt, H|reflexivity]. Qed.

Lemma asciiSpace_ascii c : asciiSpace c = true -> (RuneSelf <=? c) = false.
Proof. unfold asciiSpace; cbn [existsb]; intros H; apply Z.leb_gt; unfold RuneSelf; lia. Qed.

Lemma trim_end_stop s c pad :
  solid c = true -> forallb asciiSpace pad = true -> trim_end (length (s ++ c :: pad)) (s ++ c :: pad) = s ++ [c].
Proof.
  intros Hc Hp; apply solid_spec in Hc as [H1 H2].
  enough (G : forall k, (k <= length pad)%nat -> trim_end (length s + S k) (s ++ c :: pad) = s ++ [c]).
  { rewrite length_app; cbn [length]; apply (G (length pad)); lia. }
  induction k as [|k IH]; intros Hk; rewrite Nat.add_succ_r; cbn [trim_end].
  - rewrite Nat.add_0_r, nth_middle, H1, H2; cbn [negb].
    replace (s ++ c :: pad) with ((s ++ [c]) ++ pad) by (rewrite <- app_assoc; reflexivity).
    replace (S (length s)) with (length (s ++ [c]) + 0)%nat by (rewrite length_app; cbn; lia).
    rewrite firstn_app_2; apply app_nil_r.
  - replace (length s + S k)%nat with (length s + S k)%nat by lia.
    rewrite app_nth2 by lia; replace (length s + S k - length s)%nat with (S k) by lia; cbn [nth].
    assert (E : asciiSpace (nth k pad 0) = true) by (rewrite forallb_forall in Hp; apply Hp, nth_In; lia).
    rewrite (asciiSpace_ascii _ E), E; cbn [negb]; apply IH; lia.
Qed.

(** Trimming a string that has solid ends and spaces around it. *)
Lemma TrimSpace_pad before s after :
  forallb asciiSpace before = true -> forallb asciiSpace after = true ->
  (exists c, s = [c] /\ solid c = true) \/ (exists c s' d, s = c :: s' ++ [d] /\ solid c = true /\ solid d = true) ->
  TrimSpace (before ++ s ++ after) = s.
Proof.
  intros Hb Ha Hs; induction before as [|x before IH]; cbn [app].
  - destruct Hs as [(c & -> & Hc)|(c & s' & d & -> & Hc & Hd)]; cbn [app TrimSpace]; destruct (solid_spec _ Hc) as [E1 E2]; rewrite E1, E2.
    + exact (trim_end_stop [] c after Hc Ha).
    + rewrite <- app_assoc; exact (trim_end_stop (c :: s') d after Hd Ha).
  - cbn [forallb] in Hb; apply andb_true_iff in Hb as [Hx Hb]; cbn [TrimSpace].
    rewrite (asciiSpace_ascii _ Hx), Hx; exact (IH Hb).
Qed.

Lemma Index_byte_cons s c x : IndexByte (x :: s) c = if x =? c then Some 0%nat else option_map S (IndexByte s c).
Proof. unfold IndexByte; cbn [Index is_prefix]; rewrite andb_true_r; reflexivity. Qed.

Lemma IndexByte_app l c r : ~ In c l -> IndexByte (l ++ c :: r) c = Some (length l).
Proof.
  induction l as [|x l IH]; intros H; cbn [app length]; rewrite Index_byte_cons; [rewrite Z.eqb_refl; reflexivity|].
  destruct (Z.eqb_spec x c) as [->|]; [contradiction H; left; reflexivity|]; rewrite IH by (intros G; apply H; right; exact G); reflexivity.
Qed.

Lemma IndexByte_none l c : ~ In c l -> IndexByte l c = None.
Proof.
  induction l as [|x l IH]; intros H; [reflexivity|]; rewrite Index_byte_cons.
  destruct (Z.eqb_spec x c) as [->|]; [contradiction H; left; reflexivity|]; rewrite IH by (intros G; apply H; right; exact G); reflexivity.
Qed.

Lemma Count_app l r c : Count (l ++ r) c = (Count l c + Count r c)%nat.
Proof. unfold Count; rewrite filter_app, length_app; reflexivity. Qed.

Lemma Count_none l c : ~ In c l -> Count l c = 0%nat.
Proof.
  unfold Count; induction l as [|x l IH]; intros H; [reflexivity|]; cbn [filter].
  destruct (Z.eqb_spec x c) as [->|]; [contradiction H; left; reflexivity|apply IH; intros G; apply H; right; exact G].
Qed.

Lemma Split_line l r c : ~ In c l -> Split (l ++ c :: r) c = l :: Split r c.
Proof.
  intros H; unfold Split; rewrite Count_app, Count_none by exact H; unfold Count at 1; cbn [filter].
  rewrite Z.eqb_refl; cbn [length Nat.add genSplit]; rewrite IndexByte_app by exact H.
  rewrite <- (Nat.add_0_r (length l)) at 1; rewrite firstn_app_2; cbn [firstn]; rewrite app_nil_r.
  replace (length l + 1)%nat with (length (l ++ [c]) + 0)%nat by (rewrite length_app; cbn; lia).
  replace (l ++ c :: r) with ((l ++ [c]) ++ r) by (rewrite <- app_assoc; reflexivity).
  rewrite skipn_app, skipn_all2 by lia; replace (length (l ++ [c]) + 0 - length (l ++ [c]))%nat with 0%nat by lia; reflexivity.
Qed.

Lemma Split_end l c : ~ In c l -> Split l c = [l].
Proof. intros H; unfold Split; rewrite Count_none by exact H; reflexivity. Qed.

(** A text of lines. *)
Definition unlines (ls : list (list Z)) : list Z := flat_map (fun l => l ++ [10]) ls.

Lemma Split_unlines ls : Forall (fun l => ~ In 10 l) ls -> Split (unlines ls) 10 = ls ++ [[]].
Proof.
  induction 1 as [|l ls H _ IH]; [reflexivity|]; unfold unlines in *; cbn [flat_map app].
  rewrite <- app_assoc; cbn [app]; rewrite Split_line, IH by exact H; reflexivity.
Qed.

(** [Index] finds the first occurrence. *)
Lemma Index_Some s sub i : Index s sub = Some i -> s = firstn i s ++ sub ++ skipn (i + length sub) s.
Proof.
  revert i; induction s as [|x s IH]; intros i; cbn [Index].
  - destruct (is_prefix sub []) eqn:E; [|discriminate]; intros [= <-]; exact (is_prefix_split _ _ E).
  - destruct (is_prefix sub (x :: s)) eqn:E; [intros [= <-]; exact (is_prefix_split _ _ E)|].
    destruct (Index s sub) as [j|]; [|discriminate]; intros [= <-]; cbn [firstn app Nat.add skipn]; f_equal; apply IH; reflexivity.
Qed.

Lemma is_prefix_app sub r : is_prefix sub (sub ++ r) = true.
Proof. induction sub as [|x sub IH]; [reflexivity|]; cbn [app is_prefix]; rewrite Z.eqb_refl; exact IH. Qed.

Lemma Index_first l sub r c :
  head sub = Some c -> ~ In c l -> Index (l ++ sub ++ r) sub = Some (length l).
Proof.
  intros Hc; destruct sub as [|c' sub]; [discriminate|]; injection Hc as ->.
  induction l as [|x l IH]; intros H.
  - change ([] ++ (c :: sub) ++ r) with ((c :: sub) ++ r); pose proof (is_prefix_app (c :: sub) r) as P.
    destruct ((c :: sub) ++ r) eqn:E; [discriminate|]; cbn [Index]; rewrite P; reflexivity.
  - cbn [app Index]; cbn [is_prefix]; destruct (Z.eqb_spec x c) as [->|]; [contradiction H; left; reflexivity|].
    cbn [andb]; change (c :: sub ++ r) with ((c :: sub) ++ r); rewrite IH by (intros G; apply H; right; exact G); reflexivity.
Qed.
