(* ===== verification/Signet.v ===== *)
(** * Signet: the file that names a build's signing keys

    cmd/janos/signet/signet.go: the line parser, the validation before a build, and the
    check of KMS URLs. *)

From Stdlib Require Import String ZArith Lia List Bool.
From S2P Require Import Prelude Slices GoText.
Import ListNotations.

Record Config : Type := MkConfig {
  GuildPubKey : list Z;
  GuildDiviner : list Z;
  ReleasePubKey : list Z;
  ReleaseDiviner : list Z;
  ReleaseParentCert : list Z;
  ReleaseEpoch : Z;
}.

Definition config_zero : Config := MkConfig (repeat 0 64) [] (repeat 0 64) [] (repeat 0 64) 0.

(** The error values, each naming its cause; a line number counts from 1. *)
Inductive hex64_error : Type := BadHex (e : hex_error) | BadLength (n : nat).
Inductive signet_error : Type :=
| ErrOpen
| ErrRead
| ErrMissingEq (line : nat)
| ErrGuildPubKey (line : nat) (e : hex64_error)
| ErrReleasePubKey (line : nat) (e : hex64_error)
| ErrEpoch (line : nat) (e : num_error)
| ErrUnknownKey (line : nat) (key : list Z)
| ErrParentCert (e : hex64_error).

(** ** Parsing *)

(** [decodeHex64(s, &out)]: the new value of [out]; an empty string leaves it alone. *)
Definition decodeHex64 (s out : list Z) : outcome hex64_error (list Z) :=
  match s with
  | [] => Ret out
  | _ =>
      match DecodeString s with
      | Ret decoded => if negb (length decoded =? 64)%nat then Fail (BadLength (length decoded)) else Ret decoded
      | Fail e => Fail (BadHex e)
      | Panic => Panic
      end
  end.

Definition wrap_error {E E' A} (f : E -> E') (x : outcome E A) : outcome E' A :=
  match x with Ret a => Ret a | Fail e => Fail (f e) | Panic => Panic end.

(** The [switch key]; [line] is [lineno+1]. *)
Definition set_key (line : nat) (st : Config * list Z) (key val : list Z) : outcome signet_error (Config * list Z) :=
  let '(c, parent) := st in
  if bytes_eqb key (str "guild_pubkey") then
    bind (wrap_error (ErrGuildPubKey line) (decodeHex64 val (GuildPubKey c))) (fun pk =>
    Ret (MkConfig pk (GuildDiviner c) (ReleasePubKey c) (ReleaseDiviner c) (ReleaseParentCert c) (ReleaseEpoch c), parent))
  else if bytes_eqb key (str "guild_diviner") then
    Ret (MkConfig (GuildPubKey c) val (ReleasePubKey c) (ReleaseDiviner c) (ReleaseParentCert c) (ReleaseEpoch c), parent)
  else if bytes_eqb key (str "release_pubkey") then
    bind (wrap_error (ErrReleasePubKey line) (decodeHex64 val (ReleasePubKey c))) (fun pk =>
    Ret (MkConfig (GuildPubKey c) (GuildDiviner c) pk (ReleaseDiviner c) (ReleaseParentCert c) (ReleaseEpoch c), parent))
  else if bytes_eqb key (str "release_diviner") then
    Ret (MkConfig (GuildPubKey c) (GuildDiviner c) (ReleasePubKey c) val (ReleaseParentCert c) (ReleaseEpoch c), parent)
  else if bytes_eqb key (str "release_parent_cert") then Ret (c, val)
  else if bytes_eqb key (str "release_epoch") then
    match val with
    | [] => Ret st
    | _ =>
        bind (wrap_error (ErrEpoch line) (ParseUint val 32)) (fun n =>
        Ret (MkConfig (GuildPubKey c) (GuildDiviner c) (ReleasePubKey c) (ReleaseDiviner c) (ReleaseParentCert c) (u32 n), parent))
    end
  else Fail (ErrUnknownKey line key).

(** One turn of the loop over the lines. *)
Definition parse_line (line : nat) (st : Config * list Z) (rawLine : list Z) : outcome signet_error (Config * list Z) :=
  let l := TrimSpace rawLine in
  if (length l =? 0)%nat || HasPrefix l (str "#") then Ret st
  else
    match IndexByte l 61 with
    | None => Fail (ErrMissingEq line)
    | Some eq => set_key line st (TrimSpace (firstn eq l)) (TrimSpace (skipn (eq + 1) l))
    end.

Fixpoint parse_lines (line : nat) (st : Config * list Z) (lines : list (list Z)) : outcome signet_error (Config * list Z) :=
  match lines with
  | [] => Ret st
  | l :: lines => bind (parse_line line st l) (fun st => parse_lines (S line) st lines)
  end.

(** [Parse]; [data] is what [io.ReadAll] returned, [None] its error. *)
Definition Parse (data : option (list Z)) : outcome signet_error Config :=
  match data with
  | None => Fail ErrRead
  | Some data =>
      bind (parse_lines 1 (config_zero, []) (Split data 10)) (fun '(c, releaseParentCertHex) =>
      match releaseParentCertHex with
      | [] => Ret c
      | _ =>
          match DecodeString releaseParentCertHex with
          | Ret decoded =>
              if negb (length decoded =? 64)%nat then Fail (ErrParentCert (BadLength (length decoded)))
              else Ret (MkConfig (GuildPubKey c) (GuildDiviner c) (ReleasePubKey c) (ReleaseDiviner c) decoded (ReleaseEpoch c))
          | Fail e => Fail (ErrParentCert (BadHex e))
          | Panic => Panic
          end
      end)
  end.

(** [Load]; [file] is the file's content, [None] when it cannot be opened. *)
Definition Load (file : option (option (list Z))) : outcome signet_error Config :=
  match file with None => Fail ErrOpen | Some data => Parse data end.

(** ** Validation *)

Inductive scheme_error : Type := ErrMissingScheme | ErrFileScheme | ErrUnknownScheme (scheme : list Z).
Inductive validate_error : Type :=
| ErrGuildEmpty | ErrReleaseEmpty | ErrDivinerEmpty | ErrDivinerScheme (e : scheme_error) | ErrParentEmpty.

Definition validateDivinerScheme (url : list Z) : outcome scheme_error unit :=
  match Index url (str "://") with
  | None => Fail ErrMissingScheme
  | Some i =>
      let scheme := firstn i url in
      if existsb (bytes_eqb scheme) [str "gcpkms"; str "awskms"; str "azurekv"] then Ret tt
      else if bytes_eqb scheme (str "mockdiviner") then Ret tt
      else if bytes_eqb scheme (str "file") then Fail ErrFileScheme
      else Fail (ErrUnknownScheme scheme)
  end.

Definition ValidateForBuild (c : Config) : outcome validate_error unit :=
  if bytes_eqb (GuildPubKey c) (repeat 0 64) then Fail ErrGuildEmpty
  else if bytes_eqb (ReleasePubKey c) (repeat 0 64) then Fail ErrReleaseEmpty
  else if (length (ReleaseDiviner c) =? 0)%nat then Fail ErrDivinerEmpty
  else
    bind (wrap_error ErrDivinerScheme (validateDivinerScheme (ReleaseDiviner c))) (fun _ =>
    if bytes_eqb (ReleaseParentCert c) (repeat 0 64) then Fail ErrParentEmpty else Ret tt).

(** ** Lemmas *)

(** The types of the fields. *)
Record config_wf (c : Config) : Prop := {
  cw_guild : bytes (GuildPubKey c) /\ length (GuildPubKey c) = 64%nat;
  cw_release : bytes (ReleasePubKey c) /\ length (ReleasePubKey c) = 64%nat;
  cw_parent : bytes (ReleaseParentCert c) /\ length (ReleaseParentCert c) = 64%nat;
  cw_epoch : is_u32 (ReleaseEpoch c);
}.

Lemma zero64 : bytes (repeat 0 64) /\ length (repeat 0 64) = 64%nat.
Proof. split; [apply bytesb_ok; reflexivity|reflexivity]. Qed.

Lemma config_zero_wf : config_wf config_zero.
Proof. split; try exact zero64; unfold config_zero, ReleaseEpoch; unword; lia. Qed.

Lemma wrap_error_Ret {E E' A} (f : E -> E') (x : outcome E A) a : wrap_error f x = Ret a <-> x = Ret a.
Proof. destruct x; cbn; split; congruence. Qed.

Lemma decodeHex64_wf s out l :
  bytes out /\ length out = 64%nat -> decodeHex64 s out = Ret l -> bytes l /\ length l = 64%nat.
Proof.
  intros Ho; unfold decodeHex64; destruct s as [|x s]; [intros [= <-]; exact Ho|].
  destruct (DecodeString (x :: s)) as [d| |] eqn:E; try discriminate.
  destruct (Nat.eqb_spec (length d) 64) as [L|]; [|discriminate]; intros H; apply Ret_inj in H; subst d.
  split; [exact (proj1 (DecodeString_wf _ _ E))|exact L].
Qed.

Lemma set_key_wf line st key val st' :
  config_wf (fst st) -> set_key line st key val = Ret st' -> config_wf (fst st').
Proof.
  destruct st as [c p]; intros [G R P E]; unfold set_key; cbn [fst] in *.
  destruct (bytes_eqb key (str "guild_pubkey")).
  { intros H; apply bind_Ret in H as (pk & H & [= <-]); apply wrap_error_Ret in H; split; auto; exact (decodeHex64_wf _ _ _ G H). }
  destruct (bytes_eqb key (str "guild_diviner")); [intros [= <-]; split; auto|].
  destruct (bytes_eqb key (str "release_pubkey")).
  { intros H; apply bind_Ret in H as (pk & H & [= <-]); apply wrap_error_Ret in H; split; auto; exact (decodeHex64_wf _ _ _ R H). }
  destruct (bytes_eqb key (str "release_diviner")); [intros [= <-]; split; auto|].
  destruct (bytes_eqb key (str "release_parent_cert")); [intros [= <-]; split; auto|].
  destruct (bytes_eqb key (str "release_epoch")); [|discriminate].
  destruct val; [intros [= <-]; split; auto|]; intros H; apply bind_Ret in H as (n & _ & H); apply Ret_inj in H; subst st'.
  split; auto; apply u32_range.
Qed.

Lemma parse_lines_wf line st ls st' :
  config_wf (fst st) -> parse_lines line st ls = Ret st' -> config_wf (fst st').
Proof.
  revert line st; induction ls as [|l ls IH]; intros line st W; cbn [parse_lines]; [intros [= <-]; exact W|].
  intros H; apply bind_Ret in H as (st1 & H1 & H); refine (IH _ _ _ H); clear H; unfold parse_line in H1.
  destruct (_ || _); [injection H1 as <-; exact W|]; destruct (IndexByte _ _); [|discriminate]; exact (set_key_wf _ _ _ _ _ W H1).
Qed.

(** *** Lines that a tool printed *)

(** A value whose ends are ASCII and no spaces, on one line. *)
Definition value_ok (v : list Z) : Prop :=
  ((exists c, v = [c] /\ solid c = true) \/ (exists c s d, v = c :: s ++ [d] /\ solid c = true /\ solid d = true)) /\
  ~ In 10 v.

(** [key], spaces, an equals sign, a space and the value. *)
Definition setting_line (key : list Z) (pad : nat) (val : list Z) : list Z := key ++ repeat 32 pad ++ [61; 32] ++ val.

Lemma spaces_ok n : forallb asciiSpace (repeat 32 n) = true.
Proof. induction n; [reflexivity|exact IHn]. Qed.

Lemma not_in_repeat (x y : Z) n : x <> y -> ~ In x (repeat y n).
Proof. intros H G; apply repeat_spec in G; contradiction. Qed.

Lemma solid_list_ends l : (2 <= length l)%nat -> Forall (fun c => solid c = true) l ->
  exists c s d, l = c :: s ++ [d] /\ solid c = true /\ solid d = true.
Proof.
  intros L F; destruct l as [|c l]; [cbn in L; lia|]; destruct (exists_last (l := l)) as (s & d & ->); [intros ->; cbn in L; lia|].
  exists c, s, d; split; [reflexivity|]; inversion_clear F as [|? ? Hc F']; apply Forall_app in F' as [_ F']; inversion_clear F'; auto.
Qed.

Lemma value_ok_solid l : (1 <= length l)%nat -> Forall (fun c => solid c = true) l -> value_ok l.
Proof.
  intros L F; split.
  - destruct l as [|c [|d l]]; [cbn in L; lia|left; exists c; inversion_clear F; auto|right; apply solid_list_ends; [cbn; lia|exact F]].
  - intros H; rewrite Forall_forall in F; specialize (F 10 H); discriminate.
Qed.

Lemma parse_line_setting line st key pad val :
  (2 <= length key)%nat -> Forall (fun c => solid c = true /\ c <> 61 /\ c <> 35) key -> value_ok val ->
  parse_line line st (setting_line key pad val) = set_key line st key val.
Proof.
  intros L F [V _]; unfold parse_line, setting_line.
  assert (Fk : Forall (fun c => solid c = true) key) by (revert F; apply Forall_impl; tauto).
  destruct (solid_list_ends key L Fk) as (k0 & k1 & k2 & Ek & S0 & S2).
  assert (T : TrimSpace (key ++ repeat 32 pad ++ [61; 32] ++ val) = key ++ repeat 32 pad ++ [61; 32] ++ val).
  { rewrite <- (app_nil_r (key ++ _)) at 1; apply (TrimSpace_pad [] (key ++ repeat 32 pad ++ [61; 32] ++ val) []); try reflexivity.
    right; rewrite Ek; destruct V as [(c & -> & Hc)|(c & s & d & -> & Hc & Hd)].
    - exists k0, ((k1 ++ [k2]) ++ repeat 32 pad ++ [61; 32]), c; split; [|auto]; cbn [app]; rewrite <- !app_assoc; reflexivity.
    - exists k0, ((k1 ++ [k2]) ++ repeat 32 pad ++ [61; 32] ++ c :: s), d; split; [|auto]; cbn [app]; rewrite <- !app_assoc; reflexivity. }
  cbv zeta; rewrite T.
  assert (H0 : HasPrefix (key ++ repeat 32 pad ++ [61; 32] ++ val) (str "#") = false).
  { rewrite Ek in *; inversion_clear F as [|? ? (_ & _ & N) _]; unfold HasPrefix; cbn [app]; change (str "#") with [35]; cbn [is_prefix].
    destruct (Z.eqb_spec k0 35); [contradiction|reflexivity]. }
  assert (HL : Nat.eqb (length (key ++ repeat 32 pad ++ [61; 32] ++ val)) 0 = false)
    by (apply Nat.eqb_neq; rewrite length_app; lia).
  rewrite H0, HL; cbn [orb].
  assert (N : ~ In 61 (key ++ repeat 32 pad)).
  { rewrite in_app_iff; intros [H|H]; [rewrite Forall_forall in F; destruct (F 61 H) as (_ & N & _); contradiction|].
    revert H; apply not_in_repeat; lia. }
  replace (key ++ repeat 32 pad ++ [61; 32] ++ val) with ((key ++ repeat 32 pad) ++ 61 :: 32 :: val) by (rewrite <- app_assoc; reflexivity).
  rewrite IndexByte_app by exact N.
  set (kp := key ++ repeat 32 pad) in *.
  rewrite <- (Nat.add_0_r (length kp)) at 1; rewrite firstn_app_2; cbn [firstn]; rewrite app_nil_r.
  replace (skipn (length kp + 1) (kp ++ 61 :: 32 :: val)) with (32 :: val).
  2: { replace (kp ++ 61 :: 32 :: val) with ((kp ++ [61]) ++ 32 :: val) by (rewrite <- app_assoc; reflexivity).
       replace (length kp + 1)%nat with (length (kp ++ [61])) by (rewrite length_app; cbn; lia).
       rewrite skipn_app, skipn_all2, Nat.sub_diag by lia; reflexivity. }
  f_equal.
  - apply (TrimSpace_pad [] key (repeat 32 pad)); [reflexivity|apply spaces_ok|right; exists k0, k1, k2; auto].
  - rewrite <- (app_nil_r (32 :: val)); apply (TrimSpace_pad [32] val []); [reflexivity|reflexivity|exact V].
Qed.

Lemma parse_line_comment line st l : value_ok (35 :: l) -> parse_line line st (35 :: l) = Ret st.
Proof.
  intros [V _]; unfold parse_line; pose proof (TrimSpace_pad [] (35 :: l) [] eq_refl eq_refl V) as T.
  rewrite app_nil_r in T; cbn [app] in T; rewrite T; reflexivity.
Qed.

Lemma parse_line_blank line st : parse_line line st [] = Ret st.
Proof. reflexivity. Qed.

Lemma parse_lines_comments line st ls r :
  Forall (fun l => l = [] \/ exists l', l = 35 :: l' /\ value_ok l) ls ->
  parse_lines line st (ls ++ r) = parse_lines (line + length ls) st r.
Proof.
  intros F; revert line; induction F as [|l ls H _ IH]; intros line; [cbn; f_equal; lia|].
  cbn [app parse_lines length]; destruct H as [->|(l' & -> & V)]; rewrite ?parse_line_blank, ?parse_line_comment by exact V; cbn [bind];
    rewrite IH; f_equal; lia.
Qed.

Lemma parse_lines_setting line st key pad val r :
  (2 <= length key)%nat -> Forall (fun c => solid c = true /\ c <> 61 /\ c <> 35) key -> value_ok val ->
  parse_lines line st (setting_line key pad val :: r) = bind (set_key line st key val) (fun st => parse_lines (S line) st r).
Proof. intros; cbn [parse_lines]; rewrite parse_line_setting by assumption; reflexivity. Qed.

(** Hexadecimal values. *)
Lemma hex_value_ok l : bytes l -> (1 <= length l)%nat -> value_ok (EncodeToString l).
Proof.
  intros B L; apply value_ok_solid; [rewrite length_hex; lia|].
  generalize (hex_chars l B); apply Forall_impl; intros c [H _]; unfold solid, asciiSpace, RuneSelf; cbn [existsb]; lia.
Qed.

Lemma decode_hex64 l out : bytes l -> length l = 64%nat -> decodeHex64 (EncodeToString l) out = Ret l.
Proof.
  intros B L; unfold decodeHex64; destruct (EncodeToString l) eqn:E.
  - pose proof (length_hex l) as H; rewrite E in H; cbn in H; lia.
  - rewrite <- E, hex_roundtrip by exact B; rewrite L; reflexivity.
Qed.

(** The settings, one lemma per key. *)
Section Settings.
Variables (line : nat) (g rd r d p : list Z) (e : Z) (parent val : list Z).
Let c : Config := MkConfig g rd r d p e.

Lemma set_guild : bytes val -> length val = 64%nat ->
  set_key line (c, parent) (str "guild_pubkey") (EncodeToString val) = Ret (MkConfig val rd r d p e, parent).
Proof.
  intros B L; transitivity (bind (wrap_error (ErrGuildPubKey line) (decodeHex64 (EncodeToString val) g)) (fun pk =>
    Ret (E := signet_error) (MkConfig pk rd r d p e, parent))); [reflexivity|rewrite decode_hex64 by assumption; reflexivity].
Qed.
Lemma set_release : bytes val -> length val = 64%nat ->
  set_key line (c, parent) (str "release_pubkey") (EncodeToString val) = Ret (MkConfig g rd val d p e, parent).
Proof.
  intros B L; transitivity (bind (wrap_error (ErrReleasePubKey line) (decodeHex64 (EncodeToString val) r)) (fun pk =>
    Ret (E := signet_error) (MkConfig g rd pk d p e, parent))); [reflexivity|rewrite decode_hex64 by assumption; reflexivity].
Qed.
Lemma set_guild_diviner : set_key line (c, parent) (str "guild_diviner") val = Ret (MkConfig g val r d p e, parent).
Proof. reflexivity. Qed.
Lemma set_release_diviner : set_key line (c, parent) (str "release_diviner") val = Ret (MkConfig g rd r val p e, parent).
Proof. reflexivity. Qed.
Lemma set_parent : set_key line (c, parent) (str "release_parent_cert") val = Ret (c, val).
Proof. reflexivity. Qed.
Lemma set_epoch u : 0 <= u < W64 ->
  set_key line (c, parent) (str "release_epoch") (fmtUint u) =
  if u <? 2 ^ 32 then Ret (MkConfig g rd r d p u, parent) else Fail (ErrEpoch line ErrRange).
Proof.
  intros H; change (set_key line (c, parent) (str "release_epoch") (fmtUint u)) with
    (match fmtUint u with
     | [] => Ret (c, parent)
     | _ => bind (wrap_error (ErrEpoch line) (ParseUint (fmtUint u) 32)) (fun n => Ret (MkConfig g rd r d p (u32 n), parent))
     end).
  pose proof (fmt_digits_not_nil 20 u [] ltac:(lia)) as N; fold (fmtUint u) in N; destruct (fmtUint u) eqn:E; [contradiction|].
  rewrite <- E, ParseUint_fmt by lia; destruct (Z.ltb_spec u (2 ^ 32)) as [B|B]; cbn [wrap_error bind]; [|reflexivity].
  change (2 ^ 32) with W32 in B; rewrite u32_small by (unword; lia); reflexivity.
Qed.
End Settings.

(** *** Schemes *)

(** A URL with the scheme. *)
Definition has_scheme (scheme url : list Z) : Prop := exists rest, url = scheme ++ str "://" ++ rest.

Definition known_schemes : list (list Z) := [str "gcpkms"; str "awskms"; str "azurekv"; str "mockdiviner"].

Lemma scheme_index scheme rest : ~ In 58 scheme -> Index (scheme ++ str "://" ++ rest) (str "://") = Some (length scheme).
Proof. apply (Index_first scheme (str "://") rest 58 eq_refl). Qed.

Lemma known_no_colon scheme : In scheme known_schemes -> ~ In 58 scheme.
Proof.
  intros H; assert (E : forallb (fun s => negb (existsb (Z.eqb 58) s)) known_schemes = true) by reflexivity.
  rewrite forallb_forall in E; specialize (E _ H); rewrite negb_true_iff in E; intros G.
  apply (eq_true_false_abs _ (proj2 (existsb_exists _ _) (ex_intro _ 58 (conj G (Z.eqb_refl 58)))) E).
Qed.

Lemma validateDivinerScheme_ok url :
  validateDivinerScheme url = Ret tt <-> exists scheme, In scheme known_schemes /\ has_scheme scheme url.
Proof.
  unfold validateDivinerScheme; split.
  - destruct (Index url _) as [i|] eqn:E; [|discriminate]; apply Index_Some in E.
    assert (G : In (firstn i url) known_schemes -> exists scheme, In scheme known_schemes /\ has_scheme scheme url)
      by (intros H; exists (firstn i url); split; [exact H|exists (skipn (i + length (str "://")) url); exact E]).
    cbn [existsb]; intros H; apply G; unfold known_schemes, In.
    destruct (bytes_eqb_spec (firstn i url) (str "gcpkms")) as [->|]; [auto|].
    destruct (bytes_eqb_spec (firstn i url) (str "awskms")) as [->|]; [auto|].
    destruct (bytes_eqb_spec (firstn i url) (str "azurekv")) as [->|]; [auto|].
    destruct (bytes_eqb_spec (firstn i url) (str "mockdiviner")) as [->|]; [auto|].
    cbn [orb] in H; destruct (bytes_eqb _ _); discriminate.
  - intros (scheme & Hs & rest & ->); rewrite scheme_index by exact (known_no_colon _ Hs).
    rewrite <- (Nat.add_0_r (length scheme)) at 1; rewrite firstn_app_2; cbn [firstn]; rewrite app_nil_r.
    cbn in Hs; destruct Hs as [<-|[<-|[<-|[<-|[]]]]]; reflexivity.
Qed.

Lemma ValidateForBuild_ok c : ValidateForBuild c = Ret tt <->
  GuildPubKey c <> repeat 0 64 /\ ReleasePubKey c <> repeat 0 64 /\ ReleaseParentCert c <> repeat 0 64 /\
  exists scheme, In scheme known_schemes /\ has_scheme scheme (ReleaseDiviner c).
Proof.
  rewrite <- validateDivinerScheme_ok; unfold ValidateForBuild.
  destruct (bytes_eqb_spec (GuildPubKey c) (repeat 0 64)), (bytes_eqb_spec (ReleasePubKey c) (repeat 0 64)); try (split; [discriminate|tauto]).
  destruct (ReleaseDiviner c) as [|x u] eqn:E; [split; [discriminate|intros (_ & _ & _ & H); discriminate H]|].
  change (length (x :: u) =? 0)%nat with false; rewrite <- E; clear E; cbv iota; destruct (validateDivinerScheme (ReleaseDiviner c)) as [[]|e|]; cbn [wrap_error bind].
  - destruct (bytes_eqb_spec (ReleaseParentCert c) (repeat 0 64)) as [E|N].
    + split; [discriminate|intros (_ & _ & N & _); contradiction].
    + split; [intros _; split; [assumption|split; [assumption|split; [exact N|reflexivity]]]|reflexivity].
  - split; [discriminate|intros (_ & _ & _ & H); discriminate H].
  - split; [discriminate|intros (_ & _ & _ & H); discriminate H].
Qed.

Lemma Load_wf file c : Load file = Ret c -> config_wf c.
Proof.
  destruct file as [[data|]|]; try discriminate; cbn [Load Parse]; intros H; apply bind_Ret in H as ([c1 p] & H1 & H).
  apply parse_lines_wf in H1; [cbn [fst] in H1|exact config_zero_wf].
  destruct p as [|x p]; [injection H as <-; exact H1|]; destruct (DecodeString (x :: p)) as [d| |] eqn:E; try discriminate.
  destruct (Nat.eqb_spec (length d) 64); [|discriminate]; apply Ret_inj in H; subst c; destruct H1; split; auto.
  split; [exact (proj1 (DecodeString_wf _ _ E))|assumption].
Qed.

(** ** Properties *)

(** C20: What a build may rely on: a signet that loads has 64-byte keys and parent
    certificate and a 32-bit epoch, and it passes validation exactly when both keys and
    the parent certificate are not all zero and the release URL has one of the four
    schemes; in particular file:// never passes. *)
Theorem loaded_signet_ok file c :
  Load file = Ret c ->
  config_wf c /\
  (ValidateForBuild c = Ret tt <->
     GuildPubKey c <> repeat 0 64 /\ ReleasePubKey c <> repeat 0 64 /\ ReleaseParentCert c <> repeat 0 64 /\
     exists scheme, In scheme known_schemes /\ has_scheme scheme (ReleaseDiviner c)) /\
  (has_scheme (str "file") (ReleaseDiviner c) -> ValidateForBuild c <> Ret tt).
Proof.
  intros H; pose proof (Load_wf _ _ H) as W.
  split; [exact W|split; [apply ValidateForBuild_ok|]].
  intros (rest & E); rewrite ValidateForBuild_ok; intros (_ & _ & _ & scheme & Hs & rest' & E').
  assert (I : Index (ReleaseDiviner c) (str "://") = Some 4%nat) by (rewrite E; apply (scheme_index (str "file")); cbn; lia).
  rewrite E', scheme_index in I by exact (known_no_colon _ Hs); injection I as I.
  cbn in Hs; destruct Hs as [<-|[<-|[<-|[<-|[]]]]]; discriminate I.
Qed.

Definition demo_signet : list Z := unlines
  [str "# demo"; setting_line (str "guild_pubkey") 5 (EncodeToString (repeat 7 64)); [];
   setting_line (str "release_pubkey") 1 (EncodeToString (repeat 8 64));
   setting_line (str "release_diviner") 1 (str "gcpkms://k");
   setting_line (str "release_parent_cert") 1 (EncodeToString (repeat 9 64));
   setting_line (str "release_epoch") 1 (str "3")].

Lemma loaded_signet_ok_witness : exists c, Load (Some (Some demo_signet)) = Ret c /\ ValidateForBuild c = Ret tt /\ is_u32 (ReleaseEpoch c).
Proof.
  assert (E : exists c, Load (Some (Some demo_signet)) = Ret c /\ bytes_eqb (GuildPubKey c) (repeat 7 64) &&
    bytes_eqb (ReleasePubKey c) (repeat 8 64) && bytes_eqb (ReleaseParentCert c) (repeat 9 64) && bytes_eqb (ReleaseDiviner c) (str "gcpkms://k") = true)
    by (eexists; split; vm_compute; reflexivity).
  destruct E as (c & E & D); exists c; rewrite !andb_true_iff, !bytes_eqb_eq in D; destruct D as (((D1 & D2) & D3) & D4).
  destruct (loaded_signet_ok _ _ E) as (W & V & _); split; [exact E|split; [|exact (cw_epoch _ W)]].
  apply V; rewrite D1, D2, D3, D4; split; [discriminate|split; [discriminate|split; [discriminate|]]].
  exists (str "gcpkms"); split; [left; reflexivity|exists (str "k"); reflexivity].
Defined.
