(* ===== verification/Diviner.v ===== *)
(** * Diviner: signing backends and the tools that write a signet

    cmd/janos/diviner (the registry of URL schemes), diviner/mockdiviner (the test
    backend), and the two programs that print a signet file: cmd/janos/ceremony and
    cmd/janos/mksignet. *)

From Stdlib Require Import String ZArith Lia List Bool.
From stdpp Require Import base option list gmap.
From S2P Require Import Prelude Slices Sha2 Kdf GoText Signet.
Import ListNotations.
Open Scope Z_scope.

(** ** The registry *)

(** What a backend answers in one run of a tool, [None] for an error: its public key and
    the signature of a digest. *)
Record Diviner : Type := MkDiviner {
  PublicKey : option (list Z);
  Sign : list Z -> option (list Z);
}.

Inductive open_error : Type :=
| ErrURLMissingScheme | ErrFileForbidden | ErrNoBackend (scheme : list Z) | ErrBackend.

Definition Factory : Type := list Z -> outcome open_error Diviner.
Definition registry : Type := gmap (list Z) Factory.

(** [Register]; the factory may be nil. *)
Definition Register (r : registry) (scheme : list Z) (factory : option Factory) : outcome open_error registry :=
  if (length scheme =? 0)%nat then Panic
  else
    match factory with
    | None => Panic
    | Some f => match Index scheme (str "://") with Some _ => Panic | None => Ret (<[scheme := f]> r) end
    end.

Definition Open (r : registry) (url : list Z) : outcome open_error Diviner :=
  match Index url (str "://") with
  | None => Fail ErrURLMissingScheme
  | Some i =>
      let scheme := firstn i url in
      if bytes_eqb scheme (str "file") then Fail ErrFileForbidden
      else match r !! scheme with None => Fail (ErrNoBackend scheme) | Some factory => factory url end
  end.

(** ** Fixed-width packing *)

(** [big.Int.Bytes]: big-endian without leading zeros, of a number below 256^fuel. *)
Fixpoint big_bytes (fuel : nat) (x : Z) (buf : list Z) : list Z :=
  match fuel with O => buf | S fuel => if x =? 0 then buf else big_bytes fuel (x / 256) (x mod 256 :: buf) end.
Definition Bytes (x : Z) : list Z := big_bytes (Z.to_nat (Z.log2 x / 8 + 1)) x [].

(** [copy(out[32-len(b):32], b)] into a zero half; a number of more than 32 bytes makes
    the slice expression panic. *)
Definition pad32 (b : list Z) : option (list Z) :=
  if (32 <? length b)%nat then None else Some (repeat 0 (32 - length b) ++ b).
Definition pack64 (x y : Z) : option (list Z) :=
  match pad32 (Bytes x), pad32 (Bytes y) with Some a, Some b => Some (a ++ b) | _, _ => None end.

(** ** crypto/ecdsa and crypto/elliptic *)

(** The parts of the crypto library the tools call: [ScalarBaseMult] on a private key,
    [Sign] with some randomness, [Verify]; and the group order. *)
Class CryptoLib : Type := {
  ScalarBaseMult : Z -> Z * Z;
  ecdsa_Sign : list Z -> Z -> list Z -> option (Z * Z);
  ecdsa_Verify : Z -> Z -> list Z -> Z -> Z -> bool;
  Params_N : Z;
}.

(** What they promise: coordinates are below 2^256 and not both zero; a signature's
    numbers are positive and below 2^256 and pass verification. *)
Class CryptoLibOk (L : CryptoLib) : Prop := {
  n_range : 1 < Params_N <= 2 ^ 256;
  base_range : forall d x y, 0 < d < Params_N -> ScalarBaseMult d = (x, y) ->
    0 <= x < 2 ^ 256 /\ 0 <= y < 2 ^ 256 /\ (x, y) <> (0, 0);
  sign_ok : forall rnd d x y h r s, 0 < d < Params_N -> ScalarBaseMult d = (x, y) ->
    ecdsa_Sign rnd d h = Some (r, s) ->
    0 < r < 2 ^ 256 /\ 0 < s < 2 ^ 256 /\ ecdsa_Verify x y h r s = true;
}.

Section Tools.
Context {L : CryptoLib}.

(** [verifyLocal] of the ceremony. *)
Definition verifyLocal (pubKey digest sig : list Z) : bool :=
  ecdsa_Verify (be_val (firstn 32 pubKey)) (be_val (skipn 32 pubKey)) digest (be_val (firstn 32 sig)) (be_val (skipn 32 sig)).

(** ** The mock backend *)

(** [copy] of a slice into a zero [32]byte. *)
Definition padSeed (s : list Z) : list Z := firstn 32 (s ++ repeat 0 32).

Definition mock_domain : list Z := str "mockdiviner-key:".

(** [newFromSeed] and mksignet's [keyFromSeed]: the private key and the packed public
    key, [None] for a panic. *)
Definition keyFromSeed (seed : list Z) : option (Z * list Z) :=
  let dHash := sha256_spec (mock_domain ++ seed) in
  let d := be_val dHash mod Params_N in
  let d := if d =? 0 then 1 else d in
  let '(x, y) := ScalarBaseMult d in
  match pack64 x y with Some pub => Some (d, pub) | None => None end.

Definition newFromSeed (rnd seed : list Z) : option Diviner :=
  match keyFromSeed seed with
  | None => None
  | Some (d, pub) =>
      Some (MkDiviner (Some pub) (fun digest =>
        match ecdsa_Sign rnd d digest with Some (r, s) => pack64 r s | None => None end))
  end.

(** [open]; all the ways a URL is refused are one error here. *)
Definition mock_open (rnd : list Z) (url : list Z) : outcome open_error Diviner :=
  let prefix := str "mockdiviner://" in
  if negb (HasPrefix url prefix) then Fail ErrBackend else
  let seedHex := skipn (length prefix) url in
  if (length seedHex =? 0)%nat then Fail ErrBackend else
  if (64 <? length seedHex)%nat then Fail ErrBackend else
  let seedHex := seedHex ++ repeat 48 (64 - length seedHex) in
  match DecodeString seedHex with
  | Ret decoded => of_option (newFromSeed rnd (padSeed decoded))
  | Fail _ => Fail ErrBackend
  | Panic => Panic
  end.

(** ** cmd/janos/mksignet *)

Inductive tool_error : Type :=
| ErrFlags | ErrOpenRoot (e : open_error) | ErrOpenRelease (e : open_error) | ErrRootKey | ErrReleaseKey
| ErrSameKey | ErrRootSign | ErrSanity.

Definition mksignet_lines (guildPub releasePub parentCert guildSeed releaseSeed : list Z) (epoch : Z) : list (list Z) :=
  [ str "# generated by mksignet (ECDSA P-256)";
    setting_line (str "guild_pubkey") 5 (EncodeToString guildPub);
    setting_line (str "guild_diviner") 4 (str "mockdiviner://" ++ EncodeToString guildSeed);
    setting_line (str "release_pubkey") 3 (EncodeToString releasePub);
    setting_line (str "release_diviner") 2 (str "mockdiviner://" ++ EncodeToString releaseSeed);
    setting_line (str "release_parent_cert") 1 (EncodeToString parentCert);
    setting_line (str "release_epoch") 4 (fmtUint epoch) ].

(** [main]: what it prints on standard output. *)
Definition mksignet (rnd guildSeed releaseSeed : list Z) (epoch : Z) : outcome tool_error (list Z) :=
  match keyFromSeed (padSeed guildSeed), keyFromSeed (padSeed releaseSeed) with
  | Some (guildPriv, guildPub), Some (_, releasePub) =>
      match ecdsa_Sign rnd guildPriv (sha256_spec releasePub) with
      | None => Fail ErrRootSign
      | Some (r, s) =>
          bind (of_option (pack64 r s)) (fun parentCert =>
          Ret (unlines (mksignet_lines guildPub releasePub parentCert guildSeed releaseSeed epoch)))
      end
  | _, _ => Panic
  end.

(** ** cmd/janos/ceremony *)

Definition ceremony_comments : list (list Z) :=
  [ str "# JanOS signet — release ceremony output"; str "#";
    str "# This file was generated by the release-ceremony tool.  It contains";
    str "# the authoritative chain of trust for this JanOS release.  Losing it";
    str "# means losing the ability to produce colonels other JanOS runtimes";
    str "# in this family line will recognize."; str "#";
    str "# Commit this file to source control.  All values are public — no";
    str "# secret material is embedded here.  The KMS URLs are references,";
    str "# and the parent_cert is an ECDSA P-256 signature that anyone with";
    str "# the root public key can verify."; [] ].

Definition ceremony_settings (rootPK root releasePK release parentCert : list Z) (epoch : Z) : list (list Z) :=
  [ setting_line (str "guild_pubkey") 8 (EncodeToString rootPK);
    setting_line (str "guild_diviner") 7 root;
    setting_line (str "release_pubkey") 6 (EncodeToString releasePK);
    setting_line (str "release_diviner") 5 release;
    setting_line (str "release_parent_cert") 1 (EncodeToString parentCert);
    setting_line (str "release_epoch") 7 (fmtUint epoch) ].

(** [main]: what it prints on standard output. *)
Definition ceremony (reg : registry) (root release : list Z) (epoch : Z) : outcome tool_error (list Z) :=
  if (length root =? 0)%nat || (length release =? 0)%nat then Fail ErrFlags else
  bind (wrap_error ErrOpenRoot (Open reg root)) (fun rootDiviner =>
  bind (wrap_error ErrOpenRelease (Open reg release)) (fun releaseDiviner =>
  match PublicKey rootDiviner with
  | None => Fail ErrRootKey
  | Some rootPK =>
      match PublicKey releaseDiviner with
      | None => Fail ErrReleaseKey
      | Some releasePK =>
          if bytes_eqb rootPK releasePK then Fail ErrSameKey else
          let digest := sha256_spec releasePK in
          match Sign rootDiviner digest with
          | None => Fail ErrRootSign
          | Some parentCert =>
              if negb (verifyLocal rootPK digest parentCert) then Fail ErrSanity
              else Ret (unlines (ceremony_comments ++ ceremony_settings rootPK root releasePK release parentCert epoch))
          end
      end
  end)).

(** ** Lemmas *)

Lemma big_bytes_ok fuel x buf : 0 <= x < pow256 fuel ->
  exists n, big_bytes fuel x buf = be_bytes n x ++ buf /\ x < pow256 n /\ forall m, x < pow256 m -> (n <= m)%nat.
Proof.
  revert x buf; induction fuel as [|fuel IH]; intros x buf H; cbn [big_bytes].
  - exists 0%nat; split; [reflexivity|split; [exact (proj2 H)|lia]].
  - destruct (Z.eqb_spec x 0) as [->|N]; [exists 0%nat; split; [reflexivity|split; [reflexivity|lia]]|].
    rewrite pow256_S in H.
    destruct (IH (x / 256) (x mod 256 :: buf)) as (n & E & B & M); [split; [apply Z.div_pos; lia|apply Z.div_lt_upper_bound; lia]|].
    exists (S n); split; [rewrite E; unfold be_bytes; cbn [le_bytes rev]; rewrite <- app_assoc; reflexivity|split].
    + rewrite pow256_S; pose proof (Z.div_mod x 256 ltac:(lia)); pose proof (Z.mod_pos_bound x 256 ltac:(lia)); lia.
    + intros [|m] Hm; [change (pow256 0) with 1 in Hm; lia|]; apply le_n_S, M.
      rewrite pow256_S in Hm; apply Z.div_lt_upper_bound; lia.
Qed.

Lemma Bytes_ok x : 0 <= x ->
  exists n, Bytes x = be_bytes n x /\ x < pow256 n /\ forall m, x < pow256 m -> (n <= m)%nat.
Proof.
  intros H; unfold Bytes; destruct (big_bytes_ok (Z.to_nat (Z.log2 x / 8 + 1)) x []) as (n & E & B); [|exists n; rewrite E, app_nil_r; auto].
  split; [exact H|]; pose proof (Z.log2_nonneg x); unfold pow256; rewrite Z2Nat.id by (pose proof (Z.div_pos (Z.log2 x) 8); lia).
  destruct (Z.eq_dec x 0) as [->|]; [reflexivity|].
  change W8 with (2 ^ 8); rewrite <- Z.pow_mul_r by (pose proof (Z.div_pos (Z.log2 x) 8); lia).
  eapply Z.lt_le_trans; [apply Z.log2_spec; lia|apply Z.pow_le_mono_r; [lia|]].
  pose proof (Z.div_mod (Z.log2 x) 8 ltac:(lia)); pose proof (Z.mod_pos_bound (Z.log2 x) 8 ltac:(lia)); lia.
Qed.

Lemma pad32_ok x : 0 <= x < 2 ^ 256 -> pad32 (Bytes x) = Some (be_bytes 32 x).
Proof.
  intros H; destruct (Bytes_ok x (proj1 H)) as (n & E & B & M); specialize (M 32%nat (proj2 H)).
  unfold pad32; rewrite E, length_be_bytes; destruct (Nat.ltb_spec 32 n); [lia|]; f_equal.
  rewrite <- be_bytes_wider by lia; f_equal; lia.
Qed.

Lemma pack64_ok x y : 0 <= x < 2 ^ 256 -> 0 <= y < 2 ^ 256 -> pack64 x y = Some (be_bytes 32 x ++ be_bytes 32 y).
Proof. intros Hx Hy; unfold pack64; rewrite !pad32_ok by assumption; reflexivity. Qed.

Lemma packed_wf x y : bytes (be_bytes 32 x ++ be_bytes 32 y) /\ length (be_bytes 32 x ++ be_bytes 32 y) = 64%nat.
Proof. split; [apply bytes_app; split; apply bytes_be_bytes|rewrite length_app, !length_be_bytes; reflexivity]. Qed.

Lemma packed_zero x y : 0 <= x < 2 ^ 256 -> 0 <= y < 2 ^ 256 -> be_bytes 32 x ++ be_bytes 32 y = repeat 0 64 -> x = 0 /\ y = 0.
Proof.
  intros Hx Hy E; change (repeat 0 64) with (repeat 0 32 ++ repeat 0 32) in E; apply app_inj_1 in E; [|rewrite length_be_bytes; reflexivity].
  destruct E as [E1 E2]; apply (f_equal be_val) in E1, E2; rewrite be_val_bytes, Z.mod_small in E1, E2 by assumption.
  split; [exact E1|exact E2].
Qed.

Lemma packed_halves x y : 0 <= x < 2 ^ 256 -> 0 <= y < 2 ^ 256 ->
  be_val (firstn 32 (be_bytes 32 x ++ be_bytes 32 y)) = x /\ be_val (skipn 32 (be_bytes 32 x ++ be_bytes 32 y)) = y.
Proof.
  intros Hx Hy; rewrite firstn_app, skipn_app, length_be_bytes, Nat.sub_diag; cbn [firstn skipn].
  rewrite firstn_all2, skipn_all2, app_nil_r by (rewrite length_be_bytes; lia); cbn [app]; rewrite drop_0.
  rewrite !be_val_bytes, !Z.mod_small by assumption; auto.
Qed.

(** The key of a seed. *)
Context {OK : CryptoLibOk L}.

Lemma keyFromSeed_ok seed : exists d x y,
  keyFromSeed seed = Some (d, be_bytes 32 x ++ be_bytes 32 y) /\ 0 < d < Params_N /\ ScalarBaseMult d = (x, y) /\
  0 <= x < 2 ^ 256 /\ 0 <= y < 2 ^ 256 /\ be_bytes 32 x ++ be_bytes 32 y <> repeat 0 64.
Proof.
  unfold keyFromSeed; set (h := be_val _ mod Params_N); set (d := if h =? 0 then 1 else h); cbv zeta.
  pose proof n_range as N; assert (Hh : 0 <= h < Params_N) by (apply Z.mod_pos_bound; lia).
  assert (Hd : 0 < d < Params_N) by (unfold d; destruct (Z.eqb_spec h 0); lia).
  destruct (ScalarBaseMult d) as [x y] eqn:E; destruct (base_range d x y Hd E) as (Hx & Hy & NZ).
  exists d, x, y; rewrite pack64_ok by assumption; do 5 (split; [auto|]).
  intros Z0; destruct (packed_zero _ _ Hx Hy Z0) as [-> ->]; contradiction.
Qed.

Lemma verifyLocal_packed x y h r s :
  0 <= x < 2 ^ 256 -> 0 <= y < 2 ^ 256 -> 0 <= r < 2 ^ 256 -> 0 <= s < 2 ^ 256 ->
  verifyLocal (be_bytes 32 x ++ be_bytes 32 y) h (be_bytes 32 r ++ be_bytes 32 s) = ecdsa_Verify x y h r s.
Proof.
  intros Hx Hy Hr Hs; unfold verifyLocal.
  destruct (packed_halves x y Hx Hy) as [-> ->], (packed_halves r s Hr Hs) as [-> ->]; reflexivity.
Qed.

(** *** The mock backend's URLs *)

Lemma mock_value label : bytes label -> value_ok (str "mockdiviner://" ++ EncodeToString label).
Proof.
  intros B; apply value_ok_solid; [rewrite length_app; cbn; lia|]; apply List.Forall_app; split.
  - apply List.Forall_forall; intros c; revert c; apply forallb_forall; reflexivity.
  - generalize (hex_chars label B); apply List.Forall_impl; intros c [H _]; unfold solid, asciiSpace, RuneSelf; cbn [existsb]; lia.
Qed.

Lemma DecodeString_app a b l m : DecodeString a = Ret l -> DecodeString b = Ret m -> DecodeString (a ++ b) = Ret (l ++ m).
Proof.
  revert l; assert (G : forall n a l, (length a <= n)%nat -> DecodeString a = Ret l -> DecodeString b = Ret m -> DecodeString (a ++ b) = Ret (l ++ m)).
  2: intros l; apply (G (length a)); lia.
  clear a; induction n as [|n IH]; intros [|p [|q a]] l H; cbn [length] in H; try lia; cbn [app DecodeString].
  - intros [= <-] Hb; exact Hb.
  - intros [= <-] Hb; exact Hb.
  - destruct (_ <? _); discriminate.
  - destruct (_ <? _); [discriminate|]; destruct (_ <? _); [discriminate|].
    intros Ha Hb; apply bind_Ret in Ha as (d & E & Ha); apply Ret_inj in Ha; subst l.
    rewrite (IH a d ltac:(lia) E Hb); reflexivity.
Qed.

Lemma zero_digits n : DecodeString (repeat 48 (2 * n)) = Ret (repeat 0 n).
Proof.
  induction n as [|n IH]; [reflexivity|]; replace (2 * S n)%nat with (S (S (2 * n))) by lia; cbn [repeat DecodeString].
  rewrite IH; reflexivity.
Qed.

Lemma firstn_zeros {A} (x : A) n m : firstn n (repeat x m) = repeat x (Nat.min n m).
Proof. revert m; induction n as [|n IH]; intros [|m]; cbn; [reflexivity..|f_equal; apply IH]. Qed.

Lemma mock_open_label rnd label : bytes label -> (1 <= length label <= 32)%nat ->
  mock_open rnd (str "mockdiviner://" ++ EncodeToString label) = of_option (newFromSeed rnd (padSeed label)).
Proof.
  intros B [H1 H2]; unfold mock_open; cbv zeta; unfold HasPrefix; rewrite is_prefix_app; cbn [negb].
  rewrite drop_app_length, length_hex.
  destruct (Nat.eqb_spec (2 * length label) 0); [lia|]; destruct (Nat.ltb_spec 64 (2 * length label)); [lia|].
  replace (64 - 2 * length label)%nat with (2 * (32 - length label))%nat by lia.
  rewrite (DecodeString_app _ _ label (repeat 0 (32 - length label))) by (apply hex_roundtrip || apply zero_digits; exact B).
  do 2 f_equal; unfold padSeed; rewrite <- app_assoc, !firstn_app, !(firstn_all2 label) by lia; f_equal.
  rewrite repeat_length, Nat.sub_diag, !firstn_zeros; cbn [firstn]; rewrite app_nil_r; f_equal; lia.
Qed.

Lemma mock_open_refuses rnd label : (length label = 0 \/ 32 < length label)%nat ->
  mock_open rnd (str "mockdiviner://" ++ EncodeToString label) = Fail ErrBackend.
Proof.
  intros H; unfold mock_open; cbv zeta; unfold HasPrefix; rewrite is_prefix_app; cbn [negb].
  rewrite drop_app_length, length_hex.
  destruct (Nat.eqb_spec (2 * length label) 0); [reflexivity|]; destruct (Nat.ltb_spec 64 (2 * length label)); [reflexivity|lia].
Qed.

Lemma Open_scheme r scheme rest f :
  ~ In 58 scheme -> scheme <> str "file" -> r !! scheme = Some f -> Open r (scheme ++ str "://" ++ rest) = f (scheme ++ str "://" ++ rest).
Proof.
  intros N F E; unfold Open; rewrite scheme_index by exact N.
  replace (firstn (length scheme) (scheme ++ str "://" ++ rest)) with scheme.
  2: { rewrite firstn_app, Nat.sub_diag, firstn_all; cbn [firstn]; rewrite app_nil_r; reflexivity. }
  destruct (bytes_eqb_spec scheme (str "file")); [contradiction|]; rewrite E; reflexivity.
Qed.

(** *** What the tools print parses back *)

Lemma key_chars l : forallb (fun c => solid c && negb (c =? 61) && negb (c =? 35)) l = true ->
  List.Forall (fun c => solid c = true /\ c <> 61 /\ c <> 35) l.
Proof.
  intros H; apply List.Forall_forall; intros c Hc; rewrite forallb_forall in H; specialize (H c Hc).
  rewrite !andb_true_iff, !negb_true_iff, !Z.eqb_neq in H; tauto.
Qed.

Lemma line_no_newline key pad val :
  List.Forall (fun c => solid c = true /\ c <> 61 /\ c <> 35) key -> value_ok val -> ~ In 10 (setting_line key pad val).
Proof.
  intros F [_ N]; unfold setting_line; rewrite !in_app_iff; intros [H|[H|[H|H]]].
  - rewrite List.Forall_forall in F; destruct (F 10 H) as (S & _); discriminate S.
  - revert H; apply not_in_repeat; lia.
  - destruct H as [H|[H|[]]]; lia.
  - contradiction.
Qed.

Lemma fmt_value u : 0 <= u < W64 -> value_ok (fmtUint u).
Proof.
  intros H; apply value_ok_solid.
  - pose proof (fmt_digits_not_nil 20 u [] ltac:(lia)); unfold fmtUint; destruct (fmt_digits _ _ _); [contradiction|cbn; lia].
  - assert (B : u < 10 ^ Z.of_nat 20) by (change (10 ^ Z.of_nat 20) with 100000000000000000000; lia).
    generalize (fmt_chars 20 u [] (proj1 H) (List.Forall_nil _) B); apply List.Forall_impl; intros c Hc.
    unfold solid, asciiSpace, RuneSelf; cbn [existsb]; lia.
Qed.

Definition parsed_comment (l : list Z) : Prop := l = [] \/ exists l', l = 35 :: l' /\ value_ok l.

Definition commentb (l : list Z) : bool :=
  match l with
  | [] => true
  | c :: r => (c =? 35) && solid (List.last l 0) && negb (existsb (Z.eqb 10) l)
  end.

Lemma commentb_ok l : commentb l = true -> parsed_comment l /\ ~ In 10 l.
Proof.
  destruct l as [|c r]; [split; [left; reflexivity|intros []]|]; unfold commentb; rewrite !andb_true_iff, negb_true_iff, Z.eqb_eq; intros [[-> S] N].
  assert (N' : ~ In 10 (35 :: r)) by (intros G; apply (eq_true_false_abs _ (proj2 (existsb_exists _ _) (ex_intro _ 10 (conj G (Z.eqb_refl 10)))) N)).
  split; [|exact N']; right; exists r; split; [reflexivity|split; [|exact N']].
  destruct r as [|x r]; [left; exists 35; auto|right].
  destruct (exists_last (l := x :: r)) as (m & d & E); [discriminate|]; exists 35, m, d; rewrite E in *.
  change (35 :: m ++ [d]) with ((35 :: m) ++ [d]) in S; rewrite last_last in S; auto.
Qed.

Lemma comments_ok ls : forallb commentb ls = true -> List.Forall parsed_comment ls /\ List.Forall (fun l => ~ In 10 l) ls.
Proof. rewrite forallb_forall; intros H; split; apply List.Forall_forall; intros l Hl; apply commentb_ok, H, Hl. Qed.

(** Six settings in the order both tools print them. *)
Definition six_settings (p1 p2 p3 p4 p5 p6 : nat) (guildPub root releasePub release cert : list Z) (epoch : Z) : list (list Z) :=
  [ setting_line (str "guild_pubkey") p1 (EncodeToString guildPub);
    setting_line (str "guild_diviner") p2 root;
    setting_line (str "release_pubkey") p3 (EncodeToString releasePub);
    setting_line (str "release_diviner") p4 release;
    setting_line (str "release_parent_cert") p5 (EncodeToString cert);
    setting_line (str "release_epoch") p6 (fmtUint epoch) ].

Definition wf64 (l : list Z) : Prop := bytes l /\ length l = 64%nat.

Lemma six_settings_parse comments p1 p2 p3 p4 p5 p6 guildPub root releasePub release cert epoch :
  forallb commentb comments = true -> wf64 guildPub -> wf64 releasePub -> wf64 cert ->
  value_ok root -> value_ok release -> 0 <= epoch < W64 ->
  Parse (Some (unlines (comments ++ six_settings p1 p2 p3 p4 p5 p6 guildPub root releasePub release cert epoch))) =
  if epoch <? 2 ^ 32 then Ret (MkConfig guildPub root releasePub release cert epoch)
  else Fail (ErrEpoch (length comments + 6) ErrRange).
Proof.
  intros C [G1 G2] [R1 R2] [P1 P2] V1 V2 He; destruct (comments_ok _ C) as [C1 C2].
  assert (VG : value_ok (EncodeToString guildPub)) by (apply hex_value_ok; [exact G1|rewrite G2; lia]).
  assert (VR : value_ok (EncodeToString releasePub)) by (apply hex_value_ok; [exact R1|rewrite R2; lia]).
  assert (VP : value_ok (EncodeToString cert)) by (apply hex_value_ok; [exact P1|rewrite P2; lia]).
  pose proof (fmt_value epoch He) as VE.
  unfold Parse; rewrite Split_unlines.
  2: { apply List.Forall_app; split; [exact C2|]; unfold six_settings;
       repeat (constructor; [apply line_no_newline; [apply key_chars; reflexivity|assumption]|]); constructor. }
  rewrite <- app_assoc, parse_lines_comments by exact C1; unfold six_settings; cbn [app].
  unfold config_zero.
  do 6 (rewrite parse_lines_setting by (assumption || (apply key_chars; reflexivity) || (cbn; lia));
    rewrite ?set_guild, ?set_guild_diviner, ?set_release, ?set_release_diviner, ?set_parent, ?set_epoch by assumption; cbn [bind]).
  destruct (_ <? _); cbn [bind]; [|f_equal; f_equal; lia].
  cbn [parse_lines]; rewrite parse_line_blank; cbn [bind].
  pose proof (length_hex cert) as LH; destruct (EncodeToString cert) eqn:E; [cbn in LH; lia|]; rewrite <- E, hex_roundtrip, P2 by exact P1.
  reflexivity.
Qed.

(** The answers of a backend have the types of the interface. *)
Definition diviner_wf (d : Diviner) : Prop :=
  (forall pk, PublicKey d = Some pk -> wf64 pk) /\ (forall h sig, Sign d h = Some sig -> wf64 sig).

Lemma newFromSeed_ok rnd seed rpriv pub : keyFromSeed seed = Some (rpriv, pub) ->
  exists d, newFromSeed rnd seed = Some d /\ PublicKey d = Some pub /\ diviner_wf d /\
    forall h sig, Sign d h = Some sig -> verifyLocal pub h sig = true.
Proof.
  intros K; destruct (keyFromSeed_ok seed) as (d & x & y & E & Hd & Hb & Hx & Hy & _); rewrite E in K; apply Some_inj, pair_equal_spec in K as [-> <-].
  unfold newFromSeed; rewrite E; eexists; split; [reflexivity|split; [reflexivity|]].
  assert (G : forall h sig, match ecdsa_Sign rnd rpriv h with Some (r, s) => pack64 r s | None => None end = Some sig ->
    wf64 sig /\ verifyLocal (be_bytes 32 x ++ be_bytes 32 y) h sig = true).
  { intros h sig; destruct (ecdsa_Sign rnd rpriv h) as [[r s]|] eqn:Es; [|discriminate].
    destruct (sign_ok _ _ _ _ _ _ _ Hd Hb Es) as (Hr & Hs & V); rewrite pack64_ok by lia; intros H; apply Some_inj in H; subst sig.
    split; [apply packed_wf|rewrite verifyLocal_packed by lia; exact V]. }
  split; [split; cbn [PublicKey Sign]|]; [intros pk H; apply Some_inj in H; subst pk; apply packed_wf|intros h sig H; apply (G h sig H)..].
Qed.

Lemma ceremony_inv reg root release epoch out : ceremony reg root release epoch = Ret out ->
  exists dr dl rootPK releasePK cert,
    Open reg root = Ret dr /\ Open reg release = Ret dl /\ PublicKey dr = Some rootPK /\ PublicKey dl = Some releasePK /\
    rootPK <> releasePK /\ Sign dr (sha256_spec releasePK) = Some cert /\
    verifyLocal rootPK (sha256_spec releasePK) cert = true /\
    out = unlines (ceremony_comments ++ ceremony_settings rootPK root releasePK release cert epoch).
Proof.
  unfold ceremony; destruct (_ || _); [discriminate|]; intros H.
  apply bind_Ret in H as (dr & Hr & H); apply wrap_error_Ret in Hr; apply bind_Ret in H as (dl & Hl & H); apply wrap_error_Ret in Hl.
  destruct (PublicKey dr) as [rootPK|] eqn:E1; [|discriminate]; destruct (PublicKey dl) as [releasePK|] eqn:E2; [|discriminate].
  destruct (bytes_eqb_spec rootPK releasePK); [discriminate|]; cbv zeta in H.
  destruct (Sign dr _) as [cert|] eqn:E3; [|discriminate]; destruct (verifyLocal _ _ _) eqn:E4; [|discriminate].
  apply Ret_inj in H; exists dr, dl, rootPK, releasePK, cert; auto 10.
Qed.

Lemma mksignet_inv rnd guild release epoch out : mksignet rnd guild release epoch = Ret out ->
  exists gpub rpriv rpub cert,
    keyFromSeed (padSeed release) = Some (rpriv, rpub) /\ wf64 gpub /\ wf64 rpub /\ wf64 cert /\
    gpub <> repeat 0 64 /\ rpub <> repeat 0 64 /\ cert <> repeat 0 64 /\ verifyLocal gpub (sha256_spec rpub) cert = true /\
    out = unlines (mksignet_lines gpub rpub cert guild release epoch).
Proof.
  unfold mksignet; destruct (keyFromSeed_ok (padSeed guild)) as (d & x & y & -> & Hd & Hb & Hx & Hy & NZ).
  destruct (keyFromSeed_ok (padSeed release)) as (d2 & x2 & y2 & E2 & Hd2 & _ & Hx2 & Hy2 & NZ2); rewrite E2.
  destruct (ecdsa_Sign rnd d _) as [[r s]|] eqn:E; [|discriminate].
  destruct (sign_ok _ _ _ _ _ _ _ Hd Hb E) as (Hr & Hs & V).
  assert (Hr' : 0 <= r < 2 ^ 256) by lia; assert (Hs' : 0 <= s < 2 ^ 256) by lia.
  rewrite pack64_ok by assumption; cbn [of_option bind]; intros H; apply Ret_inj in H.
  exists (be_bytes 32 x ++ be_bytes 32 y), d2, (be_bytes 32 x2 ++ be_bytes 32 y2), (be_bytes 32 r ++ be_bytes 32 s).
  split; [reflexivity|split; [apply packed_wf|split; [apply packed_wf|split; [apply packed_wf|split; [exact NZ|split; [exact NZ2|split]]]]]].
  - intros Z0; destruct (packed_zero _ _ Hr' Hs' Z0); lia.
  - split; [rewrite verifyLocal_packed by assumption; exact V|symmetry; exact H].
Qed.

(** ** Properties *)

(** C21: What the release ceremony prints, the linker's signet parser reads: whenever the
    tool succeeds on URLs without spaces at their ends, both backends opened, their keys
    differ, the root's signature of the release key's digest verified, and the printed
    file parses to exactly these values; but for an epoch that does not fit 32 bits, which
    the tool accepts, the file is refused on its last line. *)
Theorem ceremony_signet reg root release epoch out :
  (forall url d, Open reg url = Ret d -> diviner_wf d) ->
  value_ok root -> value_ok release -> 0 <= epoch < W64 ->
  ceremony reg root release epoch = Ret out ->
  exists dr dl rootPK releasePK cert,
    Open reg root = Ret dr /\ Open reg release = Ret dl /\ PublicKey dr = Some rootPK /\ PublicKey dl = Some releasePK /\
    rootPK <> releasePK /\ Sign dr (sha256_spec releasePK) = Some cert /\
    verifyLocal rootPK (sha256_spec releasePK) cert = true /\
    Parse (Some out) =
      if epoch <? 2 ^ 32 then Ret (MkConfig rootPK root releasePK release cert epoch) else Fail (ErrEpoch 18 ErrRange).
Proof.
  intros T V1 V2 He H; destruct (ceremony_inv _ _ _ _ _ H) as (dr & dl & rootPK & releasePK & cert & Hr & Hl & Pr & Pl & N & S & Y & ->).
  exists dr, dl, rootPK, releasePK, cert; do 7 (split; [assumption|]).
  destruct (T _ _ Hr) as [T1 T2], (T _ _ Hl) as [T3 _].
  apply (six_settings_parse ceremony_comments 8 7 6 5 1 7); eauto; reflexivity.
Qed.

(** What mksignet prints works in a test build: for labels of 1 to 32 bytes the file
    parses and validates, its release URL opens in a registry with the mock backend, the
    backend answers with the release key of the file, and the parent certificate verifies
    under the Guild key, as every signature of the backend does under the release key.  The release URL of any other label is refused when it is
    opened, although the tool prints it. *)
Theorem mksignet_usable reg rnd rnd' guild release epoch out :
  bytes guild -> bytes release -> 0 <= epoch < 2 ^ 32 -> reg !! str "mockdiviner" = Some (mock_open rnd') ->
  mksignet rnd guild release epoch = Ret out ->
  exists c, Parse (Some out) = Ret c /\ ValidateForBuild c = Ret tt /\ ReleaseEpoch c = epoch /\
    verifyLocal (GuildPubKey c) (sha256_spec (ReleasePubKey c)) (ReleaseParentCert c) = true /\
    ((1 <= length release <= 32)%nat ->
       exists d, Open reg (ReleaseDiviner c) = Ret d /\ PublicKey d = Some (ReleasePubKey c) /\ diviner_wf d /\
         forall h sig, Sign d h = Some sig -> verifyLocal (ReleasePubKey c) h sig = true) /\
    ((length release = 0 \/ 32 < length release)%nat -> Open reg (ReleaseDiviner c) = Fail ErrBackend).
Proof.
  intros Bg Br He M H; destruct (mksignet_inv _ _ _ _ _ H) as (gpub & rpriv & rpub & cert & K & G & R & P & NG & NR & NP & Y & ->).
  exists (MkConfig gpub (str "mockdiviner://" ++ EncodeToString guild) rpub (str "mockdiviner://" ++ EncodeToString release) cert epoch).
  split; [|split; [|split; [reflexivity|split; [exact Y|]]]].
  - pose proof (six_settings_parse [str "# generated by mksignet (ECDSA P-256)"] 5 4 3 2 1 4 gpub (str "mockdiviner://" ++ EncodeToString guild)
      rpub (str "mockdiviner://" ++ EncodeToString release) cert epoch eq_refl G R P (mock_value _ Bg) (mock_value _ Br) ltac:(lia)) as E.
    destruct (Z.ltb_spec epoch (2 ^ 32)); [exact E|lia].
  - apply ValidateForBuild_ok; split; [exact NG|split; [exact NR|split; [exact NP|]]].
    exists (str "mockdiviner"); split; [right; right; right; left; reflexivity|exists (EncodeToString release); reflexivity].
  - assert (O : Open reg (str "mockdiviner://" ++ EncodeToString release) = mock_open rnd' (str "mockdiviner://" ++ EncodeToString release)).
    { apply (Open_scheme reg (str "mockdiviner") (EncodeToString release)); [apply known_no_colon; right; right; right; left; reflexivity|discriminate|exact M]. }
    cbn [ReleaseDiviner ReleasePubKey]; rewrite O; split; [|exact (mock_open_refuses rnd' release)].
    intros L1; rewrite mock_open_label by assumption.
    destruct (newFromSeed_ok rnd' _ _ _ K) as (d & -> & D); exists d; split; [reflexivity|exact D].
Qed.
End Tools.

(** ** A small crypto library for examples *)

#[local] Instance toy_lib : CryptoLib := {
  ScalarBaseMult d := (d, d + 1);
  ecdsa_Sign _ d h := Some (be_val h mod W32 + 1, d);
  ecdsa_Verify x _ h r s := (s =? x) && (r =? be_val h mod W32 + 1);
  Params_N := W32;
}.

#[local] Instance toy_lib_ok : CryptoLibOk toy_lib.
Proof.
  assert (B : W32 < 2 ^ 256) by reflexivity.
  split; unfold Params_N, ScalarBaseMult, ecdsa_Sign, ecdsa_Verify, toy_lib.
  - lia.
  - intros d x y Hd [= <- <-]; split; [lia|split; [lia|intros [= E]; lia]].
  - intros _ d x y h r s Hd [= <- <-] H; injection H as <- <-; pose proof (Z.mod_pos_bound (be_val h) W32 ltac:(lia)).
    rewrite !Z.eqb_refl; split; [lia|split; [lia|reflexivity]].
Qed.

(** A backend whose keys come from the URL. *)
Definition toy_factory : Factory := fun url => of_option (newFromSeed [] (padSeed url)).

Lemma toy_factory_wf url d : toy_factory url = Ret d -> diviner_wf d.
Proof.
  unfold toy_factory; destruct (keyFromSeed_ok (padSeed url)) as (p & x & y & K & _).
  destruct (newFromSeed_ok [] _ _ _ K) as (d' & -> & _ & W & _); intros [= <-]; exact W.
Qed.

(** A registry with one backend. *)
Definition gcp_registry (f : Factory) : registry := {[ str "gcpkms" := f ]}.

Lemma gcp_registry_open f url d : Open (gcp_registry f) url = Ret d -> f url = Ret d.
Proof.
  unfold Open, gcp_registry; destruct (Index url (str "://")) as [i|]; [|discriminate]; cbv zeta.
  destruct (bytes_eqb _ _); [discriminate|]; destruct (_ !! _) as [f'|] eqn:M; [|discriminate].
  apply lookup_singleton_Some in M as [_ <-]; auto.
Qed.

Lemma ceremony_signet_witness : exists out c,
  ceremony (gcp_registry toy_factory) (str "gcpkms://root") (str "gcpkms://release") 7 = Ret out /\
  Parse (Some out) = Ret c /\ ReleaseEpoch c = 7 /\ GuildDiviner c = str "gcpkms://root".
Proof.
  assert (E : exists out, ceremony (gcp_registry toy_factory) (str "gcpkms://root") (str "gcpkms://release") 7 = Ret out)
    by (eexists; vm_compute; reflexivity).
  destruct E as (out & E); destruct (ceremony_signet (gcp_registry toy_factory) (str "gcpkms://root") (str "gcpkms://release") 7 out)
    as (dr & dl & rk & lk & cert & _ & _ & _ & _ & _ & _ & _ & P).
  - intros url d H; exact (toy_factory_wf _ _ (gcp_registry_open _ _ _ H)).
  - apply value_ok_solid; [cbn; lia|apply List.Forall_forall; intros c; revert c; apply forallb_forall; reflexivity].
  - apply value_ok_solid; [cbn; lia|apply List.Forall_forall; intros c; revert c; apply forallb_forall; reflexivity].
  - lia.
  - exact E.
  - exists out, (MkConfig rk (str "gcpkms://root") lk (str "gcpkms://release") cert 7); auto.
Defined.

Lemma mksignet_usable_witness : exists out c d,
  mksignet [] (str "guild") (str "release") 3 = Ret out /\ Parse (Some out) = Ret c /\ ValidateForBuild c = Ret tt /\
  Open {[ str "mockdiviner" := mock_open [] ]} (ReleaseDiviner c) = Ret d /\ PublicKey d = Some (ReleasePubKey c).
Proof.
  assert (E : exists out, mksignet [] (str "guild") (str "release") 3 = Ret out) by (eexists; vm_compute; reflexivity).
  destruct E as (out & E).
  destruct (mksignet_usable {[ str "mockdiviner" := mock_open [] ]} [] [] (str "guild") (str "release") 3 out)
    as (c & P & V & _ & _ & D & _); try apply bytes_str; try lia; [apply lookup_singleton_eq|exact E|].
  destruct (D ltac:(cbn; lia)) as (d & O & K & _); exists out, c, d; auto.
Defined.
