(* ===== verification/BuildID.v ===== *)
(** * BuildID: the hash the linker signs

    cmd/internal/buildid/rewrite.go: [FindAndHash] reads a file through a sliding buffer,
    with two ranges of it masked, and hashes it with every occurrence of the build ID
    replaced by zeros.  The parsers that find the two ranges (debug/macho, debug/elf) are
    parameters. *)

From Stdlib Require Import String ZArith Lia List Bool.
From S2P Require Import Prelude Slices Sha2 Kdf GoText SelfHash.
Import ListNotations.

(** ** Readers *)

(** A [bytes.Reader] and the [excludedReader] around a reader. *)
Inductive reader : Type :=
| BytesReader (data : list Z) (pos : nat)
| Excluded (r : reader) (off start end_ : Z).

(** The masking of the [n] bytes just read: [None] when [make] gets a negative length. *)
Definition excluded_mask (off start end_ : Z) (p : list Z) : option (list Z) :=
  let n := Z.of_nat (length p) in
  if (0 <? n) && (start <? off + n) && (off <? end_) then
    let cstart := start - off in
    let cstart := if cstart <? 0 then 0 else cstart in
    let cend := end_ - off in
    let cend := if n <? cend then n else cend in
    if cend - cstart <? 0 then None
    else Some (copy_into p (Z.to_nat cstart) (repeat 0 (Z.to_nat (cend - cstart))))
  else Some p.

(** [Read] of at most [n] bytes; no bytes at the end of the file. *)
Fixpoint Read (r : reader) (n : nat) : option (list Z * reader) :=
  match r with
  | BytesReader data pos => let p := firstn n (skipn pos data) in Some (p, BytesReader data (pos + length p))
  | Excluded r off start end_ =>
      match Read r n with
      | None => None
      | Some (p, r) =>
          match excluded_mask off start end_ p with
          | None => None
          | Some q => Some (q, Excluded r (off + Z.of_nat (length p)) start end_)
          end
      end
  end.

(** [io.ReadFull] into [want] bytes: reads until they are there or a read returns none. *)
Fixpoint ReadFull (fuel : nat) (r : reader) (want : nat) (got : list Z) : option (list Z * reader) :=
  match fuel with
  | O => Some (got, r)
  | S fuel =>
      if (want =? 0)%nat then Some (got, r)
      else
        match Read r want with
        | None => None
        | Some (p, r) => if (length p =? 0)%nat then Some (got, r) else ReadFull fuel r (want - length p) (got ++ p)
        end
  end.

(** ** FindAndHash *)

Record loop_state : Type := MkLoop {
  lbuf : list Z;
  lstart : nat;
  loffset : Z;
  lhash : list Z;
  lmatches : list Z;
}.

(** The inner loop: matches in [buf[start:stop]]; [lhash] is what has been written to the
    hash. *)
Fixpoint process_matches (fuel stop tiny : nat) (id : list Z) (s : loop_state) : loop_state :=
  match fuel with
  | O => s
  | S fuel =>
      match Index (firstn (stop - lstart s) (skipn (lstart s) (lbuf s))) id with
      | None => s
      | Some i =>
          process_matches fuel stop tiny id
            (MkLoop (lbuf s) (lstart s + i + length id) (loffset s)
               (lhash s ++ firstn i (skipn (lstart s) (lbuf s)) ++ repeat 0 (length id))
               (lmatches s ++ [loffset s + Z.of_nat (lstart s + i) - Z.of_nat tiny]))
      end
  end.

(** The outer loop; [None] is a panic of the masking reader. *)
Fixpoint hash_loop (fuel tiny bufSize : nat) (id : list Z) (r : reader) (s : loop_state) : option (list Z * list Z) :=
  match fuel with
  | O => None
  | S fuel =>
      match ReadFull bufSize r bufSize [] with
      | None => None
      | Some (p, r) =>
          let n := length p in
          let s := MkLoop (copy_into (lbuf s) tiny p) (lstart s) (loffset s) (lhash s) (lmatches s) in
          let s := process_matches (S (length (lbuf s))) (tiny + n) tiny id s in
          if (n <? bufSize)%nat then
            Some (lmatches s, lhash s ++ firstn (tiny + n - lstart s) (skipn (lstart s) (lbuf s)))
          else
            let keep := (length (lbuf s) - tiny)%nat in
            let s :=
              if (lstart s <? keep)%nat
              then MkLoop (lbuf s) keep (loffset s) (lhash s ++ firstn (keep - lstart s) (skipn (lstart s) (lbuf s))) (lmatches s)
              else s in
            hash_loop fuel tiny bufSize id r
              (MkLoop (copy_into (lbuf s) 0 (skipn bufSize (lbuf s))) (lstart s - bufSize) (loffset s + Z.of_nat bufSize) (lhash s) (lmatches s))
      end
  end.

(** What the object-file parsers find in a file: the range of the Mach-O code signature,
    and the range of the host build ID. *)
Class ObjectFormats : Type := {
  findMachoCodeSignature : list Z -> option (Z * Z);
  findHostBuildID : list Z -> option (Z * Z);
}.

Inductive find_error : Type := ErrNoID | ErrBufferTooSmall.

Section Find.
Context {OF : ObjectFormats}.

Definition exclude (range : option (Z * Z)) (r : reader) : reader :=
  match range with None => r | Some (start, end_) => Excluded r 0 start end_ end.

(** The masked reader over a file. *)
Definition masked (data : list Z) : reader :=
  exclude (findHostBuildID data) (exclude (findMachoCodeSignature data) (BytesReader data 0)).

(** The outer loop ends after at most one turn per byte. *)
Definition FindAndHash (data id : list Z) (bufSize : nat) : outcome find_error (list Z * list Z) :=
  let bufSize := if (bufSize =? 0)%nat then Z.to_nat (31 * 1024) else bufSize in
  if (length id =? 0)%nat then Fail ErrNoID
  else if (bufSize <? length id)%nat then Fail ErrBufferTooSmall
  else
    let tiny := Z.to_nat (Z.ldiff (Z.of_nat (length id) + 127) 127) in
    match hash_loop (S (length data)) tiny bufSize id (masked data) (MkLoop (repeat 0 (tiny + bufSize)) tiny 0 [] []) with
    | None => Panic
    | Some (matches, h) => Ret (matches, sha256_spec h)
    end.
End Find.

(** ** What a reader still has to give *)

(** [l] with the positions in [[a, b)] zeroed. *)
Fixpoint zero_window (l : list Z) (a b : Z) : list Z :=
  match l with
  | [] => []
  | x :: l => (if (a <=? 0) && (0 <? b) then 0 else x) :: zero_window l (a - 1) (b - 1)
  end.

Fixpoint content (r : reader) : list Z :=
  match r with
  | BytesReader data pos => skipn pos data
  | Excluded r off start end_ => zero_window (content r) (start - off) (end_ - off)
  end.

Fixpoint reader_ok (r : reader) : Prop :=
  match r with BytesReader _ _ => True | Excluded r _ start end_ => start <= end_ /\ reader_ok r end.

Lemma length_zero_window l a b : length (zero_window l a b) = length l.
Proof. revert a b; induction l as [|x l IH]; intros a b; cbn; [reflexivity|rewrite IH; reflexivity]. Qed.

Lemma zero_window_app l k a b : zero_window (l ++ k) a b = zero_window l a b ++ zero_window k (a - Z.of_nat (length l)) (b - Z.of_nat (length l)).
Proof.
  revert a b; induction l as [|x l IH]; intros a b; cbn [app zero_window length].
  - rewrite !Z.sub_0_r; reflexivity.
  - rewrite IH; cbn [app]; do 3 f_equal; lia.
Qed.

Lemma zero_window_before l a b : Z.of_nat (length l) <= a \/ b <= 0 -> zero_window l a b = l.
Proof.
  revert a b; induction l as [|x l IH]; intros a b H; cbn [zero_window length] in *; [reflexivity|].
  rewrite IH by lia; destruct (Z.leb_spec a 0), (Z.ltb_spec 0 b); cbn [andb]; reflexivity || lia.
Qed.

Lemma zero_window_all l a b : a <= 0 -> Z.of_nat (length l) <= b -> zero_window l a b = repeat 0 (length l).
Proof.
  revert a b; induction l as [|x l IH]; intros a b H1 H2; cbn [zero_window length repeat] in *; [reflexivity|].
  rewrite IH by lia; destruct (Z.leb_spec a 0), (Z.ltb_spec 0 b); cbn [andb]; reflexivity || lia.
Qed.

Lemma zero_window_mid l a n : (a + n <= length l)%nat ->
  zero_window l (Z.of_nat a) (Z.of_nat (a + n)) = firstn a l ++ repeat 0 n ++ skipn (a + n) l.
Proof.
  intros H; rewrite <- (firstn_skipn a l) at 1; rewrite <- (firstn_skipn n (skipn a l)), skipn_skipn at 1.
  assert (L1 : length (firstn a l) = a) by (rewrite length_firstn; lia).
  assert (L2 : length (firstn n (skipn a l)) = n) by (rewrite length_firstn, length_skipn; lia).
  rewrite !zero_window_app, L1, L2; rewrite (zero_window_before (firstn a l)) by lia; rewrite (zero_window_all (firstn n (skipn a l))) by lia.
  rewrite L2, zero_window_before by lia; do 3 f_equal; lia.
Qed.

Lemma zero_window_ext l a b a' b' :
  (forall i, 0 <= i < Z.of_nat (length l) -> (a <= i < b <-> a' <= i < b')) -> zero_window l a b = zero_window l a' b'.
Proof.
  revert a b a' b'; induction l as [|x l IH]; intros a b a' b' H; cbn [zero_window length] in *; [reflexivity|].
  rewrite (IH (a - 1) (b - 1) (a' - 1) (b' - 1)) by (intros i Hi; specialize (H (i + 1) ltac:(lia)); lia).
  specialize (H 0 ltac:(lia)); f_equal.
  destruct (Z.leb_spec a 0), (Z.ltb_spec 0 b), (Z.leb_spec a' 0), (Z.ltb_spec 0 b'); cbn [andb]; reflexivity || lia.
Qed.

Lemma excluded_mask_ok off start end_ p : start <= end_ ->
  excluded_mask off start end_ p = Some (zero_window p (start - off) (end_ - off)).
Proof.
  intros H; unfold excluded_mask; set (n := Z.of_nat (length p)).
  destruct (Z.ltb_spec 0 n) as [Hn|Hn]; cbn [andb].
  2: { destruct p; [reflexivity|cbn [length] in n; lia]. }
  destruct (Z.ltb_spec start (off + n)) as [H1|H1]; cbn [andb]; [|rewrite zero_window_before by lia; reflexivity].
  destruct (Z.ltb_spec off end_) as [H2|H2]; [|rewrite zero_window_before by lia; reflexivity].
  set (cs := if start - off <? 0 then 0 else start - off); set (ce := if n <? end_ - off then n else end_ - off).
  assert (Hc : 0 <= cs <= ce /\ ce <= n) by (unfold cs, ce; destruct (Z.ltb_spec (start - off) 0), (Z.ltb_spec n (end_ - off)); lia).
  destruct (Z.ltb_spec (ce - cs) 0); [lia|]; f_equal.
  assert (E : zero_window p (start - off) (end_ - off) = zero_window p (Z.of_nat (Z.to_nat cs)) (Z.of_nat (Z.to_nat cs + Z.to_nat (ce - cs)))).
  { apply zero_window_ext; intros i Hi; rewrite Nat2Z.inj_add, !Z2Nat.id by lia; clear - Hi H1 H2; unfold cs, ce, n in *.
    destruct (Z.ltb_spec (start - off) 0), (Z.ltb_spec (Z.of_nat (length p)) (end_ - off)); lia. }
  rewrite E, zero_window_mid by lia.
  unfold copy_into; rewrite repeat_length; replace (Nat.min (length p - Z.to_nat cs) (Z.to_nat (ce - cs))) with (Z.to_nat (ce - cs)) by lia.
  rewrite (firstn_all2 (repeat 0 _)) by (rewrite repeat_length; lia); reflexivity.
Qed.

Lemma firstn_zero_window n l a b : firstn n (zero_window l a b) = zero_window (firstn n l) a b.
Proof. revert l a b; induction n as [|n IH]; intros [|x l] a b; cbn [firstn zero_window]; [reflexivity..|rewrite IH; reflexivity]. Qed.

Lemma skipn_zero_window n l a b : skipn n (zero_window l a b) = zero_window (skipn n l) (a - Z.of_nat n) (b - Z.of_nat n).
Proof.
  revert l a b; induction n as [|n IH]; intros l a b; [rewrite !Z.sub_0_r; reflexivity|].
  destruct l as [|x l]; [reflexivity|]; cbn [skipn zero_window]; rewrite IH; f_equal; lia.
Qed.

(** A read gives the next bytes of the content. *)
Lemma Read_ok r n : reader_ok r -> exists r',
  Read r n = Some (firstn n (content r), r') /\ content r' = skipn n (content r) /\ reader_ok r'.
Proof.
  induction r as [data pos|r IH off start end_]; intros H.
  - eexists; split; [reflexivity|split; [|exact I]]; cbn [content]; rewrite length_firstn, length_skipn, skipn_skipn.
    destruct (Nat.le_gt_cases n (length data - pos)); [f_equal; lia|rewrite !skipn_all2 by lia; reflexivity].
  - destruct H as [H1 H2]; destruct (IH H2) as (r' & E & C & K); cbn [Read content]; rewrite E, excluded_mask_ok by exact H1.
    eexists; split; [f_equal; f_equal|split; [|exact (conj H1 K)]]; cbn [content].
    + symmetry; apply firstn_zero_window.
    + rewrite C; symmetry; etransitivity; [apply skipn_zero_window|]; rewrite length_firstn.
      destruct (Nat.le_gt_cases n (length (content r))) as [L|L]; [f_equal; lia|rewrite skipn_all2 by lia; reflexivity].
Qed.

Lemma ReadFull_ok want fuel r got : reader_ok r -> (want <= fuel)%nat -> exists r',
  ReadFull fuel r want got = Some (got ++ firstn want (content r), r') /\ content r' = skipn want (content r) /\ reader_ok r'.
Proof.
  revert want r got; induction fuel as [|fuel IH]; intros want r got H L; cbn [ReadFull].
  - replace want with 0%nat by lia; cbn [firstn skipn]; rewrite app_nil_r; eauto.
  - destruct (Nat.eqb_spec want 0) as [->|N]; [cbn [firstn skipn]; rewrite app_nil_r; eauto|].
    destruct (Read_ok r want H) as (r1 & E & C & K); rewrite E.
    destruct (Nat.eqb_spec (length (firstn want (content r))) 0) as [Z0|NZ].
    + rewrite length_firstn in Z0; assert (E0 : content r = []) by (apply length_zero_iff_nil; lia).
      rewrite E0 in *; rewrite firstn_nil, app_nil_r, skipn_nil in *; eauto.
    + destruct (IH (want - length (firstn want (content r)))%nat r1 (got ++ firstn want (content r)) K ltac:(lia)) as (r2 & E2 & C2 & K2).
      exists r2; rewrite E2, C2, C, <- app_assoc; rewrite length_firstn in *.
      assert (G : firstn (want - Nat.min want (length (content r))) (skipn want (content r)) = [] /\
        skipn (want - Nat.min want (length (content r))) (skipn want (content r)) = skipn want (content r)).
      { destruct (Nat.le_gt_cases want (length (content r))) as [B|B].
        - replace (want - Nat.min want (length (content r)))%nat with 0%nat by lia; auto.
        - rewrite skipn_all2 by lia; rewrite firstn_nil, skipn_nil; auto. }
      destruct G as [-> ->]; rewrite app_nil_r; auto.
Qed.

(** ** The occurrences a scan finds *)

(** Positions of the non-overlapping occurrences, left to right; [pos] is the position of
    the list's head. *)
Fixpoint occurrences (pat : list Z) (skip : nat) (pos : Z) (l : list Z) : list Z :=
  match l with
  | [] => []
  | _ :: l' =>
      match skip with
      | S k => occurrences pat k (pos + 1) l'
      | O => if is_prefix pat l then pos :: occurrences pat (length pat - 1) (pos + 1) l' else occurrences pat 0 (pos + 1) l'
      end
  end.

Lemma occurrences_skip pat pos l r :
  occurrences pat (length l) pos (l ++ r) = occurrences pat 0 (pos + Z.of_nat (length l)) r.
Proof.
  revert pos; induction l as [|x l IH]; intros pos; cbn [length app occurrences]; [f_equal; lia|].
  rewrite IH; f_equal; lia.
Qed.

Lemma is_prefix_long pat w r : (length pat <= length w)%nat -> is_prefix pat (w ++ r) = is_prefix pat w.
Proof.
  revert w; induction pat as [|x pat IH]; intros [|y w] H; cbn [is_prefix app length] in *; try reflexivity; [lia|].
  rewrite IH by lia; reflexivity.
Qed.

Lemma Index_cons x w id : Index (x :: w) id = if is_prefix id (x :: w) then Some 0%nat else option_map S (Index w id).
Proof. reflexivity. Qed.

(** An occurrence at the front. *)
Lemma zero_occ_front id r : id <> [] -> zero_occ id 0 (id ++ r) = repeat 0 (length id) ++ zero_occ id 0 r.
Proof.
  intros H; destruct id as [|x id]; [contradiction|].
  change ((x :: id) ++ r) with (x :: (id ++ r)); cbn [zero_occ]; change (x :: id ++ r) with ((x :: id) ++ r); rewrite is_prefix_app.
  cbn [length]; replace (S (length id) - 1)%nat with (length id) by lia; rewrite zero_occ_skip; reflexivity.
Qed.

Lemma occurrences_front id pos r : id <> [] -> occurrences id 0 pos (id ++ r) = pos :: occurrences id 0 (pos + Z.of_nat (length id)) r.
Proof.
  intros H; destruct id as [|x id]; [contradiction|].
  change ((x :: id) ++ r) with (x :: (id ++ r)); cbn [occurrences]; change (x :: id ++ r) with ((x :: id) ++ r); rewrite is_prefix_app.
  cbn [length]; replace (S (length id) - 1)%nat with (length id) by lia; rewrite occurrences_skip; do 2 f_equal; lia.
Qed.

Lemma Index_None_tail x w id : Index (x :: w) id = None -> is_prefix id (x :: w) = false /\ Index w id = None.
Proof. rewrite Index_cons; destruct (is_prefix _ _); [discriminate|]; destruct (Index w id); [discriminate|auto]. Qed.

(** Bytes at which no occurrence starts are copied. *)
Lemma scan_skip id w r k pos : Index w id = None -> (k + length id <= S (length w))%nat -> (k <= length w)%nat ->
  zero_occ id 0 (w ++ r) = firstn k w ++ zero_occ id 0 (skipn k w ++ r) /\
  occurrences id 0 pos (w ++ r) = occurrences id 0 (pos + Z.of_nat k) (skipn k w ++ r).
Proof.
  revert w pos; induction k as [|k IH]; intros w pos H L1 L2.
  - cbn [firstn skipn app]; split; [reflexivity|f_equal; lia].
  - destruct w as [|x w]; [cbn in L2; lia|]; apply Index_None_tail in H as [P H]; cbn [length] in *.
    destruct (IH w (pos + 1) H ltac:(lia) ltac:(lia)) as [E1 E2].
    change ((x :: w) ++ r) with (x :: (w ++ r)); cbn [zero_occ occurrences firstn skipn].
    change (x :: w ++ r) with ((x :: w) ++ r); rewrite is_prefix_long, P by (cbn [length]; lia).
    rewrite E1, E2; split; [reflexivity|f_equal; lia].
Qed.

Lemma no_occurrence id w pos : id <> [] -> Index w id = None -> zero_occ id 0 w = w /\ occurrences id 0 pos w = [].
Proof.
  intros Hid; revert pos; induction w as [|x w IH]; intros pos H; [auto|].
  apply Index_None_tail in H as [P H]; cbn [zero_occ occurrences]; rewrite P; destruct (IH (pos + 1) H) as [-> ->]; auto.
Qed.

Lemma scan_match id w r i pos : id <> [] -> Index w id = Some i ->
  (i + length id <= length w)%nat /\
  zero_occ id 0 (w ++ r) = firstn i w ++ repeat 0 (length id) ++ zero_occ id 0 (skipn (i + length id) w ++ r) /\
  occurrences id 0 pos (w ++ r) =
    (pos + Z.of_nat i) :: occurrences id 0 (pos + Z.of_nat (i + length id)) (skipn (i + length id) w ++ r).
Proof.
  intros Hid; revert w pos; induction i as [|i IH]; intros w pos H.
  - assert (P : is_prefix id w = true) by (destruct w; cbn [Index] in H; destruct (is_prefix _ _); congruence || destruct (Index _ _); discriminate).
    pose proof (is_prefix_split _ _ P) as E; cbn [Nat.add firstn app]; rewrite E at 1 2 4; rewrite <- !app_assoc.
    rewrite zero_occ_front, occurrences_front by exact Hid; split; [rewrite E, length_app; lia|split; [reflexivity|f_equal; lia]].
  - destruct w as [|x w]; [cbn [Index] in H; destruct (is_prefix _ _); discriminate|]; rewrite Index_cons in H.
    destruct (is_prefix id (x :: w)) eqn:P; [discriminate|]; destruct (Index w id) as [j|] eqn:J; [|discriminate].
    injection H as ->; destruct (IH w (pos + 1) J) as (L & E1 & E2); cbn [length Nat.add firstn skipn app zero_occ occurrences].
    change (x :: w ++ r) with ((x :: w) ++ r); rewrite is_prefix_long, P by (cbn [length]; lia).
    rewrite E1, E2; split; [lia|split; [reflexivity|f_equal; [lia|f_equal; lia]]].
Qed.

(** ** The loops *)

Definition window (stop : nat) (s : loop_state) : list Z := firstn (stop - lstart s) (skipn (lstart s) (lbuf s)).
Definition position (tiny : nat) (s : loop_state) : Z := loffset s + Z.of_nat (lstart s) - Z.of_nat tiny.

Lemma process_matches_ok id stop tiny fuel s :
  id <> [] -> (stop <= length (lbuf s))%nat -> (lstart s <= stop)%nat -> (stop - lstart s < fuel)%nat ->
  let s' := process_matches fuel stop tiny id s in
  lbuf s' = lbuf s /\ loffset s' = loffset s /\ (lstart s' <= stop)%nat /\ Index (window stop s') id = None /\
  forall r, lhash s' ++ zero_occ id 0 (window stop s' ++ r) = lhash s ++ zero_occ id 0 (window stop s ++ r) /\
    lmatches s' ++ occurrences id 0 (position tiny s') (window stop s' ++ r) =
    lmatches s ++ occurrences id 0 (position tiny s) (window stop s ++ r).
Proof.
  intros Hid; revert s; induction fuel as [|fuel IH]; intros s L1 L2 L3; [lia|]; cbn [process_matches]; fold (window stop s).
  destruct (Index (window stop s) id) as [i|] eqn:E; [|auto 10].
  set (s1 := MkLoop _ _ _ _ _); cbv zeta.
  assert (Lw : length (window stop s) = (stop - lstart s)%nat) by (unfold window; rewrite length_firstn, length_skipn; lia).
  pose proof (fun r => scan_match id (window stop s) r i (position tiny s) Hid E) as M; destruct (M []) as (Li & _ & _); rewrite Lw in Li.
  assert (Hl : (0 < length id)%nat) by (destruct id; [contradiction|cbn; lia]).
  destruct (IH s1) as (B & O & S & N & R); [exact L1|cbn [s1 lstart]; lia|cbn [s1 lstart]; lia|].
  split; [exact B|split; [exact O|split; [exact S|split; [exact N|intros r]]]].
  destruct (R r) as [R1 R2], (M r) as (_ & M1 & M2); rewrite R1, R2, M1, M2.
  assert (W : window stop s1 = skipn (i + length id) (window stop s)).
  { unfold window, s1; cbn [lstart lbuf]; rewrite skipn_firstn_comm, skipn_skipn; f_equal; [lia|f_equal; lia]. }
  assert (F : firstn i (skipn (lstart s) (lbuf s)) = firstn i (window stop s)) by (unfold window; rewrite firstn_firstn; f_equal; lia).
  rewrite W; cbn [s1 lhash lmatches]; rewrite F, <- !app_assoc; split; [reflexivity|].
  unfold position; cbn [app s1 lstart loffset]; f_equal; f_equal; [lia|f_equal; lia].
Qed.

(** The bytes read but not yet hashed, and those still to read. *)
Definition pending (tiny : nat) (s : loop_state) (r : reader) : list Z := window tiny s ++ content r.

Lemma firstn_app_exact {A} (a b : list A) n : length a = n -> firstn n (a ++ b) = a.
Proof. intros <-; rewrite firstn_app, Nat.sub_diag, firstn_all; apply app_nil_r. Qed.

Lemma skipn_app_exact {A} (a b : list A) n : length a = n -> skipn n (a ++ b) = b.
Proof. intros <-; rewrite skipn_app, Nat.sub_diag, skipn_all; reflexivity. Qed.

Lemma fill_buffer tiny bufSize s p h m o :
  length (lbuf s) = (tiny + bufSize)%nat -> (lstart s <= tiny)%nat -> (length p <= bufSize)%nat ->
  let b := copy_into (lbuf s) tiny p in
  length b = (tiny + bufSize)%nat /\ window (tiny + length p) (MkLoop b (lstart s) o h m) = window tiny s ++ p.
Proof.
  intros Lb Ls Lp; cbv zeta.
  assert (E : copy_into (lbuf s) tiny p = firstn tiny (lbuf s) ++ p ++ skipn (tiny + length p) (lbuf s)).
  { unfold copy_into; replace (Nat.min (length (lbuf s) - tiny) (length p)) with (length p) by lia; rewrite firstn_all; reflexivity. }
  rewrite E; split; [rewrite !length_app, length_firstn, length_skipn; lia|].
  unfold window; cbn [lstart lbuf].
  assert (Lf : length (firstn tiny (lbuf s)) = tiny) by (rewrite length_firstn; lia).
  rewrite skipn_app, Lf; replace (lstart s - tiny)%nat with 0%nat by lia; cbn [skipn].
  rewrite app_assoc.
  rewrite firstn_app_exact; [|rewrite length_app, length_skipn; lia].
  f_equal; symmetry; rewrite <- (firstn_skipn tiny (lbuf s)) at 1; rewrite skipn_app, Lf.
  replace (lstart s - tiny)%nat with 0%nat by lia; cbn [skipn].
  apply firstn_app_exact; rewrite length_skipn; lia.
Qed.

(** The bytes the buffer is about to lose are hashed first: they cannot start a match. *)
Definition flush_window (bufSize : nat) (s : loop_state) : loop_state :=
  if (lstart s <? bufSize)%nat
  then MkLoop (lbuf s) bufSize (loffset s) (lhash s ++ firstn (bufSize - lstart s) (skipn (lstart s) (lbuf s))) (lmatches s)
  else s.

Lemma flush_window_ok id tiny bufSize s r :
  length (lbuf s) = (tiny + bufSize)%nat -> (lstart s <= tiny + bufSize)%nat -> (length id <= tiny)%nat ->
  Index (window (tiny + bufSize) s) id = None ->
  let s' := flush_window bufSize s in
  lbuf s' = lbuf s /\ (bufSize <= lstart s' <= tiny + bufSize)%nat /\
  lhash s' ++ zero_occ id 0 (window (tiny + bufSize) s' ++ r) = lhash s ++ zero_occ id 0 (window (tiny + bufSize) s ++ r) /\
  lmatches s' ++ occurrences id 0 (position tiny s') (window (tiny + bufSize) s' ++ r) =
  lmatches s ++ occurrences id 0 (position tiny s) (window (tiny + bufSize) s ++ r).
Proof.
  intros Lb Ls Ht N; unfold flush_window; cbv zeta.
  destruct (Nat.ltb_spec (lstart s) bufSize) as [Hs|Hs]; [|split; [reflexivity|split; [lia|auto]]].
  cbn [lbuf lstart lhash lmatches]; split; [reflexivity|split; [lia|]].
  set (k := (bufSize - lstart s)%nat).
  assert (Lw : length (window (tiny + bufSize) s) = (tiny + bufSize - lstart s)%nat) by (unfold window; rewrite length_firstn, length_skipn; lia).
  destruct (scan_skip id (window (tiny + bufSize) s) r k (position tiny s) N) as [H1 H2]; [unfold k; lia|unfold k; lia|].
  rewrite H1, H2.
  assert (Wk : window (tiny + bufSize) (MkLoop (lbuf s) bufSize (loffset s) (lhash s ++ firstn k (skipn (lstart s) (lbuf s))) (lmatches s)) =
    skipn k (window (tiny + bufSize) s)).
  { unfold window; cbn [lstart lbuf]; rewrite skipn_firstn_comm, skipn_skipn; f_equal; [unfold k; lia|f_equal; unfold k; lia]. }
  rewrite Wk; split.
  - rewrite <- app_assoc; do 2 f_equal; unfold window; rewrite firstn_firstn; f_equal; unfold k; lia.
  - do 2 f_equal; unfold position, k; cbn [lstart loffset]; lia.
Qed.

(** Sliding the last [tiny] bytes to the front keeps the window. *)
Lemma slide_window tiny bufSize s o h m :
  length (lbuf s) = (tiny + bufSize)%nat -> (bufSize <= lstart s <= tiny + bufSize)%nat ->
  let s' := MkLoop (copy_into (lbuf s) 0 (skipn bufSize (lbuf s))) (lstart s - bufSize) o h m in
  length (lbuf s') = (tiny + bufSize)%nat /\ window tiny s' = window (tiny + bufSize) s.
Proof.
  intros Lb Ls; cbv zeta; unfold window; cbn [lbuf lstart].
  assert (Eb : copy_into (lbuf s) 0 (skipn bufSize (lbuf s)) = skipn bufSize (lbuf s) ++ skipn tiny (lbuf s)).
  { unfold copy_into; cbn [firstn app]; rewrite length_skipn, Lb.
    replace (Nat.min (tiny + bufSize - 0) (tiny + bufSize - bufSize)) with tiny by lia.
    rewrite firstn_all2 by (rewrite length_skipn; lia); reflexivity. }
  rewrite Eb; split; [rewrite length_app, !length_skipn; lia|].
  rewrite skipn_app, length_skipn, Lb; replace (lstart s - bufSize - (tiny + bufSize - bufSize))%nat with 0%nat by lia; cbn [skipn].
  rewrite skipn_skipn; replace (lstart s - bufSize + bufSize)%nat with (lstart s) by lia.
  rewrite firstn_app_exact by (rewrite length_skipn; lia).
  symmetry; apply firstn_all2; rewrite length_skipn; lia.
Qed.

Lemma hash_loop_ok id tiny bufSize fuel r s :
  id <> [] -> (length id <= tiny)%nat -> (0 < bufSize)%nat -> reader_ok r ->
  length (lbuf s) = (tiny + bufSize)%nat -> (lstart s <= tiny)%nat -> (length (content r) < fuel)%nat ->
  hash_loop fuel tiny bufSize id r s =
  Some (lmatches s ++ occurrences id 0 (position tiny s) (pending tiny s r), lhash s ++ zero_occ id 0 (pending tiny s r)).
Proof.
  intros Hid Ht Hb; revert r s; induction fuel as [|fuel IH]; intros r s K Lb Ls Lf; [lia|]; cbn [hash_loop].
  destruct (ReadFull_ok bufSize bufSize r [] K ltac:(lia)) as (r1 & E & C & K1); rewrite E; cbn [app].
  set (p := firstn bufSize (content r)) in *.
  assert (Lp : length p = Nat.min bufSize (length (content r))) by (unfold p; apply length_firstn).
  destruct (fill_buffer tiny bufSize s p (lhash s) (lmatches s) (loffset s) Lb Ls ltac:(lia)) as [Lb1 W1].
  set (s1 := MkLoop (copy_into (lbuf s) tiny p) _ _ _ _) in *; cbv zeta.
  destruct (process_matches_ok id (tiny + length p) tiny (S (length (lbuf s1))) s1 Hid) as (B2 & O2 & S2 & N2 & R2);
    [cbn [s1 lbuf]; lia|cbn [s1 lstart]; lia|cbn [s1 lbuf]; lia|].
  set (s2 := process_matches _ _ _ _ _) in *.
  assert (P : pending tiny s r = window (tiny + length p) s1 ++ content r1)
    by (unfold pending; rewrite W1, C, <- app_assoc; f_equal; symmetry; apply firstn_skipn).
  assert (Q : position tiny s = position tiny s1) by reflexivity.
  destruct (R2 (content r1)) as [Rh Rm]; rewrite P, Q; change (lhash s) with (lhash s1); change (lmatches s) with (lmatches s1); rewrite <- Rh, <- Rm.
  destruct (Nat.ltb_spec (length p) bufSize) as [End|Full].
  - assert (E0 : content r1 = []) by (rewrite C; apply skipn_all2; lia); rewrite E0, !app_nil_r.
    destruct (no_occurrence id _ (position tiny s2) Hid N2) as [-> ->]; rewrite app_nil_r; reflexivity.
  - assert (Lp' : length p = bufSize) by lia; rewrite Lp' in *.
    assert (Lb2 : length (lbuf s2) = (tiny + bufSize)%nat) by (rewrite B2; exact Lb1).
    replace (length (lbuf s2) - tiny)%nat with bufSize by lia; fold (flush_window bufSize s2).
    destruct (flush_window_ok id tiny bufSize s2 (content r1) Lb2 S2 Ht N2) as (B3 & L3 & Gh & Gm).
    set (s3 := flush_window bufSize s2) in *; cbv zeta in L3.
    destruct (slide_window tiny bufSize s3 (loffset s3 + Z.of_nat bufSize) (lhash s3) (lmatches s3)) as [L4 W4];
      [rewrite B3; exact Lb2|exact L3|].
    set (s4 := MkLoop (copy_into (lbuf s3) 0 (skipn bufSize (lbuf s3))) _ _ _ _) in *.
    rewrite (IH r1 s4 K1); [|exact L4|cbn [s4 lstart]; lia|rewrite C, length_skipn; lia].
    assert (Q4 : position tiny s4 = position tiny s3) by (unfold position; cbn [s4 lstart loffset]; lia).
    unfold pending; rewrite W4, Q4; cbn [s4 lhash lmatches]; rewrite Gh, Gm; reflexivity.
Qed.

(** ** Properties *)

Section Properties.
Context {OF : ObjectFormats}.

(** The file with its two ranges masked. *)
Definition mask (range : option (Z * Z)) (l : list Z) : list Z :=
  match range with None => l | Some (a, b) => zero_window l a b end.
Definition masked_content (data : list Z) : list Z := mask (findHostBuildID data) (mask (findMachoCodeSignature data) data).

Definition range_ok (range : option (Z * Z)) : Prop := match range with None => True | Some (a, b) => a <= b end.

Lemma exclude_ok range r : reader_ok r -> range_ok range -> reader_ok (exclude range r) /\ content (exclude range r) = mask range (content r).
Proof. destruct range as [[a b]|]; cbn [exclude reader_ok content mask range_ok]; intros H R; rewrite ?Z.sub_0_r; auto. Qed.

Lemma length_mask range l : length (mask range l) = length l.
Proof. destruct range as [[a b]|]; [apply length_zero_window|reflexivity]. Qed.

Lemma tiny_fits n : (n <= Z.to_nat (Z.ldiff (Z.of_nat n + 127) 127))%nat.
Proof.
  change 127 with (Z.ones 7) at 2; rewrite Z.ldiff_ones_r, Z.shiftr_div_pow2, Z.shiftl_mul_pow2 by lia; change (2 ^ 7) with 128.
  pose proof (Z.div_mod (Z.of_nat n + 127) 128 ltac:(lia)); pose proof (Z.mod_pos_bound (Z.of_nat n + 127) 128 ltac:(lia)); lia.
Qed.

Lemma FindAndHash_ok data id bufSize :
  range_ok (findMachoCodeSignature data) -> range_ok (findHostBuildID data) ->
  FindAndHash data id bufSize =
  match id with
  | [] => Fail ErrNoID
  | _ =>
      if (if (bufSize =? 0)%nat then Z.to_nat (31 * 1024) else bufSize) <? length id then Fail ErrBufferTooSmall
      else Ret (occurrences id 0 0 (masked_content data), sha256_spec (janosZeroAll (masked_content data) id))
  end%nat.
Proof.
  intros R1 R2; unfold FindAndHash; cbv zeta; set (size := if (bufSize =? 0)%nat then Z.to_nat (31 * 1024) else bufSize).
  destruct id as [|x id]; [reflexivity|]; cbn [length Nat.eqb]; change (S (length id)) with (length (x :: id)).
  assert (Hs : (0 < size)%nat) by (unfold size; destruct (Nat.eqb_spec bufSize 0); lia).
  destruct (Nat.ltb_spec size (length (x :: id))); [reflexivity|].
  destruct (exclude_ok (findMachoCodeSignature data) (BytesReader data 0) I R1) as [K1 C1].
  destruct (exclude_ok (findHostBuildID data) _ K1 R2) as [K2 C2]; rewrite C1 in C2; fold (masked data) in K2, C2.
  rewrite hash_loop_ok; [|discriminate|apply tiny_fits|exact Hs|exact K2|apply repeat_length|reflexivity|].
  2: { rewrite C2, !length_mask; cbn [content skipn]; lia. }
  unfold pending, window, position; cbn [lstart lbuf loffset lmatches lhash app]; rewrite Nat.sub_diag; cbn [firstn app].
  rewrite janosZeroAll_occ by discriminate; rewrite C2; do 2 f_equal; f_equal; lia.
Qed.

(** C19: The streaming hash, for every buffer size that fits the ID (0 is the default): it
    never panics on well-formed ranges, reports the positions of the non-overlapping
    occurrences of the ID in the masked file, left to right, also those that straddle two
    reads, and hashes the masked file with these occurrences zeroed, which is what the
    runtime's janosZeroAll computes in one pass. *)
Theorem FindAndHash_correct data id bufSize :
  range_ok (findMachoCodeSignature data) -> range_ok (findHostBuildID data) ->
  FindAndHash data id bufSize =
  match id with
  | [] => Fail ErrNoID
  | _ =>
      if (if (bufSize =? 0)%nat then Z.to_nat (31 * 1024) else bufSize) <? length id then Fail ErrBufferTooSmall
      else Ret (occurrences id 0 0 (masked_content data), sha256_spec (janosZeroAll (masked_content data) id))
  end%nat.
Proof. apply FindAndHash_ok. Qed.
End Properties.

(** A file with a masked range and an ID that straddles two reads of four bytes. *)
#[local] Instance demo_formats : ObjectFormats := {
  findMachoCodeSignature _ := Some (10, 12);
  findHostBuildID _ := None;
}.

Lemma FindAndHash_correct_witness :
  FindAndHash [9; 9; 1; 2; 3; 9; 1; 2; 3; 9; 9; 9; 9] [1; 2; 3] 4 =
  Ret ([2; 6], sha256_spec [9; 9; 0; 0; 0; 9; 0; 0; 0; 9; 0; 0; 9]).
Proof.
  refine (eq_trans (FindAndHash_correct _ _ 4 _ _) _); [cbn; lia|exact I|].
  cbn -[sha256_spec]; reflexivity.
Defined.
