(* ===== verification/Linker.v ===== *)
(** * Linker: inheriting keys and sealing the slot

    cmd/link/internal/ld/janos_diviner.go and janos_inherit_ok.go with the steps of
    main.go that call them: the parent's keys are copied into the output, and the diviner
    pass hashes the output, has the hash signed and writes the chain into the slot.  Then
    the other half of the contract: what the linker signed is what the runtime hashes. *)

From Stdlib Require Import String ZArith Lia List Bool.
From S2P Require Import Prelude Slices Sha2 Kdf CertSlot Provenance CertVerify Identity SelfHash Boot GoText Signet Diviner BuildID.
Import ListNotations.
Open Scope Z_scope.

(** ** Symbols *)

(** What the loader knows of a symbol: its address and its segment's file offset and
    address. *)
Inductive symbol : Type := Absent | NoSection | At (Fileoff symVA Vaddr : Z).

Definition loader : Type := list Z -> symbol.

Definition guild_symbol : list Z := str "runtime.janosExpectedGuildPubKey".
Definition release_symbol : list Z := str "runtime.janosExpectedReleasePubKey".
Definition slot_symbol : list Z := str "runtime.janosCertSlotBytes".

(** A uint64 as an int. *)
Definition to_int (x : Z) : Z := if x <? W63 then x else x - W64.

Definition file_offset (Fileoff symVA Vaddr : Z) : Z := u64 (Fileoff + u64 (symVA - Vaddr)).

Inductive pass_error : Type :=
| ErrNoSignet | ErrSignet (e : signet_error) | ErrInvalid (e : validate_error) | ErrNoSlot | ErrSlotPastEnd
| ErrSymbolMissing (name : list Z) | ErrSymbolNoSection (name : list Z) | ErrSymbolPastEnd (name : list Z)
| ErrFindAndHash (e : find_error) | ErrOpenDiviner (e : open_error) | ErrSign | ErrPublicKey | ErrKeyMismatch.

(** [janosZeroSymbol]: the loop panics at its first index when the offset is negative, or
    so large that the bounds check wrapped. *)
Definition janosZeroSymbol (ldr : loader) (buf name : list Z) (n : nat) : outcome pass_error (list Z) :=
  match ldr name with
  | Absent => Fail (ErrSymbolMissing name)
  | NoSection => Fail (ErrSymbolNoSection name)
  | At f va base =>
      let o := to_int (file_offset f va base) in
      let len := Z.of_nat (length buf) in
      if len <? to_int (u64 (o + Z.of_nat n)) then Fail (ErrSymbolPastEnd name)
      else if (0 <=? o) && (o + Z.of_nat n <=? len) then Ret (zero_range buf o (o + Z.of_nat n))
      else Panic
  end.

(** [patchRuntimeKey]: the slice expression has uint64 bounds. *)
Definition patchRuntimeKey (ldr : loader) (data name value : list Z) : outcome pass_error (list Z) :=
  match ldr name with
  | Absent => Fail (ErrSymbolMissing name)
  | NoSection => Fail (ErrSymbolNoSection name)
  | At f va base =>
      let o := file_offset f va base in
      let len := Z.of_nat (length data) in
      let n := Z.of_nat (length value) in
      if len <? to_int (u64 (to_int o + n)) then Fail (ErrSymbolPastEnd name)
      else
        let hi := u64 (o + n) in
        if (o <=? hi) && (hi <=? len) then Ret (copy_into data (Z.to_nat o) value) else Panic
  end.

Definition patchRuntimeKeyIfPresent (ldr : loader) (data name value : list Z) : outcome pass_error (list Z) :=
  match ldr name with Absent => Ret data | _ => patchRuntimeKey ldr data name value end.

(** ** Inheritance *)

(** [_ = patchRuntimeKeyIfPresent(...)]: an error leaves the data as it is. *)
Definition ignore_error {E} (data : list Z) (x : outcome E (list Z)) : option (list Z) :=
  match x with Ret d => Some d | Fail _ => Some data | Panic => None end.

(** [janosInheritParentKeysIntoOutput] in a linker whose own keys are [parent]. *)
Definition janosInheritParentKeysIntoOutput (parent : list Z * list Z) (ldr : loader) (data : list Z) : option (list Z) :=
  let '(guild, release) := parent in
  let zero := repeat 0 64 in
  if bytes_eqb guild zero && bytes_eqb release zero then Some data
  else
    obind (if negb (bytes_eqb guild zero)
           then ignore_error data (patchRuntimeKeyIfPresent ldr data guild_symbol guild) else Some data) (fun data =>
    if negb (bytes_eqb release zero)
    then ignore_error data (patchRuntimeKeyIfPresent ldr data release_symbol release) else Some data).

(** ** The diviner pass *)

(** The tests of one turn of the scan for the undivined slot. *)
Definition undivined_header_at (buf : list Z) (i : nat) : bool :=
  let b k := nth (i + k) buf 0 in
  forallb (fun k => b k =? nth k Magic 0) (seq 0 8) &&
  negb (negb (b 8%nat =? 0) || negb (b 9%nat =? 0)) &&
  forallb (fun k => b k =? 0) (seq 10 6).

Definition janosLocateSlot (buf : list Z) : option nat :=
  find (undivined_header_at buf) (seq 0 (length buf - 15)).

Section Pass.
Context {OF : ObjectFormats}.

(** The linker's flags and files, and the diviner registry. *)
Record flags : Type := MkFlags {
  flagJanosSignet : list Z;
  flagJanosDiviner : list Z;
  flagBuildid : list Z;
}.
Context (fl : flags) (file : option (option (list Z))) (reg : registry) (ldr : loader).

(** The copy of the output that is hashed. *)
Definition hash_input (data : list Z) (slotOff : nat) : outcome pass_error (list Z) :=
  let hashInput := zero_range data (Z.of_nat slotOff) (Z.of_nat slotOff + Z.of_nat SlotSize) in
  bind (janosZeroSymbol ldr hashInput guild_symbol 64) (fun hashInput =>
  janosZeroSymbol ldr hashInput release_symbol 64).

Definition pass_digest (hashInput : list Z) : outcome pass_error (list Z) :=
  if (length (flagBuildid fl) =? 0)%nat then Ret (sha256_spec hashInput)
  else wrap_error ErrFindAndHash (bind (FindAndHash hashInput (flagBuildid fl) 0) (fun '(_, digest) => Ret digest)).

(** The part of the pass that only reads the output: the slot's offset, the signet and
    the signature. *)
Definition pass_sign (data : list Z) : outcome pass_error (nat * Config * list Z) :=
  if (length (flagJanosSignet fl) =? 0)%nat then Fail ErrNoSignet else
  bind (wrap_error ErrSignet (Load file)) (fun cfg =>
  bind (wrap_error ErrInvalid (ValidateForBuild cfg)) (fun _ =>
  match janosLocateSlot data with
  | None => Fail ErrNoSlot
  | Some slotOff =>
      if (length data <? slotOff + SlotSize)%nat then Fail ErrSlotPastEnd else
      bind (hash_input data slotOff) (fun hashInput =>
      bind (pass_digest hashInput) (fun digest =>
      bind (wrap_error ErrOpenDiviner (Open reg (flagJanosDiviner fl))) (fun d =>
      match Sign d digest with
      | None => Fail ErrSign
      | Some sig =>
          match PublicKey d with
          | None => Fail ErrPublicKey
          | Some pubKey =>
              if negb (bytes_eqb pubKey (ReleasePubKey cfg)) then Fail ErrKeyMismatch
              else Ret (slotOff, cfg, sig)
          end
      end)))
  end)).

Definition guildEntry (cfg : Config) : Certificate := MkCert LevelGuild 0 (GuildPubKey cfg) (repeat 0 64) (repeat 0 64).
Definition releaseEntry (cfg : Config) (sig : list Z) : Certificate :=
  MkCert LevelRelease (ReleaseEpoch cfg) (ReleasePubKey cfg) (ReleaseParentCert cfg) sig.

(** [janosDivinerPass]: the output and the error reported, if any; [None] is a panic. *)
Definition janosDivinerPass (data : list Z) : option (list Z * option pass_error) :=
  match pass_sign data with
  | Fail e => Some (data, Some e)
  | Panic => None
  | Ret (slotOff, cfg, sig) =>
      let slot := EncodeSlot [guildEntry cfg; releaseEntry cfg sig] in
      let data := copy_into data slotOff slot in
      match patchRuntimeKey ldr data guild_symbol (GuildPubKey cfg) with
      | Fail e => Some (data, Some e)
      | Panic => None
      | Ret data =>
          match patchRuntimeKey ldr data release_symbol (ReleasePubKey cfg) with
          | Fail e => Some (data, Some e)
          | Panic => None
          | Ret data => Some (data, None)
          end
      end
  end.

(** The two steps of main.go after [asmb2]. *)
Definition link_tail (parent : list Z * list Z) (data : list Z) : option (list Z * option pass_error) :=
  obind (janosInheritParentKeysIntoOutput parent ldr data) (fun data =>
  if negb (length (flagJanosDiviner fl) =? 0)%nat then janosDivinerPass data else Some (data, None)).
End Pass.

Definition zero_at (l : list Z) (a n : nat) : list Z := copy_into l a (repeat 0 n).

Lemma zero_range_at l a n : (a + n <= length l)%nat -> zero_range l (Z.of_nat a) (Z.of_nat a + Z.of_nat n) = zero_at l a n.
Proof.
  intros H; set (x := firstn a l); set (y := firstn n (skipn a l)); set (z := skipn n (skipn a l)).
  assert (El : l = x ++ y ++ z) by (unfold x, y, z; rewrite firstn_skipn, firstn_skipn; reflexivity).
  assert (Lx : length x = a) by (unfold x; rewrite length_firstn; lia).
  assert (Ly : length y = n) by (unfold y; rewrite length_firstn, length_skipn; lia).
  clearbody x y z; subst l a n; rewrite zero_range_app; symmetry; apply copy_into_exact, repeat_length.
Qed.

Lemma length_zero_at l a n : (a + n <= length l)%nat -> length (zero_at l a n) = length l.
Proof. intros; apply length_copy_into; lia. Qed.

Lemma nth_zero_at l a n i : (a + n <= length l)%nat ->
  nth i (zero_at l a n) 0 = if ((a <=? i) && (i <? a + n))%nat then 0 else nth i l 0.
Proof.
  intros H; unfold zero_at; rewrite nth_copy_into by (rewrite repeat_length; exact H); rewrite repeat_length.
  destruct (_ && _); [apply nth_repeat|reflexivity].
Qed.

(** A pattern that occurs nowhere before [k]. *)
Lemma zero_occ_before pat l k : (forall i, (i < k)%nat -> is_prefix pat (skipn i l) = false) ->
  zero_occ pat 0 l = firstn k l ++ zero_occ pat 0 (skipn k l).
Proof.
  revert l; induction k as [|k IH]; intros l H; [reflexivity|]; destruct l as [|x l]; [reflexivity|].
  cbn [zero_occ firstn skipn app]; rewrite (H 0%nat ltac:(lia) : is_prefix pat (x :: l) = false).
  rewrite IH; [reflexivity|intros i Hi; exact (H (S i) ltac:(lia))].
Qed.

(** A pattern that occurs only at [a]: the zeroing of all occurrences is that of one. *)
Definition only_at (pat l : list Z) (a : nat) : Prop := forall i, i <> a -> is_prefix pat (skipn i l) = false.

Lemma zero_all_once pat l a : pat <> [] -> (a + length pat <= length l)%nat ->
  firstn (length pat) (skipn a l) = pat -> only_at pat l a -> janosZeroAll l pat = zero_at l a (length pat).
Proof.
  intros Hp Hl E O; rewrite janosZeroAll_occ by exact Hp.
  rewrite (zero_occ_before pat l a) by (intros i Hi; apply O; lia).
  assert (Es : skipn a l = pat ++ skipn (a + length pat) l)
    by (rewrite <- E at 1; rewrite Nat.add_comm, <- skipn_skipn; symmetry; apply firstn_skipn).
  rewrite Es, zero_occ_front by exact Hp.
  rewrite (zero_occ_before pat (skipn (a + length pat) l) (length l)).
  2: { intros i _; rewrite skipn_skipn; apply O; destruct pat; [contradiction|cbn [length]; lia]. }
  replace (skipn (length l) (skipn (a + length pat) l)) with (@nil Z) by (symmetry; apply skipn_all2; rewrite length_skipn; lia).
  cbn [zero_occ]; rewrite app_nil_r, (firstn_all2 (skipn _ l)) by (rewrite length_skipn; lia).
  unfold zero_at, copy_into; rewrite repeat_length; replace (Nat.min (length l - a) (length pat)) with (length pat) by lia.
  rewrite (firstn_all2 (repeat 0 _)) by (rewrite repeat_length; lia); reflexivity.
Qed.

(** ** Symbols in range *)

(** The offset of a symbol whose [n] bytes are in the file. *)
Definition symbol_at (ldr : loader) (name : list Z) (len n a : nat) : Prop :=
  exists f va base, ldr name = At f va base /\ file_offset f va base = Z.of_nat a /\ (a + n <= len)%nat.

Lemma to_int_small x : 0 <= x < W63 -> to_int x = x.
Proof. unfold to_int; destruct (Z.ltb_spec x W63); lia. Qed.

Lemma file_offset_range f va base : is_u64 (file_offset f va base).
Proof. apply u64_range. Qed.

(** When the zeroing succeeds, it zeroed the symbol's bytes. *)
Lemma zero_symbol_ok ldr buf name n b : Z.of_nat (length buf) < W63 - Z.of_nat n -> (0 < n)%nat ->
  janosZeroSymbol ldr buf name n = Ret b <-> exists a, symbol_at ldr name (length buf) n a /\ b = zero_at buf a n.
Proof.
  intros Hl Hn; unfold janosZeroSymbol, symbol_at; destruct (ldr name) as [| |f va base];
    [split; [discriminate|intros (? & (? & ? & ? & [=] & _) & _)]..|].
  pose proof (file_offset_range f va base) as R; set (o := file_offset f va base) in *; unword.
  split.
  - destruct (Z.ltb_spec (Z.of_nat (length buf)) (to_int (u64 (to_int o + Z.of_nat n)))); [discriminate|].
    destruct (Z.leb_spec 0 (to_int o)); cbn [andb]; [|discriminate].
    destruct (Z.leb_spec (to_int o + Z.of_nat n) (Z.of_nat (length buf))); [|discriminate].
    intros E; apply Ret_inj in E; assert (Eo : to_int o = o) by (unfold to_int in *; destruct (Z.ltb_spec o W63); lia).
    rewrite Eo in *; exists (Z.to_nat o); split; [exists f, va, base; split; [reflexivity|split; [fold o; lia|lia]]|].
    rewrite <- E; rewrite <- (Z2Nat.id o) at 1 2 by lia; apply zero_range_at; lia.
  - intros (a & (f' & va' & base' & [= -> -> ->] & Eo & La) & ->); fold o in Eo; rewrite Eo.
    rewrite (to_int_small (Z.of_nat a)) by lia; rewrite u64_small by (unword; lia); rewrite to_int_small by lia.
    destruct (Z.ltb_spec (Z.of_nat (length buf)) (Z.of_nat a + Z.of_nat n)); [lia|].
    destruct (Z.leb_spec 0 (Z.of_nat a)), (Z.leb_spec (Z.of_nat a + Z.of_nat n) (Z.of_nat (length buf))); try lia; cbn [andb].
    rewrite zero_range_at by exact La; reflexivity.
Qed.

(** Patching a symbol that is in range. *)
Lemma patch_ok ldr data name v a : Z.of_nat (length data) < W63 -> symbol_at ldr name (length data) (length v) a ->
  patchRuntimeKey ldr data name v = Ret (copy_into data a v).
Proof.
  intros Hl (f & va & base & E & Eo & La); unfold patchRuntimeKey; rewrite E, Eo.
  rewrite (to_int_small (Z.of_nat a)) by lia; rewrite !u64_small by (unword; lia); rewrite to_int_small by lia.
  destruct (Z.ltb_spec (Z.of_nat (length data)) (Z.of_nat a + Z.of_nat (length v))); [lia|].
  destruct (Z.leb_spec (Z.of_nat a) (Z.of_nat a + Z.of_nat (length v))), (Z.leb_spec (Z.of_nat a + Z.of_nat (length v)) (Z.of_nat (length data))); try lia.
  cbn [andb]; rewrite Nat2Z.id; reflexivity.
Qed.

Lemma symbol_at_unique ldr name len n a len' n' a' : symbol_at ldr name len n a -> symbol_at ldr name len' n' a' -> a = a'.
Proof. intros (f & va & base & E & Eo & _) (f' & va' & base' & E' & Eo' & _); rewrite E in E'; injection E' as -> -> ->; lia. Qed.

(** ** What the pass does *)

Definition apart (a n b m : nat) : Prop := (a + n <= b \/ b + m <= a)%nat.

(** The image the pass hashes, and the image it leaves. *)
Definition hashed (data : list Z) (s g r : nat) : list Z := zero_at (zero_at (zero_at data s SlotSize) g 64) r 64.
Definition sealed (data slot gk rk : list Z) (s g r : nat) : list Z := copy_into (copy_into (copy_into data s slot) g gk) r rk.

(** The chain the pass writes. *)
Definition sealed_chain (cfg : Config) (sig : list Z) : list Certificate := [guildEntry cfg; releaseEntry cfg sig].

Lemma sealed_chain_wf cfg sig : config_wf cfg -> wf64 sig -> Forall cert_wf (sealed_chain cfg sig).
Proof.
  intros [G R P E] S; repeat constructor; cbn [guildEntry releaseEntry Level RevokeEpoch SignerPubKey ParentCert Signature];
    try apply zero64; try assumption; try apply G; try apply R; try apply P; try apply S; unfold LevelGuild, LevelRelease; unword; lia.
Qed.

Lemma length_chain_slot cfg sig : config_wf cfg -> wf64 sig -> length (EncodeSlot (sealed_chain cfg sig)) = SlotSize.
Proof. intros C S; rewrite EncodeSlot_layout by (apply sealed_chain_wf; assumption); apply length_slot_layout, sealed_chain_wf; assumption. Qed.

Section PassFacts.
Context {OF : ObjectFormats} (fl : flags) (file : option (option (list Z))) (reg : registry) (ldr : loader).
Context (data : list Z) (Hlen : Z.of_nat (length data) < 2 ^ 61).

(** What holds when the reading part of the pass succeeds. *)
Record signed (cfg : Config) (s g r : nat) (digest sig : list Z) (d : Diviner) : Prop := {
  sg_signet : Load file = Ret cfg;
  sg_valid : ValidateForBuild cfg = Ret tt;
  sg_slot : janosLocateSlot data = Some s;
  sg_slot_in : (s + SlotSize <= length data)%nat;
  sg_guild : symbol_at ldr guild_symbol (length data) 64 g;
  sg_release : symbol_at ldr release_symbol (length data) 64 r;
  sg_digest : pass_digest fl (hashed data s g r) = Ret digest;
  sg_open : Open reg (flagJanosDiviner fl) = Ret d;
  sg_sig : Sign d digest = Some sig;
  sg_key : PublicKey d = Some (ReleasePubKey cfg);
}.

Lemma hash_input_ok s hi : (s + SlotSize <= length data)%nat ->
  hash_input ldr data s = Ret hi <->
  exists g r, symbol_at ldr guild_symbol (length data) 64 g /\ symbol_at ldr release_symbol (length data) 64 r /\ hi = hashed data s g r.
Proof.
  intros Hs; unfold hash_input; rewrite zero_range_at by exact Hs.
  assert (L0 : length (zero_at data s SlotSize) = length data) by (apply length_zero_at, Hs).
  assert (B : forall l : list Z, length l = length data -> Z.of_nat (length l) < W63 - Z.of_nat 64)
    by (intros l ->; change (2 ^ 61) with 2305843009213693952 in Hlen; lia).
  rewrite bind_Ret; split.
  - intros (b & H1 & H2); apply zero_symbol_ok in H1 as (g & G & ->); [|apply B, L0|lia].
    rewrite L0 in G; pose proof G as (_ & _ & _ & _ & _ & Lg).
    assert (L1 : length (zero_at (zero_at data s SlotSize) g 64) = length data) by (rewrite length_zero_at; rewrite L0; auto).
    apply zero_symbol_ok in H2 as (r & R & ->); [|apply B, L1|lia]; rewrite L1 in R; exists g, r; auto.
  - intros (g & r & G & R & ->); pose proof G as (_ & _ & _ & _ & _ & Lg).
    assert (L1 : length (zero_at (zero_at data s SlotSize) g 64) = length data) by (rewrite length_zero_at; rewrite L0; auto).
    eexists; split; apply zero_symbol_ok; [apply B, L0|lia|exists g; rewrite L0; auto|apply B, L1|lia|exists r; rewrite L1; auto].
Qed.

Lemma pass_sign_ok s cfg sig : pass_sign fl file reg ldr data = Ret (s, cfg, sig) ->
  exists g r digest d, signed cfg s g r digest sig d.
Proof.
  unfold pass_sign; destruct (length (flagJanosSignet fl) =? 0)%nat; [discriminate|]; intros H.
  apply bind_Ret in H as (c & Hc & H); apply wrap_error_Ret in Hc; apply bind_Ret in H as ([] & Hv & H); apply wrap_error_Ret in Hv.
  destruct (janosLocateSlot data) as [so|] eqn:El; [|discriminate].
  destruct (Nat.ltb_spec (length data) (so + SlotSize)) as [|Ls]; [discriminate|].
  apply bind_Ret in H as (hi & Hi & H); apply (hash_input_ok so hi Ls) in Hi as (g & r & G & R & ->).
  apply bind_Ret in H as (digest & Hd & H); apply bind_Ret in H as (d & Ho & H); apply wrap_error_Ret in Ho.
  destruct (Sign d digest) as [x|] eqn:Es; [|discriminate]; destruct (PublicKey d) as [pk|] eqn:Ek; [|discriminate].
  destruct (bytes_eqb_spec pk (ReleasePubKey c)) as [->|]; [|discriminate]; apply Ret_inj in H; injection H as -> -> ->.
  exists g, r, digest, d; split; assumption.
Qed.

Context (Hreg : forall url d, Open reg url = Ret d -> diviner_wf d).

(** The pass after a successful reading part: both patches succeed. *)
Lemma pass_ok : janosDivinerPass fl file reg ldr data =
  match pass_sign fl file reg ldr data with
  | Fail e => Some (data, Some e)
  | Panic => None
  | Ret (s, cfg, sig) => janosDivinerPass fl file reg ldr data
  end /\
  forall s cfg sig, pass_sign fl file reg ldr data = Ret (s, cfg, sig) ->
    exists g r digest d, signed cfg s g r digest sig d /\
      janosDivinerPass fl file reg ldr data =
      Some (sealed data (EncodeSlot (sealed_chain cfg sig)) (GuildPubKey cfg) (ReleasePubKey cfg) s g r, None).
Proof.
  split; [unfold janosDivinerPass; destruct (pass_sign _ _ _ _ _) as [[[s c] sig]| |]; reflexivity|].
  intros s cfg sig E; destruct (pass_sign_ok _ _ _ E) as (g & r & digest & d & F); exists g, r, digest, d; split; [exact F|].
  pose proof (Load_wf _ _ (sg_signet _ _ _ _ _ _ _ F)) as W; destruct (cw_guild _ W) as [_ LG], (cw_release _ W) as [_ LR].
  pose proof (proj2 (Hreg _ _ (sg_open _ _ _ _ _ _ _ F)) _ _ (sg_sig _ _ _ _ _ _ _ F)) as WS.
  pose proof (length_chain_slot _ _ W WS) as LC; pose proof (sg_slot_in _ _ _ _ _ _ _ F) as Ls.
  pose proof (sg_guild _ _ _ _ _ _ _ F) as G; pose proof (sg_release _ _ _ _ _ _ _ F) as R.
  unfold janosDivinerPass; rewrite E; fold (sealed_chain cfg sig); set (slot := EncodeSlot _) in *; unfold sealed.
  assert (L1 : length (copy_into data s slot) = length data) by (apply length_copy_into; lia).
  assert (Lg : (g + 64 <= length data)%nat) by (destruct G as (_ & _ & _ & _ & _ & Lg); exact Lg).
  assert (L2 : length (copy_into (copy_into data s slot) g (GuildPubKey cfg)) = length data) by (rewrite length_copy_into by lia; exact L1).
  change (2 ^ 61) with 2305843009213693952 in Hlen.
  rewrite (patch_ok ldr (copy_into data s slot) _ _ g); [|rewrite L1; lia|rewrite L1, LG; exact G].
  rewrite (patch_ok ldr _ _ (ReleasePubKey cfg) r); [reflexivity|rewrite L2; lia|rewrite L2, LR; exact R].
Qed.
End PassFacts.

(** ** The runtime's view of the sealed image *)

Lemma region_eq l a v : (a + length v <= length l)%nat ->
  (forall i, (i < length v)%nat -> nth (a + i) l 0 = nth i v 0) -> firstn (length v) (skipn a l) = v.
Proof.
  intros H E; apply (nth_ext _ _ 0 0); rewrite length_firstn, length_skipn; [lia|].
  intros i Hi; rewrite nth_firstn; destruct (Nat.ltb_spec i (length v)); [|lia]; rewrite nth_skipn; apply E; lia.
Qed.

(** Where things are, and that the scans of the runtime find them there: no divined header
    before the slot, and each key only in its variable once what comes before is zeroed. *)
Record layout (data slot gk rk : list Z) (s g r : nat) : Prop := {
  lay_sg : apart s SlotSize g 64;
  lay_sr : apart s SlotSize r 64;
  lay_gr : apart g 64 r 64;
  lay_first : forall i, (i < s)%nat -> slot_header_at (sealed data slot gk rk s g r) i = false;
  lay_guild : only_at gk (zero_at (sealed data slot gk rk s g r) s SlotSize) g;
  lay_release : only_at rk (zero_at (zero_at (sealed data slot gk rk s g r) s SlotSize) g 64) r;
}.

(** Lengths of overwritten lists, in the goals and the side conditions they give. *)
Ltac lens := repeat (rewrite length_zero_at || rewrite length_copy_into); try lia.

(** Case analysis on the comparisons of [nth_copy_into]. *)
Ltac cases := repeat match goal with |- context [(?a <=? ?b)%nat] => destruct (Nat.leb_spec a b) end;
  repeat match goal with |- context [(?a <? ?b)%nat] => destruct (Nat.ltb_spec a b) end; cbn [andb].

Section View.
Context (data slot gk rk : list Z) (s g r : nat).
Context (Hs : (s + SlotSize <= length data)%nat) (Hg : (g + 64 <= length data)%nat) (Hr : (r + 64 <= length data)%nat).
Context (Ls : length slot = SlotSize) (Lg : length gk = 64%nat) (Lr : length rk = 64%nat).
Context (Lay : layout data slot gk rk s g r).

Let img : list Z := sealed data slot gk rk s g r.

Lemma length_sealed : length img = length data.
Proof. unfold img, sealed; lens. Qed.

Lemma nth_sealed i : nth i img 0 =
  if ((r <=? i) && (i <? r + 64))%nat then nth (i - r) rk 0
  else if ((g <=? i) && (i <? g + 64))%nat then nth (i - g) gk 0
  else if ((s <=? i) && (i <? s + SlotSize))%nat then nth (i - s) slot 0 else nth i data 0.
Proof. unfold img, sealed; rewrite !nth_copy_into by lens; rewrite Ls, Lg, Lr; reflexivity. Qed.

Lemma hashed_sealed : zero_at (zero_at (zero_at img s SlotSize) g 64) r 64 = hashed data s g r.
Proof.
  pose proof length_sealed as L; unfold hashed.
  apply (nth_ext _ _ 0 0); [lens|].
  intros i _; rewrite !nth_zero_at by lens.
  rewrite nth_sealed; cases; reflexivity.
Qed.

Lemma slot_region : firstn SlotSize (skipn s img) = slot.
Proof.
  pose proof (lay_sg _ _ _ _ _ _ _ Lay) as A; pose proof (lay_sr _ _ _ _ _ _ _ Lay) as B; unfold apart in *.
  rewrite <- Ls; apply region_eq; [rewrite length_sealed, Ls; exact Hs|]; intros i Hi; rewrite nth_sealed; cases; try lia; f_equal; lia.
Qed.

Lemma guild_region : firstn (length gk) (skipn g (zero_at img s SlotSize)) = gk.
Proof.
  pose proof (lay_sg _ _ _ _ _ _ _ Lay) as A; pose proof (lay_gr _ _ _ _ _ _ _ Lay) as B; unfold apart in *.
  pose proof length_sealed as L; apply region_eq; [rewrite length_zero_at; lia|].
  intros i Hi; rewrite nth_zero_at by lia; rewrite nth_sealed; cases; try lia; f_equal; lia.
Qed.

Lemma release_region : firstn (length rk) (skipn r (zero_at (zero_at img s SlotSize) g 64)) = rk.
Proof.
  pose proof (lay_sr _ _ _ _ _ _ _ Lay) as A; pose proof (lay_gr _ _ _ _ _ _ _ Lay) as B; unfold apart in *.
  pose proof length_sealed as L; apply region_eq; [lens|].
  intros i Hi; rewrite !nth_zero_at by lens; rewrite nth_sealed; cases; try lia; f_equal; lia.
Qed.

Lemma guild_here : firstn 64 (skipn g img) = gk.
Proof.
  pose proof (lay_sg _ _ _ _ _ _ _ Lay) as A; pose proof (lay_gr _ _ _ _ _ _ _ Lay) as B; unfold apart in *.
  rewrite <- Lg; apply region_eq; [rewrite length_sealed; lia|]; intros i Hi; rewrite nth_sealed; cases; try lia; f_equal; lia.
Qed.

Lemma release_here : firstn 64 (skipn r img) = rk.
Proof.
  pose proof (lay_sr _ _ _ _ _ _ _ Lay) as A; pose proof (lay_gr _ _ _ _ _ _ _ Lay) as B; unfold apart in *.
  rewrite <- Lr; apply region_eq; [rewrite length_sealed; lia|]; intros i Hi; rewrite nth_sealed; cases; try lia; f_equal; lia.
Qed.

(** The canonical form of the sealed image starts from the image that was hashed. *)
Lemma canonical_sealed es : slot = EncodeSlot es -> Forall cert_wf es -> (1 <= length es <= 8)%nat ->
  canonical_form img gk rk = obind (obind (janosZeroMachoExcludes (hashed data s g r)) janosZeroElfExcludes) zero_build_id.
Proof.
  intros Es W Le; pose proof length_sealed as L.
  assert (Z0 : zero_slot img = zero_at img s SlotSize).
  { pose proof (firstn_skipn s img) as E1; pose proof (firstn_skipn SlotSize (skipn s img)) as E2; rewrite slot_region in E2.
    assert (Lf : length (firstn s img) = s) by (rewrite length_firstn; lia).
    rewrite <- E2, Es in E1; rewrite <- E1, zero_slot_encoded; [|exact W|exact Le|].
    - rewrite E1; unfold zero_at, copy_into; rewrite repeat_length, skipn_skipn.
      replace (Nat.min (length img - s) SlotSize) with SlotSize by lia; rewrite (firstn_all2 (repeat 0 _)) by (rewrite repeat_length; lia).
      do 3 f_equal; lia.
    - rewrite E1, Lf; intros i Hi; apply (lay_first _ _ _ _ _ _ _ Lay i Hi). }
  unfold canonical_form; rewrite Z0.
  assert (N1 : gk <> []) by (intros ->; discriminate Lg); assert (N2 : rk <> []) by (intros ->; discriminate Lr).
  rewrite (zero_all_once gk _ g N1); [|rewrite length_zero_at; lia|exact guild_region|exact (lay_guild _ _ _ _ _ _ _ Lay)]; rewrite Lg.
  rewrite (zero_all_once rk _ r N2); [|lens|exact release_region|exact (lay_release _ _ _ _ _ _ _ Lay)]; rewrite Lr.
  rewrite hashed_sealed; destruct (janosZeroMachoExcludes _); reflexivity.
Qed.
End View.

(** ** The two sides agree *)

Section Agreement.
Context {OF : ObjectFormats}.

(** The linker's object-file parsers and the runtime's walk over the headers mask the same
    bytes of the hashed image. *)
Definition formats_agree (hi : list Z) : Prop :=
  range_ok (findMachoCodeSignature hi) /\ range_ok (findHostBuildID hi) /\
  obind (janosZeroMachoExcludes hi) janosZeroElfExcludes = Some (masked_content hi).

(** The build ID the runtime finds in the masked image is the linker's flag; without a
    build ID there is none to find, and nothing may be masked. *)
Definition build_id_agrees (hi id : list Z) : Prop :=
  let m := masked_content hi in
  match id with
  | [] => m = hi /\ janosFindBuildIDInBuf m = None /\ janosFindElfGoBuildID m = Some None
  | _ =>
      (exists s e, janosFindBuildIDInBuf m = Some (s, e) /\ firstn (e - s) (skipn s m) = id) \/
      (janosFindBuildIDInBuf m = None /\ janosFindElfGoBuildID m = Some (Some id))
  end.

Lemma zero_build_id_agrees hi id : build_id_agrees hi id -> zero_build_id (masked_content hi) = Some (janosZeroAll (masked_content hi) id).
Proof.
  unfold build_id_agrees, zero_build_id; destruct id as [|x id].
  - intros (_ & -> & ->); reflexivity.
  - intros [(s & e & -> & ->)|(-> & ->)]; reflexivity.
Qed.

Lemma pass_digest_agrees fl hi digest : formats_agree hi -> build_id_agrees hi (flagBuildid fl) ->
  pass_digest fl hi = Ret digest -> digest = sha256_spec (janosZeroAll (masked_content hi) (flagBuildid fl)).
Proof.
  intros (R1 & R2 & _) B; unfold pass_digest; destruct (flagBuildid fl) as [|x id]; cbn [length Nat.eqb].
  - destruct B as [-> _]; intros H; apply Ret_inj in H; symmetry; exact H.
  - rewrite FindAndHash_ok by assumption.
    destruct (_ <? _)%nat; cbn [bind wrap_error]; [discriminate|]; intros H; apply Ret_inj in H; symmetry; exact H.
Qed.
End Agreement.

Section EndToEnd.
Context {OF : ObjectFormats} (fl : flags) (file : option (option (list Z))) (reg : registry) (ldr : loader).
Context (data : list Z) (Hlen : Z.of_nat (length data) < 2 ^ 61) (Hbytes : bytes data).
Context (Hreg : forall url d, Open reg url = Ret d -> diviner_wf d).
Context (cfg : Config) (s g r : nat) (digest sig : list Z) (d : Diviner).
Context (F : signed fl file reg ldr data cfg s g r digest sig d).

Let slot : list Z := EncodeSlot (sealed_chain cfg sig).
Let img : list Z := sealed data slot (GuildPubKey cfg) (ReleasePubKey cfg) s g r.

Lemma sealed_facts : config_wf cfg /\ wf64 sig /\ Forall cert_wf (sealed_chain cfg sig) /\ length slot = SlotSize /\
  (g + 64 <= length data)%nat /\ (r + 64 <= length data)%nat /\ bytes img /\ length img = length data.
Proof.
  pose proof (Load_wf _ _ (sg_signet _ _ _ _ _ _ _ _ _ _ _ _ F)) as W.
  pose proof (proj2 (Hreg _ _ (sg_open _ _ _ _ _ _ _ _ _ _ _ _ F)) _ _ (sg_sig _ _ _ _ _ _ _ _ _ _ _ _ F)) as WS.
  pose proof (sealed_chain_wf cfg sig W WS) as C; pose proof (length_chain_slot cfg sig W WS) as LS.
  destruct (cw_guild _ W) as [BG LG], (cw_release _ W) as [BR LR].
  destruct (sg_guild _ _ _ _ _ _ _ _ _ _ _ _ F) as (_ & _ & _ & _ & _ & Lg), (sg_release _ _ _ _ _ _ _ _ _ _ _ _ F) as (_ & _ & _ & _ & _ & Lr).
  pose proof (sg_slot_in _ _ _ _ _ _ _ _ _ _ _ _ F) as Ls.
  do 6 (split; [assumption|]); split.
  - unfold img, sealed; do 3 (apply bytes_copy_into; [|assumption||(unfold slot; rewrite EncodeSlot_layout by exact C; apply bytes_slot_layout, C)]); exact Hbytes.
  - apply length_sealed; assumption.
Qed.

(** The digest that was signed is the hash of the sealed image. *)
Lemma sealed_hash : layout data slot (GuildPubKey cfg) (ReleasePubKey cfg) s g r ->
  formats_agree (hashed data s g r) -> build_id_agrees (hashed data s g r) (flagBuildid fl) ->
  janosCanonicalHash img (GuildPubKey cfg) (ReleasePubKey cfg) = Some digest.
Proof.
  intros Lay A B; destruct sealed_facts as (W & WS & C & LS & Lg & Lr & Bi & Li).
  destruct (cw_guild _ W) as [BG LG], (cw_release _ W) as [BR LR]; pose proof (sg_slot_in _ _ _ _ _ _ _ _ _ _ _ _ F) as Ls.
  pose proof (canonical_sealed data slot _ _ s g r Ls Lg Lr LS LG LR Lay (sealed_chain cfg sig) eq_refl C ltac:(cbn; lia)) as E; fold img in E.
  rewrite (proj2 (proj2 A)) in E; cbn [obind] in E; rewrite (zero_build_id_agrees _ _ B) in E.
  destruct (canonical_wf (length img) img _ _ _ (conj Bi eq_refl) E) as [Bf Lf].
  unfold janosCanonicalHash; rewrite E; cbn [obind]; f_equal.
  rewrite (pass_digest_agrees fl _ digest A B (sg_digest _ _ _ _ _ _ _ _ _ _ _ _ F)).
  unfold sha256; rewrite (Hash_ok sha256_params); [reflexivity|exact Bf|rewrite Lf, Li; exact Hlen].
Qed.
End EndToEnd.

Lemma store_wf gp d : prov_wf gp -> bytes d /\ length d = 32%nat -> prov_wf (janosStoreBinaryHash gp d).
Proof.
  intros [] D; split; cbn [janosStoreBinaryHash instanceID binaryHash guildCertID releaseCertID trustLevel]; auto.
  unfold TrustSelfAttested; unword; lia.
Qed.

(** Reading the whole file on Linux. *)
Lemma linux_hash c chunks gp img d : Forall (fun x => x <> []) chunks -> concat chunks = img ->
  0 < Z.of_nat (length img) < janosMaxBinarySize -> janosHashCanonical c img = Some d ->
  janosInitBinaryHash c (Linux true true (map ReadBytes chunks)) gp = Some (janosStoreBinaryHash gp d).
Proof.
  intros Hc E Hl H; cbn [janosInitBinaryHash negb]; unfold janosHashFD; cbn [negb].
  rewrite hash_reader_ok; [|reflexivity|eapply Forall_impl; [|exact Hc]; intros x Hx; split; [exact Hx|right; lia]].
  rewrite E; destruct (Z.eqb_spec (Z.of_nat (length img)) 0), (Z.leb_spec janosMaxBinarySize (Z.of_nat (length img))); try lia.
  cbn [orb]; rewrite H; reflexivity.
Qed.

(** ** Properties *)

Section Properties.
Context {OF : ObjectFormats} (fl : flags) (file : option (option (list Z))) (reg : registry) (ldr : loader).

(** C8: The pass is all or nothing: when it reports an error, the output is untouched
    (the two patches at the end cannot fail once the zeroing of the same symbols in the
    copy has succeeded); otherwise the signet loaded and validated, the release backend
    holds its key and signed the digest of the masked copy, and exactly three regions
    changed: the slot holds the Guild and Release entries and the two variables hold the
    signet's keys. *)
Theorem pass_atomic data data' e :
  Z.of_nat (length data) < 2 ^ 61 -> (forall url d, Open reg url = Ret d -> diviner_wf d) ->
  janosDivinerPass fl file reg ldr data = Some (data', e) ->
  (e <> None /\ data' = data) \/
  (e = None /\ exists cfg s g r digest sig d, signed fl file reg ldr data cfg s g r digest sig d /\
     data' = sealed data (EncodeSlot (sealed_chain cfg sig)) (GuildPubKey cfg) (ReleasePubKey cfg) s g r).
Proof.
  intros Hl Hr H; destruct (pass_ok fl file reg ldr data Hl Hr) as [E G].
  destruct (pass_sign fl file reg ldr data) as [[[s cfg] sig]|err|]; [|rewrite E in H; injection H as <- <-; left; split; [discriminate|reflexivity]|rewrite E in H; discriminate].
  destruct (G s cfg sig eq_refl) as (g & r & digest & d & F & E'); rewrite E' in H; injection H as <- <-.
  right; split; [reflexivity|exists cfg, s, g, r, digest, sig, d; auto].
Qed.


(** The package variables of a process started from an image. *)
Definition loaded (img : list Z) (c : CertState) : Prop :=
  exists s g r,
    symbol_at ldr slot_symbol (length img) SlotSize s /\ symbol_at ldr guild_symbol (length img) 64 g /\
    symbol_at ldr release_symbol (length img) 64 r /\
    slotBytes c = firstn SlotSize (skipn s img) /\ expectedGuild c = firstn 64 (skipn g img) /\
    expectedRelease c = firstn 64 (skipn r img).

(** C4: A sealed binary boots: a process started from the output of a successful pass,
    reading its own file in whatever pieces the kernel returns, stores the signed digest
    as its hash and passes the gate with TrustJanosReleased, provided that the two sides'
    scans agree (as for the digest), the slot found by its magic is the runtime's
    variable, the signatures are valid, the release key is not revoked and the keys are
    not the placeholders. *)
Theorem sealed_binary_boots SS (OK : SigSchemeOk SS) revR revU data data' :
  bytes data -> Z.of_nat (length data) < janosMaxBinarySize -> (forall url d, Open reg url = Ret d -> diviner_wf d) ->
  janosDivinerPass fl file reg ldr data = Some (data', None) ->
  exists cfg s g r digest sig d, signed fl file reg ldr data cfg s g r digest sig d /\
    (layout data (EncodeSlot (sealed_chain cfg sig)) (GuildPubKey cfg) (ReleasePubKey cfg) s g r ->
     formats_agree (hashed data s g r) -> build_id_agrees (hashed data s g r) (flagBuildid fl) ->
     symbol_at ldr slot_symbol (length data) SlotSize s ->
     GuildPubKey cfg <> janosExpectedGuildUndivinedSentinel -> ReleasePubKey cfg <> janosExpectedReleaseUndivinedSentinel ->
     valid (GuildPubKey cfg) (CertVerify.digest (ReleasePubKey cfg)) (ReleaseParentCert cfg) ->
     valid (ReleasePubKey cfg) digest sig ->
     ~ revoked revR (CertVerify.digest (ReleasePubKey cfg)) (ReleaseEpoch cfg mod 2 ^ 24) ->
     forall c chunks gp, loaded data' c -> Forall (fun x => x <> []) chunks -> concat chunks = data' -> prov_wf gp ->
       exists gp1 c' gp2,
         janosInitBinaryHash c (Linux true true (map ReadBytes chunks)) gp = Some gp1 /\
         janosVerifyCertSlot revR revU c gp1 = Ret (c', gp2) /\
         binaryHash gp2 = digest /\ trustLevel gp2 = TrustJanosReleased).
Proof.
  intros Hb Hm Hr H; assert (Hl : Z.of_nat (length data) < 2 ^ 61)
    by (unfold janosMaxBinarySize in Hm; change (2 ^ 61) with 2305843009213693952; lia).
  destruct (pass_ok fl file reg ldr data Hl Hr) as [E G].
  destruct (pass_sign fl file reg ldr data) as [[[s cfg] sig]|err|]; [|rewrite E in H; discriminate|rewrite E in H; discriminate].
  destruct (G s cfg sig eq_refl) as (g & r & digest & d & F & E'); rewrite E' in H; injection H as <-.
  exists cfg, s, g, r, digest, sig, d; split; [exact F|]; intros Lay A B Sy NG NR V1 V2 NV c chunks gp L Hc Ec Hp.
  destruct (sealed_facts fl file reg ldr data Hb Hr cfg s g r digest sig d F) as (W & WS & C & LS & Lg & Lr & Bi & Li).
  pose proof (sealed_hash fl file reg ldr data Hl Hb Hr cfg s g r digest sig d F Lay A B) as D.
  pose proof (sg_slot_in _ _ _ _ _ _ _ _ _ _ _ _ F) as Ls; destruct (cw_guild _ W) as [BG LG], (cw_release _ W) as [BR LR].
  destruct L as (s' & g' & r' & Y1 & Y2 & Y3 & C1 & C2 & C3).
  rewrite (symbol_at_unique _ _ _ _ _ _ _ _ Y1 Sy) in C1.
  rewrite (symbol_at_unique _ _ _ _ _ _ _ _ Y2 (sg_guild _ _ _ _ _ _ _ _ _ _ _ _ F)) in C2.
  rewrite (symbol_at_unique _ _ _ _ _ _ _ _ Y3 (sg_release _ _ _ _ _ _ _ _ _ _ _ _ F)) in C3.
  rewrite slot_region in C1 by assumption; rewrite guild_here in C2 by assumption; rewrite release_here in C3 by assumption.
  set (img := sealed _ _ _ _ _ _ _) in *.
  exists (janosStoreBinaryHash gp digest).
  assert (Wd : bytes digest /\ length digest = 32%nat).
  { rewrite (pass_digest_agrees fl _ digest A B (sg_digest _ _ _ _ _ _ _ _ _ _ _ _ F)); split; [apply sha256_spec_bytes|apply sha256_spec_len]. }
  destruct (divined_slot_boots SS OK revR revU (guildEntry cfg) (releaseEntry cfg sig) [] c (janosStoreBinaryHash gp digest)) as (c' & gp2 & V & P).
  - split; cbn [guildEntry releaseEntry Level SignerPubKey ParentCert Signature RevokeEpoch janosStoreBinaryHash binaryHash length]; auto with arith.
  - apply store_wf; assumption.
  - exact C1.
  - exact C2.
  - exact C3.
  - split; [rewrite C2; exact NG|rewrite C3; exact NR].
  - exists c', gp2; split; [|split; [exact V|destruct P as (_ & _ & _ & _ & _ & _ & ->); split; reflexivity]].
    apply (linux_hash c chunks gp img digest Hc Ec); [rewrite Li; unfold SlotSize in Ls; lia|].
    unfold janosHashCanonical; rewrite C2, C3; exact D.
Qed.

(** Writing two keys into the variables of an undivined image. *)
Lemma inherited_writes data g r gk rk :
  Z.of_nat (length data) < 2 ^ 61 -> length gk = 64%nat -> length rk = 64%nat ->
  symbol_at ldr guild_symbol (length data) 64 g -> symbol_at ldr release_symbol (length data) 64 r ->
  patchRuntimeKeyIfPresent ldr data guild_symbol gk = Ret (copy_into data g gk) /\
  patchRuntimeKeyIfPresent ldr (copy_into data g gk) release_symbol rk = Ret (copy_into (copy_into data g gk) r rk).
Proof.
  intros Hl LG LR Yg Yr; change (2 ^ 61) with 2305843009213693952 in Hl.
  assert (Lg : (g + 64 <= length data)%nat) by (destruct Yg as (_ & _ & _ & _ & _ & Lg); exact Lg).
  assert (L1 : length (copy_into data g gk) = length data) by (apply length_copy_into; lia).
  unfold patchRuntimeKeyIfPresent; destruct Yg as (f & va & base & E & R), Yr as (f' & va' & base' & E' & R'); rewrite E, E'.
  split; apply patch_ok; [lia|rewrite LG; exists f, va, base; auto|lia|rewrite L1, LR; exists f', va', base'; auto].
Qed.

(** What a process started from that image sees. *)
Lemma inherited_loaded data s g r gk rk c :
  length gk = 64%nat -> length rk = 64%nat ->
  symbol_at ldr slot_symbol (length data) SlotSize s -> symbol_at ldr guild_symbol (length data) 64 g ->
  symbol_at ldr release_symbol (length data) 64 r ->
  apart s SlotSize g 64 -> apart s SlotSize r 64 -> apart g 64 r 64 ->
  loaded (copy_into (copy_into data g gk) r rk) c ->
  expectedGuild c = gk /\ expectedRelease c = rk /\ janosSlotVersionByte c = nth (s + 8) data 0.
Proof.
  intros LG LR Ys Yg Yr A1 A2 A3 L; unfold apart in *.
  assert (Lg : (g + 64 <= length data)%nat) by (destruct Yg as (_ & _ & _ & _ & _ & Lg); exact Lg).
  assert (Lr : (r + 64 <= length data)%nat) by (destruct Yr as (_ & _ & _ & _ & _ & Lr); exact Lr).
  assert (Ls : (s + SlotSize <= length data)%nat) by (destruct Ys as (_ & _ & _ & _ & _ & Ls); exact Ls).
  set (img := copy_into (copy_into data g gk) r rk) in *.
  assert (Li : length img = length data) by (unfold img; rewrite !length_copy_into; rewrite ?length_copy_into; lia).
  assert (N : forall i, nth i img 0 = if ((r <=? i) && (i <? r + 64))%nat then nth (i - r) rk 0
    else if ((g <=? i) && (i <? g + 64))%nat then nth (i - g) gk 0 else nth i data 0)
    by (intros i; unfold img; rewrite !nth_copy_into by lens; rewrite LG, LR; reflexivity).
  destruct L as (s' & g' & r' & Y1 & Y2 & Y3 & C1 & C2 & C3).
  rewrite (symbol_at_unique _ _ _ _ _ _ _ _ Y1 Ys) in C1; rewrite (symbol_at_unique _ _ _ _ _ _ _ _ Y2 Yg) in C2;
    rewrite (symbol_at_unique _ _ _ _ _ _ _ _ Y3 Yr) in C3.
  split; [|split].
  - rewrite C2, <- LG; apply region_eq; [lia|]; intros i Hi; rewrite N; cases; try lia; f_equal; lia.
  - rewrite C3, <- LR; apply region_eq; [lia|]; intros i Hi; rewrite N; cases; try lia; f_equal; lia.
  - unfold janosSlotVersionByte; rewrite C1, nth_firstn; change (8 <? SlotSize)%nat with true; cbv iota.
    rewrite nth_skipn, N; unfold SlotSize in *; cases; try lia; reflexivity.
Qed.

(** C18: Descendants of a divined linker must be divined: when both keys of the running linker
    are set, linking without a diviner writes exactly these keys into the output, and the
    process started from it dies at the gate because its slot is undivined; a linker that
    carries only placeholders leaves the output as it is. *)
Theorem inherited_must_be_divined SS revR revU (parent : CertState) data :
  flagJanosDiviner fl = [] -> Z.of_nat (length data) < 2 ^ 61 -> state_wf parent ->
  (both_sentinel parent -> link_tail fl file reg ldr (JanosParentKeys parent) data = Some (data, None)) /\
  forall s g r, no_sentinel parent ->
    expectedGuild parent <> repeat 0 64 -> expectedRelease parent <> repeat 0 64 ->
    symbol_at ldr slot_symbol (length data) SlotSize s -> symbol_at ldr guild_symbol (length data) 64 g ->
    symbol_at ldr release_symbol (length data) 64 r ->
    apart s SlotSize g 64 -> apart s SlotSize r 64 -> apart g 64 r 64 -> nth (s + 8) data 0 = 0 ->
    exists data', link_tail fl file reg ldr (JanosParentKeys parent) data = Some (data', None) /\
      forall c gp, loaded data' c ->
        expectedGuild c = expectedGuild parent /\ expectedRelease c = expectedRelease parent /\
        janosVerifyCertSlot (H := SS) revR revU c gp = Fail ThrowUndivinedSlot.
Proof.
  intros Hf Hl [_ [_ LG] [_ LR]]; unfold link_tail, JanosParentKeys; rewrite Hf; cbn [length Nat.eqb negb].
  split; [intros [-> ->]; rewrite !bytes_eqb_refl; reflexivity|].
  intros s g r [NG NR] ZG ZR Ys Yg Yr A1 A2 A3 V0.
  destruct (bytes_eqb_spec (expectedGuild parent) janosExpectedGuildUndivinedSentinel); [contradiction|].
  destruct (bytes_eqb_spec (expectedRelease parent) janosExpectedReleaseUndivinedSentinel); [contradiction|].
  unfold janosInheritParentKeysIntoOutput; cbn [negb].
  destruct (bytes_eqb_spec (expectedGuild parent) (repeat 0 64)); [contradiction|].
  destruct (bytes_eqb_spec (expectedRelease parent) (repeat 0 64)); [contradiction|]; cbn [andb negb].
  destruct (inherited_writes data g r (expectedGuild parent) (expectedRelease parent) Hl LG LR Yg Yr) as [P1 P2].
  rewrite P1; cbn [ignore_error obind]; rewrite P2; cbn [ignore_error obind].
  eexists; split; [reflexivity|intros c gp L].
  destruct (inherited_loaded data s g r _ _ c LG LR Ys Yg Yr A1 A2 A3 L) as (E2 & E3 & V).
  split; [exact E2|split; [exact E3|]]; unfold janosVerifyCertSlot; rewrite E2, E3.
  destruct (bytes_eqb_spec (expectedGuild parent) janosExpectedGuildUndivinedSentinel); [contradiction|].
  destruct (bytes_eqb_spec (expectedRelease parent) janosExpectedReleaseUndivinedSentinel); [contradiction|]; cbn [andb orb].
  rewrite V, V0; reflexivity.
Qed.
End Properties.

(** ** A small image *)

(** The conditions of [layout], decided. *)
Definition only_atb (pat l : list Z) (a : nat) : bool :=
  forallb (fun i => (i =? a)%nat || negb (is_prefix pat (skipn i l))) (seq 0 (length l)).
Definition layoutb (data slot gk rk : list Z) (s g r : nat) : bool :=
  let img := sealed data slot gk rk s g r in
  let apartb a n b m := (a + n <=? b)%nat || (b + m <=? a)%nat in
  apartb s SlotSize g 64%nat && apartb s SlotSize r 64%nat && apartb g 64%nat r 64%nat &&
  forallb (fun i => negb (slot_header_at img i)) (seq 0 s) &&
  only_atb gk (zero_at img s SlotSize) g && only_atb rk (zero_at (zero_at img s SlotSize) g 64) r.

Lemma only_atb_ok pat l a : pat <> [] -> only_atb pat l a = true -> only_at pat l a.
Proof.
  intros Hp H i Hi; unfold only_atb in H; rewrite forallb_forall in H.
  destruct (Nat.lt_ge_cases i (length l)) as [L|L].
  - specialize (H i ltac:(apply in_seq; lia)); destruct (Nat.eqb_spec i a); [contradiction|apply negb_true_iff, H].
  - rewrite skipn_all2 by exact L; destruct pat; [contradiction|reflexivity].
Qed.

Lemma layoutb_ok data slot gk rk s g r : gk <> [] -> rk <> [] -> layoutb data slot gk rk s g r = true -> layout data slot gk rk s g r.
Proof.
  intros Hg Hr; unfold layoutb; rewrite !andb_true_iff, !orb_true_iff, !Nat.leb_le; intros (((((A1 & A2) & A3) & F) & O1) & O2).
  split; try assumption; [|apply only_atb_ok; assumption..].
  intros i Hi; rewrite forallb_forall in F; apply negb_true_iff, F, in_seq; lia.
Qed.

(** A build ID marker, the two variables, the slot and some more bytes. *)
Definition demo_data : list Z :=
  janosGoBuildIDMarker ++ str "abc" ++ [34; 10; 32; 0xFF] ++ janosExpectedGuildPubKey ++ janosExpectedReleasePubKey ++
  janosCertSlotBytes ++ [1; 2; 3].
Definition demo_ldr : loader := fun name =>
  if bytes_eqb name guild_symbol then At 0 4119 4096
  else if bytes_eqb name release_symbol then At 80 4103 4096
  else if bytes_eqb name slot_symbol then At 0 4247 4096 else Absent.
Definition demo_flags : flags := MkFlags (str "signet") (str "gcpkms://k") (str "abc").
Definition demo_file : option (option (list Z)) := Some (Some (unlines
  [setting_line (str "guild_pubkey") 1 (EncodeToString (repeat 7 64));
   setting_line (str "release_pubkey") 1 (EncodeToString (repeat 8 64));
   setting_line (str "release_diviner") 1 (str "gcpkms://k");
   setting_line (str "release_parent_cert") 1 (EncodeToString (repeat 8 32 ++ repeat 7 32));
   setting_line (str "release_epoch") 1 (str "3")])).
Definition demo_cfg : Config :=
  MkConfig (repeat 7 64) [] (repeat 8 64) (str "gcpkms://k") (repeat 8 32 ++ repeat 7 32) 3.
Definition demo_diviner : Diviner :=
  MkDiviner (Some (repeat 8 64)) (fun h => if (length h =? 32)%nat && bytesb h then Some (h ++ repeat 8 32) else None).
Definition demo_registry : registry := gcp_registry (fun _ => Ret demo_diviner).
#[local] Instance no_formats : ObjectFormats := {| findMachoCodeSignature _ := None; findHostBuildID _ := None |}.
Definition demo_digest : list Z := match pass_digest demo_flags (hashed demo_data 151 23 87) with Ret d => d | _ => [] end.

Lemma demo_registry_wf url d : Open demo_registry url = Ret d -> diviner_wf d.
Proof.
  intros H; apply gcp_registry_open, Ret_inj in H; subst d; split; cbn [demo_diviner PublicKey Sign].
  - intros pk [= <-]; split; [apply bytesb_ok; reflexivity|reflexivity].
  - intros h sig; destruct (Nat.eqb_spec (length h) 32); cbn [andb]; [|discriminate].
    destruct (bytesb h) eqn:B; [|discriminate]; intros E; apply Some_inj in E; subst sig.
    split; [apply bytes_app; split; [apply bytesb_ok, B|apply bytesb_ok; reflexivity]|rewrite length_app, repeat_length; lia].
Qed.

Lemma demo_symbols : symbol_at demo_ldr guild_symbol (length demo_data) 64 23 /\
  symbol_at demo_ldr release_symbol (length demo_data) 64 87 /\ symbol_at demo_ldr slot_symbol (length demo_data) SlotSize 151.
Proof.
  assert (E : length demo_data = 2202%nat) by (vm_compute; reflexivity); rewrite E; unfold SlotSize.
  split; [exists 0, 4119, 4096|split; [exists 80, 4103, 4096|exists 0, 4247, 4096]]; (split; [reflexivity|split; [reflexivity|lia]]).
Qed.

Lemma demo_sign h sig : Sign demo_diviner h = Some sig -> sig = h ++ repeat 8 32.
Proof. cbn [demo_diviner Sign]; destruct (_ && _); [|discriminate]; intros E; apply Some_inj in E; symmetry; exact E. Qed.

(** What the pass signs in this image. *)
Lemma demo_signed cfg s g r digest sig d : signed demo_flags demo_file demo_registry demo_ldr demo_data cfg s g r digest sig d ->
  cfg = demo_cfg /\ s = 151%nat /\ g = 23%nat /\ r = 87%nat /\ digest = demo_digest /\ sig = demo_digest ++ repeat 8 32.
Proof.
  intros [L _ S _ G R D O X _]; destruct demo_symbols as (YG & YR & _).
  assert (E1 : Load demo_file = Ret demo_cfg) by (vm_compute; reflexivity).
  assert (E2 : janosLocateSlot demo_data = Some 151%nat) by (vm_compute; reflexivity).
  rewrite E1 in L; apply Ret_inj in L; rewrite E2 in S; apply Some_inj in S; subst cfg s.
  pose proof (symbol_at_unique _ _ _ _ _ _ _ _ G YG); pose proof (symbol_at_unique _ _ _ _ _ _ _ _ R YR); subst g r.
  apply gcp_registry_open, Ret_inj in O; subst d.
  assert (E3 : digest = demo_digest) by (unfold demo_digest; rewrite D; reflexivity).
  assert (E4 : sig = digest ++ repeat 8 32) by exact (demo_sign _ _ X).
  subst sig digest; auto 10.
Qed.

Definition demo_out : list Z :=
  match janosDivinerPass demo_flags demo_file demo_registry demo_ldr demo_data with Some (data', _) => data' | None => [] end.

Lemma demo_pass : janosDivinerPass demo_flags demo_file demo_registry demo_ldr demo_data = Some (demo_out, None) /\
  length demo_out = length demo_data.
Proof. split; vm_compute; reflexivity. Qed.

Lemma demo_wf : bytes demo_data /\ Z.of_nat (length demo_data) < 2 ^ 61 /\ Z.of_nat (length demo_data) < janosMaxBinarySize.
Proof. split; [apply bytesb_ok; vm_compute; reflexivity|split; vm_compute; reflexivity]. Qed.

Lemma demo_layout : layout demo_data (EncodeSlot (sealed_chain demo_cfg (demo_digest ++ repeat 8 32))) (repeat 7 64) (repeat 8 64) 151 23 87.
Proof. apply layoutb_ok; [discriminate|discriminate|vm_compute; reflexivity]. Qed.

Lemma demo_formats : formats_agree (hashed demo_data 151 23 87).
Proof. split; [exact I|split; [exact I|vm_compute; reflexivity]]. Qed.

Lemma demo_build_id : build_id_agrees (hashed demo_data 151 23 87) (flagBuildid demo_flags).
Proof. left; exists 16%nat, 19%nat; split; vm_compute; reflexivity. Qed.

(** The variables as the image holds them. *)
Definition demo_vars (img : list Z) : CertState :=
  MkCertState (firstn SlotSize (skipn 151 img)) (firstn 64 (skipn 23 img)) (firstn 64 (skipn 87 img)) cert_zero cert_zero cert_zero false.

Lemma demo_loaded img : length img = length demo_data -> loaded demo_ldr img (demo_vars img).
Proof.
  intros E; exists 151%nat, 23%nat, 87%nat; rewrite E; destruct demo_symbols as (A & B & C).
  split; [exact C|split; [exact A|split; [exact B|repeat split]]].
Qed.

(** ** The properties there *)

Lemma pass_atomic_witness :
  demo_out = sealed demo_data (EncodeSlot (sealed_chain demo_cfg (demo_digest ++ repeat 8 32)))
    (repeat 7 64) (repeat 8 64) 151 23 87.
Proof.
  destruct (pass_atomic demo_flags demo_file demo_registry demo_ldr demo_data demo_out None)
    as [[N _]|[_ (cfg & s & g & r & digest & sig & d & F & E)]].
  - exact (proj1 (proj2 demo_wf)).
  - exact demo_registry_wf.
  - exact (proj1 demo_pass).
  - contradiction.
  - destruct (demo_signed _ _ _ _ _ _ _ F) as (-> & -> & -> & -> & -> & ->); exact E.
Defined.


Lemma sealed_binary_boots_witness : exists gp1 c' gp2,
  janosInitBinaryHash (demo_vars demo_out) (Linux true true [ReadBytes demo_out]) prov_zero = Some gp1 /\
  janosVerifyCertSlot (H := toy_sig) [] [] (demo_vars demo_out) gp1 = Ret (c', gp2) /\
  binaryHash gp2 = demo_digest /\ trustLevel gp2 = TrustJanosReleased.
Proof.
  destruct (sealed_binary_boots demo_flags demo_file demo_registry demo_ldr toy_sig toy_sig_ok [] [] demo_data demo_out)
    as (cfg & s & g & r & digest & sig & d & F & E).
  - exact (proj1 demo_wf).
  - exact (proj2 (proj2 demo_wf)).
  - exact demo_registry_wf.
  - exact (proj1 demo_pass).
  - destruct (demo_signed _ _ _ _ _ _ _ F) as (-> & -> & -> & -> & -> & ->).
    apply (E demo_layout demo_formats demo_build_id (proj2 (proj2 demo_symbols))) with (chunks := [demo_out]).
    + discriminate.
    + discriminate.
    + reflexivity.
    + reflexivity.
    + intros (e & [] & _).
    + apply demo_loaded, demo_pass.
    + constructor; [|constructor]; intros N; pose proof (proj2 demo_pass) as L; rewrite N in L; discriminate L.
    + cbn [concat]; apply app_nil_r.
    + exact prov_zero_wf.
Defined.

Lemma inherited_must_be_divined_witness : exists data',
  link_tail (MkFlags [] [] []) None demo_registry demo_ldr (repeat 7 64, repeat 8 64) demo_data = Some (data', None) /\
  forall c gp, loaded demo_ldr data' c -> expectedGuild c = repeat 7 64 /\
    janosVerifyCertSlot (H := toy_sig) [] [] c gp = Fail ThrowUndivinedSlot.
Proof.
  destruct (inherited_must_be_divined (MkFlags [] [] []) None demo_registry demo_ldr toy_sig [] []
    (MkCertState janosCertSlotBytes (repeat 7 64) (repeat 8 64) cert_zero cert_zero cert_zero false) demo_data) as [_ P].
  - reflexivity.
  - exact (proj1 (proj2 demo_wf)).
  - split; split; try reflexivity; apply bytesb_ok; vm_compute; reflexivity.
  - destruct demo_symbols as (A & B & C); destruct (P 151%nat 23%nat 87%nat) as (data' & E & G).
    + split; discriminate.
    + discriminate.
    + discriminate.
    + exact C.
    + exact A.
    + exact B.
    + right; vm_compute; repeat constructor.
    + right; vm_compute; repeat constructor.
    + left; vm_compute; repeat constructor.
    + reflexivity.
    + exists data'; split; [exact E|intros c gp L; destruct (G c gp L) as (G1 & _ & G2); split; [exact G1|exact G2]].
Defined.
