(* ===== verification/Asn1.v ===== *)
(** * Asn1: the DER decoders behind the signing backends

    What cmd/janos/diviner/gcpkms uses of encoding/asn1, with its decoding of KMS answers
    into the 64-byte form of keys and signatures, and the hand-written decoder of
    internal/secureenclave.  A position in a buffer is given by what is left from it on. *)

From Stdlib Require Import String ZArith Lia List Bool.
From stdpp Require Import base option list gmap.
From S2P Require Import Prelude Slices GoText Signet Diviner.
Import ListNotations.
Open Scope Z_scope.

(** ** encoding/asn1 *)

Inductive asn1_error : Type :=
| ErrInternal | ErrTruncated | ErrTooLarge | ErrNotMinimal | ErrIndefinite | ErrSequenceTruncated
| ErrTagMismatch | ErrDataTruncated | ErrEmpty | ErrPadding.

Record tagAndLength : Type := MkTag { class : Z; tag : Z; tlength : Z; isCompound : bool }.

(** [parseBase128Int]: [shifted] bytes have been read. *)
Fixpoint parseBase128Int (fuel shifted : nat) (l : list Z) (ret64 : Z) : outcome asn1_error (Z * list Z) :=
  match fuel, l with
  | O, _ => Fail ErrTooLarge
  | S _, [] => Fail ErrTruncated
  | S fuel, b :: l =>
      if (shifted =? 5)%nat then Fail ErrTooLarge
      else if (shifted =? 0)%nat && (b =? 0x80) then Fail ErrNotMinimal
      else
        let ret64 := Z.lor (Z.shiftl ret64 7) (Z.land b 0x7f) in
        if Z.land b 0x80 =? 0 then if 2 ^ 31 - 1 <? ret64 then Fail ErrTooLarge else Ret (ret64, l)
        else parseBase128Int fuel (S shifted) l ret64
  end.

(** The bytes of a long-form length. *)
Fixpoint length_bytes (numBytes : nat) (l : list Z) (len : Z) : outcome asn1_error (Z * list Z) :=
  match numBytes with
  | O => Ret (len, l)
  | S numBytes =>
      match l with
      | [] => Fail ErrTruncated
      | b :: l =>
          if 2 ^ 23 <=? len then Fail ErrTooLarge
          else
            let len := Z.lor (Z.shiftl len 8) b in
            if len =? 0 then Fail ErrNotMinimal else length_bytes numBytes l len
      end
  end.

Definition parse_length (l : list Z) : outcome asn1_error (Z * list Z) :=
  match l with
  | [] => Fail ErrTruncated
  | b :: l =>
      if Z.land b 0x80 =? 0 then Ret (Z.land b 0x7f, l)
      else
        let numBytes := Z.land b 0x7f in
        if numBytes =? 0 then Fail ErrIndefinite
        else
          bind (length_bytes (Z.to_nat numBytes) l 0) (fun '(len, l) =>
          if len <? 0x80 then Fail ErrNotMinimal else Ret (len, l))
  end.

Definition parseTagAndLength (l : list Z) : outcome asn1_error (tagAndLength * list Z) :=
  match l with
  | [] => Fail ErrInternal
  | b :: l =>
      let tag := Z.land b 0x1f in
      bind (if tag =? 0x1f
            then bind (parseBase128Int 6 0 l 0) (fun '(tag, l) => if tag <? 0x1f then Fail ErrNotMinimal else Ret (tag, l))
            else Ret (tag, l)) (fun '(tag, l) =>
      bind (parse_length l) (fun '(len, l) =>
      Ret (MkTag (Z.shiftr b 6) tag len (Z.land b 0x20 =? 0x20), l)))
  end.

Definition TagInteger : Z := 2.
Definition TagBitString : Z := 3.
Definition TagOID : Z := 6.
Definition TagSequence : Z := 16.

(** [parseField] of a field without parameters, up to the bytes of the element: those and
    what follows them. *)
Definition parse_element (universalTag : Z) (compoundType : bool) (l : list Z) : outcome asn1_error (list Z * list Z) :=
  match l with
  | [] => Fail ErrSequenceTruncated
  | _ =>
      bind (parseTagAndLength l) (fun '(t, l) =>
      if negb (class t =? 0) || negb (tag t =? universalTag) || negb (Bool.eqb (isCompound t) compoundType) then Fail ErrTagMismatch
      else if Z.of_nat (length l) <? tlength t then Fail ErrDataTruncated
      else Ret (firstn (Z.to_nat (tlength t)) l, skipn (Z.to_nat (tlength t)) l))
  end.

Definition checkInteger (b : list Z) : outcome asn1_error unit :=
  match b with
  | [] => Fail ErrEmpty
  | [_] => Ret tt
  | b0 :: b1 :: _ =>
      if ((b0 =? 0) && (Z.land b1 0x80 =? 0)) || ((b0 =? 0xff) && (Z.land b1 0x80 =? 0x80)) then Fail ErrNotMinimal else Ret tt
  end.

Definition parseBigInt (b : list Z) : outcome asn1_error Z :=
  bind (checkInteger b) (fun _ =>
  if Z.land (nth 0 b 0) 0x80 =? 0x80 then Ret (- (be_val (map (fun x => u8 (Z.lnot x)) b) + 1)) else Ret (be_val b)).

(** A field of type [*big.Int]. *)
Definition parse_integer (l : list Z) : outcome asn1_error (Z * list Z) :=
  bind (parse_element TagInteger false l) (fun '(b, l) => bind (parseBigInt b) (fun v => Ret (v, l))).

(** [Unmarshal] into [struct{ R, S *big.Int }]: the two numbers and what is left after the
    structure; bytes after the second field inside it are allowed. *)
Definition unmarshal_signature (der : list Z) : outcome asn1_error (Z * Z * list Z) :=
  bind (parse_element TagSequence true der) (fun '(inner, rest) =>
  bind (parse_integer inner) (fun '(r, inner) =>
  bind (parse_integer inner) (fun '(s, _) => Ret (r, s, rest)))).

Fixpoint oid_rest (fuel : nat) (l : list Z) : outcome asn1_error (list Z) :=
  match fuel, l with
  | O, _ | _, [] => Ret []
  | S fuel, _ => bind (parseBase128Int 6 0 l 0) (fun '(v, l) => bind (oid_rest fuel l) (fun vs => Ret (v :: vs)))
  end.

Definition parseObjectIdentifier (b : list Z) : outcome asn1_error (list Z) :=
  match b with
  | [] => Fail ErrEmpty
  | _ =>
      bind (parseBase128Int 6 0 b 0) (fun '(v, l) =>
      bind (oid_rest (length l) l) (fun vs =>
      Ret (if v <? 80 then v / 40 :: v mod 40 :: vs else 2 :: v - 80 :: vs)))
  end.

(** The bytes of a bit string. *)
Definition parseBitString (b : list Z) : outcome asn1_error (list Z) :=
  match b with
  | [] => Fail ErrEmpty
  | p :: bits =>
      if (7 <? p) || ((length b =? 1)%nat && (0 <? p)) || negb (Z.land (nth (length b - 1) b 0) (u8 (Z.shiftl 1 p) - 1) =? 0)
      then Fail ErrPadding else Ret bits
  end.

Definition parse_oid (l : list Z) : outcome asn1_error (list Z * list Z) :=
  bind (parse_element TagOID false l) (fun '(b, l) => bind (parseObjectIdentifier b) (fun v => Ret (v, l))).

(** [Unmarshal] into the SubjectPublicKeyInfo structure of [parseP256PubKeyPEM]: the two
    identifiers and the key's bytes. *)
Definition unmarshal_spki (der : list Z) : outcome asn1_error (list Z * list Z * list Z) :=
  bind (parse_element TagSequence true der) (fun '(inner, _) =>
  bind (parse_element TagSequence true inner) (fun '(algorithm, inner) =>
  bind (parse_oid algorithm) (fun '(alg, algorithm) =>
  bind (parse_oid algorithm) (fun '(curve, _) =>
  bind (parse_element TagBitString false inner) (fun '(b, _) =>
  bind (parseBitString b) (fun key => Ret (alg, curve, key))))))).

(** ** cmd/janos/diviner/gcpkms *)

Inductive kms_error : Type :=
| ErrPEM | ErrASN1 (e : asn1_error) | ErrAlgorithm (oid : list Z) | ErrCurve (oid : list Z) | ErrKeyForm (n : nat)
| ErrTrailing (n : nat) | ErrNotPositive | ErrIntegerLength (r s : nat) | ErrKMS.

Definition ecPublicKeyOID : list Z := [1; 2; 840; 10045; 2; 1].
Definition p256OID : list Z := [1; 2; 840; 10045; 3; 1; 7].

(** [parseP256PubKeyPEM] after [pem.Decode]; the error message of the last test indexes
    the key's first byte also when there is none. *)
Definition parseP256PubKeyPEM (block : option (list Z)) : outcome kms_error (list Z) :=
  match block with
  | None => Fail ErrPEM
  | Some der =>
      bind (wrap_error ErrASN1 (unmarshal_spki der)) (fun '(alg, curve, raw) =>
      if negb (bytes_eqb alg ecPublicKeyOID) then Fail (ErrAlgorithm alg)
      else if negb (bytes_eqb curve p256OID) then Fail (ErrCurve curve)
      else if negb (length raw =? 65)%nat || negb (nth 0 raw 0 =? 0x04) then
        match raw with [] => Panic | _ => Fail (ErrKeyForm (length raw)) end
      else Ret (skipn 1 raw))
  end.

Definition decodeECDSASignatureDER (der : list Z) : outcome kms_error (list Z) :=
  bind (wrap_error ErrASN1 (unmarshal_signature der)) (fun '(r, s, rest) =>
  if negb (length rest =? 0)%nat then Fail (ErrTrailing (length rest))
  else if (r <=? 0) || (s <=? 0) then Fail ErrNotPositive
  else
    let rBytes := Bytes r in
    let sBytes := Bytes s in
    if (32 <? length rBytes)%nat || (32 <? length sBytes)%nat then Fail (ErrIntegerLength (length rBytes) (length sBytes))
    else of_option (pack64 r s)).

(** What the service answers to the two requests, after the transport and the JSON: the
    PEM block of a key, the DER bytes of a signature. *)
Record kms : Type := MkKms {
  kms_key : list Z -> option (option (list Z));
  kms_sign : list Z -> list Z -> option (list Z);
}.

Definition to_option {E A} (r : outcome E A) : option A := match r with Ret a => Some a | _ => None end.

(** [Open] and the two methods; a decoder's error and its panic both end the tool. *)
Definition gcp_open (k : kms) (url : list Z) : outcome open_error Diviner :=
  let prefix := str "gcpkms://" in
  if negb (HasPrefix url prefix) then Fail ErrBackend
  else
    let resource := skipn (length prefix) url in
    if (length resource =? 0)%nat then Fail ErrBackend
    else if negb (HasPrefix resource (str "projects/")) then Fail ErrBackend
    else
      Ret (MkDiviner
        (obind (kms_key k resource) (fun block => to_option (parseP256PubKeyPEM block)))
        (fun digest => obind (kms_sign k resource digest) (fun der => to_option (decodeECDSASignatureDER der)))).

(** ** internal/secureenclave *)

Inductive enclave_error : Type := ErrMalformed | ErrExpectedInteger | ErrTruncatedInteger | ErrOversized.

Fixpoint strip_zeros (v : list Z) : list Z :=
  match v with x :: v' => if x =? 0 then strip_zeros v' else v | [] => [] end.

(** [readInt] at the current position. *)
Definition readInt (der : list Z) : outcome enclave_error (list Z * list Z) :=
  match der with
  | t :: l :: der =>
      if negb (t =? 0x02) then Fail ErrExpectedInteger
      else if Z.of_nat (length der) <? l then Fail ErrTruncatedInteger
      else
        let v := strip_zeros (firstn (Z.to_nat l) der) in
        if (32 <? length v)%nat then Fail ErrOversized else Ret (v, skipn (Z.to_nat l) der)
  | _ => Fail ErrExpectedInteger
  end.

Definition derToRS (der : list Z) : outcome enclave_error (list Z) :=
  if (length der <? 8)%nat || negb (nth 0 der 0 =? 0x30) then Fail ErrMalformed
  else
    let der1 := nth 1 der 0 in
    let i := if negb (Z.land der1 0x80 =? 0) then (2 + Z.to_nat (Z.land der1 0x7f))%nat else 2%nat in
    bind (readInt (skipn i der)) (fun '(r, l) =>
    bind (readInt l) (fun '(s, _) =>
    of_option (match pad32 r, pad32 s with Some a, Some b => Some (a ++ b) | _, _ => None end))).

(** ** DER, as a writer sees it *)

Definition der_tlv (t : Z) (b : list Z) : list Z := t :: Z.of_nat (length b) :: b.

(** A number without superfluous leading zeros, with one where the top bit would read as a
    sign. *)
Definition der_number (x : Z) : list Z :=
  match Bytes x with [] => [0] | b0 :: b => if 128 <=? b0 then 0 :: b0 :: b else b0 :: b end.
Definition der_signature (r s : Z) : list Z := der_tlv 0x30 (der_tlv 2 (der_number r) ++ der_tlv 2 (der_number s)).

(** The key of a P-256 point in a SubjectPublicKeyInfo. *)
Definition spki (point : list Z) : list Z :=
  der_tlv 0x30
    (der_tlv 0x30 (der_tlv 6 [0x2A; 0x86; 0x48; 0xCE; 0x3D; 0x02; 0x01] ++ der_tlv 6 [0x2A; 0x86; 0x48; 0xCE; 0x3D; 0x03; 0x01; 0x07]) ++
     der_tlv 3 (0 :: 4 :: point)).

(** ** Lemmas *)

Lemma low_bits n : 0 <= n < 128 -> Z.land n 0x80 = 0 /\ Z.land n 0x7f = n.
Proof.
  intros H; pose proof (byte_exhaust (fun b => if b <? 128 then (Z.land b 0x80 =? 0) && (Z.land b 0x7f =? b) else true)
    ltac:(vm_compute; reflexivity) n ltac:(unfold is_byte; lia)) as F.
  cbv beta in F; destruct (Z.ltb_spec n 128); [|lia]; apply andb_true_iff in F as [A B]; split; apply Z.eqb_eq; assumption.
Qed.

Lemma parse_element_tlv t universalTag compoundType b l :
  Z.shiftr t 6 = 0 -> Z.land t 0x1f = universalTag -> universalTag <> 0x1f -> (Z.land t 0x20 =? 0x20) = compoundType ->
  (length b < 128)%nat -> parse_element universalTag compoundType (der_tlv t b ++ l) = Ret (b, l).
Proof.
  intros H1 H2 H3 H4 Hl; destruct (low_bits (Z.of_nat (length b)) ltac:(lia)) as [B1 B2].
  unfold parse_element, der_tlv, parseTagAndLength; cbn [app]; rewrite H2, (proj2 (Z.eqb_neq _ _) H3); cbn [bind].
  unfold parse_length; rewrite B1, B2; cbn [Z.eqb bind class tag tlength isCompound]; rewrite H1, H4, !Z.eqb_refl, eqb_reflx; cbn [negb orb].
  rewrite Nat2Z.id, length_app; destruct (Z.ltb_spec (Z.of_nat (length b + length l)) (Z.of_nat (length b))); [lia|].
  rewrite firstn_app, skipn_app, Nat.sub_diag, firstn_all, skipn_all, firstn_O, app_nil_r, drop_0; reflexivity.
Qed.

(** What a successful [parse_element] has seen: the identifier byte, and a short or a
    minimal long length. *)
Definition content_at (x : Z) (l1 : list Z) : list Z :=
  if Z.land x 0x80 =? 0 then l1 else skipn (Z.to_nat (Z.land x 0x7f)) l1.

Lemma length_bytes_suffix n l len r : length_bytes n l len = Ret r -> snd r = skipn n l /\ (n <= length l)%nat.
Proof.
  revert l len; induction n as [|n IH]; intros l len; cbn [length_bytes].
  - intros E; apply Ret_inj in E; subst r; split; [reflexivity|lia].
  - destruct l as [|b l]; [discriminate|]; destruct (2 ^ 23 <=? len); [discriminate|]; cbv zeta; destruct (_ =? 0); [discriminate|].
    intros E; destruct (IH _ _ E) as [-> H]; cbn [length skipn]; split; [reflexivity|lia].
Qed.

Lemma parse_length_inv l r : parse_length l = Ret r -> exists x l1, l = x :: l1 /\ snd r = content_at x l1 /\
  (Z.land x 0x80 = 0 -> fst r = Z.land x 0x7f) /\ (Z.land x 0x80 <> 0 -> 128 <= fst r /\ (Z.to_nat (Z.land x 0x7f) <= length l1)%nat).
Proof.
  destruct l as [|x l1]; [discriminate|]; unfold parse_length, content_at; intros E; exists x, l1; split; [reflexivity|].
  destruct (Z.eqb_spec (Z.land x 0x80) 0) as [Z0|Z0].
  - apply Ret_inj in E; subst r; cbn [fst snd]; split; [reflexivity|split; [reflexivity|contradiction]].
  - cbv zeta in E; destruct (Z.land x 0x7f =? 0); [discriminate|].
    apply bind_Ret in E as ([len l2] & E1 & E2); apply length_bytes_suffix in E1 as [E1 L]; cbn [snd] in E1.
    destruct (Z.ltb_spec len 0x80); [discriminate|]; apply Ret_inj in E2; subst r l2; cbn [fst snd].
    split; [reflexivity|split; [contradiction|intros _; split; [lia|exact L]]].
Qed.

(** The identifier byte of an element below tag 31 is determined. *)
Lemma head_byte c t universalTag (compoundType : bool) : is_byte c -> universalTag < 0x1f ->
  Z.shiftr c 6 = 0 -> t = Z.land c 0x1f -> t = universalTag -> (Z.land c 0x20 =? 0x20) = compoundType ->
  c = universalTag + (if compoundType then 0x20 else 0).
Proof.
  intros Hc _ H1 -> <- <-; pose proof (byte_exhaust (fun b => if Z.shiftr b 6 =? 0 then b =? Z.land b 0x1f + (if Z.land b 0x20 =? 0x20 then 0x20 else 0) else true)
    ltac:(vm_compute; reflexivity) c Hc) as F.
  cbv beta in F; rewrite H1 in F; cbn [Z.eqb] in F; apply Z.eqb_eq in F; exact F.
Qed.

Lemma parse_element_inv universalTag compoundType l b rest :
  bytes l -> universalTag < 0x1f -> parse_element universalTag compoundType l = Ret (b, rest) ->
  exists x l1, l = universalTag + (if compoundType then 0x20 else 0) :: x :: l1 /\ b ++ rest = content_at x l1 /\
    (Z.land x 0x80 = 0 -> Z.of_nat (length b) = Z.land x 0x7f) /\
    (Z.land x 0x80 <> 0 -> (128 <= length b)%nat /\ (Z.to_nat (Z.land x 0x7f) <= length l1)%nat).
Proof.
  intros Hb Ht; unfold parse_element; destruct l as [|c l]; [discriminate|]; apply Forall_cons in Hb as [Hc Hb].
  intros E; apply bind_Ret in E as ([t l2] & E1 & E2); unfold parseTagAndLength in E1.
  apply bind_Ret in E1 as ([tg l0] & E0 & E1); apply bind_Ret in E1 as ([len l3] & EL & E1); apply Ret_inj in E1.
  injection E1 as <- <-; cbn [class tag tlength isCompound] in E2.
  destruct (Z.eqb_spec (Z.shiftr c 6) 0) as [C0|]; [|discriminate]; destruct (Z.eqb_spec tg universalTag) as [C1|]; [|discriminate].
  destruct (Bool.eqb_spec (Z.land c 0x20 =? 0x20) compoundType) as [C2|]; [|discriminate]; cbn [negb orb] in E2.
  destruct (Z.ltb_spec (Z.of_nat (length l3)) len) as [|LL]; [discriminate|]; apply Ret_inj in E2; apply pair_equal_spec in E2 as [<- <-].
  destruct (Z.eqb_spec (Z.land c 0x1f) 0x1f) as [|N]; [apply bind_Ret in E0 as ([v l4] & _ & E0); destruct (Z.ltb_spec v 0x1f); [discriminate|];
    apply Ret_inj in E0; apply pair_equal_spec in E0 as [-> _]; lia|].
  apply Ret_inj in E0; apply pair_equal_spec in E0 as [E0 <-].
  destruct (parse_length_inv _ _ EL) as (x & l1 & -> & S & P0 & P1); cbn [fst snd] in *; exists x, l1.
  rewrite <- (head_byte c tg universalTag compoundType Hc Ht C0 (eq_sym E0) C1 C2); split; [reflexivity|].
  rewrite firstn_skipn, length_firstn; split; [exact S|].
  assert (R : is_byte x) by (inversion Hb; assumption).
  assert (R2 : 0 <= Z.land x 0x7f) by (apply Z.land_nonneg; right; lia).
  split; intros X; [specialize (P0 X); lia|destruct (P1 X); split; lia].
Qed.

(** ** Numbers *)

Lemma strip_ok v : bytes v -> bytes (strip_zeros v) /\ be_val (strip_zeros v) = be_val v /\
  (strip_zeros v = [] \/ pow256 (length (strip_zeros v) - 1) <= be_val v).
Proof.
  induction v as [|x v IH]; intros H; [split; [constructor|split; [reflexivity|left; reflexivity]]|].
  apply Forall_cons in H as [Hx H]; cbn [strip_zeros]; change (x :: v) with ([x] ++ v); rewrite be_val_app.
  change (be_val [x]) with (x + 256 * 0); destruct (Z.eqb_spec x 0) as [->|N].
  - destruct (IH H) as (A & B & C); replace (_ * pow256 (length v) + be_val v) with (be_val v) by lia.
    split; [exact A|split; [exact B|exact C]].
  - split; [constructor; assumption|split; [change (x :: v) with ([x] ++ v); rewrite be_val_app; reflexivity|right]].
    replace (length ([x] ++ v) - 1)%nat with (length v) by (cbn [length app]; lia); pose proof (be_val_range v H); unword.
    pose proof (Z.mul_le_mono_nonneg_r 1 x (pow256 (length v)) ltac:(lia) ltac:(lia)); rewrite Z.mul_0_r, Z.add_0_r; lia.
Qed.

Lemma pad_strip v : bytes v -> be_val v < 2 ^ 256 -> (length (strip_zeros v) <= 32)%nat /\ pad32 (strip_zeros v) = Some (be_bytes 32 (be_val v)).
Proof.
  intros Hb Hv; destruct (strip_ok v Hb) as (A & B & C).
  assert (L : (length (strip_zeros v) <= 32)%nat).
  { destruct C as [->|C]; [cbn; lia|]; destruct (Nat.le_gt_cases (length (strip_zeros v)) 32); [assumption|exfalso].
    assert (pow256 32 <= pow256 (length (strip_zeros v) - 1)) by (unfold pow256; apply Z.pow_le_mono_r; lia).
    change (pow256 32) with (2 ^ 256) in *; lia. }
  split; [exact L|]; unfold pad32; destruct (Nat.ltb_spec 32 (length (strip_zeros v))); [lia|]; f_equal.
  rewrite <- B; transitivity (be_bytes ((32 - length (strip_zeros v)) + length (strip_zeros v)) (be_val (strip_zeros v))).
  - rewrite be_bytes_wider, be_bytes_val by (assumption || apply be_val_range; assumption); reflexivity.
  - f_equal; lia.
Qed.

(** A positive number within 256 bits has at most 33 bytes in DER. *)
Lemma parse_positive b x : bytes b -> parseBigInt b = Ret x -> 0 < x < 2 ^ 256 -> be_val b = x /\ (0 < length b <= 33)%nat.
Proof.
  intros Hb E Hx; unfold parseBigInt in E; apply bind_Ret in E as ([] & E1 & E2).
  destruct b as [|b0 b]; [discriminate|]; cbn [nth] in E2; cbn [length].
  destruct (Z.eqb_spec (Z.land b0 0x80) 0x80) as [T|T]; apply Ret_inj in E2.
  - exfalso; pose proof (be_val_range (map (fun y => u8 (Z.lnot y)) (b0 :: b)) ltac:(apply List.Forall_map, List.Forall_forall; intros; apply u8_range)); lia.
  - split; [exact E2|]; split; [lia|]; apply Forall_cons in Hb as [H0 Hb]; change (b0 :: b) with ([b0] ++ b) in E2.
    rewrite be_val_app in E2; change (be_val [b0]) with (b0 + 256 * 0) in E2; pose proof (be_val_range b Hb) as R.
    destruct (Nat.le_gt_cases (length b) 32); [lia|exfalso].
    assert (P : pow256 33 <= pow256 (length b)) by (unfold pow256; apply Z.pow_le_mono_r; lia).
    change (pow256 33) with (2 ^ 264) in P; unword; destruct (Z.eq_dec b0 0) as [->|N]; [|nia].
    destruct b as [|b1 b]; [cbn in *; lia|]; cbn [checkInteger] in E1; cbn [Z.eqb andb] in E1.
    apply Forall_cons in Hb as [H1 Hb].
    destruct (Z.eqb_spec (Z.land b1 0x80) 0) as [|Q]; [discriminate|].
    destruct (Z.lt_ge_cases b1 128) as [L|L]; [destruct (low_bits b1 ltac:(unword; lia)); contradiction|].
    change (b1 :: b) with ([b1] ++ b) in E2; rewrite be_val_app in E2; change (be_val [b1]) with (b1 + 256 * 0) in E2.
    pose proof (be_val_range b Hb); cbn [length] in *.
    assert (P2 : pow256 32 <= pow256 (length b)) by (unfold pow256; apply Z.pow_le_mono_r; lia).
    change (pow256 32) with (2 ^ 256) in P2; nia.
Qed.

Lemma short_byte x : is_byte x -> Z.land x 0x80 = 0 -> Z.land x 0x7f = x.
Proof.
  intros Hx H; pose proof (byte_exhaust (fun b => if Z.land b 0x80 =? 0 then Z.land b 0x7f =? b else true) ltac:(vm_compute; reflexivity) x Hx) as F.
  cbv beta in F; rewrite H in F; apply Z.eqb_eq; exact F.
Qed.

Lemma content_bytes x l1 : bytes l1 -> bytes (content_at x l1).
Proof. intros H; unfold content_at; destruct (_ =? 0); [exact H|apply bytes_skipn; exact H]. Qed.

(** Both readers of an integer agree on the numbers a signature can have. *)
Lemma readInt_of inner x inner' : bytes inner -> parse_integer inner = Ret (x, inner') -> 0 < x < 2 ^ 256 ->
  exists v, readInt inner = Ret (v, inner') /\ pad32 v = Some (be_bytes 32 x) /\ bytes inner' /\ (length inner' + 3 <= length inner)%nat.
Proof.
  intros Hb E Hx; unfold parse_integer in E; apply bind_Ret in E as ([b l2] & E1 & E2); apply bind_Ret in E2 as (y & E2 & E3).
  apply Ret_inj in E3; apply pair_equal_spec in E3 as [-> ->].
  destruct (parse_element_inv TagInteger false inner b inner' Hb ltac:(reflexivity) E1) as (x0 & l1 & -> & C & P0 & P1).
  apply Forall_cons in Hb as [_ Hb]; apply Forall_cons in Hb as [Hx0 Hb].
  pose proof (content_bytes x0 l1 Hb) as Hc; rewrite <- C in Hc; apply bytes_app in Hc as [Hbb Hr].
  destruct (parse_positive b x Hbb E2 Hx) as [V L].
  destruct (Z.eq_dec (Z.land x0 0x80) 0) as [T|T]; [|destruct (P1 T); lia].
  specialize (P0 T); rewrite (short_byte x0 Hx0 T) in P0; unfold content_at in C; rewrite T in C; cbn [Z.eqb] in C.
  destruct (pad_strip b Hbb ltac:(lia)) as [S1 S2]; exists (strip_zeros b); rewrite <- V.
  split; [|split; [exact S2|split; [exact Hr|rewrite <- C; cbn [length]; rewrite length_app; lia]]].
  unfold readInt; change (TagInteger + 0) with 2; cbn [Z.eqb negb]; rewrite <- C, <- P0, Nat2Z.id, length_app.
  destruct (Z.ltb_spec (Z.of_nat (length b + length inner')) (Z.of_nat (length b))); [lia|].
  rewrite firstn_app, skipn_app, Nat.sub_diag, firstn_all, skipn_all, firstn_O, app_nil_r, drop_0; cbn [app].
  destruct (Nat.ltb_spec 32 (length (strip_zeros b))); [lia|reflexivity].
Qed.

Lemma Bytes_short x : 0 < x -> (length (Bytes x) <= 32)%nat -> x < 2 ^ 256.
Proof.
  intros H L; destruct (Bytes_ok x ltac:(lia)) as (n & E & B & _); rewrite E, length_be_bytes in L.
  eapply Z.lt_le_trans; [exact B|]; change (2 ^ 256) with (pow256 32); unfold pow256; apply Z.pow_le_mono_r; lia.
Qed.

(** What the strict decoder has accepted. *)
Lemma decode_inv der sig : decodeECDSASignatureDER der = Ret sig -> exists r s,
  unmarshal_signature der = Ret (r, s, []) /\ 0 < r < 2 ^ 256 /\ 0 < s < 2 ^ 256 /\ sig = be_bytes 32 r ++ be_bytes 32 s.
Proof.
  unfold decodeECDSASignatureDER; intros E; apply bind_Ret in E as ([[r s] rest] & E1 & E2).
  destruct (unmarshal_signature der) as [[[r' s'] rest']|e|] eqn:U; [|discriminate E1|discriminate E1].
  cbn [wrap_error] in E1; apply Ret_inj in E1; injection E1 as -> -> ->.
  destruct rest; [|discriminate]; cbn [length Nat.eqb negb] in E2.
  destruct (Z.leb_spec r 0); [discriminate|]; destruct (Z.leb_spec s 0); [discriminate|]; cbn [orb] in E2.
  destruct (Nat.ltb_spec 32 (length (Bytes r))); [discriminate|]; destruct (Nat.ltb_spec 32 (length (Bytes s))); [discriminate|]; cbn [orb] in E2.
  pose proof (Bytes_short r ltac:(lia) ltac:(lia)); pose proof (Bytes_short s ltac:(lia) ltac:(lia)).
  rewrite pack64_ok in E2 by lia; apply Ret_inj in E2; exists r, s; auto with lia.
Qed.

Lemma enclave_accepts der sig : bytes der -> decodeECDSASignatureDER der = Ret sig -> derToRS der = Ret sig.
Proof.
  intros Hb E; destruct (decode_inv der sig E) as (r & s & U & Hr & Hs & ->); unfold unmarshal_signature in U.
  apply bind_Ret in U as ([inner rest] & E1 & U); apply bind_Ret in U as ([r' i1] & E2 & U); apply bind_Ret in U as ([s' i2] & E3 & U).
  apply Ret_inj in U; injection U as -> -> ->.
  destruct (parse_element_inv TagSequence true der inner [] Hb ltac:(reflexivity) E1) as (x & l1 & -> & C & P0 & P1).
  rewrite app_nil_r in C; apply Forall_cons in Hb as [_ Hb]; apply Forall_cons in Hb as [Hx Hb].
  assert (Hi : bytes inner) by (rewrite C; apply content_bytes; exact Hb).
  destruct (readInt_of inner r i1 Hi E2 Hr) as (v & R1 & D1 & H1 & L1); destruct (readInt_of i1 s i2 H1 E3 Hs) as (w & R2 & D2 & _ & L2).
  assert (LI : (length inner <= length l1)%nat) by (rewrite C; unfold content_at; destruct (_ =? 0); [lia|rewrite length_skipn; lia]).
  unfold derToRS; cbn [length nth]; destruct (Nat.ltb_spec (S (S (length l1))) 8); [lia|].
  change (TagSequence + 32) with 0x30; cbn [Z.eqb negb orb]; cbv zeta.
  assert (SK : skipn (if negb (Z.land x 0x80 =? 0) then (2 + Z.to_nat (Z.land x 0x7f))%nat else 2%nat) (0x30 :: x :: l1) = inner)
    by (rewrite C; unfold content_at; destruct (_ =? 0); reflexivity).
  rewrite SK, R1; cbn [bind]; rewrite R2; cbn [bind]; rewrite D1, D2; reflexivity.
Qed.

(** *** What a writer produces *)

Lemma der_number_ok x : 0 <= x < 2 ^ 256 -> parseBigInt (der_number x) = Ret x /\ (length (der_number x) <= 33)%nat.
Proof.
  intros Hx; destruct (Bytes_ok x ltac:(lia)) as (n & E & B & M); pose proof (M 32%nat (proj2 Hx)) as Ln.
  assert (Hb : bytes (Bytes x)) by (rewrite E; apply bytes_be_bytes).
  assert (V : be_val (Bytes x) = x) by (rewrite E, be_val_bytes; apply Z.mod_small; lia).
  assert (LB : length (Bytes x) = n) by (rewrite E; apply length_be_bytes).
  unfold der_number; destruct (Bytes x) as [|b0 b] eqn:EB; [cbn [be_val] in V; split; [rewrite <- V; reflexivity|cbn; lia]|].
  apply Forall_cons in Hb as [H0 Hb]; cbn [length] in LB; destruct (Z.leb_spec 128 b0) as [T|T].
  - assert (T0 : Z.land b0 0x80 = 0x80).
    { pose proof (byte_exhaust (fun b => if 128 <=? b then Z.land b 0x80 =? 0x80 else true) ltac:(vm_compute; reflexivity) b0 H0) as F.
      cbv beta in F; destruct (Z.leb_spec 128 b0); [apply Z.eqb_eq; exact F|lia]. }
    split; [|cbn [length]; lia]; unfold parseBigInt; cbn [checkInteger]; rewrite T0; cbn [Z.eqb andb orb bind nth].
    change (0 :: b0 :: b) with ([0] ++ b0 :: b); rewrite be_val_app, V; change (be_val [0]) with 0; f_equal; lia.
  - assert (N : b0 <> 0).
    { intros ->; change (0 :: b) with ([0] ++ b) in V; rewrite be_val_app in V; change (be_val [0]) with 0 in V.
      pose proof (be_val_range b Hb); pose proof (M (length b) ltac:(lia)); lia. }
    split; [|cbn [length]; lia]; destruct (low_bits b0 ltac:(unword; lia)) as [A _]; unfold parseBigInt; cbn [nth]; rewrite A; cbn [Z.eqb].
    rewrite <- V; unfold checkInteger; destruct b as [|b1 b]; [reflexivity|].
    destruct (Z.eqb_spec b0 0); [contradiction|]; destruct (Z.eqb_spec b0 0xff); [lia|reflexivity].
Qed.

Lemma parse_integer_tlv x l : 0 <= x < 2 ^ 256 -> parse_integer (der_tlv 2 (der_number x) ++ l) = Ret (x, l).
Proof.
  intros H; destruct (der_number_ok x H) as [E L]; unfold parse_integer.
  rewrite (parse_element_tlv 2 TagInteger false (der_number x) l eq_refl eq_refl ltac:(discriminate) eq_refl ltac:(lia)).
  cbn [bind]; rewrite E; reflexivity.
Qed.

Lemma length_der_tlv t b : length (der_tlv t b) = (2 + length b)%nat.
Proof. reflexivity. Qed.

Lemma bytes_der_number x : 0 <= x -> bytes (der_number x).
Proof.
  intros H; destruct (Bytes_ok x H) as (n & E & _); assert (Hb : bytes (Bytes x)) by (rewrite E; apply bytes_be_bytes).
  unfold der_number; destruct (Bytes x) as [|b0 b]; [repeat constructor; lia|].
  destruct (128 <=? b0); [constructor; [split; lia|exact Hb]|exact Hb].
Qed.

Lemma bytes_der_tlv t b : is_byte t -> (length b < 128)%nat -> bytes b -> bytes (der_tlv t b).
Proof. intros Ht Hl Hb; constructor; [exact Ht|constructor; [unfold is_byte; lia|exact Hb]]. Qed.

Lemma decode_written r s : 0 < r < 2 ^ 256 -> 0 < s < 2 ^ 256 ->
  bytes (der_signature r s) /\ decodeECDSASignatureDER (der_signature r s) = Ret (be_bytes 32 r ++ be_bytes 32 s).
Proof.
  intros Hr Hs; destruct (der_number_ok r ltac:(lia)) as [_ Lr], (der_number_ok s ltac:(lia)) as [_ Ls].
  assert (L : (length (der_tlv 2 (der_number r) ++ der_tlv 2 (der_number s)) < 128)%nat) by (rewrite length_app, !length_der_tlv; lia).
  split.
  - apply bytes_der_tlv; [unfold is_byte; lia|exact L|apply bytes_app; split; apply bytes_der_tlv; try (unfold is_byte; lia); try lia; apply bytes_der_number; lia].
  - unfold decodeECDSASignatureDER, unmarshal_signature, der_signature; rewrite <- (app_nil_r (der_tlv 0x30 _)).
    rewrite (parse_element_tlv 0x30 TagSequence true _ [] eq_refl eq_refl ltac:(discriminate) eq_refl L); cbn [bind].
    rewrite (parse_integer_tlv r _ ltac:(lia)); cbn [bind]; rewrite <- (app_nil_r (der_tlv 2 (der_number s))), (parse_integer_tlv s [] ltac:(lia)).
    cbn [bind wrap_error length Nat.eqb negb]; destruct (Z.leb_spec r 0); [lia|]; destruct (Z.leb_spec s 0); [lia|]; cbn [orb].
    destruct (Bytes_ok r ltac:(lia)) as (n & E1 & _ & M1); destruct (Bytes_ok s ltac:(lia)) as (m & E2 & _ & M2).
    specialize (M1 32%nat ltac:(change (pow256 32) with (2 ^ 256); lia)); specialize (M2 32%nat ltac:(change (pow256 32) with (2 ^ 256); lia)).
    rewrite E1, E2, !length_be_bytes; destruct (Nat.ltb_spec 32 n); [lia|]; destruct (Nat.ltb_spec 32 m); [lia|]; cbn [orb].
    rewrite pack64_ok by lia; reflexivity.
Qed.

(** *** Keys *)

Lemma parse_spki point : (length point < 64 + 1)%nat -> unmarshal_spki (spki point) = Ret (ecPublicKeyOID, p256OID, 4 :: point).
Proof.
  intros L; unfold unmarshal_spki, spki; rewrite <- (app_nil_r (der_tlv 0x30 (_ ++ der_tlv 3 _))).
  rewrite (parse_element_tlv 0x30 TagSequence true _ [] eq_refl eq_refl ltac:(discriminate) eq_refl)
    by (rewrite length_app, !length_der_tlv; cbn [length app der_tlv]; lia).
  cbn [bind]; rewrite (parse_element_tlv 0x30 TagSequence true _ _ eq_refl eq_refl ltac:(discriminate) eq_refl) by (cbn; lia).
  cbn [bind]; unfold parse_oid; rewrite (parse_element_tlv 6 TagOID false _ _ eq_refl eq_refl ltac:(discriminate) eq_refl) by (cbn; lia).
  cbn [bind]; replace (parseObjectIdentifier [0x2A; 0x86; 0x48; 0xCE; 0x3D; 0x02; 0x01]) with (@Ret asn1_error _ ecPublicKeyOID) by (vm_compute; reflexivity).
  cbn [bind]; rewrite <- (app_nil_r (der_tlv 6 _)), (parse_element_tlv 6 TagOID false _ [] eq_refl eq_refl ltac:(discriminate) eq_refl) by (cbn; lia).
  cbn [bind]; replace (parseObjectIdentifier [0x2A; 0x86; 0x48; 0xCE; 0x3D; 0x03; 0x01; 0x07]) with (@Ret asn1_error _ p256OID) by (vm_compute; reflexivity).
  cbn [bind]; rewrite <- (app_nil_r (der_tlv 3 _)), (parse_element_tlv 3 TagBitString false _ [] eq_refl eq_refl ltac:(discriminate) eq_refl) by (cbn [length]; lia).
  cbn [bind]; unfold parseBitString; change (u8 (Z.shiftl 1 0) - 1) with 0; rewrite Z.land_0_r; cbn [Z.ltb Z.compare Z.eqb negb andb orb].
  rewrite andb_false_r; reflexivity.
Qed.

Lemma element_bytes u c l b rest : bytes l -> u < 0x1f -> parse_element u c l = Ret (b, rest) -> bytes b /\ bytes rest.
Proof.
  intros Hb Hu E; destruct (parse_element_inv u c l b rest Hb Hu E) as (x & l1 & -> & C & _).
  apply Forall_cons in Hb as [_ Hb]; apply Forall_cons in Hb as [_ Hb]; apply bytes_app; rewrite C; apply content_bytes; exact Hb.
Qed.

Lemma parse_key_wf der pk : bytes der -> parseP256PubKeyPEM (Some der) = Ret pk -> wf64 pk.
Proof.
  intros Hb E; unfold parseP256PubKeyPEM in E; apply bind_Ret in E as ([[alg curve] raw] & E1 & E2).
  destruct (unmarshal_spki der) as [[[alg' curve'] raw']|e|] eqn:U; [|discriminate E1|discriminate E1].
  cbn [wrap_error] in E1; apply Ret_inj in E1; injection E1 as -> -> ->.
  destruct (negb (bytes_eqb alg ecPublicKeyOID)); [discriminate|]; destruct (negb (bytes_eqb curve p256OID)); [discriminate|].
  destruct (Nat.eqb_spec (length raw) 65) as [L|]; [|destruct raw; discriminate]; cbn [negb orb] in E2.
  destruct (negb (nth 0 raw 0 =? 4)); [destruct raw; discriminate|]; apply Ret_inj in E2; subst pk.
  unfold unmarshal_spki in U; apply bind_Ret in U as ([i1 ?] & P1 & U); apply bind_Ret in U as ([a1 i2] & P2 & U).
  apply bind_Ret in U as ([? a2] & P3 & U); apply bind_Ret in U as ([? ?] & P4 & U); apply bind_Ret in U as ([b ?] & P5 & U).
  apply bind_Ret in U as (key & P6 & U); apply Ret_inj in U; injection U as _ _ ->.
  apply (element_bytes TagSequence true der) in P1 as [H1 _]; [|exact Hb|reflexivity].
  apply (element_bytes TagSequence true i1) in P2 as [_ H2]; [|exact H1|reflexivity].
  apply (element_bytes TagBitString false i2) in P5 as [H5 _]; [|exact H2|reflexivity].
  assert (R : bytes raw) by (destruct b as [|p bits]; [discriminate P6|]; unfold parseBitString in P6; destruct (_ || _);
    [discriminate|]; apply Ret_inj in P6; subst raw; inversion H5; assumption).
  split; [apply bytes_skipn; exact R|rewrite length_skipn, L; reflexivity].
Qed.

(** *** No decoder panics on a signature *)

Lemma bind_no_panic {E A B} (m : outcome E A) (k : A -> outcome E B) : m <> Panic -> (forall a, m = Ret a -> k a <> Panic) -> bind m k <> Panic.
Proof. destruct m; cbn [bind]; auto; contradiction. Qed.

Lemma base128_no_panic fuel k l v : parseBase128Int fuel k l v <> Panic.
Proof.
  revert k l v; induction fuel as [|fuel IH]; intros k [|b l] v; cbn [parseBase128Int]; try discriminate.
  destruct (k =? 5)%nat; [discriminate|]; destruct (_ && _); [discriminate|]; cbv zeta; destruct (_ =? 0); [destruct (_ <? _); discriminate|apply IH].
Qed.

Lemma length_bytes_no_panic n l len : length_bytes n l len <> Panic.
Proof.
  revert l len; induction n as [|n IH]; intros [|b l] len; cbn [length_bytes]; try discriminate.
  destruct (_ <=? _); [discriminate|]; cbv zeta; destruct (_ =? 0); [discriminate|apply IH].
Qed.

Lemma element_no_panic u c l : parse_element u c l <> Panic.
Proof.
  unfold parse_element; destruct l as [|h l]; [discriminate|]; apply bind_no_panic.
  - unfold parseTagAndLength; apply bind_no_panic; [destruct (_ =? _); [|discriminate];
      apply bind_no_panic; [apply base128_no_panic|intros [? ?] _; destruct (_ <? _); discriminate]|].
    intros [? l1] _; apply bind_no_panic; [|intros [? ?] _; discriminate].
    unfold parse_length; destruct l1; [discriminate|]; destruct (_ =? 0); [discriminate|]; cbv zeta; destruct (_ =? 0); [discriminate|].
    apply bind_no_panic; [apply length_bytes_no_panic|intros [? ?] _; destruct (_ <? _); discriminate].
  - intros [t l1] _; destruct (_ || _); [discriminate|]; destruct (_ <? _); discriminate.
Qed.

Lemma integer_no_panic l : parse_integer l <> Panic.
Proof.
  unfold parse_integer; apply bind_no_panic; [apply element_no_panic|]; intros [b ?] _; apply bind_no_panic; [|discriminate].
  unfold parseBigInt, checkInteger; destruct b as [|b0 [|b1 b]]; cbn [bind]; try discriminate; [destruct (_ =? _); discriminate|].
  destruct (_ || _); cbn [bind]; [discriminate|destruct (_ =? _); discriminate].
Qed.

Lemma decode_no_panic der : decodeECDSASignatureDER der <> Panic.
Proof.
  unfold decodeECDSASignatureDER; apply bind_no_panic.
  - assert (N : unmarshal_signature der <> Panic).
    { unfold unmarshal_signature; apply bind_no_panic; [apply element_no_panic|]; intros [? ?] _; apply bind_no_panic; [apply integer_no_panic|].
      intros [? ?] _; apply bind_no_panic; [apply integer_no_panic|intros [? ?] _; discriminate]. }
    destruct (unmarshal_signature der); [discriminate|discriminate|contradiction].
  - intros [[r s] rest] _; destruct (negb _); [discriminate|]; destruct (Z.leb_spec r 0); [discriminate|]; destruct (Z.leb_spec s 0); [discriminate|].
    cbn [orb]; destruct (Nat.ltb_spec 32 (length (Bytes r))); [discriminate|]; destruct (Nat.ltb_spec 32 (length (Bytes s))); [discriminate|].
    cbn [orb]; rewrite pack64_ok by (split; [lia|apply Bytes_short; lia]); discriminate.
Qed.

Lemma readInt_short der v l : readInt der = Ret (v, l) -> (length v <= 32)%nat.
Proof.
  destruct der as [|t [|n der]]; try discriminate; cbn [readInt]; destruct (negb _); [discriminate|]; destruct (_ <? _); [discriminate|]; cbv zeta.
  destruct (Nat.ltb_spec 32 (length (strip_zeros (firstn (Z.to_nat n) der)))); [discriminate|]; intros E; apply Ret_inj in E; injection E as <- <-; assumption.
Qed.

Lemma readInt_no_panic der : readInt der <> Panic.
Proof. destruct der as [|t [|n der]]; try discriminate; cbn [readInt]; destruct (negb _); [discriminate|]; destruct (_ <? _); [discriminate|]; cbv zeta; destruct (_ <? _)%nat; discriminate. Qed.

Lemma derToRS_no_panic der : derToRS der <> Panic.
Proof.
  unfold derToRS; destruct (_ || _); [discriminate|]; cbv zeta; apply bind_no_panic; [apply readInt_no_panic|].
  intros [r l] E1; apply bind_no_panic; [apply readInt_no_panic|]; intros [s l'] E2; apply readInt_short in E1, E2.
  unfold pad32; destruct (Nat.ltb_spec 32 (length r)); [lia|]; destruct (Nat.ltb_spec 32 (length s)); [lia|]; discriminate.
Qed.

(** C23: The two signature decoders: the strict one of the KMS backend and the hand-written
    one of the Secure Enclave both turn every DER signature into the two numbers in 32
    bytes each; on every byte string that the strict decoder accepts (long lengths and
    extra elements included) the other gives the same 64 bytes; and neither panics on any
    input. *)
Theorem signature_decoders der sig r s :
  (0 < r < 2 ^ 256 -> 0 < s < 2 ^ 256 ->
     decodeECDSASignatureDER (der_signature r s) = Ret (be_bytes 32 r ++ be_bytes 32 s) /\
     derToRS (der_signature r s) = Ret (be_bytes 32 r ++ be_bytes 32 s)) /\
  (bytes der -> decodeECDSASignatureDER der = Ret sig -> derToRS der = Ret sig) /\
  decodeECDSASignatureDER der <> Panic /\ derToRS der <> Panic.
Proof.
  split; [|split; [apply enclave_accepts|split; [apply decode_no_panic|apply derToRS_no_panic]]].
  intros Hr Hs; destruct (decode_written r s Hr Hs) as [B E]; split; [exact E|apply enclave_accepts; assumption].
Qed.

Lemma signature_decoders_witness :
  decodeECDSASignatureDER (der_signature (2 ^ 255) 5) = Ret (be_bytes 32 (2 ^ 255) ++ be_bytes 32 5) /\
  derToRS (0x30 :: 0x81 :: 0x80 :: der_tlv 2 [3] ++ der_tlv 2 [0; 0x80] ++ repeat 0 121) = Ret (be_bytes 32 3 ++ be_bytes 32 128).
Proof.
  destruct (signature_decoders (0x30 :: 0x81 :: 0x80 :: der_tlv 2 [3] ++ der_tlv 2 [0; 0x80] ++ repeat 0 121)
    (be_bytes 32 3 ++ be_bytes 32 128) (2 ^ 255) 5) as (W & A & _).
  split; [apply W; lia|apply A; [apply bytesb_ok; reflexivity|vm_compute; reflexivity]].
Defined.

(** The KMS backend: a SubjectPublicKeyInfo of a P-256 point is decoded to the point's 64
    bytes; whatever bytes the service answers, a backend that opens only ever hands 64-byte
    keys and 64-byte signatures to the linker and the ceremony; a bit string without any
    key bytes makes the key decoder panic instead of reporting an error. *)
Theorem gcp_backend_wf k url d :
  (forall resource der, kms_key k resource = Some (Some der) -> bytes der) ->
  gcp_open k url = Ret d ->
  diviner_wf d /\
  (forall point, bytes point -> length point = 64%nat -> parseP256PubKeyPEM (Some (spki point)) = Ret point) /\
  parseP256PubKeyPEM (Some (der_tlv 0x30
     (der_tlv 0x30 (der_tlv 6 [0x2A; 0x86; 0x48; 0xCE; 0x3D; 0x02; 0x01] ++ der_tlv 6 [0x2A; 0x86; 0x48; 0xCE; 0x3D; 0x03; 0x01; 0x07]) ++ der_tlv 3 [0]))) = Panic.
Proof.
  intros Hk; unfold gcp_open; destruct (negb _); [discriminate|]; cbv zeta; destruct (_ =? 0)%nat; [discriminate|].
  destruct (negb _); [discriminate|]; intros E; apply Ret_inj in E; subst d; split; [split|split].
  - intros pk; cbn [PublicKey]; destruct (kms_key k _) as [[der|]|] eqn:K; cbn [obind]; try discriminate.
    destruct (parseP256PubKeyPEM (Some der)) as [pk'|e|] eqn:P; try discriminate; cbn [to_option]; intros E; apply Some_inj in E; subst pk'.
    apply (parse_key_wf der pk (Hk _ _ K) P).
  - intros h sig; cbn [Sign]; destruct (kms_sign k _ h) as [der|]; cbn [obind]; try discriminate.
    destruct (decodeECDSASignatureDER der) as [s|e|] eqn:P; try discriminate; cbn [to_option]; intros E; apply Some_inj in E; subst s.
    destruct (decode_inv der sig P) as (r & s & _ & _ & _ & ->); apply packed_wf.
  - intros point Hb Hl; unfold parseP256PubKeyPEM; rewrite parse_spki by lia; cbn [wrap_error bind].
    rewrite !bytes_eqb_refl; cbn [negb length nth]; rewrite Hl; reflexivity.
  - vm_compute; reflexivity.
Qed.

Lemma gcp_backend_wf_witness : exists d,
  gcp_open (MkKms (fun _ => Some (Some (spki (repeat 6 64)))) (fun _ _ => Some (der_signature 3 4))) (str "gcpkms://projects/p") = Ret d /\
  diviner_wf d /\ PublicKey d = Some (repeat 6 64) /\ Sign d [] = Some (be_bytes 32 3 ++ be_bytes 32 4).
Proof.
  set (k := MkKms _ _); destruct (gcp_open k (str "gcpkms://projects/p")) as [d|e|] eqn:E; [|vm_compute in E; discriminate E|vm_compute in E; discriminate E].
  destruct (gcp_backend_wf k (str "gcpkms://projects/p") d) as (W & _).
  - intros resource der H; cbn [k kms_key] in H; apply Some_inj, Some_inj in H; subst der; apply bytesb_ok; reflexivity.
  - exact E.
  - exists d; split; [reflexivity|split; [exact W|]]; unfold gcp_open in E; cbn in E; apply Ret_inj in E; subst d; split; vm_compute; reflexivity.
Defined.
