(* ===== verification/TpmWire.v ===== *)
(** * TpmWire: the TPM 2.0 wire format

    The marshalling half of internal/tpm2 (tpm2.go and key.go): framing of commands,
    checking of response headers, the cursor over a response, the key templates and the
    parameter areas.  Against it, the other end of the wire: a parser of command buffers
    written from the layout of the TCG specification, and the theorem that every command
    the driver builds means what it is meant to mean. *)

From Stdlib Require Import ZArith Lia List Bool.
From S2P Require Import Prelude Slices.
Import ListNotations.

(** ** Constants *)

Definition tagNoSessions : Z := 0x8001.
Definition tagSessions : Z := 0x8002.
Definition ccGetCapability : Z := 0x0000017A.
Definition ccGetRandom : Z := 0x0000017B.
Definition ccCreatePrimary : Z := 0x00000131.
Definition ccCreate : Z := 0x00000153.
Definition ccECDHZGen : Z := 0x00000154.
Definition ccLoad : Z := 0x00000157.
Definition ccSign : Z := 0x0000015D.
Definition ccFlushContext : Z := 0x00000165.
Definition capTPMProperties : Z := 0x00000006.
Definition rhOwner : Z := 0x40000001.
Definition rhNull : Z := 0x40000007.
Definition rsPW : Z := 0x40000009.
Definition stHashChk : Z := 0x8024.
Definition algAES : Z := 0x0006.
Definition algSHA256 : Z := 0x000B.
Definition algNull : Z := 0x0010.
Definition algECDSA : Z := 0x0018.
Definition algECC : Z := 0x0023.
Definition algCFB : Z := 0x0043.
Definition eccP256 : Z := 0x0003.
Definition srkAttr : Z := 0x00030072.
Definition leafAttr : Z := 0x00060072.

(** ** Packing *)

(** [putU16] and [putU32] into a fresh buffer; [beU16] and [beU32] are the readers
    [u16] and [u32] of the source, on slices that are long enough. *)
Definition putU16 (v : Z) : list Z := [u8 (Z.shiftr v 8); u8 v].
Definition putU32 (v : Z) : list Z := [u8 (Z.shiftr v 24); u8 (Z.shiftr v 16); u8 (Z.shiftr v 8); u8 v].
Definition beU16 (b : list Z) : Z := Z.lor (Z.shiftl (nth 0 b 0) 8) (nth 1 b 0).
Definition beU32 (b : list Z) : Z :=
  Z.lor (Z.lor (Z.lor (Z.shiftl (nth 0 b 0) 24) (Z.shiftl (nth 1 b 0) 16)) (Z.shiftl (nth 2 b 0) 8)) (nth 3 b 0).

Definition buildCommand (tag code : Z) (params : list Z) : list Z :=
  putU16 tag ++ putU32 (u32 (10 + Z.of_nat (length params))) ++ putU32 code ++ params.

Inductive tpm_error : Type :=
| ErrNoDevice | ErrTransport | ErrShortResponse (n : nat) | ErrSizeField (size : Z) | ErrResponseCode (rc : Z)
| ErrTruncated | ErrCount (n : Z) | ErrRandomShort | ErrRandomClaims (sz : Z)
| ErrCapabilityShort | ErrCapabilityEcho (cap : Z) | ErrCapabilityClaims (pc : Z)
| ErrCoordinate (x y : nat) | ErrKeyClosed | ErrDigestLength.

Definition parseResponseHeader (resp : list Z) : outcome tpm_error (list Z) :=
  if (length resp <? 10)%nat then Fail (ErrShortResponse (length resp))
  else
    let size := beU32 (firstn 4 (skipn 2 resp)) in
    if negb (size =? Z.of_nat (length resp)) then Fail (ErrSizeField size)
    else
      let rc := beU32 (firstn 4 (skipn 6 resp)) in
      if negb (rc =? 0) then Fail (ErrResponseCode rc) else Ret (skipn 10 resp).

(** [tpm2b]: the length is cut to 16 bits. *)
Definition tpm2b (b : list Z) : list Z := putU16 (u16 (Z.of_nat (length b))) ++ b.

Definition pwAuthArea : list Z := putU32 rsPW ++ [0; 0] ++ [0] ++ [0; 0].

Definition withAuth (handle : Z) (params : list Z) : list Z :=
  putU32 handle ++ putU32 (u32 (Z.of_nat (length pwAuthArea))) ++ pwAuthArea ++ params.

(** ** The cursor *)

Record cursor : Type := MkCursor { cb : list Z; cerr : bool }.
Definition new_cursor (b : list Z) : cursor := MkCursor b false.

Definition cursor_fail (c : cursor) : cursor := MkCursor (cb c) true.

Definition cursor_u16 (c : cursor) : Z * cursor :=
  if cerr c || (length (cb c) <? 2)%nat then (0, cursor_fail c)
  else (beU16 (firstn 2 (cb c)), MkCursor (skipn 2 (cb c)) (cerr c)).

Definition cursor_u32 (c : cursor) : Z * cursor :=
  if cerr c || (length (cb c) <? 4)%nat then (0, cursor_fail c)
  else (beU32 (firstn 4 (cb c)), MkCursor (skipn 4 (cb c)) (cerr c)).

Definition cursor_tpm2b (c : cursor) : list Z * cursor :=
  let '(n, c) := cursor_u16 c in
  if cerr c || (Z.of_nat (length (cb c)) <? n) then ([], cursor_fail c)
  else (firstn (Z.to_nat n) (cb c), MkCursor (skipn (Z.to_nat n) (cb c)) (cerr c)).

Definition cursor_skip (n : nat) (c : cursor) : cursor :=
  if cerr c || (length (cb c) <? n)%nat then cursor_fail c else MkCursor (skipn n (cb c)) (cerr c).

(** ** Templates and parameters *)

Definition srkTemplate : list Z :=
  tpm2b (putU16 algECC ++ putU16 algSHA256 ++ putU32 srkAttr ++ tpm2b [] ++
         putU16 algAES ++ putU16 128 ++ putU16 algCFB ++ putU16 algNull ++ putU16 eccP256 ++ putU16 algNull ++
         tpm2b [] ++ tpm2b []).

Definition leafTemplate : list Z :=
  tpm2b (putU16 algECC ++ putU16 algSHA256 ++ putU32 leafAttr ++ tpm2b [] ++
         putU16 algNull ++ putU16 algNull ++ putU16 eccP256 ++ putU16 algNull ++
         tpm2b [] ++ tpm2b []).

Definition createParams (inPublic : list Z) : list Z :=
  tpm2b (tpm2b [] ++ tpm2b []) ++ inPublic ++ tpm2b [] ++ [0; 0; 0; 0].

(** The parameters of TPM2_Load, TPM2_Sign and TPM2_ECDH_ZGen. *)
Definition load_params (priv pubArea : list Z) : list Z := tpm2b priv ++ tpm2b pubArea.
Definition sign_params (digest : list Z) : list Z :=
  tpm2b digest ++ (putU16 algECDSA ++ putU16 algSHA256) ++ (putU16 stHashChk ++ putU32 rhNull) ++ tpm2b [].
Definition ecdh_params (peer : list Z) : list Z := tpm2b (tpm2b (firstn 32 peer) ++ tpm2b (skipn 32 peer)).

(** [copy(out[n-len(b):n], b)] into [out]. *)
Definition right_align (out : list Z) (n : nat) (b : list Z) : outcome tpm_error (list Z) :=
  if (n <? length b)%nat then Panic else Ret (copy_into out (n - length b) b).

Definition parseECCPublic (pub : list Z) : outcome tpm_error (list Z) :=
  let c := cursor_skip 4 (cursor_skip 2 (cursor_skip 2 (new_cursor pub))) in
  let '(_, c) := cursor_tpm2b c in
  let c := cursor_skip 2 (cursor_skip 2 (cursor_skip 2 (cursor_skip 2 c))) in
  let '(x, c) := cursor_tpm2b c in
  let '(y, c) := cursor_tpm2b c in
  if cerr c then Fail ErrTruncated
  else if (32 <? length x)%nat || (32 <? length y)%nat then Fail (ErrCoordinate (length x) (length y))
  else bind (right_align (repeat 0 64) 32 x) (fun out => right_align out 64 y).

(** What [GetRandom] and [getProperties] take from a parameter area. *)
Definition random_bytes (out : list Z) : outcome tpm_error (list Z) :=
  if (length out <? 2)%nat then Fail ErrRandomShort
  else
    let sz := beU16 (firstn 2 out) in
    if Z.of_nat (length out) <? 2 + sz then Fail (ErrRandomClaims sz) else Ret (firstn (Z.to_nat sz) (skipn 2 out)).

(** The printable characters of a big-endian word. *)
Definition trimASCII (v : Z) : list Z :=
  filter (fun c => (0x20 <=? c) && (c <? 0x7f)) [u8 (Z.shiftr v 24); u8 (Z.shiftr v 16); u8 (Z.shiftr v 8); u8 v].

(** ** The other end of the wire *)

(** A public area: symmetric algorithm with its key bits and mode, if any, then scheme,
    curve, key derivation and the unique point. *)
Record public_area : Type := MkPublic {
  p_type : Z; p_nameAlg : Z; p_attributes : Z; p_policy : list Z;
  p_symmetric : option (Z * Z * Z); p_scheme : Z; p_curve : Z; p_kdf : Z; p_x : list Z; p_y : list Z;
}.

(** The commands, with their handles and parameters. *)
Inductive command : Type :=
| CGetCapability (cap property count : Z)
| CGetRandom (n : Z)
| CCreatePrimary (hierarchy : Z) (inPublic : public_area)
| CCreate (parent : Z) (inPublic : public_area)
| CLoad (parent : Z) (inPrivate inPublic : list Z)
| CSign (key : Z) (digest : list Z) (scheme hash : Z)
| CECDHZGen (key : Z) (x y : list Z)
| CFlushContext (handle : Z).

(** Readers that consume their input from the front. *)
Definition parser (A : Type) : Type := list Z -> option (A * list Z).
Definition p_ret {A} (a : A) : parser A := fun l => Some (a, l).
Definition p_bind {A B} (m : parser A) (k : A -> parser B) : parser B :=
  fun l => match m l with Some (a, l) => k a l | None => None end.
Definition p_take (n : nat) : parser (list Z) :=
  fun l => if (n <=? length l)%nat then Some (firstn n l, skipn n l) else None.
Definition p_u16 : parser Z := p_bind (p_take 2) (fun b => p_ret (be_val b)).
Definition p_u32 : parser Z := p_bind (p_take 4) (fun b => p_ret (be_val b)).
Definition p_2b : parser (list Z) := p_bind p_u16 (fun n => p_take (Z.to_nat n)).
Definition p_check (b : bool) : parser unit := if b then p_ret tt else fun _ => None.
Definition p_expect (v : Z) (p : parser Z) : parser unit := p_bind p (fun w => p_check (w =? v)).
Definition p_end : parser unit := fun l => match l with [] => Some (tt, []) | _ => None end.

Declare Scope parser_scope.
Delimit Scope parser_scope with parser.
Notation "x '<-' p ';;' k" := (p_bind p (fun x => k)) (at level 100, p at next level, right associativity) : parser_scope.
Notation "p ';;;' k" := (p_bind p (fun _ => k)) (at level 100, right associativity) : parser_scope.
#[local] Open Scope parser_scope.

(** TPMT_PUBLIC of an ECC key; a null symmetric algorithm has no bits and no mode. *)
Definition p_public : parser public_area :=
  type <- p_u16 ;; name <- p_u16 ;; attributes <- p_u32 ;; policy <- p_2b ;;
  alg <- p_u16 ;;
  sym <- (if alg =? 0x0010 then p_ret None
          else bits <- p_u16 ;; mode <- p_u16 ;; p_ret (Some (alg, bits, mode))) ;;
  scheme <- p_u16 ;; curve <- p_u16 ;; kdf <- p_u16 ;; x <- p_2b ;; y <- p_2b ;;
  p_ret (MkPublic type name attributes policy sym scheme curve kdf x y).

(** A sized structure is read by [p] in full. *)
Definition p_sized {A} (p : parser A) : parser A :=
  b <- p_2b ;; (fun l => match p b with Some (a, []) => Some (a, l) | _ => None end).

(** One authorisation with the empty password: nonce and authorisation value are empty. *)
Definition p_auth : parser unit :=
  p_expect 9 p_u32 ;;; p_expect 0x40000009 p_u32 ;;; p_expect 0 p_u16 ;;; b <- p_take 1 ;; p_expect 0 p_u16.

(** TPM2B_SENSITIVE_CREATE with nothing in it, the public area, no outside info and no
    PCR selection. *)
Definition p_create : parser public_area :=
  p_sized (p_expect 0 p_u16 ;;; p_expect 0 p_u16) ;;; pub <- p_sized p_public ;;
  p_expect 0 p_u16 ;;; p_expect 0 p_u32 ;;; p_end ;;; p_ret pub.

Definition p_parameters (tag code : Z) : parser command :=
  if (tag =? 0x8001) && (code =? 0x17A) then
    cap <- p_u32 ;; property <- p_u32 ;; count <- p_u32 ;; p_end ;;; p_ret (CGetCapability cap property count)
  else if (tag =? 0x8001) && (code =? 0x17B) then n <- p_u16 ;; p_end ;;; p_ret (CGetRandom n)
  else if (tag =? 0x8001) && (code =? 0x165) then h <- p_u32 ;; p_end ;;; p_ret (CFlushContext h)
  else if tag =? 0x8002 then
    h <- p_u32 ;; p_auth ;;;
    if code =? 0x131 then pub <- p_create ;; p_ret (CCreatePrimary h pub)
    else if code =? 0x153 then pub <- p_create ;; p_ret (CCreate h pub)
    else if code =? 0x157 then priv <- p_2b ;; pub <- p_2b ;; p_end ;;; p_ret (CLoad h priv pub)
    else if code =? 0x15D then
      digest <- p_2b ;; scheme <- p_u16 ;; hash <- p_u16 ;;
      p_expect 0x8024 p_u16 ;;; p_expect 0x40000007 p_u32 ;;; p_expect 0 p_u16 ;;; p_end ;;; p_ret (CSign h digest scheme hash)
    else if code =? 0x154 then
      xy <- p_sized (x <- p_2b ;; y <- p_2b ;; p_ret (x, y)) ;; p_end ;;; p_ret (CECDHZGen h (fst xy) (snd xy))
    else fun _ => None
  else fun _ => None.

(** A whole command buffer: the size field is the number of bytes sent. *)
Definition parse_command (cmd : list Z) : option command :=
  match (tag <- p_u16 ;; size <- p_u32 ;; code <- p_u32 ;;
         p_check (size =? Z.of_nat (length cmd)) ;;; p_parameters tag code) cmd with
  | Some (c, _) => Some c
  | None => None
  end.

(** The two templates as the TPM sees them. *)
Definition srk_public : public_area :=
  MkPublic 0x23 0x0B 0x00030072 [] (Some (0x06, 128, 0x43)) 0x10 0x03 0x10 [] [].
Definition leaf_public : public_area := MkPublic 0x23 0x0B 0x00060072 [] None 0x10 0x03 0x10 [] [].

(** ** Packing and unpacking *)

Lemma putU16_be v : putU16 v = be_bytes 2 v.
Proof.
  unfold putU16, be_bytes, u8; cbn [le_bytes rev app].
  rewrite Z.shiftr_div_pow2 by lia; reflexivity.
Qed.

Lemma putU32_be v : putU32 v = be_bytes 4 v.
Proof.
  unfold putU32, be_bytes, u8; cbn [le_bytes rev app]; rewrite !Z.shiftr_div_pow2 by lia.
  rewrite !Z.div_div by lia; reflexivity.
Qed.

Lemma lor_mult a b k : 0 <= k -> 0 <= b < 2 ^ k -> forall x, x = a * 2 ^ k -> Z.lor x b = x + b.
Proof. intros Hk Hb x ->; apply lor_add_high; assumption. Qed.

Lemma beU16_be b : bytes b -> length b = 2%nat -> beU16 b = be_val b.
Proof.
  destruct b as [|x [|y [|? ?]]]; intros H E; try discriminate E.
  inversion_clear H as [|? ? Hx H']; inversion_clear H' as [|? ? Hy _]; unfold beU16, be_val; cbn [nth rev app le_val].
  unword; rewrite Z.shiftl_mul_pow2 by lia; rewrite (lor_mult x y 8) by (reflexivity || lia); lia.
Qed.

Lemma beU32_be b : bytes b -> length b = 4%nat -> beU32 b = be_val b.
Proof.
  destruct b as [|x [|y [|z [|w [|? ?]]]]]; intros H E; try discriminate E.
  inversion_clear H as [|? ? Hx H1]; inversion_clear H1 as [|? ? Hy H2]; inversion_clear H2 as [|? ? Hz H3].
  inversion_clear H3 as [|? ? Hw _]; unfold beU32, be_val; cbn [nth rev app le_val]; unword.
  rewrite !Z.shiftl_mul_pow2 by lia; rewrite (lor_mult x (y * 2 ^ 16) 24) by (reflexivity || lia).
  rewrite (lor_mult (x * 256 + y) (z * 2 ^ 8) 16) by lia; rewrite (lor_mult (x * 65536 + y * 256 + z) w 8) by lia; lia.
Qed.

Lemma beU16_put v l : 0 <= v < W16 -> beU16 (firstn 2 (putU16 v ++ l)) = v.
Proof.
  intros H; rewrite putU16_be, firstn_app, length_be_bytes, Nat.sub_diag, firstn_O, app_nil_r, firstn_all2 by (rewrite length_be_bytes; lia).
  rewrite beU16_be by (apply bytes_be_bytes || apply length_be_bytes); rewrite be_val_bytes; apply Z.mod_small; exact H.
Qed.

Lemma beU32_put v l : is_u32 v -> beU32 (firstn 4 (putU32 v ++ l)) = v.
Proof.
  intros H; rewrite putU32_be, firstn_app, length_be_bytes, Nat.sub_diag, firstn_O, app_nil_r, firstn_all2 by (rewrite length_be_bytes; lia).
  rewrite beU32_be by (apply bytes_be_bytes || apply length_be_bytes); rewrite be_val_bytes; apply Z.mod_small; exact H.
Qed.

Lemma length_tpm2b b : length (tpm2b b) = (2 + length b)%nat.
Proof. reflexivity. Qed.
Lemma length_buildCommand tag code params : length (buildCommand tag code params) = (10 + length params)%nat.
Proof. reflexivity. Qed.

(** ** Reading commands *)

Lemma p_take_app n a l : length a = n -> p_take n (a ++ l) = Some (a, l).
Proof.
  intros <-; unfold p_take; rewrite length_app; destruct (Nat.leb_spec (length a) (length a + length l)); [|lia].
  rewrite firstn_app, skipn_app, Nat.sub_diag, firstn_all, skipn_all; cbn [firstn skipn app]; rewrite app_nil_r; reflexivity.
Qed.

Lemma p_u16_put v l : 0 <= v < W16 -> p_u16 (putU16 v ++ l) = Some (v, l).
Proof.
  intros H; unfold p_u16, p_bind; rewrite p_take_app by reflexivity; unfold p_ret.
  rewrite putU16_be, be_val_bytes, Z.mod_small by exact H; reflexivity.
Qed.

Lemma p_u32_put v l : is_u32 v -> p_u32 (putU32 v ++ l) = Some (v, l).
Proof.
  intros H; unfold p_u32, p_bind; rewrite p_take_app by reflexivity; unfold p_ret.
  rewrite putU32_be, be_val_bytes, Z.mod_small by exact H; reflexivity.
Qed.

Lemma p_2b_put b l : Z.of_nat (length b) < W16 -> p_2b (tpm2b b ++ l) = Some (b, l).
Proof.
  intros H; unfold p_2b, p_bind, tpm2b, u16; rewrite Z.mod_small, <- app_assoc, p_u16_put by lia.
  rewrite Nat2Z.id; apply p_take_app; reflexivity.
Qed.

Lemma p_bind_ok {A B} (p : parser A) (k : A -> parser B) l a l' : p l = Some (a, l') -> p_bind p k l = k a l'.
Proof. unfold p_bind; intros ->; reflexivity. Qed.

Lemma p_sized_put {A} (p : parser A) b a l : Z.of_nat (length b) < W16 -> p b = Some (a, []) -> p_sized p (tpm2b b ++ l) = Some (a, l).
Proof. intros H E; unfold p_sized; rewrite (p_bind_ok _ _ _ _ _ (p_2b_put b l H)), E; reflexivity. Qed.

(** The framing: the header is read back, the size field agrees. *)
Lemma parse_build tag code params : 0 <= tag < W16 -> is_u32 code -> Z.of_nat (length params) < W32 - 10 ->
  parse_command (buildCommand tag code params) = option_map fst (p_parameters tag code params).
Proof.
  intros Ht Hc Hl; unfold parse_command, buildCommand, u32; rewrite (Z.mod_small (10 + _)) by lia.
  rewrite (p_bind_ok _ _ _ _ _ (p_u16_put tag _ Ht)), (p_bind_ok _ _ _ _ _ (p_u32_put (10 + Z.of_nat (length params)) _ ltac:(unword; lia))).
  rewrite (p_bind_ok _ _ _ _ _ (p_u32_put code _ Hc)); change (length (putU16 tag ++ _)) with (10 + length params)%nat.
  destruct (Z.eqb_spec (10 + Z.of_nat (length params)) (Z.of_nat (10 + length params))); [|lia]; unfold p_bind at 1, p_check, p_ret.
  destruct (p_parameters tag code params) as [[c l]|]; reflexivity.
Qed.

(** A session command: the handle and the password area are read, the rest is the
    command's own. *)
Lemma p_auth_put l : p_auth (putU32 (u32 (Z.of_nat (length pwAuthArea))) ++ pwAuthArea ++ l) = Some (tt, l).
Proof. reflexivity. Qed.

Lemma parse_session code h params : is_u32 code -> is_u32 h -> Z.of_nat (length params) < W32 - 27 ->
  parse_command (buildCommand tagSessions code (withAuth h params)) =
  option_map fst ((if code =? 0x131 then pub <- p_create ;; p_ret (CCreatePrimary h pub)
    else if code =? 0x153 then pub <- p_create ;; p_ret (CCreate h pub)
    else if code =? 0x157 then priv <- p_2b ;; pub <- p_2b ;; p_end ;;; p_ret (CLoad h priv pub)
    else if code =? 0x15D then
      digest <- p_2b ;; scheme <- p_u16 ;; hash <- p_u16 ;;
      p_expect 0x8024 p_u16 ;;; p_expect 0x40000007 p_u32 ;;; p_expect 0 p_u16 ;;; p_end ;;; p_ret (CSign h digest scheme hash)
    else if code =? 0x154 then
      xy <- p_sized (x <- p_2b ;; y <- p_2b ;; p_ret (x, y)) ;; p_end ;;; p_ret (CECDHZGen h (fst xy) (snd xy))
    else fun _ => None) params).
Proof.
  intros Hc Hh Hl; rewrite parse_build; [|unfold tagSessions; lia|exact Hc|change (length (withAuth h params)) with (17 + length params)%nat; lia].
  unfold p_parameters; change (tagSessions =? 0x8001) with false; change (tagSessions =? 0x8002) with true; cbn [andb]; cbv iota.
  unfold withAuth; rewrite (p_bind_ok _ _ _ _ _ (p_u32_put h _ Hh)), (p_bind_ok _ _ _ _ _ (p_auth_put params)); reflexivity.
Qed.

Lemma parse_load h priv pubArea : is_u32 h -> Z.of_nat (length priv) < W16 -> Z.of_nat (length pubArea) < W16 ->
  parse_command (buildCommand tagSessions ccLoad (withAuth h (load_params priv pubArea))) = Some (CLoad h priv pubArea).
Proof.
  intros Hh H1 H2; rewrite parse_session; [|unfold ccLoad, is_u32; lia|exact Hh|unfold load_params; rewrite length_app, !length_tpm2b; lia].
  change (ccLoad =? 0x131) with false; change (ccLoad =? 0x153) with false; change (ccLoad =? 0x157) with true; cbv iota.
  unfold load_params; rewrite (p_bind_ok _ _ _ _ _ (p_2b_put priv _ H1)), <- (app_nil_r (tpm2b pubArea)).
  rewrite (p_bind_ok _ _ _ _ _ (p_2b_put pubArea _ H2)); reflexivity.
Qed.

Lemma parse_sign h digest : is_u32 h -> length digest = 32%nat ->
  parse_command (buildCommand tagSessions ccSign (withAuth h (sign_params digest))) = Some (CSign h digest algECDSA algSHA256).
Proof.
  intros Hh H; rewrite parse_session; [|unfold ccSign, is_u32; lia|exact Hh|unfold sign_params; rewrite !length_app, length_tpm2b, H; cbn; lia].
  change (ccSign =? 0x131) with false; change (ccSign =? 0x153) with false; change (ccSign =? 0x157) with false.
  change (ccSign =? 0x15D) with true; cbv iota.
  unfold sign_params; rewrite (p_bind_ok _ _ _ _ _ (p_2b_put digest _ ltac:(lia))); reflexivity.
Qed.

Lemma parse_ecdh h peer : is_u32 h -> length peer = 64%nat ->
  parse_command (buildCommand tagSessions ccECDHZGen (withAuth h (ecdh_params peer))) = Some (CECDHZGen h (firstn 32 peer) (skipn 32 peer)).
Proof.
  intros Hh H; assert (H1 : length (firstn 32 peer) = 32%nat) by (rewrite length_firstn; lia).
  assert (H2 : length (skipn 32 peer) = 32%nat) by (rewrite length_skipn; lia).
  assert (E : forall l, (x <- p_2b ;; y <- p_2b ;; p_ret (x, y)) (tpm2b (firstn 32 peer) ++ tpm2b (skipn 32 peer) ++ l) = Some ((firstn 32 peer, skipn 32 peer), l)).
  { intros l; rewrite (p_bind_ok _ _ _ _ _ (p_2b_put (firstn 32 peer) _ ltac:(lia))).
    rewrite (p_bind_ok _ _ _ _ _ (p_2b_put (skipn 32 peer) _ ltac:(lia))); reflexivity. }
  assert (L : length (tpm2b (firstn 32 peer) ++ tpm2b (skipn 32 peer)) = 68%nat) by (rewrite length_app, !length_tpm2b; lia).
  rewrite parse_session; [|unfold ccECDHZGen, is_u32; lia|exact Hh|unfold ecdh_params; rewrite length_tpm2b, L; lia].
  change (ccECDHZGen =? 0x131) with false; change (ccECDHZGen =? 0x153) with false; change (ccECDHZGen =? 0x157) with false.
  change (ccECDHZGen =? 0x15D) with false; change (ccECDHZGen =? 0x154) with true; cbv iota.
  unfold ecdh_params; rewrite <- (app_nil_r (tpm2b (_ ++ _))).
  specialize (E []); rewrite app_nil_r in E.
  rewrite (p_bind_ok _ _ _ _ _ (p_sized_put _ (tpm2b (firstn 32 peer) ++ tpm2b (skipn 32 peer)) _ [] ltac:(lia) E)); reflexivity.
Qed.

Lemma parse_create h : is_u32 h ->
  parse_command (buildCommand tagSessions ccCreate (withAuth h (createParams leafTemplate))) = Some (CCreate h leaf_public).
Proof. intros Hh; rewrite parse_session; [reflexivity|unfold ccCreate, is_u32; lia|exact Hh|cbn; lia]. Qed.

Lemma parse_create_primary :
  parse_command (buildCommand tagSessions ccCreatePrimary (withAuth rhOwner (createParams srkTemplate))) = Some (CCreatePrimary rhOwner srk_public).
Proof. reflexivity. Qed.

Lemma parse_flush h : is_u32 h -> parse_command (buildCommand tagNoSessions ccFlushContext (putU32 h)) = Some (CFlushContext h).
Proof.
  intros Hh; rewrite parse_build; [|unfold tagNoSessions; lia|unfold ccFlushContext, is_u32; lia|cbn; lia].
  change (p_parameters tagNoSessions ccFlushContext) with (h <- p_u32 ;; p_end ;;; p_ret (CFlushContext h)).
  rewrite <- (app_nil_r (putU32 h)), (p_bind_ok _ _ _ _ _ (p_u32_put h [] Hh)); reflexivity.
Qed.

Lemma parse_random n : 0 < n < W16 -> parse_command (buildCommand tagNoSessions ccGetRandom (putU16 n)) = Some (CGetRandom n).
Proof.
  intros Hn; rewrite parse_build; [|unfold tagNoSessions; lia|unfold ccGetRandom, is_u32; lia|cbn; lia].
  change (p_parameters tagNoSessions ccGetRandom) with (n <- p_u16 ;; p_end ;;; p_ret (CGetRandom n)).
  rewrite <- (app_nil_r (putU16 n)), (p_bind_ok _ _ _ _ _ (p_u16_put n [] ltac:(lia))); reflexivity.
Qed.

Lemma parse_capability base count : is_u32 base -> is_u32 count ->
  parse_command (buildCommand tagNoSessions ccGetCapability (putU32 capTPMProperties ++ putU32 base ++ putU32 count)) =
  Some (CGetCapability capTPMProperties base count).
Proof.
  intros Hb Hc; rewrite parse_build; [|unfold tagNoSessions; lia|unfold ccGetCapability, is_u32; lia|cbn; lia].
  change (p_parameters tagNoSessions ccGetCapability) with
    (cap <- p_u32 ;; property <- p_u32 ;; count <- p_u32 ;; p_end ;;; p_ret (CGetCapability cap property count)).
  rewrite (p_bind_ok _ _ _ _ _ (p_u32_put capTPMProperties _ ltac:(unfold capTPMProperties, is_u32; lia))).
  rewrite (p_bind_ok _ _ _ _ _ (p_u32_put base _ Hb)), <- (app_nil_r (putU32 count)), (p_bind_ok _ _ _ _ _ (p_u32_put count [] Hc)); reflexivity.
Qed.

(** ** Reading responses *)

(** A response has the layout of a command, with the response code for the code. *)
Definition frame (tag rc : Z) (params : list Z) : list Z := buildCommand tag rc params.

Lemma parse_frame tag rc params : is_u32 rc -> Z.of_nat (length params) < W32 - 10 ->
  parseResponseHeader (frame tag rc params) = if rc =? 0 then Ret params else Fail (ErrResponseCode rc).
Proof.
  intros Hr Hl; unfold parseResponseHeader, frame; rewrite length_buildCommand.
  destruct (Nat.ltb_spec (10 + length params) 10); [lia|]; unfold buildCommand, u32; rewrite Z.mod_small by lia.
  change (skipn 2 (putU16 tag ++ ?a ++ ?b)) with (a ++ b); rewrite beU32_put by (unword; lia).
  change (skipn 6 (putU16 tag ++ putU32 ?a ++ ?b)) with b; rewrite beU32_put by exact Hr.
  replace (10 + Z.of_nat (length params) =? Z.of_nat (10 + length params)) with true by (symmetry; apply Z.eqb_eq; lia).
  cbn [negb]; destruct (rc =? 0); reflexivity.
Qed.

Lemma cursor_u16_put v l : 0 <= v < W16 -> cursor_u16 (new_cursor (putU16 v ++ l)) = (v, new_cursor l).
Proof.
  intros H; unfold cursor_u16, new_cursor; cbn [cerr cb orb].
  change (length (putU16 v ++ l) <? 2)%nat with false; rewrite beU16_put by exact H; reflexivity.
Qed.

Lemma cursor_u32_put v l : is_u32 v -> cursor_u32 (new_cursor (putU32 v ++ l)) = (v, new_cursor l).
Proof.
  intros H; unfold cursor_u32, new_cursor; cbn [cerr cb orb].
  change (length (putU32 v ++ l) <? 4)%nat with false; rewrite beU32_put by exact H; reflexivity.
Qed.

Lemma cursor_2b_put b l : Z.of_nat (length b) < W16 -> cursor_tpm2b (new_cursor (tpm2b b ++ l)) = (b, new_cursor l).
Proof.
  intros H; unfold cursor_tpm2b, tpm2b, u16; rewrite Z.mod_small, <- app_assoc, cursor_u16_put by lia.
  cbn [cerr cb new_cursor orb]; rewrite length_app, Nat2Z.id.
  destruct (Z.ltb_spec (Z.of_nat (length b + length l)) (Z.of_nat (length b))); [lia|].
  rewrite firstn_app, skipn_app, Nat.sub_diag, firstn_all, skipn_all, firstn_O, app_nil_r; reflexivity.
Qed.

Lemma cursor_skip_put n a l : length a = n -> cursor_skip n (new_cursor (a ++ l)) = new_cursor l.
Proof.
  intros <-; unfold cursor_skip; cbn [cerr cb new_cursor orb]; rewrite length_app.
  destruct (Nat.ltb_spec (length a + length l) (length a)); [lia|].
  rewrite skipn_app, Nat.sub_diag, skipn_all; reflexivity.
Qed.

(** An integer of at most [n] bytes, right-aligned, is the number in [n] bytes. *)
Lemma right_align_ok pre n b post : bytes b -> (length b <= n)%nat ->
  right_align (pre ++ repeat 0 n ++ post) (length pre + n) b = Ret (pre ++ be_bytes n (be_val b) ++ post).
Proof.
  intros Hb Hl; unfold right_align; destruct (Nat.ltb_spec (length pre + n) (length b)); [lia|]; f_equal.
  assert (E1 : repeat 0 n = repeat 0 (n - length b) ++ repeat 0 (length b)) by (rewrite <- repeat_app; f_equal; lia).
  assert (E2 : be_bytes n (be_val b) = repeat 0 (n - length b) ++ b).
  { transitivity (be_bytes ((n - length b) + length b) (be_val b)); [f_equal; lia|].
    rewrite be_bytes_wider, be_bytes_val by (assumption || apply be_val_range; exact Hb); reflexivity. }
  rewrite E1, E2; replace (length pre + n - length b)%nat with (length (pre ++ repeat 0 (n - length b))) by (rewrite length_app, repeat_length; lia).
  replace (pre ++ (repeat 0 (n - length b) ++ repeat 0 (length b)) ++ post) with
    ((pre ++ repeat 0 (n - length b)) ++ repeat 0 (length b) ++ post) by (rewrite <- !app_assoc; reflexivity).
  rewrite copy_into_exact by (rewrite repeat_length; reflexivity); rewrite <- !app_assoc; reflexivity.
Qed.

(** Two integers of at most 32 bytes fill a 64-byte buffer. *)
Lemma align_pair x y : bytes x -> bytes y -> (length x <= 32)%nat -> (length y <= 32)%nat ->
  bind (right_align (repeat 0 64) 32 x) (fun out => right_align out 64 y) = Ret (be_bytes 32 (be_val x) ++ be_bytes 32 (be_val y)).
Proof.
  intros Bx By Lx Ly; pose proof (right_align_ok [] 32 x (repeat 0 32) Bx Lx) as E1.
  pose proof (right_align_ok (be_bytes 32 (be_val x)) 32 y [] By Ly) as E2; rewrite length_be_bytes, !app_nil_r in E2.
  cbn [length Nat.add app] in E1, E2; change (repeat 0 64) with (repeat 0 32 ++ repeat 0 32).
  rewrite E1; cbn [bind]; exact E2.
Qed.

(** The public area the TPM returns for a leaf key. *)
Definition leaf_area (x y : list Z) : list Z :=
  putU16 algECC ++ putU16 algSHA256 ++ putU32 leafAttr ++ tpm2b [] ++ putU16 algNull ++ putU16 algNull ++
  putU16 eccP256 ++ putU16 algNull ++ tpm2b x ++ tpm2b y.

Lemma parse_leaf_area x y : bytes x -> bytes y -> (length x <= 32)%nat -> (length y <= 32)%nat ->
  parseECCPublic (leaf_area x y) = Ret (be_bytes 32 (be_val x) ++ be_bytes 32 (be_val y)).
Proof.
  intros Bx By Lx Ly; unfold parseECCPublic, leaf_area.
  rewrite (cursor_skip_put 2 (putU16 algECC)), (cursor_skip_put 2 (putU16 algSHA256)), (cursor_skip_put 4 (putU32 leafAttr)) by reflexivity.
  rewrite cursor_2b_put by (cbn; lia).
  rewrite (cursor_skip_put 2 (putU16 algNull)), (cursor_skip_put 2 (putU16 algNull)), (cursor_skip_put 2 (putU16 eccP256)), (cursor_skip_put 2 (putU16 algNull)) by reflexivity.
  rewrite cursor_2b_put by lia; rewrite <- (app_nil_r (tpm2b y)), cursor_2b_put by lia; cbn [cerr new_cursor].
  destruct (Nat.ltb_spec 32 (length x)); [lia|]; destruct (Nat.ltb_spec 32 (length y)); [lia|]; cbn [orb].
  apply align_pair; assumption.
Qed.

(** C24: Every command the driver builds is, byte for byte, the command it means: a reader of
    the TPM 2.0 command layout (size field, handle, password session, sized parameters,
    nothing left over) gets back the handle, the key template and the arguments, for every
    handle, every wrapped blob that fits a sized buffer, every digest of 32 and every point
    of 64 bytes. *)
Theorem commands_understood h priv pubArea digest peer n base count :
  is_u32 h -> Z.of_nat (length priv) < W16 -> Z.of_nat (length pubArea) < W16 -> length digest = 32%nat -> length peer = 64%nat ->
  0 < n < W16 -> is_u32 base -> is_u32 count ->
  let session code params := parse_command (buildCommand tagSessions code (withAuth h params)) in
  let plain code params := parse_command (buildCommand tagNoSessions code params) in
  parse_command (buildCommand tagSessions ccCreatePrimary (withAuth rhOwner (createParams srkTemplate))) = Some (CCreatePrimary rhOwner srk_public) /\
  session ccCreate (createParams leafTemplate) = Some (CCreate h leaf_public) /\
  session ccLoad (load_params priv pubArea) = Some (CLoad h priv pubArea) /\
  session ccSign (sign_params digest) = Some (CSign h digest algECDSA algSHA256) /\
  session ccECDHZGen (ecdh_params peer) = Some (CECDHZGen h (firstn 32 peer) (skipn 32 peer)) /\
  plain ccFlushContext (putU32 h) = Some (CFlushContext h) /\
  plain ccGetRandom (putU16 n) = Some (CGetRandom n) /\
  plain ccGetCapability (putU32 capTPMProperties ++ putU32 base ++ putU32 count) = Some (CGetCapability capTPMProperties base count).
Proof.
  intros Hh Hp Ha Hd Hx Hn Hb Hc session plain.
  split; [exact parse_create_primary|split; [apply parse_create; exact Hh|split; [apply parse_load; assumption|]]].
  split; [apply parse_sign; assumption|split; [apply parse_ecdh; assumption|split; [apply parse_flush; exact Hh|]]].
  split; [apply parse_random; exact Hn|apply parse_capability; assumption].
Qed.

Lemma commands_understood_witness :
  parse_command (buildCommand tagSessions ccLoad (withAuth 0x80000000 (load_params [1; 2; 3] [4]))) = Some (CLoad 0x80000000 [1; 2; 3] [4]) /\
  parse_command (buildCommand tagNoSessions ccGetRandom (putU16 16)) = Some (CGetRandom 16).
Proof.
  destruct (commands_understood 0x80000000 [1; 2; 3] [4] (repeat 7 32) (repeat 8 64) 16 0x100 32) as (_ & _ & L & _ & _ & _ & R & _);
    try reflexivity; try (unfold is_u32; lia); try lia; split; [exact L|exact R].
Defined.
