(* ===== verification/Tpm2.v ===== *)
(** * Tpm2: the TPM driver and its keys

    internal/tpm2: a device with its cached storage root key, keys that live as wrapped
    blobs and are loaded for one operation at a time, and what the driver does whatever
    the device answers.  Every exported method holds the device's mutex from its first
    command to its last, so the methods are atomic steps on the device. *)

From Stdlib Require Import String ZArith Lia List Bool.
From stdpp Require Import base option list gmap.
From S2P Require Import Prelude Slices TpmWire.
Import ListNotations.
Open Scope Z_scope.

(** ** Devices and operations *)

(** The byte-stream carrier: [None] is an error of the transport. *)
Class Transport (T : Type) : Type := {
  submit : T -> list Z -> option (list Z) * T;
  transport_close : T -> option unit * T;
}.

Record Device (T : Type) : Type := MkDevice { dt : T; srk : Z }.
Arguments MkDevice {T} _ _.
Arguments dt {T} _.
Arguments srk {T} _.

Record Key : Type := MkKey { dev : bool; priv : list Z; pubArea : list Z; pub : list Z }.

Record Info : Type := MkInfo {
  Manufacturer : list Z; VendorString : list Z; Family : list Z; FirmwareVersion : Z; SpecRevision : Z;
}.

Section Driver.
Context {T : Type} {TR : Transport T}.

Definition op (A : Type) : Type := Device T -> outcome tpm_error A * Device T.
Definition lift {A} (r : outcome tpm_error A) : op A := fun d => (r, d).
Definition op_bind {A B} (m : op A) (k : A -> op B) : op B :=
  fun d =>
    match m d with
    | (Ret a, d) => k a d
    | (Fail e, d) => (Fail e, d)
    | (Panic, d) => (Panic, d)
    end.
#[local] Notation "x '<<-' m ';;' k" := (op_bind m (fun x => k)) (at level 100, m at next level, right associativity).

(** [Open] over what opening the transport returns. *)
Definition Open (t : option T) : outcome tpm_error (Device T) :=
  match t with Some t => Ret (MkDevice t 0) | None => Fail ErrNoDevice end.

Definition transact (tag code : Z) (params : list Z) : op (list Z) :=
  fun d =>
    let '(resp, t) := submit (dt d) (buildCommand tag code params) in
    (match resp with None => Fail ErrTransport | Some resp => parseResponseHeader resp end, MkDevice t (srk d)).

Definition flushLocked (handle : Z) : op unit :=
  _ <<- transact tagNoSessions ccFlushContext (putU32 handle) ;; lift (Ret tt).

(** [Close]; a device made by [Open] has a transport. *)
Definition Close : Device T -> option unit * Device T :=
  fun d =>
    let d := if negb (srk d =? 0) then MkDevice (dt (snd (flushLocked (srk d) d))) 0 else d in
    let '(r, t) := transport_close (dt d) in (r, MkDevice t (srk d)).

(** ** Random numbers and properties *)

Definition GetRandom (n : Z) : op (list Z) :=
  if (n <=? 0) || (0xFFFF <? n) then lift (Fail (ErrCount n))
  else out <<- transact tagNoSessions ccGetRandom (putU16 (u16 n)) ;; lift (random_bytes out).

(** The loop over the [pc] properties of [body]. *)
Fixpoint property_map (pc : nat) (body : list Z) (props : gmap Z Z) : gmap Z Z :=
  match pc with
  | O => props
  | S pc => property_map pc (skipn 8 body) (<[beU32 (firstn 4 body) := beU32 (firstn 4 (skipn 4 body))]> props)
  end.

Definition getProperties (base count : Z) : op (gmap Z Z) :=
  out <<- transact tagNoSessions ccGetCapability (putU32 capTPMProperties ++ putU32 base ++ putU32 count) ;;
  lift
    (if (length out <? 9)%nat then Fail ErrCapabilityShort
     else
       let cap := beU32 (firstn 4 (skipn 1 out)) in
       if negb (cap =? capTPMProperties) then Fail (ErrCapabilityEcho cap)
       else
         let pc := beU32 (firstn 4 (skipn 5 out)) in
         let body := skipn 9 out in
         if Z.of_nat (length body) <? pc * 8 then Fail (ErrCapabilityClaims pc)
         else Ret (property_map (Z.to_nat pc) body ∅)).

Definition ptFamilyIndicator : Z := 0x100.
Definition ptRevision : Z := 0x102.
Definition ptManufacturer : Z := 0x105.
Definition ptVendorString1 : Z := 0x106.
Definition ptVendorString4 : Z := 0x109.
Definition ptFirmwareVersion1 : Z := 0x10B.
Definition ptFirmwareVersion2 : Z := 0x10C.
Definition ptFixedPropretyBase : Z := 0x100.

(** The variables of [Info]'s loop. *)
Record info_vars : Type := MkVars {
  i_family : list Z; i_revision : Z; i_manufacturer : list Z;
  i_vs1 : Z; i_vs2 : Z; i_vs3 : Z; i_vs4 : Z; i_fw1 : Z; i_fw2 : Z;
}.

(** The [switch tag] of one turn. *)
Definition info_step (v : info_vars) (p : Z * Z) : info_vars :=
  let '(MkVars fam rev man v1 v2 v3 v4 f1 f2) := v in
  let '(tag, val) := p in
  if tag =? ptFamilyIndicator then MkVars (trimASCII val) rev man v1 v2 v3 v4 f1 f2
  else if tag =? ptRevision then MkVars fam val man v1 v2 v3 v4 f1 f2
  else if tag =? ptManufacturer then MkVars fam rev (trimASCII val) v1 v2 v3 v4 f1 f2
  else if tag =? ptVendorString1 then MkVars fam rev man val v2 v3 v4 f1 f2
  else if tag =? ptVendorString1 + 1 then MkVars fam rev man v1 val v3 v4 f1 f2
  else if tag =? ptVendorString1 + 2 then MkVars fam rev man v1 v2 val v4 f1 f2
  else if tag =? ptVendorString4 then MkVars fam rev man v1 v2 v3 val f1 f2
  else if tag =? ptFirmwareVersion1 then MkVars fam rev man v1 v2 v3 v4 val f2
  else if tag =? ptFirmwareVersion2 then MkVars fam rev man v1 v2 v3 v4 f1 val
  else v.

(** [Info]; [order] is the order in which the range statement visits the map. *)
Definition info_of (order : list (Z * Z)) : Info :=
  let v := fold_left info_step order (MkVars [] 0 [] 0 0 0 0 0 0) in
  MkInfo (i_manufacturer v)
    (flat_map (fun w => if negb (w =? 0) then trimASCII w else []) [i_vs1 v; i_vs2 v; i_vs3 v; i_vs4 v])
    (i_family v) (Z.lor (Z.shiftl (i_fw1 v) 32) (i_fw2 v)) (i_revision v).

Definition ReadInfo (visit : gmap Z Z -> list (Z * Z)) : op Info :=
  props <<- getProperties ptFixedPropretyBase 32 ;; lift (Ret (info_of (visit props))).

(** ** Keys *)

Definition set_srk (handle : Z) : op unit := fun d => (Ret tt, MkDevice (dt d) handle).

Definition ensureSRKLocked : op unit :=
  fun d =>
    if negb (srk d =? 0) then (Ret tt, d)
    else
      (resp <<- transact tagSessions ccCreatePrimary (withAuth rhOwner (createParams srkTemplate)) ;;
       let '(handle, c) := cursor_u32 (new_cursor resp) in
       if cerr c then lift (Fail ErrTruncated) else set_srk handle) d.

(** What [GenerateKey] takes from the parameter area of TPM2_Create. *)
Definition created_key (resp : list Z) : outcome tpm_error Key :=
  let '(_, c) := cursor_u32 (new_cursor resp) in
  let '(priv, c) := cursor_tpm2b c in
  let '(pubArea, c) := cursor_tpm2b c in
  if cerr c then Fail ErrTruncated
  else bind (parseECCPublic pubArea) (fun pub => Ret (MkKey true priv pubArea pub)).

Definition GenerateKey : op Key :=
  _ <<- ensureSRKLocked ;;
  (fun d => (resp <<- transact tagSessions ccCreate (withAuth (srk d) (createParams leafTemplate)) ;; lift (created_key resp)) d).

Definition loadLocked (k : Key) : op Z :=
  _ <<- ensureSRKLocked ;;
  (fun d =>
    (resp <<- transact tagSessions ccLoad (withAuth (srk d) (load_params (priv k) (pubArea k))) ;;
     let '(handle, c) := cursor_u32 (new_cursor resp) in
     lift (if cerr c then Fail ErrTruncated else Ret handle)) d).

Definition PublicPoint (k : Key) : outcome tpm_error (list Z) := if negb (dev k) then Fail ErrKeyClosed else Ret (pub k).
Definition Key_Close (k : Key) : Key := MkKey false (priv k) (pubArea k) (pub k).

(** [defer d.flushLocked(handle)]: it runs after the rest of the method, also when that
    returns an error or panics. *)
Definition defer_flush {A} (handle : Z) (m : op A) : op A :=
  fun d => let '(r, d) := m d in (r, snd (flushLocked handle d)).

(** The signature in the parameter area of TPM2_Sign. *)
Definition signature_of (resp : list Z) : outcome tpm_error (list Z) :=
  let '(_, c) := cursor_u32 (new_cursor resp) in
  let c := cursor_skip 2 (cursor_skip 2 c) in
  let '(r, c) := cursor_tpm2b c in
  let '(s, c) := cursor_tpm2b c in
  if cerr c then Fail ErrTruncated
  else bind (right_align (repeat 0 64) 32 r) (fun out => right_align out 64 s).

Definition Sign (k : Key) (digest : list Z) : op (list Z) :=
  if negb (dev k) then lift (Fail ErrKeyClosed)
  else if negb (length digest =? 32)%nat then lift (Fail ErrDigestLength)
  else
    handle <<- loadLocked k ;;
    defer_flush handle
      (resp <<- transact tagSessions ccSign (withAuth handle (sign_params digest)) ;; lift (signature_of resp)).

(** The shared coordinate in the parameter area of TPM2_ECDH_ZGen. *)
Definition shared_of (resp : list Z) : outcome tpm_error (list Z) :=
  let '(_, c) := cursor_u32 (new_cursor resp) in
  let '(_, c) := cursor_u16 c in
  let '(x, c) := cursor_tpm2b c in
  if cerr c then Fail ErrTruncated else right_align (repeat 0 32) 32 x.

Definition ECDH (k : Key) (peerPoint : list Z) : op (list Z) :=
  if negb (dev k) then lift (Fail ErrKeyClosed)
  else
    handle <<- loadLocked k ;;
    defer_flush handle
      (resp <<- transact tagSessions ccECDHZGen (withAuth handle (ecdh_params peerPoint)) ;; lift (shared_of resp)).
End Driver.

(** ** A TPM at the other end *)

Inductive object (K : Type) : Type := Storage | Leaf (k : K).
Arguments Storage {K}.
Arguments Leaf {K} _.

(** Responses; [rest] is what follows the parts the driver reads. *)
Inductive response : Type :=
| RError (rc : Z)
| ROk
| RHandle (h : Z) (rest : list Z)
| RCreated (size : Z) (priv pubArea rest : list Z)
| RSignature (size alg hash : Z) (r s rest : list Z)
| RPoint (size : Z) (x y rest : list Z)
| RRandom (b : list Z).

Definition params_of (r : response) : list Z :=
  match r with
  | RError _ | ROk => []
  | RHandle h rest => putU32 h ++ rest
  | RCreated size priv pubArea rest => putU32 size ++ tpm2b priv ++ tpm2b pubArea ++ rest
  | RSignature size alg hash r s rest => putU32 size ++ putU16 alg ++ putU16 hash ++ tpm2b r ++ tpm2b s ++ rest
  | RPoint size x y rest => putU32 size ++ tpm2b (tpm2b x ++ tpm2b y) ++ rest
  | RRandom b => tpm2b b
  end.
Definition rc_of (r : response) : Z := match r with RError rc => rc | _ => 0 end.
Definition marshal (r : response) : list Z := frame tagSessions (rc_of r) (params_of r).

(** A device that executes commands. *)
Class TpmDevice (T : Type) : Type := {
  exec : T -> command -> response * T;
  halt : T -> T;
}.

(** Its wire: a buffer that is no command is answered with TPM_RC_COMMAND_SIZE. *)
#[export] Instance wire {T} {D : TpmDevice T} : Transport T := {
  submit t cmd :=
    match parse_command cmd with
    | Some c => let '(r, t) := exec t c in (Some (marshal r), t)
    | None => (Some (frame tagNoSessions 0x142 []), t)
    end;
  transport_close t := (Some tt, halt t);
}.

(** A response fits a buffer, and its sized fields fit their length fields. *)
Definition response_ok (r : response) : Prop :=
  is_u32 (rc_of r) /\ Z.of_nat (length (params_of r)) < W32 - 10 /\
  match r with
  | RError rc => rc <> 0
  | RHandle h _ => is_u32 h
  | RCreated size priv pubArea _ => is_u32 size /\ Z.of_nat (length priv) < W16 /\ Z.of_nat (length pubArea) < W16
  | RSignature size alg hash r s _ => is_u32 size /\ 0 <= alg < W16 /\ 0 <= hash < W16 /\ Z.of_nat (length r) < W16 /\ Z.of_nat (length s) < W16
  | RPoint size x y _ => is_u32 size /\ Z.of_nat (length x) < W16 /\ Z.of_nat (length (tpm2b x ++ tpm2b y)) < W16
  | RRandom b => Z.of_nat (length b) < W16
  | ROk => True
  end.

(** What a TPM promises of the commands the driver sends: transient objects, up to its
    capacity; a storage key under which blobs are wrapped; leaf keys that sign and agree. *)
Class TpmOk (T K : Type) {D : TpmDevice T} : Type := {
  loaded : T -> gmap Z (object K);
  capacity : nat;
  key_x : K -> list Z;
  key_y : K -> list Z;
  wraps : K -> list Z -> Prop;
  valid_sig : K -> list Z -> Z -> Z -> Prop;
  shared : K -> list Z -> option Z;
  key_ok : forall k, bytes (key_x k) /\ bytes (key_y k) /\ (length (key_x k) <= 32)%nat /\ (length (key_y k) <= 32)%nat;
  create_primary_ok : forall t, (size (loaded t) < capacity)%nat -> exists h rest t',
    exec t (CCreatePrimary rhOwner srk_public) = (RHandle h rest, t') /\ response_ok (RHandle h rest) /\
    h <> 0 /\ loaded t !! h = None /\ loaded t' = <[h := Storage]> (loaded t);
  create_ok : forall t p, loaded t !! p = Some Storage -> exists k size priv rest t',
    exec t (CCreate p leaf_public) = (RCreated size priv (leaf_area (key_x k) (key_y k)) rest, t') /\
    response_ok (RCreated size priv (leaf_area (key_x k) (key_y k)) rest) /\ wraps k priv /\ loaded t' = loaded t;
  load_ok : forall t p k priv, loaded t !! p = Some Storage -> wraps k priv -> (size (loaded t) < capacity)%nat ->
    exists h rest t',
    exec t (CLoad p priv (leaf_area (key_x k) (key_y k))) = (RHandle h rest, t') /\ response_ok (RHandle h rest) /\
    loaded t !! h = None /\ loaded t' = <[h := Leaf k]> (loaded t);
  sign_ok : forall t h k digest, loaded t !! h = Some (Leaf k) -> bytes digest -> length digest = 32%nat ->
    exists size r s rest t',
    exec t (CSign h digest algECDSA algSHA256) = (RSignature size algECDSA algSHA256 r s rest, t') /\
    response_ok (RSignature size algECDSA algSHA256 r s rest) /\ loaded t' = loaded t /\
    bytes r /\ bytes s /\ (length r <= 32)%nat /\ (length s <= 32)%nat /\ valid_sig k digest (be_val r) (be_val s);
  ecdh_ok : forall t h k peer, loaded t !! h = Some (Leaf k) -> bytes peer -> length peer = 64%nat ->
    exists r t',
    exec t (CECDHZGen h (firstn 32 peer) (skipn 32 peer)) = (r, t') /\ response_ok r /\ loaded t' = loaded t /\
    match shared k peer with
    | Some z => exists size x y rest, r = RPoint size x y rest /\ bytes x /\ (length x <= 32)%nat /\ be_val x = z
    | None => exists rc, r = RError rc
    end;
  flush_ok : forall t h o, loaded t !! h = Some o -> exists t',
    exec t (CFlushContext h) = (ROk, t') /\ loaded t' = delete h (loaded t);
  random_ok : forall t n, 0 < n < W16 -> exists b t',
    exec t (CGetRandom n) = (RRandom b, t') /\ response_ok (RRandom b) /\ Z.of_nat (length b) <= n /\ loaded t' = loaded t;
  halt_ok : forall t, loaded (halt t) = loaded t;
}.

Lemma Forall2_nth_error {A B} (R : A -> B -> Prop) l l' i a : Forall2 R l l' -> nth_error l i = Some a ->
  exists b, nth_error l' i = Some b /\ R a b.
Proof.
  intros H; revert i; induction H as [|x y l l' HR _ IH]; intros [|i]; try discriminate; cbn [nth_error]; [|apply IH].
  intros E; apply Some_inj in E; subst; eauto.
Qed.

Section WithTpm.
Context {T K : Type} {D : TpmDevice T} {OK : TpmOk T K}.

(** One command to the device. *)
Lemma transact_ok tag code params c t s r t' :
  parse_command (buildCommand tag code params) = Some c -> exec t c = (r, t') -> response_ok r ->
  transact tag code params (MkDevice t s) =
    (match r with RError rc => Fail (ErrResponseCode rc) | _ => Ret (params_of r) end, MkDevice t' s).
Proof.
  intros P E (H1 & H2 & H3); unfold transact; cbn [submit wire dt srk]; rewrite P, E; f_equal.
  unfold marshal; rewrite parse_frame by assumption; destruct r; cbn [rc_of] in *; try reflexivity.
  destruct (Z.eqb_spec rc 0); [contradiction|reflexivity].
Qed.

(** At most the storage key is resident. *)
Definition resident (d : Device T) : Prop := loaded (dt d) = {[srk d := Storage]} /\ srk d <> 0 /\ is_u32 (srk d).
Definition ready (d : Device T) : Prop := (srk d = 0 /\ loaded (dt d) = ∅) \/ resident d.

Lemma ensure_ok d : (1 <= capacity)%nat -> ready d -> exists d', ensureSRKLocked d = (Ret tt, d') /\ resident d'.
Proof.
  intros Hc [[H0 HL]|R]; unfold ensureSRKLocked.
  - destruct d as [t s]; cbn [srk dt] in *; subst s; cbn [Z.eqb negb].
    destruct (create_primary_ok t) as (h & rest & t' & E & O & N & F & L); [rewrite HL, map_size_empty; lia|].
    unfold op_bind; rewrite (transact_ok _ _ _ _ t 0 _ t' parse_create_primary E O); cbn [params_of].
    destruct O as (_ & _ & Hh); rewrite cursor_u32_put by exact Hh; cbn [cerr new_cursor set_srk dt].
    eexists; split; [reflexivity|split; [|split; [exact N|exact Hh]]]; cbn [srk dt]; rewrite L, HL; reflexivity.
  - destruct (Z.eqb_spec (srk d) 0) as [E|_]; [destruct R as (_ & N & _); contradiction|].
    exists d; split; [reflexivity|exact R].
Qed.

(** A key of the driver that stands for the TPM's key [k]. *)
Definition stands_for (k : K) (key : Key) : Prop :=
  dev key = true /\ wraps k (priv key) /\ Z.of_nat (length (priv key)) < W16 /\
  pubArea key = leaf_area (key_x k) (key_y k) /\ pub key = be_bytes 32 (be_val (key_x k)) ++ be_bytes 32 (be_val (key_y k)).

Lemma length_leaf_area k : Z.of_nat (length (leaf_area (key_x k) (key_y k))) < W16.
Proof.
  destruct (key_ok k) as (_ & _ & Lx & Ly); unfold leaf_area; rewrite !length_app, !length_tpm2b; cbn [length putU16 putU32]; lia.
Qed.

Lemma generate_ok d : (1 <= capacity)%nat -> ready d ->
  exists k key d', GenerateKey d = (Ret key, d') /\ stands_for k key /\ resident d'.
Proof.
  intros Hc Hr; destruct (ensure_ok d Hc Hr) as ([t s] & E & R); unfold GenerateKey, op_bind at 1; rewrite E.
  pose proof R as (HL & N & U); cbn [dt srk] in *.
  destruct (create_ok t s) as (k & size & pr & rest & t' & X & O & W & L); [rewrite HL; apply lookup_singleton_eq|].
  pose proof O as (_ & _ & O1 & O2 & O3); destruct (key_ok k) as (Bx & By & Lx & Ly).
  exists k, (MkKey true pr (leaf_area (key_x k) (key_y k)) (be_bytes 32 (be_val (key_x k)) ++ be_bytes 32 (be_val (key_y k)))), (MkDevice t' s).
  split; [|split; [unfold stands_for; cbn [dev priv pubArea pub]; auto|split; [cbn [dt srk]; rewrite L; exact HL|split; assumption]]].
  unfold op_bind; rewrite (transact_ok _ _ _ _ t s _ t' (parse_create s U) X O); unfold lift; cbn [params_of]; f_equal.
  unfold created_key; rewrite cursor_u32_put, cursor_2b_put, cursor_2b_put by assumption; cbn [cerr new_cursor].
  rewrite parse_leaf_area by assumption; reflexivity.
Qed.

(** Storage key and one leaf are resident. *)
Definition working (d : Device T) (h : Z) (k : K) : Prop :=
  loaded (dt d) = <[h := Leaf k]> {[srk d := Storage]} /\ h <> srk d /\ is_u32 h /\ srk d <> 0 /\ is_u32 (srk d).

Lemma load_key_ok d k key : (2 <= capacity)%nat -> ready d -> stands_for k key ->
  exists h d', loadLocked key d = (Ret h, d') /\ working d' h k.
Proof.
  intros Hc Hr (_ & W & Lp & A & _); destruct (ensure_ok d ltac:(lia) Hr) as ([t s] & E & HL & N & U); cbn [dt srk] in *.
  unfold loadLocked, op_bind at 1; rewrite E; cbn [srk].
  destruct (load_ok t s k (priv key)) as (h & rest & t' & X & O & F & L);
    [rewrite HL; apply lookup_singleton_eq|exact W|rewrite HL, map_size_singleton; lia|].
  pose proof O as (_ & _ & Hh); exists h, (MkDevice t' s); split.
  - unfold op_bind; rewrite A; rewrite (transact_ok _ _ _ _ t s _ t' (parse_load s _ _ U Lp (length_leaf_area k)) X O).
    cbn [params_of]; rewrite cursor_u32_put by exact Hh; reflexivity.
  - split; [cbn [dt srk]; rewrite L, HL; reflexivity|split; [cbn [srk]; intros ->|auto]].
    rewrite HL, lookup_singleton_eq in F; discriminate F.
Qed.

Lemma flush_back d h k : working d h k -> resident (snd (flushLocked h d)).
Proof.
  destruct d as [t s]; intros (HL & N & Uh & N0 & Us); cbn [dt srk] in *.
  destruct (flush_ok t h (Leaf k)) as (t' & X & L); [rewrite HL; apply lookup_insert_eq|].
  unfold flushLocked, op_bind; rewrite (transact_ok _ _ _ _ t s _ t' (parse_flush h Uh) X) by (repeat split; cbn; lia).
  cbn [snd lift]; split; [cbn [dt srk]|split; assumption].
  rewrite L, HL; apply delete_insert_id; rewrite lookup_singleton_ne by congruence; reflexivity.
Qed.

Lemma sign_key_ok d k key digest : (2 <= capacity)%nat -> ready d -> stands_for k key -> bytes digest -> length digest = 32%nat ->
  exists r s d', Sign key digest d = (Ret (be_bytes 32 r ++ be_bytes 32 s), d') /\ valid_sig k digest r s /\
    0 <= r < 2 ^ 256 /\ 0 <= s < 2 ^ 256 /\ resident d'.
Proof.
  intros Hc Hr Hk Hb Hl; destruct (load_key_ok d k key Hc Hr Hk) as (h & [t sk] & E & Wk).
  pose proof Wk as (HL & N & Uh & N0 & Us); cbn [dt srk] in *.
  destruct (sign_ok t h k digest) as (size & r & s & rest & t' & X & O & L & Br & Bs & Lr & Ls & V);
    [rewrite HL; apply lookup_insert_eq|exact Hb|exact Hl|].
  exists (be_val r), (be_val s), (snd (flushLocked h (MkDevice t' sk))).
  pose proof (be_val_range r Br); pose proof (be_val_range s Bs).
  assert (P : forall n, (n <= 32)%nat -> pow256 n <= 2 ^ 256) by (intros n Hn; change (2 ^ 256) with (pow256 32); unfold pow256; apply Z.pow_le_mono_r; lia).
  pose proof (P _ Lr); pose proof (P _ Ls).
  split; [|split; [exact V|split; [lia|split; [lia|apply (flush_back _ h k); split; [cbn [dt srk]; rewrite L; exact HL|auto]]]]].
  unfold Sign; destruct Hk as (-> & _); rewrite Hl; cbn [negb Nat.eqb]; unfold op_bind at 1; rewrite E; unfold defer_flush, op_bind.
  rewrite (transact_ok _ _ _ _ t sk _ t' (parse_sign h digest Uh Hl) X O); unfold lift; cbn [params_of].
  destruct O as (_ & _ & O1 & O2 & O3 & O4 & O5); unfold signature_of.
  rewrite cursor_u32_put, (cursor_skip_put 2 (putU16 algECDSA)), (cursor_skip_put 2 (putU16 algSHA256)), cursor_2b_put, cursor_2b_put by (assumption || reflexivity).
  cbn [cerr new_cursor]; rewrite align_pair by assumption; reflexivity.
Qed.

Lemma shared_of_ok size x y rest : is_u32 size -> bytes x -> (length x <= 32)%nat -> Z.of_nat (length (tpm2b x ++ tpm2b y)) < W16 ->
  shared_of (putU32 size ++ tpm2b (tpm2b x ++ tpm2b y) ++ rest) = Ret (be_bytes 32 (be_val x)).
Proof.
  intros Hs Bx Lx Hl; unfold shared_of; rewrite cursor_u32_put by exact Hs.
  change (tpm2b (tpm2b x ++ tpm2b y)) with (putU16 (u16 (Z.of_nat (length (tpm2b x ++ tpm2b y)))) ++ tpm2b x ++ tpm2b y).
  rewrite <- !app_assoc, cursor_u16_put by (unfold u16; rewrite Z.mod_small by lia; lia).
  rewrite cursor_2b_put by lia; cbn [cerr new_cursor].
  pose proof (right_align_ok [] 32 x [] Bx Lx) as E; rewrite !app_nil_r in E; exact E.
Qed.

Lemma ecdh_key_ok d k key peer : (2 <= capacity)%nat -> ready d -> stands_for k key -> bytes peer -> length peer = 64%nat ->
  exists res d', ECDH key peer d = (res, d') /\ resident d' /\
    match shared k peer with Some z => res = Ret (be_bytes 32 z) | None => exists rc, res = Fail (ErrResponseCode rc) end.
Proof.
  intros Hc Hr Hk Hb Hl; destruct (load_key_ok d k key Hc Hr Hk) as (h & [t sk] & E & Wk).
  pose proof Wk as (HL & N & Uh & N0 & Us); cbn [dt srk] in *.
  destruct (ecdh_ok t h k peer) as (r & t' & X & O & L & M); [rewrite HL; apply lookup_insert_eq|exact Hb|exact Hl|].
  unfold ECDH; destruct Hk as (-> & _); cbn [negb]; unfold op_bind at 1; rewrite E; unfold defer_flush, op_bind.
  rewrite (transact_ok _ _ _ _ t sk _ t' (parse_ecdh h peer Uh Hl) X O); unfold lift.
  assert (R : resident (snd (flushLocked h (MkDevice t' sk))))
    by (apply (flush_back _ h k); split; [cbn [dt srk]; rewrite L; exact HL|auto]).
  destruct (shared k peer) as [z|].
  - destruct M as (size & x & y & rest & -> & Bx & Lx & <-); destruct O as (_ & _ & O1 & O2 & O3).
    eexists _, _; split; [reflexivity|split; [exact R|apply shared_of_ok; assumption]].
  - destruct M as (rc & ->); eexists _, _; split; [reflexivity|split; [exact R|eauto]].
Qed.

Lemma random_dev_ok d n : ready d -> 0 < n < W16 ->
  exists b d', GetRandom n d = (Ret b, d') /\ Z.of_nat (length b) <= n /\ ready d'.
Proof.
  destruct d as [t s]; intros Hr Hn; destruct (random_ok t n Hn) as (b & t' & X & O & Lb & L).
  exists b, (MkDevice t' s); split; [|split; [exact Lb|]].
  - unfold GetRandom; destruct (Z.leb_spec n 0); [lia|]; destruct (Z.ltb_spec 0xFFFF n); [lia|]; cbn [orb].
    unfold op_bind, u16; rewrite Z.mod_small by lia; rewrite (transact_ok _ _ _ _ t s _ t' (parse_random n Hn) X O).
    unfold lift; cbn [params_of]; f_equal; destruct O as (_ & _ & O); unfold random_bytes; rewrite length_tpm2b.
    change (2 + length b <? 2)%nat with false; unfold tpm2b, u16; rewrite Z.mod_small, beU16_put by lia.
    destruct (Z.ltb_spec (Z.of_nat (2 + length b)) (2 + Z.of_nat (length b))); [lia|]; rewrite Nat2Z.id.
    change (skipn 2 (putU16 _ ++ b)) with b; rewrite firstn_all; reflexivity.
  - destruct Hr as [[H1 H2]|(H1 & H2)]; [left|right]; cbn [dt srk] in *; [split; [exact H1|rewrite L; exact H2]|].
    split; [cbn [dt srk]; rewrite L; exact H1|exact H2].
Qed.

(** ** Sequences of calls *)

(** Calls of a process on the keys it has generated so far. *)
Inductive call : Type := CallGenerate | CallSign (i : nat) (digest : list Z) | CallECDH (i : nat) (peer : list Z) | CallRandom (n : Z).

Definition run_call (st : list Key * Device T) (c : call) : outcome tpm_error (list Z) * (list Key * Device T) :=
  let '(keys, d) := st in
  let on {A} (m : outcome tpm_error A * Device T) (out : A -> list Z) (keep : A -> list Key) :=
    let '(r, d) := m in (bind r (fun a => Ret (out a)), (match r with Ret a => keep a | _ => keys end, d)) in
  match c with
  | CallGenerate => on (GenerateKey d) pub (fun k => keys ++ [k])
  | CallSign i digest => match nth_error keys i with Some k => on (Sign k digest d) (fun s => s) (fun _ => keys) | None => (Panic, st) end
  | CallECDH i peer => match nth_error keys i with Some k => on (ECDH k peer d) (fun s => s) (fun _ => keys) | None => (Panic, st) end
  | CallRandom n => on (GetRandom n d) (fun s => s) (fun _ => keys)
  end.

Fixpoint run_calls (st : list Key * Device T) (cs : list call) : list (outcome tpm_error (list Z)) * (list Key * Device T) :=
  match cs with
  | [] => ([], st)
  | c :: cs => let '(r, st) := run_call st c in let '(rs, st) := run_calls st cs in (r :: rs, st)
  end.

(** A store of hardware keys, as the identity layer sees it: the answers allowed to a
    call, and the keys afterwards. *)
Inductive store_step : list K -> call -> outcome tpm_error (list Z) -> list K -> Prop :=
| StoreGenerate ks k : store_step ks CallGenerate (Ret (be_bytes 32 (be_val (key_x k)) ++ be_bytes 32 (be_val (key_y k)))) (ks ++ [k])
| StoreSign ks i k digest r s : nth_error ks i = Some k -> valid_sig k digest r s -> 0 <= r < 2 ^ 256 -> 0 <= s < 2 ^ 256 ->
    store_step ks (CallSign i digest) (Ret (be_bytes 32 r ++ be_bytes 32 s)) ks
| StoreShared ks i k peer z : nth_error ks i = Some k -> shared k peer = Some z ->
    store_step ks (CallECDH i peer) (Ret (be_bytes 32 z)) ks
| StoreRefused ks i k peer rc : nth_error ks i = Some k -> shared k peer = None ->
    store_step ks (CallECDH i peer) (Fail (ErrResponseCode rc)) ks
| StoreRandom ks n b : Z.of_nat (length b) <= n -> store_step ks (CallRandom n) (Ret b) ks.

Inductive store_steps : list K -> list call -> list (outcome tpm_error (list Z)) -> list K -> Prop :=
| StoreDone ks : store_steps ks [] [] ks
| StoreStep ks c r ks' cs rs ks'' : store_step ks c r ks' -> store_steps ks' cs rs ks'' -> store_steps ks (c :: cs) (r :: rs) ks''.

(** Calls that name a key generated before, with arguments of the right size. *)
Fixpoint calls_ok (n : nat) (cs : list call) : Prop :=
  match cs with
  | [] => True
  | CallGenerate :: cs => calls_ok (S n) cs
  | CallSign i digest :: cs => (i < n)%nat /\ bytes digest /\ length digest = 32%nat /\ calls_ok n cs
  | CallECDH i peer :: cs => (i < n)%nat /\ bytes peer /\ length peer = 64%nat /\ calls_ok n cs
  | CallRandom m :: cs => 0 < m < W16 /\ calls_ok n cs
  end.

Lemma run_call_ok ks keys d c cs : (2 <= capacity)%nat -> ready d -> Forall2 stands_for ks keys -> calls_ok (length ks) (c :: cs) ->
  exists r ks' keys' d', run_call (keys, d) c = (r, (keys', d')) /\ store_step ks c r ks' /\
    ready d' /\ Forall2 stands_for ks' keys' /\ calls_ok (length ks') cs.
Proof.
  intros Hc Hr Hk; destruct c as [|i digest|i peer|n]; cbn [calls_ok run_call].
  - intros Hn; destruct (generate_ok d ltac:(lia) Hr) as (k & key & d' & -> & S & R).
    exists (Ret (pub key)), (ks ++ [k]), (keys ++ [key]), d'; cbn [bind]; split; [reflexivity|].
    destruct S as (S1 & S2 & S3 & S4 & S5); rewrite S5; split; [apply StoreGenerate|split; [right; exact R|split]].
    + apply Forall2_app; [exact Hk|constructor; [unfold stands_for; auto|constructor]].
    + rewrite length_app, Nat.add_comm; exact Hn.
  - intros (Hi & Hb & Hl & Hn); destruct (nth_error ks i) as [k|] eqn:E; [|apply nth_error_None in E; lia].
    destruct (Forall2_nth_error _ _ _ _ _ Hk E) as (key & -> & S).
    destruct (sign_key_ok d k key digest Hc Hr S Hb Hl) as (r & s & d' & -> & V & Rr & Rs & R).
    exists (Ret (be_bytes 32 r ++ be_bytes 32 s)), ks, keys, d'; cbn [bind].
    split; [reflexivity|split; [eapply StoreSign; eauto|split; [right; exact R|split; assumption]]].
  - intros (Hi & Hb & Hl & Hn); destruct (nth_error ks i) as [k|] eqn:E; [|apply nth_error_None in E; lia].
    destruct (Forall2_nth_error _ _ _ _ _ Hk E) as (key & -> & S).
    destruct (ecdh_key_ok d k key peer Hc Hr S Hb Hl) as (res & d' & -> & R & M); destruct (shared k peer) as [z|] eqn:Es.
    + subst res; exists (Ret (be_bytes 32 z)), ks, keys, d'; cbn [bind].
      split; [reflexivity|split; [eapply StoreShared; eauto|split; [right; exact R|split; assumption]]].
    + destruct M as (rc & ->); exists (Fail (ErrResponseCode rc)), ks, keys, d'; cbn [bind].
      split; [reflexivity|split; [eapply StoreRefused; eauto|split; [right; exact R|split; assumption]]].
  - intros (Hm & Hn); destruct (random_dev_ok d n Hr Hm) as (b & d' & -> & Lb & R).
    exists (Ret b), ks, keys, d'; cbn [bind]; split; [reflexivity|split; [apply StoreRandom; exact Lb|split; [exact R|split; assumption]]].
Qed.
End WithTpm.

Section Properties.
Context {T K : Type} {D : TpmDevice T} {OK : TpmOk T K}.

Lemma run_calls_ok cs : (2 <= capacity)%nat -> forall ks keys d, ready d -> Forall2 stands_for ks keys -> calls_ok (length ks) cs ->
  exists rs ks' keys' d', run_calls (keys, d) cs = (rs, (keys', d')) /\ store_steps ks cs rs ks' /\ ready d'.
Proof.
  intros Hc; induction cs as [|c cs IH]; intros ks keys d Hr Hk Hn.
  - exists [], ks, keys, d; split; [reflexivity|split; [constructor|exact Hr]].
  - destruct (run_call_ok ks keys d c cs Hc Hr Hk Hn) as (r & ks1 & keys1 & d1 & E & S & R1 & K1 & N1).
    destruct (IH ks1 keys1 d1 R1 K1 N1) as (rs & ks2 & keys2 & d2 & E2 & S2 & R2).
    exists (r :: rs), ks2, keys2, d2; cbn [run_calls]; rewrite E, E2; split; [reflexivity|split; [econstructor; eauto|exact R2]].
Qed.

Lemma ready_size d : ready d -> (size (loaded (dt d)) <= 1)%nat.
Proof. intros [[_ ->]|(-> & _)]; [rewrite map_size_empty; lia|rewrite map_size_singleton; lia]. Qed.

Lemma close_ok d : ready d -> loaded (dt (snd (Close d))) = ∅.
Proof.
  destruct d as [t s]; intros [[H0 HL]|(HL & N & U)]; unfold Close; cbn [dt srk] in *.
  - subst s; cbn [Z.eqb negb transport_close wire snd dt]; rewrite halt_ok; exact HL.
  - destruct (Z.eqb_spec s 0) as [E|_]; [contradiction|]; cbn [negb].
    destruct (flush_ok t s Storage) as (t' & X & L); [rewrite HL; apply lookup_singleton_eq|].
    unfold flushLocked, op_bind; rewrite (transact_ok _ _ _ _ t s _ t' (parse_flush s U) X) by (repeat split; cbn; lia).
    cbn [snd lift dt transport_close wire]; rewrite halt_ok, L, HL; apply delete_singleton_eq.
Qed.

(** C14: A device is a store of hardware keys: on a TPM that keeps its promises and has room
    for two transient objects, every sequence of calls from a fresh device (key
    generation, signatures and agreements with any key generated so far, random bytes)
    succeeds as the store specifies: points are the TPM's keys, signatures are valid and
    right-aligned in 64 bytes, shared coordinates are exact, and a peer the TPM refuses is
    an error.  However many keys there are, between calls at most the storage key is
    loaded, and after Close nothing is. *)
Theorem hardware_key_store t d cs :
  (2 <= capacity)%nat -> loaded t = ∅ -> Open (Some t) = Ret d -> calls_ok 0 cs ->
  exists rs ks keys d', run_calls ([], d) cs = (rs, (keys, d')) /\ store_steps [] cs rs ks /\
    (size (loaded (dt d')) <= 1)%nat /\ loaded (dt (snd (Close d'))) = ∅.
Proof.
  intros Hc HL HO Hn; apply Ret_inj in HO; subst d.
  destruct (run_calls_ok cs Hc [] [] (MkDevice t 0)) as (rs & ks & keys & d' & E & S & R);
    [left; split; [reflexivity|exact HL]|constructor|exact Hn|].
  exists rs, ks, keys, d'; split; [exact E|split; [exact S|split; [apply ready_size; exact R|apply close_ok; exact R]]].
Qed.
End Properties.

(** ** Whatever the device answers *)

Section AnyDevice.
Context {T : Type} {TR : Transport T}.

Definition no_panic {A} (m : op (T := T) A) : Prop := forall d, fst (m d) <> Panic.

Lemma lift_np {A} (r : outcome tpm_error A) : r <> Panic -> no_panic (lift r).
Proof. intros H d; exact H. Qed.
Lemma bind_np {A B} (m : op (T := T) A) (k : A -> op B) : no_panic m -> (forall a, no_panic (k a)) -> no_panic (op_bind m k).
Proof. intros H Hk d; unfold op_bind; specialize (H d); destruct (m d) as [[a|e|] d']; cbn [fst] in *; [apply Hk|discriminate|contradiction]. Qed.
Lemma transact_np tag code params : no_panic (transact tag code params).
Proof.
  intros d; unfold transact; destruct (submit _ _) as [[resp|] t]; cbn [fst]; [|discriminate].
  unfold parseResponseHeader; repeat (destruct (_ <? _)%nat || destruct (negb _)); discriminate.
Qed.

Lemma right_align_np out n b : (length b <= n)%nat -> right_align out n b <> Panic.
Proof. intros H; unfold right_align; destruct (Nat.ltb_spec n (length b)); [lia|discriminate]. Qed.

Lemma parse_public_np l : parseECCPublic l <> Panic.
Proof.
  unfold parseECCPublic; destruct (cursor_tpm2b _) as [a c]; destruct (cursor_tpm2b _) as [x c1]; destruct (cursor_tpm2b _) as [y c2].
  destruct (cerr c2); [discriminate|]; destruct (Nat.ltb_spec 32 (length x)); [discriminate|]; destruct (Nat.ltb_spec 32 (length y)); [discriminate|].
  cbn [orb]; unfold right_align at 1; destruct (Nat.ltb_spec 32 (length x)); [lia|]; cbn [bind]; apply right_align_np; lia.
Qed.

Lemma created_np resp : created_key resp <> Panic.
Proof.
  unfold created_key; destruct (cursor_u32 _) as [a c]; destruct (cursor_tpm2b _) as [x c1]; destruct (cursor_tpm2b _) as [y c2].
  destruct (cerr c2); [discriminate|]; pose proof (parse_public_np y); destruct (parseECCPublic y); [discriminate|discriminate|contradiction].
Qed.

Lemma random_np out : random_bytes out <> Panic.
Proof. unfold random_bytes; destruct (_ <? _)%nat; [discriminate|]; destruct (_ <? _); discriminate. Qed.

Lemma ensure_np : no_panic ensureSRKLocked.
Proof.
  intros d; unfold ensureSRKLocked; destruct (negb _); [discriminate|].
  refine (bind_np _ _ (transact_np _ _ _) _ d); intros resp; destruct (cursor_u32 _) as [h c]; destruct (cerr c); intros d'; discriminate.
Qed.

Lemma load_np k : no_panic (loadLocked k).
Proof.
  apply bind_np; [apply ensure_np|]; intros [] d; refine (bind_np _ _ (transact_np _ _ _) _ d); intros resp.
  destruct (cursor_u32 _) as [h c]; apply lift_np; destruct (cerr c); discriminate.
Qed.
End AnyDevice.

(** The record of a conversation: every command submitted. *)
#[export] Instance logged {T} {TR : Transport T} : Transport (T * list (list Z)) := {
  submit tl cmd := let '(r, t) := submit (fst tl) cmd in (r, (t, snd tl ++ [cmd]));
  transport_close tl := let '(r, t) := transport_close (fst tl) in (r, (t, snd tl));
}.

Section Trace.
Context {T : Type} {TR : Transport T}.
Definition log_of (d : Device (T * list (list Z))) : list (list Z) := snd (dt d).

Lemma transact_log tag code params d :
  log_of (snd (transact tag code params d)) = log_of d ++ [buildCommand tag code params].
Proof. unfold transact, log_of; cbn [submit logged]; destruct (submit _ _) as [r t]; reflexivity. Qed.

Lemma bind_lift_log {A B} (m : op (T := T * list (list Z)) A) (f : A -> outcome tpm_error B) d :
  log_of (snd (op_bind m (fun a => lift (f a)) d)) = log_of (snd (m d)).
Proof. unfold op_bind; destruct (m d) as [[a|e|] d']; reflexivity. Qed.

Lemma flush_log h d : log_of (snd (flushLocked h d)) = log_of d ++ [buildCommand tagNoSessions ccFlushContext (putU32 h)].
Proof. unfold flushLocked; rewrite (bind_lift_log _ (fun _ => Ret tt)); apply transact_log. Qed.

(** A method that loads a key, sends one command and interprets the answer. *)
Lemma with_key_log {B} k code params (f : list Z -> outcome tpm_error B) d h d1 :
  loadLocked k d = (Ret h, d1) ->
  log_of (snd (op_bind (loadLocked k) (fun handle => defer_flush handle (op_bind (transact tagSessions code (withAuth handle params)) (fun resp => lift (f resp)))) d)) =
    log_of d1 ++ [buildCommand tagSessions code (withAuth h params); buildCommand tagNoSessions ccFlushContext (putU32 h)].
Proof.
  intros E; unfold op_bind at 1; rewrite E; unfold defer_flush.
  pose proof (bind_lift_log (transact tagSessions code (withAuth h params)) f d1) as L; rewrite transact_log in L.
  destruct (op_bind _ _ d1) as [r d2]; cbn [snd] in *; rewrite flush_log, L, <- app_assoc; reflexivity.
Qed.
End Trace.

(** The signature a response carries, for integers of any length. *)
Definition sign_area (size : Z) (r s rest : list Z) : list Z :=
  putU32 size ++ putU16 algECDSA ++ putU16 algSHA256 ++ tpm2b r ++ tpm2b s ++ rest.

Lemma signature_of_area size r s rest : is_u32 size -> Z.of_nat (length r) < W16 -> Z.of_nat (length s) < W16 ->
  signature_of (sign_area size r s rest) = bind (right_align (repeat 0 64) 32 r) (fun out => right_align out 64 s).
Proof.
  intros Hs Lr Ls; unfold signature_of, sign_area.
  rewrite cursor_u32_put, (cursor_skip_put 2 (putU16 algECDSA)), (cursor_skip_put 2 (putU16 algSHA256)), cursor_2b_put, cursor_2b_put by (assumption || reflexivity).
  reflexivity.
Qed.


Lemma signature_overwrites size r s rest : is_u32 size -> bytes r -> (length r <= 32)%nat -> (32 < length s <= 64)%nat ->
  signature_of (sign_area size r s rest) = Ret (firstn (64 - length s) (be_bytes 32 (be_val r)) ++ s).
Proof.
  intros Hs Br Lr Ls; rewrite signature_of_area by (assumption || lia).
  pose proof (right_align_ok [] 32 r (repeat 0 32) Br Lr) as E1; cbn [length Nat.add app] in E1.
  change (repeat 0 64) with (repeat 0 32 ++ repeat 0 32); rewrite E1; cbn [bind]; unfold right_align.
  destruct (Nat.ltb_spec 64 (length s)); [lia|]; f_equal.
  assert (L : length (be_bytes 32 (be_val r)) = 32%nat) by apply length_be_bytes.
  set (a := be_bytes 32 (be_val r)) in *; rewrite <- (firstn_skipn (64 - length s) a) at 1.
  set (p := firstn (64 - length s) a); assert (Lp : length p = (64 - length s)%nat) by (unfold p; rewrite length_firstn; lia).
  assert (Lq : length (skipn (64 - length s) a ++ repeat 0 32) = length s) by (rewrite length_app, length_skipn, repeat_length; lia).
  rewrite <- app_assoc, <- (app_nil_r (skipn _ a ++ _)), <- Lp at 1; rewrite Lp.
  replace (64 - length s)%nat with (length p) at 2 by exact Lp.
  rewrite copy_into_exact by (symmetry; exact Lq); rewrite app_nil_r; reflexivity.
Qed.

(** Sized fields, read back from any bytes. *)
Lemma tpm2b_inv c b c' : bytes (cb c) -> cursor_tpm2b c = (b, c') -> cerr c' = false ->
  cerr c = false /\ cb c = tpm2b b ++ cb c' /\ Z.of_nat (length b) < W16 /\ bytes (cb c').
Proof.
  intros B; unfold cursor_tpm2b, cursor_u16; destruct (cerr c || (length (cb c) <? 2)%nat) eqn:E1.
  { cbn [cursor_fail cerr orb]; intros [= <- <-]; discriminate. }
  apply orb_false_iff in E1 as [E1 L]; apply Nat.ltb_ge in L; cbn [cerr cb]; rewrite E1; cbn [orb].
  set (n := beU16 (firstn 2 (cb c))); destruct (Z.ltb_spec (Z.of_nat (length (skipn 2 (cb c)))) n) as [Hn|Hn]; [intros [= <- <-]; discriminate|].
  intros [= <- <-]; cbn [cerr cb]; intros _; pose proof (bytes_firstn 2 _ B) as B2; pose proof (bytes_skipn 2 _ B) as B3.
  assert (L2 : length (firstn 2 (cb c)) = 2%nat) by (rewrite length_firstn; lia).
  assert (En : n = be_val (firstn 2 (cb c))) by (apply beU16_be; assumption).
  pose proof (be_val_range _ B2) as R; rewrite L2, <- En in R; change (pow256 2) with W16 in R.
  assert (Ln : length (firstn (Z.to_nat n) (skipn 2 (cb c))) = Z.to_nat n) by (rewrite length_firstn; lia).
  split; [reflexivity|split; [|split; [rewrite Ln; lia|apply bytes_skipn; exact B3]]].
  unfold tpm2b, u16; rewrite Ln, Z2Nat.id, Z.mod_small, putU16_be by lia; rewrite En at 1; rewrite <- L2 at 1; rewrite be_bytes_val by exact B2.
  rewrite <- app_assoc, firstn_skipn, firstn_skipn; reflexivity.
Qed.

(** The answers to TPM2_Sign and TPM2_ECDH_ZGen as the driver reads them: fixed fields, then
    integers of any length. *)
Definition signature_answer (resp r s : list Z) : Prop :=
  exists a rest, length a = 8%nat /\ resp = a ++ tpm2b r ++ tpm2b s ++ rest /\ Z.of_nat (length r) < W16 /\ Z.of_nat (length s) < W16.
Definition shared_answer (resp x : list Z) : Prop :=
  exists a rest, length a = 6%nat /\ resp = a ++ tpm2b x ++ rest /\ Z.of_nat (length x) < W16.

Lemma cursor_skip_inv n c : cerr (cursor_skip n c) = false -> cerr c = false /\ (n <= length (cb c))%nat /\ cursor_skip n c = new_cursor (skipn n (cb c)).
Proof.
  unfold cursor_skip; destruct (cerr c); cbn [orb]; [discriminate|]; destruct (Nat.ltb_spec (length (cb c)) n); [discriminate|auto].
Qed.

Lemma cursor_u32_inv c : cerr (snd (cursor_u32 c)) = false -> cerr c = false /\ (4 <= length (cb c))%nat /\ snd (cursor_u32 c) = new_cursor (skipn 4 (cb c)).
Proof.
  unfold cursor_u32; destruct (cerr c); cbn [orb snd]; [discriminate|]; destruct (Nat.ltb_spec (length (cb c)) 4); [discriminate|auto].
Qed.

Lemma cursor_u16_inv c : cerr (snd (cursor_u16 c)) = false -> cerr c = false /\ (2 <= length (cb c))%nat /\ snd (cursor_u16 c) = new_cursor (skipn 2 (cb c)).
Proof.
  unfold cursor_u16; destruct (cerr c); cbn [orb snd]; [discriminate|]; destruct (Nat.ltb_spec (length (cb c)) 2); [discriminate|auto].
Qed.

(** The fixed fields are skipped whatever they hold. *)
Lemma signature_head a l : length a = 8%nat -> cursor_skip 2 (cursor_skip 2 (snd (cursor_u32 (new_cursor (a ++ l))))) = new_cursor l.
Proof.
  intros La; destruct a as [|a0 [|a1 [|a2 [|a3 [|a4 [|a5 [|a6 [|a7 [|? ?]]]]]]]]]; try discriminate La; reflexivity.
Qed.
Lemma shared_head a l : length a = 6%nat -> snd (cursor_u16 (snd (cursor_u32 (new_cursor (a ++ l))))) = new_cursor l.
Proof.
  intros La; destruct a as [|a0 [|a1 [|a2 [|a3 [|a4 [|a5 [|? ?]]]]]]]; try discriminate La; reflexivity.
Qed.

Lemma signature_read resp r s : signature_answer resp r s ->
  signature_of resp = bind (right_align (repeat 0 64) 32 r) (fun out => right_align out 64 s).
Proof.
  intros (a & rest & La & -> & Lr & Ls); pose proof (signature_head a (tpm2b r ++ tpm2b s ++ rest) La) as H.
  unfold signature_of; destruct (cursor_u32 _) as [x c]; cbn [snd] in H; rewrite H, cursor_2b_put, cursor_2b_put by assumption; reflexivity.
Qed.

Lemma signature_of_inv resp : bytes resp -> (exists r s, signature_answer resp r s) \/ signature_of resp = Fail ErrTruncated.
Proof.
  intros B; unfold signature_of; pose proof (cursor_u32_inv (new_cursor resp)) as E0; destruct (cursor_u32 (new_cursor resp)) as [x c]; cbn [snd cb new_cursor] in E0.
  destruct (cursor_tpm2b _) as [r c1] eqn:E1; destruct (cursor_tpm2b c1) as [s c2] eqn:E2; destruct (cerr c2) eqn:C2; [auto|left].
  destruct (cerr c1) eqn:C1; [unfold cursor_tpm2b, cursor_u16 in E2; rewrite C1 in E2; cbn in E2; injection E2 as <- <-; discriminate|].
  set (c0 := cursor_skip 2 (cursor_skip 2 c)) in *; destruct (cerr c0) eqn:C0; [unfold cursor_tpm2b, cursor_u16 in E1; rewrite C0 in E1; cbn in E1; injection E1 as <- <-; discriminate|].
  destruct (cursor_skip_inv 2 (cursor_skip 2 c) C0) as (K1 & L1 & S1); destruct (cursor_skip_inv 2 c K1) as (K2 & L2 & S2); destruct (E0 K2) as (_ & L0 & S0).
  fold c0 in S1; rewrite S2, S0 in S1; rewrite S2, S0 in L1; rewrite S0 in L2; cbn [cb new_cursor] in *; rewrite !skipn_skipn in *.
  rewrite !length_skipn in *; assert (Lr : (8 <= length resp)%nat) by lia; rewrite S1 in E1.
  destruct (tpm2b_inv (new_cursor (skipn (2 + 2 + 4) resp)) r c1 (bytes_skipn _ _ B) E1 C1) as (_ & R1 & R2 & R3); destruct (tpm2b_inv _ s c2 R3 E2 C2) as (_ & R4 & R5 & _).
  exists r, s, (firstn 8 resp), (cb c2); split; [rewrite length_firstn; lia|split; [|auto]].
  cbn [cb new_cursor Nat.add] in R1; rewrite <- R4, <- R1, firstn_skipn; reflexivity.
Qed.

Lemma signature_panic_iff resp : bytes resp ->
  signature_of resp = Panic <-> exists r s, signature_answer resp r s /\ ((32 < length r)%nat \/ (64 < length s)%nat).
Proof.
  intros B; assert (Q : forall r s, signature_answer resp r s -> (signature_of resp = Panic <-> (32 < length r)%nat \/ (64 < length s)%nat)).
  { intros r s H; rewrite (signature_read resp r s H); unfold right_align at 1; destruct (Nat.ltb_spec 32 (length r)); cbn [bind]; [split; [left; assumption|reflexivity]|].
    unfold right_align; destruct (Nat.ltb_spec 64 (length s)); [split; [right; assumption|reflexivity]|split; [discriminate|lia]]. }
  split; [|intros (r & s & H & L); apply (Q r s H), L].
  intros P; destruct (signature_of_inv resp B) as [(r & s & H)|F]; [|congruence]; exists r, s; split; [exact H|apply (Q r s H), P].
Qed.

Lemma shared_read resp x : shared_answer resp x -> shared_of resp = right_align (repeat 0 32) 32 x.
Proof.
  intros (a & rest & La & -> & Lx); pose proof (shared_head a (tpm2b x ++ rest) La) as H.
  unfold shared_of; destruct (cursor_u32 _) as [y c]; cbn [snd] in H; destruct (cursor_u16 c) as [z c']; cbn [snd] in H.
  rewrite H, cursor_2b_put by assumption; reflexivity.
Qed.

Lemma shared_of_inv resp : bytes resp -> (exists x, shared_answer resp x) \/ shared_of resp = Fail ErrTruncated.
Proof.
  intros B; unfold shared_of; pose proof (cursor_u32_inv (new_cursor resp)) as E0; destruct (cursor_u32 (new_cursor resp)) as [y c]; cbn [snd cb new_cursor] in E0.
  pose proof (cursor_u16_inv c) as E1; destruct (cursor_u16 c) as [z c']; cbn [snd] in E1.
  destruct (cursor_tpm2b c') as [x c2] eqn:E2; destruct (cerr c2) eqn:C2; [auto|left].
  destruct (cerr c') eqn:C1; [unfold cursor_tpm2b, cursor_u16 in E2; rewrite C1 in E2; cbn in E2; injection E2 as <- <-; discriminate|].
  destruct (E1 eq_refl) as (K1 & L1 & S1); destruct (E0 K1) as (_ & L0 & S0); rewrite S0 in S1, L1; cbn [cb new_cursor] in *.
  rewrite skipn_skipn in S1; rewrite length_skipn in L1; rewrite S1 in E2.
  destruct (tpm2b_inv (new_cursor (skipn (2 + 4) resp)) x c2 (bytes_skipn _ _ B) E2 C2) as (_ & R1 & R2 & _).
  exists x, (firstn 6 resp), (cb c2); split; [rewrite length_firstn; lia|split; [|exact R2]].
  cbn [cb new_cursor Nat.add] in R1; rewrite <- R1, firstn_skipn; reflexivity.
Qed.

Lemma shared_panic_iff resp : bytes resp -> shared_of resp = Panic <-> exists x, shared_answer resp x /\ (32 < length x)%nat.
Proof.
  intros B; assert (Q : forall x, shared_answer resp x -> (shared_of resp = Panic <-> (32 < length x)%nat)).
  { intros x H; rewrite (shared_read resp x H); unfold right_align; destruct (Nat.ltb_spec 32 (length x)); [split; [intros _; assumption|reflexivity]|split; [discriminate|lia]]. }
  split; [|intros (x & H & L); apply (Q x H), L].
  intros P; destruct (shared_of_inv resp B) as [(x & H)|F]; [|congruence]; exists x; split; [exact H|apply (Q x H), P].
Qed.

(** A method that loads a key panics exactly when the answer to its command does. *)
Lemma with_key_panic {T} {TR : Transport T} {B} k code (params : list Z) (f : list Z -> outcome tpm_error B) (d : Device T) :
  fst (op_bind (loadLocked k) (fun handle => defer_flush handle (op_bind (transact tagSessions code (withAuth handle params)) (fun resp => lift (f resp)))) d) = Panic <->
  exists h d1 resp d2, loadLocked k d = (Ret h, d1) /\ transact tagSessions code (withAuth h params) d1 = (Ret resp, d2) /\ f resp = Panic.
Proof.
  unfold op_bind at 1; pose proof (load_np k d) as N; destruct (loadLocked k d) as [[h|e|] d1]; cbn [fst] in *; [|split; [discriminate|intros (?&?&?&?&H&_); discriminate]|contradiction].
  unfold defer_flush, op_bind; pose proof (transact_np tagSessions code (withAuth h params) d1) as N1.
  destruct (transact tagSessions code (withAuth h params) d1) as [[resp|e|] d2] eqn:E; cbn [fst] in *; [|split; [discriminate|intros (?&?&?&?&H&H'&_); injection H as <- <-; congruence]|contradiction].
  unfold lift; cbn [fst]; split; [intros P; exists h, d1, resp, d2; auto|intros (?&?&?&?&H&H'&P); injection H as <- <-; rewrite E in H'; injection H' as <- _; exact P].
Qed.

(** C22: What a device can do to the driver, whatever it answers.  Opening a session, loading,
    key generation, random bytes and the identity query never panic.  A signature and an
    agreement panic exactly when the device answers the command with an integer too long for
    the copy: an r of more than 32 or an s of more than 64 bytes, a shared x of more than 32;
    an s of 33 to 64 bytes does not panic and overwrites the end of r.  When the driver got a
    handle from loading the key, the last command of the call flushes it, whatever the
    answer, also on a panic; when it got none, the call sends nothing more.  Close flushes
    the storage key. *)
Theorem driver_on_any_device {T} {TR : Transport T} k digest peer n visit (d : Device (T * list (list Z))) :
  let flush h := buildCommand tagNoSessions ccFlushContext (putU32 h) in
  no_panic (T := T * list (list Z)) (loadLocked k) /\ no_panic (T := T * list (list Z)) GenerateKey /\
  no_panic (T := T * list (list Z)) (GetRandom n) /\ no_panic (T := T * list (list Z)) (ReadInfo visit) /\
  (forall r d1, dev k = true -> length digest = 32%nat -> loadLocked k d = (r, d1) ->
     let after command := match r with Ret h => log_of d1 ++ [command h; flush h] | _ => log_of d1 end in
     log_of (snd (Sign k digest d)) = after (fun h => buildCommand tagSessions ccSign (withAuth h (sign_params digest))) /\
     log_of (snd (ECDH k peer d)) = after (fun h => buildCommand tagSessions ccECDHZGen (withAuth h (ecdh_params peer)))) /\
  log_of (snd (Close d)) = log_of d ++ (if srk d =? 0 then [] else [flush (srk d)]) /\
  (let answered code params resp := exists h d1 d2, loadLocked k d = (Ret h, d1) /\ transact tagSessions code (withAuth h params) d1 = (Ret resp, d2) in
   (fst (Sign k digest d) = Panic <-> dev k = true /\ length digest = 32%nat /\ exists resp, answered ccSign (sign_params digest) resp /\ signature_of resp = Panic) /\
   (fst (ECDH k peer d) = Panic <-> dev k = true /\ exists resp, answered ccECDHZGen (ecdh_params peer) resp /\ shared_of resp = Panic)) /\
  (forall resp, bytes resp ->
     (signature_of resp = Panic <-> exists r s, signature_answer resp r s /\ ((32 < length r)%nat \/ (64 < length s)%nat)) /\
     (shared_of resp = Panic <-> exists x, shared_answer resp x /\ (32 < length x)%nat)) /\
  (forall size r s rest, is_u32 size -> bytes r -> Z.of_nat (length r) < W16 -> Z.of_nat (length s) < W16 ->
     (length r <= 32)%nat -> (32 < length s <= 64)%nat ->
     signature_of (sign_area size r s rest) = Ret (firstn (64 - length s) (be_bytes 32 (be_val r)) ++ s)).
Proof.
  intros flush; split; [apply load_np|split; [|split; [|split; [|split; [|split; [|split; [|split]]]]]]].
  - apply bind_np; [apply ensure_np|]; intros [] d0; refine (bind_np _ _ (transact_np _ _ _) _ d0); intros resp; apply lift_np, created_np.
  - unfold GetRandom; destruct (_ || _); [apply lift_np; discriminate|].
    apply bind_np; [apply transact_np|]; intros out; apply lift_np, random_np.
  - apply bind_np; [apply bind_np; [apply transact_np|intros out; apply lift_np]|intros props; apply lift_np; discriminate].
    destruct (_ <? _)%nat; [discriminate|]; cbv zeta; destruct (negb _); [discriminate|]; destruct (_ <? _); discriminate.
  - intros r d1 Hd Hl E after; unfold Sign, ECDH; rewrite Hd, Hl; cbn [negb Nat.eqb]; unfold after; destruct r as [h|e|].
    + split; apply (with_key_log k _ _ _ d h d1 E).
    + split; unfold op_bind at 1; rewrite E; reflexivity.
    + split; unfold op_bind at 1; rewrite E; reflexivity.
  - unfold Close; destruct (srk d =? 0); cbn [negb]; cbv zeta; cbn [dt transport_close logged]; destruct (transport_close _) as [x t]; cbn [snd].
    + rewrite app_nil_r; reflexivity.
    + exact (flush_log (srk d) d).
  - intros answered; unfold Sign, ECDH; destruct (dev k); cbn [negb]; [|split; (split; [discriminate|intros [H _]; discriminate])].
    split.
    + destruct (Nat.eqb_spec (length digest) 32) as [E|E]; cbn [negb]; [|split; [discriminate|tauto]].
      rewrite (with_key_panic k ccSign (sign_params digest) signature_of d); unfold answered; split; [intros (h & d1 & resp & d2 & A & B & P); eauto 10|intros (_ & _ & resp & (h & d1 & d2 & A & B) & P); eauto 10].
    + rewrite (with_key_panic k ccECDHZGen (ecdh_params peer) shared_of d); unfold answered; split; [intros (h & d1 & resp & d2 & A & B & P); eauto 10|intros (_ & resp & (h & d1 & d2 & A & B) & P); eauto 10].
  - intros resp B; split; [apply signature_panic_iff, B|apply shared_panic_iff, B].
  - intros size r s rest Hs Br Lr Ls; intros; apply signature_overwrites; assumption.
Qed.

(** ** The identity query *)

Definition vars_of (m : gmap Z Z) (v : info_vars) : info_vars :=
  let get {B} tag (f : Z -> B) (dflt : B) := match m !! tag with Some val => f val | None => dflt end in
  MkVars (get ptFamilyIndicator trimASCII (i_family v)) (get ptRevision (fun x => x) (i_revision v))
    (get ptManufacturer trimASCII (i_manufacturer v)) (get 0x106 (fun x => x) (i_vs1 v)) (get 0x107 (fun x => x) (i_vs2 v))
    (get 0x108 (fun x => x) (i_vs3 v)) (get 0x109 (fun x => x) (i_vs4 v))
    (get ptFirmwareVersion1 (fun x => x) (i_fw1 v)) (get ptFirmwareVersion2 (fun x => x) (i_fw2 v)).

Lemma info_fold l v : NoDup (l.*1) -> fold_left info_step l v = vars_of (list_to_map l) v.
Proof.
  revert v; induction l as [|[t x] l IH]; intros v H; [destruct v; reflexivity|].
  apply NoDup_cons in H as [Ht H]; cbn [fold_left]; rewrite (IH _ H).
  assert (N : (list_to_map l : gmap Z Z) !! t = None) by (apply not_elem_of_list_to_map_1; exact Ht).
  assert (E : (list_to_map ((t, x) :: l) : gmap Z Z) = <[t := x]> (list_to_map l)) by reflexivity.
  rewrite E; clear E IH; set (m := list_to_map l) in *; destruct v as [fam rev man v1 v2 v3 v4 f1 f2].
  unfold info_step, vars_of, ptFamilyIndicator, ptRevision, ptManufacturer, ptVendorString1, ptVendorString4, ptFirmwareVersion1, ptFirmwareVersion2.
  change (0x106 + 1) with 0x107; change (0x106 + 2) with 0x108.
  repeat match goal with
  | |- context [t =? ?c] => destruct (Z.eqb_spec t c) as [->|?];
      [rewrite lookup_insert_eq, N, !lookup_insert_ne by discriminate; reflexivity|]
  end.
  rewrite !lookup_insert_ne by assumption; reflexivity.
Qed.

(** The identity the properties describe. *)
Definition info_spec (m : gmap Z Z) : Info :=
  let word tag := default 0 (m !! tag) in
  let text tag := match m !! tag with Some v => trimASCII v | None => [] end in
  MkInfo (text ptManufacturer)
    (flat_map (fun w => if negb (w =? 0) then trimASCII w else []) [word 0x106; word 0x107; word 0x108; word 0x109])
    (text ptFamilyIndicator) (Z.lor (Z.shiftl (word ptFirmwareVersion1) 32) (word ptFirmwareVersion2)) (word ptRevision).

Lemma info_of_ok (m : gmap Z Z) order : order ≡ₚ map_to_list m -> info_of order = info_spec m.
Proof.
  intros P; assert (N : NoDup (order.*1)) by (rewrite P; apply NoDup_fst_map_to_list).
  unfold info_of; rewrite (info_fold _ _ N), (list_to_map_proper _ _ N P), list_to_map_to_list; unfold info_spec, vars_of.
  cbn [i_family i_revision i_manufacturer i_vs1 i_vs2 i_vs3 i_vs4 i_fw1 i_fw2].
  f_equal; repeat match goal with |- context [m !! ?t] => destruct (m !! t) end; reflexivity.
Qed.

Definition property_entry (p : Z * Z) : list Z := putU32 (fst p) ++ putU32 (snd p).

Lemma property_map_ok ps rest m : Forall (fun p => is_u32 (fst p) /\ is_u32 (snd p)) ps ->
  property_map (length ps) (flat_map property_entry ps ++ rest) m = fold_left (fun m p => <[p.1 := p.2]> m) ps m.
Proof.
  intros H; revert m; induction H as [|[t x] ps [Ht Hx] _ IH]; intros m; [reflexivity|].
  change (flat_map property_entry ((t, x) :: ps)) with ((putU32 t ++ putU32 x) ++ flat_map property_entry ps).
  cbn [length property_map fold_left fst snd] in *; rewrite <- !app_assoc.
  rewrite beU32_put by exact Ht; change (skipn 4 (putU32 t ++ ?l)) with l; rewrite beU32_put by exact Hx.
  change (skipn 8 (putU32 t ++ putU32 x ++ ?l)) with l; apply IH.
Qed.

Lemma fold_insert_map ps m : NoDup (ps.*1) ->
  fold_left (fun m p => <[p.1 := p.2]> m) ps m = (list_to_map ps : gmap Z Z) ∪ m.
Proof.
  revert m; induction ps as [|[t x] ps IH]; intros m H; [cbn; rewrite (left_id_L ∅ (∪)); reflexivity|].
  apply NoDup_cons in H as [Ht H]; cbn [fold_left fst snd]; rewrite (IH _ H).
  change (list_to_map ((t, x) :: ps)) with (<[t := x]> (list_to_map ps : gmap Z Z)).
  rewrite <- insert_union_l, insert_union_r; [reflexivity|apply not_elem_of_list_to_map_1; exact Ht].
Qed.

(** The identity query: when the device answers TPM2_GetCapability with a list of
    properties, Info reports exactly what they say, whatever follows them, and whatever
    order Go's map iteration visits them in. *)
Theorem info_reads_properties {T} {TR : Transport T} (d : Device T) visit more ps rest t' :
  (forall m, visit m ≡ₚ map_to_list m) ->
  NoDup (ps.*1) -> Forall (fun p => is_u32 (fst p) /\ is_u32 (snd p)) ps -> is_byte more ->
  Z.of_nat (length ps) * 8 + Z.of_nat (length rest) < W32 - 19 ->
  submit (dt d) (buildCommand tagNoSessions ccGetCapability (putU32 capTPMProperties ++ putU32 ptFixedPropretyBase ++ putU32 32)) =
    (Some (frame tagNoSessions 0 (more :: putU32 capTPMProperties ++ putU32 (Z.of_nat (length ps)) ++ flat_map property_entry ps ++ rest)), t') ->
  ReadInfo visit d = (Ret (info_spec (list_to_map ps)), MkDevice t' (srk d)).
Proof.
  intros Hv Hn Hp Hm Hl E.
  assert (L : length (flat_map property_entry ps) = (8 * length ps)%nat)
    by (clear; induction ps; [reflexivity|]; cbn [flat_map length]; rewrite length_app, IHps; cbn; lia).
  set (area := more :: _) in E; unfold ReadInfo, getProperties, op_bind, transact; rewrite E.
  assert (LA : length area = (9 + (8 * length ps + length rest))%nat) by (unfold area; cbn [length]; rewrite !length_app, L; reflexivity).
  rewrite parse_frame by (unfold is_u32; lia); cbn [Z.eqb]; unfold lift; f_equal.
  destruct (Nat.ltb_spec (length area) 9); [lia|]; unfold area; change (skipn 1 (more :: ?l)) with l.
  rewrite beU32_put by (unfold capTPMProperties, is_u32; lia); rewrite Z.eqb_refl; cbn [negb].
  change (skipn 5 (more :: putU32 capTPMProperties ++ ?l)) with l; rewrite beU32_put by (unfold is_u32; lia).
  change (skipn 9 (more :: putU32 capTPMProperties ++ putU32 ?n ++ ?l)) with l.
  rewrite length_app, L, Nat2Z.id; destruct (Z.ltb_spec (Z.of_nat (8 * length ps + length rest)) (Z.of_nat (length ps) * 8)); [lia|].
  rewrite (property_map_ok ps rest ∅ Hp), (fold_insert_map ps ∅ Hn), (right_id_L ∅ (∪)).
  rewrite (info_of_ok (list_to_map ps) _ (Hv _)); reflexivity.
Qed.

(** ** A small TPM *)

(** Two slots for transient objects; keys are numbers, a signature is the key's number and
    the digest, the shared coordinate is the peer's. *)
Definition toy_tpm : Type := gmap Z (object Z) * Z.
Definition toy_slots : list Z := [0x80000000; 0x80000001].
Definition toy_free (m : gmap Z (object Z)) : option Z :=
  List.find (fun h => match m !! h with None => true | _ => false end) toy_slots.
Definition toy_load (t : toy_tpm) (o : object Z) : response * toy_tpm :=
  match toy_free (fst t) with Some h => (RHandle h [], (<[h := o]> (fst t), snd t)) | None => (RError 0x902, t) end.
Definition toy_area (k : Z) : list Z := leaf_area (be_bytes 32 k) (be_bytes 32 (k + 1)).

#[local] Instance toy_device : TpmDevice toy_tpm := {
  exec t c :=
    match c with
    | CCreatePrimary _ _ => toy_load t Storage
    | CCreate p _ =>
        match fst t !! p with
        | Some Storage => let k := u32 (snd t) in (RCreated 0 (be_bytes 4 k) (toy_area k) [], (fst t, k + 1))
        | _ => (RError 0x18B, t)
        end
    | CLoad p priv _ => match fst t !! p with Some Storage => toy_load t (Leaf (be_val priv)) | _ => (RError 0x18B, t) end
    | CSign h digest _ _ =>
        match fst t !! h with Some (Leaf k) => (RSignature 0 algECDSA algSHA256 [u8 k] digest [], t) | _ => (RError 0x18B, t) end
    | CECDHZGen h x y =>
        match fst t !! h with
        | Some (Leaf _) => if be_val x =? 0 then (RError 0x1A7, t) else (RPoint 0 x y [], t)
        | _ => (RError 0x18B, t)
        end
    | CFlushContext h => match fst t !! h with Some _ => (ROk, (delete h (fst t), snd t)) | None => (RError 0x1C4, t) end
    | CGetRandom n => (RRandom (repeat 4 (Nat.min 32 (Z.to_nat n))), t)
    | CGetCapability _ _ _ => (RError 0x1D5, t)
    end;
  halt t := t;
}.

Lemma toy_free_ok m : (size m < 2)%nat -> exists h, toy_free m = Some h /\ m !! h = None /\ is_u32 h /\ h <> 0.
Proof.
  intros H; unfold toy_free, toy_slots; cbn [List.find].
  destruct (m !! 0x80000000) eqn:A; [|eexists; split; [reflexivity|split; [exact A|unfold is_u32; lia]]].
  destruct (m !! 0x80000001) eqn:B; [|eexists; split; [reflexivity|split; [exact B|unfold is_u32; lia]]].
  exfalso; apply mk_is_Some, elem_of_dom in A; apply mk_is_Some, elem_of_dom in B.
  assert (S : ({[0x80000000; 0x80000001]} : gset Z) ⊆ dom m) by (apply union_subseteq; split; apply singleton_subseteq_l; assumption).
  apply subseteq_size in S; rewrite size_dom in S; change (size _) with 2%nat in S at 1; lia.
Qed.

Lemma toy_load_ok t o : (size (fst t) < 2)%nat -> exists h rest t',
  toy_load t o = (RHandle h rest, t') /\ response_ok (RHandle h rest) /\ h <> 0 /\ fst t !! h = None /\ fst t' = <[h := o]> (fst t).
Proof.
  intros H; destruct (toy_free_ok _ H) as (h & E & N & U & N0); unfold toy_load; rewrite E.
  exists h, [], (<[h := o]> (fst t), snd t); split; [reflexivity|split; [split; [split; reflexivity|split; [reflexivity|exact U]]|auto]].
Qed.

Lemma toy_sized r : is_u32 (rc_of r) -> Z.of_nat (length (params_of r)) < 1000 -> is_u32 (rc_of r) /\ Z.of_nat (length (params_of r)) < W32 - 10.
Proof. intros; split; [assumption|lia]. Qed.

#[local] Instance toy_ok : TpmOk toy_tpm Z.
Proof.
  refine {| loaded := fst; capacity := 2%nat; key_x := be_bytes 32; key_y := fun k => be_bytes 32 (k + 1);
    wraps := fun k priv => priv = be_bytes 4 k /\ is_u32 k;
    valid_sig := fun k digest r s => r = u8 k /\ s = be_val digest;
    shared := fun _ peer => if be_val (firstn 32 peer) =? 0 then None else Some (be_val (firstn 32 peer)) |}.
  - intros k; rewrite !length_be_bytes; auto using bytes_be_bytes.
  - intros t H; destruct (toy_load_ok t Storage H) as (h & rest & t' & E & O & N & F & L); exists h, rest, t'; auto.
  - intros t p E; cbn [exec toy_device]; rewrite E; set (k := u32 (snd t)).
    exists k, 0, (be_bytes 4 k), [], (fst t, k + 1); split; [reflexivity|]; split; [|split; [split; [reflexivity|apply u32_range]|reflexivity]].
    assert (LA : length (leaf_area (be_bytes 32 k) (be_bytes 32 (k + 1))) = 86%nat) by reflexivity.
    split; [unfold is_u32; cbn; lia|split; [|rewrite LA, length_be_bytes; unfold is_u32; lia]].
    cbn [params_of]; rewrite !length_app, !length_tpm2b, LA, length_be_bytes; cbn; lia.
  - intros t p k priv E [-> U] H; cbn [exec toy_device]; rewrite E, be_val_bytes, Z.mod_small by exact U.
    destruct (toy_load_ok t (Leaf k) H) as (h & rest & t' & E' & O & N & F & L); exists h, rest, t'; auto.
  - intros t h k digest E Hb Hl; cbn [exec toy_device]; rewrite E; exists 0, [u8 k], digest, [], t.
    split; [reflexivity|]; split; [|split; [reflexivity|split; [|split; [exact Hb|split; [cbn; lia|split; [lia|]]]]]].
    + split; [unfold is_u32; cbn; lia|split; [|rewrite Hl; unfold is_u32, algECDSA, algSHA256; cbn [length]; lia]].
      cbn [params_of]; rewrite !length_app, !length_tpm2b, Hl; cbn; lia.
    + constructor; [apply u8_range|constructor].
    + split; [unfold be_val; cbn [rev app le_val]; lia|reflexivity].
  - intros t h k peer E Hb Hl; cbn [exec toy_device]; rewrite E.
    assert (LX : length (firstn 32 peer) = 32%nat) by (rewrite length_firstn; lia).
    assert (LY : length (skipn 32 peer) = 32%nat) by (rewrite length_skipn; lia).
    destruct (be_val (firstn 32 peer) =? 0).
    + exists (RError 0x1A7), t; split; [reflexivity|split; [split; [unfold is_u32; cbn; lia|split; [cbn; lia|discriminate]]|split; [reflexivity|eauto]]].
    + exists (RPoint 0 (firstn 32 peer) (skipn 32 peer) []), t; split; [reflexivity|split; [|split; [reflexivity|]]].
      * split; [unfold is_u32; cbn; lia|]; cbn [params_of]; rewrite !length_app, !length_tpm2b, !length_app, !length_tpm2b, LX, LY.
        unfold is_u32; cbn [length putU32]; lia.
      * exists 0, (firstn 32 peer), (skipn 32 peer), []; rewrite LX; auto using bytes_firstn.
  - intros t h o E; cbn [exec toy_device]; rewrite E; eexists; split; reflexivity.
  - intros t n H; cbn [exec toy_device]; eexists _, t; split; [reflexivity|].
    assert (L : length (repeat 4 (Nat.min 32 (Z.to_nat n))) = Nat.min 32 (Z.to_nat n)) by apply repeat_length.
    revert L; generalize (repeat 4 (Nat.min 32 (Z.to_nat n))); intros b L.
    split; [split; [unfold is_u32; cbn; lia|split; [cbn [params_of]; rewrite length_tpm2b; lia|cbn beta iota; lia]]|split; [lia|reflexivity]].
  - reflexivity.
Defined.

(** The conversation with this TPM that fails for want of a key. *)
Definition toy_start : Device toy_tpm := MkDevice (∅, 7) 0.

Lemma hardware_key_store_witness : exists rs ks keys d',
  run_calls ([], toy_start) [CallGenerate; CallGenerate; CallSign 1 (repeat 9 32); CallECDH 0 (repeat 3 64); CallECDH 1 (repeat 0 64); CallRandom 16]
    = (rs, (keys, d')) /\
  store_steps (T := toy_tpm) [] [CallGenerate; CallGenerate; CallSign 1 (repeat 9 32); CallECDH 0 (repeat 3 64); CallECDH 1 (repeat 0 64); CallRandom 16] rs ks /\
  (size (loaded (dt d')) <= 1)%nat.
Proof.
  destruct (hardware_key_store (T := toy_tpm) (∅, 7) toy_start
    [CallGenerate; CallGenerate; CallSign 1 (repeat 9 32); CallECDH 0 (repeat 3 64); CallECDH 1 (repeat 0 64); CallRandom 16])
    as (rs & ks & keys & d' & E & S & L & _).
  - cbn; lia.
  - reflexivity.
  - reflexivity.
  - assert (B9 : bytes (repeat 9 32)) by (apply bytesb_ok; reflexivity).
    assert (B3 : bytes (repeat 3 64)) by (apply bytesb_ok; reflexivity).
    assert (B0 : bytes (repeat 0 64)) by (apply bytesb_ok; reflexivity).
    cbn [calls_ok]; repeat split; try assumption; lia.
  - exists rs, ks, keys, d'; auto.
Defined.

(** A device that plays back responses. *)
#[local] Instance playback : Transport (list (list Z)) := {
  submit l _ := match l with r :: l => (Some r, l) | [] => (None, []) end;
  transport_close l := (Some tt, l);
}.
Definition handle_response (h : Z) : list Z := frame tagSessions 0 (putU32 h).
Definition toy_key : Key := MkKey true [1] [2] (repeat 0 64).

(** A signature of 33 bytes: the driver panics, and the key is flushed. *)
Lemma driver_on_any_device_witness :
  let d := MkDevice ([handle_response 5; handle_response 6; frame tagSessions 0 (sign_area 0 (repeat 1 33) [2] [])], []) 0 in
  fst (Sign (T := list (list Z) * list (list Z)) toy_key (repeat 9 32) d) = Panic /\
  last (log_of (snd (Sign toy_key (repeat 9 32) d))) = Some (buildCommand tagNoSessions ccFlushContext (putU32 6)).
Proof.
  set (d := MkDevice _ 0).
  destruct (driver_on_any_device toy_key (repeat 9 32) [] 1 (fun m => map_to_list m) d) as (_ & _ & _ & _ & H & _ & [P _] & Q & _).
  destruct (Q (sign_area 0 (repeat 1 33) [2] [])) as [[_ S] _]; [apply bytesb_ok; vm_compute; reflexivity|].
  destruct (loadLocked toy_key d) as [[h|e|] d1] eqn:E; [|vm_compute in E; discriminate E|vm_compute in E; discriminate E].
  assert (Eh : h = 6) by (vm_compute in E; injection E as <- _; reflexivity); subst h.
  destruct (H (Ret 6) d1 eq_refl eq_refl eq_refl) as [L _]; split; [|cbv zeta; rewrite L, last_app; reflexivity].
  cbv zeta; apply P; split; [reflexivity|split; [reflexivity|exists (sign_area 0 (repeat 1 33) [2] [])]]; split.
  - exists 6, d1; vm_compute in E; injection E as <-; eexists; split; vm_compute; reflexivity.
  - apply S; exists (repeat 1 33), [2]; split; [|left; cbn; lia].
    exists (putU32 0 ++ putU16 algECDSA ++ putU16 algSHA256), []; repeat split.
Defined.

Lemma info_reads_properties_witness :
  ReadInfo (T := list (list Z)) (fun m => map_to_list m)
    (MkDevice [frame tagNoSessions 0 (0 :: putU32 6 ++ putU32 2 ++ flat_map property_entry [(0x105, 0x53544D20); (0x10B, 3)] ++ [])] 0) =
  (Ret (MkInfo (str "STM ") [] [] (3 * 2 ^ 32) 0), MkDevice [] 0).
Proof.
  rewrite (info_reads_properties (T := list (list Z))
    (MkDevice [frame tagNoSessions 0 (0 :: putU32 6 ++ putU32 2 ++ flat_map property_entry [(0x105, 0x53544D20); (0x10B, 3)] ++ [])] 0)
    (fun m => map_to_list m) 0 [(0x105, 0x53544D20); (0x10B, 3)] [] []).
  - reflexivity.
  - intros m; reflexivity.
  - apply (bool_decide_unpack _); vm_compute; reflexivity.
  - repeat constructor; unfold is_u32; cbn; lia.
  - unfold is_byte; lia.
  - cbn; lia.
  - reflexivity.
Defined.
