(* ===== verification/Attest.v ===== *)
(** * Attest: finding the hardware root of trust

    The transports of internal/tpm2 for Linux and Windows, internal/hwkey on top of it, and package attest:
    its probes on Linux, Windows, Darwin and elsewhere, and the shortcut [Available]. *)

From Stdlib Require Import String ZArith Lia List Bool.
From stdpp Require Import base option list gmap.
From S2P Require Import Prelude Slices GoText TpmWire Tpm2.
Import ListNotations.
Open Scope Z_scope.

(** ** The device file *)

(** The calls on a file descriptor: [None] is an errno. *)
Class Kernel (T : Type) : Type := {
  sys_write : T -> list Z -> option nat * T;
  sys_read : T -> nat -> option (list Z) * T;
  sys_close : T -> option unit * T;
}.

Definition dev_submit {T} {KT : Kernel T} (t : T) (cmd : list Z) : option (list Z) * T :=
  let '(w, t) := sys_write t cmd in
  match w with
  | None => (None, t)
  | Some n =>
      if negb (n =? length cmd)%nat then (None, t)
      else
        let '(r, t) := sys_read t 4096 in
        match r with
        | None => (None, t)
        | Some buf => if (length buf <? 10)%nat then (None, t) else (Some buf, t)
        end
  end.

#[export] Instance devTransport {T} {KT : Kernel T} : Transport T := {
  submit := dev_submit;
  transport_close t := sys_close t;
}.

Definition linuxRoutes : list (list Z) := [str "/dev/tpmrm0"; str "/dev/tpm0"].

(** What the file system answers: whether a path exists, what opening it for reading and
    writing gives, and the contents of files. *)
Record os (T : Type) : Type := MkOs {
  stat : list Z -> bool;
  open_rw : list Z -> option T;
  read_file : list Z -> option (list Z);
}.
Arguments stat {T} _ _.
Arguments open_rw {T} _ _.
Arguments read_file {T} _ _.

Fixpoint first_open {T} (o : os T) (routes : list (list Z)) : option T :=
  match routes with
  | [] => None
  | route :: routes => match open_rw o route with Some t => Some t | None => first_open o routes end
  end.
Definition openTransport {T} (o : os T) : option T := first_open o linuxRoutes.

(** ** TPM Base Services

    The transport on Windows.  A TBS call answers a TBS_RESULT, zero for success; a submitted
    command is answered within the 4096 bytes of the buffer handed over. *)
Class Tbs (T : Type) : Type := {
  Tbsip_Submit_Command : Z -> list Z -> T -> Z * list Z * T;
  Tbsip_Context_Close : Z -> T -> T;
}.

Record tbsTransport (T : Type) : Type := MkTbsTransport { ctx : Z; services : T }.
Arguments MkTbsTransport {T} _ _.
Arguments ctx {T} _.
Arguments services {T} _.

(** [dll] says whether tbs.dll has Tbsi_Context_Create, [created] what that answers: the
    result and the context. *)
Definition openTransport_windows {T} (dll : bool) (created : Z * Z) (services : T) : option (tbsTransport T) :=
  if negb dll then None
  else
    let '(r, ctx) := created in
    if negb (r =? 0) then None else Some (MkTbsTransport ctx services).

Definition tbs_submit {T} {TS : Tbs T} (t : tbsTransport T) (cmd : list Z) : option (list Z) * tbsTransport T :=
  let '(r, resp, s) := Tbsip_Submit_Command (ctx t) cmd (services t) in
  let t := MkTbsTransport (ctx t) s in
  if negb (r =? 0) then (None, t)
  else if (length resp <? 10)%nat then (None, t)
  else (Some resp, t).

Definition tbs_close {T} {TS : Tbs T} (t : tbsTransport T) : option unit * tbsTransport T :=
  if ctx t =? 0 then (Some tt, t)
  else (Some tt, MkTbsTransport 0 (Tbsip_Context_Close (ctx t) (services t))).

#[export] Instance tbs_transport {T} {TS : Tbs T} : Transport (tbsTransport T) := { submit := tbs_submit; transport_close := tbs_close }.

(** ** internal/hwkey *)

Inductive hwkey_error : Type := ErrHwUnavailable | ErrTpm (e : tpm_error).

(** [Open], and [GenerateKey] of the provider. *)
Definition hwkey_Open {T} (t : option T) : outcome hwkey_error (Device T) :=
  match Tpm2.Open t with Ret d => Ret d | _ => Fail ErrHwUnavailable end.
Definition provider_GenerateKey {T} {TR : Transport T} (d : Device T) : outcome hwkey_error Key * Device T :=
  let '(r, d) := Tpm2.GenerateKey d in
  (match r with Ret k => Ret k | Fail e => Fail (ErrTpm e) | Panic => Panic end, d).

(** ** Capabilities *)

Inductive Mechanism : Type := MechanismNone | MechanismTPM20 | MechanismSecureEnclave.

Definition Mechanism_String (m : Mechanism) : list Z :=
  match m with
  | MechanismNone => str "none"
  | MechanismTPM20 => str "TPM 2.0"
  | MechanismSecureEnclave => str "Secure Enclave"
  end.

Record Capability : Type := MkCap { mechanism : Mechanism; route : list Z; vendor : list Z; version : list Z }.
Definition capability_zero : Capability := MkCap MechanismNone [] [] [].

Definition Capability_String (c : Capability) : list Z :=
  let mech := Mechanism_String (mechanism c) in
  let s := mech in
  let s := if negb (bytes_eqb (version c) []) && negb (bytes_eqb (version c) mech) then s ++ str " (" ++ version c ++ str ")" else s in
  let s := if negb (bytes_eqb (route c) []) && negb (bytes_eqb (route c) mech) then s ++ str " via " ++ route c else s in
  if negb (bytes_eqb (vendor c) []) then s ++ str " [" ++ vendor c ++ str "]" else s.

Inductive probe_error : Type := ErrUnavailable | ErrNotAccessible (route : list Z).

Section Probe.
Context {T : Type} {TR : Transport T} (visit : gmap Z Z -> list (Z * Z)).

(** [enrichFromTPM]; [tpm] is what opening the TPM's transport gives. *)
Definition enrichFromTPM (tpm : option T) (c : Capability) : Capability :=
  match Tpm2.Open tpm with
  | Ret dev =>
      match fst (ReadInfo visit dev) with
      | Ret info =>
          let c := if negb (bytes_eqb (Manufacturer info) []) then MkCap (mechanism c) (route c) (Manufacturer info) (version c) else c in
          if negb (bytes_eqb (Family info) []) then MkCap (mechanism c) (route c) (vendor c) (str "TPM " ++ Family info) else c
      | _ => c
      end
  | _ => c
  end.

(** *** Linux *)

Definition linuxTPMRoutes : list (list Z) := [str "/dev/tpmrm0"; str "/dev/tpm0"].

Definition linuxTPMVersion (o : os T) : list Z :=
  match read_file o (str "/sys/class/tpm/tpm0/tpm_version_major") with
  | None => []
  | Some b =>
      if bytes_eqb (TrimSpace b) (str "2") then str "TPM 2.0"
      else if bytes_eqb (TrimSpace b) (str "1") then str "TPM 1.2" else []
  end.

Fixpoint first_text (o : os T) (paths : list (list Z)) : list Z :=
  match paths with
  | [] => []
  | p :: paths =>
      match read_file o p with
      | Some b => let s := TrimSpace b in if negb (bytes_eqb s []) then s else first_text o paths
      | None => first_text o paths
      end
  end.
Definition linuxTPMVendor (o : os T) : list Z :=
  first_text o [str "/sys/class/tpm/tpm0/device/description"; str "/sys/class/tpm/tpm0/device/caps"].

(** The loop of [probe]: the capability found and the error. *)
Fixpoint probe_routes (o : os T) (routes : list (list Z)) : Capability * option probe_error :=
  match routes with
  | [] => (capability_zero, Some ErrUnavailable)
  | r :: routes =>
      if negb (stat o r) then probe_routes o routes
      else
        match open_rw o r with
        | None => (MkCap MechanismTPM20 r [] (linuxTPMVersion o), Some (ErrNotAccessible r))
        | Some _ => (enrichFromTPM (openTransport o) (MkCap MechanismTPM20 r (linuxTPMVendor o) (linuxTPMVersion o)), None)
        end
  end.
Definition probe_linux (o : os T) : Capability * option probe_error := probe_routes o linuxTPMRoutes.

Definition available_linux (o : os T) : bool :=
  existsb (fun r => stat o r && match open_rw o r with Some _ => true | None => false end) linuxTPMRoutes.

(** *** Windows, Darwin and the others *)

(** [tbs] is what TPM Base Services report: the version, or no usable device. *)
Definition probe_windows (tbs : option Z) (tpm : option T) : Capability * option probe_error :=
  match tbs with
  | None => (capability_zero, Some ErrUnavailable)
  | Some v =>
      if negb (v =? 2) then (capability_zero, Some ErrUnavailable)
      else (enrichFromTPM tpm (MkCap MechanismTPM20 (str "TBS") [] (str "TPM 2.0")), None)
  end.

(** [arm64] is the value of hw.optional.arm64, if the sysctl exists. *)
Definition probe_darwin (arm64 : option Z) : Capability * option probe_error :=
  match arm64 with
  | Some v =>
      if v =? 1 then (MkCap MechanismSecureEnclave (str "Secure Enclave") (str "Apple") (str "Apple Silicon"), None)
      else (capability_zero, Some ErrUnavailable)
  | None => (capability_zero, Some ErrUnavailable)
  end.

Definition probe_stub : Capability * option probe_error := (capability_zero, Some ErrUnavailable).

(** [available] of every platform but Linux. *)
Definition available_by_probe (p : Capability * option probe_error) : bool := match snd p with None => true | Some _ => false end.

(** ** What the two questions answer *)

Definition present (o : os T) (r : list Z) : Prop := In r linuxTPMRoutes /\ stat o r = true.
Definition usable (o : os T) (r : list Z) : Prop := present o r /\ open_rw o r <> None.

Lemma enrich_keeps tpm c : mechanism (enrichFromTPM tpm c) = mechanism c /\ route (enrichFromTPM tpm c) = route c.
Proof.
  unfold enrichFromTPM; destruct (Tpm2.Open tpm) as [dev| |]; [|auto|auto].
  destruct (fst (ReadInfo visit dev)) as [info| |]; [|auto|auto]; cbv zeta; destruct (negb (bytes_eqb (Manufacturer info) [])); destruct (negb _); auto.
Qed.

Lemma available_iff o : available_linux o = true <-> exists r, usable o r.
Proof.
  unfold available_linux; rewrite existsb_exists; unfold usable, present; split.
  - intros (r & I & H); apply andb_true_iff in H as [S O]; exists r; split; [auto|]; destruct (open_rw o r); [discriminate|discriminate O].
  - intros (r & [I S] & O); exists r; split; [exact I|]; rewrite S; destruct (open_rw o r); [reflexivity|contradiction].
Qed.

Lemma probe_routes_ok o routes :
  match snd (probe_routes o routes) with
  | Some ErrUnavailable => forall r, In r routes -> stat o r = false
  | Some (ErrNotAccessible r) =>
      In r routes /\ stat o r = true /\ open_rw o r = None /\
      mechanism (fst (probe_routes o routes)) = MechanismTPM20 /\ route (fst (probe_routes o routes)) = r
  | None =>
      let c := fst (probe_routes o routes) in
      In (route c) routes /\ stat o (route c) = true /\ open_rw o (route c) <> None /\ mechanism c = MechanismTPM20
  end.
Proof.
  induction routes as [|r routes IH]; cbn [probe_routes]; [intros r []|]; destruct (stat o r) eqn:S; cbn [negb].
  - destruct (open_rw o r) as [t|] eqn:O; cbn [fst snd]; [|cbn [In mechanism route]; auto].
    destruct (enrich_keeps (openTransport o) (MkCap MechanismTPM20 r (linuxTPMVendor o) (linuxTPMVersion o))) as [-> ->].
    cbn [In mechanism route]; rewrite O; repeat split; auto; discriminate.
  - destruct (snd (probe_routes o routes)) as [[|r']|]; cbn [In].
    + intros r' [<-|I]; [exact S|apply IH; exact I].
    + destruct IH as (I & H); auto.
    + destruct IH as (I & H); auto.
Qed.

(** C40: The probe on Linux: it is unavailable exactly when no device file exists, and
    otherwise answers for the first one that does, with an error naming it when it cannot
    be opened and without one when it can; success always means a usable device, so
    Available agrees.  The converse fails: with an unreadable first device and a usable
    second one Available answers true while Probe returns an error. *)
Theorem attest_probe (o : os T) (other : T) :
  (snd (probe_linux o) = Some ErrUnavailable <-> forall r, ~ present o r) /\
  (forall r, snd (probe_linux o) = Some (ErrNotAccessible r) -> present o r /\ open_rw o r = None /\ mechanism (fst (probe_linux o)) = MechanismTPM20 /\ route (fst (probe_linux o)) = r) /\
  (snd (probe_linux o) = None -> usable o (route (fst (probe_linux o))) /\ mechanism (fst (probe_linux o)) = MechanismTPM20 /\ available_linux o = true) /\
  (let blocked := MkOs T (fun _ => true) (fun r => if bytes_eqb r (str "/dev/tpm0") then Some other else None) (fun _ => None) in
   available_linux blocked = true /\ snd (probe_linux blocked) = Some (ErrNotAccessible (str "/dev/tpmrm0"))).
Proof.
  pose proof (probe_routes_ok o linuxTPMRoutes) as P; fold (probe_linux o) in P; unfold present.
  split; [|split; [|split; [|split; reflexivity]]].
  - split; [intros E r [I S]; rewrite E in P; rewrite (P r I) in S; discriminate S|].
    intros N; destruct (snd (probe_linux o)) as [[|r]|]; [reflexivity|destruct P as (I & S & _); destruct (N r); auto|].
    destruct P as (I & S & _); destruct (N _ (conj I S)).
  - intros r E; rewrite E in P; destruct P as (I & S & O & M & R); auto.
  - intros E; rewrite E in P; destruct P as (I & S & O & M); assert (U : usable o (route (fst (probe_linux o)))) by (split; [split; assumption|exact O]).
    split; [exact U|split; [exact M|apply available_iff; eauto]].
Qed.
End Probe.

(** ** The transports carry the wire *)

Section Transports.
Context {T : Type} {DV : TpmDevice T}.

Lemma wire_answers (t : T) cmd : exists r t', submit t cmd = (Some r, t') /\ (10 <= length r)%nat.
Proof.
  cbn [submit wire]; destruct (parse_command cmd) as [c|]; [destruct (exec t c) as [r t']|]; (eexists _, _; split; [reflexivity|]).
  - unfold marshal, frame; rewrite length_buildCommand; lia.
  - vm_compute; lia.
Qed.

(** Services that hand a command to a device and its answer back are a wire to it: what the
    driver does on the wire it does through TBS. *)
Lemma tbs_is_wire {TS : Tbs T} (t : tbsTransport T) cmd :
  (forall c s, Tbsip_Submit_Command c cmd s = let '(r, s') := submit (Transport := wire) s cmd in (0, match r with Some b => b | None => [] end, s')) ->
  submit t cmd = let '(r, s') := submit (Transport := wire) (services t) cmd in (r, MkTbsTransport (ctx t) s').
Proof.
  intros Ht; destruct t as [c s]; cbn [submit tbs_transport]; unfold tbs_submit; cbn [ctx services]; rewrite Ht.
  destruct (wire_answers s cmd) as (r & s' & -> & L); cbn [Z.eqb negb]; destruct (Nat.ltb_spec (length r) 10); [lia|reflexivity].
Qed.

(** The context is closed once. *)
Lemma tbs_close_once {TS : Tbs T} (t : tbsTransport T) : tbs_close (snd (tbs_close t)) = (Some tt, snd (tbs_close t)).
Proof. unfold tbs_close; destruct (ctx t =? 0) eqn:E; cbn [snd ctx]; [rewrite E; reflexivity|reflexivity]. Qed.
End Transports.

#[local] Instance silent : Transport unit := { submit t _ := (None, t); transport_close t := (Some tt, t) }.

(** A machine with the raw device only. *)
Lemma attest_probe_witness :
  let o := MkOs unit (fun r => bytes_eqb r (str "/dev/tpm0")) (fun _ => Some tt) (fun _ => Some (str " 2 ")) in
  available_linux o = true /\ Capability_String (fst (probe_linux (fun m => map_to_list m) o)) = str "TPM 2.0 via /dev/tpm0 [2]".
Proof.
  intros o; destruct (attest_probe (fun m => map_to_list m) o tt) as (_ & _ & P & _).
  destruct P as (_ & _ & A); [vm_compute; reflexivity|]; split; [exact A|vm_compute; reflexivity].
Defined.
