(* ===== verification/Enclave.v ===== *)
(** * Enclave: keys in the Secure Enclave

    internal/secureenclave on a Mac: the C functions over Security.framework, with the Core
    Foundation objects and C strings they create and release, the Go methods on top of them,
    and the provider of internal/hwkey for Darwin.  The frameworks are a class. *)

From Stdlib Require Import String ZArith Lia List Bool.
From stdpp Require Import base option list gmap.
From S2P Require Import Prelude Slices GoText Asn1 TpmWire Tpm2 Attest Diviner.
Import ListNotations.
Open Scope Z_scope.
#[local] Open Scope option_scope.

(** ** The frameworks *)

(** The description of a CFError: none, one that does not fit the buffer made for it, a text. *)
Definition description : Type := option (option (list Z)).

(** What a "Create" or "Copy" function answers: an object, or NULL with the error it stores. *)
Inductive cf_answer (A : Type) : Type := Created (a : A) | Null (err : option description).
Arguments Created {A} _.
Arguments Null {A} _.

(** [H] is the state of the enclave, [R] what a key reference stands for; the external
    representation is that of the public key a private one has. *)
Class Security (H R : Type) : Type := {
  SecAccessControlCreateWithFlags : H -> cf_answer unit * H;
  SecKeyCreateRandomKey : H -> cf_answer R * H;
  SecKeyCopyPublicKey : R -> H -> bool;
  SecKeyCopyExternalRepresentation : R -> H -> cf_answer (list Z);
  SecKeyCreateSignature : R -> list Z -> H -> cf_answer (list Z) * H;
  SecKeyCreateWithData : list Z -> H -> cf_answer unit;
  SecKeyCopyKeyExchangeResult : R -> list Z -> H -> cf_answer (list Z) * H;
}.

Inductive cf_object (R : Type) : Type :=
| OPlain
| OKey (k : R)
| OPublic (k : R)
| OPeer (point : list Z)
| OData (b : list Z)
| OError (d : description).
Arguments OPlain {R}.
Arguments OKey {R} _.
Arguments OPublic {R} _.
Arguments OPeer {R} _.
Arguments OData {R} _.
Arguments OError {R} _.

(** The process: the objects it owns a reference to, the C strings it has to free. *)
Record process (H R : Type) : Type := MkProcess {
  objects : gmap nat (cf_object R);
  next_object : nat;
  cstrings : nat;
  framework : H;
}.
Arguments MkProcess {H R} _ _ _ _.
Arguments objects {H R} _.
Arguments next_object {H R} _.
Arguments cstrings {H R} _.
Arguments framework {H R} _.

Section Enclave.
Context {H R : Type} {SF : Security H R}.

(** *** Objects

    [None] is undefined behaviour: a release or use of what the process does not own. *)
Definition create (o : cf_object R) (p : process H R) : nat * process H R :=
  (next_object p, MkProcess (<[next_object p := o]> (objects p)) (S (next_object p)) (cstrings p) (framework p)).
Definition CFRelease (id : nat) (p : process H R) : option (process H R) :=
  match objects p !! id with
  | Some _ => Some (MkProcess (delete id (objects p)) (next_object p) (cstrings p) (framework p))
  | None => None
  end.
Definition release_err (e : option nat) (p : process H R) : option (process H R) := match e with Some id => CFRelease id p | None => Some p end.
Definition set_framework (h : H) (p : process H R) : process H R := MkProcess (objects p) (next_object p) (cstrings p) h.
Definition strdup (p : process H R) : process H R := MkProcess (objects p) (next_object p) (S (cstrings p)) (framework p).
Definition c_free (p : process H R) : option (process H R) :=
  match cstrings p with S n => Some (MkProcess (objects p) (next_object p) n (framework p)) | O => None end.

(** The result of a call with an error argument: the object or NULL, and [cfErr]. *)
Definition answer {A} (r : cf_answer A) (mk : A -> cf_object R) (p : process H R) : option nat * option nat * process H R :=
  match r with
  | Created a => let '(id, p) := create (mk a) p in (Some id, None, p)
  | Null None => (None, None, p)
  | Null (Some d) => let '(id, p) := create (OError d) p in (None, Some id, p)
  end.

(** *** The C functions *)

(** A C string of an error message is its bytes, or NULL. *)
Definition c_string : Type := option (list Z).

Definition sep_err (e : option nat) (p : process H R) : option (c_string * process H R) :=
  match e with
  | None => Some (None, p)
  | Some id =>
      match objects p !! id with
      | Some (OError None) => Some (Some (str "secure enclave: unknown error"), strdup p)
      | Some (OError (Some text)) =>
          let '(desc, p) := create OPlain p in
          let buf := match text with Some s => s | None => [] end in
          do* p := CFRelease desc (strdup p) in Some (Some buf, p)
      | _ => None
      end
  end.

(** [*errOut = sep_err(cfErr); if (cfErr) CFRelease(cfErr);] *)
Definition give_err (e : option nat) (p : process H R) : option (c_string * process H R) :=
  do* r := sep_err e p in let '(s, p) := r in do* p := release_err e p in Some (s, p).

Definition sep_generate (p : process H R) : option (option nat * c_string * process H R) :=
  let '(r, h) := SecAccessControlCreateWithFlags (framework p) in
  let '(access, cfErr, p) := answer r (fun _ => OPlain) (set_framework h p) in
  match access with
  | None => do* r := give_err cfErr p in let '(s, p) := r in Some (None, s, p)
  | Some access =>
      let '(privAttrs, p) := create OPlain p in
      let '(bitsNum, p) := create OPlain p in
      let '(attrs, p) := create OPlain p in
      let '(r, h) := SecKeyCreateRandomKey (framework p) in
      let '(key, cfErr, p) := answer r OKey (set_framework h p) in
      do* p := CFRelease attrs p in
      do* p := CFRelease bitsNum p in
      do* p := CFRelease privAttrs p in
      do* p := CFRelease access p in
      match key with
      | None => do* r := give_err cfErr p in let '(s, p) := r in Some (None, s, p)
      | Some key => Some (Some key, None, p)
      end
  end.

Definition key_of (ref : nat) (p : process H R) : option R := match objects p !! ref with Some (OKey k) => Some k | _ => None end.

(** The three functions below answer the bytes written on success, [rc == 0]. *)
Definition sep_public_point (key : nat) (p : process H R) : option (option (list Z) * c_string * process H R) :=
  do* k := key_of key p in
  if negb (SecKeyCopyPublicKey k (framework p)) then Some (None, Some (str "secure enclave: no public key"), strdup p)
  else
    let '(pub, p) := create (OPublic k) p in
    let r := SecKeyCopyExternalRepresentation k (framework p) in
    let '(data, cfErr, p) := answer r OData p in
    do* p := CFRelease pub p in
    match data, r with
    | Some data, Created b =>
        if negb (length b =? 65)%nat then
          do* p := CFRelease data p in Some (None, Some (str "secure enclave: unexpected public key length"), strdup p)
        else do* p := CFRelease data p in Some (Some (firstn 64 (skipn 1 b)), None, p)
    | _, _ => do* r := give_err cfErr p in let '(s, p) := r in Some (None, s, p)
    end.

(** The end of [sep_sign] and [sep_ecdh]: a buffer of [cap] bytes is fits_buffer. *)
Definition hand_over (what : list Z) (cap : nat) (r : cf_answer (list Z)) (obj cfErr : option nat) (p : process H R) :
  option (option (list Z) * c_string * process H R) :=
  match obj, r with
  | Some obj, Created b =>
      if (cap <? length b)%nat then do* p := CFRelease obj p in Some (None, Some what, strdup p)
      else do* p := CFRelease obj p in Some (Some b, None, p)
  | _, _ => do* r := give_err cfErr p in let '(s, p) := r in Some (None, s, p)
  end.

Definition sep_sign (key : nat) (digest : list Z) (cap : nat) (p : process H R) : option (option (list Z) * c_string * process H R) :=
  do* k := key_of key p in
  let '(d, p) := create (OData digest) p in
  let '(r, h) := SecKeyCreateSignature k digest (framework p) in
  let '(sig, cfErr, p) := answer r OData (set_framework h p) in
  do* p := CFRelease d p in
  hand_over (str "secure enclave: signature buffer too small") cap r sig cfErr p.

Definition sep_ecdh (key : nat) (peer65 : list Z) (cap : nat) (p : process H R) : option (option (list Z) * c_string * process H R) :=
  do* k := key_of key p in
  let '(peerData, p) := create (OData peer65) p in
  let '(pattrs, p) := create OPlain p in
  let r := SecKeyCreateWithData peer65 (framework p) in
  let '(peer, cfErr, p) := answer r (fun _ => OPeer peer65) p in
  do* p := CFRelease peerData p in
  do* p := CFRelease pattrs p in
  match peer with
  | None => do* r := give_err cfErr p in let '(s, p) := r in Some (None, s, p)
  | Some peer =>
      let '(params, p) := create OPlain p in
      let '(r, h) := SecKeyCopyKeyExchangeResult k peer65 (framework p) in
      let '(shared, cfErr, p) := answer r OData (set_framework h p) in
      do* p := CFRelease peer p in
      do* p := CFRelease params p in
      hand_over (str "secure enclave: ecdh buffer too small") cap r shared cfErr p
  end.

Definition sep_release (key : option nat) (p : process H R) : option (process H R) := release_err key p.

(** *** The Go methods *)

Inductive se_error : Type :=
| SeUnavailable
| SeDigestSize
| SeFailed (what : list Z) (msg : c_string)
| SeSignature (e : enclave_error).

Record se_key : Type := MkSeKey { ref : option nat }.

(** A Go string of a C string stops at the first zero byte. *)
Fixpoint GoString (s : list Z) : list Z := match s with [] => [] | c :: s => if c =? 0 then [] else c :: GoString s end.

(** [takeErr]: the message becomes a Go string and the C string is freed. *)
Definition takeErr (what : list Z) (cErr : c_string) (p : process H R) : option (se_error * process H R) :=
  match cErr with
  | None => Some (SeFailed what None, p)
  | Some msg => do* p := c_free p in Some (SeFailed what (Some (GoString msg)), p)
  end.

(** A Go call: its result, and the process afterwards. *)
Definition go (A : Type) : Type := process H R -> option (outcome se_error A * process H R).

Definition fail_with {A} (what : list Z) (cErr : c_string) : go A :=
  fun p => do* r := takeErr what cErr p in let '(e, p) := r in Some (Fail e, p).

Definition se_GenerateKey : go se_key := fun p =>
  do* r := sep_generate p in
  let '(key, cErr, p) := r in
  match key with None => fail_with (str "generate") cErr p | Some id => Some (Ret (MkSeKey (Some id)), p) end.

Definition se_Close (k : se_key) (p : process H R) : option (se_key * process H R) :=
  match ref k with
  | None => Some (k, p)
  | Some id => do* p := sep_release (Some id) p in Some (MkSeKey None, p)
  end.

Definition se_Available (p : process H R) : option (bool * process H R) :=
  do* r := se_GenerateKey p in
  let '(k, p) := r in
  match k with Ret k => do* r := se_Close k p in let '(_, p) := r in Some (true, p) | _ => Some (false, p) end.

Definition se_PublicPoint (k : se_key) : go (list Z) := fun p =>
  match ref k with
  | None => Some (Fail SeUnavailable, p)
  | Some id =>
      do* r := sep_public_point id p in
      let '(out, cErr, p) := r in
      match out with None => fail_with (str "public_point") cErr p | Some out => Some (Ret out, p) end
  end.

Definition se_Sign (k : se_key) (digest : list Z) : go (list Z) := fun p =>
  match ref k with
  | None => Some (Fail SeUnavailable, p)
  | Some id =>
      if negb (length digest =? 32)%nat then Some (Fail SeDigestSize, p)
      else
        do* r := sep_sign id digest 256 p in
        let '(out, cErr, p) := r in
        match out with
        | None => fail_with (str "sign") cErr p
        | Some out => Some (match derToRS out with Ret sig => Ret sig | Fail e => Fail (SeSignature e) | Panic => Panic end, p)
        end
  end.

Definition se_ECDH (k : se_key) (peerPoint : list Z) : go (list Z) := fun p =>
  match ref k with
  | None => Some (Fail SeUnavailable, p)
  | Some id =>
      do* r := sep_ecdh id (0x04 :: peerPoint) 32 p in
      let '(out, cErr, p) := r in
      match out with None => fail_with (str "ecdh") cErr p | Some out => Some (Ret out, p) end
  end.

(** internal/hwkey for Darwin: the provider, and [GenerateKey] of it. *)
Definition darwin_Open (p : process H R) : option (outcome hwkey_error unit * process H R) :=
  do* r := se_Available p in let '(a, p) := r in Some (if a then Ret tt else Fail ErrHwUnavailable, p).
Definition seProvider_GenerateKey : go se_key := se_GenerateKey.
End Enclave.

(** ** Every object is released once *)

Section Balance.
Context {H R : Type} {SF : Security H R}.

(** Identifiers are handed out in order. *)
Definition tidy (p : process H R) : Prop := forall id, (next_object p <= id)%nat -> objects p !! id = None.

Definition strs (s : c_string) : nat := match s with Some _ => 1 | None => 0 end.

(** From [p] to [p'] the objects became [m], [n] C strings were added and the enclave is in [h]. *)
Record turns (p : process H R) (m : gmap nat (cf_object R)) (n : nat) (h : H) (p' : process H R) : Prop := {
  tn_objects : objects p' = m;
  tn_strings : cstrings p' = (n + cstrings p)%nat;
  tn_next : (next_object p <= next_object p')%nat;
  tn_framework : framework p' = h;
}.

Lemma turns_tidy p n h p' : tidy p -> turns p (objects p) n h p' -> tidy p'.
Proof. intros T [E _ N _] id Hid; rewrite E; apply T; lia. Qed.

(** The error object of a refused call becomes a message and is gone. *)
Definition err_of (e : option nat) (p : process H R) : Prop := match e with Some id => exists d, objects p !! id = Some (OError d) | None => True end.
Definition without (e : option nat) (m : gmap nat (cf_object R)) : gmap nat (cf_object R) := match e with Some id => delete id m | None => m end.

Lemma give_err_spec e p : tidy p -> err_of e p -> exists s p', give_err e p = Some (s, p') /\ turns p (without e (objects p)) (strs s) (framework p) p'.
Proof.
  intros T He; destruct e as [id|]; [|exists None, p; split; [reflexivity|split; reflexivity || lia]].
  destruct He as [d L]; assert (N : id <> next_object p) by (intros ->; rewrite T in L; [discriminate|apply le_n]).
  unfold give_err, sep_err; rewrite L; destruct d as [text|]; cbn [obind].
  - unfold CFRelease, create, strdup; cbn [objects next_object]; rewrite lookup_insert_eq; cbn [obind release_err objects].
    unfold CFRelease; cbn [objects]; rewrite lookup_delete_ne, lookup_insert_ne, L by congruence; cbn [obind].
    eexists _, _; split; [reflexivity|]; constructor; cbn; [|reflexivity|lia|reflexivity].
    rewrite delete_insert_id; [reflexivity|apply T, le_n].
  - unfold release_err, CFRelease; cbn [strdup objects]; rewrite L; cbn [obind]; eexists _, _; split; [reflexivity|]; constructor; cbn; auto.
Qed.

Lemma turns_from (p p1 : process H R) m n h p' : turns p1 m n h p' -> m = objects p -> cstrings p1 = cstrings p -> (next_object p <= next_object p1)%nat ->
  turns p (objects p) n h p'.
Proof. intros [A B C D] <- Es En; constructor; auto; [rewrite B, Es; reflexivity|lia]. Qed.

Lemma CFRelease_some id (p : process H R) o : objects p !! id = Some o ->
  CFRelease id p = Some (MkProcess (delete id (objects p)) (next_object p) (cstrings p) (framework p)).
Proof. intros L; unfold CFRelease; rewrite L; reflexivity. Qed.
End Balance.

(** Runs a release whose object the map shows. *)
Ltac lookups := repeat (first [rewrite lookup_insert_eq | (rewrite lookup_insert_ne by lia) | (rewrite lookup_delete_ne by lia)]).
Ltac releases := repeat (match goal with |- context [CFRelease ?id ?p] =>
  erewrite (CFRelease_some id p) by (cbn [objects]; lookups; reflexivity); cbn [obind objects next_object cstrings framework] end).
(** Equality of maps that differ by insertions and deletions of fresh objects. *)
Ltac same_map T := apply map_eq; intros ?i; repeat (first [rewrite lookup_delete | rewrite lookup_insert | case_decide; subst; try lia]); try reflexivity;
  try (symmetry; apply T; cbn; lia); try (apply T; cbn; lia).

(** The next identifier of a process is unused. *)
Ltac tidied T := intros ?id ?Hid; cbn in *; lookups; apply T; cbn; lia.

(** Runs the creations of a function; and its end with the error of a refused call, which leaves
    the objects of [p0] as they were. *)
Ltac cf_run := unfold set_framework; cbn [answer create objects next_object cstrings framework fst snd]; unfold set_framework; cbn [objects next_object cstrings framework].
Ltac refuse T p0 := lazymatch goal with |- context [give_err ?e ?p1] =>
  let s := fresh "s" in let p' := fresh "p'" in let E := fresh "E" in let W := fresh "W" in
  destruct (give_err_spec e p1) as (s & p' & E & W);
  [tidied T|first [exact I|eexists; cbn [objects]; lookups; reflexivity]|];
  rewrite E; cbn [obind];
  apply (turns_from p0) in W; [|cbn [without objects]; same_map T|reflexivity|cbn; lia] end.

(** The same at the end of [sep_generate]. *)
Ltac refuse_key T p0 := refuse T p0; eexists _, _; split; [reflexivity|split; [eapply turns_tidy; eassumption|eassumption]].

Section Functions.
Context {H R : Type} {SF : Security H R}.

(** What [sep_generate] makes: a key, and the enclave afterwards. *)
Definition generated (h : H) : option R * H :=
  let '(r, h) := SecAccessControlCreateWithFlags h in
  match r with
  | Created _ => let '(r, h) := SecKeyCreateRandomKey h in (match r with Created k => Some k | Null _ => None end, h)
  | Null _ => (None, h)
  end.

Lemma sep_generate_ok (p : process H R) : tidy p -> let '(made, h) := generated (framework p) in
  match made with
  | Some k => exists id p', sep_generate p = Some (Some id, None, p') /\ tidy p' /\ objects p !! id = None /\ turns p (<[id := OKey k]> (objects p)) 0 h p'
  | None => exists s p', sep_generate p = Some (None, s, p') /\ tidy p' /\ turns p (objects p) (strs s) h p'
  end.
Proof.
  intros T; unfold sep_generate, generated; destruct (SecAccessControlCreateWithFlags (framework p)) as [[[]|[d|]] h1] eqn:EA; cf_run.
  - destruct (SecKeyCreateRandomKey h1) as [[k|[d|]] h2] eqn:EK; cf_run; releases.
    + eexists _, _; split; [reflexivity|split; [tidied T|split; [apply T; cbn; lia|constructor; cbn; [same_map T|reflexivity|lia|reflexivity]]]].
    + refuse_key T p.
    + refuse_key T p.
  - refuse_key T p.
  - refuse_key T p.
Qed.

(** The functions on a key leave the objects as they were, whatever the frameworks answer;
    [out] is what they write. *)
Definition reads (r : option (option (list Z) * c_string * process H R)) (p : process H R) (out : option (list Z)) (h : H) : Prop :=
  exists s p', r = Some (out, s, p') /\ turns p (objects p) (strs s) h p' /\ (out <> None -> s = None).

Ltac read_out T := eexists _, _; split; [reflexivity|split; [constructor; cbn; [same_map T|reflexivity|lia|reflexivity]|congruence]].
Ltac read_err := eexists _, _; split; [reflexivity|split; [eassumption|congruence]].

Lemma key_of_some id (p : process H R) k : objects p !! id = Some (OKey k) -> key_of id p = Some k.
Proof. intros L; unfold key_of; rewrite L; reflexivity. Qed.

Definition exported (k : R) (h : H) : option (list Z) :=
  if SecKeyCopyPublicKey k h then
    match SecKeyCopyExternalRepresentation k h with
    | Created b => if (length b =? 65)%nat then Some (firstn 64 (skipn 1 b)) else None
    | Null _ => None
    end
  else None.

Lemma sep_public_point_ok (p : process H R) id k : tidy p -> objects p !! id = Some (OKey k) ->
  reads (sep_public_point id p) p (exported k (framework p)) (framework p).
Proof.
  intros T L; unfold sep_public_point, exported; rewrite (key_of_some id p k L); cbn [obind].
  destruct (SecKeyCopyPublicKey k (framework p)); cbn [negb]; [|read_out T].
  cf_run; destruct (SecKeyCopyExternalRepresentation k (framework p)) as [b|[d|]]; cf_run; releases.
  - destruct (Nat.eqb_spec (length b) 65) as [E|E]; cbn [negb]; releases; read_out T.
  - refuse T p; read_err.
  - refuse T p; read_err.
Qed.

(** What fits the buffer. *)
Definition fits_buffer (cap : nat) (r : cf_answer (list Z)) : option (list Z) :=
  match r with Created b => if (cap <? length b)%nat then None else Some b | Null _ => None end.

Lemma sep_sign_ok (p : process H R) id k digest cap : tidy p -> objects p !! id = Some (OKey k) ->
  let '(r, h) := SecKeyCreateSignature k digest (framework p) in reads (sep_sign id digest cap p) p (fits_buffer cap r) h.
Proof.
  intros T L; unfold sep_sign; rewrite (key_of_some id p k L); cbn [obind]; cf_run.
  destruct (SecKeyCreateSignature k digest (framework p)) as [[b|[d|]] h]; cf_run; releases; unfold hand_over; cbn [fits_buffer].
  - destruct (cap <? length b)%nat; releases; read_out T.
  - refuse T p; read_err.
  - refuse T p; read_err.
Qed.

Definition agreed (k : R) (peer65 : list Z) (h : H) : cf_answer (list Z) * H :=
  match SecKeyCreateWithData peer65 h with Created _ => SecKeyCopyKeyExchangeResult k peer65 h | Null e => (Null e, h) end.

Lemma sep_ecdh_ok (p : process H R) id k peer65 cap : tidy p -> objects p !! id = Some (OKey k) ->
  let '(r, h) := agreed k peer65 (framework p) in reads (sep_ecdh id peer65 cap p) p (fits_buffer cap r) h.
Proof.
  intros T L; unfold sep_ecdh, agreed; rewrite (key_of_some id p k L); cbn [obind]; cf_run.
  destruct (SecKeyCreateWithData peer65 (framework p)) as [[]|[d|]]; cf_run; releases; cbn [fits_buffer].
  - destruct (SecKeyCopyKeyExchangeResult k peer65 (framework p)) as [[b|[d|]] h]; cf_run; releases; unfold hand_over; cbn [fits_buffer].
    + destruct (cap <? length b)%nat; releases; read_out T.
    + refuse T p; read_err.
    + refuse T p; read_err.
  - refuse T p; read_err.
  - refuse T p; read_err.
Qed.

(** *** The Go methods *)

(** The result of a call of which the frameworks answered [out]. *)
Definition said {A B} (what : list Z) (out : option A) (f : A -> outcome se_error B) (r : outcome se_error B) : Prop :=
  match out with Some a => r = f a | None => exists msg, r = Fail (SeFailed what msg) end.

(** A call that leaves the objects and C strings as they were: [out] is its result. *)
Definition calls {A} (r : option (outcome se_error A * process H R)) (p : process H R) (what : list Z) (out : option A) (h : H) : Prop :=
  exists res p', r = Some (res, p') /\ turns p (objects p) 0 h p' /\ said what out Ret res.

Lemma fail_with_ok {A} what s (p : process H R) m h p' : turns p m (strs s) h p' ->
  exists p'', fail_with (A := A) what s p' = Some (Fail (SeFailed what (option_map GoString s)), p'') /\ turns p m 0 h p''.
Proof.
  intros [Eo Es En Ef]; unfold fail_with, takeErr, c_free; destruct s as [msg|]; cbn [strs] in Es; cbn [obind].
  - rewrite Es; cbn [Nat.add obind]; eexists; split; [reflexivity|constructor; cbn; auto].
  - exists p'; split; [reflexivity|constructor; auto].
Qed.

Lemma reads_call (r : option (option (list Z) * c_string * process H R)) (p : process H R) what out h : reads r p out h ->
  calls (do* x := r in let '(out, cErr, p) := x in match out with None => fail_with what cErr p | Some out => Some (Ret out, p) end) p what out h.
Proof.
  intros (s & p' & -> & W & N); cbn [obind]; destruct out as [b|].
  - rewrite (N ltac:(discriminate)) in W; exists (Ret b), p'; split; [reflexivity|split; [exact W|reflexivity]].
  - destruct (fail_with_ok (A := list Z) what s p _ h p' W) as (p'' & E & W'); exists (Fail (SeFailed what (option_map GoString s))), p''; split; [exact E|split; [exact W'|eexists; reflexivity]].
Qed.

Lemma se_PublicPoint_ok (p : process H R) id k : tidy p -> objects p !! id = Some (OKey k) ->
  calls (se_PublicPoint (MkSeKey (Some id)) p) p (str "public_point") (exported k (framework p)) (framework p).
Proof. intros T L; apply reads_call, (sep_public_point_ok p id k T L). Qed.

Lemma se_ECDH_ok (p : process H R) id k peer : tidy p -> objects p !! id = Some (OKey k) ->
  let '(r, h) := agreed k (0x04 :: peer) (framework p) in calls (se_ECDH (MkSeKey (Some id)) peer p) p (str "ecdh") (fits_buffer 32 r) h.
Proof.
  intros T L; pose proof (sep_ecdh_ok p id k (0x04 :: peer) 32 T L) as S; destruct (agreed k _ _) as [r h]; apply reads_call, S.
Qed.

Definition converted (der : list Z) : outcome se_error (list Z) :=
  match derToRS der with Ret sig => Ret sig | Fail e => Fail (SeSignature e) | Panic => Panic end.

Lemma se_Sign_ok (p : process H R) id k digest : tidy p -> objects p !! id = Some (OKey k) -> length digest = 32%nat ->
  let '(r, h) := SecKeyCreateSignature k digest (framework p) in
  exists res p', se_Sign (MkSeKey (Some id)) digest p = Some (res, p') /\ turns p (objects p) 0 h p' /\ said (str "sign") (fits_buffer 256 r) converted res.
Proof.
  intros T L Hl; pose proof (sep_sign_ok p id k digest 256 T L) as S; destruct (SecKeyCreateSignature k digest (framework p)) as [r h].
  unfold se_Sign; cbn [ref]; rewrite Hl; cbn [negb Nat.eqb]; destruct S as (s & p' & -> & W & N); cbn [obind].
  destruct (fits_buffer 256 r) as [der|]; [rewrite (N ltac:(discriminate)) in W; eexists _, p'; split; [reflexivity|split; [exact W|reflexivity]]|].
  destruct (fail_with_ok (A := list Z) (str "sign") s p _ h p' W) as (p'' & E & W'); eexists _, p''; split; [exact E|split; [exact W'|eexists; reflexivity]].
Qed.

Lemma se_GenerateKey_ok (p : process H R) : tidy p -> let '(made, h) := generated (framework p) in
  match made with
  | Some k => exists id p', se_GenerateKey p = Some (Ret (MkSeKey (Some id)), p') /\ tidy p' /\ objects p !! id = None /\ turns p (<[id := OKey k]> (objects p)) 0 h p'
  | None => exists msg p', se_GenerateKey p = Some (Fail (SeFailed (str "generate") msg), p') /\ turns p (objects p) 0 h p'
  end.
Proof.
  intros T; pose proof (sep_generate_ok p T) as G; destruct (generated (framework p)) as [[k|] h]; unfold se_GenerateKey.
  - destruct G as (id & p' & -> & T' & N & W); cbn [obind]; exists id, p'; auto.
  - destruct G as (s & p' & -> & T' & W); cbn [obind]; destruct (fail_with_ok (A := se_key) (str "generate") s p _ h p' W) as (p'' & E & W'); eauto.
Qed.

Lemma se_Close_ok (p : process H R) id o : objects p !! id = Some o ->
  exists p', se_Close (MkSeKey (Some id)) p = Some (MkSeKey None, p') /\ turns p (delete id (objects p)) 0 (framework p) p' /\ (tidy p -> tidy p').
Proof.
  intros L; unfold se_Close, sep_release, release_err; cbn [ref]; rewrite (CFRelease_some id p o L); cbn [obind].
  eexists; split; [reflexivity|split; [constructor; cbn; auto|]]; intros T i Hi; cbn in *.
  destruct (decide (id = i)) as [->|N]; [apply lookup_delete_eq|rewrite lookup_delete_ne by exact N; apply T, Hi].
Qed.

(** [Available] makes a key and lets it go. *)
Lemma se_Available_ok (p : process H R) : tidy p -> let '(made, h) := generated (framework p) in
  exists p', se_Available p = Some (match made with Some _ => true | None => false end, p') /\ turns p (objects p) 0 h p'.
Proof.
  intros T; pose proof (se_GenerateKey_ok p T) as G; destruct (generated (framework p)) as [[k|] h]; unfold se_Available.
  - destruct G as (id & p1 & -> & T1 & N & [Eo Es En Ef]); cbn [obind].
    destruct (se_Close_ok p1 id (OKey k)) as (p2 & -> & [Eo2 Es2 En2 Ef2] & _); [rewrite Eo; apply lookup_insert_eq|]; cbn [obind].
    exists p2; split; [reflexivity|constructor; [rewrite Eo2, Eo; apply delete_insert_id, N|lia|lia|congruence]].
  - destruct G as (msg & p1 & -> & W); cbn [obind]; eauto.
Qed.
End Functions.

(** ** A process that uses the enclave *)

Section Run.
Context {H R : Type} {SF : Security H R}.

Inductive se_call : Type :=
| SGenerate
| SPublic (i : nat)
| SSign (i : nat) (digest : list Z)
| SECDH (i : nat) (peer : list Z)
| SClose (i : nat)
| SAvailable.

(** The keys the process was given, closed ones included, and the process. *)
Definition se_state : Type := list se_key * process H R.
Definition se_result : Type := outcome se_error (list Z).

Definition on_key (i : nat) (f : se_key -> go (H := H) (R := R) (list Z)) (st : se_state) : option (se_result * se_state) :=
  let '(keys, p) := st in
  do* k := keys !! i in do* r := f k p in let '(r, p) := r in Some (r, (keys, p)).

Definition se_step (st : se_state) (c : se_call) : option (se_result * se_state) :=
  let '(keys, p) := st in
  match c with
  | SGenerate =>
      do* r := seProvider_GenerateKey p in
      let '(r, p) := r in
      Some (match r with Ret k => (Ret [], (keys ++ [k], p)) | Fail e => (Fail e, (keys, p)) | Panic => (Panic, (keys, p)) end)
  | SPublic i => on_key i se_PublicPoint st
  | SSign i digest => on_key i (fun k => se_Sign k digest) st
  | SECDH i peer => on_key i (fun k => se_ECDH k peer) st
  | SClose i => do* k := keys !! i in do* r := se_Close k p in let '(k, p) := r in Some (Ret [], (<[i := k]> keys, p))
  | SAvailable => do* r := se_Available p in let '(b, p) := r in Some (Ret [if b : bool then 1 else 0], (keys, p))
  end.

(** A call names a key that was made. *)
Definition of_key (c : se_call) : option nat := match c with SPublic i | SSign i _ | SECDH i _ | SClose i => Some i | SGenerate | SAvailable => None end.
Definition in_range (c : se_call) (keys : list se_key) : Prop := match of_key c with Some i => (i < length keys)%nat | None => True end.

Definition se_start (h : H) : se_state := ([], MkProcess ∅ 0 0 h).
Inductive se_run : H -> list se_call -> list se_result -> se_state -> Prop :=
| se_init h : se_run h [] [] (se_start h)
| se_next h cs rs keys p c r st : se_run h cs rs (keys, p) -> in_range c keys -> se_step (keys, p) c = Some (r, st) -> se_run h (cs ++ [c]) (rs ++ [r]) st.

(** *** Without objects

    What a call answers by the frameworks alone; [ks] are the keys, [None] for a closed one. *)
Inductive se_spec (ks : list (option R)) (h : H) : se_call -> se_result -> list (option R) -> H -> Prop :=
| SpecGenerate k h' : generated h = (Some k, h') -> se_spec ks h SGenerate (Ret []) (ks ++ [Some k]) h'
| SpecRefused msg h' : generated h = (None, h') -> se_spec ks h SGenerate (Fail (SeFailed (str "generate") msg)) ks h'
| SpecPublic i k r : ks !! i = Some (Some k) -> said (str "public_point") (exported k h) Ret r -> se_spec ks h (SPublic i) r ks h
| SpecDigest i k digest : ks !! i = Some (Some k) -> length digest <> 32%nat -> se_spec ks h (SSign i digest) (Fail SeDigestSize) ks h
| SpecSign i k digest res h' r : ks !! i = Some (Some k) -> length digest = 32%nat -> SecKeyCreateSignature k digest h = (res, h') ->
    said (str "sign") (fits_buffer 256 res) converted r -> se_spec ks h (SSign i digest) r ks h'
| SpecECDH i k peer res h' r : ks !! i = Some (Some k) -> agreed k (0x04 :: peer) h = (res, h') ->
    said (str "ecdh") (fits_buffer 32 res) Ret r -> se_spec ks h (SECDH i peer) r ks h'
| SpecClosed c i : of_key c = Some i -> (forall j, c <> SClose j) -> ks !! i = Some None -> se_spec ks h c (Fail SeUnavailable) ks h
| SpecClose i k : ks !! i = Some k -> se_spec ks h (SClose i) (Ret []) (<[i := None]> ks) h
| SpecAvailable made h' : generated h = (made, h') -> se_spec ks h SAvailable (Ret [match made with Some _ => 1 | None => 0 end]) ks h'.

(** The process owns the keys it has not closed, and nothing else. *)
Record held (ks : list (option R)) (keys : list se_key) (p : process H R) : Prop := {
  hd_tidy : tidy p;
  hd_strings : cstrings p = 0%nat;
  hd_length : length ks = length keys;
  hd_keys : forall i key, keys !! i = Some key ->
    match ref key with Some id => exists k, ks !! i = Some (Some k) /\ objects p !! id = Some (OKey k) | None => ks !! i = Some None end;
  hd_one : forall i j id, keys !! i = Some (MkSeKey (Some id)) -> keys !! j = Some (MkSeKey (Some id)) -> i = j;
  hd_owned : forall id o, objects p !! id = Some o -> exists i, keys !! i = Some (MkSeKey (Some id));
}.

Lemma held_turns ks keys p h p' : held ks keys p -> turns p (objects p) 0 h p' -> held ks keys p'.
Proof.
  intros [T S L K O W] M; pose proof (turns_tidy _ _ _ _ T M) as T'; destruct M as [Eo Es _ _]; constructor; rewrite ?Eo; auto; lia.
Qed.

Lemma held_close ks keys p i id p' h : held ks keys p -> keys !! i = Some (MkSeKey (Some id)) -> turns p (delete id (objects p)) 0 h p' -> tidy p' ->
  held (<[i := None]> ks) (<[i := MkSeKey None]> keys) p'.
Proof.
  intros [T S L K O W] E [Eo Es _ _] T'; constructor; rewrite ?Eo; [exact T'|lia|rewrite !length_insert; exact L| | |].
  - intros j key; destruct (decide (i = j)) as [<-|N].
    + rewrite list_lookup_insert_eq by (eapply lookup_lt_Some; exact E); intros [= <-]; cbn [ref].
      apply list_lookup_insert_eq; rewrite L; eapply lookup_lt_Some; exact E.
    + rewrite !list_lookup_insert_ne by exact N; intros Ej; pose proof (K j key Ej) as Kj; destruct key as [[id'|]]; cbn [ref] in *; [|exact Kj].
      destruct Kj as (k & Ek & Lk); exists k; split; [exact Ek|rewrite lookup_delete_ne; [exact Lk|]]; intros <-; exact (N (O i j id E Ej)).
  - intros a b id'; rewrite !list_lookup_insert_Some; intros [(? & ? & _)|[Na Ea]] [(? & ? & _)|[Nb Eb]]; try discriminate; eauto.
  - intros id' o; rewrite lookup_delete_Some; intros [N Lo]; destruct (W id' o Lo) as [j Ej]; exists j.
    rewrite list_lookup_insert_ne; [exact Ej|intros <-; congruence].
Qed.

Lemma held_generate ks keys p id k p' h : held ks keys p -> objects p !! id = None -> turns p (<[id := OKey k]> (objects p)) 0 h p' -> tidy p' ->
  held (ks ++ [Some k]) (keys ++ [MkSeKey (Some id)]) p'.
Proof.
  intros [T S L K O W] F [Eo Es _ _] T'; assert (X : forall i, keys !! i <> Some (MkSeKey (Some id))).
  { intros i E; destruct (K i _ E) as (k' & _ & Lk); congruence. }
  constructor; rewrite ?Eo; [exact T'|lia|rewrite !length_app, L; reflexivity| | |].
  - intros i key Ei; apply lookup_snoc_Some in Ei as [[Hi Ei]|[-> <-]].
    + rewrite lookup_app_l by lia; pose proof (K i key Ei) as Ki; destruct key as [[id'|]]; cbn [ref] in *; [|exact Ki].
      destruct Ki as (k' & Ek & Lk); exists k'; split; [exact Ek|rewrite lookup_insert_ne; [exact Lk|congruence]].
    + cbn [ref]; exists k; split; [rewrite <- L; apply list_lookup_middle; reflexivity|apply lookup_insert_eq].
  - intros a b id' Ea Eb; apply lookup_snoc_Some in Ea as [[Ha Ea]|[-> Ea]], Eb as [[Hb Eb]|[-> Eb]]; eauto; congruence.
  - intros id' o; rewrite lookup_insert_Some; intros [[<- _]|[N Lo]]; [exists (length keys); apply list_lookup_middle; reflexivity|].
    destruct (W id' o Lo) as [i Ei]; exists i; rewrite lookup_app_l by (eapply lookup_lt_Some; exact Ei); exact Ei.
Qed.

(** A call on the key [i]: an open one of the process, or a closed one. *)
Lemma held_key ks keys p i : held ks keys p -> (i < length keys)%nat ->
  (exists id k, keys !! i = Some (MkSeKey (Some id)) /\ ks !! i = Some (Some k) /\ objects p !! id = Some (OKey k)) \/
  (keys !! i = Some (MkSeKey None) /\ ks !! i = Some None).
Proof.
  intros Hd Hi; destruct (lookup_lt_is_Some_2 keys i Hi) as [[[id|]] E]; pose proof (hd_keys _ _ _ Hd i _ E) as X; cbn [ref] in X; [left|right]; auto.
  destruct X as (k & X); eauto.
Qed.

(** Ends a case of [step_ok]: the equation of the step, the state it leaves, its specification. *)
Ltac stepped Hd W := eexists _, _, _, _; split; [reflexivity|split; [first [exact Hd|exact (held_turns _ _ _ _ _ Hd W)]|]].

Lemma key_step_ok ks keys p c i : held ks keys p -> of_key c = Some i -> (i < length keys)%nat ->
  exists r ks' keys' p', se_step (keys, p) c = Some (r, (keys', p')) /\ held ks' keys' p' /\ se_spec ks (framework p) c r ks' (framework p').
Proof.
  intros Hd Hc Hi; pose proof (hd_tidy _ _ _ Hd) as T; destruct (held_key ks keys p i Hd Hi) as [(id & k & E & Ek & L)|[E Ek]].
  - destruct c as [|j|j digest|j peer|j|]; try discriminate; injection Hc as ->; cbn [se_step]; unfold on_key; rewrite E; cbn [obind].
    + destruct (se_PublicPoint_ok p id k T L) as (r & p' & -> & W & C); cbn [obind]; stepped Hd W; rewrite (tn_framework _ _ _ _ _ W); econstructor; eassumption.
    + destruct (Nat.eq_dec (length digest) 32%nat) as [Hl|Hl].
      * pose proof (se_Sign_ok p id k digest T L Hl) as S; destruct (SecKeyCreateSignature k digest (framework p)) as [res h] eqn:Er.
        destruct S as (r & p' & -> & W & C); cbn [obind]; stepped Hd W; rewrite (tn_framework _ _ _ _ _ W); econstructor; eassumption.
      * unfold se_Sign; cbn [ref]; rewrite (proj2 (Nat.eqb_neq _ _) Hl); cbn [negb obind]; stepped Hd Hd; econstructor; eassumption.
    + pose proof (se_ECDH_ok p id k peer T L) as S; destruct (agreed k (0x04 :: peer) (framework p)) as [res h] eqn:Er.
      destruct S as (r & p' & -> & W & C); cbn [obind]; stepped Hd W; rewrite (tn_framework _ _ _ _ _ W); econstructor; eassumption.
    + destruct (se_Close_ok p id (OKey k) L) as (p' & -> & W & T'); cbn [obind]; eexists _, _, _, _; split; [reflexivity|].
      split; [eapply held_close; eauto|rewrite (tn_framework _ _ _ _ _ W); econstructor; eassumption].
  - destruct c as [|j|j digest|j peer|j|]; try discriminate; injection Hc as ->; cbn [se_step]; unfold on_key; rewrite E; cbn [obind].
    1-3: cbn [se_PublicPoint se_Sign se_ECDH ref obind]; stepped Hd Hd; eapply SpecClosed; [reflexivity|discriminate|exact Ek].
    cbn [se_Close ref obind]; rewrite list_insert_id by exact E; eexists _, _, _, _; split; [reflexivity|split; [exact Hd|]].
    rewrite <- (list_insert_id ks i None Ek) at 2; econstructor; exact Ek.
Qed.

Lemma step_ok ks keys p c : held ks keys p -> in_range c keys ->
  exists r ks' keys' p', se_step (keys, p) c = Some (r, (keys', p')) /\ held ks' keys' p' /\ se_spec ks (framework p) c r ks' (framework p').
Proof.
  intros Hd Hi; pose proof (hd_tidy _ _ _ Hd) as T; unfold in_range in Hi; destruct (of_key c) as [i|] eqn:Ec; [exact (key_step_ok ks keys p c i Hd Ec Hi)|].
  destruct c; try discriminate; cbn [se_step]; unfold seProvider_GenerateKey.
  - pose proof (se_GenerateKey_ok p T) as G; destruct (generated (framework p)) as [[k|] h] eqn:Eg.
    + destruct G as (id & p' & -> & T' & N & W); cbn [obind]; eexists _, _, _, _; split; [reflexivity|].
      split; [eapply held_generate; eauto|rewrite (tn_framework _ _ _ _ _ W); econstructor; exact Eg].
    + destruct G as (msg & p' & -> & W); cbn [obind]; stepped Hd W; rewrite (tn_framework _ _ _ _ _ W); econstructor; exact Eg.
  - pose proof (se_Available_ok p T) as A; destruct (generated (framework p)) as [made h] eqn:Eg; destruct A as (p' & -> & W); cbn [obind].
    stepped Hd W; rewrite (tn_framework _ _ _ _ _ W).
    replace (if match made with Some _ => true | None => false end then 1 else 0) with (match made with Some _ => 1 | None => 0 end) by (destruct made; reflexivity).
    econstructor; exact Eg.
Qed.

(** What any call may answer, whatever the frameworks do. *)
Definition fits (c : se_call) (r : se_result) : Prop :=
  match c, r with
  | _, Panic => False
  | (SPublic _ | SSign _ _), Ret b => length b = 64%nat
  | SECDH _ _, Ret b => (length b <= 32)%nat
  | (SClose _ | SAvailable), Fail _ => False
  | _, _ => True
  end.

Lemma length_pad32 v b : pad32 v = Some b -> length b = 32%nat.
Proof.
  unfold pad32; destruct (Nat.ltb_spec 32 (length v)); [discriminate|]; intros [= <-]; rewrite length_app, repeat_length; lia.
Qed.

Lemma length_converted der sig : converted der = Ret sig -> length sig = 64%nat.
Proof.
  unfold converted, derToRS; destruct (_ || _); cbn [of_option]; [discriminate|].
  destruct (readInt _) as [[r l]| |]; cbn [bind]; try discriminate; destruct (readInt l) as [[s l']| |]; cbn [bind]; try discriminate.
  destruct (pad32 r) as [a|] eqn:Ea; [|discriminate]; destruct (pad32 s) as [b|] eqn:Eb; cbn [of_option]; [|discriminate].
  intros [= <-]; rewrite length_app, (length_pad32 r a Ea), (length_pad32 s b Eb); reflexivity.
Qed.

Lemma exported_length k h b : exported k h = Some b -> length b = 64%nat.
Proof.
  unfold exported; destruct (SecKeyCopyPublicKey k h); [|discriminate]; destruct (SecKeyCopyExternalRepresentation k h) as [d|]; [|discriminate].
  destruct (Nat.eqb_spec (length d) 65); [|discriminate]; intros [= <-]; rewrite length_firstn, length_skipn; lia.
Qed.

Lemma filled_inv cap r b : fits_buffer cap r = Some b -> r = Created b /\ (length b <= cap)%nat.
Proof. destruct r as [d|]; cbn [fits_buffer]; [|discriminate]; destruct (Nat.ltb_spec cap (length d)); [discriminate|]; intros [= <-]; auto. Qed.

Lemma spec_fits ks h c r ks' h' : se_spec ks h c r ks' h' -> fits c r.
Proof.
  intros [k h1 G|msg h1 G|i k r1 E S|i k d E N|i k d res h1 r1 E L G S|i k peer res h1 r1 E G S|c1 i O N E|i k E|made h1 G]; try exact I.
  - destruct (exported k h) as [b|] eqn:X; cbn [said] in S; [|destruct S as [msg ->]; exact I]; subst r1; exact (exported_length k h b X).
  - destruct (fits_buffer 256 res) as [b|]; cbn [said] in S; [|destruct S as [msg ->]; exact I]; subst r1; cbn [fits].
    destruct (converted b) as [sig|e|] eqn:X; [exact (length_converted b sig X)|exact I|].
    unfold converted in X; pose proof (derToRS_no_panic b); destruct (derToRS b); congruence.
  - destruct (fits_buffer 32 res) as [b|] eqn:X; cbn [said] in S; [|destruct S as [msg ->]; exact I]; subst r1; exact (proj2 (filled_inv _ _ _ X)).
  - destruct c1; try exact I; [exact (N _ eq_refl)|discriminate].
Qed.

Inductive spec_run : H -> list se_call -> list se_result -> list (option R) -> H -> Prop :=
| spec_init h : spec_run h [] [] [] h
| spec_next h cs rs ks h1 c r ks' h2 : spec_run h cs rs ks h1 -> se_spec ks h1 c r ks' h2 -> spec_run h (cs ++ [c]) (rs ++ [r]) ks' h2.

Lemma run_ok h cs rs st : se_run h cs rs st -> exists ks, held ks (fst st) (snd st) /\ spec_run h cs rs ks (framework (snd st)).
Proof.
  induction 1 as [h|h cs rs keys p c r st Hr IH Hi E].
  - exists []; split; [|constructor].
    constructor; [intros id _; apply lookup_empty|reflexivity|reflexivity| | |]; intros ? ?; cbn; rewrite ?lookup_nil, ?lookup_empty; discriminate.
  - destruct IH as (ks & Hd & Hs); destruct (step_ok ks keys p c Hd Hi) as (r' & ks' & keys' & p' & E' & Hd' & S); rewrite E' in E; injection E as <- <-.
    exists ks'; split; [exact Hd'|exact (spec_next h cs rs ks _ c r' ks' _ Hs S)].
Qed.
End Run.

(** ** On an enclave that works *)

(** The documented behaviour: a key of the enclave has a point, its signatures are X9.62 DER
    and verify, and a key exchange with a point of the curve gives the 32 bytes of [x].  The
    enclave may refuse to make or to use a key at any time, as it does while the device is
    locked. *)
Class SecurityOk (H R : Type) {SF : Security H R} : Type := {
  key_point : R -> list Z;
  enclave_valid : R -> list Z -> Z -> Z -> Prop;
  enclave_shared : R -> list Z -> option Z;
  export_ok : forall k h, SecKeyCopyPublicKey k h = true /\ SecKeyCopyExternalRepresentation k h = Created (0x04 :: key_point k) /\ length (key_point k) = 64%nat;
  signature_ok : forall k digest h der h', length digest = 32%nat -> SecKeyCreateSignature k digest h = (Created der, h') ->
    exists r s, der = der_signature r s /\ 0 < r < 2 ^ 256 /\ 0 < s < 2 ^ 256 /\ enclave_valid k digest r s;
  exchange_ok : forall k peer h, length peer = 64%nat ->
    match enclave_shared k peer with
    | Some z => forall out h', SecKeyCopyKeyExchangeResult k (0x04 :: peer) h = (Created out, h') -> out = be_bytes 32 z
    | None => exists e, SecKeyCreateWithData (0x04 :: peer) h = Null e
    end;
}.

Section Store.
Context {H R : Type} {SF : Security H R} {OK : SecurityOk H R}.

(** A store of hardware keys as its user sees it; [None] is a key that was closed. *)
Inductive keys_step (ks : list (option R)) : se_call -> se_result -> list (option R) -> Prop :=
| KeysGenerate k : keys_step ks SGenerate (Ret []) (ks ++ [Some k])
| KeysNone msg : keys_step ks SGenerate (Fail (SeFailed (str "generate") msg)) ks
| KeysPublic i k : ks !! i = Some (Some k) -> keys_step ks (SPublic i) (Ret (key_point k)) ks
| KeysDigest i k digest : ks !! i = Some (Some k) -> length digest <> 32%nat -> keys_step ks (SSign i digest) (Fail SeDigestSize) ks
| KeysSign i k digest r s : ks !! i = Some (Some k) -> length digest = 32%nat -> enclave_valid k digest r s -> 0 < r < 2 ^ 256 -> 0 < s < 2 ^ 256 ->
    keys_step ks (SSign i digest) (Ret (be_bytes 32 r ++ be_bytes 32 s)) ks
| KeysNotSigned i k digest msg : ks !! i = Some (Some k) -> length digest = 32%nat -> keys_step ks (SSign i digest) (Fail (SeFailed (str "sign") msg)) ks
| KeysShared i k peer z : ks !! i = Some (Some k) -> enclave_shared k peer = Some z -> keys_step ks (SECDH i peer) (Ret (be_bytes 32 z)) ks
| KeysNotShared i k peer msg : ks !! i = Some (Some k) -> keys_step ks (SECDH i peer) (Fail (SeFailed (str "ecdh") msg)) ks
| KeysClosed c i : of_key c = Some i -> (forall j, c <> SClose j) -> ks !! i = Some None -> keys_step ks c (Fail SeUnavailable) ks
| KeysClose i k : ks !! i = Some k -> keys_step ks (SClose i) (Ret []) (<[i := None]> ks)
| KeysAvailable b : keys_step ks SAvailable (Ret [b]) ks.

Inductive keys_run : list se_call -> list se_result -> list (option R) -> Prop :=
| keys_init : keys_run [] [] []
| keys_next cs rs ks c r ks' : keys_run cs rs ks -> keys_step ks c r ks' -> keys_run (cs ++ [c]) (rs ++ [r]) ks'.

(** The peer of a key exchange is an array of 64 bytes. *)
Definition sized (c : se_call) : Prop := match c with SECDH _ peer => length peer = 64%nat | _ => True end.

Lemma exported_ok k h : exported k h = Some (key_point k).
Proof.
  destruct (export_ok k h) as (P & E & L); unfold exported; rewrite P, E; cbn [length skipn]; rewrite L; cbn [Nat.eqb].
  f_equal; rewrite <- L; apply firstn_all.
Qed.

Lemma spec_keys ks h c r ks' h' : sized c -> se_spec ks h c r ks' h' -> keys_step ks c r ks'.
Proof.
  intros Z0 St; revert Z0; destruct St as [k h1 G|msg h1 G|i k r1 E S|i k d E N|i k d res h1 r1 E L G S|i k peer res h1 r1 E G S|c1 i O N E|i k E|made h1 G]; intros Z0; try (econstructor; eassumption).
  - rewrite exported_ok in S; cbn [said] in S; subst r1; constructor; exact E.
  - destruct (fits_buffer 256 res) as [b|] eqn:X; cbn [said] in S; [|destruct S as [msg ->]; econstructor; eassumption]; subst r1.
    destruct (filled_inv _ _ _ X) as [-> _]; destruct (signature_ok k d h b h1 L G) as (x & y & -> & Hx & Hy & V).
    destruct (decode_written x y Hx Hy) as [B D]; unfold converted; rewrite (enclave_accepts _ _ B D); econstructor; eassumption.
  - destruct (fits_buffer 32 res) as [b|] eqn:X; cbn [said] in S; [|destruct S as [msg ->]; econstructor; eassumption]; subst r1.
    destruct (filled_inv _ _ _ X) as [-> _]; unfold agreed in G; pose proof (exchange_ok k peer h Z0) as W; destruct (enclave_shared k peer) as [z|] eqn:Ez.
    + destruct (SecKeyCreateWithData (0x04 :: peer) h); [|discriminate]; rewrite (W b h1 G); econstructor; eassumption.
    + destruct W as [e We]; rewrite We in G; discriminate.
Qed.

Lemma spec_run_keys h cs rs ks h' : spec_run h cs rs ks h' -> Forall sized cs -> keys_run cs rs ks.
Proof.
  induction 1 as [h|h cs rs ks h1 c r ks' h2 Hr IH S]; intros F; [constructor|].
  apply Forall_app in F as [F1 F2]; apply Forall_inv in F2; econstructor; [exact (IH F1)|exact (spec_keys _ _ _ _ _ _ F2 S)].
Qed.
End Store.

Lemma spec_run_fits {H R} {SF : Security H R} (h : H) cs rs (ks : list (option R)) h' : spec_run h cs rs ks h' -> Forall2 fits cs rs.
Proof. induction 1; [constructor|apply Forall2_app; [assumption|repeat constructor; eapply spec_fits; eassumption]]. Qed.

(** *** Runs by computation *)

Section Calls.
Context {H R : Type} {SF : Security H R}.

Definition in_rangeb (c : se_call) (keys : list se_key) : bool := match of_key c with Some i => (i <? length keys)%nat | None => true end.
Fixpoint se_calls (st : se_state) (cs : list se_call) : option (list se_result * se_state (H := H) (R := R)) :=
  match cs with
  | [] => Some ([], st)
  | c :: cs =>
      if in_rangeb c (fst st) then
        do* x := se_step st c in let '(r, st) := x in
        do* y := se_calls st cs in let '(rs, st) := y in Some (r :: rs, st)
      else None
  end.

Lemma calls_run h cs : forall cs0 rs0 st rs, se_run h cs0 rs0 st -> option_map fst (se_calls st cs) = Some rs -> exists st', se_run h (cs0 ++ cs) (rs0 ++ rs) st'.
Proof.
  induction cs as [|c cs IH]; intros cs0 rs0 [keys p] rs Hr; cbn [se_calls fst].
  - intros [= <-]; rewrite !app_nil_r; eauto.
  - destruct (in_rangeb c keys) eqn:Ei; [|discriminate]; destruct (se_step (keys, p) c) as [[r st]|] eqn:E; [|discriminate]; cbn [obind].
    destruct (se_calls st cs) as [[rs' st']|] eqn:Ec; [|discriminate]; cbn [obind option_map fst]; intros [= <-].
    assert (Hi : in_range c keys) by (unfold in_range; unfold in_rangeb in Ei; destruct (of_key c); [apply Nat.ltb_lt, Ei|exact I]).
    destruct (IH (cs0 ++ [c]) (rs0 ++ [r]) st rs' (se_next h cs0 rs0 keys p c r st Hr Hi E)) as [st'' W]; [rewrite Ec; reflexivity|].
    rewrite <- !app_assoc in W; eauto.
Qed.
End Calls.

(** An enclave of numbers: a key is its number, and the fourth is refused. *)
#[local] Instance toy_security : Security nat nat := {
  SecAccessControlCreateWithFlags h := (Created tt, h);
  SecKeyCreateRandomKey h := if (3 <=? h)%nat then (Null (Some (Some (Some (str "locked")))), h) else (Created h, S h);
  SecKeyCopyPublicKey _ _ := true;
  SecKeyCopyExternalRepresentation k _ := Created (0x04 :: repeat (Z.of_nat k) 64);
  SecKeyCreateSignature k digest h := (Created (der_signature (Z.of_nat (k mod 50) + 200) 7), h);
  SecKeyCreateWithData b h := if nth 1 b 0 =? 0 then Null (Some None) else Created tt;
  SecKeyCopyKeyExchangeResult k b h := (Created (be_bytes 32 (Z.of_nat k + nth 1 b 0)), h);
}.
#[local] Instance toy_security_ok : SecurityOk nat nat.
Proof.
  refine (Build_SecurityOk nat nat _ (fun k => repeat (Z.of_nat k) 64) (fun _ _ _ s => s = 7)
    (fun k peer => if nth 0 peer 0 =? 0 then None else Some (Z.of_nat k + nth 0 peer 0)) _ _ _).
  - intros k h; split; [reflexivity|split; [reflexivity|apply repeat_length]].
  - intros k digest h der h' _ [= <- <-]; exists (Z.of_nat (k mod 50) + 200), 7; pose proof (Nat.mod_upper_bound k 50 ltac:(discriminate)).
    split; [reflexivity|split; [|split; [|reflexivity]]]; split; try lia; apply Z.lt_trans with 300; lia.
  - intros k peer h _; destruct peer as [|b peer]; cbn [nth]; [eexists; reflexivity|].
    destruct (b =? 0) eqn:E; cbn; [rewrite E; eexists; reflexivity|intros out h' [= <- <-]; reflexivity].
Defined.

(** C15: Secure Enclave keys: whatever Security.framework answers, a process that called the Go methods
    any number of times owns exactly the references of the keys it has not closed and no C
    string (nothing was leaked, released twice or used after its release), every further call
    on a key it was given runs through, no call panicked or answered with a result of another size,
    and the answers are those of the frameworks without the objects in between.  On an enclave that keeps
    its documented promises they are the answers of a store of hardware keys: points, valid
    signatures as [r] and [s], shared secrets, and refusals for closed keys. *)
Theorem secure_enclave_keys {H R : Type} {SF : Security H R} (h : H) (cs : list se_call) (rs : list se_result) (keys : list se_key) (p : process H R) :
  se_run h cs rs (keys, p) ->
  exists ks, held ks keys p /\ spec_run h cs rs ks (framework p) /\ Forall2 fits cs rs /\
    (forall c, in_range c keys -> exists r st, se_step (keys, p) c = Some (r, st)) /\
    (forall OK : SecurityOk H R, Forall sized cs -> keys_run cs rs ks).
Proof.
  intros Hr; destruct (run_ok h cs rs _ Hr) as (ks & Hd & Hs); exists ks; split; [exact Hd|split; [exact Hs|split; [eapply spec_run_fits, Hs|split]]].
  - intros c Hc; destruct (step_ok ks keys p c Hd Hc) as (r & ks' & keys' & p' & E & _); eauto.
  - intros OK; exact (spec_run_keys h cs rs ks _ Hs).
Qed.

Lemma secure_enclave_keys_witness : exists st ks,
  se_run 0%nat [SAvailable; SGenerate; SGenerate; SPublic 1; SClose 0; SSign 1 (repeat 9 32); SSign 0 (repeat 9 32); SECDH 1 (repeat 3 64); SECDH 1 (repeat 0 64); SGenerate]
    [Ret [1]; Ret []; Ret []; Ret (repeat 2 64); Ret []; Ret (be_bytes 32 202 ++ be_bytes 32 7); Fail SeUnavailable; Ret (be_bytes 32 5);
     Fail (SeFailed (str "ecdh") (Some (str "secure enclave: unknown error"))); Fail (SeFailed (str "generate") (Some (str "locked")))] st /\
  held ks (fst st) (snd st) /\ exists rs, keys_run (OK := toy_security_ok) [SAvailable; SGenerate; SGenerate; SPublic 1; SClose 0; SSign 1 (repeat 9 32); SSign 0 (repeat 9 32);
    SECDH 1 (repeat 3 64); SECDH 1 (repeat 0 64); SGenerate] rs ks.
Proof.
  match goal with |- exists _ _, se_run _ ?cs ?rs _ /\ _ =>
    destruct (calls_run 0%nat cs [] [] (se_start 0%nat) rs (se_init 0%nat)) as [[keys p] Hr]; [vm_compute; reflexivity|] end.
  cbn [app] in Hr; destruct (secure_enclave_keys 0%nat _ _ keys p Hr) as (ks & Hd & _ & _ & _ & K).
  exists (keys, p), ks; split; [exact Hr|split; [exact Hd|]]; eexists; apply (K toy_security_ok); repeat constructor.
Defined.
