(* ===== verification/SysBits.v ===== *)
(** * Package internal/runtime/sys: bit counting

    [TrailingZeros64] and [OnesCount64] of [internal/runtime/sys/intrinsics.go], which the
    allocator's bitmaps are read with, and what they count. *)

From Stdlib Require Import ZArith Lia List Bool.
From S2P Require Import Prelude.
Import ListNotations.

(** ** Definitions *)

Definition deBruijn64tab : list Z :=
  [0; 1; 56; 2; 57; 49; 28; 3; 61; 58; 42; 50; 38; 29; 17; 4;
   62; 47; 59; 36; 45; 43; 51; 22; 53; 39; 33; 30; 24; 18; 12; 5;
   63; 55; 48; 27; 60; 41; 37; 16; 46; 35; 44; 21; 52; 32; 23; 11;
   54; 26; 40; 15; 34; 20; 31; 10; 25; 14; 19; 9; 13; 8; 7; 6].
Definition deBruijn64 : Z := 0x03f79d71b4ca8b09.

Definition TrailingZeros64 (x : Z) : Z :=
  if x =? 0 then 64
  else nth (Z.to_nat (Z.shiftr (u64 (Z.land x (u64 (- x)) * deBruijn64)) (64 - 6))) deBruijn64tab 0.

Definition m0 : Z := 0x5555555555555555.
Definition m1 : Z := 0x3333333333333333.
Definition m2 : Z := 0x0f0f0f0f0f0f0f0f.

Definition OnesCount64 (x : Z) : Z :=
  let x := u64 (Z.land (Z.shiftr x 1) m0 + Z.land x m0) in
  let x := u64 (Z.land (Z.shiftr x 2) m1 + Z.land x m1) in
  let x := Z.land (u64 (Z.shiftr x 4 + x)) m2 in
  let x := u64 (x + Z.shiftr x 8) in
  let x := u64 (x + Z.shiftr x 16) in
  let x := u64 (x + Z.shiftr x 32) in
  Z.land x (2 ^ 7 - 1).

(** ** Trailing zeros *)

(** A positive number is a power of two times an odd number. *)
Lemma odd_part x : 0 < x -> exists k y, 0 <= k /\ 0 <= y /\ x = 2 ^ k * (2 * y + 1).
Proof.
  destruct x as [|p|p]; intros H; try lia; clear H; induction p as [p _|p IH|].
  - exists 0, (Z.pos p); lia.
  - destruct IH as (k & y & Hk & Hy & E); exists (k + 1), y; split; [lia|split; [exact Hy|]].
    rewrite Z.pow_add_r, Pos2Z.inj_xO, E by lia; ring.
  - exists 0, 0; lia.
Qed.

Lemma land_neg_odd y : Z.land (2 * y + 1) (- (2 * y + 1)) = 1.
Proof.
  replace (- (2 * y + 1)) with (2 * Z.lnot y + 1) by (unfold Z.lnot; lia).
  apply Z.bits_inj'; intros n Hn; rewrite Z.land_spec.
  destruct (Z.eq_dec n 0) as [->|N]; [rewrite !Z.testbit_odd_0; reflexivity|].
  replace n with (Z.succ (n - 1)) by lia.
  rewrite !Z.testbit_odd_succ, Z.lnot_spec by lia.
  change 1 with (2 * 0 + 1); rewrite Z.testbit_odd_succ, Z.bits_0 by lia.
  apply andb_negb_r.
Qed.

(** The lowest set bit, isolated. *)
Lemma lowest_bit k y : 0 <= k -> 0 <= y -> is_u64 (2 ^ k * (2 * y + 1)) ->
  Z.land (2 ^ k * (2 * y + 1)) (u64 (- (2 ^ k * (2 * y + 1)))) = 2 ^ k.
Proof.
  intros Hk Hy Hx; set (x := 2 ^ k * (2 * y + 1)) in *.
  unfold u64; change W64 with (2 ^ 64); rewrite <- Z.land_ones, (Z.land_comm (- x)), Z.land_assoc by lia.
  rewrite Z.land_ones, Z.mod_small by (unword; lia).
  unfold x; rewrite Z.mul_comm, <- Z.mul_opp_l, <- !Z.shiftl_mul_pow2 by lia.
  rewrite <- Z.shiftl_land, land_neg_odd, Z.shiftl_1_l; reflexivity.
Qed.

Lemma pow_bits k y j : 0 <= k -> 0 <= j <= k -> Z.testbit (2 ^ k * (2 * y + 1)) j = (j =? k).
Proof.
  intros Hk Hj; rewrite Z.mul_comm, <- Z.shiftl_mul_pow2, Z.shiftl_spec by lia.
  destruct (Z.eqb_spec j k) as [->|N]; [rewrite Z.sub_diag; apply Z.testbit_odd_0|apply Z.testbit_neg_r; lia].
Qed.

Lemma deBruijn_table :
  forallb (fun k => nth (Z.to_nat (Z.shiftr (u64 (2 ^ Z.of_nat k * deBruijn64)) (64 - 6))) deBruijn64tab 0 =? Z.of_nat k)
    (seq 0 64) = true.
Proof. vm_compute; reflexivity. Qed.

(** The position of the lowest set bit. *)
Lemma TrailingZeros64_spec x : is_u64 x -> x <> 0 ->
  0 <= TrailingZeros64 x < 64 /\ Z.testbit x (TrailingZeros64 x) = true /\
  forall j, 0 <= j < TrailingZeros64 x -> Z.testbit x j = false.
Proof.
  intros Hx H0; destruct (odd_part x) as (k & y & Hk & Hy & ->); [unword; lia|].
  assert (K : k < 64).
  { destruct (Z.lt_ge_cases k 64) as [K|K]; [exact K|exfalso].
    pose proof (Z.pow_le_mono_r 2 64 k ltac:(lia) K); change (2 ^ 64) with W64 in *; unword; nia. }
  assert (E : TrailingZeros64 (2 ^ k * (2 * y + 1)) = k).
  { unfold TrailingZeros64; rewrite (proj2 (Z.eqb_neq _ _) H0), lowest_bit by assumption.
    pose proof (proj1 (forallb_forall _ _) deBruijn_table (Z.to_nat k) ltac:(apply in_seq; lia)) as T.
    cbv beta in T; rewrite Z2Nat.id in T by lia; apply Z.eqb_eq, T. }
  rewrite E; split; [lia|split; [rewrite pow_bits by lia; apply Z.eqb_refl|]].
  intros j Hj; rewrite pow_bits by lia; apply Z.eqb_neq; lia.
Qed.

Lemma TrailingZeros64_0 : TrailingZeros64 0 = 64.
Proof. reflexivity. Qed.

(** ** Counting ones *)

Definition pop8 (b : Z) : Z := Z.of_nat (length (filter (fun i => Z.testbit b (Z.of_nat i)) (seq 0 8))).

Lemma byte_high b n : is_byte b -> 8 <= n -> Z.testbit b n = false.
Proof.
  intros Hb Hn; destruct (Z.eq_dec b 0) as [->|]; [apply Z.bits_0|].
  apply Z.bits_above_log2; [unword; lia|apply Z.log2_lt_pow2; [unword; lia|]].
  apply Z.lt_le_trans with (2 ^ 8); [unword; lia|apply Z.pow_le_mono_r; lia].
Qed.

Lemma byte_cons_bits b x n : is_byte b -> 0 <= n ->
  Z.testbit (b + W8 * x) n = if n <? 8 then Z.testbit b n else Z.testbit x (n - 8).
Proof.
  intros Hb Hn; change W8 with (2 ^ 8).
  destruct (Z.ltb_spec n 8).
  - rewrite <- (Z.mod_pow2_bits_low (b + 2 ^ 8 * x) 8 n), Z.add_mod, (Z.mul_comm (2 ^ 8)), Z.mod_mul by lia.
    rewrite Z.add_0_r, Z.mod_mod, Z.mod_small by (unword; lia); reflexivity.
  - replace n with ((n - 8) + 8) at 1 by lia; rewrite <- Z.div_pow2_bits by lia.
    rewrite (Z.mul_comm (2 ^ 8)), Z.div_add, Z.div_small by (unword; lia); reflexivity.
Qed.

Lemma byte_land a c : is_byte a -> is_byte c -> is_byte (Z.land a c).
Proof.
  intros Ha Hc; unword; split; [apply Z.land_nonneg; lia|].
  change W8 with (2 ^ 8); apply Z.le_lt_trans with a; [|lia].
  apply Z.ldiff_le; [lia|]; apply Z.bits_inj'; intros n _; rewrite Z.ldiff_spec, Z.land_spec, Z.bits_0.
  destruct (Z.testbit a n), (Z.testbit c n); reflexivity.
Qed.

(** Bytes are independent of each other in a bitwise and. *)
Lemma land_bytewise a c x y : is_byte a -> is_byte c ->
  Z.land (a + W8 * x) (c + W8 * y) = Z.land a c + W8 * Z.land x y.
Proof.
  intros Ha Hc; apply Z.bits_inj'; intros n Hn; rewrite Z.land_spec, !byte_cons_bits by (auto using byte_land).
  destruct (n <? 8); rewrite Z.land_spec; reflexivity.
Qed.

(** *** The three steps inside the bytes *)

Definition half1 (b : Z) : Z := Z.land (Z.shiftr b 1) 0x55 + Z.land b 0x55.
Definition half2 (b : Z) : Z := Z.land (Z.shiftr b 2) 0x33 + Z.land b 0x33.
Definition half4 (b : Z) : Z := Z.land (Z.shiftr b 4 + b) 0x0f.

Definition byte_mask (m : Z) (n : nat) : Z := le_val (repeat m n).

Lemma shift_byte b x k : is_byte b -> 0 <= k <= 8 ->
  Z.shiftr (b + W8 * x) k = (Z.shiftr b k + 2 ^ (8 - k) * (x mod 2 ^ k)) + W8 * Z.shiftr x k.
Proof.
  intros Hb Hk; rewrite !Z.shiftr_div_pow2 by lia.
  pose proof (Z.pow_pos_nonneg 2 k ltac:(lia) ltac:(lia)) as P.
  assert (E : W8 = 2 ^ k * 2 ^ (8 - k)) by (rewrite <- Z.pow_add_r by lia; replace (k + (8 - k)) with 8 by lia; reflexivity).
  rewrite (Z.div_mod x (2 ^ k)) at 1 by lia; rewrite E at 1.
  replace (b + 2 ^ k * 2 ^ (8 - k) * (2 ^ k * (x / 2 ^ k) + x mod 2 ^ k))
    with (b + (2 ^ (8 - k) * (x mod 2 ^ k) + W8 * (x / 2 ^ k)) * 2 ^ k) by (rewrite E; ring).
  rewrite Z.div_add by lia; ring.
Qed.

Definition all_bytes (f : Z -> bool) : bool := forallb (fun n => f (Z.of_nat n)) (seq 0 256).

Lemma all_bytes_ok f b : all_bytes f = true -> is_byte b -> f b = true.
Proof.
  intros H Hb; pose proof (proj1 (forallb_forall _ _) H (Z.to_nat b) ltac:(apply in_seq; unword; lia)) as T.
  cbv beta in T; rewrite Z2Nat.id in T by (unword; lia); exact T.
Qed.

(** A masked shift does not see the bits that come from the next byte. *)
Lemma half_step m k f l :
  is_byte m -> 0 <= k <= 8 ->
  (forall b, f b = Z.land (Z.shiftr b k) m + Z.land b m) ->
  all_bytes (fun b => forallb (fun p => Z.land (Z.shiftr b k + 2 ^ (8 - k) * Z.of_nat p) m =? Z.land (Z.shiftr b k) m)
    (seq 0 (Z.to_nat (2 ^ k)))) = true ->
  bytes l -> Z.land (Z.shiftr (le_val l) k) (byte_mask m (length l)) + Z.land (le_val l) (byte_mask m (length l)) = le_val (map f l).
Proof.
  intros Hm Hk Hf T; induction 1 as [|b l Hb _ IH]; [rewrite Z.shiftr_0_l; reflexivity|].
  unfold byte_mask in *; cbn [le_val repeat length map]; rewrite shift_byte by assumption.
  pose proof (Z.mod_pos_bound (le_val l) (2 ^ k) ltac:(apply Z.pow_pos_nonneg; lia)) as M.
  assert (Q : is_byte (Z.shiftr b k + 2 ^ (8 - k) * (le_val l mod 2 ^ k))).
  { rewrite Z.shiftr_div_pow2 by lia.
    assert (E : 2 ^ k * 2 ^ (8 - k) = W8) by (rewrite <- Z.pow_add_r by lia; replace (k + (8 - k)) with 8 by lia; reflexivity).
    pose proof (Z.div_pos b (2 ^ k)); pose proof (Z.div_lt_upper_bound b (2 ^ k) (2 ^ (8 - k))).
    pose proof (Z.pow_pos_nonneg 2 (8 - k)); unword; nia. }
  rewrite !land_bytewise by assumption.
  pose proof (proj1 (forallb_forall _ _) (all_bytes_ok _ b T Hb) (Z.to_nat (le_val l mod 2 ^ k)) ltac:(apply in_seq; lia)) as E.
  cbv beta in E; rewrite Z2Nat.id in E by lia; apply Z.eqb_eq in E; rewrite E, <- IH, Hf; ring.
Qed.

(** After two steps the nibbles are counts of at most 4, so that the third does not carry. *)
Definition nibbles (b : Z) : Prop := is_byte b /\ b mod 16 <= 4 /\ b / 16 <= 4.

Lemma half2_nibbles b : is_byte b -> nibbles (half2 (half1 b)) /\ half4 (half2 (half1 b)) = pop8 b.
Proof.
  intros Hb.
  assert (T : all_bytes (fun b => let c := half2 (half1 b) in
    (0 <=? c) && (c <? W8) && (c mod 16 <=? 4) && (c / 16 <=? 4) && (half4 c =? pop8 b)) = true) by (vm_compute; reflexivity).
  apply all_bytes_ok with (b := b) in T; [|exact Hb]; cbv zeta in T.
  rewrite !andb_true_iff, !Z.leb_le, Z.ltb_lt, Z.eqb_eq in T; unfold nibbles; unword; tauto.
Qed.

Lemma half4_step l : Forall nibbles l ->
  Z.land (Z.shiftr (le_val l) 4 + le_val l) (byte_mask 0x0f (length l)) = le_val (map half4 l).
Proof.
  induction 1 as [|b l (Hb & Hlo & Hhi) Hl IH]; [reflexivity|].
  unfold byte_mask in *; cbn [le_val repeat length map]; rewrite shift_byte by (assumption || lia).
  set (q := le_val l mod 2 ^ 4) in *; change (2 ^ (8 - 4)) with 16.
  assert (Q : 0 <= q <= 4).
  { unfold q; destruct Hl as [|c l (Hc & Hlo' & _) _]; [cbn; lia|]; cbn [le_val].
    change (2 ^ 4) with 16; replace (c + W8 * le_val l) with (c + 16 * le_val l * 16) by lia.
    rewrite Z.mod_add by lia; pose proof (Z.mod_pos_bound c 16); lia. }
  assert (D : Z.shiftr b 4 = b / 16) by (apply Z.shiftr_div_pow2; lia).
  pose proof (Z.div_mod b 16 ltac:(lia)) as B; pose proof (Z.mod_pos_bound b 16 ltac:(lia)).
  assert (0 <= b / 16) by (apply Z.div_pos; unword; lia).
  replace (Z.shiftr b 4 + 16 * q + W8 * Z.shiftr (le_val l) 4 + (b + W8 * le_val l))
    with ((b / 16 + 16 * q + b) + W8 * (Z.shiftr (le_val l) 4 + le_val l)) by (rewrite D; ring).
  rewrite land_bytewise, IH by (unword; lia); f_equal; unfold half4; rewrite D.
  change 0x0f with (2 ^ 4 - 1); rewrite !land_mask by lia; change (2 ^ 4) with 16.
  replace (b / 16 + 16 * q + b) with (b / 16 + b + q * 16) by ring; apply Z.mod_add; lia.
Qed.

(** The last three additions sum eight bytes. *)
Definition gather (x : Z) : Z :=
  let x := u64 (x + Z.shiftr x 8) in
  let x := u64 (x + Z.shiftr x 16) in
  let x := u64 (x + Z.shiftr x 32) in
  Z.land x (2 ^ 7 - 1).

Lemma shiftr_bytes l k : bytes l -> Z.shiftr (le_val l) (8 * Z.of_nat k) = le_val (skipn k l).
Proof.
  intros H; revert l H; induction k as [|k IH]; intros l H; [apply Z.shiftr_0_r|].
  destruct H as [|b l Hb Hl]; [apply Z.shiftr_0_l|]; cbn [skipn].
  replace (8 * Z.of_nat (S k)) with (8 + 8 * Z.of_nat k) by lia; rewrite <- Z.shiftr_shiftr by lia.
  rewrite <- IH by exact Hl; f_equal; cbn [le_val]; rewrite Z.shiftr_div_pow2 by lia.
  change (2 ^ 8) with W8; rewrite Z.add_comm, Z.mul_comm, Z.div_add_l, Z.div_small by (unword; lia); lia.
Qed.

Lemma gather_ok l : length l = 8%nat -> Forall (fun b => 0 <= b <= 8) l -> gather (le_val l) = fold_right Z.add 0 l.
Proof.
  intros Hl H; do 8 (destruct l as [|? l]; [discriminate|]); destruct l; [|discriminate].
  rewrite ?Forall_cons_iff in H; destruct H as (A & B & C & D & E & F & G & I & _).
  unfold gather.
  rewrite (shiftr_bytes _ 1) by (repeat constructor; unword; lia); cbn [skipn].
  match goal with |- context [u64 (le_val ?a + le_val ?b)] =>
    replace (u64 (le_val a + le_val b)) with (le_val [z + z0; z0 + z1; z1 + z2; z2 + z3; z3 + z4; z4 + z5; z5 + z6; z6])
      by (rewrite u64_small; cbn [le_val]; unword; lia) end.
  rewrite (shiftr_bytes _ 2) by (repeat constructor; unword; lia); cbn [skipn].
  match goal with |- context [u64 (le_val ?a + le_val ?b)] =>
    replace (u64 (le_val a + le_val b)) with (le_val [z + z0 + z1 + z2; z0 + z1 + z2 + z3; z1 + z2 + z3 + z4; z2 + z3 + z4 + z5;
      z3 + z4 + z5 + z6; z4 + z5 + z6; z5 + z6; z6])
      by (rewrite u64_small; cbn [le_val]; unword; lia) end.
  rewrite (shiftr_bytes _ 4) by (repeat constructor; unword; lia); cbn [skipn].
  rewrite u64_small by (cbn [le_val]; unword; lia).
  rewrite land_mask by lia; cbn [le_val fold_right]; change (2 ^ 7) with 128.
  symmetry; apply Z.mod_unique with (q := 2 * (z0 + z1 + z2 + z3 + (z4 + z5 + z6)) + 512 * 0 +
    (le_val [z1 + z2 + z3 + z4 + (z5 + z6); z2 + z3 + z4 + z5 + z6; z3 + z4 + z5 + z6; z4 + z5 + z6; z5 + z6; z6]) * 512); cbn [le_val]; lia.
Qed.

Lemma le_val_word l : length l = 8%nat -> bytes l -> is_u64 (le_val l).
Proof. intros Hl H; pose proof (le_val_range l H) as R; rewrite Hl in R; change (pow256 8) with W64 in R; unword; lia. Qed.

Lemma bytes_map_le f l : (forall b, is_byte b -> is_byte (f b)) -> bytes l -> bytes (map f l).
Proof. intros Hf H; induction H; cbn; constructor; [apply Hf; assumption|assumption]. Qed.

(** [OnesCount64] adds up the ones of the eight bytes. *)
Lemma OnesCount64_spec l : length l = 8%nat -> bytes l -> OnesCount64 (le_val l) = fold_right Z.add 0 (map pop8 l).
Proof.
  intros Hl H; unfold OnesCount64.
  change m0 with (byte_mask 0x55 8); change m1 with (byte_mask 0x33 8); change m2 with (byte_mask 0x0f 8).
  assert (B1 : forall b, is_byte b -> is_byte (half1 b)).
  { intros b Hb; assert (T : all_bytes (fun b => (0 <=? half1 b) && (half1 b <? W8)) = true) by (vm_compute; reflexivity).
    apply all_bytes_ok with (b := b) in T; [|exact Hb]; rewrite andb_true_iff, Z.leb_le, Z.ltb_lt in T; exact T. }
  pose proof (bytes_map_le _ _ B1 H) as H1.
  assert (H2 : Forall nibbles (map half2 (map half1 l)) /\ map half4 (map half2 (map half1 l)) = map pop8 l).
  { clear H1 Hl; induction H as [|b l Hb _ IH]; [split; [constructor|reflexivity]|]; destruct IH as [I1 I2], (half2_nibbles b Hb) as [N1 N2].
    cbn; split; [constructor; assumption|rewrite N2, I2; reflexivity]. }
  destruct H2 as [N E].
  assert (H2 : bytes (map half2 (map half1 l))) by (revert N; apply Forall_impl; intros b [Hb _]; exact Hb).
  assert (S1 : Z.land (Z.shiftr (le_val l) 1) (byte_mask 0x55 8) + Z.land (le_val l) (byte_mask 0x55 8) = le_val (map half1 l)).
  { rewrite <- Hl at 1 2; apply half_step; [unword; lia|lia|reflexivity|vm_compute; reflexivity|exact H]. }
  rewrite S1, (u64_small (le_val (map half1 l))) by (apply le_val_word; [rewrite length_map; exact Hl|exact H1]).
  assert (S2 : Z.land (Z.shiftr (le_val (map half1 l)) 2) (byte_mask 0x33 8) + Z.land (le_val (map half1 l)) (byte_mask 0x33 8) = le_val (map half2 (map half1 l))).
  { replace 8%nat with (length (map half1 l)) by (rewrite length_map; exact Hl).
    apply half_step; [unword; lia|lia|reflexivity|vm_compute; reflexivity|exact H1]. }
  rewrite S2, (u64_small (le_val (map half2 _))) by (apply le_val_word; [rewrite !length_map; exact Hl|exact H2]).
  set (y := map half2 (map half1 l)) in *.
  assert (Ly : length y = 8%nat) by (unfold y; rewrite !length_map; exact Hl).
  change (gather (Z.land (u64 (Z.shiftr (le_val y) 4 + le_val y)) (byte_mask 0x0f 8)) = fold_right Z.add 0 (map pop8 l)).
  rewrite (u64_small (Z.shiftr (le_val y) 4 + le_val y)).
  - pose proof (half4_step y N) as S3; rewrite Ly in S3; rewrite S3, E.
    apply gather_ok; [rewrite length_map; exact Hl|].
    apply Forall_map, Forall_forall; intros b _; unfold pop8.
    pose proof (filter_length_le (fun i => Z.testbit b (Z.of_nat i)) (seq 0 8)) as L; rewrite length_seq in L; lia.
  - clear -Ly N; do 8 (destruct y as [|? y]; [discriminate|]); destruct y; [|discriminate].
    rewrite ?Forall_cons_iff in N.
    assert (T : forall b, nibbles b -> 0 <= b <= 68)
      by (intros b (Hb & Hlo & Hhi); pose proof (Z.div_mod b 16 ltac:(lia)); unword; lia).
    destruct N as (A & B & C & D & F & G & I & J & _).
    apply T in A, B, C, D, F, G, I, J; cbn [le_val]; rewrite Z.shiftr_div_pow2 by lia.
    match goal with |- context [?v / 2 ^ 4] => pose proof (Z.div_pos v (2 ^ 4)); pose proof (Z.div_le_upper_bound v (2 ^ 4) v) end.
    unword; lia.
Qed.
