(* ===== verification/MSpan.v ===== *)
(** * Spans of the Go heap and the allocator's bitmaps

    The runtime's memory as a function from addresses to bytes, the span record of
    [runtime/mheap.go], the bitmaps of [mbitmap.go] and [mgcmark_greenteagc.go] (the default
    collector, which keeps the mark bits of a small-object span inside the span), and the
    allocator's search for a free slot of [malloc.go].  64-bit little-endian, without the
    race detector and the sanitizers, whose hooks are constant false in ordinary builds. *)

From Stdlib Require Import String ZArith Lia List Bool.
From S2P Require Import Prelude Slices SysBits.
Import ListNotations.
#[local] Open Scope outcome_scope.

(** ** Memory *)

Definition memory : Type := Z -> Z.

Definition memclrNoHeapPointers (p n : Z) (m : memory) : memory :=
  fun a => if (p <=? a) && (a <? p + n) then 0 else m a.

Definition store_bytes (p : Z) (l : list Z) (m : memory) : memory :=
  fun a => if (p <=? a) && (a <? p + Z.of_nat (length l)) then nth (Z.to_nat (a - p)) l 0 else m a.

Definition load_bytes (p : Z) (n : nat) (m : memory) : list Z := map (fun i => m (p + Z.of_nat i)) (seq 0 n).

Definition load64 (p : Z) (m : memory) : Z := le_val (load_bytes p 8 m).
Definition store64 (p v : Z) (m : memory) : memory := store_bytes p (le_bytes 8 v) m.

(** ** Size classes *)

Definition pageSize : Z := 8192.
Definition PtrSize : Z := 8.
Definition MinSizeForMallocHeader : Z := PtrSize * 64.
Definition MaxObjsPerSpan : Z := 1024.

Definition SizeClassToSize : list Z :=
  [0; 8; 16; 24; 32; 48; 64; 80; 96; 112; 128; 144; 160; 176; 192; 208; 224; 240; 256; 288; 320; 352; 384; 416; 448; 480;
   512; 576; 640; 704; 768; 896; 1024; 1152; 1280; 1408; 1536; 1792; 2048; 2304; 2688; 3072; 3200; 3456; 4096; 4864; 5376;
   6144; 6528; 6784; 6912; 8192; 9472; 9728; 10240; 10880; 12288; 13568; 14336; 16384; 18432; 19072; 20480; 21760; 24576;
   27264; 28672; 32768].
Definition SizeClassToNPages : list Z :=
  [0; 1; 1; 1; 1; 1; 1; 1; 1; 1; 1; 1; 1; 1; 1; 1; 1; 1; 1; 1; 1; 1; 1; 1; 1; 1; 1; 1; 1; 1; 1; 1; 1; 1; 1; 2; 1; 2; 1; 2; 1;
   3; 2; 3; 1; 3; 2; 3; 4; 5; 6; 1; 7; 6; 5; 4; 3; 5; 7; 2; 9; 7; 5; 8; 3; 10; 7; 4].
Definition SizeClassToDivMagic : list Z :=
  map (fun size => if size =? 0 then 0 else u32 ((W32 - 1) / size + 1)) SizeClassToSize.

Definition spanClass : Type := Z.
Definition sizeclass (sc : spanClass) : Z := Z.shiftr sc 1.
Definition noscan (sc : spanClass) : bool := negb (Z.land sc 1 =? 0).
Definition makeSpanClass (sizeclass : Z) (noscan : bool) : spanClass :=
  Z.lor (Z.shiftl sizeclass 1) (if noscan then 1 else 0).

(** ** Spans *)

Inductive mSpanState : Type := mSpanDead | mSpanInUse | mSpanManual.

Inductive special_kind : Type :=
| SpecialTinyBlock
| SpecialFinalizer (fn : Z)
| SpecialWeakHandle (handle : Z)
| SpecialProfile (bucket : Z)
| SpecialReachable (id : Z) (reachable : bool)
| SpecialPinCounter
| SpecialCleanup (fn : Z)
| SpecialCheckFinalizer
| SpecialBubble
| SpecialSecret (size : Z).

Record special : Type := MkSpecial { sp_offset : Z; sp_kind : special_kind }.

Record mspan : Type := MkSpan {
  startAddr : Z;
  npages : Z;
  manualFreeList : Z;
  freeindex : Z;
  nelems : Z;
  freeIndexForScan : Z;
  allocCache : Z;
  allocBits : list Z;
  gcmarkBits : list Z;
  pinnerBits : option (list Z);
  sweepgen : Z;
  divMul : Z;
  allocCount : Z;
  spanclass : spanClass;
  state : mSpanState;
  needzero : Z;
  isUserArenaChunk : bool;
  elemsize : Z;
  limit : Z;
  specials : list special;
}.

Definition set_alloc (free cache : Z) (s : mspan) : mspan :=
  MkSpan (startAddr s) (npages s) (manualFreeList s) free (nelems s) (freeIndexForScan s) cache (allocBits s) (gcmarkBits s)
    (pinnerBits s) (sweepgen s) (divMul s) (allocCount s) (spanclass s) (state s) (needzero s) (isUserArenaChunk s)
    (elemsize s) (limit s) (specials s).
Definition set_freeIndexForScan (x : Z) (s : mspan) : mspan :=
  MkSpan (startAddr s) (npages s) (manualFreeList s) (freeindex s) (nelems s) x (allocCache s) (allocBits s) (gcmarkBits s)
    (pinnerBits s) (sweepgen s) (divMul s) (allocCount s) (spanclass s) (state s) (needzero s) (isUserArenaChunk s)
    (elemsize s) (limit s) (specials s).
Definition set_gcmarkBits (x : list Z) (s : mspan) : mspan :=
  MkSpan (startAddr s) (npages s) (manualFreeList s) (freeindex s) (nelems s) (freeIndexForScan s) (allocCache s)
    (allocBits s) x (pinnerBits s) (sweepgen s) (divMul s) (allocCount s) (spanclass s) (state s) (needzero s)
    (isUserArenaChunk s) (elemsize s) (limit s) (specials s).
Definition set_allocCount (x : Z) (s : mspan) : mspan :=
  MkSpan (startAddr s) (npages s) (manualFreeList s) (freeindex s) (nelems s) (freeIndexForScan s) (allocCache s)
    (allocBits s) (gcmarkBits s) (pinnerBits s) (sweepgen s) (divMul s) x (spanclass s) (state s) (needzero s)
    (isUserArenaChunk s) (elemsize s) (limit s) (specials s).
Definition set_specials (x : list special) (s : mspan) : mspan :=
  MkSpan (startAddr s) (npages s) (manualFreeList s) (freeindex s) (nelems s) (freeIndexForScan s) (allocCache s)
    (allocBits s) (gcmarkBits s) (pinnerBits s) (sweepgen s) (divMul s) (allocCount s) (spanclass s) (state s) (needzero s)
    (isUserArenaChunk s) (elemsize s) (limit s) x.
Definition set_needzero (x : Z) (s : mspan) : mspan :=
  MkSpan (startAddr s) (npages s) (manualFreeList s) (freeindex s) (nelems s) (freeIndexForScan s) (allocCache s)
    (allocBits s) (gcmarkBits s) (pinnerBits s) (sweepgen s) (divMul s) (allocCount s) (spanclass s) (state s) x
    (isUserArenaChunk s) (elemsize s) (limit s) (specials s).
Definition set_state (x : mSpanState) (s : mspan) : mspan :=
  MkSpan (startAddr s) (npages s) (manualFreeList s) (freeindex s) (nelems s) (freeIndexForScan s) (allocCache s)
    (allocBits s) (gcmarkBits s) (pinnerBits s) (sweepgen s) (divMul s) (allocCount s) (spanclass s) x (needzero s)
    (isUserArenaChunk s) (elemsize s) (limit s) (specials s).
Definition set_sweepgen (x : Z) (s : mspan) : mspan :=
  MkSpan (startAddr s) (npages s) (manualFreeList s) (freeindex s) (nelems s) (freeIndexForScan s) (allocCache s)
    (allocBits s) (gcmarkBits s) (pinnerBits s) x (divMul s) (allocCount s) (spanclass s) (state s) (needzero s)
    (isUserArenaChunk s) (elemsize s) (limit s) (specials s).
Definition set_manualFreeList (x : Z) (s : mspan) : mspan :=
  MkSpan (startAddr s) (npages s) x (freeindex s) (nelems s) (freeIndexForScan s) (allocCache s) (allocBits s) (gcmarkBits s)
    (pinnerBits s) (sweepgen s) (divMul s) (allocCount s) (spanclass s) (state s) (needzero s) (isUserArenaChunk s)
    (elemsize s) (limit s) (specials s).
Definition set_elemsize (x : Z) (s : mspan) : mspan :=
  MkSpan (startAddr s) (npages s) (manualFreeList s) (freeindex s) (nelems s) (freeIndexForScan s) (allocCache s)
    (allocBits s) (gcmarkBits s) (pinnerBits s) (sweepgen s) (divMul s) (allocCount s) (spanclass s) (state s) (needzero s)
    (isUserArenaChunk s) x (limit s) (specials s).
Definition set_limit (x : Z) (s : mspan) : mspan :=
  MkSpan (startAddr s) (npages s) (manualFreeList s) (freeindex s) (nelems s) (freeIndexForScan s) (allocCache s)
    (allocBits s) (gcmarkBits s) (pinnerBits s) (sweepgen s) (divMul s) (allocCount s) (spanclass s) (state s) (needzero s)
    (isUserArenaChunk s) (elemsize s) x (specials s).

(** ** Bitmaps *)

(** [newMarkBits]: zeroed, in whole 64-bit words. *)
Definition newMarkBits (nelems : Z) : list Z := repeat 0 (Z.to_nat ((nelems + 63) / 64 * 8)).

(** [gcBits.bitp]: a byte of a bitmap and a mask in it. *)
Definition bitp (n : Z) : Z * Z := (n / 8, u8 (Z.shiftl 1 (n mod 8))).

(** The object a [*uint8] of [markBits] points into. *)
Inductive bit_ptr : Type :=
| InMemory (addr : Z)
| InAllocBits (byte : Z)
| InGcmarkBits (byte : Z).

Record markBits : Type := MkBits { bytep : bit_ptr; mask : Z; index : Z }.

Definition load_bit_ptr (m : memory) (s : mspan) (p : bit_ptr) : Z :=
  match p with
  | InMemory a => m a
  | InAllocBits i => nth (Z.to_nat i) (allocBits s) 0
  | InGcmarkBits i => nth (Z.to_nat i) (gcmarkBits s) 0
  end.

Definition next_byte (p : bit_ptr) : bit_ptr :=
  match p with
  | InMemory a => InMemory (a + 1)
  | InAllocBits i => InAllocBits (i + 1)
  | InGcmarkBits i => InGcmarkBits (i + 1)
  end.

Definition isMarked (m : memory) (s : mspan) (b : markBits) : bool :=
  negb (Z.land (load_bit_ptr m s (bytep b)) (mask b) =? 0).

(** [setMarked] and [setMarkedNonAtomic]: [*m.bytep |= m.mask]. *)
Definition setMarked (m : memory) (s : mspan) (b : markBits) : memory * mspan :=
  let v := Z.lor (load_bit_ptr m s (bytep b)) (mask b) in
  match bytep b with
  | InMemory a => (store_bytes a [v] m, s)
  | InGcmarkBits i => (m, set_gcmarkBits (upd (gcmarkBits s) (Z.to_nat i) v) s)
  | InAllocBits _ => (m, s)
  end.

Definition advance (b : markBits) : markBits :=
  if mask b =? Z.shiftl 1 7 then MkBits (next_byte (bytep b)) 1 (index b + 1)
  else MkBits (bytep b) (u8 (Z.shiftl (mask b) 1)) (index b + 1).

Definition allocBitsForIndex (allocBitIndex : Z) : markBits :=
  let '(bytep, mask) := bitp allocBitIndex in MkBits (InAllocBits bytep) mask allocBitIndex.

Definition heapBitsInSpan (userSize : Z) : bool := userSize <=? MinSizeForMallocHeader.
Definition gcUsesSpanInlineMarkBits (size : Z) : bool := heapBitsInSpan size && (16 <=? size).

(** The layout of [spanInlineMarkBits]: 63 bytes of scan bits, the owner, 63 bytes of mark
    bits, the span class; it is the end of the span's page. *)
Definition sizeof_spanInlineMarkBits : Z := 128.
Definition imb_marks : Z := 64.
Definition imb_class : Z := 127.
Definition inlineMarkBits (s : mspan) : Z := startAddr s + pageSize - sizeof_spanInlineMarkBits.

(** [spanInlineMarkBits.init]. *)
Definition imb_init (imb : Z) (class : spanClass) (needzero : bool) (m : memory) : memory :=
  let m := if needzero then memclrNoHeapPointers imb sizeof_spanInlineMarkBits m else m in
  store_bytes (imb + imb_class) [class] m.

Definition markBitsForIndex (s : mspan) (objIndex : Z) : markBits :=
  MkBits (if gcUsesSpanInlineMarkBits (elemsize s) then InMemory (inlineMarkBits s + imb_marks + objIndex / 8)
          else InGcmarkBits (objIndex / 8))
    (u8 (Z.shiftl 1 (objIndex mod 8))) objIndex.

Definition markBitsForBase (s : mspan) : markBits :=
  if gcUsesSpanInlineMarkBits (elemsize s) then MkBits (InMemory (inlineMarkBits s + imb_marks)) 1 0
  else MkBits (InGcmarkBits 0) 1 0.

(** [moveInlineMarks]: the marks inside the span are merged into a bitmap and cleared. *)
Definition divRoundUp (n a : Z) : Z := (n + a - 1) / a.

Definition moveInlineMarks (s : mspan) (dst : list Z) (m : memory) : list Z * memory :=
  let words := Z.to_nat (divRoundUp (divRoundUp (nelems s) 8) PtrSize) in
  let imb := inlineMarkBits s in
  let dst := for_range 0 words (fun i dst =>
    let marks := load64 (imb + imb_marks + 8 * Z.of_nat i) m in
    let marks := if Z.of_nat i =? (63 + 1) / PtrSize - 1 then Z.ldiff marks (Z.shiftl 0xff ((PtrSize - 1) * 8)) else marks in
    copy_into dst (8 * i) (le_bytes 8 (Z.lor (le_val (firstn 8 (skipn (8 * i) dst))) marks))) dst in
  (dst, imb_init imb (spanclass s) true m).

(** ** Searching a free slot *)

Definition refillAllocCache (whichByte : Z) (s : mspan) : mspan :=
  let b i := nth (Z.to_nat (whichByte + i)) (allocBits s) 0 in
  let aCache := Z.lor 0 (b 0) in
  let aCache := Z.lor aCache (Z.shiftl (b 1) (1 * 8)) in
  let aCache := Z.lor aCache (Z.shiftl (b 2) (2 * 8)) in
  let aCache := Z.lor aCache (Z.shiftl (b 3) (3 * 8)) in
  let aCache := Z.lor aCache (Z.shiftl (b 4) (4 * 8)) in
  let aCache := Z.lor aCache (Z.shiftl (b 5) (5 * 8)) in
  let aCache := Z.lor aCache (Z.shiftl (b 6) (6 * 8)) in
  let aCache := Z.lor aCache (Z.shiftl (b 7) (7 * 8)) in
  set_alloc (freeindex s) (not64 aCache) s.

(** The loop of [nextFreeIndex]: step over 64-bit words without a free bit.  The position of
    a free bit, or [None] at the end of the span. *)
Fixpoint skip_full_words (fuel : nat) (s : mspan) (sfreeindex : Z) : option (mspan * option (Z * Z)) :=
  let bitIndex := TrailingZeros64 (allocCache s) in
  if bitIndex =? 64 then
    let sfreeindex := Z.ldiff (u16 (sfreeindex + 64)) (64 - 1) in
    if nelems s <=? sfreeindex then Some (s, None)
    else match fuel with
         | O => None
         | S fuel => skip_full_words fuel (refillAllocCache (sfreeindex / 8) s) sfreeindex
         end
  else Some (s, Some (sfreeindex, bitIndex)).

Definition nextFreeIndex (s : mspan) : outcome string (Z * mspan) :=
  let sfreeindex := freeindex s in
  let snelems := nelems s in
  if sfreeindex =? snelems then Ret (sfreeindex, s)
  else if snelems <? sfreeindex then Fail "s.freeindex > s.nelems"%string
  else
    match skip_full_words (Z.to_nat snelems) s sfreeindex with
    | None => Panic
    | Some (s, None) => Ret (snelems, set_alloc snelems (allocCache s) s)
    | Some (s, Some (sfreeindex, bitIndex)) =>
        let result := u16 (sfreeindex + bitIndex) in
        if snelems <=? result then Ret (snelems, set_alloc snelems (allocCache s) s)
        else
          let s := set_alloc (freeindex s) (Z.shiftr (allocCache s) (bitIndex + 1)) s in
          let sfreeindex := u16 (result + 1) in
          let s :=
            if (sfreeindex mod 64 =? 0) && negb (sfreeindex =? snelems)
            then refillAllocCache (sfreeindex / 8) s else s in
          Ret (result, set_alloc sfreeindex (allocCache s) s)
    end.

(** The address of a slot. *)
Definition slot (s : mspan) (i : Z) : Z := u64 (startAddr s + u64 (i * elemsize s)).

(** [nextFreeFast]: 0 when there is no quick answer. *)
Definition nextFreeFast (s : mspan) : Z * mspan :=
  let theBit := TrailingZeros64 (allocCache s) in
  if theBit <? 64 then
    let result := u16 (freeindex s + theBit) in
    if result <? nelems s then
      let freeidx := u16 (result + 1) in
      if (freeidx mod 64 =? 0) && negb (freeidx =? nelems s) then (0, s)
      else
        (u64 (u64 (result * elemsize s) + startAddr s),
         set_allocCount (u16 (allocCount s + 1)) (set_alloc freeidx (Z.shiftr (allocCache s) (theBit + 1)) s))
    else (0, s)
  else (0, s).

Definition isFree (s : mspan) (index : Z) : bool :=
  if index <? freeindex s then false
  else let '(bytep, mask) := bitp index in Z.land (nth (Z.to_nat bytep) (allocBits s) 0) mask =? 0.

(** [countAlloc]: the ones of the mark bitmap. *)
Definition countAlloc (s : mspan) : Z :=
  for_range 0 (Z.to_nat (divRoundUp (divRoundUp (nelems s) 8) 8))
    (fun i count => count + OnesCount64 (le_val (firstn 8 (skipn (8 * i) (gcmarkBits s))))) 0.

(** ** Allocating *)

(** [mcache.nextFree] on the cached span; [None] when the span is full and the cache is
    refilled from the central list. *)
Definition nextFree (s : mspan) : outcome string (option (Z * mspan)) :=
  let* r := nextFreeIndex s in
  let '(freeIndex, s) := r in
  if freeIndex =? nelems s then
    if negb (allocCount s =? nelems s) then Fail "s.allocCount != s.nelems && freeIndex == s.nelems"%string
    else Ret None
  else
    let v := u64 (u64 (freeIndex * elemsize s) + startAddr s) in
    let s := set_allocCount (u16 (allocCount s + 1)) s in
    if nelems s <? allocCount s then Fail "s.allocCount > s.nelems"%string else Ret (Some (v, s)).

Inductive gcphase_t : Type := GCoff | GCmark | GCmarktermination.

(** [divideByElemSize], [objIndex]: division by multiplication. *)
Definition divideByElemSize (s : mspan) (n : Z) : Z := Z.shiftr (u64 (n * divMul s)) 32.
Definition objIndex (s : mspan) (p : Z) : Z := divideByElemSize s (u64 (p - startAddr s)).

(** [scannedBitsForIndex]. *)
Definition scannedBitsForIndex (s : mspan) (objIndex : Z) : markBits :=
  MkBits (InMemory (inlineMarkBits s + objIndex / 8)) (u8 (Z.shiftl 1 (objIndex mod 8))) objIndex.

Definition gcmarknewobject (phase : gcphase_t) (obj : Z) (m : memory) (s : mspan) : outcome string (memory * mspan) :=
  match phase with
  | GCmarktermination => Fail "mallocgc called with gcphase == _GCmarktermination"%string
  | _ =>
      let i := objIndex s obj in
      let '(m, s) := setMarked m s (markBitsForIndex s i) in
      Ret (if gcUsesSpanInlineMarkBits (elemsize s) then setMarked m s (scannedBitsForIndex s i) else (m, s))
  end.

(** The slot of [mallocgcSmallNoscan]: found, cleared when the span's memory may be dirty,
    and, during marking, marked. *)
Definition mallocgcSmallNoscan (phase : gcphase_t) (writeBarrier needzero_ : bool) (m : memory) (s : mspan) :
    outcome string (option (Z * memory * mspan)) :=
  let '(v, s1) := nextFreeFast s in
  let* found := (if v =? 0 then nextFree s else Ret (Some (v, s1))) in
  match found with
  | None => Ret None
  | Some (x, s) =>
      let m := if needzero_ && negb (needzero s =? 0) then memclrNoHeapPointers x (elemsize s) m else m in
      if writeBarrier
      then let* r := gcmarknewobject phase x m s in Ret (Some (x, fst r, snd r))
      else Ret (Some (x, m, set_freeIndexForScan (freeindex s) s))
  end.

(** ** Creating spans *)

(** [mheap.initSpan] for a heap span; [dirty] says that the pages were used before and not
    returned to the system since. *)
Definition initSpan (base npages : Z) (sc : spanClass) (dirty : bool) (hsweepgen : Z) : mspan :=
  let nbytes := npages * pageSize in
  let k := Z.to_nat (sizeclass sc) in
  let elemsize := if sizeclass sc =? 0 then nbytes else nth k SizeClassToSize 0 in
  let reserve :=
    (if gcUsesSpanInlineMarkBits elemsize then sizeof_spanInlineMarkBits else 0) +
    (if heapBitsInSpan elemsize && negb (noscan sc) then nbytes / PtrSize / 8 else 0) in
  let nelems := if sizeclass sc =? 0 then 1 else u16 ((nbytes - reserve) / elemsize) in
  MkSpan base npages 0 0 nelems 0 (W64 - 1) (newMarkBits nelems) (newMarkBits nelems) None hsweepgen
    (if sizeclass sc =? 0 then 0 else nth k SizeClassToDivMagic 0) 0 sc mSpanInUse (if dirty then 1 else 0) false elemsize (base + elemsize * nelems) [].

(** [initHeapBits]: the pointer bitmap and the mark bits at the end of the span. *)
Definition spanHeapBitsRange (spanBase spanSize elemsize : Z) : Z * Z :=
  let size := spanSize / PtrSize / 8 in
  (spanBase + spanSize - size - (if gcUsesSpanInlineMarkBits elemsize then sizeof_spanInlineMarkBits else 0), size).

Definition initHeapBits (s : mspan) (m : memory) : memory :=
  let '(p, n) := spanHeapBitsRange (startAddr s) (npages s * pageSize) (elemsize s) in
  let m :=
    if negb (noscan (spanclass s)) && (sizeclass (spanclass s) =? 1) then store_bytes p (repeat 255 (Z.to_nat n)) m
    else if (negb (noscan (spanclass s)) && heapBitsInSpan (elemsize s)) || isUserArenaChunk s then memclrNoHeapPointers p n m
    else m in
  if gcUsesSpanInlineMarkBits (elemsize s)
  then imb_init (inlineMarkBits s) (spanclass s) (negb (needzero s =? 0)) m else m.

(** [mcentral.grow]. *)
Definition grow (base : Z) (sc : spanClass) (dirty : bool) (hsweepgen : Z) (m : memory) : mspan * memory :=
  let s := initSpan base (nth (Z.to_nat (sizeclass sc)) SizeClassToNPages 0) sc dirty hsweepgen in
  (s, initHeapBits s m).

(** The end of [mcentral.cacheSpan]: the span found is prepared for allocation. *)
Definition havespan (s : mspan) : outcome string mspan :=
  let n := nelems s - allocCount s in
  if (n =? 0) || (freeindex s =? nelems s) || (allocCount s =? nelems s) then Fail "span has no free objects"%string
  else
    let freeByteBase := Z.ldiff (freeindex s) (64 - 1) in
    let s := refillAllocCache (freeByteBase / 8) s in
    Ret (set_alloc (freeindex s) (Z.shiftr (allocCache s) (freeindex s mod 64)) s).

(** ** The bitmaps as sets *)

Definition bit (l : list Z) (i : Z) : bool := Z.testbit (nth (Z.to_nat (i / 8)) l 0) (i mod 8).

Lemma mask_bits k : 0 <= k < 8 -> u8 (Z.shiftl 1 k) = 2 ^ k.
Proof.
  intros H; rewrite Z.shiftl_1_l; apply u8_small; split; [apply Z.pow_nonneg; lia|].
  change W8 with (2 ^ 8); apply Z.pow_lt_mono_r; lia.
Qed.

Lemma land_pow2 x k : 0 <= k -> (Z.land x (2 ^ k) =? 0) = negb (Z.testbit x k).
Proof.
  intros Hk; destruct (Z.testbit x k) eqn:T; cbn [negb].
  - apply Z.eqb_neq; intros E; apply (f_equal (fun z => Z.testbit z k)) in E.
    rewrite Z.land_spec, Z.pow2_bits_true, T, Z.bits_0 in E by lia; discriminate.
  - apply Z.eqb_eq, Z.bits_inj'; intros n Hn; rewrite Z.land_spec, Z.bits_0.
    destruct (Z.eq_dec k n) as [->|N]; [rewrite T; reflexivity|rewrite Z.pow2_bits_false by lia; apply andb_false_r].
Qed.

Lemma bit_index_mod i : 0 <= i -> 0 <= i mod 8 < 8.
Proof. intros _; apply Z.mod_pos_bound; lia. Qed.

(** Stepping a bit pointer walks through the indices. *)
Lemma next_index i : 0 <= i ->
  (i mod 8 = 7 /\ (i + 1) / 8 = i / 8 + 1 /\ (i + 1) mod 8 = 0) \/
  (i mod 8 < 7 /\ (i + 1) / 8 = i / 8 /\ (i + 1) mod 8 = i mod 8 + 1).
Proof. intros H; pose proof (Z.div_mod i 8); pose proof (Z.mod_pos_bound i 8);
  destruct (Z.eq_dec (i mod 8) 7); [left|right]; (split; [lia|]);
  [assert (E : i + 1 = 8 * (i / 8 + 1) + 0) by lia|assert (E : i + 1 = 8 * (i / 8) + (i mod 8 + 1)) by lia];
  (split; [symmetry; eapply Z.div_unique; [|exact E]; lia|symmetry; eapply Z.mod_unique; [|exact E]; lia]). Qed.

Lemma advance_mask i p q : 0 <= i -> (i mod 8 = 7 -> q = next_byte p) -> (i mod 8 < 7 -> q = p) ->
  advance (MkBits p (u8 (Z.shiftl 1 (i mod 8))) i) = MkBits q (u8 (Z.shiftl 1 ((i + 1) mod 8))) (i + 1).
Proof.
  intros Hi H7 H6; unfold advance; cbn [mask bytep index].
  pose proof (bit_index_mod i Hi); destruct (next_index i Hi) as [(E & _ & E')|(E & _ & E')].
  - rewrite E, E', H7 by exact E; reflexivity.
  - rewrite H6, E' by exact E; rewrite !mask_bits by lia.
    destruct (Z.eqb_spec (2 ^ (i mod 8)) (Z.shiftl 1 7)) as [F|_].
    + change (Z.shiftl 1 7) with (2 ^ 7) in F; apply Z.pow_inj_r in F; lia.
    + rewrite Z.shiftl_mul_pow2, <- Z.pow_add_r by lia; f_equal.
      apply u8_small; split; [apply Z.pow_nonneg; lia|change W8 with (2 ^ 8); apply Z.pow_lt_mono_r; lia].
Qed.

Lemma advance_markBits s i : 0 <= i -> advance (markBitsForIndex s i) = markBitsForIndex s (i + 1).
Proof.
  intros Hi; unfold markBitsForIndex; destruct (gcUsesSpanInlineMarkBits _); apply advance_mask; try exact Hi;
    intros H; destruct (next_index i Hi) as [(? & E & _)|(? & E & _)]; try lia; rewrite E; cbn [next_byte]; f_equal; lia.
Qed.

Lemma advance_allocBits i : 0 <= i -> advance (allocBitsForIndex i) = allocBitsForIndex (i + 1).
Proof.
  intros Hi; unfold allocBitsForIndex, bitp; apply advance_mask; try exact Hi;
    intros H; destruct (next_index i Hi) as [(? & E & _)|(? & E & _)]; try lia; rewrite E; reflexivity.
Qed.

Lemma markBitsForBase_0 s : markBitsForBase s = markBitsForIndex s 0.
Proof. unfold markBitsForBase, markBitsForIndex; destruct (gcUsesSpanInlineMarkBits _); [rewrite Z.add_0_r|]; reflexivity. Qed.

Lemma isMarked_mask m s p k i : 0 <= k < 8 ->
  isMarked m s (MkBits p (u8 (Z.shiftl 1 k)) i) = Z.testbit (load_bit_ptr m s p) k.
Proof. intros Hk; unfold isMarked; cbn [bytep mask]; rewrite mask_bits, land_pow2, negb_involutive by lia; reflexivity. Qed.

Lemma isMarked_alloc m s i : 0 <= i -> isMarked m s (allocBitsForIndex i) = bit (allocBits s) i.
Proof. intros Hi; unfold allocBitsForIndex, bitp; rewrite isMarked_mask by (apply bit_index_mod, Hi); reflexivity. Qed.

Lemma isFree_spec s i : 0 <= i -> isFree s i = (freeindex s <=? i) && negb (bit (allocBits s) i).
Proof.
  intros Hi; unfold isFree, bitp; rewrite Z.ltb_antisym; destruct (freeindex s <=? i); cbn [negb andb]; [|reflexivity].
  pose proof (bit_index_mod i Hi); rewrite mask_bits, land_pow2 by lia; reflexivity.
Qed.

(** The mark of a slot, wherever it is kept. *)
Definition mark_byte (m : memory) (s : mspan) (i : Z) : Z :=
  if gcUsesSpanInlineMarkBits (elemsize s) then m (inlineMarkBits s + imb_marks + i / 8)
  else nth (Z.to_nat (i / 8)) (gcmarkBits s) 0.
Definition marked (m : memory) (s : mspan) (i : Z) : bool := Z.testbit (mark_byte m s i) (i mod 8).

Lemma isMarked_spec m s i : 0 <= i -> isMarked m s (markBitsForIndex s i) = marked m s i.
Proof.
  intros Hi; unfold markBitsForIndex, marked, mark_byte; rewrite isMarked_mask by (apply bit_index_mod, Hi).
  destruct (gcUsesSpanInlineMarkBits _); reflexivity.
Qed.

(** ** Words of bits *)

Lemma le_val_bits l n : bytes l -> 0 <= n -> Z.testbit (le_val l) n = bit l n.
Proof.
  intros H; revert n; induction H as [|b l Hb _ IH]; intros n Hn.
  - unfold bit; cbn [le_val]; rewrite Z.bits_0; destruct (Z.to_nat (n / 8)); cbn [nth]; symmetry; apply Z.bits_0.
  - cbn [le_val]; rewrite byte_cons_bits by assumption; unfold bit.
    destruct (Z.ltb_spec n 8).
    + rewrite Z.div_small, Z.mod_small by lia; reflexivity.
    + rewrite IH by lia; unfold bit.
      replace (n / 8) with ((n - 8) / 8 + 1) by (rewrite <- Z.div_add by lia; f_equal; lia).
      replace (n mod 8) with ((n - 8) mod 8) by (rewrite <- (Z.mod_add (n - 8) 1 8) by lia; f_equal; lia).
      rewrite Z2Nat.inj_add by (try apply Z.div_pos; lia).
      change (Z.to_nat 1) with 1%nat; rewrite Nat.add_1_r; reflexivity.
Qed.

Lemma bit_skipn l k n : 0 <= n -> bit (skipn k l) n = bit l (8 * Z.of_nat k + n).
Proof.
  intros Hn; unfold bit; rewrite nth_skipn.
  replace (8 * Z.of_nat k + n) with (n + Z.of_nat k * 8) by lia; rewrite Z.div_add, Z.mod_add by lia.
  assert (0 <= n / 8) by (apply Z.div_pos; lia); rewrite Z2Nat.inj_add, Nat2Z.id, Nat.add_comm by lia; reflexivity.
Qed.

Lemma bit_firstn l k n : 0 <= n < 8 * Z.of_nat k -> bit (firstn k l) n = bit l n.
Proof.
  intros Hn; unfold bit; rewrite nth_firstn.
  replace (Z.to_nat (n / 8) <? k)%nat with true; [reflexivity|symmetry; apply Nat.ltb_lt].
  apply Nat2Z.inj_lt; rewrite Z2Nat.id by (apply Z.div_pos; lia); apply Z.div_lt_upper_bound; lia.
Qed.

Lemma bit_nil n : bit [] n = false.
Proof. unfold bit; destruct (Z.to_nat (n / 8)); apply Z.bits_0. Qed.

Lemma bit_repeat_0 k n : bit (repeat 0 k) n = false.
Proof. unfold bit; rewrite nth_repeat; apply Z.bits_0. Qed.

Lemma bit_copy_word l k v i : (8 * k + 8 <= length l)%nat -> is_u64 v -> 0 <= i ->
  bit (copy_into l (8 * k) (le_bytes 8 v)) i =
  if (64 * Z.of_nat k <=? i) && (i <? 64 * Z.of_nat k + 64) then Z.testbit v (i - 64 * Z.of_nat k) else bit l i.
Proof.
  intros L Hv Hi; unfold bit at 1; rewrite nth_copy_into by (rewrite length_le_bytes; lia); rewrite length_le_bytes.
  pose proof (Z.div_mod i 8 ltac:(lia)); pose proof (bit_index_mod i Hi).
  assert (E : ((8 * k <=? Z.to_nat (i / 8)) && (Z.to_nat (i / 8) <? 8 * k + 8))%nat = (64 * Z.of_nat k <=? i) && (i <? 64 * Z.of_nat k + 64)).
  { destruct (Nat.leb_spec (8 * k) (Z.to_nat (i / 8))), (Nat.ltb_spec (Z.to_nat (i / 8)) (8 * k + 8)),
      (Z.leb_spec (64 * Z.of_nat k) i), (Z.ltb_spec i (64 * Z.of_nat k + 64)); cbn; reflexivity || lia. }
  rewrite E; destruct ((64 * Z.of_nat k <=? i) && _) eqn:B; [|reflexivity].
  apply andb_true_iff in B as [B1 B2]; apply Z.leb_le in B1; apply Z.ltb_lt in B2.
  pose proof (le_val_bits (le_bytes 8 v) (i - 64 * Z.of_nat k) (bytes_le_bytes _ _) ltac:(lia)) as T.
  rewrite le_val_bytes in T; change (pow256 8) with W64 in T; rewrite Z.mod_small in T by exact Hv; rewrite T; unfold bit.
  replace (i - 64 * Z.of_nat k) with (i + (- 8 * Z.of_nat k) * 8) by lia; rewrite Z.div_add, Z.mod_add by lia; do 2 f_equal; lia.
Qed.

(** The eight bytes that [refillAllocCache] reads, negated. *)
Lemma not64_bits x j : is_u64 x -> 0 <= j < 64 -> Z.testbit (not64 x) j = negb (Z.testbit x j).
Proof.
  intros Hx Hj; unfold not64; change (W64 - 1) with (Z.ones 64); rewrite Z.lxor_spec, Z.ones_spec_low by lia; apply xorb_true_r.
Qed.

Lemma not64_u64 x : is_u64 x -> is_u64 (not64 x).
Proof. intros Hx; rewrite not64_eq by exact Hx; unword; lia. Qed.

Definition eight (l : list Z) (k : Z) : list Z := map (fun i => nth (Z.to_nat (k + Z.of_nat i)) l 0) (seq 0 8).

Lemma lor_shift_byte x b k : 0 <= k -> 0 <= x < 2 ^ k -> Z.lor x (Z.shiftl b k) = x + b * 2 ^ k.
Proof. intros Hk Hx; rewrite Z.shiftl_mul_pow2 by lia; apply lor_add_low; lia. Qed.

Lemma bytes_eight l k : bytes l -> bytes (eight l k).
Proof. intros H; unfold eight; apply Forall_map, Forall_forall; intros i _; apply bytes_nth, H. Qed.

Lemma refill_value s k : bytes (allocBits s) ->
  refillAllocCache k s = set_alloc (freeindex s) (not64 (le_val (eight (allocBits s) k))) s.
Proof.
  intros H; unfold refillAllocCache; cbv zeta; f_equal; f_equal; rewrite Z.lor_0_l.
  pose proof (fun i => bytes_nth (allocBits s) (Z.to_nat (k + i)) H) as B; unword.
  unfold eight; cbn [seq map le_val]; change (Z.of_nat 0) with 0; change (Z.of_nat 1) with 1; change (Z.of_nat 2) with 2;
    change (Z.of_nat 3) with 3; change (Z.of_nat 4) with 4; change (Z.of_nat 5) with 5; change (Z.of_nat 6) with 6; change (Z.of_nat 7) with 7.
  pose proof (B 0); pose proof (B 1); pose proof (B 2); pose proof (B 3); pose proof (B 4); pose proof (B 5); pose proof (B 6); pose proof (B 7).
  change (1 * 8) with 8; change (2 * 8) with 16; change (3 * 8) with 24; change (4 * 8) with 32; change (5 * 8) with 40;
    change (6 * 8) with 48; change (7 * 8) with 56.
  let step k := match goal with |- context [Z.lor ?x (Z.shiftl ?b k)] => rewrite (lor_shift_byte x b k) by lia end in
  step constr:(8); step constr:(16); step constr:(24); step constr:(32); step constr:(40); step constr:(48); step constr:(56); lia.
Qed.

Lemma bit_eight l k n : 0 <= k -> 0 <= n < 64 -> bit (eight l k) n = bit l (8 * k + n).
Proof.
  intros Hk Hn; unfold bit, eight.
  replace (8 * k + n) with (n + k * 8) by lia; rewrite Z.div_add, Z.mod_add by lia.
  assert (0 <= n / 8 < 8) by (split; [apply Z.div_pos; lia|apply Z.div_lt_upper_bound; lia]).
  rewrite (nth_indep _ 0 (nth (Z.to_nat (k + Z.of_nat 0)) l 0)) by (rewrite length_map, length_seq; lia).
  rewrite (map_nth (fun i => nth (Z.to_nat (k + Z.of_nat i)) l 0)), seq_nth by lia.
  do 2 f_equal; lia.
Qed.

Lemma eight_u64 l k : bytes l -> is_u64 (le_val (eight l k)).
Proof. intros H; apply le_val_word; [reflexivity|apply bytes_eight, H]. Qed.

(** ** The search for a free slot *)

(** The bitmaps of a span have the length the span needs. *)
Record bits_wf (s : mspan) : Prop := {
  bw_nelems : 0 < nelems s <= MaxObjsPerSpan;
  bw_alloc : bytes (allocBits s);
  bw_free : 0 <= freeindex s <= nelems s;
}.

(** The cache holds the free bits from index [f] to the end of its 64-bit word. *)
Definition cache_at (s : mspan) (f : Z) : Prop :=
  is_u64 (allocCache s) /\
  forall j, 0 <= j < 64 -> Z.testbit (allocCache s) j = (j <? 64 - f mod 64) && negb (bit (allocBits s) (f + j)).
Definition cache_ok (s : mspan) : Prop := freeindex s < nelems s -> cache_at s (freeindex s).

(** [i] is the first index from [f] on whose allocation bit is clear, or the end. *)
Definition first_free (s : mspan) (f i : Z) : Prop :=
  f <= i <= nelems s /\ (forall j, f <= j < i -> bit (allocBits s) j = true) /\ (i < nelems s -> bit (allocBits s) i = false).

Lemma refill_cache_at s f : bytes (allocBits s) -> 0 <= f -> f mod 64 = 0 -> cache_at (refillAllocCache (f / 8) s) f.
Proof.
  intros H Hf H0; rewrite refill_value by exact H; unfold cache_at; cbn [set_alloc allocCache allocBits].
  split; [apply not64_u64, eight_u64, H|]; intros j Hj.
  rewrite not64_bits by (apply eight_u64, H || exact Hj); rewrite le_val_bits by (apply bytes_eight, H || lia).
  rewrite bit_eight by (try apply Z.div_pos; lia).
  rewrite H0; replace (j <? 64 - 0) with true by (symmetry; apply Z.ltb_lt; lia); cbn [andb]; do 2 f_equal.
  assert (f mod 8 = 0) by (rewrite <- (Z.mod_mod_divide f 64 8), H0 by (exists 8; reflexivity); reflexivity).
  pose proof (Z.div_mod f 8); lia.
Qed.

Lemma word_start x : 0 <= x -> Z.ldiff x (64 - 1) = x - x mod 64.
Proof.
  intros Hx; change (64 - 1) with (Z.ones 6); rewrite Z.ldiff_ones_r, Z.shiftl_mul_pow2, Z.shiftr_div_pow2 by lia.
  change (2 ^ 6) with 64; pose proof (Z.div_mod x 64); lia.
Qed.

Lemma set_alloc_twice a b c d s : set_alloc a b (set_alloc c d s) = set_alloc a b s.
Proof. reflexivity. Qed.

Lemma set_alloc_same s : set_alloc (freeindex s) (allocCache s) s = s.
Proof. destruct s; reflexivity. Qed.

Lemma refill_set s k : exists c, refillAllocCache k s = set_alloc (freeindex s) c s.
Proof. eexists; reflexivity. Qed.

(** What a cache at [f] says about its word: no zero before the lowest one. *)
Lemma cache_lowest s f : 0 <= f -> cache_at s f ->
  let b := TrailingZeros64 (allocCache s) in
  (b = 64 -> forall j, f <= j < f + (64 - f mod 64) -> bit (allocBits s) j = true) /\
  (b <> 64 -> 0 <= b < 64 - f mod 64 /\ bit (allocBits s) (f + b) = false /\
    forall j, f <= j < f + b -> bit (allocBits s) j = true).
Proof.
  intros Hf [Hu Hc]; cbv zeta; pose proof (Z.mod_pos_bound f 64 ltac:(lia)) as M.
  assert (Low : forall j, f <= j < f + (64 - f mod 64) -> Z.testbit (allocCache s) (j - f) = negb (bit (allocBits s) j)).
  { intros j Hj; rewrite Hc by lia; replace (f + (j - f)) with j by lia.
    destruct (Z.ltb_spec (j - f) (64 - f mod 64)); [reflexivity|lia]. }
  destruct (Z.eq_dec (allocCache s) 0) as [E|E].
  - rewrite E, TrailingZeros64_0; split; [|congruence]; intros _ j Hj.
    specialize (Low j Hj); rewrite E, Z.bits_0 in Low; destruct (bit _ _); [reflexivity|discriminate].
  - destruct (TrailingZeros64_spec _ Hu E) as (R & T & L); split; [lia|intros _].
    pose proof (Hc _ R) as C; rewrite T in C; symmetry in C; apply andb_true_iff in C as [C1 C2].
    apply Z.ltb_lt in C1; apply negb_true_iff in C2; split; [lia|split; [exact C2|]].
    intros j Hj; specialize (Low j ltac:(lia)); rewrite L in Low by lia; destruct (bit _ _); [reflexivity|discriminate].
Qed.

Lemma skip_full_words_ok fuel s f :
  bytes (allocBits s) -> nelems s <= MaxObjsPerSpan -> 0 <= f < nelems s -> cache_at s f -> nelems s - f <= Z.of_nat fuel ->
  exists c r, skip_full_words fuel s f = Some (set_alloc (freeindex s) c s, r) /\
    match r with
    | None => forall j, f <= j < nelems s -> bit (allocBits s) j = true
    | Some (f', b) => f <= f' < nelems s /\ cache_at (set_alloc (freeindex s) c s) f' /\ b = TrailingZeros64 c /\ b <> 64 /\
        forall j, f <= j < f' -> bit (allocBits s) j = true
    end.
Proof.
  intros HB HN; revert s f HB HN; induction fuel as [|fuel IH]; intros s f HB HN Hf C Hfuel; [lia|].
  cbn [skip_full_words]; destruct (cache_lowest s f ltac:(lia) C) as [Full Found].
  destruct (Z.eqb_spec (TrailingZeros64 (allocCache s)) 64) as [E|E].
  - specialize (Full E); pose proof (Z.mod_pos_bound f 64 ltac:(lia)) as M; unfold MaxObjsPerSpan in HN.
    assert (F : Z.ldiff (u16 (f + 64)) (64 - 1) = f + (64 - f mod 64)).
    { unfold u16; rewrite Z.mod_small, word_start by lia.
      replace ((f + 64) mod 64) with (f mod 64) by (rewrite <- (Z.mod_add f 1 64) by lia; f_equal; lia); lia. }
    rewrite F; set (f' := f + (64 - f mod 64)) in *.
    destruct (Z.leb_spec (nelems s) f').
    + exists (allocCache s), None; rewrite set_alloc_same; split; [reflexivity|]; intros j Hj; apply Full; lia.
    + destruct (refill_set s (f' / 8)) as [c0 R].
      assert (F0 : f' mod 64 = 0).
      { unfold f'; pose proof (Z.div_mod f 64); replace (f + (64 - f mod 64)) with ((f / 64 + 1) * 64) by lia; apply Z.mod_mul; lia. }
      destruct (IH (refillAllocCache (f' / 8) s) f') as (c & r & Er & Pr);
        [rewrite R; exact HB|rewrite R; exact HN|rewrite R; cbn; lia|apply refill_cache_at; lia || exact HB || exact F0|rewrite R; cbn; lia|].
      exists c, r; rewrite Er; rewrite R in *; cbn [set_alloc freeindex nelems allocBits allocCache] in *.
      split; [reflexivity|]; destruct r as [[f'' b]|]; [destruct Pr as (P1 & P2 & P3 & P4 & P5); split; [lia|split; [exact P2|split; [exact P3|split; [exact P4|]]]]|];
        intros j Hj; (destruct (Z.lt_ge_cases j f'); [apply Full; lia|]); [apply P5; lia|apply Pr; lia].
  - exists (allocCache s), (Some (f, TrailingZeros64 (allocCache s))); rewrite set_alloc_same.
    repeat (split; [first [reflexivity|lia|assumption]|]); intros j Hj; lia.
Qed.

Lemma shift_cache s f b c : 0 <= f -> cache_at s f -> 0 <= b -> (f + (b + 1)) mod 64 <> 0 -> b < 64 - f mod 64 ->
  cache_at (set_alloc c (Z.shiftr (allocCache s) (b + 1)) s) (f + (b + 1)).
Proof.
  intros Hf [Hu Hc] Hb Hm Hw; split; cbn [set_alloc allocCache allocBits].
  - unword; split; [apply Z.shiftr_nonneg; lia|]; rewrite Z.shiftr_div_pow2 by lia.
    pose proof (Z.pow_pos_nonneg 2 (b + 1)); apply Z.div_lt_upper_bound; nia.
  - pose proof (Z.mod_pos_bound f 64 ltac:(lia)) as M.
    assert (E : (f + (b + 1)) mod 64 = f mod 64 + (b + 1)).
    { pose proof (Z.div_mod f 64); symmetry; apply Z.mod_unique with (q := f / 64); [|lia]; left; split; [lia|].
      destruct (Z.eq_dec (f mod 64 + (b + 1)) 64) as [K|K]; [|lia].
      exfalso; apply Hm; replace (f + (b + 1)) with ((f / 64 + 1) * 64) by lia; apply Z.mod_mul; lia. }
    intros j Hj; rewrite Z.shiftr_spec, E by lia.
    destruct (Z.lt_ge_cases (j + (b + 1)) 64) as [L|L].
    + rewrite Hc by lia; replace (f + (j + (b + 1))) with (f + (b + 1) + j) by lia; f_equal.
      destruct (Z.ltb_spec (j + (b + 1)) (64 - f mod 64)), (Z.ltb_spec j (64 - (f mod 64 + (b + 1)))); reflexivity || lia.
    + replace (j <? 64 - (f mod 64 + (b + 1))) with false by (symmetry; apply Z.ltb_ge; lia).
      rewrite <- (Z.mod_small (allocCache s) (2 ^ 64)) by exact Hu; apply Z.mod_pow2_bits_high; lia.
Qed.

Lemma TrailingZeros64_range x : is_u64 x -> 0 <= TrailingZeros64 x <= 64.
Proof.
  intros Hx; destruct (Z.eq_dec x 0) as [->|N]; [rewrite TrailingZeros64_0; lia|].
  destruct (TrailingZeros64_spec x Hx N) as [R _]; lia.
Qed.

Lemma u16_index x : 0 <= x < 2048 -> u16 x = x.
Proof. intros H; unfold u16; apply Z.mod_small; lia. Qed.

(** The state after slot [i] is taken, with cache [c]. *)
Definition taken (s : mspan) (i c : Z) : mspan := set_alloc (Z.min (nelems s) (i + 1)) c s.

(** The slow way: the first free slot, and a cache in step with the bitmap. *)
Lemma nextFreeIndex_ok s : bits_wf s -> cache_ok s ->
  exists i c, nextFreeIndex s = Ret (i, taken s i c) /\ first_free s (freeindex s) i /\ cache_ok (taken s i c) /\
    (freeindex s < nelems s -> TrailingZeros64 (allocCache s) <> 64 -> i < nelems s ->
      i = freeindex s + TrailingZeros64 (allocCache s) /\
      ((i + 1) mod 64 <> 0 \/ i + 1 = nelems s -> c = Z.shiftr (allocCache s) (TrailingZeros64 (allocCache s) + 1))).
Proof.
  intros [HN HB HF] HC; unfold MaxObjsPerSpan in HN.
  unfold nextFreeIndex, taken; destruct (Z.eqb_spec (freeindex s) (nelems s)) as [E|NE].
  { exists (nelems s), (allocCache s); rewrite Z.min_l by lia.
    split; [rewrite <- E, set_alloc_same; reflexivity|split; [split; [lia|split; [intros; lia|lia]]|]].
    split; [intros L; cbn in L; lia|lia]. }
  destruct (Z.ltb_spec (nelems s) (freeindex s)); [lia|].
  pose proof (HC ltac:(lia)) as C; destruct (cache_lowest s (freeindex s) ltac:(lia) C) as [Full Found].
  destruct (skip_full_words_ok (Z.to_nat (nelems s)) s (freeindex s)) as (c & r & Es & Pr); [exact HB|exact (proj2 HN)|lia|exact C|lia|].
  assert (First : TrailingZeros64 (allocCache s) <> 64 -> c = allocCache s /\ r = Some (freeindex s, TrailingZeros64 (allocCache s))).
  { intros N; destruct (Z.to_nat (nelems s)); cbn [skip_full_words] in Es; rewrite (proj2 (Z.eqb_neq _ _) N) in Es;
      injection Es as Ec <-; (split; [apply (f_equal allocCache) in Ec; cbn in Ec; congruence|reflexivity]). }
  rewrite Es; destruct r as [[f b]|].
  2:{ exists (nelems s), c; rewrite Z.min_l by lia; cbn [set_alloc allocCache]; rewrite set_alloc_twice.
      split; [reflexivity|split; [split; [lia|split; [exact Pr|lia]]|split; [intros L; cbn in L; lia|lia]]]. }
  destruct Pr as (Hf & Cf & Eb & Nb & Bf); cbn [set_alloc freeindex nelems allocBits allocCache].
  destruct (cache_lowest _ f ltac:(lia) Cf) as [_ Found']; cbn [set_alloc allocCache allocBits] in Found'; rewrite <- Eb in Found'.
  destruct (Found' Nb) as (Rb & Fb & Lb); pose proof (Z.mod_pos_bound f 64 ltac:(lia)) as M; rewrite u16_index by lia.
  assert (All : forall j, freeindex s <= j < f + b -> bit (allocBits s) j = true)
    by (intros j Hj; destruct (Z.lt_ge_cases j f); [apply Bf; lia|apply Lb; lia]).
  destruct (Z.leb_spec (nelems s) (f + b)) as [Out|In].
  { exists (nelems s), c; rewrite Z.min_l by lia; rewrite set_alloc_twice.
    split; [reflexivity|split; [split; [lia|split; [intros j Hj; apply All; lia|lia]]|split; [intros L; cbn in L; lia|lia]]]. }
  rewrite u16_index by lia; rewrite !set_alloc_twice.
  set (s1 := set_alloc (freeindex s) (Z.shiftr c (b + 1)) s).
  exists (f + b); destruct ((f + b + 1) mod 64 =? 0) eqn:W; cbn [andb]; [destruct (Z.eqb_spec (f + b + 1) (nelems s)) as [L|L]; cbn [negb]|].
  - exists (Z.shiftr c (b + 1)); rewrite L, Z.min_id; split; [reflexivity|split; [split; [lia|split; [exact All|intros _; exact Fb]]|]].
    split; [intros K; cbn in K; lia|intros _ N _; destruct (First N) as [-> [= -> ->]]; split; [reflexivity|intros _; reflexivity]].
  - destruct (refill_set s1 ((f + b + 1) / 8)) as [c1 R]; pose proof (refill_cache_at s1 (f + b + 1)) as C1.
    rewrite R in *; cbn [s1 set_alloc freeindex allocCache]; exists c1; rewrite Z.min_r by lia; rewrite !set_alloc_twice.
    apply Z.eqb_eq in W; specialize (C1 HB ltac:(lia) W).
    split; [reflexivity|split; [split; [lia|split; [exact All|intros _; exact Fb]]|]].
    split; [intros _; exact C1|intros _ N _; destruct (First N) as [-> [= -> ->]]; split; [reflexivity|intros [?|?]; lia]].
  - apply Z.eqb_neq in W; exists (Z.shiftr c (b + 1)); rewrite Z.min_r by lia; split; [reflexivity|split; [split; [lia|split; [exact All|intros _; exact Fb]]|]].
    split; [intros _|intros _ N _; destruct (First N) as [-> [= -> ->]]; split; [reflexivity|intros _; reflexivity]].
    pose proof (shift_cache (set_alloc (freeindex s) c s) f b (f + b + 1) ltac:(lia) Cf ltac:(lia)) as Sh.
    rewrite Z.add_assoc in Sh; apply Sh; [exact W|lia].
Qed.

(** Both ways agree. *)
Lemma nextFreeFast_ok s i c : bits_wf s -> cache_ok s -> freeindex s < nelems s -> nextFreeIndex s = Ret (i, taken s i c) ->
  nextFreeFast s = (0, s) \/
  i < nelems s /\ nextFreeFast s = (slot s i, set_allocCount (u16 (allocCount s + 1)) (taken s i c)).
Proof.
  intros W C Lt E; pose proof (proj1 (C Lt)) as U; destruct (nextFreeIndex_ok s W C) as (i' & c' & E' & F & _ & Q).
  destruct W as [HN HB HF]; unfold MaxObjsPerSpan in HN; rewrite E in E'; injection E' as <- _ Ec.
  pose proof (TrailingZeros64_range _ U) as R.
  unfold nextFreeFast; destruct (Z.ltb_spec (TrailingZeros64 (allocCache s)) 64) as [L|_]; [|auto].
  rewrite u16_index by lia; destruct (Z.ltb_spec (freeindex s + TrailingZeros64 (allocCache s)) (nelems s)) as [I|_]; [|auto].
  destruct (cache_lowest s (freeindex s) ltac:(lia) (C ltac:(lia))) as [_ Found]; destruct (Found ltac:(lia)) as (_ & Fb & Lb).
  assert (Li : i = freeindex s + TrailingZeros64 (allocCache s)).
  { destruct F as (Fi & Fl & Fr); destruct (Z.lt_trichotomy i (freeindex s + TrailingZeros64 (allocCache s))) as [K|[K|K]]; [|exact K|].
    - rewrite Lb in Fr by lia; discriminate Fr; lia.
    - rewrite Fl in Fb by lia; discriminate. }
  rewrite <- Li in *; rewrite u16_index by lia.
  destruct (Q ltac:(lia) ltac:(lia) I) as [_ Qc].
  destruct ((i + 1) mod 64 =? 0) eqn:W; cbn [andb]; [destruct (Z.eqb_spec (i + 1) (nelems s)) as [K|K]; cbn [negb]; [|auto]|];
    right; (split; [exact I|]); unfold slot; rewrite (Z.add_comm (u64 _)); do 2 f_equal; unfold taken; rewrite Z.min_r by lia;
    rewrite Ec, Qc; auto; left; apply Z.eqb_neq, W.
Qed.
