(* ===== verification/Sweep.v ===== *)
(** * Sweeping: freed heap memory is cleared

    [(mspan).sweep] of [runtime/mgcsweep.go] with the clearing the fork adds, over the spans
    of MSpan.v, and [janosSanitizeLargeSpan] of [runtime/janos_sanitize.go].  The whole
    function is modelled: special records, the clearing loop, the check for zombies, the
    exchange of the bitmaps and what becomes of the span.  Not modelled are trace events, the
    hooks of the race detector and the sanitizers (constant false), the pacer's counters of
    [freeSpan] and the per-arena page bitmaps. *)

From Stdlib Require Import String ZArith Lia List Bool Sorting.
From S2P Require Import Prelude Slices SysBits MSpan.
Import ListNotations.
#[local] Open Scope outcome_scope.

(** ** Definitions *)

(** What [freeSpecial] hands to other parts of the runtime. *)
Inductive gc_event : Type :=
| QueueFinalizer (p fn : Z)
| ClearWeakHandle (handle : Z)
| ProfFree (bucket size : Z)
| ReachableDone (id : Z) (reachable : bool)
| EnqueueCleanup (fn : Z).

(** What a sweep works on: the memory, the span and the events so far. *)
Record sweeping : Type := MkSweeping { sw_mem : memory; sw_span : mspan; sw_events : list gc_event }.

Definition emit (e : gc_event) (w : sweeping) : sweeping := MkSweeping (sw_mem w) (sw_span w) (sw_events w ++ [e]).

Definition freeSpecial (sp : special) (p size : Z) (w : sweeping) : sweeping :=
  match sp_kind sp with
  | SpecialFinalizer fn => emit (QueueFinalizer p fn) w
  | SpecialWeakHandle handle => emit (ClearWeakHandle handle) w
  | SpecialProfile bucket => emit (ProfFree bucket size) w
  | SpecialReachable id reachable => emit (ReachableDone id reachable) w
  | SpecialCleanup fn => emit (EnqueueCleanup fn) w
  | SpecialSecret n => MkSweeping (memclrNoHeapPointers p n (sw_mem w)) (sw_span w) (sw_events w)
  | SpecialPinCounter | SpecialCheckFinalizer | SpecialTinyBlock | SpecialBubble => w
  end.

Definition is_finalizer (k : special_kind) : bool := match k with SpecialFinalizer _ => true | _ => false end.
Definition is_weak (k : special_kind) : bool := match k with SpecialWeakHandle _ => true | _ => false end.

(** Pass 1: [for tmp := siter.s; tmp != nil && tmp.offset < endOffset; tmp = tmp.next]. *)
Fixpoint has_finalizer (endOffset : Z) (l : list special) : bool :=
  match l with
  | [] => false
  | tmp :: l => (sp_offset tmp <? endOffset) && (is_finalizer (sp_kind tmp) || has_finalizer endOffset l)
  end.

(** Pass 2 of a revived object: the records kept, and the rest of the list. *)
Fixpoint drain_revived (base size endOffset : Z) (l : list special) (w : sweeping) : list special * list special * sweeping :=
  match l with
  | [] => ([], [], w)
  | sp :: l' =>
      if sp_offset sp <? endOffset then
        if is_finalizer (sp_kind sp) || is_weak (sp_kind sp)
        then drain_revived base size endOffset l' (freeSpecial sp (u64 (base + sp_offset sp)) size w)
        else let '(kept, rest, w) := drain_revived base size endOffset l' w in (sp :: kept, rest, w)
      else ([], l, w)
  end.

(** Pass 2 of a dead object. *)
Fixpoint drain_dead (base size endOffset : Z) (l : list special) (w : sweeping) : list special * sweeping :=
  match l with
  | [] => ([], w)
  | sp :: l' =>
      if sp_offset sp <? endOffset
      then drain_dead base size endOffset l' (freeSpecial sp (u64 (base + sp_offset sp)) size w)
      else (l, w)
  end.

(** The loop over the special records; the first result is the list it leaves. *)
Fixpoint sweep_specials (fuel : nat) (l : list special) (w : sweeping) : list special * sweeping :=
  match fuel, l with
  | S fuel, sp :: l' =>
      let s := sw_span w in
      let base := startAddr s in
      let size := elemsize s in
      let objIndex := sp_offset sp / size in
      let p := u64 (base + u64 (objIndex * size)) in
      let mbits := markBitsForIndex s objIndex in
      if negb (isMarked (sw_mem w) s mbits) then
        let endOffset := u64 (p - base + size) in
        if has_finalizer endOffset l then
          let '(m, s) := setMarked (sw_mem w) s mbits in
          let '(kept, rest, w) := drain_revived base size endOffset l (MkSweeping m s (sw_events w)) in
          let '(kept', w) := sweep_specials fuel rest w in (kept ++ kept', w)
        else
          let '(rest, w) := drain_dead base size endOffset l w in
          sweep_specials fuel rest w
      else
        match sp_kind sp with
        | SpecialReachable id _ => sweep_specials fuel l' (freeSpecial (MkSpecial (sp_offset sp) (SpecialReachable id true)) p size w)
        | _ => let '(kept, w) := sweep_specials fuel l' w in (sp :: kept, w)
        end
  | _, _ => (l, w)
  end.

Record debug_vars : Type := MkDebug { clobberfree_on : bool; efence_on : bool }.

(** [clobberfree]: the pattern 0xdeadbeef over the object. *)
Definition clobberfree (x size : Z) (m : memory) : memory :=
  for_range 0 (Z.to_nat (divRoundUp size 4)) (fun i m => store_bytes (x + 4 * Z.of_nat i) (le_bytes 4 0xdeadbeef) m) m.

(** The loop that finds the newly freed objects. *)
Definition sweep_object (dbg : debug_vars) (s : mspan) (i : nat) (st : memory * markBits * markBits) : memory * markBits * markBits :=
  let '(m, mbits, abits) := st in
  let m :=
    if negb (isMarked m s mbits) && ((index abits <? freeindex s) || isMarked m s abits) then
      let x := slot s (Z.of_nat i) in
      let m := if clobberfree_on dbg then clobberfree x (elemsize s) m else m in
      if negb (isUserArenaChunk s) then memclrNoHeapPointers x (elemsize s) m else m
    else m in
  (m, advance mbits, advance abits).

Definition sweep_objects (dbg : debug_vars) (s : mspan) (m : memory) : memory :=
  fst (fst (for_range 0 (Z.to_nat (nelems s)) (sweep_object dbg s) (m, markBitsForBase s, allocBitsForIndex 0))).

(** The first half of a sweep: special records, clearing, and the marks in one bitmap. *)
Definition stage (dbg : debug_vars) (w : sweeping) : mspan * memory * list gc_event :=
  let s := sw_span w in
  let '(kept, w) := sweep_specials (length (specials s)) (specials s) w in
  let s := set_specials kept (sw_span w) in
  let m := sweep_objects dbg s (sw_mem w) in
  let '(s, m) :=
    if gcUsesSpanInlineMarkBits (elemsize s)
    then let '(b, m) := moveInlineMarks s (gcmarkBits s) m in (set_gcmarkBits b s, m) else (s, m) in
  (s, m, sw_events w).

(** The check for zombies: marked but free objects. *)
Definition zombie_byte (s : mspan) (i : Z) : Z :=
  Z.ldiff (nth (Z.to_nat i) (gcmarkBits s) 0) (nth (Z.to_nat i) (allocBits s) 0).
Definition has_zombies (s : mspan) : bool :=
  (freeindex s <? nelems s) &&
  (let obj := freeindex s in
   negb (Z.shiftr (zombie_byte s (obj / 8)) (obj mod 8) =? 0) ||
   existsb (fun k => negb (zombie_byte s (obj / 8 + 1 + Z.of_nat k) =? 0))
     (seq 0 (Z.to_nat (divRoundUp (nelems s) 8 - (obj / 8 + 1))))).

Definition refreshPinnerBits (s : mspan) : option (list Z) :=
  match pinnerBits s with
  | None => None
  | Some p =>
      let bytes := Z.to_nat (divRoundUp (divRoundUp (nelems s * 2) 8) 8 * 8) in
      if existsb (fun x => negb (x =? 0)) (firstn bytes p) then Some (firstn bytes p) else None
  end.

(** The parts of [mheap_] a sweep touches; spans are named by their address. *)
Record mheap : Type := MkHeap {
  h_sweepgen : Z;
  pagesSwept : Z;
  pagesInUse : Z;
  smallFreeCount : list Z;
  largeFreeCount : Z;
  largeFree : Z;
  totalFree : Z;
  fullSwept : list (spanClass * Z);
  partialSwept : list (spanClass * Z);
  quarantineList : list Z;
  readyList : list Z;
  freePages : list (Z * Z);
  faulted : list (Z * Z);
}.

Definition freed (s : mspan) (h : mheap) : mheap :=
  MkHeap (h_sweepgen h) (pagesSwept h) (u64 (pagesInUse h - npages s)) (smallFreeCount h) (largeFreeCount h) (largeFree h) (totalFree h)
    (fullSwept h) (partialSwept h) (quarantineList h) (readyList h) ((startAddr s, npages s) :: freePages h) (faulted h).
Definition count_swept (n : Z) (h : mheap) : mheap :=
  MkHeap (h_sweepgen h) (u64 (pagesSwept h + n)) (pagesInUse h) (smallFreeCount h) (largeFreeCount h) (largeFree h) (totalFree h)
    (fullSwept h) (partialSwept h) (quarantineList h) (readyList h) (freePages h) (faulted h).
Definition count_small (class n size : Z) (h : mheap) : mheap :=
  MkHeap (h_sweepgen h) (pagesSwept h) (pagesInUse h)
    (upd (smallFreeCount h) (Z.to_nat class) (u64 (nth (Z.to_nat class) (smallFreeCount h) 0 + n))) (largeFreeCount h) (largeFree h)
    (u64 (totalFree h + n * size)) (fullSwept h) (partialSwept h) (quarantineList h) (readyList h) (freePages h) (faulted h).
Definition count_large (size : Z) (h : mheap) : mheap :=
  MkHeap (h_sweepgen h) (pagesSwept h) (pagesInUse h) (smallFreeCount h) (u64 (largeFreeCount h + 1)) (u64 (largeFree h + size))
    (u64 (totalFree h + size)) (fullSwept h) (partialSwept h) (quarantineList h) (readyList h) (freePages h) (faulted h).
Definition push_full (spc : spanClass) (a : Z) (h : mheap) : mheap :=
  MkHeap (h_sweepgen h) (pagesSwept h) (pagesInUse h) (smallFreeCount h) (largeFreeCount h) (largeFree h) (totalFree h)
    ((spc, a) :: fullSwept h) (partialSwept h) (quarantineList h) (readyList h) (freePages h) (faulted h).
Definition push_partial (spc : spanClass) (a : Z) (h : mheap) : mheap :=
  MkHeap (h_sweepgen h) (pagesSwept h) (pagesInUse h) (smallFreeCount h) (largeFreeCount h) (largeFree h) (totalFree h)
    (fullSwept h) ((spc, a) :: partialSwept h) (quarantineList h) (readyList h) (freePages h) (faulted h).
Definition arena_ready (a npages : Z) (h : mheap) : mheap :=
  MkHeap (h_sweepgen h) (pagesSwept h) (u64 (pagesInUse h - npages)) (smallFreeCount h) (largeFreeCount h) (largeFree h) (totalFree h)
    (fullSwept h) (partialSwept h) (filter (fun b => negb (b =? a)) (quarantineList h)) (a :: readyList h) (freePages h) (faulted h).
Definition sysFault (v n : Z) (h : mheap) : mheap :=
  MkHeap (h_sweepgen h) (pagesSwept h) (pagesInUse h) (smallFreeCount h) (largeFreeCount h) (largeFree h) (totalFree h)
    (fullSwept h) (partialSwept h) (quarantineList h) (readyList h) (freePages h) ((v, n) :: faulted h).

(** [freeSpan], [freeSpanLocked] for a heap span. *)
Definition freeSpan (s : mspan) (h : mheap) : outcome string (mspan * mheap) :=
  match state s with
  | mSpanInUse =>
      if isUserArenaChunk s then Fail "mheap.freeSpanLocked - invalid free of user arena chunk"%string
      else if negb (allocCount s =? 0) || negb (sweepgen s =? h_sweepgen h) then Fail "mheap.freeSpanLocked - invalid free"%string
      else Ret (set_state mSpanDead s, freed s h)
  | _ => Fail "mheap.freeSpanLocked - invalid span state"%string
  end.

Definition janosSanitizeLargeSpan (s : mspan) (m : memory) : mspan * memory :=
  if npages s =? 0 then (s, m)
  else (set_needzero 0 s, memclrNoHeapPointers (startAddr s) (u64 (npages s * pageSize)) m).

(** A swept span: the mark bits become the allocation bits. *)
Definition exchange_bits (nalloc : Z) (s : mspan) : mspan :=
  refillAllocCache 0
    (MkSpan (startAddr s) (npages s) (manualFreeList s) 0 (nelems s) 0 (allocCache s) (gcmarkBits s) (newMarkBits (nelems s))
      (refreshPinnerBits s) (sweepgen s) (divMul s) nalloc (spanclass s) (state s) (needzero s) (isUserArenaChunk s) (elemsize s)
      (limit s) (specials s)).

Record swept : Type := MkSwept { freed_to_heap : bool; after : sweeping; heap_after : mheap }.

(** From the serialization point on: where the span goes. *)
Definition dispose (dbg : debug_vars) (preserve : bool) (nalloc nfreed : Z) (w : sweeping) (h : mheap) : outcome string swept :=
  let s := sw_span w in
  let spc := spanclass s in
  let keep b h := Ret (MkSwept b w h) in
  if isUserArenaChunk s then
    if preserve then Fail "sweep: tried to preserve a user arena span"%string
    else if 0 <? nalloc then keep false (push_full spc (startAddr s) h)
    else if negb (existsb (Z.eqb (startAddr s)) (quarantineList h)) then Fail "user arena span is on the wrong list"%string
    else Ret (MkSwept false (MkSweeping (sw_mem w) (set_state mSpanDead s) (sw_events w)) (arena_ready (startAddr s) (npages s) h))
  else if negb (sizeclass spc =? 0) then
    let '(s, h) := if 0 <? nfreed then (set_needzero 1 s, count_small (sizeclass spc) nfreed (elemsize s) h) else (s, h) in
    let w := MkSweeping (sw_mem w) s (sw_events w) in
    if preserve then Ret (MkSwept false w h)
    else if nalloc =? 0 then
      let* r := freeSpan s h in Ret (MkSwept true (MkSweeping (sw_mem w) (fst r) (sw_events w)) (snd r))
    else if nalloc =? nelems s then Ret (MkSwept false w (push_full spc (startAddr s) h))
    else Ret (MkSwept false w (push_partial spc (startAddr s) h))
  else if preserve then keep false h
  else if negb (nfreed =? 0) then
    let h := count_large (elemsize s) h in
    if efence_on dbg then
      Ret (MkSwept true (MkSweeping (sw_mem w) (set_limit 0 s) (sw_events w)) (sysFault (startAddr s) (elemsize s) h))
    else
      let '(s, m) := janosSanitizeLargeSpan s (sw_mem w) in
      let* r := freeSpan s h in Ret (MkSwept true (MkSweeping m (fst r) (sw_events w)) (snd r))
  else keep false (push_full spc (startAddr s) h).

Definition being_swept (s : mspan) (h : mheap) : bool :=
  match state s with mSpanInUse => sweepgen s =? u32 (h_sweepgen h - 1) | _ => false end.

(** [(sweepLocked).sweep]; [locked] says that the caller holds its m. *)
Definition sweep (dbg : debug_vars) (locked preserve : bool) (w : sweeping) (h : mheap) : outcome string swept :=
  let s := sw_span w in
  if negb locked then Fail "mspan.sweep: m is not locked"%string
  else if negb (being_swept s h) then Fail "mspan.sweep: bad span state"%string
  else
    let h := count_swept (npages s) h in
    let '(s, m, events) := stage dbg w in
    if has_zombies s then Fail "found pointer to free object"%string
    else
      let nalloc := u16 (countAlloc s) in
      let nfreed := u16 (allocCount s - nalloc) in
      if allocCount s <? nalloc then Fail "sweep increased allocation count"%string
      else
        let s := exchange_bits nalloc s in
        if negb (being_swept s h) then Fail "mspan.sweep: bad span state after sweep"%string
        else if (sweepgen s =? u32 (h_sweepgen h + 1)) || (sweepgen s =? u32 (h_sweepgen h + 3)) then Fail "swept cached span"%string
        else
          let s := set_sweepgen (h_sweepgen h) s in
          dispose dbg preserve nalloc nfreed (MkSweeping m s events) h.

(** ** The layout of a span *)

Definition objects_end (s : mspan) : Z := startAddr s + nelems s * elemsize s.
Definition in_objects (s : mspan) (a : Z) : Prop := startAddr s <= a < objects_end s.
Definition slot_at (s : mspan) (a : Z) : Z := (a - startAddr s) / elemsize s.
Definition span_end (s : mspan) : Z := startAddr s + npages s * pageSize.

(** The slots fit into the pages, below the mark bits when these are kept in the span. *)
Record span_wf (s : mspan) : Prop := {
  wf_start : 0 <= startAddr s;
  wf_end : span_end s < 2 ^ 48;
  wf_bits : bits_wf s;
  wf_marks : bytes (gcmarkBits s);
  wf_alloc_len : length (allocBits s) = length (newMarkBits (nelems s));
  wf_marks_len : length (gcmarkBits s) = length (newMarkBits (nelems s));
  wf_pad : forall i, nelems s <= i -> bit (allocBits s) i = false /\ bit (gcmarkBits s) i = false;
  wf_elem : 0 < elemsize s;
  wf_elem4 : elemsize s mod 4 = 0;
  wf_fit : objects_end s <= span_end s;
  wf_inline : gcUsesSpanInlineMarkBits (elemsize s) = true ->
    npages s = 1 /\ objects_end s <= inlineMarkBits s;
}.

Lemma slot_exact s i : span_wf s -> 0 <= i < nelems s -> slot s i = startAddr s + i * elemsize s.
Proof.
  intros W Hi; pose proof (wf_start _ W); pose proof (wf_end _ W); pose proof (wf_elem _ W); pose proof (wf_fit _ W).
  unfold objects_end, span_end in *; change (2 ^ 48) with 281474976710656 in *; unfold slot.
  assert (i * elemsize s <= nelems s * elemsize s) by nia.
  rewrite (u64_small (i * _)) by (unword; nia); apply u64_small; unword; nia.
Qed.

(** An address of the object area lies in exactly one slot. *)
Lemma slot_at_range s a : 0 < elemsize s -> in_objects s a ->
  0 <= slot_at s a < nelems s /\ startAddr s + slot_at s a * elemsize s <= a < startAddr s + slot_at s a * elemsize s + elemsize s.
Proof.
  intros He [H1 H2]; unfold slot_at, objects_end in *.
  pose proof (Z.div_mod (a - startAddr s) (elemsize s)); pose proof (Z.mod_pos_bound (a - startAddr s) (elemsize s)).
  split; [split; [apply Z.div_pos; lia|apply Z.div_lt_upper_bound; lia]|lia].
Qed.

Lemma slot_at_unique s a i : 0 < elemsize s ->
  startAddr s + i * elemsize s <= a < startAddr s + i * elemsize s + elemsize s -> slot_at s a = i.
Proof. intros He H; unfold slot_at; symmetry; apply Z.div_unique with (r := a - startAddr s - i * elemsize s); lia. Qed.

Lemma slot_in_objects s a i : 0 < elemsize s -> 0 <= i < nelems s ->
  startAddr s + i * elemsize s <= a < startAddr s + i * elemsize s + elemsize s -> in_objects s a.
Proof. intros He Hi H; unfold in_objects, objects_end; nia. Qed.

(** Two memories that agree on the mark bits have the same marks. *)
Lemma marked_agree m m' s i : span_wf s -> 0 <= i -> (forall a, objects_end s <= a -> m' a = m a) -> marked m' s i = marked m s i.
Proof.
  intros W Hi H; unfold marked, mark_byte; destruct (gcUsesSpanInlineMarkBits _) eqn:I; [|reflexivity].
  destruct (wf_inline _ W I) as [_ E]; rewrite H; [reflexivity|].
  unfold imb_marks; pose proof (Z.div_pos i 8); lia.
Qed.

(** ** The special records *)

(** What the loop leaves alone. *)
Definition same_but_marks (s s' : mspan) : Prop := s' = set_gcmarkBits (gcmarkBits s') s.

Lemma same_refl s : same_but_marks s s.
Proof. destruct s; reflexivity. Qed.

Lemma same_trans s s' s'' : same_but_marks s s' -> same_but_marks s' s'' -> same_but_marks s s''.
Proof. unfold same_but_marks; intros -> ->; reflexivity. Qed.

Definition offsets_sorted (l : list special) : Prop := StronglySorted (fun a b => sp_offset a <= sp_offset b) l.

(** A record belongs to a slot; a secret lies inside its slot. *)
Definition special_wf (s : mspan) (sp : special) : Prop :=
  0 <= sp_offset sp < nelems s * elemsize s /\
  match sp_kind sp with SpecialSecret n => 0 <= n /\ sp_offset sp mod elemsize s + n <= elemsize s | _ => True end.

Definition special_slot (s : mspan) (sp : special) : Z := sp_offset sp / elemsize s.

(** A finalizer of slot [i] among the records. *)
Definition has_fin (s : mspan) (l : list special) (i : Z) : bool :=
  existsb (fun sp => is_finalizer (sp_kind sp) && (special_slot s sp =? i)) l.

Lemma freeSpecial_span sp p size w : sw_span (freeSpecial sp p size w) = sw_span w.
Proof. unfold freeSpecial, emit; destruct (sp_kind sp); reflexivity. Qed.

(** Freeing a record writes at most into its slot. *)
Lemma freeSpecial_mem sp s w size a : special_wf s sp -> span_wf s ->
  sw_mem (freeSpecial sp (u64 (startAddr s + sp_offset sp)) size w) a = sw_mem w a \/
  in_objects s a /\ slot_at s a = special_slot s sp /\ sw_mem (freeSpecial sp (u64 (startAddr s + sp_offset sp)) size w) a = 0.
Proof.
  intros [Ho Hs] W; pose proof (wf_start _ W); pose proof (wf_end _ W); pose proof (wf_elem _ W); pose proof (wf_fit _ W).
  unfold freeSpecial, emit; destruct (sp_kind sp); cbn [sw_mem]; auto.
  unfold memclrNoHeapPointers; destruct ((_ <=? a) && (a <? _)) eqn:E; [right|auto].
  unfold objects_end, span_end in *; change (2 ^ 48) with 281474976710656 in *.
  apply andb_true_iff in E as [E1 E2]; rewrite u64_small in E1, E2 by (unword; lia); apply Z.leb_le in E1; apply Z.ltb_lt in E2.
  pose proof (Z.div_mod (sp_offset sp) (elemsize s)); pose proof (Z.mod_pos_bound (sp_offset sp) (elemsize s)).
  assert (D : 0 <= special_slot s sp < nelems s)
    by (unfold special_slot; split; [apply Z.div_pos; lia|apply Z.div_lt_upper_bound; lia]).
  assert (R : startAddr s + special_slot s sp * elemsize s <= a < startAddr s + special_slot s sp * elemsize s + elemsize s)
    by (unfold special_slot in *; lia).
  split; [exact (slot_in_objects s a _ ltac:(assumption) D R)|split; [exact (slot_at_unique s a _ ltac:(assumption) R)|reflexivity]].
Qed.

(** Setting a mark. *)
Definition mark_bytes_of (s : mspan) (a : Z) : Prop :=
  gcUsesSpanInlineMarkBits (elemsize s) = true /\ inlineMarkBits s + imb_marks <= a < inlineMarkBits s + imb_class.

Lemma inline_nelems s : span_wf s -> gcUsesSpanInlineMarkBits (elemsize s) = true -> nelems s <= 504.
Proof.
  intros W I; destruct (wf_inline _ W I) as [_ E]; pose proof (bw_nelems _ (wf_bits _ W)).
  unfold gcUsesSpanInlineMarkBits in I; apply andb_true_iff in I as [_ I]; apply Z.leb_le in I.
  unfold objects_end, inlineMarkBits, pageSize, sizeof_spanInlineMarkBits in E; nia.
Qed.

Lemma div8_eq i j : 0 <= i -> 0 <= j -> i <> j -> i / 8 = j / 8 -> i mod 8 <> j mod 8.
Proof. intros Hi Hj N E M; apply N; rewrite (Z.div_mod i 8), (Z.div_mod j 8), E, M by lia; reflexivity. Qed.

Lemma bit_upd l i j : 0 <= i -> 0 <= j -> (Z.to_nat (i / 8) < length l)%nat ->
  bit (upd l (Z.to_nat (i / 8)) (Z.lor (nth (Z.to_nat (i / 8)) l 0) (2 ^ (i mod 8)))) j = bit l j || (j =? i).
Proof.
  intros Hi Hj L; unfold bit; rewrite nth_upd by exact L; pose proof (bit_index_mod i Hi); pose proof (bit_index_mod j Hj).
  destruct (Nat.eqb_spec (Z.to_nat (j / 8)) (Z.to_nat (i / 8))) as [E|E].
  - assert (D : j / 8 = i / 8) by (apply Z2Nat.inj; [apply Z.div_pos; lia|apply Z.div_pos; lia|exact E]).
    rewrite E, Z.lor_spec, Z.pow2_bits_eqb by lia; f_equal.
    destruct (Z.eqb_spec j i) as [->|N]; [apply Z.eqb_refl|apply Z.eqb_neq; intros M; apply (div8_eq j i); auto].
  - destruct (Z.eqb_spec j i) as [->|N]; [congruence|rewrite orb_false_r; reflexivity].
Qed.

Lemma byte_lor_pow b k : is_byte b -> 0 <= k < 8 -> is_byte (Z.lor b (2 ^ k)).
Proof.
  intros Hb Hk; apply byte_lor; [exact Hb|]; unword; split; [apply Z.pow_nonneg; lia|].
  change W8 with (2 ^ 8); apply Z.pow_lt_mono_r; lia.
Qed.

Lemma index_in_bits s i : span_wf s -> 0 <= i < nelems s -> (Z.to_nat (i / 8) < length (gcmarkBits s))%nat.
Proof.
  intros W Hi; rewrite (wf_marks_len _ W); unfold newMarkBits; rewrite repeat_length.
  apply Z2Nat.inj_lt; [apply Z.div_pos; lia|pose proof (Z.div_pos (nelems s + 63) 64); lia|].
  apply Z.div_lt_upper_bound; [lia|]; pose proof (Z.div_mod (nelems s + 63) 64); pose proof (Z.mod_pos_bound (nelems s + 63) 64); lia.
Qed.

Lemma set_marks_wf s l : span_wf s -> bytes l -> length l = length (gcmarkBits s) ->
  (forall i, nelems s <= i -> bit l i = false) -> span_wf (set_gcmarkBits l s).
Proof.
  intros W B L P; destruct W; constructor; cbn; auto.
  - destruct wf_bits0; constructor; assumption.
  - congruence.
  - intros i Hi; split; [apply wf_pad0, Hi|apply P, Hi].
Qed.

Lemma setMarked_ok m s i : span_wf s -> 0 <= i < nelems s ->
  let '(m1, s1) := setMarked m s (markBitsForIndex s i) in
  same_but_marks s s1 /\ span_wf s1 /\
  (forall j, 0 <= j -> marked m1 s1 j = marked m s j || (j =? i)) /\
  (forall a, ~ mark_bytes_of s a -> m1 a = m a) /\ ((forall a, is_byte (m a)) -> forall a, is_byte (m1 a)) /\
  (gcUsesSpanInlineMarkBits (elemsize s) = true -> gcmarkBits s1 = gcmarkBits s).
Proof.
  intros W Hi; pose proof (bit_index_mod i ltac:(lia)) as Mi.
  assert (D : 0 <= i / 8) by (apply Z.div_pos; lia).
  unfold setMarked, markBitsForIndex, mark_bytes_of, marked, mark_byte; cbn [bytep mask load_bit_ptr].
  destruct (gcUsesSpanInlineMarkBits (elemsize s)) eqn:G; cbn [load_bit_ptr]; rewrite mask_bits by exact Mi.
  - pose proof (inline_nelems s W G); assert (D' : i / 8 < 63) by (apply Z.div_lt_upper_bound; lia).
    split; [apply same_refl|split; [exact W|rewrite G; split; [|split; [|split; [|reflexivity]]]]].
    + intros j Hj; pose proof (bit_index_mod j Hj); unfold store_bytes; cbn [length nth].
      destruct (_ && _) eqn:E.
      * apply andb_true_iff in E as [E1 E2]; apply Z.leb_le in E1; apply Z.ltb_lt in E2.
        assert (Ed : j / 8 = i / 8) by lia; rewrite Ed, Z.sub_diag; cbn [Z.to_nat nth].
        rewrite Z.lor_spec, Z.pow2_bits_eqb by lia; f_equal.
        destruct (Z.eqb_spec j i) as [->|N]; [apply Z.eqb_refl|apply Z.eqb_neq; intros M; apply (div8_eq j i); auto; lia].
      * destruct (Z.eqb_spec j i) as [->|N]; [|rewrite orb_false_r; reflexivity].
        apply andb_false_iff in E as [E|E]; [apply Z.leb_gt in E|apply Z.ltb_ge in E]; lia.
    + intros a Ha; unfold store_bytes; cbn [length]; destruct (_ && _) eqn:E; [|reflexivity].
      apply andb_true_iff in E as [E1 E2]; apply Z.leb_le in E1; apply Z.ltb_lt in E2.
      contradiction Ha; split; [reflexivity|unfold imb_marks, imb_class in *; lia].
    + intros B a; unfold store_bytes; cbn [length]; destruct (_ && _) eqn:E; [|apply B].
      apply andb_true_iff in E as [E1 E2]; apply Z.leb_le in E1; apply Z.ltb_lt in E2.
      replace (Z.to_nat (a - _)) with 0%nat by lia; cbn [nth]; apply byte_lor_pow; [apply B|exact Mi].
  - cbn [set_gcmarkBits elemsize gcmarkBits]; rewrite G.
    pose proof (index_in_bits s i W Hi) as L.
    split; [reflexivity|split; [|split; [|split; [auto|split; [auto|congruence]]]]].
    + apply set_marks_wf; [exact W|apply bytes_upd; [apply wf_marks, W|apply byte_lor_pow; [apply bytes_nth, wf_marks, W|exact Mi]]|
        apply length_upd|].
      intros j Hj; rewrite bit_upd by (exact L || lia); rewrite (proj2 (wf_pad _ W j Hj)); apply Z.eqb_neq; lia.
    + intros j Hj; apply bit_upd; [lia|exact Hj|exact L].
Qed.

(** The records of one object: those below its end, at the head of the list. *)
Fixpoint chunk (endOffset : Z) (l : list special) : list special :=
  match l with [] => [] | sp :: l => if sp_offset sp <? endOffset then sp :: chunk endOffset l else [] end.
Fixpoint rest_of (endOffset : Z) (l : list special) : list special :=
  match l with [] => [] | sp :: l' => if sp_offset sp <? endOffset then rest_of endOffset l' else l end.

Lemma chunk_rest e l : l = chunk e l ++ rest_of e l.
Proof. induction l as [|sp l IH]; cbn; [reflexivity|]; destruct (_ <? _); cbn; [f_equal; exact IH|reflexivity]. Qed.

Lemma rest_length e l : (length (rest_of e l) <= length l)%nat.
Proof. rewrite (chunk_rest e l) at 2; rewrite length_app; lia. Qed.

Lemma chunk_below e l : Forall (fun sp => sp_offset sp < e) (chunk e l).
Proof. induction l as [|sp l IH]; cbn; [constructor|]; destruct (Z.ltb_spec (sp_offset sp) e); constructor; assumption. Qed.

Lemma sorted_rest e l : offsets_sorted l -> offsets_sorted (rest_of e l).
Proof.
  intros H; rewrite (chunk_rest e l) in H; unfold offsets_sorted in *; induction (chunk e l); [exact H|].
  apply IHl0; inversion H; assumption.
Qed.

Lemma rest_above e l : offsets_sorted l -> Forall (fun sp => e <= sp_offset sp) (rest_of e l).
Proof.
  induction 1 as [|sp l S IH F]; cbn; [constructor|].
  destruct (Z.ltb_spec (sp_offset sp) e); [exact IH|constructor; [exact H|]].
  revert F; apply Forall_impl; intros x Hx; lia.
Qed.

Lemma has_finalizer_chunk e l : has_finalizer e l = existsb (fun sp => is_finalizer (sp_kind sp)) (chunk e l).
Proof. induction l as [|sp l IH]; cbn; [reflexivity|]; destruct (_ <? _); cbn [andb existsb]; [rewrite IH|]; reflexivity. Qed.

(** Pass 2 of a revived object touches neither memory nor span. *)
Lemma drain_revived_ok base size e l w :
  let '(kept, rest, w') := drain_revived base size e l w in rest = rest_of e l /\ sw_mem w' = sw_mem w /\ sw_span w' = sw_span w.
Proof.
  revert w; induction l as [|sp l IH]; intros w; cbn [drain_revived rest_of]; [auto|].
  destruct (sp_offset sp <? e); [|auto].
  destruct (is_finalizer (sp_kind sp) || is_weak (sp_kind sp)) eqn:K.
  - specialize (IH (freeSpecial sp (u64 (base + sp_offset sp)) size w)).
    destruct (drain_revived _ _ _ _ _) as [[k r] w']; destruct IH as (E1 & E2 & E3).
    unfold freeSpecial, emit in *; destruct (sp_kind sp); try discriminate; cbn in *; auto.
  - specialize (IH w); destruct (drain_revived _ _ _ _ _) as [[k r] w']; exact IH.
Qed.

(** Pass 2 of a dead object writes zeros into its slot only. *)
Lemma drain_dead_ok s e size l w : span_wf s -> Forall (special_wf s) l ->
  let '(rest, w') := drain_dead (startAddr s) size e l w in
  rest = rest_of e l /\ sw_span w' = sw_span w /\
  forall a, sw_mem w' a = sw_mem w a \/
    (in_objects s a /\ sw_mem w' a = 0 /\ exists sp, In sp (chunk e l) /\ slot_at s a = special_slot s sp).
Proof.
  intros W H; revert w; induction H as [|sp l Hs _ IH]; intros w; cbn [drain_dead rest_of chunk]; [auto|].
  destruct (sp_offset sp <? e); [|auto].
  specialize (IH (freeSpecial sp (u64 (startAddr s + sp_offset sp)) size w)).
  destruct (drain_dead _ _ _ _ _) as [r w']; destruct IH as (E1 & E2 & E3); rewrite freeSpecial_span in E2.
  split; [exact E1|split; [exact E2|intros a]].
  destruct (E3 a) as [E|(Ia & Z0 & sp' & I & Sl)]; [|right; split; [exact Ia|split; [exact Z0|exists sp'; cbn; auto]]].
  rewrite E; destruct (freeSpecial_mem sp s w size a Hs W) as [F|(Ia & Sl & Z0)]; [auto|].
  right; split; [exact Ia|split; [exact Z0|exists sp; cbn; auto]].
Qed.

(** What the loop does to the marks and to memory. *)
Record specials_done (s : mspan) (m : memory) (l : list special) (w : sweeping) : Prop := {
  sd_span : same_but_marks s (sw_span w);
  sd_wf : span_wf (sw_span w);
  sd_marks : forall i, 0 <= i -> marked (sw_mem w) (sw_span w) i = marked m s i || has_fin s l i;
  sd_outside : forall a, ~ in_objects s a -> ~ mark_bytes_of s a -> sw_mem w a = m a;
  sd_objects : forall a, in_objects s a -> sw_mem w a = m a \/
    (sw_mem w a = 0 /\ marked (sw_mem w) (sw_span w) (slot_at s a) = false /\ exists sp, In sp l /\ special_slot s sp = slot_at s a);
  sd_bytes : (forall a, is_byte (m a)) -> forall a, is_byte (sw_mem w a);
  sd_inline : gcUsesSpanInlineMarkBits (elemsize s) = true -> gcmarkBits (sw_span w) = gcmarkBits s;
}.

Lemma has_fin_app s l k i : has_fin s (l ++ k) i = has_fin s l i || has_fin s k i.
Proof. apply existsb_app. Qed.

Lemma has_fin_absent s l i : Forall (fun sp => special_slot s sp <> i) l -> has_fin s l i = false.
Proof.
  induction 1 as [|sp l H _ IH]; [reflexivity|]; cbn; fold (has_fin s l i); rewrite IH, orb_false_r.
  apply andb_false_iff; right; apply Z.eqb_neq, H.
Qed.

Lemma objects_not_marks s a : span_wf s -> in_objects s a -> ~ mark_bytes_of s a.
Proof. intros W [_ H] [G [L _]]; destruct (wf_inline _ W G) as [_ E]; unfold imb_marks in L; lia. Qed.

Lemma same_wf_fields s s' : same_but_marks s s' -> startAddr s' = startAddr s /\ elemsize s' = elemsize s /\ nelems s' = nelems s.
Proof. intros ->; auto. Qed.

Lemma done_nil s m ev : span_wf s -> specials_done s m [] (MkSweeping m s ev).
Proof.
  intros W; constructor; cbn [sw_span sw_mem has_fin existsb]; auto.
  - apply same_refl.
  - intros; rewrite orb_false_r; reflexivity.
Qed.

(** One object after another. *)
Lemma done_app s m l1 l2 w1 w2 :
  specials_done s m l1 w1 -> specials_done (sw_span w1) (sw_mem w1) l2 w2 ->
  (forall sp, In sp l1 -> marked (sw_mem w1) (sw_span w1) (special_slot s sp) = false -> has_fin s l2 (special_slot s sp) = false) ->
  span_wf s -> specials_done s m (l1 ++ l2) w2.
Proof.
  intros [A1 A2 A3 A4 A5 A6 A7] [B1 B2 B3 B4 B5 B6 B7] Late W; rewrite A1 in *; set (b := gcmarkBits (sw_span w1)) in *; clearbody b.
  constructor.
  - rewrite B1; reflexivity.
  - exact B2.
  - intros i Hi; rewrite B3, A3, has_fin_app, orb_assoc by exact Hi; reflexivity.
  - intros a O M; rewrite B4 by assumption; apply A4; assumption.
  - intros a Ia; destruct (B5 a Ia) as [E|(Z0 & Mk & sp & I & S)].
    + rewrite E; destruct (A5 a Ia) as [E'|(Z0 & Mk & sp & I & S)]; [auto|right].
      split; [exact Z0|split; [|exists sp; split; [apply in_or_app; auto|exact S]]].
      rewrite B3 by (apply (slot_at_range s a); [apply W|exact Ia]); rewrite <- S in *.
      change (marked (sw_mem w1) (set_gcmarkBits b s) (special_slot s sp) || has_fin s l2 (special_slot s sp) = false).
      rewrite Mk; apply Late; assumption.
    + right; split; [exact Z0|split; [exact Mk|exists sp; split; [apply in_or_app; auto|exact S]]].
  - intros H; apply B6, A6, H.
  - intros G; rewrite (B7 G); exact (A7 G).
Qed.

Lemma special_slot_range s sp : span_wf s -> special_wf s sp -> 0 <= special_slot s sp < nelems s.
Proof.
  intros W [H _]; pose proof (wf_elem _ W); unfold special_slot; split; [apply Z.div_pos; lia|apply Z.div_lt_upper_bound; lia].
Qed.

(** The end of the object of the first record. *)
Lemma object_end s sp : span_wf s -> special_wf s sp ->
  let p := u64 (startAddr s + u64 (sp_offset sp / elemsize s * elemsize s)) in
  p = startAddr s + special_slot s sp * elemsize s /\
  u64 (p - startAddr s + elemsize s) = (special_slot s sp + 1) * elemsize s.
Proof.
  intros W H; pose proof (special_slot_range s sp W H) as R; pose proof (slot_exact s _ W R) as E; unfold slot, special_slot in *.
  cbv zeta; rewrite E; split; [reflexivity|].
  pose proof (wf_start _ W); pose proof (wf_end _ W); pose proof (wf_elem _ W); pose proof (wf_fit _ W).
  unfold objects_end, span_end in *; change (2 ^ 48) with 281474976710656 in *.
  set (q := sp_offset sp / elemsize s) in *.
  assert (0 <= q * elemsize s) by nia.
  assert ((q + 1) * elemsize s <= nelems s * elemsize s) by (apply Z.mul_le_mono_nonneg_r; lia).
  rewrite u64_small; [lia|unword; lia].
Qed.

(** The records of the chunk belong to the object of its first record. *)
Lemma chunk_slot s sp l : span_wf s -> offsets_sorted (sp :: l) -> Forall (special_wf s) (sp :: l) ->
  let e := (special_slot s sp + 1) * elemsize s in
  Forall (fun x => special_slot s x = special_slot s sp) (chunk e (sp :: l)) /\
  Forall (fun x => special_slot s sp < special_slot s x) (rest_of e (sp :: l)).
Proof.
  intros W S F e; pose proof (wf_elem _ W) as He; split.
  - apply Forall_forall; intros x Hx; pose proof (proj1 (Forall_forall _ _) (chunk_below e (sp :: l)) x Hx) as B; cbv beta in B.
    assert (Lx : sp_offset sp <= sp_offset x).
    { assert (In x (sp :: l)) as [<-|I] by (rewrite (chunk_rest e (sp :: l)); apply in_or_app; auto); [lia|].
      inversion S as [|? ? _ G]; exact (proj1 (Forall_forall _ _) G x I). }
    unfold e, special_slot in *; pose proof (Z.div_mod (sp_offset sp) (elemsize s) ltac:(lia)); pose proof (Z.mod_pos_bound (sp_offset sp) (elemsize s) He).
    set (q := sp_offset sp / elemsize s) in *.
    symmetry; apply Z.div_unique with (r := sp_offset x - elemsize s * q); [left; lia|lia].
  - pose proof (rest_above e _ S) as G; revert G; apply Forall_impl; intros x Hx; unfold e in Hx.
    unfold special_slot at 2; apply Z.lt_le_trans with (special_slot s sp + 1); [lia|apply Z.div_le_lower_bound; lia].
Qed.

Lemma chunk_head s sp l : span_wf s -> In sp (chunk ((special_slot s sp + 1) * elemsize s) (sp :: l)).
Proof.
  intros W; pose proof (wf_elem _ W); cbn [chunk]; destruct (Z.ltb_spec (sp_offset sp) ((special_slot s sp + 1) * elemsize s)) as [_|L]; [left; reflexivity|].
  unfold special_slot in L; pose proof (Z.div_mod (sp_offset sp) (elemsize s)); pose proof (Z.mod_pos_bound (sp_offset sp) (elemsize s)); lia.
Qed.

Lemma Forall_split {A} (P : A -> Prop) l k : Forall P (l ++ k) -> Forall P l /\ Forall P k.
Proof. apply Forall_app. Qed.

Lemma has_fin_same s l i : Forall (fun sp => special_slot s sp = i) l -> forall j,
  has_fin s l j = existsb (fun sp => is_finalizer (sp_kind sp)) l && (j =? i).
Proof.
  induction 1 as [|sp l H _ IH]; intros j; [reflexivity|]; cbn [has_fin existsb]; fold (has_fin s l j); rewrite IH, H, (Z.eqb_sym i j).
  destruct (is_finalizer _), (j =? i), (existsb _ _); reflexivity.
Qed.

(** What the loop keeps: records of marked objects, in order. *)
Record records_kept (s : mspan) (l kept : list special) (w : sweeping) : Prop := {
  rk_sub : Forall (fun sp => In sp l) kept;
  rk_sorted : offsets_sorted kept;
  rk_live : Forall (fun sp => marked (sw_mem w) (sw_span w) (special_slot s sp) = true) kept;
}.

Lemma drain_revived_kept base size e l w :
  let '(kept, rest, w') := drain_revived base size e l w in
  Forall (fun sp => In sp (chunk e l)) kept /\ (offsets_sorted l -> offsets_sorted kept).
Proof.
  revert w; induction l as [|sp l IH]; intros w; cbn [drain_revived chunk]; [split; [constructor|auto]|].
  destruct (sp_offset sp <? e); [|split; [constructor|intros _; constructor]].
  destruct (is_finalizer (sp_kind sp) || is_weak (sp_kind sp)) eqn:K.
  - specialize (IH (freeSpecial sp (u64 (base + sp_offset sp)) size w)).
    destruct (drain_revived _ _ _ _ _) as [[k r] w']; destruct IH as [F S]; split.
    + revert F; apply Forall_impl; intros x Hx; right; exact Hx.
    + intros H; inversion H as [|? ? H1 H2]; apply S, H1.
  - specialize (IH w); destruct (drain_revived _ _ _ _ _) as [[k r] w']; destruct IH as [F S]; split.
    + constructor; [left; reflexivity|revert F; apply Forall_impl; intros x Hx; right; exact Hx].
    + intros H; inversion H as [|? ? H1 H2]; constructor; [apply S, H1|].
      revert F; apply Forall_impl; intros x Hx; refine (proj1 (Forall_forall _ _) H2 x _).
      rewrite (chunk_rest e l); apply in_or_app; auto.
Qed.

Lemma sorted_app l k : offsets_sorted l -> offsets_sorted k ->
  (forall x y, In x l -> In y k -> sp_offset x <= sp_offset y) -> offsets_sorted (l ++ k).
Proof.
  intros Hl Hk H; induction Hl as [|x l S IH F]; [exact Hk|]; cbn; constructor.
  - apply IH; intros a b Ha Hb; apply H; [right; exact Ha|exact Hb].
  - apply Forall_app; split; [exact F|apply Forall_forall; intros y Hy; apply H; [left; reflexivity|exact Hy]].
Qed.

Lemma done_marked s m sp ev : span_wf s -> special_wf s sp -> marked m s (special_slot s sp) = true ->
  specials_done s m [sp] (MkSweeping m s ev).
Proof.
  intros W H M; pose proof (special_slot_range s sp W H) as R; constructor; cbn [sw_span sw_mem]; auto.
  - apply same_refl.
  - intros i Hi; cbn [has_fin existsb]; rewrite orb_false_r.
    destruct (Z.eqb_spec (special_slot s sp) i) as [<-|N]; [rewrite M; reflexivity|rewrite andb_false_r, orb_false_r; reflexivity].
Qed.

Lemma done_revived s m l i ev : span_wf s -> 0 <= i < nelems s -> marked m s i = false ->
  Forall (fun sp => special_slot s sp = i) l -> existsb (fun sp => is_finalizer (sp_kind sp)) l = true ->
  let '(m1, s1) := setMarked m s (markBitsForIndex s i) in specials_done s m l (MkSweeping m1 s1 ev).
Proof.
  intros W R M Hl Fin; pose proof (setMarked_ok m s i W R) as K; destruct (setMarked _ _ _) as [m1 s1].
  destruct K as (S & W1 & Mk & Out & B & Inl); constructor; cbn [sw_span sw_mem]; auto.
  - intros j Hj; rewrite Mk, (has_fin_same s l i Hl), Fin by exact Hj; reflexivity.
  - intros a Ia; left; apply Out, objects_not_marks; assumption.
Qed.

Lemma done_dead s m l i w : span_wf s -> 0 <= i < nelems s -> marked m s i = false ->
  Forall (fun sp => special_slot s sp = i) l -> existsb (fun sp => is_finalizer (sp_kind sp)) l = false ->
  sw_span w = s -> (forall a, sw_mem w a = m a \/ (in_objects s a /\ sw_mem w a = 0 /\ exists sp, In sp l /\ slot_at s a = special_slot s sp)) ->
  specials_done s m l w.
Proof.
  intros W R M Hl Fin E H.
  assert (Mk : forall j, 0 <= j -> marked (sw_mem w) s j = marked m s j).
  { intros j Hj; apply marked_agree; [exact W|exact Hj|]; intros a Ha.
    destruct (H a) as [?|((_ & L) & _)]; [assumption|lia]. }
  constructor; rewrite ?E; auto.
  - apply same_refl.
  - intros j Hj; rewrite Mk, (has_fin_same s l i Hl), Fin, orb_false_r by exact Hj; reflexivity.
  - intros a O _; destruct (H a) as [?|(I & _)]; [assumption|contradiction].
  - intros a I; destruct (H a) as [?|(_ & Z0 & sp & Is & Sl)]; [auto|right; split; [exact Z0|split; [|exists sp; auto]]].
    pose proof (proj1 (Forall_forall _ _) Hl sp Is) as S; cbv beta in S; rewrite Sl, S, Mk by lia; exact M.
  - intros B a; destruct (H a) as [->|(_ & -> & _)]; [apply B|unword; lia].
Qed.

Lemma specials_done_ev s m l w w' : specials_done s m l w -> sw_mem w' = sw_mem w -> sw_span w' = sw_span w -> specials_done s m l w'.
Proof. intros [A1 A2 A3 A4 A5 A6 A7] E1 E2; constructor; rewrite ?E1, ?E2; assumption. Qed.

Lemma kept_app s e l kept kept' w b : offsets_sorted l ->
  Forall (fun x => In x (chunk e l)) kept -> offsets_sorted kept ->
  Forall (fun x => marked (sw_mem w) (sw_span w) (special_slot s x) = true) kept ->
  records_kept (set_gcmarkBits b s) (rest_of e l) kept' w -> records_kept s l (kept ++ kept') w.
Proof.
  intros S K1 K2 K3 [R1 R2 R3]; pose proof (chunk_rest e l) as Split.
  assert (I1 : forall x, In x kept -> In x (chunk e l)) by (intros x; apply (proj1 (Forall_forall _ _) K1)).
  assert (I2 : forall x, In x kept' -> In x (rest_of e l)) by (intros x; apply (proj1 (Forall_forall _ _) R1)).
  constructor.
  - apply Forall_app; split; apply Forall_forall; intros x Hx; rewrite Split; apply in_or_app; auto.
  - apply sorted_app; [exact K2|exact R2|]; intros x y Hx Hy.
    pose proof (proj1 (Forall_forall _ _) (chunk_below e l) x (I1 x Hx)); pose proof (proj1 (Forall_forall _ _) (rest_above e l S) y (I2 y Hy)); cbv beta in *; lia.
  - apply Forall_app; split; [exact K3|exact R3].
Qed.

(** What the loop over the records does: every object with a finalizer ends up marked, no
    other mark changes, and memory is touched only in objects that stay unmarked. *)
Definition loop_ok (s : mspan) (m : memory) (l kept : list special) (w : sweeping) : Prop :=
  specials_done s m l w /\ records_kept s l kept w.

(** One turn of the loop, on the records [sp :: l]. *)
Section Turn.
Context (s : mspan) (m : memory) (sp : special) (l : list special).
Context (W : span_wf s) (S : offsets_sorted (sp :: l)) (F : Forall (special_wf s) (sp :: l)).

Let i := special_slot s sp.
Let e := (i + 1) * elemsize s.

Lemma turn_slot : 0 <= i < nelems s.
Proof. apply special_slot_range; [exact W|exact (Forall_inv F)]. Qed.

Lemma turn_chunk : Forall (fun x => special_slot s x = i) (chunk e (sp :: l)).
Proof. apply (chunk_slot s sp l W S F). Qed.

Lemma turn_rest : offsets_sorted (rest_of e (sp :: l)) /\ Forall (special_wf s) (rest_of e (sp :: l)) /\
  (length (rest_of e (sp :: l)) <= length l)%nat.
Proof.
  pose proof (chunk_rest e (sp :: l)) as Split; split; [apply sorted_rest, S|split].
  - rewrite Split in F; apply Forall_app in F; apply F.
  - pose proof (f_equal (@length _) Split) as L; rewrite length_app in L; pose proof (chunk_head s sp l W) as Hd; fold i e in Hd.
    destruct (chunk e (sp :: l)); [contradiction|cbn [length] in *; lia].
Qed.

Lemma turn_late w1 x : In x (chunk e (sp :: l)) -> marked (sw_mem w1) (sw_span w1) (special_slot s x) = false ->
  has_fin s (rest_of e (sp :: l)) (special_slot s x) = false.
Proof.
  intros Hx _; destruct (chunk_slot s sp l W S F) as [Cs Rs]; fold i e in Cs, Rs.
  rewrite (proj1 (Forall_forall _ _) Cs x Hx); apply has_fin_absent; revert Rs; apply Forall_impl; intros y Hy; lia.
Qed.

(** The record of a marked object stays, or is done. *)
Lemma turn_marked kept w' : marked m s i = true -> loop_ok s m l kept w' ->
  loop_ok s m (sp :: l) kept w' /\ loop_ok s m (sp :: l) (sp :: kept) w'.
Proof.
  intros M [D [K1 K2 K3]]; inversion S as [|? ? S' G]; subst; pose proof turn_slot as R.
  assert (D' : specials_done s m (sp :: l) w').
  { apply (done_app s m [sp] l (MkSweeping m s []) w'); [apply done_marked; [exact W|exact (Forall_inv F)|exact M]|exact D| |exact W].
    intros x [<-|[]]; cbn [sw_mem sw_span]; fold i; congruence. }
  assert (K1' : Forall (fun x => In x (sp :: l)) kept) by (revert K1; apply Forall_impl; intros x Hx; right; exact Hx).
  split; [split; [exact D'|constructor; assumption]|split; [exact D'|constructor]].
  - constructor; [left; reflexivity|exact K1'].
  - constructor; [exact K2|]; revert K1; apply Forall_impl; intros x Hx; exact (proj1 (Forall_forall _ _) G x Hx).
  - constructor; [|exact K3]; rewrite (sd_marks _ _ _ _ D') by (fold i; lia); fold i; rewrite M; reflexivity.
Qed.

(** An object with a finalizer is marked, and keeps all but its finalizers and weak handles. *)
Lemma turn_revived ev : marked m s i = false -> existsb (fun sp => is_finalizer (sp_kind sp)) (chunk e (sp :: l)) = true ->
  let '(m1, s1) := setMarked m s (markBitsForIndex s i) in
  let '(kept, rest, w1) := drain_revived (startAddr s) (elemsize s) e (sp :: l) (MkSweeping m1 s1 ev) in
  rest = rest_of e (sp :: l) /\ span_wf (sw_span w1) /\ same_but_marks s (sw_span w1) /\
  forall kept' w', loop_ok (sw_span w1) (sw_mem w1) rest kept' w' -> loop_ok s m (sp :: l) (kept ++ kept') w'.
Proof.
  intros M Fin; pose proof turn_slot as R; pose proof turn_chunk as Cs; pose proof (done_revived s m _ _ ev W R M Cs Fin) as D1.
  destruct (setMarked m s _) as [m1 s1].
  pose proof (drain_revived_ok (startAddr s) (elemsize s) e (sp :: l) (MkSweeping m1 s1 ev)) as Dr.
  pose proof (drain_revived_kept (startAddr s) (elemsize s) e (sp :: l) (MkSweeping m1 s1 ev)) as Kr.
  destruct (drain_revived _ _ _ _ _) as [[kept rest] w1]; destruct Dr as (-> & E1 & E2), Kr as [K1 K2].
  cbn [sw_mem sw_span] in E1, E2; apply (specials_done_ev _ _ _ _ w1) in D1; [|exact E1|exact E2].
  pose proof (sd_span _ _ _ _ D1) as G1; split; [reflexivity|split; [apply (sd_wf _ _ _ _ D1)|split; [exact G1|]]].
  unfold same_but_marks in G1; set (b := gcmarkBits (sw_span w1)) in *; clearbody b.
  intros kept' w' [D2 Kept2].
  assert (D : specials_done s m (sp :: l) w').
  { rewrite (chunk_rest e (sp :: l)); apply (done_app s m _ _ w1 w'); auto; intros x Hx; apply turn_late, Hx. }
  split; [exact D|]; rewrite G1 in Kept2; apply (kept_app s e (sp :: l) kept kept' w' b S K1 (K2 S)); [|exact Kept2].
  revert K1; apply Forall_impl; intros x Hx; rewrite (proj1 (Forall_forall _ _) Cs x Hx), (sd_marks _ _ _ _ D) by lia.
  rewrite (chunk_rest e (sp :: l)), has_fin_app, (has_fin_same s _ _ Cs), Fin, Z.eqb_refl; cbn [andb orb]; apply orb_true_r.
Qed.

(** A dead object loses all its records. *)
Lemma turn_dead ev : marked m s i = false -> existsb (fun sp => is_finalizer (sp_kind sp)) (chunk e (sp :: l)) = false ->
  let '(rest, w1) := drain_dead (startAddr s) (elemsize s) e (sp :: l) (MkSweeping m s ev) in
  rest = rest_of e (sp :: l) /\ sw_span w1 = s /\
  forall kept' w', loop_ok s (sw_mem w1) rest kept' w' -> loop_ok s m (sp :: l) kept' w'.
Proof.
  intros M Fin; pose proof turn_slot as R; pose proof turn_chunk as Cs.
  pose proof (drain_dead_ok s e (elemsize s) (sp :: l) (MkSweeping m s ev) W F) as Dr.
  destruct (drain_dead _ _ _ _ _) as [rest w1]; destruct Dr as (-> & E2 & E3); cbn [sw_mem sw_span] in E2, E3.
  pose proof (done_dead s m _ _ w1 W R M Cs Fin E2 E3) as D1; split; [reflexivity|split; [exact E2|]].
  intros kept' w' [D2 [K1 K2 K3]]; split.
  - rewrite (chunk_rest e (sp :: l)); apply (done_app s m _ _ w1 w'); auto; [rewrite E2; exact D2|intros x Hx; apply turn_late, Hx].
  - apply (kept_app s e (sp :: l) [] kept' w' (gcmarkBits s) S); try constructor; [exact K1|exact K2|exact K3].
Qed.
End Turn.

Lemma sweep_specials_ok fuel l w :
  (length l <= fuel)%nat -> span_wf (sw_span w) -> offsets_sorted l -> Forall (special_wf (sw_span w)) l ->
  let '(kept, w') := sweep_specials fuel l w in loop_ok (sw_span w) (sw_mem w) l kept w'.
Proof.
  revert l w; induction fuel as [|fuel IH]; intros l w Hf W S F.
  { destruct l as [|? ?]; [|cbn in Hf; lia]; destruct w; split; [apply done_nil, W|constructor; constructor]. }
  destruct l as [|sp l]; [destruct w; split; [apply done_nil, W|constructor; constructor]|].
  destruct w as [m s ev]; cbn [sw_mem sw_span sw_events] in *; cbn [sweep_specials sw_mem sw_span sw_events].
  destruct (object_end s sp W (Forall_inv F)) as [_ Ee]; cbv zeta in Ee; fold (special_slot s sp) in Ee |- *; rewrite Ee.
  pose proof (turn_slot s sp l W F) as R; destruct (turn_rest s sp l W S F) as (Sr & Fr & Lr).
  apply (fun H => Nat.le_trans _ _ fuel H (proj2 (Nat.succ_le_mono _ _) Hf)) in Lr.
  rewrite isMarked_spec by lia; destruct (marked m s (special_slot s sp)) eqn:M; cbn [negb].
  - assert (Next : forall ev', let '(kept, w') := sweep_specials fuel l (MkSweeping m s ev') in
      loop_ok s m (sp :: l) kept w' /\ loop_ok s m (sp :: l) (sp :: kept) w').
    { intros ev'; inversion S; inversion F; subst; specialize (IH l (MkSweeping m s ev') ltac:(cbn in Hf; lia) W ltac:(assumption) ltac:(assumption)).
      destruct (sweep_specials fuel l (MkSweeping m s ev')) as [kept w']; apply turn_marked; assumption. }
    destruct (sp_kind sp) as [| | | | id reached | | | | | ];
      try (specialize (Next ev); destruct (sweep_specials fuel l (MkSweeping m s ev)) as [kept w']; tauto).
    cbn [freeSpecial sp_kind emit sw_mem sw_span sw_events].
    specialize (Next (ev ++ [ReachableDone id true])); destruct (sweep_specials fuel l _) as [kept w']; tauto.
  - rewrite has_finalizer_chunk; destruct (existsb _ (chunk _ (sp :: l))) eqn:Fin.
    + pose proof (turn_revived s m sp l W S F ev M Fin) as T; destruct (setMarked m s _) as [m1 s1].
      destruct (drain_revived _ _ _ _ _) as [[kept rest] w1]; destruct T as (-> & W1 & G1 & T); unfold same_but_marks in G1.
      specialize (IH _ w1 Lr W1 Sr); rewrite G1 in IH; specialize (IH Fr); rewrite <- G1 in IH.
      destruct (sweep_specials fuel _ w1) as [kept' w']; apply T, IH.
    + pose proof (turn_dead s m sp l W S F ev M Fin) as T.
      destruct (drain_dead _ _ _ _ _) as [rest w1]; destruct T as (-> & E2 & T).
      specialize (IH _ w1 Lr ltac:(rewrite E2; exact W) Sr ltac:(rewrite E2; exact Fr)); rewrite E2 in IH.
      destruct (sweep_specials fuel _ w1) as [kept' w']; apply T, IH.
Qed.

(** ** The clearing loop *)

(** An allocated object without a mark. *)
Definition dead (m : memory) (s : mspan) (i : Z) : bool := negb (marked m s i) && negb (isFree s i).

Definition in_objectsb (s : mspan) (a : Z) : bool := (startAddr s <=? a) && (a <? objects_end s).

Lemma in_objectsb_ok s a : in_objectsb s a = true <-> in_objects s a.
Proof. unfold in_objectsb, in_objects; rewrite andb_true_iff, Z.leb_le, Z.ltb_lt; reflexivity. Qed.

Lemma clobberfree_outside x size m a : 0 <= size -> size mod 4 = 0 -> ~ (x <= a < x + size) -> clobberfree x size m a = m a.
Proof.
  intros Hs H4 Ha; unfold clobberfree.
  assert (D : divRoundUp size 4 = size / 4).
  { unfold divRoundUp; pose proof (Z.div_mod size 4); replace (size + 4 - 1) with (3 + size / 4 * 4) by lia.
    rewrite Z.div_add by lia; reflexivity. }
  rewrite D; pose proof (Z.div_mod size 4); pose proof (Z.div_pos size 4).
  refine (for_range_ind (fun k m' => m' a = m a) 0 _ _ m eq_refl _).
  intros i m' Hi <-; unfold store_bytes; cbn [length le_bytes]; destruct (_ && _) eqn:E; [|reflexivity].
  apply andb_true_iff in E as [E1 E2]; apply Z.leb_le in E1; apply Z.ltb_lt in E2; lia.
Qed.

Definition in_slotb (s : mspan) (k a : Z) : bool :=
  (startAddr s + k * elemsize s <=? a) && (a <? startAddr s + k * elemsize s + elemsize s).

Lemma in_slotb_ok s k a : 0 < elemsize s -> 0 <= k < nelems s -> in_slotb s k a = in_objectsb s a && (slot_at s a =? k).
Proof.
  intros He Hk; apply eq_true_iff_eq; unfold in_slotb at 1.
  rewrite !andb_true_iff, in_objectsb_ok, Z.leb_le, Z.ltb_lt, Z.eqb_eq; split.
  - intros H; split; [exact (slot_in_objects s a k He Hk H)|exact (slot_at_unique s a k He H)].
  - intros [H <-]; exact (proj2 (slot_at_range s a He H)).
Qed.

(** Clearing one slot, whatever the debugging pattern put there before. *)
Lemma clear_slot dbg s k m a : span_wf s -> 0 <= k < nelems s ->
  memclrNoHeapPointers (slot s k) (elemsize s) (if clobberfree_on dbg then clobberfree (slot s k) (elemsize s) m else m) a =
  if in_slotb s k a then 0 else m a.
Proof.
  intros W Hk; pose proof (wf_elem _ W); rewrite slot_exact by assumption; unfold memclrNoHeapPointers, in_slotb.
  destruct (_ && _) eqn:E; [reflexivity|].
  destruct (clobberfree_on dbg); [|reflexivity]; apply clobberfree_outside; [lia|apply wf_elem4, W|].
  intros [H1 H2]; apply Z.leb_le in H1; apply Z.ltb_lt in H2; rewrite H1, H2 in E; discriminate.
Qed.

(** The tests of the loop are the mark and the allocation state of the slot. *)
Lemma dead_test m m' s k : span_wf s -> 0 <= k < nelems s -> (forall a, objects_end s <= a -> m' a = m a) ->
  negb (isMarked m' s (markBitsForIndex s k)) &&
  ((index (allocBitsForIndex k) <? freeindex s) || isMarked m' s (allocBitsForIndex k)) = dead m s k.
Proof.
  intros W Hk H; unfold dead; rewrite isMarked_spec, isMarked_alloc, isFree_spec by lia.
  rewrite (marked_agree m m' s k W) by (exact H || lia); f_equal; unfold allocBitsForIndex, bitp; cbn [index].
  rewrite Z.ltb_antisym; destruct (freeindex s <=? k), (bit _ _); reflexivity.
Qed.

Lemma sweep_objects_ok dbg s m : span_wf s -> isUserArenaChunk s = false -> forall a,
  sweep_objects dbg s m a = if in_objectsb s a && dead m s (slot_at s a) then 0 else m a.
Proof.
  intros W NA; unfold sweep_objects; pose proof (bw_nelems _ (wf_bits _ W)) as Ne; pose proof (wf_elem _ W) as He.
  set (I := fun (k : nat) (st : memory * markBits * markBits) =>
    let '(m', mb, ab) := st in mb = markBitsForIndex s (Z.of_nat k) /\ ab = allocBitsForIndex (Z.of_nat k) /\
    forall a, m' a = if in_objectsb s a && (slot_at s a <? Z.of_nat k) && dead m s (slot_at s a) then 0 else m a).
  assert (G : I (0 + Z.to_nat (nelems s))%nat (for_range 0 (Z.to_nat (nelems s)) (sweep_object dbg s) (m, markBitsForBase s, allocBitsForIndex 0))).
  { apply (for_range_ind I).
    - split; [apply markBitsForBase_0|split; [reflexivity|intros a]].
      destruct (in_objectsb s a) eqn:E; [|reflexivity]; apply in_objectsb_ok in E.
      destruct (slot_at_range s a He E) as [R _]; destruct (Z.ltb_spec (slot_at s a) (Z.of_nat 0)); [lia|reflexivity].
    - intros i [[m' mb] ab] Hi (-> & -> & Hm); cbn [sweep_object].
      assert (Hk : 0 <= Z.of_nat i < nelems s) by lia; rewrite (dead_test m m' s _ W Hk), NA; cbn [negb].
      + split; [rewrite advance_markBits by lia; f_equal; lia|split; [rewrite advance_allocBits by lia; f_equal; lia|intros a]].
        assert (Step : (if dead m s (Z.of_nat i) then
            memclrNoHeapPointers (slot s (Z.of_nat i)) (elemsize s)
              (if clobberfree_on dbg then clobberfree (slot s (Z.of_nat i)) (elemsize s) m' else m') else m') a =
          if in_slotb s (Z.of_nat i) a && dead m s (Z.of_nat i) then 0 else m' a)
          by (destruct (dead m s (Z.of_nat i)); [rewrite clear_slot by assumption; rewrite andb_true_r|rewrite andb_false_r]; reflexivity).
        rewrite Step, Hm, in_slotb_ok by assumption.
        replace (slot_at s a <? Z.of_nat (S i)) with ((slot_at s a <? Z.of_nat i) || (slot_at s a =? Z.of_nat i))
          by (destruct (Z.ltb_spec (slot_at s a) (Z.of_nat i)), (Z.eqb_spec (slot_at s a) (Z.of_nat i)),
                (Z.ltb_spec (slot_at s a) (Z.of_nat (S i))); reflexivity || lia).
        destruct (Z.eqb_spec (slot_at s a) (Z.of_nat i)) as [->|]; rewrite ?Z.ltb_irrefl, ?orb_true_r, ?orb_false_r;
          destruct (in_objectsb s a); cbn [andb]; try reflexivity; destruct (dead m s (Z.of_nat i)); reflexivity.
      + intros a Ha; rewrite Hm; replace (in_objectsb s a) with false; [reflexivity|].
        symmetry; unfold in_objectsb; rewrite (proj2 (Z.ltb_ge _ _) Ha); apply andb_false_r. }
  destruct (for_range _ _ _ _) as [[m' mb] ab]; destruct G as (_ & _ & G); cbn [fst]; intros a; rewrite G.
  destruct (in_objectsb s a) eqn:E; cbn [andb]; [|reflexivity].
  apply in_objectsb_ok in E; destruct (slot_at_range s a He E) as [R _].
  replace (slot_at s a <? Z.of_nat (0 + Z.to_nat (nelems s))) with true by (symmetry; apply Z.ltb_lt; lia); reflexivity.
Qed.

(** ** Merging the marks kept in the span *)

(** The mark bits inside the span, as a set. *)
Definition inline_bit (m : memory) (s : mspan) (i : Z) : bool :=
  (i <? 504) && Z.testbit (m (inlineMarkBits s + imb_marks + i / 8)) (i mod 8).

Lemma load64_bits p m j : (forall a, is_byte (m a)) -> 0 <= j < 64 -> Z.testbit (load64 p m) j = Z.testbit (m (p + j / 8)) (j mod 8).
Proof.
  intros B Hj; unfold load64, load_bytes; rewrite le_val_bits by (try lia; apply Forall_map, Forall_forall; intros i _; apply B).
  assert (0 <= j / 8 < 8) by (split; [apply Z.div_pos; lia|apply Z.div_lt_upper_bound; lia]).
  unfold bit; rewrite (nth_indep _ 0 (m (p + Z.of_nat 0))) by (rewrite length_map, length_seq; lia).
  rewrite (map_nth (fun i => m (p + Z.of_nat i))), seq_nth by lia; do 3 f_equal; lia.
Qed.

Lemma load64_u64 p m : (forall a, is_byte (m a)) -> is_u64 (load64 p m).
Proof. intros B; apply le_val_word; [reflexivity|apply Forall_map, Forall_forall; intros i _; apply B]. Qed.

Lemma ldiff_u64 x y : is_u64 x -> 0 <= y -> is_u64 (Z.ldiff x y).
Proof.
  intros Hx Hy; unword; split; [apply Z.ldiff_nonneg; lia|]; apply Z.le_lt_trans with x; [|lia].
  apply Z.ldiff_le; [lia|]; apply Z.bits_inj'; intros n _; rewrite !Z.ldiff_spec, Z.bits_0.
  destruct (Z.testbit x n), (Z.testbit y n); reflexivity.
Qed.

Lemma u64_ext_bound x : is_u64 x <-> 0 <= x /\ Z.shiftr x 64 = 0.
Proof.
  unword; rewrite Z.shiftr_div_pow2 by lia; change (2 ^ 64) with W64; split.
  - intros; rewrite Z.div_small; lia.
  - intros [H E]; split; [assumption|]; apply Z.div_small_iff in E; lia.
Qed.

Lemma u64_lor x y : is_u64 x -> is_u64 y -> is_u64 (Z.lor x y).
Proof. rewrite !u64_ext_bound, Z.shiftr_lor, Z.lor_nonneg; intros [? ->] [? ->]; auto. Qed.

(** The word of marks the loop reads, without the class byte behind the last mark. *)
Definition marks_word (s : mspan) (m : memory) (k : nat) : Z :=
  let marks := load64 (inlineMarkBits s + imb_marks + 8 * Z.of_nat k) m in
  if Z.of_nat k =? (63 + 1) / PtrSize - 1 then Z.ldiff marks (Z.shiftl 0xff ((PtrSize - 1) * 8)) else marks.

Lemma marks_word_ok s m k : (forall a, is_byte (m a)) -> (k < 8)%nat -> is_u64 (marks_word s m k) /\
  forall j, 0 <= j < 64 -> Z.testbit (marks_word s m k) j = inline_bit m s (64 * Z.of_nat k + j).
Proof.
  intros B Hk; unfold marks_word, inline_bit, PtrSize; change ((63 + 1) / 8 - 1) with 7; split.
  - destruct (_ =? 7); [apply ldiff_u64; [apply load64_u64, B|discriminate]|apply load64_u64, B].
  - intros j Hj.
    replace (64 * Z.of_nat k + j) with (j + (8 * Z.of_nat k) * 8) by lia; rewrite Z.div_add, Z.mod_add by lia.
    replace (inlineMarkBits s + imb_marks + (j / 8 + 8 * Z.of_nat k)) with (inlineMarkBits s + imb_marks + 8 * Z.of_nat k + j / 8) by lia.
    destruct (Z.eqb_spec (Z.of_nat k) 7) as [E|E].
    + rewrite Z.ldiff_spec, load64_bits by assumption; change ((8 - 1) * 8) with 56; rewrite Z.shiftl_spec by lia.
      rewrite andb_comm; f_equal; destruct (Z.ltb_spec (j + 8 * Z.of_nat k * 8) 504).
      * rewrite Z.testbit_neg_r by lia; reflexivity.
      * change 255 with (Z.ones 8); rewrite Z.ones_spec_low by lia; reflexivity.
    + rewrite load64_bits by assumption; destruct (Z.ltb_spec (j + 8 * Z.of_nat k * 8) 504); [reflexivity|lia].
Qed.

Lemma words_of s : span_wf s -> divRoundUp (divRoundUp (nelems s) 8) PtrSize = (nelems s + 63) / 64.
Proof.
  intros W; pose proof (bw_nelems _ (wf_bits _ W)); unfold divRoundUp, PtrSize.
  replace ((nelems s + 8 - 1) / 8 + 8 - 1) with ((nelems s + 7) / 8 + 7) by (replace (nelems s + 8 - 1) with (nelems s + 7) by lia; lia).
  replace ((nelems s + 7) / 8 + 7) with ((nelems s + 7 + 7 * 8) / 8) by (rewrite Z.div_add by lia; reflexivity).
  rewrite Z.div_div by lia; f_equal; lia.
Qed.

Lemma moveInlineMarks_ok s m : span_wf s -> gcUsesSpanInlineMarkBits (elemsize s) = true -> (forall a, is_byte (m a)) ->
  (forall i, bit (gcmarkBits s) i = false) -> (forall i, nelems s <= i -> inline_bit m s i = false) ->
  let '(b, m') := moveInlineMarks s (gcmarkBits s) m in
  bytes b /\ length b = length (gcmarkBits s) /\ (forall i, 0 <= i -> bit b i = inline_bit m s i) /\
  m' = imb_init (inlineMarkBits s) (spanclass s) true m.
Proof.
  intros W G B Z0 Pad.
  unfold moveInlineMarks; rewrite (words_of s W); pose proof (bw_nelems _ (wf_bits _ W)) as Ne; pose proof (inline_nelems s W G) as Le.
  set (n := Z.to_nat ((nelems s + 63) / 64)).
  assert (Ln : length (gcmarkBits s) = (8 * n)%nat).
  { rewrite (wf_marks_len _ W); unfold newMarkBits; rewrite repeat_length; pose proof (Z.div_pos (nelems s + 63) 64); unfold n; lia. }
  assert (N8 : (n <= 8)%nat).
  { assert ((nelems s + 63) / 64 < 9) by (apply Z.div_lt_upper_bound; lia); unfold n; lia. }
  set (body := fun (i : nat) (dst : list Z) => _).
  assert (I : forall k, (k <= n)%nat -> let b := for_range 0 k body (gcmarkBits s) in
    bytes b /\ length b = length (gcmarkBits s) /\ forall i, 0 <= i -> bit b i = (i <? 64 * Z.of_nat k) && inline_bit m s i).
  { induction k as [|k IH]; intros Hk; cbv zeta.
    - split; [apply wf_marks, W|split; [reflexivity|intros i Hi]]; rewrite Z0; destruct (Z.ltb_spec i (64 * Z.of_nat 0)); [lia|reflexivity].
    - destruct (IH ltac:(lia)) as (IB & IL & IV); rewrite for_range_S; set (d := for_range 0 k body (gcmarkBits s)) in *.
      unfold body; rewrite Nat.add_0_l; fold (marks_word s m k).
      destruct (marks_word_ok s m k B ltac:(lia)) as [Mu Mb].
      set (c := firstn 8 (skipn (8 * k) d)).
      assert (Lc : length c = 8%nat) by (unfold c; rewrite length_firstn, length_skipn; lia).
      assert (Bc : bytes c) by (apply bytes_firstn, bytes_skipn, IB).
      assert (Uv : is_u64 (Z.lor (le_val c) (marks_word s m k))) by (apply u64_lor; [apply le_val_word; assumption|exact Mu]).
      split; [apply bytes_copy_into; [exact IB|apply bytes_le_bytes]|split; [rewrite length_copy_into by lia; exact IL|intros i Hi]].
      rewrite bit_copy_word by (assumption || lia).
      destruct (_ && _) eqn:R.
      + apply andb_true_iff in R as [R1 R2]; apply Z.leb_le in R1; apply Z.ltb_lt in R2.
        rewrite Z.lor_spec, le_val_bits, Mb by (assumption || lia).
        replace (64 * Z.of_nat k + (i - 64 * Z.of_nat k)) with i by lia.
        unfold c; rewrite bit_firstn, bit_skipn by lia; replace (8 * Z.of_nat (8 * k) + (i - 64 * Z.of_nat k)) with i by lia; rewrite IV by lia.
        rewrite (proj2 (Z.ltb_ge i _)) by lia; rewrite (proj2 (Z.ltb_lt i _)) by lia; reflexivity.
      + rewrite IV by exact Hi; f_equal; apply andb_false_iff in R as [R|R]; [apply Z.leb_gt in R|apply Z.ltb_ge in R];
          destruct (Z.ltb_spec i (64 * Z.of_nat k)), (Z.ltb_spec i (64 * Z.of_nat (S k))); reflexivity || lia. }
  destruct (I n (le_n n)) as (IB & IL & IV); split; [exact IB|split; [exact IL|split; [|reflexivity]]].
  intros i Hi; rewrite IV by exact Hi; destruct (Z.ltb_spec i (64 * Z.of_nat n)) as [|L]; [reflexivity|].
  symmetry; apply Pad; unfold n in L; pose proof (Z.div_mod (nelems s + 63) 64); pose proof (Z.mod_pos_bound (nelems s + 63) 64);
    pose proof (Z.div_pos (nelems s + 63) 64); lia.
Qed.

(** ** Counting and checking the marks *)

Definition count_bits (l : list Z) (n : nat) : Z := Z.of_nat (length (filter (fun i => bit l (Z.of_nat i)) (seq 0 n))).

Lemma seq_shift8 n : seq 8 n = map (fun i => (8 + i)%nat) (seq 0 n).
Proof.
  apply nth_ext with (d := 0%nat) (d' := (8 + 0)%nat);
  [rewrite length_map, !length_seq; reflexivity|]; intros i Hi; rewrite length_seq in Hi;
  rewrite (map_nth (fun i => (8 + i)%nat)), !seq_nth by exact Hi; reflexivity.
Qed.

Lemma pop_bytes l : bytes l -> fold_right Z.add 0 (map pop8 l) = count_bits l (8 * length l).
Proof.
  induction 1 as [|b l Hb _ IH]; [reflexivity|]; cbn [map fold_right length]; rewrite IH; unfold count_bits.
  replace (8 * S (length l))%nat with (8 + 8 * length l)%nat by lia; rewrite seq_app, filter_app, length_app, seq_shift8, filter_map_length.
  rewrite Nat2Z.inj_add; f_equal; unfold pop8; f_equal; apply filter_ext_length; intros i Hi; apply in_seq in Hi.
  - unfold bit; replace (Z.of_nat (8 + i)) with (Z.of_nat i + 1 * 8) by lia; rewrite Z.div_add, Z.mod_add by lia.
    rewrite Z2Nat.inj_add by (try apply Z.div_pos; lia); change (Z.to_nat 1) with 1%nat; rewrite Nat.add_1_r; reflexivity.
Qed.

Lemma sum_app l k : fold_right Z.add 0 (l ++ k) = fold_right Z.add 0 l + fold_right Z.add 0 k.
Proof. induction l as [|x l IH]; cbn; [|rewrite IH]; lia. Qed.

Lemma count_words l n : bytes l -> (8 * n <= length l)%nat ->
  for_range 0 n (fun i count => count + OnesCount64 (le_val (firstn 8 (skipn (8 * i) l)))) 0 =
  fold_right Z.add 0 (map pop8 (firstn (8 * n) l)).
Proof.
  intros B; induction n as [|n IH]; intros L; [reflexivity|]; rewrite for_range_S, IH by lia; rewrite Nat.add_0_l.
  rewrite OnesCount64_spec by (rewrite ?length_firstn, ?length_skipn; auto using bytes_firstn, bytes_skipn; lia).
  rewrite <- sum_app, <- map_app; do 2 f_equal.
  replace (8 * S n)%nat with (8 * n + 8)%nat by lia; rewrite <- (firstn_skipn (8 * n) l) at 3.
  rewrite firstn_app, length_firstn; replace (8 * n + 8 - Nat.min (8 * n) (length l))%nat with 8%nat by lia.
  rewrite (firstn_all2 (n := 8 * n + 8)) by (rewrite length_firstn; lia); reflexivity.
Qed.

Lemma count_pad l n k : (n <= k)%nat -> (forall i, Z.of_nat n <= i -> bit l i = false) -> count_bits l k = count_bits l n.
Proof.
  intros H P; unfold count_bits; replace k with (n + (k - n))%nat by lia; rewrite seq_app, filter_app, length_app.
  replace (filter _ (seq (0 + n) (k - n))) with (@nil nat); [cbn; lia|symmetry].
  rewrite (filter_ext_in _ (fun _ => false)); [induction (seq _ _); [reflexivity|exact IHl0]|].
  intros i Hi; apply in_seq in Hi; apply P; lia.
Qed.

(** [countAlloc] is the number of marked objects. *)
Lemma countAlloc_ok s : span_wf s -> countAlloc s = count_bits (gcmarkBits s) (Z.to_nat (nelems s)).
Proof.
  intros W; unfold countAlloc; rewrite (words_of s W : divRoundUp (divRoundUp (nelems s) 8) 8 = _).
  pose proof (bw_nelems _ (wf_bits _ W)) as Ne; pose proof (wf_marks _ W) as B; set (n := Z.to_nat ((nelems s + 63) / 64)).
  assert (L : length (gcmarkBits s) = (8 * n)%nat).
  { rewrite (wf_marks_len _ W); unfold newMarkBits; rewrite repeat_length; pose proof (Z.div_pos (nelems s + 63) 64); unfold n; lia. }
  rewrite count_words, firstn_all2, pop_bytes by (assumption || lia).
  apply count_pad; [rewrite L; unfold n; pose proof (Z.div_mod (nelems s + 63) 64); pose proof (Z.mod_pos_bound (nelems s + 63) 64); lia|].
  intros i Hi; apply (wf_pad _ W); lia.
Qed.

Lemma zombie_bits s i j : 0 <= j < 8 -> 0 <= i -> bytes (gcmarkBits s) -> bytes (allocBits s) ->
  Z.testbit (zombie_byte s i) j = bit (gcmarkBits s) (8 * i + j) && negb (bit (allocBits s) (8 * i + j)).
Proof.
  intros Hj Hi _ _; unfold zombie_byte, bit; rewrite Z.ldiff_spec.
  replace (8 * i + j) with (j + i * 8) by lia; rewrite Z.div_add, Z.mod_add, (Z.div_small j), (Z.mod_small j) by lia; reflexivity.
Qed.

Lemma zombie_byte_range s i : bytes (gcmarkBits s) -> is_byte (zombie_byte s i).
Proof.
  intros B; unfold zombie_byte; pose proof (bytes_nth _ (Z.to_nat i) B) as H; set (x := nth _ (gcmarkBits s) 0) in *.
  set (y := nth _ _ _); unword; split; [apply Z.ldiff_nonneg; lia|]; apply Z.le_lt_trans with x; [|lia].
  apply Z.ldiff_le; [lia|]; apply Z.bits_inj'; intros n _; rewrite !Z.ldiff_spec, Z.bits_0.
  destruct (Z.testbit x n), (Z.testbit y n); reflexivity.
Qed.

Lemma byte_zero x k : is_byte x -> 0 <= k < 8 -> Z.shiftr x k = 0 <-> (forall j, k <= j < 8 -> Z.testbit x j = false).
Proof.
  intros Hx Hk; split.
  - intros E j Hj; replace j with (j - k + k) by lia; rewrite <- Z.shiftr_spec, E by lia; apply Z.bits_0.
  - intros H; apply Z.bits_inj'; intros n Hn; rewrite Z.shiftr_spec, Z.bits_0 by lia.
    destruct (Z.lt_ge_cases (n + k) 8); [apply H; lia|apply byte_high; [exact Hx|lia]].
Qed.

(** The check passes exactly when every marked slot from the free index on is allocated. *)
Lemma has_zombies_ok s : span_wf s ->
  has_zombies s = false <-> forall i, freeindex s <= i < nelems s -> bit (gcmarkBits s) i = true -> bit (allocBits s) i = true.
Proof.
  intros W; pose proof (bw_nelems _ (wf_bits _ W)) as Ne; pose proof (bw_free _ (wf_bits _ W)) as Fr.
  pose proof (wf_marks _ W) as B; pose proof (bw_alloc _ (wf_bits _ W)) as A.
  unfold has_zombies; destruct (Z.ltb_spec (freeindex s) (nelems s)) as [L|L]; cbn [andb]; [|split; [intros _ i Hi; lia|reflexivity]].
  set (f := freeindex s) in *; pose proof (Z.div_mod f 8); pose proof (Z.mod_pos_bound f 8); pose proof (Z.div_pos f 8).
  set (c := divRoundUp (nelems s) 8); assert (C : 8 * c - 7 <= nelems s <= 8 * c).
  { unfold c, divRoundUp; pose proof (Z.div_mod (nelems s + 8 - 1) 8); pose proof (Z.mod_pos_bound (nelems s + 8 - 1) 8); lia. }
  rewrite orb_false_iff, negb_false_iff, Z.eqb_eq, byte_zero by (apply zombie_byte_range, B || lia).
  assert (Ex : existsb (fun k => negb (zombie_byte s (f / 8 + 1 + Z.of_nat k) =? 0)) (seq 0 (Z.to_nat (c - (f / 8 + 1)))) = false <->
    forall q, f / 8 < q < c -> zombie_byte s q = 0).
  { rewrite <- not_true_iff_false, existsb_exists; split.
    - intros H2 q Hq; destruct (Z.eq_dec (zombie_byte s q) 0) as [E|E]; [exact E|contradiction H2].
      exists (Z.to_nat (q - (f / 8 + 1))); rewrite in_seq; split; [lia|].
      replace (f / 8 + 1 + Z.of_nat (Z.to_nat (q - (f / 8 + 1)))) with q by lia; apply negb_true_iff, Z.eqb_neq, E.
    - intros H2 (k & Hk & E); apply in_seq in Hk; rewrite H2 in E by lia; discriminate. }
  rewrite Ex; split.
  - intros [Z1 Z2] i Hi Mk; destruct (bit (allocBits s) i) eqn:Al; [reflexivity|exfalso].
    pose proof (Z.div_mod i 8 ltac:(lia)) as Di; pose proof (bit_index_mod i ltac:(lia)) as Mi.
    pose proof (zombie_bits s (i / 8) (i mod 8) Mi ltac:(apply Z.div_pos; lia) B A) as T; rewrite <- Di, Mk, Al in T; cbn in T.
    destruct (Z.eq_dec (i / 8) (f / 8)) as [E|E]; [rewrite E in *; rewrite Z1 in T by lia; discriminate|].
    rewrite Z2, Z.bits_0 in T by lia; discriminate.
  - intros P; assert (Bit : forall q j, 0 <= q -> 0 <= j < 8 -> f <= 8 * q + j -> Z.testbit (zombie_byte s q) j = false).
    { intros q j Hq Hj Hf; rewrite zombie_bits by assumption; destruct (bit (gcmarkBits s) _) eqn:Mk; [|reflexivity].
      destruct (Z.lt_ge_cases (8 * q + j) (nelems s)); [rewrite P by (assumption || lia); reflexivity|].
      rewrite (proj2 (wf_pad _ W (8 * q + j) ltac:(lia))) in Mk; discriminate. }
    split; [intros j Hj; apply Bit; lia|intros q Hq].
    pose proof (proj2 (byte_zero (zombie_byte s q) 0 (zombie_byte_range s q B) ltac:(lia))) as Z0; rewrite Z.shiftr_0_r in Z0.
    apply Z0; intros j Hj; apply Bit; lia.
Qed.

(** ** The whole function *)

(** The objects that outlive the sweep. *)
Definition survives (m : memory) (s : mspan) (i : Z) : bool := marked m s i || has_fin s (specials s) i.

Definition count_allocated (s : mspan) : Z :=
  Z.of_nat (length (filter (fun i => negb (isFree s (Z.of_nat i))) (seq 0 (Z.to_nat (nelems s))))).

(** The invariant of a heap span between two operations. *)
Record span_ok (m : memory) (s : mspan) : Prop := {
  so_wf : span_wf s;
  so_bytes : forall a, is_byte (m a);
  so_inline : gcUsesSpanInlineMarkBits (elemsize s) = true ->
    (forall i, bit (gcmarkBits s) i = false) /\ forall i, nelems s <= i -> inline_bit m s i = false;
  so_sorted : offsets_sorted (specials s);
  so_specials : Forall (fun sp => special_wf s sp /\ isFree s (special_slot s sp) = false) (specials s);
  so_count : allocCount s = count_allocated s;
  so_large : sizeclass (spanclass s) = 0 -> nelems s = 1 /\ elemsize s = npages s * pageSize;
}.

Lemma count_allocated_range s : 0 < nelems s -> 0 <= count_allocated s <= nelems s.
Proof.
  intros H; unfold count_allocated; pose proof (filter_length_le (fun i => negb (isFree s (Z.of_nat i))) (seq 0 (Z.to_nat (nelems s)))) as L.
  rewrite length_seq in L; lia.
Qed.

(** Up to the exchange of the bitmaps: the marks found, and the memory. *)
Record sweep_staged (m : memory) (s : mspan) (s2 : mspan) (m2 : memory) : Prop := {
  ss_span : exists b, s2 = set_gcmarkBits b (set_specials (specials s2) s);
  ss_bits : bytes (gcmarkBits s2) /\ length (gcmarkBits s2) = length (gcmarkBits s);
  ss_marks : forall i, 0 <= i < nelems s -> bit (gcmarkBits s2) i = survives m s i;
  ss_pad : forall i, nelems s <= i -> bit (gcmarkBits s2) i = false;
  ss_objects : forall a, in_objects s a -> m2 a = if survives m s (slot_at s a) || isFree s (slot_at s a) then m a else 0;
  ss_outside : forall a, ~ (startAddr s <= a < span_end s) -> m2 a = m a;
  ss_bytes : forall a, is_byte (m2 a);
  ss_clear : gcUsesSpanInlineMarkBits (elemsize s) = true -> forall i, 0 <= i -> inline_bit m2 s i = false;
  ss_kept : Forall (fun sp => special_wf s sp /\ survives m s (special_slot s sp) = true) (specials s2);
  ss_sorted : offsets_sorted (specials s2);
}.

Lemma fin_range s l i : span_wf s -> Forall (special_wf s) l -> nelems s <= i -> has_fin s l i = false.
Proof.
  intros W F Hi; apply has_fin_absent; revert F; apply Forall_impl; intros sp Hsp.
  pose proof (special_slot_range s sp W Hsp); lia.
Qed.

Lemma inline_end s : span_wf s -> gcUsesSpanInlineMarkBits (elemsize s) = true -> inlineMarkBits s + sizeof_spanInlineMarkBits = span_end s.
Proof. intros W G; destruct (wf_inline _ W G) as [E _]; unfold inlineMarkBits, span_end, sizeof_spanInlineMarkBits, pageSize; rewrite E; lia. Qed.

Lemma imb_init_mem imb class m a : imb_init imb class true m a =
  if a =? imb + imb_class then class else if (imb <=? a) && (a <? imb + sizeof_spanInlineMarkBits) then 0 else m a.
Proof.
  unfold imb_init, store_bytes, memclrNoHeapPointers; cbn [length]; destruct (Z.eqb_spec a (imb + imb_class)) as [->|N].
  - rewrite Z.leb_refl, (proj2 (Z.ltb_lt _ _)) by lia; cbn [andb]; rewrite Z.sub_diag; reflexivity.
  - destruct (_ && (a <? imb + imb_class + _)) eqn:E; [|reflexivity].
    apply andb_true_iff in E as [E1 E2]; apply Z.leb_le in E1; apply Z.ltb_lt in E2; lia.
Qed.

(** The same before the marks inside the span are merged. *)
Record cleared (m : memory) (s : mspan) (kept : list special) (s1 : mspan) (m1 : memory) : Prop := {
  cl_span : exists b, s1 = set_gcmarkBits b (set_specials kept s);
  cl_wf : span_wf s1;
  cl_inline : gcUsesSpanInlineMarkBits (elemsize s) = true -> gcmarkBits s1 = gcmarkBits s;
  cl_marks : forall i, 0 <= i -> marked m1 s1 i = survives m s i;
  cl_objects : forall a, in_objects s a -> m1 a = if survives m s (slot_at s a) || isFree s (slot_at s a) then m a else 0;
  cl_outside : forall a, ~ in_objects s a -> ~ mark_bytes_of s a -> m1 a = m a;
  cl_bytes : forall a, is_byte (m1 a);
  cl_kept : Forall (fun sp => special_wf s sp /\ survives m s (special_slot s sp) = true) kept;
  cl_sorted : offsets_sorted kept;
}.

Lemma set_specials_wf s l : span_wf s -> span_wf (set_specials l s).
Proof. intros [? ? [] ? ? ? ? ? ? ? ?]; constructor; cbn in *; auto; constructor; auto. Qed.

Lemma cleared_ok dbg w : span_ok (sw_mem w) (sw_span w) -> isUserArenaChunk (sw_span w) = false ->
  let '(kept, w1) := sweep_specials (length (specials (sw_span w))) (specials (sw_span w)) w in
  let s1 := set_specials kept (sw_span w1) in cleared (sw_mem w) (sw_span w) kept s1 (sweep_objects dbg s1 (sw_mem w1)).
Proof.
  intros [W B I S F C L] NA; set (s := sw_span w) in *; set (m := sw_mem w) in *.
  assert (Fw : Forall (special_wf s) (specials s)) by (revert F; apply Forall_impl; intros x Hx; apply Hx).
  pose proof (sweep_specials_ok _ _ w (le_n _) W S Fw) as D; fold s in D.
  destruct (sweep_specials _ _ w) as [kept w1]; destruct D as [[D1 D2 D3 D4 D5 D6 D7] [K1 K2 K3]].
  unfold same_but_marks in D1; set (b1 := gcmarkBits (sw_span w1)) in *; fold m in D3, D4, D5, D6.
  set (s1 := set_specials kept (sw_span w1)).
  assert (E1 : s1 = set_gcmarkBits b1 (set_specials kept s)) by (unfold s1; rewrite D1; reflexivity).
  assert (W1 : span_wf s1) by apply set_specials_wf, D2.
  assert (Sv : forall i, 0 <= i -> marked (sw_mem w1) s1 i = survives m s i)
    by (intros i Hi; unfold survives; rewrite <- D3, D1, E1 by exact Hi; reflexivity).
  pose proof (sweep_objects_ok dbg s1 (sw_mem w1) W1 ltac:(rewrite E1; exact NA)) as O; set (m1 := sweep_objects dbg s1 (sw_mem w1)) in *.
  constructor; auto.
  - exists b1; exact E1.
  - intros i Hi; rewrite <- Sv by exact Hi; apply marked_agree; [exact W1|exact Hi|]; intros a Ha.
    rewrite O; unfold in_objectsb; rewrite (proj2 (Z.ltb_ge _ _) Ha), andb_false_r; reflexivity.
  - intros a Ia; rewrite O; pose proof (slot_at_range s a (wf_elem _ W) Ia) as [R _].
    rewrite (proj2 (in_objectsb_ok s1 a)) by (rewrite E1; exact Ia); cbn [andb].
    replace (slot_at s1 a) with (slot_at s a) by (rewrite E1; reflexivity); unfold dead; rewrite Sv by lia.
    replace (isFree s1 (slot_at s a)) with (isFree s (slot_at s a)) by (rewrite E1; reflexivity).
    destruct (D5 a Ia) as [E|(Z0 & Mk & sp & Isp & Sl)].
    + destruct (survives _ _ _), (isFree _ _); cbn [negb andb orb]; congruence.
    + assert (Dd : survives m s (slot_at s a) = false) by (unfold survives; rewrite <- D3 by lia; exact Mk).
      pose proof (proj2 (proj1 (Forall_forall _ _) F sp Isp)) as Al; cbv beta in Al; rewrite Sl in Al; rewrite Dd, Al; reflexivity.
  - intros a Oa Ma; rewrite O; destruct (in_objectsb s1 a) eqn:E; [apply in_objectsb_ok in E; rewrite E1 in E; contradiction|].
    cbn [andb]; apply D4; assumption.
  - intros a; rewrite O; destruct (_ && _); [unword; lia|apply D6, B].
  - apply Forall_forall; intros x Hx; pose proof (proj1 (Forall_forall _ _) K1 x Hx) as Ix; cbv beta in Ix.
    pose proof (proj1 (Forall_forall _ _) Fw x Ix) as Wx; split; [exact Wx|].
    unfold survives; rewrite <- D3 by apply (special_slot_range s x W Wx); exact (proj1 (Forall_forall _ _) K3 x Hx).
Qed.

Lemma marks_inside s a : span_wf s -> mark_bytes_of s a -> inlineMarkBits s <= a < span_end s.
Proof.
  intros W [G [H1 H2]]; pose proof (inline_end s W G); unfold imb_marks, imb_class, sizeof_spanInlineMarkBits in *; lia.
Qed.

Lemma inline_after_objects s a : span_wf s -> gcUsesSpanInlineMarkBits (elemsize s) = true -> in_objects s a -> a < inlineMarkBits s.
Proof. intros W G [_ H]; destruct (wf_inline _ W G) as [_ E]; lia. Qed.

Lemma objects_in_span s a : span_wf s -> in_objects s a -> startAddr s <= a < span_end s.
Proof. intros W [? ?]; pose proof (wf_fit _ W); lia. Qed.

(** What [imb_init] writes: it clears the marks, and stays above the objects. *)
Lemma imb_init_span s class m : span_wf s -> gcUsesSpanInlineMarkBits (elemsize s) = true ->
  let m' := imb_init (inlineMarkBits s) class true m in
  (forall a, in_objects s a -> m' a = m a) /\ (forall a, ~ (startAddr s <= a < span_end s) -> m' a = m a) /\
  (forall i, 0 <= i -> inline_bit m' s i = false).
Proof.
  intros W G; cbv zeta; pose proof (inline_end s W G) as End.
  assert (St : startAddr s <= inlineMarkBits s) by (unfold inlineMarkBits, pageSize, sizeof_spanInlineMarkBits; lia).
  unfold sizeof_spanInlineMarkBits in End; split; [|split].
  - intros a Ia; pose proof (inline_after_objects s a W G Ia); rewrite imb_init_mem; unfold imb_class.
    destruct (Z.eqb_spec a (inlineMarkBits s + 127)); [lia|destruct (Z.leb_spec (inlineMarkBits s) a); [lia|reflexivity]].
  - intros a Ha; rewrite imb_init_mem; unfold imb_class, sizeof_spanInlineMarkBits.
    destruct (Z.eqb_spec a (inlineMarkBits s + 127)); [lia|].
    destruct (_ && _) eqn:Q; [apply andb_true_iff in Q as [Q1 Q2]; apply Z.leb_le in Q1; apply Z.ltb_lt in Q2; lia|reflexivity].
  - intros i Hi; unfold inline_bit; destruct (Z.ltb_spec i 504); [|reflexivity]; cbn [andb]; rewrite imb_init_mem.
    assert (0 <= i / 8 < 63) by (split; [apply Z.div_pos; lia|apply Z.div_lt_upper_bound; lia]).
    unfold imb_marks, imb_class, sizeof_spanInlineMarkBits; set (p := inlineMarkBits s) in *.
    rewrite (proj2 (Z.eqb_neq (p + 64 + i / 8) (p + 127))), (proj2 (Z.leb_le p (p + 64 + i / 8))), (proj2 (Z.ltb_lt (p + 64 + i / 8) (p + 128))) by lia.
    apply Z.bits_0.
Qed.

(** From the marks inside the span to one bitmap. *)
Lemma staged_inline m s kept s1 m1 : span_ok m s -> is_byte (spanclass s) -> gcUsesSpanInlineMarkBits (elemsize s) = true ->
  cleared m s kept s1 m1 -> (forall i, nelems s <= i -> survives m s i = marked m s i) ->
  let '(b, m2) := moveInlineMarks s1 (gcmarkBits s1) m1 in sweep_staged m s (set_gcmarkBits b s1) m2.
Proof.
  intros [W B I _ F _ _] Cl G [[b E1] W1 Inl Mk Obj Out By Kp So] Fin; destruct (I G) as [I1 I2].
  pose proof (bw_nelems _ (wf_bits _ W)) as Ne; pose proof (inline_nelems s W G) as N504.
  assert (Ib : forall i, 0 <= i -> inline_bit m1 s1 i = (i <? 504) && survives m s i).
  { intros i Hi; rewrite <- Mk by exact Hi; unfold inline_bit, marked, mark_byte; rewrite E1; cbn [elemsize set_gcmarkBits set_specials]; rewrite G; reflexivity. }
  assert (Pad : forall i, nelems s1 <= i -> inline_bit m1 s1 i = false).
  { intros i Hi; replace (nelems s1) with (nelems s) in Hi by (rewrite E1; reflexivity); rewrite Ib, Fin by lia.
    specialize (I2 i Hi); unfold inline_bit in I2; unfold marked, mark_byte; rewrite G; exact I2. }
  pose proof (moveInlineMarks_ok s1 m1 W1) as Mv; replace (elemsize s1) with (elemsize s) in Mv by (rewrite E1; reflexivity).
  specialize (Mv G By ltac:(rewrite (Inl G); exact I1) Pad).
  destruct (moveInlineMarks s1 _ m1) as [b2 m2]; destruct Mv as (M1 & M2 & M3 & ->).
  replace (inlineMarkBits s1) with (inlineMarkBits s) by (rewrite E1; reflexivity); replace (spanclass s1) with (spanclass s) by (rewrite E1; reflexivity).
  destruct (imb_init_span s (spanclass s) m1 W G) as (J1 & J2 & J3); assert (Es : specials s1 = kept) by (rewrite E1; reflexivity).
  constructor; cbn [set_gcmarkBits specials]; rewrite ?Es; auto.
  - exists b2; rewrite E1; reflexivity.
  - split; [exact M1|cbn; rewrite M2, (Inl G); reflexivity].
  - intros i Hi; cbn; rewrite M3, Ib by lia; destruct (Z.ltb_spec i 504); [reflexivity|lia].
  - intros i Hi; cbn; rewrite M3 by lia; apply Pad; rewrite E1; exact Hi.
  - intros a Ia; rewrite J1 by exact Ia; apply Obj, Ia.
  - intros a Ha; rewrite J2 by exact Ha; apply Out; intros K; [apply Ha, objects_in_span; assumption|].
    pose proof (marks_inside s a W K); apply Ha; unfold inlineMarkBits, pageSize, sizeof_spanInlineMarkBits in *; lia.
  - intros a; rewrite imb_init_mem; destruct (_ =? _); [exact Cl|destruct (_ && _); [unword; lia|apply By]].
Qed.

(** The marks are in the bitmap already. *)
Lemma staged_outside m s kept s1 m1 : span_ok m s -> gcUsesSpanInlineMarkBits (elemsize s) = false ->
  cleared m s kept s1 m1 -> sweep_staged m s s1 m1.
Proof.
  intros Ok G [[b E1] W1 Inl Mk Obj Out By Kp So]; pose proof (so_wf _ _ Ok) as W; assert (Es : specials s1 = kept) by (rewrite E1; reflexivity).
  constructor; rewrite ?Es; auto.
  - exists b; exact E1.
  - split; [apply wf_marks, W1|rewrite (wf_marks_len _ W1), (wf_marks_len _ W), E1; reflexivity].
  - intros i Hi; rewrite <- Mk by lia; unfold marked, mark_byte; rewrite E1; cbn [elemsize set_gcmarkBits set_specials]; rewrite G; reflexivity.
  - intros i Hi; apply (wf_pad _ W1); rewrite E1; exact Hi.
  - intros a Ha; apply Out; intros K; [apply Ha, objects_in_span; assumption|destruct K; congruence].
  - congruence.
Qed.

Lemma stage_ok dbg w : span_ok (sw_mem w) (sw_span w) -> isUserArenaChunk (sw_span w) = false -> is_byte (spanclass (sw_span w)) ->
  let '(s2, m2, ev) := stage dbg w in sweep_staged (sw_mem w) (sw_span w) s2 m2.
Proof.
  intros Ok NA Cl; pose proof (cleared_ok dbg w Ok NA) as D; unfold stage.
  destruct (sweep_specials _ _ w) as [kept w1]; cbv zeta in D; set (s1 := set_specials kept (sw_span w1)) in *.
  set (m1 := sweep_objects dbg s1 (sw_mem w1)) in *; set (s := sw_span w) in *; set (m := sw_mem w) in *.
  assert (Fin : forall i, nelems s <= i -> survives m s i = marked m s i).
  { intros i Hi; unfold survives; rewrite (fin_range s), orb_false_r; [reflexivity|apply (so_wf _ _ Ok)| |exact Hi].
    generalize (so_specials _ _ Ok); apply Forall_impl; intros x Hx; apply Hx. }
  replace (elemsize s1) with (elemsize s) by (destruct (cl_span _ _ _ _ _ D) as [b ->]; reflexivity).
  destruct (gcUsesSpanInlineMarkBits (elemsize s)) eqn:G.
  - pose proof (staged_inline m s kept s1 m1 Ok Cl G D Fin) as St; destruct (moveInlineMarks s1 _ m1) as [b2 m2]; exact St.
  - exact (staged_outside m s kept s1 m1 Ok G D).
Qed.

(** *** Disposal *)

(** What disposal may change of the span. *)
Definition same_but_fate (s s' : mspan) : Prop :=
  s' = set_limit (limit s') (set_needzero (needzero s') (set_state (state s') s)).

Lemma freeSpan_ok s h : state s = mSpanInUse -> isUserArenaChunk s = false -> allocCount s = 0 -> sweepgen s = h_sweepgen h ->
  freeSpan s h = Ret (set_state mSpanDead s, freed s h).
Proof. intros E A C G; unfold freeSpan; rewrite E, A, C, G, !Z.eqb_refl; reflexivity. Qed.

(** Whatever becomes of the span, memory is left alone, or the pages of a dead large object
    are cleared as a whole. *)
Record disposed (nalloc nfreed : Z) (w : sweeping) (h : mheap) (r : swept) : Prop := {
  di_gen : h_sweepgen (heap_after r) = h_sweepgen h;
  di_fate : same_but_fate (sw_span w) (sw_span (after r));
  di_events : sw_events (after r) = sw_events w;
  di_dead : state (sw_span (after r)) = mSpanDead -> nalloc = 0;
  di_mem :
    (sizeclass (spanclass (sw_span w)) = 0 /\ nfreed <> 0 /\
     sw_mem (after r) = memclrNoHeapPointers (startAddr (sw_span w)) (npages (sw_span w) * pageSize) (sw_mem w)) \/
    (sw_mem (after r) = sw_mem w /\ (needzero (sw_span (after r)) = 0 -> needzero (sw_span w) = 0));
}.

Lemma fate_refl s : same_but_fate s s.
Proof. destruct s; reflexivity. Qed.

(** A span kept alive. *)
Lemma disposed_kept nalloc nfreed w s' b h h' : h_sweepgen h' = h_sweepgen h -> same_but_fate (sw_span w) s' -> state s' = mSpanInUse ->
  (needzero s' = 0 -> needzero (sw_span w) = 0) ->
  disposed nalloc nfreed w h (MkSwept b (MkSweeping (sw_mem w) s' (sw_events w)) h').
Proof. intros G F I N; constructor; cbn; auto; rewrite I; discriminate. Qed.

Lemma dispose_small_ok (preserve : bool) nalloc nfreed w s' h h0 : h_sweepgen h = h_sweepgen h0 ->
  state s' = mSpanInUse -> isUserArenaChunk s' = false -> allocCount s' = nalloc -> sweepgen s' = h_sweepgen h ->
  same_but_fate (sw_span w) s' -> (needzero s' = 0 -> needzero (sw_span w) = 0) ->
  let w' := MkSweeping (sw_mem w) s' (sw_events w) in
  exists r, (if preserve then Ret (MkSwept false w' h)
    else if nalloc =? 0 then let* r := freeSpan s' h in Ret (MkSwept true (MkSweeping (sw_mem w') (fst r) (sw_events w')) (snd r))
    else if nalloc =? nelems s' then Ret (MkSwept false w' (push_full (spanclass (sw_span w)) (startAddr s') h))
    else Ret (MkSwept false w' (push_partial (spanclass (sw_span w)) (startAddr s') h))) = Ret r /\ disposed nalloc nfreed w h0 r.
Proof.
  intros Hh I A C G F N; cbv zeta; destruct preserve; [eexists; split; [reflexivity|apply disposed_kept; auto]|].
  destruct (Z.eqb_spec nalloc 0) as [Z0|Z0].
  - rewrite freeSpan_ok by (assumption || congruence); eexists; split; [reflexivity|].
    constructor; cbn; auto; rewrite F; reflexivity.
  - destruct (nalloc =? nelems s'); eexists; (split; [reflexivity|apply disposed_kept; auto]).
Qed.

Lemma dispose_large_ok dbg preserve nalloc nfreed w h :
  state (sw_span w) = mSpanInUse -> isUserArenaChunk (sw_span w) = false -> allocCount (sw_span w) = nalloc ->
  sweepgen (sw_span w) = h_sweepgen h -> sizeclass (spanclass (sw_span w)) = 0 -> (nfreed <> 0 -> nalloc = 0) ->
  0 <= startAddr (sw_span w) -> span_end (sw_span w) < 2 ^ 48 -> 0 < npages (sw_span w) ->
  exists r, dispose dbg preserve nalloc nfreed w h = Ret r /\ disposed nalloc nfreed w h r.
Proof.
  intros I A C G L Nf Hs He Hp; unfold dispose; rewrite A, L, Z.eqb_refl; cbn [negb].
  assert (Same : forall b h', h_sweepgen h' = h_sweepgen h -> disposed nalloc nfreed w h (MkSwept b w h'))
    by (destruct w as [m s ev]; intros b h' Hh; apply (disposed_kept nalloc nfreed (MkSweeping m s ev) s); auto using fate_refl).
  destruct preserve; [eexists; split; [reflexivity|apply Same; reflexivity]|].
  destruct (Z.eqb_spec nfreed 0) as [N|N]; cbn [negb]; [eexists; split; [reflexivity|apply Same; reflexivity]|].
  destruct (efence_on dbg); [eexists; split; [reflexivity|apply disposed_kept; auto; reflexivity]|].
  unfold janosSanitizeLargeSpan; rewrite (proj2 (Z.eqb_neq _ _)) by lia.
  rewrite freeSpan_ok by (cbn; auto; rewrite C; auto); eexists; split; [reflexivity|].
  constructor; cbn; auto; [reflexivity|left]; rewrite u64_small; auto.
  unfold span_end, pageSize in *; change (2 ^ 48) with 281474976710656 in *; unword; lia.
Qed.

Lemma dispose_ok dbg preserve nalloc nfreed w h :
  state (sw_span w) = mSpanInUse -> isUserArenaChunk (sw_span w) = false -> allocCount (sw_span w) = nalloc ->
  sweepgen (sw_span w) = h_sweepgen h -> (sizeclass (spanclass (sw_span w)) = 0 -> nfreed <> 0 -> nalloc = 0) ->
  0 <= startAddr (sw_span w) -> span_end (sw_span w) < 2 ^ 48 -> 0 < npages (sw_span w) ->
  exists r, dispose dbg preserve nalloc nfreed w h = Ret r /\ disposed nalloc nfreed w h r.
Proof.
  intros I A C G L Hs He Hp; destruct (Z.eq_dec (sizeclass (spanclass (sw_span w))) 0) as [Sc|Sc]; [apply dispose_large_ok; auto|].
  unfold dispose; rewrite A, (proj2 (Z.eqb_neq _ _) Sc); cbn [negb]; destruct (0 <? nfreed).
  - apply (dispose_small_ok preserve nalloc nfreed w (set_needzero 1 (sw_span w)) (count_small (sizeclass (spanclass (sw_span w))) nfreed (elemsize (sw_span w)) h) h);
      auto; [destruct (sw_span w); reflexivity|discriminate].
  - apply (dispose_small_ok preserve nalloc nfreed w (sw_span w) h h); auto; apply fate_refl.
Qed.

(** *** The theorem *)

Lemma staged_wf m s s2 m2 : span_wf s -> sweep_staged m s s2 m2 -> span_wf s2.
Proof.
  intros W [[b E] [B L] _ P _ _ _ _ _ _]; rewrite E in *; cbn in B, L, P; apply set_marks_wf; [apply set_specials_wf, W|exact B|exact L|exact P].
Qed.

(** The number of survivors, as the sweep counts them. *)
Lemma staged_count m s s2 m2 : span_wf s -> sweep_staged m s s2 m2 ->
  u16 (countAlloc s2) = Z.of_nat (length (filter (fun i => survives m s (Z.of_nat i)) (seq 0 (Z.to_nat (nelems s))))) /\
  0 <= u16 (countAlloc s2) <= nelems s.
Proof.
  intros W St; pose proof (staged_wf m s s2 m2 W St) as W2; pose proof (bw_nelems _ (wf_bits _ W)) as Ne; unfold MaxObjsPerSpan in Ne.
  destruct St as [[b E] _ M _ _ _ _ _ _ _].
  assert (C : countAlloc s2 = Z.of_nat (length (filter (fun i => survives m s (Z.of_nat i)) (seq 0 (Z.to_nat (nelems s)))))).
  { rewrite countAlloc_ok by exact W2; unfold count_bits; replace (nelems s2) with (nelems s) by (rewrite E; reflexivity).
    f_equal; apply filter_ext_length; intros i Hi; apply in_seq in Hi; apply M; lia. }
  pose proof (filter_length_le (fun i => survives m s (Z.of_nat i)) (seq 0 (Z.to_nat (nelems s)))) as Le; rewrite length_seq in Le.
  unfold u16; rewrite C, Z.mod_small by lia; lia.
Qed.

(** The span after the exchange of the bitmaps. *)
Lemma exchanged_ok m s s2 m2 g : span_ok m s -> sweep_staged m s s2 m2 ->
  let s3 := set_sweepgen g (exchange_bits (u16 (countAlloc s2)) s2) in
  span_ok m2 s3 /\ cache_at s3 0 /\
  (forall i, 0 <= i < nelems s -> isFree s3 i = negb (survives m s i) /\ marked m2 s3 i = false).
Proof.
  intros Ok St; destruct (staged_count m s s2 m2 (so_wf _ _ Ok) St) as [Cnt Rng]; pose proof (staged_wf m s s2 m2 (so_wf _ _ Ok) St) as W2.
  destruct Ok as [W B I So F C L], St as [[b E] [Bb Lb] Mk Pad Obj Out By Cl Kp Ks].
  assert (Bits : allocBits s2 = allocBits s) by (rewrite E; reflexivity).
  unfold exchange_bits; rewrite refill_value by exact Bb; cbv zeta.
  set (s3 := set_sweepgen g _).
  assert (Geo : startAddr s3 = startAddr s /\ npages s3 = npages s /\ nelems s3 = nelems s /\ elemsize s3 = elemsize s /\ spanclass s3 = spanclass s)
    by (unfold s3; rewrite E; cbn; auto).
  destruct Geo as (G1 & G2 & G3 & G4 & G5).
  assert (Fr : forall i, 0 <= i -> isFree s3 i = negb (bit (gcmarkBits s2) i)).
  { intros i Hi; rewrite isFree_spec by exact Hi; cbn [s3 set_sweepgen set_alloc freeindex allocBits]; rewrite (proj2 (Z.leb_le 0 i)) by exact Hi; reflexivity. }
  assert (Nb : length (gcmarkBits s2) = length (newMarkBits (nelems s))) by (rewrite Lb; apply wf_marks_len, W).
  assert (Slot : forall sp, special_slot s3 sp = special_slot s sp) by (intros; unfold special_slot; rewrite G4; reflexivity).
  assert (W3 : span_wf s3).
  { pose proof (bw_nelems _ (wf_bits _ W2)) as Ne2.
    destruct W2 as [w1 w2 w3 w4 w5 w6 w7 w8 w9 w10 w11]; constructor; auto.
    - constructor; [exact Ne2|exact Bb|cbn; lia].
    - cbn; unfold newMarkBits; apply Forall_forall; intros x Hx; apply repeat_spec in Hx; subst; unword; lia.
    - intros i Hi; split; [apply Pad; rewrite G3 in Hi; exact Hi|apply bit_repeat_0]. }
  split; [constructor; auto|split].
  - intros G; rewrite G4 in G; split; [intros i; apply bit_repeat_0|intros i Hi].
    pose proof (bw_nelems _ (wf_bits _ W)); unfold inline_bit, inlineMarkBits; rewrite G1; apply (Cl G); lia.
  - cbn; revert Kp; apply Forall_impl; intros sp [Hw Hs]; pose proof (special_slot_range s sp W Hw) as R.
    split; [unfold special_wf in *; rewrite G3, G4; exact Hw|rewrite Slot, Fr, Mk by lia; rewrite Hs; reflexivity].
  - cbn [s3 set_sweepgen set_alloc allocCount]; rewrite Cnt; unfold count_allocated; rewrite G3; f_equal; apply filter_ext_length.
    intros i Hi; apply in_seq in Hi; rewrite Fr, negb_involutive, Mk by lia; reflexivity.
  - rewrite G2, G3, G4, G5; exact L.
  - split; [apply not64_u64, eight_u64, Bb|]; intros j Hj; cbn [s3 set_sweepgen set_alloc allocCache allocBits].
    rewrite not64_bits by (apply eight_u64, Bb || exact Hj); rewrite le_val_bits by (apply bytes_eight, Bb || lia).
    rewrite bit_eight by lia; change (0 mod 64) with 0; rewrite (proj2 (Z.ltb_lt j (64 - 0))) by lia; reflexivity.
  - intros i Hi; rewrite Fr, Mk by lia; split; [reflexivity|].
    unfold marked, mark_byte; rewrite G4; destruct (gcUsesSpanInlineMarkBits (elemsize s)) eqn:G; [|apply bit_repeat_0].
    pose proof (inline_nelems s W G); pose proof (Cl eq_refl i ltac:(lia)) as Ci; unfold inline_bit in Ci.
    rewrite (proj2 (Z.ltb_lt i 504)) in Ci by lia; unfold inlineMarkBits in *; rewrite G1; exact Ci.
Qed.
