(* ===== verification/HeapClean.v ===== *)
(** * Freed heap memory stays clean

    Over Sweep.v: what a sweep does to every object of a span, that it does not fail, and the
    life of a span as a machine whose steps are the runtime's operations.  In every reachable
    state a free slot holds zeros, or what it held when the span was created. *)

From Stdlib Require Import String ZArith Lia List Bool Sorting.
From S2P Require Import Prelude Slices SysBits MSpan Sweep.
Import ListNotations.
#[local] Open Scope outcome_scope.

(** ** One sweep *)

(** What a sweep leaves: dead objects are zero, all others as they were; nothing outside the
    span has changed; and exactly the survivors are allocated. *)
Record swept_ok (m : memory) (s : mspan) (g : Z) (r : swept) : Prop := {
  sk_objects : forall a, in_objects s a ->
    sw_mem (after r) a = if survives m s (slot_at s a) || isFree s (slot_at s a) then m a else 0;
  sk_outside : forall a, ~ (startAddr s <= a < span_end s) -> sw_mem (after r) a = m a;
  sk_span : span_ok (sw_mem (after r)) (sw_span (after r));
  sk_free : forall i, 0 <= i < nelems s ->
    isFree (sw_span (after r)) i = negb (survives m s i) /\ marked (sw_mem (after r)) (sw_span (after r)) i = false;
  sk_geometry : startAddr (sw_span (after r)) = startAddr s /\ nelems (sw_span (after r)) = nelems s /\
    elemsize (sw_span (after r)) = elemsize s /\ npages (sw_span (after r)) = npages s;
  sk_same : spanclass (sw_span (after r)) = spanclass s /\ divMul (sw_span (after r)) = divMul s /\
    isUserArenaChunk (sw_span (after r)) = isUserArenaChunk s /\ sweepgen (sw_span (after r)) = g;
  sk_search : freeindex (sw_span (after r)) = 0 /\ cache_at (sw_span (after r)) 0;
  sk_needzero : needzero (sw_span (after r)) = 0 -> needzero s = 0 \/ forall a, in_objects s a -> sw_mem (after r) a = 0;
  sk_dead : state (sw_span (after r)) = mSpanDead -> forall i, 0 <= i < nelems s -> survives m s i = false;
}.

(** No marked object is free: what the check for zombies demands. *)
Definition no_zombies (m : memory) (s : mspan) : Prop :=
  forall i, freeindex s <= i < nelems s -> survives m s i = true -> isFree s i = false.

Lemma zombies_staged m s s2 m2 : span_ok m s -> sweep_staged m s s2 m2 -> has_zombies s2 = false <-> no_zombies m s.
Proof.
  intros Ok St; pose proof (staged_wf m s s2 m2 (so_wf _ _ Ok) St) as W2; rewrite (has_zombies_ok s2 W2).
  destruct St as [[b E] _ Mk _ _ _ _ _ _ _]; pose proof (bw_free _ (wf_bits _ (so_wf _ _ Ok))) as Fr.
  assert (G : freeindex s2 = freeindex s /\ nelems s2 = nelems s /\ allocBits s2 = allocBits s) by (rewrite E; auto).
  destruct G as (-> & -> & ->); unfold no_zombies; split; intros H i Hi.
  - intros Sv; rewrite isFree_spec, (proj2 (Z.leb_le _ _)) by lia; cbn [andb]; rewrite H; [reflexivity|lia|rewrite Mk by lia; exact Sv].
  - rewrite Mk by lia; intros Sv; specialize (H i Hi Sv); rewrite isFree_spec, (proj2 (Z.leb_le _ _)) in H by lia.
    apply negb_false_iff, H.
Qed.

(** The survivors are among the allocated objects. *)
Lemma survivors_allocated m s i : no_zombies m s -> 0 <= i < nelems s -> survives m s i = true -> isFree s i = false.
Proof.
  intros NZ Hi Sv; destruct (Z.lt_ge_cases i (freeindex s)); [unfold isFree; rewrite (proj2 (Z.ltb_lt _ _)) by lia; reflexivity|apply NZ; [lia|exact Sv]].
Qed.

Lemma same_fate_ok m s s' : same_but_fate s s' -> span_ok m s -> span_ok m s'.
Proof.
  intros E [W B I So F C L]; rewrite E; destruct W as [w1 w2 [n1 n2 n3] w4 w5 w6 w7 w8 w9 w10 w11].
  constructor; auto; constructor; auto; constructor; auto.
Qed.

Lemma sweepgen_apart x k : 0 <= x < W32 -> 0 < k < 4 -> u32 (x - 1) <> u32 (x + k).
Proof. intros Hx Hk E; unfold u32 in E; pose proof (Z.mod_eq (x - 1) W32); pose proof (Z.mod_eq (x + k) W32); lia. Qed.

Definition heap_ok (h : mheap) : Prop := 0 <= h_sweepgen h < W32.

(** The sweep up to disposal, computed. *)
Lemma sweep_unfold dbg preserve w h : span_ok (sw_mem w) (sw_span w) -> isUserArenaChunk (sw_span w) = false ->
  is_byte (spanclass (sw_span w)) -> heap_ok h -> being_swept (sw_span w) h = true -> no_zombies (sw_mem w) (sw_span w) ->
  exists s2 m2 ev, sweep_staged (sw_mem w) (sw_span w) s2 m2 /\
    let nalloc := u16 (countAlloc s2) in
    nalloc <= allocCount (sw_span w) /\
    sweep dbg true preserve w h =
      dispose dbg preserve nalloc (allocCount (sw_span w) - nalloc)
        (MkSweeping m2 (set_sweepgen (h_sweepgen h) (exchange_bits nalloc s2)) ev) (count_swept (npages (sw_span w)) h).
Proof.
  intros Ok NA Cl Hh Bs NZ; pose proof (stage_ok dbg w Ok NA Cl) as St; unfold sweep; cbn [negb]; rewrite Bs; cbn [negb].
  destruct (stage dbg w) as [[s2 m2] ev]; exists s2, m2, ev; split; [exact St|]; cbv zeta.
  rewrite (proj2 (zombies_staged _ _ _ _ Ok St) NZ).
  pose proof (staged_count _ _ _ _ (so_wf _ _ Ok) St) as [Cnt Rng]; pose proof (bw_nelems _ (wf_bits _ (so_wf _ _ Ok))) as Ne; unfold MaxObjsPerSpan in Ne.
  assert (Le : u16 (countAlloc s2) <= allocCount (sw_span w)).
  { rewrite Cnt, (so_count _ _ Ok); unfold count_allocated; apply Nat2Z.inj_le, filter_mono; intros i Hi Sv; apply in_seq in Hi.
    rewrite (survivors_allocated _ _ (Z.of_nat i) NZ ltac:(lia) Sv); reflexivity. }
  pose proof (count_allocated_range (sw_span w) ltac:(lia)) as CR; rewrite <- (so_count _ _ Ok) in CR.
  split; [exact Le|]; destruct St as [[b E] _ _ _ _ _ _ _ _ _].
  replace (allocCount s2) with (allocCount (sw_span w)) by (rewrite E; reflexivity).
  rewrite (proj2 (Z.ltb_ge _ _) Le).
  assert (Bx : being_swept (exchange_bits (u16 (countAlloc s2)) s2) (count_swept (npages (sw_span w)) h) = true) by (rewrite E; exact Bs).
  rewrite Bx; cbn [negb]; replace (sweepgen (exchange_bits (u16 (countAlloc s2)) s2)) with (sweepgen (sw_span w)) by (rewrite E; reflexivity).
  unfold being_swept in Bs; destruct (state (sw_span w)); try discriminate; apply Z.eqb_eq in Bs; rewrite Bs; cbn [count_swept h_sweepgen].
  rewrite (proj2 (Z.eqb_neq _ _) (sweepgen_apart (h_sweepgen h) 1 Hh ltac:(lia))), (proj2 (Z.eqb_neq _ _) (sweepgen_apart (h_sweepgen h) 3 Hh ltac:(lia))).
  assert (U : u16 (allocCount (sw_span w) - u16 (countAlloc s2)) = allocCount (sw_span w) - u16 (countAlloc s2))
    by (apply (Z.mod_small (allocCount (sw_span w) - u16 (countAlloc s2)) W16); lia).
  rewrite U; reflexivity.
Qed.

(** Clearing the pages of a large object that died. *)
Lemma large_cleared m s s2 m2 : span_ok m s -> sweep_staged m s s2 m2 -> sizeclass (spanclass s) = 0 ->
  0 < npages s -> allocCount s <> 0 -> (forall i, 0 <= i < nelems s -> survives m s i = false) ->
  let m' := memclrNoHeapPointers (startAddr s) (npages s * pageSize) m2 in
  gcUsesSpanInlineMarkBits (elemsize s) = false /\
  (forall a, in_objects s a -> m' a = if survives m s (slot_at s a) || isFree s (slot_at s a) then m a else 0) /\
  (forall a, ~ (startAddr s <= a < span_end s) -> m' a = m a) /\ forall a, is_byte (m' a).
Proof.
  intros Ok St L NP Al None; cbv zeta; destruct (so_large _ _ Ok L) as [N1 El]; pose proof (so_wf _ _ Ok) as W.
  assert (In : forall a, (startAddr s <=? a) && (a <? startAddr s + npages s * pageSize) = true <-> startAddr s <= a < span_end s)
    by (intros a; unfold span_end; rewrite andb_true_iff, Z.leb_le, Z.ltb_lt; reflexivity).
  split; [|split; [|split]]; unfold memclrNoHeapPointers.
  - unfold gcUsesSpanInlineMarkBits, heapBitsInSpan, MinSizeForMallocHeader, PtrSize, pageSize in *.
    apply andb_false_iff; left; apply Z.leb_gt; rewrite El; lia.
  - intros a Ia; pose proof (slot_at_range s a (wf_elem _ W) Ia) as [R _]; assert (S0 : slot_at s a = 0) by lia.
    rewrite (proj2 (In a)) by (pose proof (wf_fit _ W); destruct Ia; lia).
    rewrite None, S0 by lia; cbn [orb]; destruct (isFree s 0) eqn:F0; [|reflexivity].
    contradiction Al; rewrite (so_count _ _ Ok); unfold count_allocated; rewrite N1; change (Z.to_nat 1) with 1%nat; cbn [seq filter]; change (Z.of_nat 0) with 0; rewrite F0; reflexivity.
  - intros a Ha; destruct (_ && _) eqn:E; [apply In in E; contradiction|apply (ss_outside _ _ _ _ St); exact Ha].
  - intros a; destruct (_ && _); [unword; lia|apply (ss_bytes _ _ _ _ St)].
Qed.

Lemma span_pages m s : span_ok m s -> 0 < npages s.
Proof.
  intros Ok; pose proof (bw_nelems _ (wf_bits _ (so_wf _ _ Ok))); pose proof (wf_fit _ (so_wf _ _ Ok)) as Fit.
  pose proof (wf_elem _ (so_wf _ _ Ok)); unfold objects_end, span_end, pageSize in Fit; nia.
Qed.

(** The span and the memory after a sweep satisfy [swept_ok]. *)
Section Intro.
Context (m : memory) (s s2 : mspan) (m2 : memory) (g : Z) (ev : list gc_event) (nfreed : Z) (r : swept).
Context (Ok : span_ok m s) (St : sweep_staged m s s2 m2).

Let n := u16 (countAlloc s2).
Let s3 := set_sweepgen g (exchange_bits n s2).
Let s' := sw_span (after r).

Context (h : mheap) (Di : disposed n nfreed (MkSweeping m2 s3 ev) h r) (Nf : nfreed = allocCount s - n) (Le : n <= allocCount s).

Lemma no_survivor : n = 0 -> forall i, 0 <= i < nelems s -> survives m s i = false.
Proof.
  intros N i Hi; destruct (survives m s i) eqn:Sv; [exfalso|reflexivity].
  destruct (staged_count m s s2 m2 (so_wf _ _ Ok) St) as [Cnt _]; fold n in Cnt; rewrite N in Cnt.
  assert (I : In (Z.to_nat i) (filter (fun i => survives m s (Z.of_nat i)) (seq 0 (Z.to_nat (nelems s))))).
  { apply filter_In; split; [apply in_seq; lia|rewrite Z2Nat.id by lia; exact Sv]. }
  destruct (filter _ _); [contradiction|cbn in Cnt; lia].
Qed.

Lemma exchanged_fields :
  (startAddr s3 = startAddr s /\ nelems s3 = nelems s /\ elemsize s3 = elemsize s /\ npages s3 = npages s) /\
  (spanclass s3 = spanclass s /\ divMul s3 = divMul s /\ isUserArenaChunk s3 = isUserArenaChunk s /\ sweepgen s3 = g) /\
  freeindex s3 = 0 /\ needzero s3 = needzero s.
Proof. destruct St as [[b E] _ _ _ _ _ _ _ _ _]; unfold s3, exchange_bits; rewrite E; cbn; auto 10. Qed.

(** The memory after disposal: as staged, or a cleared large object. *)
Lemma disposed_mem : (sw_mem (after r) = m2 /\ (needzero s' = 0 -> needzero s = 0)) \/
  (gcUsesSpanInlineMarkBits (elemsize s) = false /\ (forall a, in_objects s a -> sw_mem (after r) a = 0) /\
   (forall a, in_objects s a -> sw_mem (after r) a = if survives m s (slot_at s a) || isFree s (slot_at s a) then m a else 0) /\
   (forall a, ~ (startAddr s <= a < span_end s) -> sw_mem (after r) a = m a) /\ forall a, is_byte (sw_mem (after r) a)).
Proof.
  destruct exchanged_fields as ((F1 & F2 & F3 & F4) & (F5 & _) & _ & F10).
  destruct (di_mem _ _ _ _ _ Di) as [(L & N & ->)|[-> K]]; [right|left; split; [reflexivity|rewrite <- F10; exact K]].
  cbn [sw_span sw_mem] in *; rewrite F5 in L; rewrite F1, F4.
  destruct (staged_count m s s2 m2 (so_wf _ _ Ok) St) as [_ R]; fold n in R; destruct (so_large _ _ Ok L) as [N1 _].
  pose proof (count_allocated_range s ltac:(lia)) as CR; rewrite <- (so_count _ _ Ok) in CR.
  destruct (large_cleared m s s2 m2 Ok St L (span_pages _ _ Ok) ltac:(lia) (no_survivor ltac:(lia))) as (C1 & C2 & C3 & C4).
  split; [exact C1|split; [|auto]]; intros a [H1 H2]; unfold memclrNoHeapPointers.
  pose proof (wf_fit _ (so_wf _ _ Ok)) as Fit; unfold span_end in Fit.
  rewrite (proj2 (Z.leb_le _ _) H1), (proj2 (Z.ltb_lt _ _)) by lia; reflexivity.
Qed.

Lemma disposed_span_ok m' : span_ok m' s3 -> span_ok m' s'.
Proof. apply same_fate_ok, (di_fate _ _ _ _ _ Di). Qed.

Lemma swept_intro : swept_ok m s g r.
Proof.
  destruct (exchanged_ok m s s2 m2 g Ok St) as (Ok3 & Ca & Fr); fold n s3 in Ok3, Ca, Fr.
  pose proof (di_fate _ _ _ _ _ Di) as Fate; cbn [sw_span] in Fate; fold s' in Fate; unfold same_but_fate in Fate.
  destruct exchanged_fields as ((F1 & F2 & F3 & F4) & (F5 & F6 & F7 & F8) & F9 & F10).
  constructor; fold s'.
  - destruct disposed_mem as [[-> _]|(_ & _ & ? & _)]; [apply (ss_objects _ _ _ _ St)|assumption].
  - destruct disposed_mem as [[-> _]|(_ & _ & _ & ? & _)]; [apply (ss_outside _ _ _ _ St)|assumption].
  - apply disposed_span_ok; destruct disposed_mem as [[-> _]|(G & _ & _ & _ & B)]; [exact Ok3|].
    destruct Ok3; constructor; auto; rewrite F3, G; discriminate.
  - intros i Hi; destruct (Fr i Hi) as [A1 A2]; rewrite Fate; split; [exact A1|].
    destruct disposed_mem as [[-> _]|(G & _)]; [exact A2|].
    unfold marked, mark_byte in *; cbn [elemsize set_limit set_needzero set_state]; rewrite F3, G in *; exact A2.
  - rewrite Fate; cbn; auto.
  - rewrite Fate; cbn; auto.
  - rewrite Fate; split; [exact F9|exact Ca].
  - intros N; destruct disposed_mem as [[_ K]|(_ & ? & _)]; auto.
  - intros D; apply no_survivor, (di_dead _ _ _ _ _ Di D).
Qed.
End Intro.

(** A sweep of a span in order neither throws nor touches a survivor, and clears the rest. *)
Lemma sweep_total dbg preserve w h : span_ok (sw_mem w) (sw_span w) -> isUserArenaChunk (sw_span w) = false ->
  is_byte (spanclass (sw_span w)) -> heap_ok h -> being_swept (sw_span w) h = true -> no_zombies (sw_mem w) (sw_span w) ->
  exists r, sweep dbg true preserve w h = Ret r /\ swept_ok (sw_mem w) (sw_span w) (h_sweepgen h) r /\ h_sweepgen (heap_after r) = h_sweepgen h.
Proof.
  intros Ok NA Cl Hh Bs NZ; destruct (sweep_unfold dbg preserve w h Ok NA Cl Hh Bs NZ) as (s2 & m2 & ev & St & Le & ->).
  set (s := sw_span w) in *; set (m := sw_mem w) in *.
  destruct (exchanged_fields m s s2 m2 (h_sweepgen h) St) as ((G1 & G2 & G3 & G4) & (G5 & G6 & G7 & G8) & _).
  destruct (staged_count m s s2 m2 (so_wf _ _ Ok) St) as [_ Rng]; pose proof (so_wf _ _ Ok) as W.
  pose proof (count_allocated_range s (proj1 (bw_nelems _ (wf_bits _ W)))) as CR; rewrite <- (so_count _ _ Ok) in CR.
  set (nalloc := u16 (countAlloc s2)) in *; set (s3 := set_sweepgen _ _) in *.
  destruct (dispose_ok dbg preserve nalloc (allocCount s - nalloc) (MkSweeping m2 s3 ev) (count_swept (npages s) h)) as (r & E & Di);
    cbn [sw_span sw_mem]; unfold span_end; rewrite ?G1, ?G4, ?G5, ?G7; auto.
  - unfold s3, exchange_bits; destruct St as [[b E] _ _ _ _ _ _ _ _ _]; rewrite E; cbn.
    unfold being_swept in Bs; fold s in Bs; destruct (state s); congruence.
  - intros L N; destruct (so_large _ _ Ok L) as [N1 _]; lia.
  - apply (wf_start _ W).
  - apply (wf_end _ W).
  - apply (span_pages _ _ Ok).
  - exists r; split; [exact E|split; [exact (swept_intro m s s2 m2 (h_sweepgen h) ev _ r Ok St _ Di eq_refl Le)|apply (di_gen _ _ _ _ _ Di)]].
Qed.

(** A zombie stops the program. *)
Lemma sweep_zombie dbg preserve w h : span_ok (sw_mem w) (sw_span w) -> isUserArenaChunk (sw_span w) = false ->
  is_byte (spanclass (sw_span w)) -> being_swept (sw_span w) h = true -> ~ no_zombies (sw_mem w) (sw_span w) ->
  sweep dbg true preserve w h = Fail "found pointer to free object"%string.
Proof.
  intros Ok NA Cl Bs Z; pose proof (stage_ok dbg w Ok NA Cl) as St; unfold sweep; cbn [negb]; rewrite Bs; cbn [negb].
  destruct (stage dbg w) as [[s2 m2] ev]; destruct (has_zombies s2) eqn:Hz; [reflexivity|].
  contradiction Z; apply (zombies_staged _ _ _ _ Ok St), Hz.
Qed.

(** User arena chunks are left to [sysFault]: the loop does not clear them. *)
Lemma arena_chunks_kept s m : isUserArenaChunk s = true -> sweep_objects (MkDebug false false) s m = m.
Proof.
  intros A; unfold sweep_objects.
  apply (for_range_ind (fun _ (st : memory * markBits * markBits) => fst (fst st) = m)); [reflexivity|].
  intros i [[m' mb] ab] _ E; cbn in E; subst m'; unfold sweep_object; rewrite A; cbn [negb clobberfree_on].
  destruct (_ && _); reflexivity.
Qed.
