(* ===== verification/HeapAlloc.v ===== *)
(** * Allocation keeps a span in order

    Over MSpan.v and Sweep.v: a fresh span from [mcentral.grow], the allocation of a slot by
    [mallocgcSmallNoscan], marking, and the list of special records ([addspecial],
    [removespecial] of [runtime/mheap.go]) keep the invariant [span_ok]. *)

From Stdlib Require Import String ZArith Lia List Bool Sorting.
From S2P Require Import Prelude Slices SysBits MSpan Sweep.
Import ListNotations.
#[local] Open Scope outcome_scope.

(** ** Special records *)

Definition kind_number (k : special_kind) : Z :=
  match k with
  | SpecialTinyBlock => 1
  | SpecialFinalizer _ => 2
  | SpecialWeakHandle _ => 3
  | SpecialProfile _ => 4
  | SpecialReachable _ _ => 5
  | SpecialPinCounter => 6
  | SpecialCleanup _ => 7
  | SpecialCheckFinalizer => 8
  | SpecialBubble => 9
  | SpecialSecret _ => 10
  end.

(** The list before and from the splice point, and whether the record exists. *)
Fixpoint specialFindSplicePoint (offset kind : Z) (l : list special) : list special * list special * bool :=
  match l with
  | [] => ([], [], false)
  | s :: l' =>
      if (offset =? sp_offset s) && (kind =? kind_number (sp_kind s)) then ([], l, true)
      else if (offset <? sp_offset s) || ((offset =? sp_offset s) && (kind <? kind_number (sp_kind s))) then ([], l, false)
      else let '(before, from, found) := specialFindSplicePoint offset kind l' in (s :: before, from, found)
  end.

Definition addspecial (sp : special) (force : bool) (l : list special) : list special * bool :=
  let '(before, from, exists_) := specialFindSplicePoint (sp_offset sp) (kind_number (sp_kind sp)) l in
  if negb exists_ || force then (before ++ sp :: from, true) else (l, false).

Definition removespecial (offset kind : Z) (l : list special) : list special * option special :=
  let '(before, from, exists_) := specialFindSplicePoint offset kind l in
  match exists_, from with
  | true, s :: next => (before ++ next, Some s)
  | _, _ => (l, None)
  end.

Lemma splice_ok offset kind l : offsets_sorted l ->
  let '(before, from, found) := specialFindSplicePoint offset kind l in
  l = before ++ from /\ Forall (fun s => sp_offset s <= offset) before /\ Forall (fun s => offset <= sp_offset s) from.
Proof.
  induction 1 as [|s l Sl IH F]; cbn [specialFindSplicePoint]; [repeat split; constructor|].
  assert (Up : offset <= sp_offset s -> Forall (fun s => offset <= sp_offset s) (s :: l)).
  { intros H; constructor; [exact H|]; revert F; apply Forall_impl; intros x Hx; cbv beta in *; lia. }
  destruct (_ && _) eqn:E1.
  { apply andb_true_iff in E1 as [E1 _]; apply Z.eqb_eq in E1; repeat split; [constructor|apply Up; lia]. }
  destruct (_ || _) eqn:E2.
  { apply orb_true_iff in E2 as [E2|E2]; [apply Z.ltb_lt in E2|apply andb_true_iff in E2 as [E2 _]; apply Z.eqb_eq in E2];
      (repeat split; [constructor|apply Up; lia]). }
  apply orb_false_iff in E2 as [E2 _]; apply Z.ltb_ge in E2.
  destruct (specialFindSplicePoint _ _ l) as [[before from] found]; destruct IH as (-> & B & A).
  split; [reflexivity|split; [constructor; [lia|exact B]|exact A]].
Qed.

Lemma sorted_splice before from s : offsets_sorted (before ++ from) ->
  Forall (fun x => sp_offset x <= sp_offset s) before -> Forall (fun x => sp_offset s <= sp_offset x) from ->
  offsets_sorted (before ++ s :: from).
Proof.
  induction before as [|x before IH]; cbn; intros H B A; [constructor; [exact H|exact A]|].
  inversion H as [|? ? H1 H2]; inversion B as [|? ? B1 B2]; subst; constructor; [apply IH; assumption|].
  apply Forall_app in H2 as [H2 H3]; apply Forall_app; split; [exact H2|constructor; assumption].
Qed.

Lemma sorted_drop before s from : offsets_sorted (before ++ s :: from) -> offsets_sorted (before ++ from).
Proof.
  induction before as [|x before IH]; cbn; intros H; inversion H as [|? ? H1 H2]; subst; [exact H1|constructor; [apply IH, H1|]].
  apply Forall_app in H2 as [H2 H3]; inversion H3; apply Forall_app; split; assumption.
Qed.

(** Both keep the list sorted; one adds exactly the record, the other only removes. *)
Lemma addspecial_ok sp force l : offsets_sorted l ->
  offsets_sorted (fst (addspecial sp force l)) /\ forall x, In x (fst (addspecial sp force l)) -> x = sp \/ In x l.
Proof.
  intros So; unfold addspecial; pose proof (splice_ok (sp_offset sp) (kind_number (sp_kind sp)) l So) as P.
  destruct (specialFindSplicePoint _ _ l) as [[before from] found]; destruct P as (-> & B & A).
  destruct (_ || _); cbn [fst]; [|auto]; split; [apply sorted_splice; assumption|].
  intros x Hx; rewrite in_app_iff in *; destruct Hx as [?|[?|?]]; auto.
Qed.

Lemma removespecial_ok offset kind l : offsets_sorted l ->
  offsets_sorted (fst (removespecial offset kind l)) /\ forall x, In x (fst (removespecial offset kind l)) -> In x l.
Proof.
  intros So; unfold removespecial; pose proof (splice_ok offset kind l So) as P.
  destruct (specialFindSplicePoint _ _ l) as [[before from] found]; destruct P as (-> & B & A).
  destruct found, from as [|s from]; cbn [fst]; auto.
  split; [apply (sorted_drop before s), So|]; intros x Hx; rewrite in_app_iff in *; cbn; tauto.
Qed.

(** ** What keeps the invariant *)

Lemma marked_agree_on m m' s i : span_wf s -> 0 <= i < nelems s -> (forall a, mark_bytes_of s a -> m' a = m a) -> marked m' s i = marked m s i.
Proof.
  intros W Hi H; unfold marked, mark_byte; destruct (gcUsesSpanInlineMarkBits _) eqn:G; [|reflexivity].
  pose proof (inline_nelems s W G); pose proof (Z.div_pos i 8); assert (i / 8 < 63) by (apply Z.div_lt_upper_bound; lia).
  rewrite H; [reflexivity|]; split; [exact G|unfold imb_marks, imb_class; lia].
Qed.

Lemma span_ok_mem m m' s : span_ok m s -> (forall a, mark_bytes_of s a -> m' a = m a) -> (forall a, is_byte (m' a)) -> span_ok m' s.
Proof.
  intros [W B I So F C L] H B'; constructor; auto; intros G; destruct (I G) as [I1 I2]; split; [exact I1|].
  intros i Hi; rewrite <- (I2 i Hi); unfold inline_bit; destruct (Z.ltb_spec i 504); [|reflexivity]; cbn [andb].
  pose proof (bw_nelems _ (wf_bits _ W)); pose proof (Z.div_pos i 8); assert (i / 8 < 63) by (apply Z.div_lt_upper_bound; lia).
  rewrite H; [reflexivity|]; split; [exact G|unfold imb_marks, imb_class; lia].
Qed.

Lemma span_ok_specials m s l : span_ok m s -> offsets_sorted l ->
  (forall sp, In sp l -> special_wf s sp /\ isFree s (special_slot s sp) = false) -> span_ok m (set_specials l s).
Proof.
  intros [W B I So F C L] Sl Fl; constructor; cbn; auto using set_specials_wf; apply Forall_forall; exact Fl.
Qed.

Lemma span_ok_gen m s g x : span_ok m s -> span_ok m (set_sweepgen g s) /\ span_ok m (set_freeIndexForScan x s).
Proof.
  intros [[w1 w2 [n1 n2 n3] w4 w5 w6 w7 w8 w9 w10 w11] B I So F C L].
  split; (constructor; auto; constructor; auto; constructor; auto).
Qed.

(** Setting a mark. *)
Lemma mark_ok m s i : span_ok m s -> 0 <= i < nelems s ->
  let '(m1, s1) := setMarked m s (markBitsForIndex s i) in
  span_ok m1 s1 /\ same_but_marks s s1 /\ (forall j, 0 <= j -> marked m1 s1 j = marked m s j || (j =? i)) /\
  (forall a, ~ mark_bytes_of s a -> m1 a = m a).
Proof.
  intros [W B I So F C L] Hi; pose proof (setMarked_ok m s i W Hi) as M; destruct (setMarked m s _) as [m1 s1].
  destruct M as (E & W1 & Mk & Out & By & In1); split; [|auto]; unfold same_but_marks in E.
  assert (Es : elemsize s1 = elemsize s) by (rewrite E; reflexivity).
  constructor; auto; try (rewrite E; assumption).
  rewrite Es; intros G; destruct (I G) as [I1 I2]; split; [rewrite (In1 G); exact I1|].
  intros j Hj; replace (nelems s1) with (nelems s) in Hj by (rewrite E; reflexivity).
  assert (J : inline_bit m s j = (j <? 504) && marked m s j /\ inline_bit m1 s1 j = (j <? 504) && marked m1 s1 j).
  { unfold inline_bit, marked, mark_byte; rewrite Es, G; auto. }
  destruct J as [J1 J2]; specialize (I2 j Hj); rewrite J1 in I2; rewrite J2, Mk by lia.
  rewrite (proj2 (Z.eqb_neq j i)), orb_false_r by lia; exact I2.
Qed.

(** Setting a bit of the scanned objects, below the marks. *)
Lemma scan_ok m s i : span_ok m s -> 0 <= i < nelems s -> gcUsesSpanInlineMarkBits (elemsize s) = true ->
  exists m1, setMarked m s (scannedBitsForIndex s i) = (m1, s) /\ (forall a, is_byte (m1 a)) /\
    (forall a, mark_bytes_of s a -> m1 a = m a) /\ (forall a, in_objects s a -> m1 a = m a).
Proof.
  intros Ok Hi G; pose proof (so_wf _ _ Ok) as W; pose proof (inline_nelems s W G); destruct (wf_inline _ W G) as [_ E].
  pose proof (Z.div_pos i 8 ltac:(lia)); assert (i / 8 < 63) by (apply Z.div_lt_upper_bound; lia).
  unfold setMarked, scannedBitsForIndex; cbn [bytep mask load_bit_ptr]; eexists; split; [reflexivity|].
  pose proof (bit_index_mod i ltac:(lia)) as Mi; rewrite mask_bits by exact Mi; unfold store_bytes; cbn [length].
  assert (Out : forall a, a <> inlineMarkBits s + i / 8 ->
    (inlineMarkBits s + i / 8 <=? a) && (a <? inlineMarkBits s + i / 8 + Z.of_nat 1) = false).
  { intros a N; apply andb_false_iff; rewrite Z.leb_gt, Z.ltb_ge; lia. }
  split; [|split].
  - intros a; destruct (_ && _) eqn:Q; [|apply (so_bytes _ _ Ok)]; destruct (Z.eq_dec a (inlineMarkBits s + i / 8)) as [->|N];
      [|rewrite Out in Q by exact N; discriminate].
    rewrite Z.sub_diag; apply byte_lor_pow; [apply (so_bytes _ _ Ok)|exact Mi].
  - intros a [_ [K1 K2]]; unfold imb_marks in *; rewrite Out by lia; reflexivity.
  - intros a Ia; pose proof (inline_after_objects s a W G Ia); rewrite Out by lia; reflexivity.
Qed.

(** ** Allocating a slot *)

Lemma TrailingZeros64_nonneg x : 0 <= TrailingZeros64 x.
Proof.
  unfold TrailingZeros64; destruct (x =? 0); [lia|].
  match goal with |- 0 <= nth ?k ?l 0 => destruct (Nat.lt_ge_cases k (length l)) as [H|H]; [|rewrite nth_overflow by exact H; lia] end.
  pose proof (nth_In deBruijn64tab 0 H) as I; revert I; apply (proj1 (Forall_forall (fun y => 0 <= y) deBruijn64tab)).
  apply Forall_forall; intros y Hy; cbn in Hy; intuition lia.
Qed.

(** A full span has no quick answer. *)
Lemma nextFreeFast_full s : 0 < nelems s <= MaxObjsPerSpan -> freeindex s = nelems s -> nextFreeFast s = (0, s).
Proof.
  intros Ne E; unfold MaxObjsPerSpan in Ne; unfold nextFreeFast; pose proof (TrailingZeros64_nonneg (allocCache s)).
  destruct (Z.ltb_spec (TrailingZeros64 (allocCache s)) 64); [|reflexivity]; rewrite u16_index by lia.
  rewrite (proj2 (Z.ltb_ge _ _)) by lia; reflexivity.
Qed.

Lemma taken_free s i c j : 0 <= freeindex s <= nelems s -> first_free s (freeindex s) i -> i < nelems s -> 0 <= j ->
  isFree (taken s i c) j = isFree s j && negb (j =? i).
Proof.
  intros Fr (F1 & F2 & F3) Hi Hj; rewrite !isFree_spec by exact Hj; unfold taken; cbn [set_alloc freeindex allocBits]; rewrite Z.min_r by lia.
  destruct (Z.leb_spec (i + 1) j), (Z.leb_spec (freeindex s) j), (Z.eqb_spec j i); cbn [andb negb]; try lia;
    rewrite ?andb_true_r, ?andb_false_r; try reflexivity.
  rewrite F2 by lia; reflexivity.
Qed.

Lemma first_is_free s i : 0 <= freeindex s -> first_free s (freeindex s) i -> i < nelems s -> isFree s i = true.
Proof. intros Fr (F1 & F2 & F3) Hi; rewrite isFree_spec, (proj2 (Z.leb_le _ _)), F3 by lia; reflexivity. Qed.

Lemma taken_count s i c : 0 <= freeindex s <= nelems s -> first_free s (freeindex s) i -> i < nelems s ->
  count_allocated (taken s i c) = count_allocated s + 1.
Proof.
  intros Fr F Hi; assert (0 <= i) by (destruct F; lia); unfold count_allocated; change (nelems (taken s i c)) with (nelems s).
  rewrite (filter_add (fun i => negb (isFree s (Z.of_nat i))) _ (Z.to_nat i)); [lia|apply List.seq_NoDup|apply in_seq; lia| |].
  - rewrite Z2Nat.id, (first_is_free s i) by (assumption || lia); reflexivity.
  - intros j _; rewrite taken_free, negb_andb, negb_involutive by (assumption || lia); f_equal.
    destruct (Nat.eqb_spec j (Z.to_nat i)), (Z.eqb_spec (Z.of_nat j) i); reflexivity || lia.
Qed.

(** The span after slot [i] is handed out. *)
Definition handed (s : mspan) (i c : Z) : mspan := set_allocCount (u16 (allocCount s + 1)) (taken s i c).

Lemma handed_ok m s i c : span_ok m s -> first_free s (freeindex s) i -> i < nelems s -> span_ok m (handed s i c).
Proof.
  intros [W B I So F C L] Fi Hi; pose proof (bw_free _ (wf_bits _ W)) as Fr; pose proof (bw_nelems _ (wf_bits _ W)) as Ne; unfold MaxObjsPerSpan in Ne.
  pose proof (count_allocated_range (taken s i c) ltac:(cbn; lia)) as R; pose proof (taken_count s i c Fr Fi Hi) as T.
  change (nelems (taken s i c)) with (nelems s) in R; pose proof (count_allocated_range s ltac:(lia)).
  constructor; auto.
  - destruct W as [w1 w2 [n1 n2 n3] w4 w5 w6 w7 w8 w9 w10 w11]; constructor; auto; constructor; auto; cbn.
    destruct Fi; lia.
  - revert F; apply Forall_impl; intros sp [H1 H2]; split; [exact H1|].
    change (isFree (handed s i c)) with (isFree (taken s i c)); change (special_slot (handed s i c) sp) with (special_slot s sp).
    pose proof (special_slot_range s sp W H1); rewrite taken_free, H2 by (assumption || lia); reflexivity.
  - cbn [handed set_allocCount allocCount]; change (count_allocated (handed s i c)) with (count_allocated (taken s i c)).
    rewrite C, T; apply u16_index; lia.
Qed.

(** Finding a slot, the quick way or not. *)
Definition find_slot (s : mspan) : outcome string (option (Z * mspan)) :=
  let '(v, s1) := nextFreeFast s in if v =? 0 then nextFree s else Ret (Some (v, s1)).

Lemma full_count s : 0 <= freeindex s <= nelems s -> first_free s (freeindex s) (nelems s) -> 0 < nelems s -> count_allocated s = nelems s.
Proof.
  intros Fr (_ & F & _) Ne; unfold count_allocated; rewrite filter_ext_length with (q := fun _ => true).
  - rewrite List.forallb_filter_id by (apply forallb_forall; reflexivity); rewrite length_seq; lia.
  - intros j Hj; apply in_seq in Hj; rewrite isFree_spec by lia.
    destruct (Z.leb_spec (freeindex s) (Z.of_nat j)); [rewrite F by lia|]; reflexivity.
Qed.

Lemma slot_positive s i : span_wf s -> 0 <= i < nelems s -> u64 (u64 (i * elemsize s) + startAddr s) = slot s i.
Proof. intros W Hi; unfold slot; rewrite Z.add_comm; reflexivity. Qed.

Lemma find_slot_ok m s : span_ok m s -> cache_ok s ->
  (find_slot s = Ret None /\ allocCount s = nelems s) \/
  exists i c, find_slot s = Ret (Some (slot s i, handed s i c)) /\ first_free s (freeindex s) i /\ i < nelems s /\ cache_ok (handed s i c).
Proof.
  intros Ok C; pose proof (so_wf _ _ Ok) as W; pose proof (wf_bits _ W) as Wb; pose proof (bw_nelems _ Wb) as Ne; pose proof (bw_free _ Wb) as Fr.
  destruct (nextFreeIndex_ok s Wb C) as (i & c & E & F & C' & _).
  assert (Slow : (nextFree s = Ret None /\ allocCount s = nelems s) \/
    i < nelems s /\ nextFree s = Ret (Some (slot s i, handed s i c))).
  { unfold nextFree; rewrite E; cbn [bind]; change (nelems (taken s i c)) with (nelems s); change (allocCount (taken s i c)) with (allocCount s).
    destruct (Z.eqb_spec i (nelems s)) as [->|N].
    - rewrite (so_count _ _ Ok), (full_count s Fr F) by lia; rewrite Z.eqb_refl; auto.
    - right; assert (Hi : i < nelems s) by (destruct F; lia); split; [exact Hi|].
      pose proof (taken_count s i c Fr F Hi) as T; pose proof (count_allocated_range (taken s i c) ltac:(cbn; lia)) as R.
      change (nelems (taken s i c)) with (nelems s) in R; rewrite <- (so_count _ _ Ok) in T; unfold MaxObjsPerSpan in Ne.
      change (elemsize (taken s i c)) with (elemsize s); change (startAddr (taken s i c)) with (startAddr s).
      rewrite (slot_positive s i W) by (destruct F; lia); fold (handed s i c).
      change (nelems (handed s i c)) with (nelems s); change (allocCount (handed s i c)) with (u16 (allocCount s + 1)).
      pose proof (count_allocated_range s ltac:(lia)); rewrite u16_index by (rewrite (so_count _ _ Ok); lia).
      rewrite (proj2 (Z.ltb_ge _ _)) by lia; reflexivity. }
  assert (Slow' : find_slot s = nextFree s -> (find_slot s = Ret None /\ allocCount s = nelems s) \/
    exists i c, find_slot s = Ret (Some (slot s i, handed s i c)) /\ first_free s (freeindex s) i /\ i < nelems s /\ cache_ok (handed s i c)).
  { intros ->; destruct Slow as [?|[Hi ?]]; [auto|right; exists i, c; auto]. }
  destruct (Z.eq_dec (freeindex s) (nelems s)) as [Ef|Nf].
  { apply Slow'; unfold find_slot; rewrite (nextFreeFast_full s Ne Ef); reflexivity. }
  destruct (nextFreeFast_ok s i c Wb C ltac:(lia) E) as [Ef|[Hi Ef]]; [apply Slow'; unfold find_slot; rewrite Ef; reflexivity|].
  destruct (Z.eqb_spec (slot s i) 0) as [Z0|Z0].
  - apply Slow'; unfold find_slot; rewrite Ef, Z0; reflexivity.
  - right; exists i, c; split; [|auto]; unfold find_slot; rewrite Ef, (proj2 (Z.eqb_neq _ _) Z0); reflexivity.
Qed.

(** The index of a slot is found again by any address in it. *)
Definition div_ok (s : mspan) : Prop := forall i o, 0 <= i < nelems s -> 0 <= o < elemsize s -> objIndex s (slot s i + o) = i.

Lemma div_slot s i : div_ok s -> 0 < elemsize s -> 0 <= i < nelems s -> objIndex s (slot s i) = i.
Proof. intros D He Hi; rewrite <- (Z.add_0_r (slot s i)); apply D; lia. Qed.

(** What an allocation does. *)
Record allocated (wb : bool) (m : memory) (s : mspan) (i : Z) (m' : memory) (s' : mspan) : Prop := {
  al_slot : 0 <= i < nelems s /\ isFree s i = true;
  al_free : forall j, 0 <= j -> isFree s' j = isFree s j && negb (j =? i);
  al_others : forall a, in_objects s a -> slot_at s a <> i -> m' a = m a;
  al_ok : span_ok m' s';
  al_cache : cache_ok s';
  al_marks : forall j, 0 <= j < nelems s -> marked m' s' j = marked m s j || (wb && (j =? i));
  al_same : exists c f g, s' = set_gcmarkBits g (set_freeIndexForScan f (handed s i c));
}.

Lemma all_counted s i : count_allocated s = nelems s -> 0 <= i < nelems s -> isFree s i = false.
Proof.
  unfold count_allocated; intros E Hi.
  assert (F : negb (isFree s (Z.of_nat (Z.to_nat i))) = true)
    by (apply (filter_full (fun i => negb (isFree s (Z.of_nat i))) (seq 0 (Z.to_nat (nelems s)))); [rewrite length_seq; lia|apply in_seq; lia]).
  rewrite Z2Nat.id in F by lia; apply negb_true_iff, F.
Qed.

(** The address of slot [i], in and out. *)
Lemma slot_bytes s i a : span_wf s -> 0 <= i < nelems s -> in_objects s a ->
  (slot s i <=? a) && (a <? slot s i + elemsize s) = (slot_at s a =? i).
Proof.
  intros W Hi Ia; rewrite slot_exact by assumption; destruct (slot_at_range s a (wf_elem _ W) Ia) as [R S].
  destruct (Z.eqb_spec (slot_at s a) i) as [<-|N]; [apply andb_true_iff; rewrite Z.leb_le, Z.ltb_lt; lia|].
  apply andb_false_iff; rewrite Z.leb_gt, Z.ltb_ge; destruct (Z.lt_ge_cases a (startAddr s + i * elemsize s)); [auto|right].
  destruct (Z.lt_ge_cases a (startAddr s + i * elemsize s + elemsize s)); [|assumption].
  contradiction N; apply slot_at_unique; [apply (wf_elem _ W)|lia].
Qed.

(** The clearing of a fresh slot stays in the slot. *)
Lemma clear_fresh m s i (b : bool) : span_ok m s -> 0 <= i < nelems s ->
  let m' := if b then memclrNoHeapPointers (slot s i) (elemsize s) m else m in
  span_ok m' s /\ (forall a, in_objects s a -> m' a = if (slot_at s a =? i) && b then 0 else m a) /\
  forall a, mark_bytes_of s a -> m' a = m a.
Proof.
  intros Ok Hi; cbv zeta; pose proof (so_wf _ _ Ok) as W; destruct b; [|split; [exact Ok|split; [intros; rewrite andb_false_r; reflexivity|reflexivity]]].
  assert (Mb : forall a, mark_bytes_of s a -> memclrNoHeapPointers (slot s i) (elemsize s) m a = m a).
  { intros a Ma; unfold memclrNoHeapPointers; destruct (_ && _) eqn:E; [|reflexivity].
    apply andb_true_iff in E as [E1 E2]; apply Z.leb_le in E1; apply Z.ltb_lt in E2; rewrite slot_exact in E1, E2 by assumption.
    pose proof (slot_in_objects s a i (wf_elem _ W) Hi ltac:(lia)) as Ia; destruct (objects_not_marks s a W Ia Ma). }
  split; [|split; [|exact Mb]].
  - apply (span_ok_mem m); [exact Ok|exact Mb|]; intros a; unfold memclrNoHeapPointers; destruct (_ && _); [unword; lia|apply (so_bytes _ _ Ok)].
  - intros a Ia; unfold memclrNoHeapPointers; rewrite slot_bytes, andb_true_r by assumption; reflexivity.
Qed.

(** [gcmarknewobject]. *)
Lemma gcmarknewobject_ok phase x m s i : span_ok m s -> objIndex s x = i -> 0 <= i < nelems s -> phase <> GCmarktermination ->
  exists m' s', gcmarknewobject phase x m s = Ret (m', s') /\ span_ok m' s' /\ same_but_marks s s' /\
    (forall j, 0 <= j < nelems s -> marked m' s' j = marked m s j || (j =? i)) /\ (forall a, in_objects s a -> m' a = m a).
Proof.
  intros Ok Dv Hi Ph; pose proof (so_wf _ _ Ok) as W; unfold gcmarknewobject; rewrite Dv.
  pose proof (mark_ok m s i Ok Hi) as M; destruct (setMarked m s (markBitsForIndex s i)) as [m1 s1]; destruct M as (Ok1 & E & Mk & Out).
  pose proof E as E'; unfold same_but_marks in E'.
  assert (Geo : elemsize s1 = elemsize s /\ nelems s1 = nelems s /\ (forall a, in_objects s1 a <-> in_objects s a)) by (rewrite E'; split; [reflexivity|split; [reflexivity|intros a; apply iff_refl]]).
  destruct Geo as (G1 & G2 & G3); rewrite G1.
  assert (Done : exists m' s', (if gcUsesSpanInlineMarkBits (elemsize s) then Ret (setMarked m1 s1 (scannedBitsForIndex s1 i)) else Ret (m1, s1)) = @Ret string _ (m', s') /\
    span_ok m' s' /\ same_but_marks s s' /\
    (forall j, 0 <= j < nelems s -> marked m' s' j = marked m s j || (j =? i)) /\ (forall a, in_objects s a -> m' a = m a)).
  { assert (Ob : forall a, in_objects s a -> m1 a = m a) by (intros a Ia; apply Out, objects_not_marks; assumption).
    destruct (gcUsesSpanInlineMarkBits (elemsize s)) eqn:G.
    - destruct (scan_ok m1 s1 i Ok1 ltac:(lia) ltac:(rewrite G1; exact G)) as (m2 & -> & B2 & M2 & O2).
      exists m2, s1; split; [reflexivity|split; [apply (span_ok_mem m1); assumption|split; [exact E|split]]].
      + intros j Hj; rewrite <- Mk by lia; apply marked_agree_on; [apply (so_wf _ _ Ok1)|lia|exact M2].
      + intros a Ia; rewrite O2 by (apply G3, Ia); apply Ob, Ia.
    - exists m1, s1; split; [reflexivity|split; [exact Ok1|split; [exact E|split; [intros; apply Mk; lia|exact Ob]]]]. }
  destruct Done as (m' & s' & Ed & D); exists m', s'; split; [|exact D].
  destruct phase; [..|congruence]; destruct (gcUsesSpanInlineMarkBits _); exact Ed.
Qed.

Lemma same_marks_alloc s s' : same_but_marks s s' ->
  (forall j, isFree s' j = isFree s j) /\ (cache_ok s -> cache_ok s') /\ nelems s' = nelems s.
Proof. intros ->; auto. Qed.

(** The end of every allocation path, once slot [i] is found and its memory prepared:
    the object at [x] is marked during marking, and [ret] is returned. *)
Definition publish (phase : gcphase_t) (wb : bool) (x ret : Z) (m : memory) (s : mspan) : outcome string (option (Z * memory * mspan)) :=
  if wb then let* r := gcmarknewobject phase x m s in Ret (Some (ret, fst r, snd r))
  else Ret (Some (ret, m, set_freeIndexForScan (freeindex s) s)).

(** Memory that differs from [m] only inside slot [i] and off the mark bits. *)
Record prepared (m : memory) (s : mspan) (i : Z) (m1 : memory) : Prop := {
  pr_bytes : forall a, is_byte (m1 a);
  pr_marks : forall a, mark_bytes_of s a -> m1 a = m a;
  pr_others : forall a, in_objects s a -> slot_at s a <> i -> m1 a = m a;
}.

Lemma publish_ok phase wb x ret m s i c m1 :
  span_ok m s -> first_free s (freeindex s) i -> i < nelems s -> cache_ok (handed s i c) -> prepared m s i m1 ->
  objIndex s x = i -> (wb = true -> phase <> GCmarktermination) ->
  exists m' s', publish phase wb x ret m1 (handed s i c) = Ret (Some (ret, m', s')) /\ allocated wb m s i m' s' /\
    forall a, in_objects s a -> m' a = m1 a.
Proof.
  intros Ok F Hi C' [Pb Pm Po] Dv Ph; pose proof (so_wf _ _ Ok) as W; pose proof (bw_free _ (wf_bits _ W)) as Fr.
  assert (Ri : 0 <= i < nelems s) by (destruct F; lia).
  pose proof (span_ok_mem m m1 _ (handed_ok m s i c Ok F Hi) Pm Pb) as Ok1; set (s1 := handed s i c) in *.
  assert (Fi : isFree s i = true) by (apply first_is_free; assumption || lia).
  assert (Fre : forall j, 0 <= j -> isFree s1 j = isFree s j && negb (j =? i)) by (intros j Hj; apply taken_free; assumption).
  assert (Mk1 : forall j, 0 <= j < nelems s -> marked m1 s1 j = marked m s j)
    by (intros j Hj; apply (marked_agree_on m m1 s j W Hj Pm)).
  unfold publish; destruct wb.
  - destruct (gcmarknewobject_ok phase x m1 s1 i Ok1 Dv Ri (Ph eq_refl)) as (m' & s' & -> & Ok' & Sb & Mk & Ob).
    exists m', s'; split; [reflexivity|]; split; [|exact Ob]; destruct (same_marks_alloc s1 s' Sb) as (S1 & S2 & _).
    constructor; auto.
    + intros j Hj; rewrite S1; apply Fre, Hj.
    + intros a Ia N; rewrite Ob by exact Ia; apply Po; assumption.
    + intros j Hj; rewrite Mk, Mk1 by exact Hj; reflexivity.
    + exists c, (freeIndexForScan s), (gcmarkBits s'); exact Sb.
  - exists m1, (set_freeIndexForScan (freeindex s1) s1); split; [reflexivity|]; split; [|reflexivity]; constructor; auto.
    + apply (proj2 (span_ok_gen m1 s1 0 (freeindex s1) Ok1)).
    + intros j Hj; rewrite orb_false_r; exact (Mk1 j Hj).
    + exists c, (freeindex s1), (gcmarkBits s); reflexivity.
Qed.

Lemma allocate_ok phase wb nz m s : span_ok m s -> cache_ok s -> div_ok s -> (wb = true -> phase <> GCmarktermination) ->
  (mallocgcSmallNoscan phase wb nz m s = Ret None /\ allocCount s = nelems s) \/
  exists i m' s', mallocgcSmallNoscan phase wb nz m s = Ret (Some (slot s i, m', s')) /\ allocated wb m s i m' s' /\
    forall a, in_objects s a -> m' a = if (slot_at s a =? i) && nz && negb (needzero s =? 0) then 0 else m a.
Proof.
  intros Ok C Dv Ph; destruct (find_slot_ok m s Ok C) as [[E A]|(i & c & E & F & Hi & C')].
  { left; split; [|exact A]; unfold mallocgcSmallNoscan; unfold find_slot in E; destruct (nextFreeFast s) as [v s1]; rewrite E; reflexivity. }
  right; pose proof (so_wf _ _ Ok) as W; assert (Ri : 0 <= i < nelems s) by (pose proof (bw_free _ (wf_bits _ W)); destruct F; lia).
  set (b := nz && negb (needzero s =? 0)); destruct (clear_fresh m s i b Ok Ri) as (Ok1 & Cl & Mb).
  destruct (publish_ok phase wb (slot s i) (slot s i) m s i c (if b then memclrNoHeapPointers (slot s i) (elemsize s) m else m))
    as (m' & s' & Ep & Al & Ob); auto; [|apply div_slot; auto; apply (wf_elem _ W)|].
  { constructor; [apply (so_bytes _ _ Ok1)|exact Mb|]; intros a Ia N; rewrite Cl, (proj2 (Z.eqb_neq _ _) N) by exact Ia; reflexivity. }
  exists i, m', s'; split; [|split; [exact Al|]].
  - rewrite <- Ep; unfold mallocgcSmallNoscan; unfold find_slot in E; destruct (nextFreeFast s) as [v s0]; rewrite E; reflexivity.
  - intros a Ia; rewrite Ob, Cl by exact Ia; rewrite <- andb_assoc; reflexivity.
Qed.

(** ** Fresh spans *)

(** What a size class must satisfy for its spans to be in order. *)
Definition class_ok (ns : bool) (k : nat) : bool :=
  let size := nth k SizeClassToSize 0 in
  let np := nth k SizeClassToNPages 0 in
  let inline := gcUsesSpanInlineMarkBits size in
  let bitmap := heapBitsInSpan size && negb ns in
  let reserve := (if inline then sizeof_spanInlineMarkBits else 0) + (if bitmap then np * pageSize / PtrSize / 8 else 0) in
  let n := u16 ((np * pageSize - reserve) / size) in
  (0 <? n) && (n <=? MaxObjsPerSpan) && (0 <? size) && (size mod 4 =? 0) && (n * size <=? np * pageSize - reserve) && (0 <? np) && (np <=? 10) &&
  (negb (heapBitsInSpan size) || ((np =? 1) && (size mod 8 =? 0))) &&
  (let magic := nth k SizeClassToDivMagic 0 in (W32 <=? size * magic) && ((size * magic - W32) * n <? magic)).

Lemma classes_ok ns : forallb (class_ok ns) (seq 1 67) = true.
Proof. destruct ns; vm_compute; reflexivity. Qed.

Lemma imb_init_bytes imb class b m : is_byte class -> (forall a, is_byte (m a)) -> forall a, is_byte (imb_init imb class b m a).
Proof.
  intros Hc Hm a; unfold imb_init, store_bytes; cbn [length]; destruct ((imb + imb_class <=? a) && _) eqn:E.
  - apply andb_true_iff in E as [E1 E2]; apply Z.leb_le in E1; apply Z.ltb_lt in E2.
    replace (Z.to_nat (a - _)) with 0%nat by lia; exact Hc.
  - clear E; destruct b; [|apply Hm]; unfold memclrNoHeapPointers; destruct (_ && _); [unword; lia|apply Hm].
Qed.

Lemma class_byte ns k : (1 <= k <= 67)%nat -> is_byte (makeSpanClass (Z.of_nat k) ns).
Proof.
  intros Hk; assert (A : forallb (fun k => let c := makeSpanClass (Z.of_nat k) ns in (0 <=? c) && (c <? 256)) (seq 1 67) = true) by (destruct ns; vm_compute; reflexivity).
  rewrite forallb_forall in A; specialize (A k (proj2 (in_seq 67 1 k) ltac:(lia))); apply andb_true_iff in A as [A B].
  apply Z.leb_le in A; apply Z.ltb_lt in B; unword; lia.
Qed.

(** The span that [grow] makes for a small class, with or without pointers. *)
Section Grow.
Context (base : Z) (k : nat) (ns dirty : bool) (g : Z) (m : memory).
Context (Hk : (1 <= k <= 67)%nat) (Hb : 0 <= base) (He : base + nth k SizeClassToNPages 0 * pageSize < 2 ^ 48).
Context (Hm : forall a, is_byte (m a)).
(** Pages that are not dirty hold zeros. *)
Context (Hz : dirty = false -> forall a, base <= a < base + nth k SizeClassToNPages 0 * pageSize -> m a = 0).

Let sc := makeSpanClass (Z.of_nat k) ns.
Let s := fst (grow base sc dirty g m).
Let m1 := snd (grow base sc dirty g m).

Lemma class_k : class_ok ns k = true.
Proof. pose proof (classes_ok ns) as H; rewrite forallb_forall in H; apply H, in_seq; lia. Qed.

Lemma sc_fields : sizeclass sc = Z.of_nat k /\ noscan sc = ns.
Proof.
  assert (A : forallb (fun k => (sizeclass (makeSpanClass (Z.of_nat k) ns) =? Z.of_nat k) && Bool.eqb (noscan (makeSpanClass (Z.of_nat k) ns)) ns) (seq 1 67) = true)
    by (destruct ns; vm_compute; reflexivity).
  rewrite forallb_forall in A; specialize (A k (proj2 (in_seq 67 1 k) ltac:(lia))); apply andb_true_iff in A as [A B].
  split; [apply Z.eqb_eq, A|apply eqb_prop, B].
Qed.

Let size := nth k SizeClassToSize 0.
Let np := nth k SizeClassToNPages 0.
Let inline := gcUsesSpanInlineMarkBits size.
Let bitmap := heapBitsInSpan size && negb ns.
Let reserve := (if inline then sizeof_spanInlineMarkBits else 0) + (if bitmap then np * pageSize / PtrSize / 8 else 0).
Let n := u16 ((np * pageSize - reserve) / size).

Lemma grow_span : s = MkSpan base np 0 0 n 0 (W64 - 1) (newMarkBits n) (newMarkBits n) None g (nth k SizeClassToDivMagic 0) 0 sc
  mSpanInUse (if dirty then 1 else 0) false size (base + size * n) [].
Proof.
  destruct sc_fields as [E1 E2]; unfold s, grow; cbn [fst]; unfold initSpan; fold sc.
  rewrite E1, E2, Nat2Z.id, (proj2 (Z.eqb_neq (Z.of_nat k) 0)) by lia; reflexivity.
Qed.

Lemma grow_bounds : 0 < n <= MaxObjsPerSpan /\ 0 < size /\ size mod 4 = 0 /\ n * size <= np * pageSize - reserve /\ 0 < np <= 10 /\
  (heapBitsInSpan size = true -> np = 1 /\ size mod 8 = 0) /\
  W32 <= size * nth k SizeClassToDivMagic 0 /\ (size * nth k SizeClassToDivMagic 0 - W32) * n < nth k SizeClassToDivMagic 0.
Proof.
  pose proof class_k as H; unfold class_ok in H; cbv zeta in H; fold size np in H; fold inline bitmap in H; fold reserve in H; fold n in H.
  repeat (apply andb_true_iff in H as [H ?]).
  rewrite Z.ltb_lt, Z.leb_le, Z.eqb_eq in *; repeat match goal with
    | K : (_ <? _) = true |- _ => apply Z.ltb_lt in K
    | K : (_ <=? _) = true |- _ => apply Z.leb_le in K
    | K : (_ =? _) = true |- _ => apply Z.eqb_eq in K
    end.
  split; [lia|split; [assumption|split; [assumption|split; [assumption|split; [lia|split; [|lia]]]]]].
  intros I; match goal with K : negb _ || _ = true |- _ => rewrite I in K; cbn [negb orb] in K; apply andb_true_iff in K as [K1 K2] end.
  apply Z.eqb_eq in K1, K2; auto.
Qed.

Lemma inline_bitmap : inline = true -> heapBitsInSpan size = true.
Proof. unfold inline, gcUsesSpanInlineMarkBits; intros H; apply andb_true_iff in H as [H _]; exact H. Qed.

Lemma reserve_bounds : 0 <= reserve /\ (inline = true -> sizeof_spanInlineMarkBits <= reserve).
Proof.
  destruct grow_bounds as (_ & _ & _ & _ & B5 & _); unfold reserve, sizeof_spanInlineMarkBits, pageSize, PtrSize.
  pose proof (Z.div_pos (np * 8192 / 8) 8 ltac:(apply Z.div_pos; lia) ltac:(lia)); destruct inline, bitmap; split; intros; try lia.
Qed.

(** The pointer bitmap, from the end of the objects on. *)
Let bits_at := fst (spanHeapBitsRange base (np * pageSize) size).
Let bits_len := np * pageSize / PtrSize / 8.
Let bits_mem :=
  if negb ns && (Z.of_nat k =? 1) then store_bytes bits_at (repeat 255 (Z.to_nat bits_len)) m
  else if bitmap then memclrNoHeapPointers bits_at bits_len m else m.

Lemma bits_mem_ok : (forall a, is_byte (bits_mem a)) /\
  (forall a, ~ (bitmap = true /\ bits_at <= a < bits_at + bits_len) -> bits_mem a = m a).
Proof.
  assert (K1 : negb ns && (Z.of_nat k =? 1) = true -> bitmap = true).
  { intros E; apply andb_true_iff in E as [E1 E2]; apply Z.eqb_eq in E2; unfold bitmap, size; replace k with 1%nat by lia; rewrite E1; reflexivity. }
  assert (L0 : 0 <= bits_len) by (destruct grow_bounds as (_ & _ & _ & _ & B5 & _); unfold bits_len, pageSize, PtrSize; apply Z.div_pos; [apply Z.div_pos|]; lia).
  assert (In : forall a, (bits_at <=? a) && (a <? bits_at + bits_len) = true <-> bits_at <= a < bits_at + bits_len)
    by (intros a; rewrite andb_true_iff, Z.leb_le, Z.ltb_lt; reflexivity).
  assert (Nth : forall l i, Forall is_byte l -> is_byte (nth i l 0)) by (intros l i Hl; apply bytes_nth, Hl).
  unfold bits_mem; split; intros a; [|intros Ha]; (destruct (negb ns && _) eqn:E1; [|destruct bitmap eqn:E2; [|auto]]).
  - unfold store_bytes; rewrite repeat_length; destruct ((bits_at <=? a) && _); [|apply Hm].
    apply Nth, Forall_forall; intros x Hx; apply repeat_spec in Hx; subst; unword; lia.
  - unfold memclrNoHeapPointers; destruct ((bits_at <=? a) && _); [unword; lia|apply Hm].
  - unfold store_bytes; rewrite repeat_length, Z2Nat.id by exact L0; destruct ((bits_at <=? a) && _) eqn:E; [|reflexivity].
    apply In in E; contradiction Ha; auto.
  - unfold memclrNoHeapPointers; destruct ((bits_at <=? a) && _) eqn:E; [|reflexivity]; apply In in E; contradiction Ha; auto.
Qed.

Lemma grow_mem : m1 = if inline then imb_init (base + pageSize - sizeof_spanInlineMarkBits) sc (negb ((if dirty then 1 else 0) =? 0)) bits_mem else bits_mem.
Proof.
  pose proof grow_span as E; unfold s, m1, grow in *; cbn [fst snd] in *; unfold initHeapBits; rewrite E.
  cbn [startAddr npages elemsize spanclass isUserArenaChunk needzero]; rewrite (proj2 sc_fields), (proj1 sc_fields), orb_false_r.
  unfold bits_mem, bits_at, bits_len, bitmap; rewrite (andb_comm (heapBitsInSpan size)); reflexivity.
Qed.

(** Where the bitmap lies. *)
Lemma bits_range : bitmap = true -> np = 1 /\ bits_len = 128 /\
  bits_at = base + pageSize - 128 - (if inline then sizeof_spanInlineMarkBits else 0) /\ base + n * size <= bits_at.
Proof.
  intros E; destruct grow_bounds as (_ & _ & _ & B4 & _ & B6 & _); apply andb_true_iff in E as E'; destruct (B6 (proj1 E')) as [Np _].
  unfold bits_len, bits_at, spanHeapBitsRange; fold inline; cbn [fst]; unfold reserve in B4; rewrite E, Np in *; unfold pageSize, PtrSize in *.
  change (1 * 8192 / 8 / 8) with 128 in *; repeat split; lia.
Qed.

Lemma grow_wf : span_wf s.
Proof.
  destruct grow_bounds as (B1 & B2 & B3 & B4 & B5 & B6 & _), reserve_bounds as [R1 R2]; rewrite grow_span.
  assert (By : bytes (newMarkBits n)) by (unfold newMarkBits; apply Forall_forall; intros x Hx; apply repeat_spec in Hx; subst; unword; lia).
  constructor; cbn [startAddr npages nelems freeindex allocBits gcmarkBits elemsize]; auto.
  - constructor; cbn [nelems freeindex allocBits]; [exact B1|exact By|lia].
  - intros i _; split; apply bit_repeat_0.
  - unfold objects_end, span_end; cbn [startAddr npages nelems elemsize]; lia.
  - intros I; fold inline in I; specialize (R2 I); destruct (B6 (inline_bitmap I)) as [Np _]; split; [exact Np|].
    unfold objects_end, inlineMarkBits; cbn [startAddr nelems elemsize]; rewrite Np in *; lia.
Qed.

Lemma grow_free i : 0 <= i -> isFree s i = true.
Proof. intros Hi; rewrite isFree_spec, grow_span by exact Hi; cbn [freeindex allocBits]; rewrite (proj2 (Z.leb_le 0 i)) by exact Hi; unfold newMarkBits; rewrite bit_repeat_0; reflexivity. Qed.

Lemma grow_inline_clear i : inline = true -> 0 <= i -> inline_bit m1 s i = false.
Proof.
  intros I Hi; destruct grow_bounds as (B1 & B2 & B3 & B4 & B5 & B6 & _); destruct (B6 (inline_bitmap I)) as [Np _].
  unfold inline_bit; destruct (Z.ltb_spec i 504); [|reflexivity]; cbn [andb].
  pose proof (Z.div_pos i 8); assert (i / 8 < 63) by (apply Z.div_lt_upper_bound; lia).
  assert (E : m1 (inlineMarkBits s + imb_marks + i / 8) = 0); [|rewrite E; apply Z.bits_0].
  rewrite grow_mem, I, grow_span; unfold inlineMarkBits; cbn [startAddr]; destruct dirty eqn:D.
  - change (negb (1 =? 0)) with true; rewrite imb_init_mem; unfold imb_class, imb_marks, sizeof_spanInlineMarkBits.
    rewrite (proj2 (Z.eqb_neq _ _)), (proj2 (Z.leb_le _ _)), (proj2 (Z.ltb_lt _ _)) by lia; reflexivity.
  - change (negb (0 =? 0)) with false; unfold imb_init, store_bytes, imb_class, imb_marks, sizeof_spanInlineMarkBits, pageSize; cbn [length].
    rewrite (proj2 (Z.leb_gt _ _)) by lia; cbn [andb]; rewrite (proj2 bits_mem_ok).
    + apply Hz; [reflexivity|fold np; rewrite Np; unfold pageSize; lia].
    + intros [E R]; destruct (bits_range E) as (_ & L & A & _); rewrite L, A, I in R; unfold sizeof_spanInlineMarkBits, pageSize in R; lia.
Qed.

Lemma grow_bytes a : is_byte (m1 a).
Proof.
  rewrite grow_mem; pose proof (proj1 bits_mem_ok) as B; pose proof (class_byte ns k Hk) as C.
  generalize inline as b; intros []; [apply imb_init_bytes; [exact C|exact B]|apply B].
Qed.

Lemma grow_objects a : in_objects s a -> m1 a = m a.
Proof.
  intros Ia; rewrite grow_mem; pose proof (fun G => inline_after_objects s a grow_wf G Ia) as Lt.
  assert (Eb : bits_mem a = m a).
  { apply (proj2 bits_mem_ok); intros [E R]; destruct (bits_range E) as (_ & _ & _ & O).
    unfold in_objects, objects_end in Ia; rewrite grow_span in Ia; cbn [startAddr nelems elemsize] in Ia; lia. }
  rewrite grow_span in Lt; unfold inlineMarkBits in Lt; cbn [startAddr elemsize] in Lt; fold inline in Lt.
  destruct inline; [specialize (Lt eq_refl)|exact Eb].
  unfold imb_init, store_bytes, imb_class, memclrNoHeapPointers; rewrite (proj2 (Z.leb_gt (_ + 127) a)) by lia; cbn [andb].
  destruct (negb (_ =? 0)); [|exact Eb]; rewrite (proj2 (Z.leb_gt _ a)) by lia; exact Eb.
Qed.

Lemma grow_ok : span_ok m1 s.
Proof.
  destruct grow_bounds as (B1 & _); constructor; try apply grow_wf; try apply grow_bytes.
  - intros I; split; [intros i; rewrite grow_span; apply bit_repeat_0|].
    intros i Hi; rewrite grow_span in I, Hi; cbn [elemsize nelems] in I, Hi; apply grow_inline_clear; [exact I|lia].
  - rewrite grow_span; constructor.
  - rewrite grow_span; constructor.
  - unfold count_allocated; rewrite filter_ext_length with (q := fun _ => false) by (intros j _; rewrite grow_free by lia; reflexivity).
    rewrite grow_span; cbn [allocCount]; induction (seq _ _); [reflexivity|assumption].
  - rewrite grow_span; cbn [spanclass]; rewrite (proj1 sc_fields); lia.
Qed.

Lemma grow_unmarked i : 0 <= i < nelems s -> marked m1 s i = false.
Proof.
  intros Hi; pose proof (grow_inline_clear i) as G; pose proof (inline_nelems s grow_wf) as N5; unfold marked, mark_byte, inline_bit in *.
  rewrite grow_span in N5, Hi, G |- *; cbn [elemsize nelems] in *; fold inline in N5 |- *; destruct inline.
  - specialize (G eq_refl ltac:(lia)); rewrite (proj2 (Z.ltb_lt i 504)) in G by (specialize (N5 eq_refl); lia); exact G.
  - apply bit_repeat_0.
Qed.

Lemma grow_div : div_ok s.
Proof.
  intros i o Hi Ho; destruct grow_bounds as (B1 & B2 & _ & B4 & B5 & _ & B7 & B8), reserve_bounds as [R1 _]; unfold MaxObjsPerSpan in B1.
  unfold objIndex, divideByElemSize; rewrite slot_exact by (apply grow_wf || exact Hi); rewrite grow_span in Hi, Ho |- *; cbn [nelems startAddr elemsize divMul] in *.
  set (magic := nth k SizeClassToDivMagic 0) in *; replace (base + i * size + o - base) with (i * size + o) by lia.
  unfold pageSize in B4; assert (i * size + o < 81920) by nia.
  rewrite (u64_small (i * size + o)) by (unword; nia); set (e := size * magic - W32) in *.
  assert (0 <= e) by (unfold e; lia); assert (0 < magic) by (destruct (Z.lt_trichotomy magic 0) as [?|[?|?]]; unword; nia).
  assert (Hm' : 0 <= i * e + o * magic < W32).
  { split; [nia|]; assert ((i + 1) * e <= n * e) by nia; assert (o * magic <= size * magic - magic) by nia; unfold e in *; nia. }
  replace ((i * size + o) * magic) with (i * W32 + (i * e + o * magic)) by (unfold e; lia).
  rewrite u64_small by (unword; nia); rewrite Z.shiftr_div_pow2 by lia; change (2 ^ 32) with W32.
  rewrite Z.div_add_l by (unword; lia); rewrite Z.div_small by lia; lia.
Qed.

(** The bitmap of a pointerful span starts above its objects. *)
Lemma grow_bitmap : noscan (spanclass s) = false -> heapBitsInSpan (elemsize s) = true ->
  objects_end s <= fst (spanHeapBitsRange (startAddr s) pageSize (elemsize s)) /\ elemsize s mod 8 = 0.
Proof.
  rewrite grow_span; cbn [spanclass elemsize startAddr nelems]; rewrite (proj2 sc_fields); intros Ns Hb'.
  assert (E : bitmap = true) by (unfold bitmap; rewrite Hb', Ns; reflexivity); destruct (bits_range E) as (Np & _ & _ & O).
  destruct grow_bounds as (_ & _ & _ & _ & _ & B6 & _); split; [|exact (proj2 (B6 Hb'))].
  unfold objects_end; cbn [startAddr nelems elemsize]; unfold bits_at in O; rewrite Np, Z.mul_1_l in O; exact O.
Qed.
End Grow.
