(* ===== verification/HeapScan.v ===== *)
(** * Allocating objects with pointers, and tiny objects

    Over HeapAlloc.v: the paths of [runtime/malloc.go] for small objects with pointers,
    whose pointer bits are kept at the end of the span ([mallocgcSmallScanNoHeader], with
    [writeHeapBitsSmall] of [mbitmap.go]) or whose type stands before the object
    ([mallocgcSmallScanHeader]), and the tiny allocator.  The first clears only the bytes
    asked for, and only in a span that may be dirty.  A type is given by its size, the
    length of its prefix with pointers and the first word of its pointer mask. *)

From Stdlib Require Import String ZArith Lia List Bool.
From S2P Require Import Prelude Slices SysBits MSpan Sweep HeapAlloc.
Import ListNotations.
#[local] Open Scope outcome_scope.

(** ** Definitions *)

Definition ptrBits : Z := 8 * PtrSize.
Definition MallocHeaderSize : Z := 8.

Record gc_type : Type := MkType { Size_ : Z; PtrBytes : Z; GCMask : Z }.

(** [for i := typ.Size_; i < dataSize; i += typ.Size_]: the mask and the scan size. *)
Fixpoint repeat_mask (fuel : nat) (typ : gc_type) (dataSize i src scanSize : Z) : option (Z * Z) :=
  if i <? dataSize then
    match fuel with
    | O => None
    | S fuel =>
        repeat_mask fuel typ dataSize (u64 (i + Size_ typ)) (Z.lor src (u64 (Z.shiftl (GCMask typ) (i / PtrSize))))
          (u64 (scanSize + Size_ typ))
    end
  else Some (src, scanSize).

Definition writeHeapBitsSmall (s : mspan) (x dataSize : Z) (typ : gc_type) (m : memory) : option (Z * memory) :=
  let r :=
    if Size_ typ =? PtrSize then Some (u64 (u64 (Z.shiftl 1 (dataSize / PtrSize)) - 1), PtrBytes typ)
    else repeat_mask (Z.to_nat dataSize) typ dataSize (Size_ typ) (GCMask typ) (PtrBytes typ) in
  match r with
  | None => None
  | Some (src, scanSize) =>
      let dst := fst (spanHeapBitsRange (startAddr s) pageSize (elemsize s)) in
      let o := u64 (x - startAddr s) / PtrSize in
      let i := o / ptrBits in
      let j := o mod ptrBits in
      let bits := elemsize s / PtrSize in
      if ptrBits <? j + bits then
        let bits0 := ptrBits - j in
        let bits1 := bits - bits0 in
        let dst0 := dst + (i + 0) * PtrSize in
        let dst1 := dst + (i + 1) * PtrSize in
        let m := store64 dst0 (Z.lor (Z.land (load64 dst0 m) (Z.shiftr (W64 - 1) bits0)) (u64 (Z.shiftl src j))) m in
        let m := store64 dst1 (Z.lor (Z.ldiff (load64 dst1 m) (u64 (Z.shiftl 1 bits1) - 1)) (Z.shiftr src bits0)) m in
        Some (scanSize, m)
      else
        let dst := dst + i * PtrSize in
        Some (scanSize, store64 dst (Z.lor (Z.ldiff (load64 dst m) (u64 (Z.shiftl (u64 (u64 (Z.shiftl 1 bits) - 1)) j))) (u64 (Z.shiftl src j))) m)
  end.

Definition heapSetTypeNoHeader (x dataSize : Z) (typ : gc_type) (s : mspan) (m : memory) : option (Z * memory) :=
  writeHeapBitsSmall s x dataSize typ m.

(** [header] is the address of the slot, which holds the address of the type. *)
Definition heapSetTypeSmallHeader (header typ : Z) (m : memory) : outcome string memory :=
  if header =? 0 then Fail "runtime: pointer to heap type header nil?"%string else Ret (store64 header typ m).

(** The object, the memory and the span; [None] when the cached span is full. *)
Definition mallocgcSmallScanNoHeader (phase : gcphase_t) (writeBarrier : bool) (size : Z) (typ : gc_type) (m : memory) (s : mspan) :
    outcome string (option (Z * memory * mspan)) :=
  let '(v, s1) := nextFreeFast s in
  let* found := (if v =? 0 then nextFree s else Ret (Some (v, s1))) in
  match found with
  | None => Ret None
  | Some (x, s) =>
      let m := if negb (needzero s =? 0) then memclrNoHeapPointers x size m else m in
      let* m := (if sizeclass (spanclass s) =? 1 then Ret m
                 else match heapSetTypeNoHeader x size typ s m with Some (_, m) => Ret m | None => Panic end) in
      if writeBarrier
      then let* r := gcmarknewobject phase x m s in Ret (Some (x, fst r, snd r))
      else Ret (Some (x, m, set_freeIndexForScan (freeindex s) s))
  end.

(** [typ] is the address of the type; the size asked for is rounded up to the class's. *)
Definition mallocgcSmallScanHeader (phase : gcphase_t) (writeBarrier : bool) (typ : Z) (m : memory) (s : mspan) :
    outcome string (option (Z * memory * mspan)) :=
  let '(v, s1) := nextFreeFast s in
  let* found := (if v =? 0 then nextFree s else Ret (Some (v, s1))) in
  match found with
  | None => Ret None
  | Some (x, s) =>
      let m := if negb (needzero s =? 0) then memclrNoHeapPointers x (elemsize s) m else m in
      let header := x in
      let x := x + MallocHeaderSize in
      let* m := heapSetTypeSmallHeader header typ m in
      if writeBarrier
      then let* r := gcmarknewobject phase x m s in Ret (Some (x, fst r, snd r))
      else Ret (Some (x, m, set_freeIndexForScan (freeindex s) s))
  end.

(** The part of the cache for tiny objects. *)
Record tiny_cache : Type := MkTiny { tiny : Z; tinyoffset : Z }.
Definition maxTinySize : Z := 16.
Definition tinySpanClass : spanClass := makeSpanClass 2 true.

Definition alignUp (n a : Z) : Z := Z.ldiff (u64 (n + a - 1)) (a - 1).

Definition tiny_align (size off : Z) : Z :=
  if Z.land size 7 =? 0 then alignUp off 8
  else if Z.land size 3 =? 0 then alignUp off 4
  else if Z.land size 1 =? 0 then alignUp off 2
  else off.

(** The object, the size of the new block if one was taken, and the cache, the memory and
    the span. *)
Definition mallocgcTiny (phase : gcphase_t) (writeBarrier : bool) (size : Z) (c : tiny_cache) (m : memory) (s : mspan) :
    outcome string (option (Z * Z * tiny_cache * memory * mspan)) :=
  let off := tiny_align size (tinyoffset c) in
  if (u64 (off + size) <=? maxTinySize) && negb (tiny c =? 0) then
    Ret (Some (u64 (tiny c + off), 0, MkTiny (tiny c) (u64 (off + size)), m, s))
  else
    let '(v, s1) := nextFreeFast s in
    let* found := (if v =? 0 then nextFree s else Ret (Some (v, s1))) in
    match found with
    | None => Ret None
    | Some (x, s) =>
        let m := store64 x 0 m in
        let m := store64 (x + 8) 0 m in
        let c := if (size <? tinyoffset c) || (tiny c =? 0) then MkTiny x size else c in
        let* r := (if writeBarrier then gcmarknewobject phase x m s else Ret (m, set_freeIndexForScan (freeindex s) s)) in
        Ret (Some (x, elemsize s, c, fst r, snd r))
    end.

(** ** Lemmas *)

Lemma store64_out p v m a : ~ (p <= a < p + 8) -> store64 p v m a = m a.
Proof.
  intros H; unfold store64, store_bytes; rewrite length_le_bytes; destruct (_ && _) eqn:E; [|reflexivity].
  apply andb_true_iff in E as [E1 E2]; apply Z.leb_le in E1; apply Z.ltb_lt in E2; contradiction H; lia.
Qed.

Lemma store64_in p v m a : p <= a < p + 8 -> store64 p v m a = nth (Z.to_nat (a - p)) (le_bytes 8 v) 0.
Proof.
  intros H; unfold store64, store_bytes; rewrite length_le_bytes, (proj2 (Z.leb_le _ _)), (proj2 (Z.ltb_lt _ _)) by lia; reflexivity.
Qed.

Lemma store64_byte p v m : (forall a, is_byte (m a)) -> forall a, is_byte (store64 p v m a).
Proof.
  intros H a; unfold store64, store_bytes; destruct (_ && _); [|apply H]; apply bytes_nth, bytes_le_bytes.
Qed.

Lemma store64_zero p m a : p <= a < p + 8 -> store64 p 0 m a = 0.
Proof.
  intros H; rewrite store64_in by exact H; change (le_bytes 8 0) with (repeat 0 8); apply nth_repeat.
Qed.

Lemma memclr_in x n m a : x <= a < x + n -> memclrNoHeapPointers x n m a = 0.
Proof. intros H; unfold memclrNoHeapPointers; rewrite (proj2 (Z.leb_le _ _)), (proj2 (Z.ltb_lt _ _)) by lia; reflexivity. Qed.

Lemma memclr_out x n m a : ~ (x <= a < x + n) -> memclrNoHeapPointers x n m a = m a.
Proof.
  intros H; unfold memclrNoHeapPointers; destruct (_ && _) eqn:E; [|reflexivity].
  apply andb_true_iff in E as [E1 E2]; apply Z.leb_le in E1; apply Z.ltb_lt in E2; contradiction H; lia.
Qed.

Lemma memclr_byte x n m : (forall a, is_byte (m a)) -> forall a, is_byte (memclrNoHeapPointers x n m a).
Proof. intros H a; unfold memclrNoHeapPointers; destruct (_ && _); [unword; lia|apply H]. Qed.

(** *** The bitmap at the end of a span *)

(** The bitmap of a span with pointers starts above its objects. *)
Definition bitmap_ok (s : mspan) : Prop :=
  noscan (spanclass s) = false -> heapBitsInSpan (elemsize s) = true ->
  objects_end s <= fst (spanHeapBitsRange (startAddr s) pageSize (elemsize s)) /\ elemsize s mod 8 = 0.

Definition in_bitmap (s : mspan) (a : Z) : Prop :=
  let p := fst (spanHeapBitsRange (startAddr s) pageSize (elemsize s)) in p <= a < p + 128.

Lemma bitmap_not_marks s a : in_bitmap s a -> ~ mark_bytes_of s a.
Proof.
  unfold in_bitmap, spanHeapBitsRange, mark_bytes_of, inlineMarkBits, imb_marks, pageSize, PtrSize, sizeof_spanInlineMarkBits; cbn [fst].
  change (8192 / 8 / 8) with 128; intros H [G M]; rewrite G in H; lia.
Qed.

Lemma repeat_mask_ok fuel typ dataSize i src scan :
  0 < Size_ typ <= dataSize -> dataSize <= 512 -> 0 <= i -> dataSize - i <= Z.of_nat fuel ->
  exists r, repeat_mask fuel typ dataSize i src scan = Some r.
Proof.
  intros Hs Hd; revert i src scan; induction fuel as [|fuel IH]; intros i src scan Hi Hf; cbn [repeat_mask];
    destruct (Z.ltb_spec i dataSize); try (eexists; reflexivity); [lia|].
  rewrite u64_small by (unword; lia); apply IH; lia.
Qed.

(** Writing the bits of an object changes the bitmap only. *)
Lemma writeHeapBitsSmall_ok m s i dataSize typ : span_ok m s -> bitmap_ok s -> 0 <= i < nelems s ->
  noscan (spanclass s) = false -> heapBitsInSpan (elemsize s) = true -> 0 < Size_ typ <= dataSize -> dataSize <= elemsize s ->
  exists scan m', writeHeapBitsSmall s (slot s i) dataSize typ m = Some (scan, m') /\ (forall a, is_byte (m' a)) /\
    forall a, ~ in_bitmap s a -> m' a = m a.
Proof.
  intros Ok Bm Hi Ns Hb Ht Hd; pose proof (so_wf _ _ Ok) as W; destruct (Bm Ns Hb) as [Fit E8].
  pose proof (so_bytes _ _ Ok) as By; pose proof (wf_elem _ W) as He; apply Z.leb_le in Hb; unfold MinSizeForMallocHeader, PtrSize in Hb.
  unfold writeHeapBitsSmall.
  assert (R : exists src scan, (if Size_ typ =? PtrSize then Some (u64 (u64 (Z.shiftl 1 (dataSize / PtrSize)) - 1), PtrBytes typ)
    else repeat_mask (Z.to_nat dataSize) typ dataSize (Size_ typ) (GCMask typ) (PtrBytes typ)) = Some (src, scan)).
  { destruct (_ =? _); [do 2 eexists; reflexivity|].
    destruct (repeat_mask_ok (Z.to_nat dataSize) typ dataSize (Size_ typ) (GCMask typ) (PtrBytes typ)) as [[src scan] ->]; try lia; eauto. }
  destruct R as (src & scan & ->); unfold in_bitmap.
  set (p := fst (spanHeapBitsRange (startAddr s) pageSize (elemsize s))) in *.
  assert (Hp : p <= startAddr s + 8064).
  { unfold p, spanHeapBitsRange, pageSize, PtrSize, sizeof_spanInlineMarkBits; cbn [fst]; change (8192 / 8 / 8) with 128.
    destruct (gcUsesSpanInlineMarkBits _); lia. }
  rewrite slot_exact by assumption; replace (startAddr s + i * elemsize s - startAddr s) with (i * elemsize s) by lia.
  unfold objects_end in Fit; assert (B : 0 <= i * elemsize s /\ i * elemsize s + elemsize s <= 8064) by nia.
  rewrite u64_small by (unword; lia); unfold ptrBits, PtrSize; change (8 * 8) with 64.
  set (o := i * elemsize s / 8); set (b := elemsize s / 8).
  assert (Eo : elemsize s = 8 * b) by (unfold b; pose proof (Z.div_mod (elemsize s) 8); lia).
  assert (Ho : o = i * b) by (unfold o; rewrite Eo; replace (i * (8 * b)) with (i * b * 8) by lia; apply Z.div_mul; lia).
  pose proof (Z.div_mod o 64 ltac:(lia)); pose proof (Z.mod_pos_bound o 64 ltac:(lia)).
  assert (Hob : 0 <= o /\ o + b <= 1008) by (rewrite Ho; nia); pose proof (Z.div_pos o 64).
  destruct (Z.ltb_spec 64 (o mod 64 + b)); eexists _, _; (split; [reflexivity|]);
    (split; [repeat apply store64_byte; exact By|intros a Ha; rewrite !store64_out by lia; reflexivity]).
Qed.

(** *** Preparing a slot *)

(** Memory changed in slot [i] and in the bitmap only. *)
Lemma prepared_intro m s i m1 : span_ok m s -> bitmap_ok s -> 0 <= i < nelems s -> (forall a, is_byte (m1 a)) ->
  (forall a, ~ (slot s i <= a < slot s i + elemsize s) ->
     ~ (noscan (spanclass s) = false /\ heapBitsInSpan (elemsize s) = true /\ in_bitmap s a) -> m1 a = m a) ->
  prepared m s i m1 /\ forall a m2, in_objects s a -> (forall a, ~ in_bitmap s a -> m2 a = m1 a) ->
    noscan (spanclass s) = false -> heapBitsInSpan (elemsize s) = true -> m2 a = m1 a.
Proof.
  intros Ok Bm Hi Pb Out; pose proof (so_wf _ _ Ok) as W.
  assert (Ob : forall a, in_objects s a -> noscan (spanclass s) = false -> heapBitsInSpan (elemsize s) = true -> ~ in_bitmap s a)
    by (intros a Ia Ns Hb In_; destruct (Bm Ns Hb) as [Fit _]; unfold in_objects, in_bitmap in *; lia).
  split; [constructor; [exact Pb| |]|intros a m2 Ia Eq Ns Hb; apply Eq, Ob; assumption].
  - intros a Ma; apply Out; [|intros (_ & _ & In_); exact (bitmap_not_marks s a In_ Ma)].
    rewrite slot_exact by assumption; intros S; apply (objects_not_marks s a W); [|exact Ma].
    apply (slot_in_objects s a i (wf_elem _ W) Hi); lia.
  - intros a Ia N; apply Out; [|intros (Ns & Hb & In_); exact (Ob a Ia Ns Hb In_)].
    intros S; apply N; pose proof (slot_bytes s i a W Hi Ia) as Sb; apply Z.eqb_eq; rewrite <- Sb.
    apply andb_true_iff; rewrite Z.leb_le, Z.ltb_lt; exact S.
Qed.

(** ** What the paths do *)

Lemma scan_noheader_ok phase wb size typ m s : span_ok m s -> cache_ok s -> div_ok s -> bitmap_ok s ->
  (wb = true -> phase <> GCmarktermination) -> noscan (spanclass s) = false -> heapBitsInSpan (elemsize s) = true ->
  0 < Size_ typ <= size -> size <= elemsize s ->
  (mallocgcSmallScanNoHeader phase wb size typ m s = Ret None /\ allocCount s = nelems s) \/
  exists i m' s', mallocgcSmallScanNoHeader phase wb size typ m s = Ret (Some (slot s i, m', s')) /\ allocated wb m s i m' s' /\
    forall a, in_objects s a -> m' a = if (slot s i <=? a) && (a <? slot s i + size) && negb (needzero s =? 0) then 0 else m a.
Proof.
  intros Ok C Dv Bm Ph Ns Hb Ht Hsz; pose proof (so_wf _ _ Ok) as W.
  destruct (find_slot_ok m s Ok C) as [[E A]|(i & c & E & F & Hi & C')].
  { left; split; [|exact A]; unfold mallocgcSmallScanNoHeader; unfold find_slot in E; destruct (nextFreeFast s) as [v s1]; rewrite E; reflexivity. }
  right; assert (Ri : 0 <= i < nelems s) by (pose proof (bw_free _ (wf_bits _ W)); destruct F; lia).
  set (m0 := if negb (needzero s =? 0) then memclrNoHeapPointers (slot s i) size m else m).
  assert (B0 : forall a, is_byte (m0 a)) by (unfold m0; destruct (negb _); [apply memclr_byte|]; apply (so_bytes _ _ Ok)).
  assert (O0 : forall a, ~ (slot s i <= a < slot s i + elemsize s) -> m0 a = m a)
    by (intros a Ha; unfold m0; destruct (negb _); [apply memclr_out; lia|reflexivity]).
  assert (Ok0 : span_ok m0 s).
  { destruct (prepared_intro m s i m0 Ok Bm Ri B0) as [[_ Pm _] _]; [intros a Ha _; apply O0, Ha|apply (span_ok_mem m); assumption]. }
  assert (P : exists m1, (if sizeclass (spanclass s) =? 1 then Ret m0
      else match heapSetTypeNoHeader (slot s i) size typ s m0 with Some (_, m) => Ret m | None => Panic end) = @Ret string _ m1 /\
    (forall a, is_byte (m1 a)) /\ forall a, ~ in_bitmap s a -> m1 a = m0 a).
  { destruct (_ =? 1); [exists m0; auto|].
    destruct (writeHeapBitsSmall_ok m0 s i size typ Ok0 Bm Ri Ns Hb Ht Hsz) as (scan & m1 & Ew & P1 & P2).
    exists m1; unfold heapSetTypeNoHeader; rewrite Ew; auto. }
  destruct P as (m1 & E1 & B1 & O1); destruct (prepared_intro m s i m1 Ok Bm Ri B1) as [Pr _].
  { intros a Ha Hn; rewrite O1 by tauto; apply O0, Ha. }
  destruct (prepared_intro m0 s i m0 Ok0 Bm Ri B0 ltac:(reflexivity)) as [_ Same].
  destruct (publish_ok phase wb (slot s i) (slot s i) m s i c m1 Ok F Hi C' Pr ltac:(apply div_slot; auto; apply (wf_elem _ W)) Ph)
    as (m' & s' & Ep & Al & Ob).
  exists i, m', s'; split; [|split; [exact Al|]].
  - rewrite <- Ep; unfold mallocgcSmallScanNoHeader, find_slot in *; destruct (nextFreeFast s) as [v s0]; rewrite E; cbn [bind].
    change (needzero (handed s i c)) with (needzero s); change (spanclass (handed s i c)) with (spanclass s); fold m0.
    change (heapSetTypeNoHeader (slot s i) size typ (handed s i c) m0) with (heapSetTypeNoHeader (slot s i) size typ s m0).
    rewrite E1; reflexivity.
  - intros a Ia; rewrite Ob, (Same a m1 Ia O1 Ns Hb) by exact Ia; unfold m0, memclrNoHeapPointers.
    destruct (negb _); [rewrite andb_true_r|rewrite andb_false_r]; reflexivity.
Qed.

Lemma scan_header_ok phase wb typ m s : span_ok m s -> cache_ok s -> div_ok s -> bitmap_ok s ->
  (wb = true -> phase <> GCmarktermination) -> heapBitsInSpan (elemsize s) = false -> 0 < startAddr s ->
  (mallocgcSmallScanHeader phase wb typ m s = Ret None /\ allocCount s = nelems s) \/
  exists i m' s', mallocgcSmallScanHeader phase wb typ m s = Ret (Some (slot s i + MallocHeaderSize, m', s')) /\ allocated wb m s i m' s' /\
    (forall a, slot s i <= a < slot s i + 8 -> m' a = nth (Z.to_nat (a - slot s i)) (le_bytes 8 typ) 0) /\
    forall a, slot s i + 8 <= a < slot s i + elemsize s -> m' a = if negb (needzero s =? 0) then 0 else m a.
Proof.
  intros Ok C Dv Bm Ph Hb St; pose proof (so_wf _ _ Ok) as W.
  destruct (find_slot_ok m s Ok C) as [[E A]|(i & c & E & F & Hi & C')].
  { left; split; [|exact A]; unfold mallocgcSmallScanHeader; unfold find_slot in E; destruct (nextFreeFast s) as [v s1]; rewrite E; reflexivity. }
  right; assert (Ri : 0 <= i < nelems s) by (pose proof (bw_free _ (wf_bits _ W)); destruct F; lia).
  assert (E8 : 8 < elemsize s) by (apply Z.leb_gt in Hb; unfold MinSizeForMallocHeader, PtrSize in Hb; lia).
  set (m0 := if negb (needzero s =? 0) then memclrNoHeapPointers (slot s i) (elemsize s) m else m).
  set (m1 := store64 (slot s i) typ m0).
  assert (B1 : forall a, is_byte (m1 a))
    by (apply store64_byte; unfold m0; destruct (negb _); [apply memclr_byte|]; apply (so_bytes _ _ Ok)).
  destruct (prepared_intro m s i m1 Ok Bm Ri B1) as [Pr _].
  { intros a Ha _; unfold m1; rewrite store64_out by lia; unfold m0; destruct (negb _); [apply memclr_out, Ha|reflexivity]. }
  destruct (publish_ok phase wb (slot s i + MallocHeaderSize) (slot s i + MallocHeaderSize) m s i c m1 Ok F Hi C' Pr) as (m' & s' & Ep & Al & Ob);
    [apply Dv; [exact Ri|unfold MallocHeaderSize; lia]|exact Ph|].
  assert (In_ : forall a, slot s i <= a < slot s i + elemsize s -> in_objects s a)
    by (intros a Ha; rewrite slot_exact in Ha by assumption; apply (slot_in_objects s a i (wf_elem _ W) Ri); lia).
  assert (Nz : slot s i <> 0) by (rewrite slot_exact by assumption; nia).
  exists i, m', s'; split; [|split; [exact Al|split]].
  - rewrite <- Ep; unfold mallocgcSmallScanHeader, find_slot in *; destruct (nextFreeFast s) as [v s0]; rewrite E; cbn [bind].
    change (needzero (handed s i c)) with (needzero s); change (elemsize (handed s i c)) with (elemsize s).
    unfold heapSetTypeSmallHeader; rewrite (proj2 (Z.eqb_neq _ _) Nz); reflexivity.
  - intros a Ha; rewrite Ob by (apply In_; lia); apply store64_in, Ha.
  - intros a Ha; rewrite Ob by (apply In_; lia); unfold m1; rewrite store64_out by lia; unfold m0; destruct (negb _); [apply memclr_in; lia|reflexivity].
Qed.

(** A tiny object inside the current block, a new block of zeros, or no slot. *)
Lemma tiny_ok phase wb size c m s : span_ok m s -> cache_ok s -> div_ok s -> bitmap_ok s ->
  (wb = true -> phase <> GCmarktermination) -> elemsize s = maxTinySize ->
  (exists x c', mallocgcTiny phase wb size c m s = Ret (Some (x, 0, c', m, s))) \/
  (mallocgcTiny phase wb size c m s = Ret None /\ allocCount s = nelems s) \/
  exists i c' m' s', mallocgcTiny phase wb size c m s = Ret (Some (slot s i, elemsize s', c', m', s')) /\ allocated wb m s i m' s' /\
    forall a, slot s i <= a < slot s i + maxTinySize -> m' a = 0.
Proof.
  intros Ok C Dv Bm Ph E16; pose proof (so_wf _ _ Ok) as W; unfold mallocgcTiny.
  destruct (_ && _); [left; eauto|right].
  destruct (find_slot_ok m s Ok C) as [[E A]|(i & k & E & F & Hi & C')].
  { left; split; [|exact A]; unfold find_slot in E; destruct (nextFreeFast s) as [v s1]; rewrite E; reflexivity. }
  right; assert (Ri : 0 <= i < nelems s) by (pose proof (bw_free _ (wf_bits _ W)); destruct F; lia); unfold maxTinySize in *.
  set (m1 := store64 (slot s i + 8) 0 (store64 (slot s i) 0 m)).
  assert (B1 : forall a, is_byte (m1 a)) by (do 2 apply store64_byte; apply (so_bytes _ _ Ok)).
  destruct (prepared_intro m s i m1 Ok Bm Ri B1) as [Pr _]; [intros a Ha _; unfold m1; rewrite !store64_out by lia; reflexivity|].
  destruct (publish_ok phase wb (slot s i) (slot s i) m s i k m1 Ok F Hi C' Pr ltac:(apply div_slot; auto; lia) Ph) as (m' & s' & Ep & Al & Ob).
  set (c' := if (size <? tinyoffset c) || (tiny c =? 0) then MkTiny (slot s i) size else c).
  assert (Es : elemsize s' = elemsize s) by (destruct (al_same _ _ _ _ _ _ Al) as (? & ? & ? & ->); reflexivity).
  exists i, c', m', s'; split; [|split; [exact Al|]].
  - unfold find_slot in E; destruct (nextFreeFast s) as [v s0]; rewrite E; cbn [bind]; fold m1 c'; rewrite Es.
    change (elemsize (handed s i k)) with (elemsize s); unfold publish in Ep; destruct wb.
    + destruct (gcmarknewobject phase (slot s i) m1 (handed s i k)) as [[mm ss]| |]; cbn [bind] in *; congruence.
    + cbn [bind fst snd]; congruence.
  - intros a Ha; rewrite Ob; [unfold m1|rewrite slot_exact in Ha by assumption; apply (slot_in_objects s a i (wf_elem _ W) Ri); lia].
    destruct (Z.lt_ge_cases a (slot s i + 8)); [rewrite store64_out by lia; apply store64_zero; lia|apply store64_zero; lia].
Qed.
