(* ===== verification/HeapLife.v ===== *)
(** * The life of a heap span

    The operations on one span between its creation and its return to the heap, as a machine:
    caching by [mcentral.cacheSpan] and [mcache.refill], every path of allocation, writes of the program,
    marking, special records, the start of a collection cycle, [uncacheSpan], [tryAcquire]
    and [sweep] ([runtime/mcentral.go], [mcache.go], [malloc.go], [mgcmark.go], [mheap.go],
    [mgc.go], [mgcsweep.go]), over MSpan.v, Sweep.v, HeapAlloc.v and HeapScan.v.  In every reachable state
    a slot that was handed out and is free again holds zeros. *)

From Stdlib Require Import String ZArith Lia List Bool Sorting.
From S2P Require Import Prelude Slices SysBits MSpan Sweep HeapClean HeapAlloc HeapScan.
Import ListNotations.
#[local] Open Scope outcome_scope.

(** ** Definitions *)

(** [mallocgcLarge]: a span of its own for one large object. *)
Definition chunkBytes : Z := 256 * 1024.

Fixpoint memclr_chunks (fuel : nat) (voff vsize : Z) (m : memory) : option memory :=
  if voff <? vsize then
    match fuel with
    | O => None
    | S fuel =>
        let n := vsize - voff in
        let n := if chunkBytes <? n then chunkBytes else n in
        memclr_chunks fuel (voff + chunkBytes) vsize (memclrNoHeapPointers voff n m)
    end
  else Some m.
Definition memclrNoHeapPointersChunked (size x : Z) (m : memory) : option memory :=
  memclr_chunks (Z.to_nat (size / chunkBytes + 1)) x (x + size) m.

Definition allocLarge (base size : Z) (noscan dirty : bool) (g : Z) (m : memory) : outcome string (mspan * memory) :=
  if u64 (size + pageSize) <? size then Fail "out of memory"%string
  else
    let npages := Z.shiftr size 13 in
    let npages := if negb (Z.land size (pageSize - 1) =? 0) then npages + 1 else npages in
    let s := initSpan base npages (makeSpanClass 0 noscan) dirty g in
    let s := set_limit (startAddr s + size) s in
    Ret (s, initHeapBits s m).

Definition mallocgcLarge (phase : gcphase_t) (writeBarrier needzero_ : bool) (base size : Z) (noscan dirty : bool) (g : Z) (m : memory) :
    outcome string (Z * memory * mspan) :=
  let* r := allocLarge base size noscan dirty g m in
  let '(s, m) := r in
  let s := set_allocCount 1 (set_alloc 1 (allocCache s) s) in
  let x := startAddr s in
  let* r := (if writeBarrier then gcmarknewobject phase x m s else Ret (m, set_freeIndexForScan (freeindex s) s)) in
  let '(m, s) := r in
  if needzero_ && negb (needzero s =? 0) then
    match memclrNoHeapPointersChunked (elemsize s) x m with Some m => Ret (x, m, s) | None => Panic end
  else Ret (x, m, s).

(** [sweepLocker.tryAcquire]. *)
Definition tryAcquire (sweepGen : Z) (s : mspan) : option mspan :=
  if sweepgen s =? u32 (sweepGen - 2) then Some (set_sweepgen (u32 (sweepGen - 1)) s) else None.

(** [gcSweep] starts a cycle. *)
Definition gcSweep (h : mheap) : mheap :=
  MkHeap (u32 (h_sweepgen h + 2)) 0 (pagesInUse h) (smallFreeCount h) (largeFreeCount h) (largeFree h) (totalFree h)
    (fullSwept h) (partialSwept h) (quarantineList h) (readyList h) (freePages h) (faulted h).

(** [mcentral.uncacheSpan]. *)
Definition uncacheSpan (dbg : debug_vars) (w : sweeping) (h : mheap) : outcome string (sweeping * mheap) :=
  let s := sw_span w in
  if allocCount s =? 0 then Fail "uncaching span but s.allocCount == 0"%string
  else
    let sg := h_sweepgen h in
    let stale := sweepgen s =? u32 (sg + 1) in
    let s := set_sweepgen (if stale then u32 (sg - 1) else sg) s in
    let w := MkSweeping (sw_mem w) s (sw_events w) in
    if stale then let* r := sweep dbg true false w h in Ret (after r, heap_after r)
    else if 0 <? nelems s - allocCount s then Ret (w, push_partial (spanclass s) (startAddr s) h)
    else Ret (w, push_full (spanclass s) (startAddr s) h).

(** The end of [cacheSpan] and of [mcache.refill]. *)
Definition cache_span (sg : Z) (s : mspan) : outcome string mspan :=
  let* s := havespan s in
  if allocCount s =? nelems s then Fail "span has no free space"%string
  else Ret (set_sweepgen (u32 (sg + 3)) s).

(** The branch of [cacheSpan] for a full span that was just swept: it is cached if the sweep
    freed a slot, and filed as full otherwise. *)
Definition probe (h : mheap) (s : mspan) : outcome string (mspan * mheap) :=
  let* r := nextFreeIndex s in
  let '(freeIndex, s) := r in
  if negb (freeIndex =? nelems s) then
    let* s := cache_span (h_sweepgen h) (set_alloc freeIndex (allocCache s) s) in Ret (s, h)
  else Ret (s, push_full (spanclass s) (startAddr s) h).

(** [greyobject] of [mgcmark.go], as far as the span goes. *)
Definition greyobject (m : memory) (s : mspan) (i : Z) : memory * mspan :=
  let mbits := markBitsForIndex s i in
  if isMarked m s mbits then (m, s) else setMarked m s mbits.

(** A span, its memory and the heap; and the slots handed out so far. *)
Record life : Type := MkLife { l_mem : memory; l_span : mspan; l_heap : mheap; l_used : list Z }.

Inductive heap_op : Type :=
| OCache
| OProbe
| OAlloc (phase : gcphase_t) (writeBarrier needzero_ : bool)
| OAllocScan (phase : gcphase_t) (writeBarrier : bool) (size : Z) (typ : gc_type)
| OAllocHeader (phase : gcphase_t) (writeBarrier : bool) (typ : Z)
| OAllocTiny (phase : gcphase_t) (writeBarrier : bool) (size : Z) (c : tiny_cache)
| OStore (a v : Z)
| OMark (i : Z)
| OAddSpecial (sp : special) (force : bool)
| ORemoveSpecial (offset kind : Z)
| OCycle
| OUncache
| OAcquire
| OSweep (preserve : bool).

Definition special_wfb (s : mspan) (sp : special) : bool :=
  (0 <=? sp_offset sp) && (sp_offset sp <? nelems s * elemsize s) &&
  match sp_kind sp with SpecialSecret n => (0 <=? n) && (sp_offset sp mod elemsize s + n <=? elemsize s) | _ => true end.

(** One operation where the runtime's protocol allows it.  The program writes into allocated
    slots only, and the collector marks and describes allocated slots only.  The size asked
    for fits the slot, and the slots of a span with pointers carry their type before them
    when they are too large for the bitmap. *)
Definition enabled (o : heap_op) (l : life) : bool :=
  let s := l_span l in
  let sg := h_sweepgen (l_heap l) in
  let cached := sweepgen s =? u32 (sg + 3) in
  let swept := (sweepgen s =? sg) || cached in
  let allocated i := (0 <=? i) && (i <? nelems s) && negb (isFree s i) in
  let allocating phase wb := cached && negb (wb && match phase with GCmarktermination => true | _ => false end) in
  match state s with mSpanInUse => true | _ => false end &&
  match o with
  | OCache => (sweepgen s =? sg) && negb (allocCount s =? nelems s)
  | OProbe => sweepgen s =? sg
  | OAlloc phase wb _ => allocating phase wb
  | OAllocScan phase wb size typ =>
      allocating phase wb && negb (noscan (spanclass s)) && heapBitsInSpan (elemsize s) &&
      (0 <? Size_ typ) && (Size_ typ <=? size) && (size <=? elemsize s)
  | OAllocHeader phase wb _ => allocating phase wb && negb (heapBitsInSpan (elemsize s)) && (0 <? startAddr s)
  | OAllocTiny phase wb _ _ => allocating phase wb && (elemsize s =? maxTinySize)
  | OStore a v => in_objectsb s a && allocated (slot_at s a) && (0 <=? v) && (v <? 256)
  | OMark i => swept && allocated i
  | OAddSpecial sp _ => swept && special_wfb s sp && allocated (special_slot s sp)
  | ORemoveSpecial _ _ => swept
  | OCycle => swept
  | OUncache => (cached || (sweepgen s =? u32 (sg + 1))) && negb (allocCount s =? 0)
  | OAcquire => sweepgen s =? u32 (sg - 2)
  | OSweep _ => being_swept s (l_heap l)
  end.

Definition perform (dbg : debug_vars) (o : heap_op) (l : life) : outcome string life :=
  let '(MkLife m s h used) := l in
  match o with
  | OCache => let* s := cache_span (h_sweepgen h) s in Ret (MkLife m s h used)
  | OProbe => let* r := probe h s in Ret (MkLife m (fst r) (snd r) used)
  | OAlloc phase wb nz =>
      let* r := mallocgcSmallNoscan phase wb nz m s in
      match r with
      | None => Ret l
      | Some (x, m, s') => Ret (MkLife m s' h (objIndex s x :: used))
      end
  | OAllocScan phase wb size typ =>
      let* r := mallocgcSmallScanNoHeader phase wb size typ m s in
      match r with
      | None => Ret l
      | Some (x, m, s') => Ret (MkLife m s' h (objIndex s x :: used))
      end
  | OAllocHeader phase wb typ =>
      let* r := mallocgcSmallScanHeader phase wb typ m s in
      match r with
      | None => Ret l
      | Some (x, m, s') => Ret (MkLife m s' h (objIndex s x :: used))
      end
  | OAllocTiny phase wb size c =>
      let* r := mallocgcTiny phase wb size c m s in
      match r with
      | None => Ret l
      | Some (x, block, _, m, s') => Ret (MkLife m s' h (if block =? 0 then used else objIndex s x :: used))
      end
  | OStore a v => Ret (MkLife (store_bytes a [v] m) s h used)
  | OMark i => let '(m, s) := greyobject m s i in Ret (MkLife m s h used)
  | OAddSpecial sp force => Ret (MkLife m (set_specials (fst (addspecial sp force (specials s))) s) h used)
  | ORemoveSpecial offset kind => Ret (MkLife m (set_specials (fst (removespecial offset kind (specials s))) s) h used)
  | OCycle => Ret (MkLife m s (gcSweep h) used)
  | OUncache =>
      let* r := uncacheSpan dbg (MkSweeping m s []) h in
      Ret (MkLife (sw_mem (fst r)) (sw_span (fst r)) (snd r) used)
  | OAcquire => match tryAcquire (h_sweepgen h) s with Some s => Ret (MkLife m s h used) | None => Ret l end
  | OSweep preserve =>
      let* r := sweep dbg true preserve (MkSweeping m s []) h in
      Ret (MkLife (sw_mem (after r)) (sw_span (after r)) (heap_after r) used)
  end.

Inductive reached (dbg : debug_vars) (l0 : life) : life -> Prop :=
| reached_init : reached dbg l0 l0
| reached_step l o l' : reached dbg l0 l -> enabled o l = true -> perform dbg o l = Ret l' -> reached dbg l0 l'.

Fixpoint run (dbg : debug_vars) (os : list heap_op) (l : life) : outcome string life :=
  match os with
  | [] => Ret l
  | o :: os => if enabled o l then let* l := perform dbg o l in run dbg os l else Panic
  end.

(** ** The invariant *)

Record life_ok (m0 : memory) (used : list Z) (m : memory) (s : mspan) : Prop := {
  lo_span : span_ok m s;
  lo_arena : isUserArenaChunk s = false;
  lo_class : is_byte (spanclass s);
  lo_div : div_ok s;
  lo_cache : cache_ok s;
  lo_marks : forall i, 0 <= i < nelems s -> marked m s i = true -> isFree s i = false;
  lo_used : forall i, 0 <= i < nelems s -> isFree s i = false -> existsb (Z.eqb i) used = true;
  lo_clean : forall a, in_objects s a -> isFree s (slot_at s a) = true ->
    m a = if existsb (Z.eqb (slot_at s a)) used then 0 else m0 a;
  lo_zero : needzero s = 0 -> forall a, in_objects s a -> isFree s (slot_at s a) = true -> m a = 0;
  lo_bitmap : bitmap_ok s;
}.

(** The same slots at the same place. *)
Definition same_place (s s' : mspan) : Prop :=
  startAddr s' = startAddr s /\ nelems s' = nelems s /\ elemsize s' = elemsize s /\ divMul s' = divMul s /\
  isUserArenaChunk s' = isUserArenaChunk s /\ spanclass s' = spanclass s.

Lemma same_slots s s' : same_place s s' ->
  (forall a, in_objects s' a <-> in_objects s a) /\ (forall a, slot_at s' a = slot_at s a) /\ (div_ok s -> div_ok s').
Proof.
  intros (E1 & E2 & E3 & E4 & _); unfold in_objects, objects_end, slot_at, div_ok, objIndex, divideByElemSize, slot.
  rewrite E1, E2, E3, E4; split; [reflexivity|split; [reflexivity|auto]].
Qed.

Lemma same_bitmap s s' : same_place s s' -> bitmap_ok s -> bitmap_ok s'.
Proof. intros (E1 & E2 & E3 & _ & _ & E6); unfold bitmap_ok, objects_end; rewrite E1, E2, E3, E6; auto. Qed.

(** An operation that leaves the free slots free and their memory alone. *)
Lemma life_same m0 used m s m' s' : life_ok m0 used m s -> same_place s s' -> needzero s' = needzero s -> span_ok m' s' -> cache_ok s' ->
  (forall i, 0 <= i -> isFree s' i = isFree s i) ->
  (forall i, 0 <= i < nelems s -> marked m' s' i = true -> marked m s i = true \/ isFree s i = false) ->
  (forall a, in_objects s a -> isFree s (slot_at s a) = true -> m' a = m a) -> life_ok m0 used m' s'.
Proof.
  intros [Ok A Cl Dv Ca Mk Us Cn Zr Bm] P Nz Ok' Ca' Fr Mk' Me; pose proof (same_bitmap s s' P Bm) as Bm'.
  destruct (same_slots s s' P) as (P1 & P2 & P3).
  destruct P as (_ & E2 & _ & _ & E5 & E6).
  assert (R : forall a, in_objects s a -> 0 <= slot_at s a) by (intros a Ia; apply (slot_at_range s a (wf_elem _ (so_wf _ _ Ok)) Ia)).
  constructor; rewrite ?E2, ?E5, ?E6; auto.
  - intros i Hi M; rewrite Fr by lia; destruct (Mk' i Hi M); auto.
  - intros i Hi F; rewrite Fr in F by lia; auto.
  - intros a Ia F; apply P1 in Ia; rewrite P2 in *; rewrite Fr in F by auto; rewrite Me by assumption; apply Cn; assumption.
  - rewrite Nz; intros N a Ia F; apply P1 in Ia; rewrite P2 in *; rewrite Fr in F by auto; rewrite Me by assumption; apply Zr; assumption.
Qed.

(** *** Caching *)

(** The span prepared for allocation at [f]: the cache holds the bits from [f] on. *)
Lemma refill_shift s f c : bytes (allocBits s) -> 0 <= f ->
  exists c', set_alloc f (Z.shiftr (allocCache (refillAllocCache (Z.ldiff f (64 - 1) / 8) s)) (f mod 64)) s = set_alloc f c' s /\
    cache_at (set_alloc c c' s) f.
Proof.
  intros B Hf; eexists; split; [reflexivity|]; rewrite word_start by exact Hf.
  pose proof (Z.mod_pos_bound f 64 ltac:(lia)) as M; pose proof (Z.div_mod f 64 ltac:(lia)) as D.
  assert (F0 : (f - f mod 64) mod 64 = 0) by (replace (f - f mod 64) with (f / 64 * 64) by lia; apply Z.mod_mul; lia).
  pose proof (refill_cache_at s (f - f mod 64) B ltac:(lia) F0) as C.
  destruct (Z.eq_dec (f mod 64) 0) as [Z0|Z0].
  - rewrite Z0, Z.shiftr_0_r in *; rewrite Z.sub_0_r in *; exact C.
  - pose proof (shift_cache _ (f - f mod 64) (f mod 64 - 1) c ltac:(lia) C ltac:(lia)) as S.
    replace (f - f mod 64 + (f mod 64 - 1 + 1)) with f in S by lia; replace (f mod 64 - 1 + 1) with (f mod 64) in S by lia.
    specialize (S Z0 ltac:(rewrite F0; lia)); exact S.
Qed.

Lemma havespan_ok s : bits_wf s -> freeindex s < nelems s -> allocCount s <> nelems s ->
  exists c, havespan s = Ret (set_alloc (freeindex s) c s) /\ cache_ok (set_alloc (freeindex s) c s).
Proof.
  intros [Ne B Fr] Lt Ac; unfold havespan; rewrite !(proj2 (Z.eqb_neq _ _)) by lia; cbn [orb].
  destruct (refill_shift s (freeindex s) (freeindex s) B ltac:(lia)) as (c & E & C).
  exists c; split; [|intros _; exact C]; f_equal; exact E.
Qed.

(** Moving the search on over allocated slots changes nothing. *)
Lemma span_ok_alloc m s f c : span_ok m s -> 0 <= f <= nelems s -> (forall j, 0 <= j -> isFree (set_alloc f c s) j = isFree s j) ->
  span_ok m (set_alloc f c s).
Proof.
  intros [[w1 w2 [n1 n2 n3] w4 w5 w6 w7 w8 w9 w10 w11] B I So F C L] Hf Fr; constructor; auto.
  - constructor; auto; constructor; auto.
  - revert F; apply Forall_impl; intros sp [H1 H2]; split; [exact H1|].
    change (special_slot (set_alloc f c s) sp) with (special_slot s sp).
    rewrite Fr; [exact H2|]; unfold special_slot; apply Z.div_pos; [apply H1|exact w8].
  - cbn [set_alloc allocCount]; rewrite C; unfold count_allocated; change (nelems (set_alloc f c s)) with (nelems s); f_equal.
    apply filter_ext_length; intros j _; rewrite Fr by lia; reflexivity.
Qed.

Lemma free_moved s f c j : first_free s (freeindex s) f -> 0 <= freeindex s -> 0 <= j -> isFree (set_alloc f c s) j = isFree s j.
Proof.
  intros (F1 & F2 & _) Hf Hj; rewrite !isFree_spec by exact Hj; cbn [set_alloc freeindex allocBits].
  destruct (Z.leb_spec f j), (Z.leb_spec (freeindex s) j); cbn [andb]; try lia; try reflexivity.
  rewrite F2 by lia; reflexivity.
Qed.

Lemma full_freeindex m s : span_ok m s -> allocCount s <> nelems s -> freeindex s < nelems s.
Proof.
  intros Ok N; pose proof (bw_free _ (wf_bits _ (so_wf _ _ Ok))) as Fr; destruct (Z.eq_dec (freeindex s) (nelems s)) as [E|E]; [|lia].
  contradiction N; rewrite (so_count _ _ Ok); apply full_count; [exact Fr| |apply (bw_nelems _ (wf_bits _ (so_wf _ _ Ok)))].
  rewrite E; split; [lia|split; [intros; lia|lia]].
Qed.

(** Caching a span that has a free slot succeeds, from any position that skips no free slot. *)
Lemma cache_span_ok m0 used m s sg f c : life_ok m0 used m s -> 0 <= f < nelems s -> allocCount s <> nelems s ->
  (forall x j, 0 <= j -> isFree (set_alloc f x s) j = isFree s j) ->
  exists s', cache_span sg (set_alloc f c s) = Ret s' /\ life_ok m0 used m s'.
Proof.
  intros L Hf Ac Fc; pose proof (lo_span _ _ _ _ L) as Ok.
  assert (Okf : forall x, span_ok m (set_alloc f x s)) by (intros x; apply span_ok_alloc; auto; lia).
  destruct (havespan_ok (set_alloc f c s) (wf_bits _ (so_wf _ _ (Okf c))) (proj2 Hf) Ac) as (c' & E & C).
  change (freeindex (set_alloc f c s)) with f in E, C; rewrite set_alloc_twice in E, C.
  unfold cache_span; rewrite E; cbn [bind]; change (allocCount (set_alloc f c' s)) with (allocCount s); change (nelems (set_alloc f c' s)) with (nelems s).
  rewrite (proj2 (Z.eqb_neq _ _) Ac); eexists; split; [reflexivity|].
  apply (life_same m0 used m s); auto.
  - repeat split.
  - apply (proj1 (span_ok_gen m _ _ 0 (Okf c'))).
  - intros i Hi; apply (Fc c'), Hi.
Qed.

Lemma OCache_ok m0 used m s sg : life_ok m0 used m s -> allocCount s <> nelems s ->
  exists s', cache_span sg s = Ret s' /\ life_ok m0 used m s'.
Proof.
  intros L N; pose proof (lo_span _ _ _ _ L) as Ok; pose proof (full_freeindex m s Ok N); pose proof (bw_free _ (wf_bits _ (so_wf _ _ Ok))).
  rewrite <- (set_alloc_same s); apply cache_span_ok; auto; lia.
Qed.

Lemma OProbe_ok m0 used m s h : life_ok m0 used m s ->
  exists s' h', probe h s = Ret (s', h') /\ life_ok m0 used m s'.
Proof.
  intros L; pose proof (lo_span _ _ _ _ L) as Ok; pose proof (so_wf _ _ Ok) as W; pose proof (bw_free _ (wf_bits _ W)) as Fr.
  destruct (nextFreeIndex_ok s (wf_bits _ W) (lo_cache _ _ _ _ L)) as (f & c & E & F & C & _).
  assert (Fc : forall x j, 0 <= j -> isFree (set_alloc f x s) j = isFree s j) by (intros; apply free_moved; auto; lia).
  unfold probe; rewrite E; cbn [bind]; change (nelems (taken s f c)) with (nelems s).
  destruct (Z.eqb_spec f (nelems s)) as [->|N]; cbn [negb].
  - assert (T : taken s (nelems s) c = set_alloc (nelems s) c s) by (unfold taken; rewrite Z.min_l by lia; reflexivity).
    rewrite T in *; do 2 eexists; split; [reflexivity|]; apply (life_same m0 used m s); auto; [repeat split|].
    apply span_ok_alloc; auto; lia.
  - assert (Hf : 0 <= f < nelems s) by (destruct F; lia).
    assert (Ac : allocCount s <> nelems s).
    { rewrite (so_count _ _ Ok); intros Ec; pose proof (taken_count s f 0 Fr F (proj2 Hf)) as T.
      pose proof (count_allocated_range (taken s f 0) ltac:(cbn; lia)) as R; change (nelems (taken s f 0)) with (nelems s) in R; lia. }
    change (allocCache (taken s f c)) with c; unfold taken; rewrite set_alloc_twice.
    destruct (cache_span_ok m0 used m s (h_sweepgen h) f c L Hf Ac Fc) as (s' & E' & L').
    rewrite E'; do 2 eexists; split; [reflexivity|exact L'].
Qed.

(** *** Allocation, writes, marks, records *)

Lemma OAlloc_ok m0 used m s wb i m' s' : life_ok m0 used m s -> allocated wb m s i m' s' -> life_ok m0 (i :: used) m' s'.
Proof.
  intros [Ok A Cl Dv Ca Mk Us Cn Zr Bm] [[Hi Fi] Fr Me Ok' Ca' Mk' (c & f & g & E)].
  assert (P : same_place s s') by (rewrite E; repeat split); pose proof (same_bitmap s s' P Bm) as Bm'.
  destruct (same_slots s s' P) as (P1 & P2 & P3); destruct P as (_ & E2 & _ & _ & E5 & E6).
  assert (Nz : needzero s' = needzero s) by (rewrite E; reflexivity).
  assert (R : forall a, in_objects s a -> 0 <= slot_at s a) by (intros a Ia; apply (slot_at_range s a (wf_elem _ (so_wf _ _ Ok)) Ia)).
  assert (Free : forall a, in_objects s' a -> isFree s' (slot_at s' a) = true ->
    in_objects s a /\ isFree s (slot_at s a) = true /\ slot_at s a <> i).
  { intros a Ia F; apply P1 in Ia; rewrite P2, Fr in F by auto; apply andb_true_iff in F as [F1 F2]; apply negb_true_iff, Z.eqb_neq in F2; auto. }
  constructor; rewrite ?E2, ?E5, ?E6; auto.
  - intros j Hj M; rewrite Mk' in M by exact Hj; rewrite Fr by lia; apply orb_true_iff in M as [M|M].
    + rewrite (Mk j Hj M); reflexivity.
    + apply andb_true_iff in M as [_ M]; rewrite M; apply andb_false_r.
  - intros j Hj F; rewrite Fr in F by lia; cbn [existsb]; destruct (Z.eqb_spec j i); [reflexivity|].
    cbn [orb negb] in *; rewrite andb_true_r in F; apply Us; assumption.
  - intros a Ia F; destruct (Free a Ia F) as (Ia' & F' & N); rewrite P2, Me by assumption; cbn [existsb]; rewrite (proj2 (Z.eqb_neq _ _) N).
    apply Cn; assumption.
  - rewrite Nz; intros Z0 a Ia F; destruct (Free a Ia F) as (Ia' & F' & N); rewrite Me by assumption; apply Zr; assumption.
Qed.

Lemma OStore_ok m0 used m s a v : life_ok m0 used m s -> in_objects s a -> isFree s (slot_at s a) = false -> is_byte v ->
  life_ok m0 used (store_bytes a [v] m) s.
Proof.
  intros L Ia F Hv; pose proof (lo_span _ _ _ _ L) as Ok; pose proof (so_wf _ _ Ok) as W.
  assert (Out : forall b, b <> a -> store_bytes a [v] m b = m b).
  { intros b N; unfold store_bytes; cbn [length]; destruct (_ && _) eqn:E; [|reflexivity].
    apply andb_true_iff in E as [E1 E2]; apply Z.leb_le in E1; apply Z.ltb_lt in E2; lia. }
  assert (Mb : forall b, mark_bytes_of s b -> store_bytes a [v] m b = m b)
    by (intros b Mb; apply Out; intros ->; exact (objects_not_marks s a W Ia Mb)).
  apply (life_same m0 used m s); auto; try apply (lo_cache _ _ _ _ L).
  - repeat split.
  - apply (span_ok_mem m); auto; intros b; destruct (Z.eq_dec b a) as [->|N]; [|rewrite Out by exact N; apply (so_bytes _ _ Ok)].
    unfold store_bytes; cbn [length]; rewrite Z.leb_refl, (proj2 (Z.ltb_lt _ _)) by lia; cbn [andb]; rewrite Z.sub_diag; exact Hv.
  - intros i Hi M; rewrite (marked_agree_on m) in M by (assumption || lia); auto.
  - intros b Ib Fb; apply Out; intros ->; congruence.
Qed.

Lemma OMark_ok m0 used m s i : life_ok m0 used m s -> 0 <= i < nelems s -> isFree s i = false ->
  let '(m', s') := greyobject m s i in life_ok m0 used m' s'.
Proof.
  intros L Hi F; pose proof (lo_span _ _ _ _ L) as Ok; unfold greyobject; destruct (isMarked m s _); [exact L|].
  pose proof (mark_ok m s i Ok Hi) as M; destruct (setMarked m s _) as [m' s']; destruct M as (Ok' & E & Mk & Out).
  pose proof E as E'; unfold same_but_marks in E'; destruct (same_marks_alloc s s' E) as (S1 & S2 & _).
  apply (life_same m0 used m s); auto.
  - rewrite E'; repeat split.
  - rewrite E'; reflexivity.
  - apply S2, (lo_cache _ _ _ _ L).
  - intros j Hj Mj; rewrite Mk in Mj by lia; apply orb_true_iff in Mj as [?|Mj]; [auto|apply Z.eqb_eq in Mj; subst j; auto].
  - intros a Ia _; apply Out, objects_not_marks; [apply (so_wf _ _ Ok)|exact Ia].
Qed.

Lemma specials_life m0 used m s l : life_ok m0 used m s -> offsets_sorted l ->
  (forall sp, In sp l -> special_wf s sp /\ isFree s (special_slot s sp) = false) -> life_ok m0 used m (set_specials l s).
Proof.
  intros L So F; apply (life_same m0 used m s); auto; [repeat split|apply span_ok_specials; auto; apply (lo_span _ _ _ _ L)|apply (lo_cache _ _ _ _ L)].
Qed.

(** *** Sweeping *)

Lemma life_no_zombies m0 used m s : life_ok m0 used m s -> no_zombies m s.
Proof.
  intros L i Hi Sv; unfold survives in Sv; apply orb_true_iff in Sv as [Mk|Fn].
  - apply (lo_marks _ _ _ _ L); [|exact Mk]; pose proof (bw_free _ (wf_bits _ (so_wf _ _ (lo_span _ _ _ _ L)))); lia.
  - unfold has_fin in Fn; apply existsb_exists in Fn as (sp & Isp & E); apply andb_true_iff in E as [_ E]; apply Z.eqb_eq in E.
    pose proof (proj1 (Forall_forall _ _) (so_specials _ _ (lo_span _ _ _ _ L)) sp Isp) as [_ F]; rewrite <- E; exact F.
Qed.

(** What a sweep leaves satisfies the invariant. *)
Lemma swept_life m0 used m s g r : life_ok m0 used m s -> swept_ok m s g r -> life_ok m0 used (sw_mem (after r)) (sw_span (after r)).
Proof.
  intros L [Obj Out Ok' Fr Geo Same Search Nz Dead]; pose proof (life_no_zombies _ _ _ _ L) as NZ.
  destruct L as [Ok A Cl Dv Ca Mk Us Cn Zr Bm]; set (s' := sw_span (after r)) in *; set (m' := sw_mem (after r)) in *.
  destruct Geo as (G1 & G2 & G3 & G4), Same as (G5 & G6 & G7 & _), Search as [F0 C0].
  assert (P : same_place s s') by (repeat split; assumption); pose proof (same_bitmap s s' P Bm) as Bm'.
  destruct (same_slots s s' P) as (P1 & P2 & P3).
  assert (Free : forall a, in_objects s' a -> isFree s' (slot_at s' a) = true ->
    in_objects s a /\ 0 <= slot_at s a < nelems s /\ survives m s (slot_at s a) = false).
  { intros a Ia F; apply P1 in Ia; rewrite P2 in F; pose proof (slot_at_range s a (wf_elem _ (so_wf _ _ Ok)) Ia) as [R _].
    rewrite (proj1 (Fr _ R)) in F; apply negb_true_iff in F; auto. }
  constructor; rewrite ?G2, ?G5, ?G7; auto.
  - intros _; rewrite F0; exact C0.
  - intros i Hi M; rewrite (proj2 (Fr i Hi)) in M; discriminate.
  - intros i Hi F; rewrite (proj1 (Fr i Hi)) in F; apply negb_false_iff in F; apply Us; [exact Hi|].
    apply (survivors_allocated m s i NZ Hi F).
  - intros a Ia F; destruct (Free a Ia F) as (Ia' & R & Sv); rewrite P2, Obj, Sv by exact Ia'; cbn [orb].
    destruct (isFree s (slot_at s a)) eqn:F1; [apply Cn; assumption|rewrite (Us _ R F1); reflexivity].
  - intros N a Ia F; destruct (Nz N) as [N0|All]; [|apply All, P1, Ia].
    destruct (Free a Ia F) as (Ia' & R & Sv); rewrite Obj, Sv by exact Ia'; cbn [orb].
    destruct (isFree s (slot_at s a)) eqn:F1; [apply Zr; assumption|reflexivity].
Qed.

Lemma OSweep_ok dbg preserve m0 used m s ev h : life_ok m0 used m s -> heap_ok h -> being_swept s h = true ->
  exists r, sweep dbg true preserve (MkSweeping m s ev) h = Ret r /\ life_ok m0 used (sw_mem (after r)) (sw_span (after r)) /\
    h_sweepgen (heap_after r) = h_sweepgen h.
Proof.
  intros L Hh Bs; destruct (sweep_total dbg preserve (MkSweeping m s ev) h (lo_span _ _ _ _ L) (lo_arena _ _ _ _ L)
    (lo_class _ _ _ _ L) Hh Bs (life_no_zombies _ _ _ _ L)) as (r & E & S & G).
  exists r; split; [exact E|split; [apply (swept_life m0 used m s (h_sweepgen h)); assumption|exact G]].
Qed.

Lemma regen m0 used m s g : life_ok m0 used m s -> life_ok m0 used m (set_sweepgen g s).
Proof.
  intros L; apply (life_same m0 used m s); auto; [repeat split|apply (proj1 (span_ok_gen m s g 0 (lo_span _ _ _ _ L)))|apply (lo_cache _ _ _ _ L)].
Qed.

Lemma OUncache_ok dbg m0 used m s ev h : life_ok m0 used m s -> heap_ok h -> state s = mSpanInUse -> allocCount s <> 0 ->
  exists w h', uncacheSpan dbg (MkSweeping m s ev) h = Ret (w, h') /\ life_ok m0 used (sw_mem w) (sw_span w) /\ h_sweepgen h' = h_sweepgen h.
Proof.
  intros L Hh I N; unfold uncacheSpan; cbn [sw_span sw_mem sw_events]; rewrite (proj2 (Z.eqb_neq _ _) N).
  pose proof (regen m0 used m s (u32 (h_sweepgen h - 1)) L) as L1; pose proof (regen m0 used m s (h_sweepgen h) L) as L2.
  destruct (sweepgen s =? u32 (h_sweepgen h + 1)).
  - destruct (OSweep_ok dbg false m0 used m _ ev h L1 Hh) as (r & -> & Lr & G).
    + unfold being_swept; cbn [set_sweepgen state sweepgen]; rewrite I; apply Z.eqb_refl.
    + do 2 eexists; split; [reflexivity|split; [exact Lr|exact G]].
  - destruct (0 <? _); do 2 eexists; (split; [reflexivity|split; [exact L2|reflexivity]]).
Qed.

(** *** One step *)

Definition life_inv (m0 : memory) (l : life) : Prop := life_ok m0 (l_used l) (l_mem l) (l_span l) /\ heap_ok (l_heap l).

Lemma special_wfb_ok s sp : special_wfb s sp = true -> special_wf s sp.
Proof.
  unfold special_wfb, special_wf; rewrite !andb_true_iff, Z.leb_le, Z.ltb_lt; intros [[H1 H2] H3]; split; [lia|].
  destruct (sp_kind sp); auto; rewrite andb_true_iff, !Z.leb_le in H3; exact H3.
Qed.

Lemma not_termination phase wb :
  negb (wb && match phase with GCmarktermination => true | _ => false end) = true -> wb = true -> phase <> GCmarktermination.
Proof. intros H -> ->; discriminate. Qed.

(** An allocation that finds a slot, whatever address in it is returned. *)
Lemma handed_life m0 used m s wb i o m' s' : life_ok m0 used m s -> allocated wb m s i m' s' -> 0 <= o < elemsize s ->
  life_ok m0 (objIndex s (slot s i + o) :: used) m' s'.
Proof.
  intros L Al Ho; rewrite (lo_div _ _ _ _ L i o (proj1 (al_slot _ _ _ _ _ _ Al)) Ho); exact (OAlloc_ok m0 used m s wb i m' s' L Al).
Qed.

(** Every path of allocation returns, and keeps the invariant. *)
Lemma alloc_life dbg o l m0 : life_inv m0 l -> enabled o l = true ->
  match o with OAlloc _ _ _ | OAllocScan _ _ _ _ | OAllocHeader _ _ _ | OAllocTiny _ _ _ _ => True | _ => False end ->
  exists l', perform dbg o l = Ret l' /\ life_inv m0 l'.
Proof.
  destruct l as [m s h used]; unfold life_inv, enabled; cbn [l_used l_mem l_span l_heap]; intros [L Hh] En K.
  pose proof (lo_span _ _ _ _ L) as Ok; pose proof (wf_elem _ (so_wf _ _ Ok)) as He.
  pose proof (lo_cache _ _ _ _ L) as Ca; pose proof (lo_div _ _ _ _ L) as Dv; pose proof (lo_bitmap _ _ _ _ L) as Bm.
  assert (H0 : forall wb i m' s', allocated wb m s i m' s' -> life_ok m0 (objIndex s (slot s i) :: used) m' s')
    by (intros wb i m' s' Al; rewrite <- (Z.add_0_r (slot s i)); apply (handed_life m0 used m s wb); auto; lia).
  destruct o as [| |phase wb nz|phase wb size typ|phase wb typ|phase wb size c| | | | | | | |]; try contradiction; cbn [perform];
    rewrite !andb_true_iff in En.
  - destruct (allocate_ok phase wb nz m s Ok Ca Dv) as [[-> _]|(i & m' & s' & -> & Al & _)];
      [apply not_termination; tauto|eexists; split; [reflexivity|auto]..].
    split; [apply (H0 wb), Al|exact Hh].
  - destruct En as [_ [[[[[[_ Ph] Ns] Hb] T1] T2] T3]]; apply negb_true_iff in Ns; apply Z.ltb_lt in T1; apply Z.leb_le in T2, T3.
    destruct (scan_noheader_ok phase wb size typ m s Ok Ca Dv Bm) as [[-> _]|(i & m' & s' & -> & Al & _)];
      [apply not_termination, Ph|exact Ns|exact Hb|lia|exact T3|eexists; split; [reflexivity|auto]..].
    split; [apply (H0 wb), Al|exact Hh].
  - destruct En as [_ [[[_ Ph] Hb] St]]; apply negb_true_iff in Hb; apply Z.ltb_lt in St.
    assert (8 < elemsize s) by (apply Z.leb_gt in Hb; unfold MinSizeForMallocHeader, PtrSize in Hb; lia).
    destruct (scan_header_ok phase wb typ m s Ok Ca Dv Bm) as [[-> _]|(i & m' & s' & -> & Al & _)];
      [apply not_termination, Ph|exact Hb|exact St|eexists; split; [reflexivity|auto]..].
    split; [apply (handed_life m0 used m s wb); auto; unfold MallocHeaderSize; lia|exact Hh].
  - destruct En as [_ [[_ Ph] E16]]; apply Z.eqb_eq in E16.
    destruct (tiny_ok phase wb size c m s Ok Ca Dv Bm) as [(x & c' & ->)|[[-> _]|(i & c' & m' & s' & -> & Al & _)]];
      [apply not_termination, Ph|exact E16|eexists; split; [reflexivity|auto]..].
    assert (Es : elemsize s' = elemsize s) by (destruct (al_same _ _ _ _ _ _ Al) as (? & ? & ? & ->); reflexivity).
    rewrite Es, (proj2 (Z.eqb_neq _ _)) by lia; split; [apply (H0 wb), Al|exact Hh].
Qed.

(** An enabled operation returns, and keeps the invariant. *)
Lemma perform_ok dbg o l m0 : life_inv m0 l -> enabled o l = true -> exists l', perform dbg o l = Ret l' /\ life_inv m0 l'.
Proof.
  intros Inv En; pose proof (alloc_life dbg o l m0 Inv En) as Alloc; revert Inv En Alloc.
  destruct l as [m s h used]; unfold life_inv, enabled; cbn [l_used l_mem l_span l_heap]; intros [L Hh] En Alloc.
  apply andb_true_iff in En as [I En]; assert (Iu : state s = mSpanInUse) by (destruct (state s); congruence).
  pose proof (lo_span _ _ _ _ L) as Ok.
  destruct o as [| |phase wb nz|phase wb size typ|phase wb typ|phase wb size c|a v|i|sp force|offset kind| | | |preserve];
    try exact (Alloc Logic.I); cbn [perform].
  - apply andb_true_iff in En as [_ En]; apply negb_true_iff, Z.eqb_neq in En.
    destruct (OCache_ok m0 used m s (h_sweepgen h) L En) as (s' & -> & L'); eexists; split; [reflexivity|auto].
  - pose proof (OProbe_ok m0 used m s h L) as (s' & h' & E & L'); rewrite E; eexists; split; [reflexivity|split; [exact L'|]].
    revert E; unfold probe; destruct (nextFreeIndex s) as [[f s1]| |]; cbn [bind]; try discriminate.
    destruct (negb _); [destruct (cache_span _ _); cbn [bind]; intros [= _ <-]; exact Hh|intros [= _ <-]; exact Hh].
  - rewrite !andb_true_iff, negb_true_iff, Z.leb_le, Z.ltb_lt in En; destruct En as [[[Ia [_ F]] V1] V2]; apply in_objectsb_ok in Ia.
    eexists; split; [reflexivity|split; [apply OStore_ok; auto; unword; lia|exact Hh]].
  - rewrite !andb_true_iff, negb_true_iff, Z.leb_le, Z.ltb_lt in En; destruct En as [_ [Hi F]].
    pose proof (OMark_ok m0 used m s i L Hi F) as M; destruct (greyobject m s i); eexists; split; [reflexivity|auto].
  - rewrite !andb_true_iff, negb_true_iff in En; destruct En as [[_ W] [_ F]]; apply special_wfb_ok in W.
    destruct (addspecial_ok sp force (specials s) (so_sorted _ _ Ok)) as [So In_]; eexists; split; [reflexivity|split; [|exact Hh]].
    apply specials_life; [exact L|exact So|]; intros x Ix; destruct (In_ x Ix) as [->|Ix']; [auto|].
    exact (proj1 (Forall_forall _ _) (so_specials _ _ Ok) x Ix').
  - destruct (removespecial_ok offset kind (specials s) (so_sorted _ _ Ok)) as [So In_]; eexists; split; [reflexivity|split; [|exact Hh]].
    apply specials_life; [exact L|exact So|]; intros x Ix; exact (proj1 (Forall_forall _ _) (so_specials _ _ Ok) x (In_ x Ix)).
  - eexists; split; [reflexivity|split; [exact L|unfold heap_ok; cbn; apply Z.mod_pos_bound; unword; lia]].
  - apply andb_true_iff in En as [_ En]; apply negb_true_iff, Z.eqb_neq in En.
    destruct (OUncache_ok dbg m0 used m s [] h L Hh Iu En) as (w & h' & -> & L' & G); eexists; split; [reflexivity|split; [exact L'|]].
    unfold heap_ok in *; cbn; rewrite G; exact Hh.
  - unfold tryAcquire; destruct (_ =? _); eexists; (split; [reflexivity|split; [|exact Hh]]); [apply regen|]; exact L.
  - destruct (OSweep_ok dbg preserve m0 used m s [] h L Hh En) as (r & -> & L' & G); eexists; split; [reflexivity|split; [exact L'|]].
    unfold heap_ok in *; cbn; rewrite G; exact Hh.
Qed.

Lemma reached_inv dbg m0 l0 l : life_inv m0 l0 -> reached dbg l0 l -> life_inv m0 l.
Proof.
  intros H R; induction R as [|l o l' R IH En E]; [exact H|].
  destruct (perform_ok dbg o l m0 IH En) as (l1 & E1 & H1); congruence.
Qed.

Lemma run_reached dbg os l0 l l' : reached dbg l0 l -> run dbg os l = Ret l' -> reached dbg l0 l'.
Proof.
  revert l; induction os as [|o os IH]; cbn; intros l R E; [injection E as <-; exact R|].
  destruct (enabled o l) eqn:En; [|discriminate]; destruct (perform dbg o l) as [l1| |] eqn:E1; cbn [bind] in E; try discriminate.
  apply (IH l1); [apply (reached_step _ _ l o); assumption|exact E].
Qed.

(** ** Birth *)

(** Pages for a span: addresses of a 48-bit space, holding zeros unless [dirty]. *)
Record pages_ok (base npages : Z) (dirty : bool) (m : memory) : Prop := {
  pg_base : 0 <= base;
  pg_end : base + npages * pageSize < 2 ^ 48;
  pg_bytes : forall a, is_byte (m a);
  pg_zero : dirty = false -> forall a, base <= a < base + npages * pageSize -> m a = 0;
}.

Lemma small_life base k ns dirty g m : (1 <= k <= 67)%nat -> pages_ok base (nth k SizeClassToNPages 0) dirty m ->
  let sc := makeSpanClass (Z.of_nat k) ns in
  life_ok m [] (snd (grow base sc dirty g m)) (fst (grow base sc dirty g m)).
Proof.
  intros Hk [Hb He Hm Hz]; cbv zeta; pose proof (grow_wf base k ns dirty g m Hk Hb He) as W; pose proof (grow_span base k ns dirty g m Hk) as S.
  pose proof (grow_objects base k ns dirty g m Hk Hb He Hm) as Ob; pose proof (grow_free base k ns dirty g m Hk) as Fr.
  constructor.
  - apply grow_ok; assumption.
  - rewrite S; reflexivity.
  - rewrite S; cbn [spanclass]; apply class_byte, Hk.
  - apply grow_div; assumption.
  - intros _; split; rewrite S; cbn [allocCache allocBits freeindex]; [unword; lia|].
    intros j Hj; change (W64 - 1) with (Z.ones 64); rewrite Z.ones_spec_low by lia; change (0 mod 64) with 0.
    unfold newMarkBits; rewrite bit_repeat_0, (proj2 (Z.ltb_lt _ _)) by lia; reflexivity.
  - intros i Hi M; rewrite (grow_unmarked base k ns dirty g m Hk Hb He Hm Hz i Hi) in M; discriminate.
  - intros i Hi F; rewrite Fr in F by lia; discriminate.
  - intros a Ia _; apply Ob, Ia.
  - intros N a Ia _; rewrite Ob by exact Ia; rewrite S in N; cbn [needzero] in N; destruct dirty; [discriminate|].
    apply Hz; [reflexivity|]; destruct Ia as [I1 I2]; pose proof (wf_fit _ W) as Fit; unfold span_end in Fit.
    rewrite S in I1, I2, Fit; cbn [startAddr npages] in *; unfold objects_end in *; cbn [startAddr nelems elemsize] in *; lia.
  - unfold bitmap_ok; apply grow_bitmap; assumption.
Qed.

(** The chunked clearing clears the whole. *)
Lemma memclr_chunks_ok fuel v e m : e - v <= chunkBytes * Z.of_nat fuel ->
  exists m', memclr_chunks fuel v e m = Some m' /\ forall a, m' a = if (v <=? a) && (a <? e) then 0 else m a.
Proof.
  revert v m; induction fuel as [|fuel IH]; intros v m Hf; cbn [memclr_chunks]; destruct (Z.ltb_spec v e) as [L|L]; try lia.
  1,3: eexists; split; [reflexivity|]; intros a; destruct (Z.leb_spec v a), (Z.ltb_spec a e); try lia; reflexivity.
  set (n := if chunkBytes <? e - v then chunkBytes else e - v).
  assert (Hn : n = Z.min chunkBytes (e - v)) by (unfold n; destruct (Z.ltb_spec chunkBytes (e - v)); lia).
  destruct (IH (v + chunkBytes) (memclrNoHeapPointers v n m)) as (m' & E & Me); [unfold chunkBytes in *; lia|].
  exists m'; split; [exact E|]; intros a; rewrite Me; unfold memclrNoHeapPointers; rewrite Hn; unfold chunkBytes in *.
  destruct (Z.leb_spec (v + 256 * 1024) a), (Z.ltb_spec a e), (Z.leb_spec v a), (Z.ltb_spec a (v + Z.min (256 * 1024) (e - v))); cbn [andb]; lia.
Qed.

Lemma memclr_chunked_ok size x m : 0 <= size ->
  exists m', memclrNoHeapPointersChunked size x m = Some m' /\ forall a, m' a = memclrNoHeapPointers x size m a.
Proof.
  intros H; pose proof (Z.div_mod size chunkBytes); pose proof (Z.mod_pos_bound size chunkBytes).
  apply memclr_chunks_ok; unfold chunkBytes in *; pose proof (Z.div_pos size (256 * 1024)); rewrite Z2Nat.id by lia; lia.
Qed.

Definition pages_of (size : Z) : Z :=
  let npages := Z.shiftr size 13 in if negb (Z.land size (pageSize - 1) =? 0) then npages + 1 else npages.

Lemma pages_of_ok size : 0 < size -> 0 < pages_of size /\ size <= pages_of size * pageSize.
Proof.
  intros H; unfold pages_of, pageSize; change (8192 - 1) with (Z.ones 13); rewrite Z.land_ones, Z.shiftr_div_pow2 by lia; change (2 ^ 13) with 8192.
  pose proof (Z.div_mod size 8192); pose proof (Z.mod_pos_bound size 8192); pose proof (Z.div_pos size 8192).
  destruct (Z.eqb_spec (size mod 8192) 0); cbn [negb]; lia.
Qed.

(** The span of a large object, before its mark is set. *)
Section Large.
Context (base size : Z) (noscan dirty : bool) (g : Z) (m : memory).
Context (Hs : 0 < size) (P : pages_ok base (pages_of size) dirty m).

Let s0 := set_limit (base + size) (initSpan base (pages_of size) (makeSpanClass 0 noscan) dirty g).
Let s := set_allocCount 1 (set_alloc 1 (allocCache s0) s0).

Lemma large_fields : startAddr s = base /\ npages s = pages_of size /\ nelems s = 1 /\ elemsize s = pages_of size * pageSize /\
  freeindex s = 1 /\ allocBits s = newMarkBits 1 /\ gcmarkBits s = newMarkBits 1 /\ divMul s = 0 /\ allocCount s = 1 /\
  specials s = [] /\ sizeclass (spanclass s) = 0 /\ isUserArenaChunk s = false /\ is_byte (spanclass s) /\
  gcUsesSpanInlineMarkBits (elemsize s) = false.
Proof.
  pose proof (pages_of_ok size Hs) as [Np _].
  assert (G : gcUsesSpanInlineMarkBits (pages_of size * pageSize) = false).
  { unfold gcUsesSpanInlineMarkBits, heapBitsInSpan, MinSizeForMallocHeader, PtrSize, pageSize.
    apply andb_false_iff; left; apply Z.leb_gt; lia. }
  unfold s, s0, initSpan; destruct noscan; cbn [makeSpanClass]; change (sizeclass (Z.lor (Z.shiftl 0 1) _)) with 0;
    change (sizeclass _ =? 0) with true; cbn; repeat (split; [reflexivity|]); (split; [unword; cbn; lia|exact G]).
Qed.

Lemma large_free i : 0 <= i < 1 -> isFree s i = false.
Proof. intros Hi; destruct large_fields as (_ & _ & _ & _ & F & _); unfold isFree; rewrite F, (proj2 (Z.ltb_lt _ _)) by lia; reflexivity. Qed.

Lemma large_wf : span_wf s.
Proof.
  destruct large_fields as (F1 & F2 & F3 & F4 & F5 & F6 & F7 & _ & _ & _ & _ & _ & _ & G); pose proof P as [Hb He Hm Hz]; pose proof (pages_of_ok size Hs) as [Np _].
  assert (By : bytes (newMarkBits 1)) by (apply Forall_forall; intros x Hx; apply repeat_spec in Hx; rewrite Hx; unword; lia).
  constructor; unfold span_end, objects_end in *; rewrite ?F1, ?F2, ?F3, ?F4, ?F6, ?F7; auto; try (unfold pageSize in *; lia).
  - constructor; rewrite ?F3, ?F5, ?F6; unfold MaxObjsPerSpan; [lia|exact By|lia].
  - intros i _; split; apply bit_repeat_0.
  - unfold pageSize; replace (pages_of size * 8192) with (pages_of size * 2048 * 4) by lia; apply Z.mod_mul; lia.
  - rewrite <- F4, G; discriminate.
Qed.

Lemma large_life : life_ok m [0] m s.
Proof.
  destruct large_fields as (F1 & F2 & F3 & F4 & F5 & F6 & F7 & F8 & F9 & F10 & F11 & F12 & F13 & G); pose proof P as [Hb He0 Hm Hz].
  pose proof (wf_elem _ large_wf) as He.
  assert (NoFree : forall a, in_objects s a -> isFree s (slot_at s a) = false)
    by (intros a Ia; apply large_free; rewrite <- F3; apply (slot_at_range s a He Ia)).
  constructor; auto.
  - constructor; rewrite ?F10, ?G; auto using large_wf, List.Forall_nil; [discriminate|apply SSorted_nil|].
    rewrite F9; unfold count_allocated; rewrite F3; change (Z.to_nat 1) with 1%nat; cbn [seq filter]; change (Z.of_nat 0) with 0.
    rewrite large_free by lia; reflexivity.
  - intros i Hi; unfold objIndex, divideByElemSize; rewrite F8, Z.mul_0_r; change (Z.shiftr (u64 0) 32) with 0; lia.
  - intros Lt; lia.
  - intros i Hi _; apply large_free; lia.
  - intros i Hi _; replace i with 0 by lia; reflexivity.
  - intros a Ia F; rewrite NoFree in F by exact Ia; discriminate.
  - intros _ a Ia F; rewrite NoFree in F by exact Ia; discriminate.
  - intros _ Hb'; exfalso; revert Hb'; rewrite F4; pose proof (pages_of_ok size Hs) as [Np _].
    unfold heapBitsInSpan, MinSizeForMallocHeader, PtrSize, pageSize; rewrite Z.leb_le; lia.
Qed.

Lemma allocLarge_span : size + pageSize < W64 -> allocLarge base size noscan dirty g m = Ret (s0, m).
Proof.
  intros Hw; unfold allocLarge; rewrite u64_small by (unfold pageSize in *; unword; lia); rewrite (proj2 (Z.ltb_ge _ _)) by (unfold pageSize; lia).
  fold (pages_of size); change (set_limit _ _) with s0; do 2 f_equal.
  destruct large_fields as (F1 & F2 & F3 & F4 & F5 & F6 & F7 & F8 & F9 & F10 & F11 & F12 & F13 & G); unfold initHeapBits, spanHeapBitsRange.
  change (spanclass s0) with (spanclass s); change (elemsize s0) with (elemsize s); change (isUserArenaChunk s0) with (isUserArenaChunk s).
  rewrite F11, F12, G; change (0 =? 1) with false; rewrite andb_false_r; cbn [orb].
  replace (heapBitsInSpan (elemsize s)) with false; [rewrite andb_false_r; reflexivity|].
  pose proof (pages_of_ok size Hs) as [Np _]; rewrite F4; symmetry; unfold heapBitsInSpan, MinSizeForMallocHeader, PtrSize, pageSize; apply Z.leb_gt; lia.
Qed.
End Large.

(** An allocated slot is marked when it is handed out during marking. *)
Lemma mark_new_ok m0 used m s i phase (wb : bool) : life_ok m0 used m s -> 0 <= i < nelems s -> isFree s i = false ->
  (wb = true -> phase <> GCmarktermination) ->
  exists m' s', (if wb then gcmarknewobject phase (slot s i) m s else Ret (m, set_freeIndexForScan (freeindex s) s)) = Ret (m', s') /\
    life_ok m0 used m' s' /\ same_place s s' /\ needzero s' = needzero s /\ (forall j, isFree s' j = isFree s j) /\
    forall a, in_objects s a -> m' a = m a.
Proof.
  intros L Hi F Ph; destruct wb.
  - pose proof (div_slot s i (lo_div _ _ _ _ L) (wf_elem _ (so_wf _ _ (lo_span _ _ _ _ L))) Hi) as Di.
    destruct (gcmarknewobject_ok phase (slot s i) m s i (lo_span _ _ _ _ L) Di Hi (Ph eq_refl)) as (m' & s' & E & Ok & Sb & Mk & Me).
    destruct (same_marks_alloc s s' Sb) as (S1 & S2 & _); pose proof Sb as Eb; unfold same_but_marks in Eb.
    assert (Pl : same_place s s') by (rewrite Eb; repeat split); assert (Nz : needzero s' = needzero s) by (rewrite Eb; reflexivity).
    exists m', s'; repeat (split; [first [assumption|apply (life_same m0 used m s); auto]|]); auto; [apply S2, (lo_cache _ _ _ _ L)|].
    intros j Hj Mj; rewrite Mk in Mj by exact Hj; apply orb_true_iff in Mj as [?|Mj]; [auto|apply Z.eqb_eq in Mj; subst; auto].
  - exists m, (set_freeIndexForScan (freeindex s) s); split; [reflexivity|]; split; [|repeat split].
    apply (life_same m0 used m s); auto; [repeat split|apply (proj2 (span_ok_gen m s 0 _ (lo_span _ _ _ _ L)))|apply (lo_cache _ _ _ _ L)].
Qed.

(** An allocated slot is cleared. *)
Lemma clear_allocated m0 used m s i : life_ok m0 used m s -> 0 <= i < nelems s -> isFree s i = false ->
  life_ok m0 used (memclrNoHeapPointers (slot s i) (elemsize s) m) s.
Proof.
  intros L Hi F; destruct (clear_fresh m s i true (lo_span _ _ _ _ L) Hi) as (Ok & Me & Mb).
  apply (life_same m0 used m s); auto; [repeat split|apply (lo_cache _ _ _ _ L)| |].
  - intros j Hj M; rewrite (marked_agree_on m) in M by (apply (so_wf _ _ (lo_span _ _ _ _ L)) || assumption); auto.
  - intros a Ia Fa; rewrite Me by exact Ia; destruct (Z.eqb_spec (slot_at s a) i) as [E|_]; [rewrite E in Fa; congruence|reflexivity].
Qed.

Lemma life_ext m0 used m m' s : (forall a, m' a = m a) -> life_ok m0 used m s -> life_ok m0 used m' s.
Proof.
  intros E L; apply (life_same m0 used m s); auto; [repeat split| |apply (lo_cache _ _ _ _ L)|].
  - apply (span_ok_mem m); [apply (lo_span _ _ _ _ L)|auto|intros a; rewrite E; apply (so_bytes _ _ (lo_span _ _ _ _ L))].
  - intros j Hj M; rewrite (marked_agree_on m) in M by (auto || apply (so_wf _ _ (lo_span _ _ _ _ L))); auto.
Qed.

(** A large object: its span is in order, and its memory is zero when asked for. *)
Lemma mallocgcLarge_ok phase wb nz base size noscan dirty g m : 0 < size -> size + pageSize < W64 ->
  pages_ok base (pages_of size) dirty m -> (wb = true -> phase <> GCmarktermination) ->
  exists m' s', mallocgcLarge phase wb nz base size noscan dirty g m = Ret (base, m', s') /\ life_ok m [0] m' s' /\
    startAddr s' = base /\ elemsize s' = pages_of size * pageSize /\
    forall a, base <= a < base + pages_of size * pageSize -> m' a = if nz && dirty then 0 else m a.
Proof.
  intros Hs Hw P Ph; unfold mallocgcLarge; rewrite (allocLarge_span base size noscan dirty g m Hs Hw); cbn [bind]; cbv zeta.
  pose proof (large_life base size noscan dirty g m Hs P) as L; pose proof (large_fields base size noscan dirty g Hs) as F.
  pose proof (large_free base size noscan dirty g Hs 0 ltac:(lia)) as F0.
  set (s := set_allocCount 1 _) in *; destruct F as (F1 & F2 & F3 & F4 & _).
  assert (S0 : slot s 0 = base) by (rewrite slot_exact by (apply (so_wf _ _ (lo_span _ _ _ _ L)) || lia); rewrite F1; lia).
  assert (Nz : needzero s = if dirty then 1 else 0) by reflexivity.
  destruct (mark_new_ok m [0] m s 0 phase wb L ltac:(lia) F0 Ph) as (m1 & s1 & E & L1 & Pl & Nz1 & Fr & Me).
  rewrite F1; rewrite S0 in E; rewrite E; cbn [bind]; destruct Pl as (P1 & P2 & P3 & _).
  assert (In_ : forall a, base <= a < base + pages_of size * pageSize -> in_objects s a)
    by (intros a Ia; unfold in_objects, objects_end; rewrite F1, F3, F4; lia).
  assert (S1 : slot s1 0 = base) by (unfold slot in *; rewrite P1, P3; exact S0).
  rewrite Nz1, Nz; destruct (nz && negb _) eqn:B.
  - destruct (memclr_chunked_ok (elemsize s1) base m1) as (m2 & -> & M2); [rewrite P3, F4; pose proof (pages_of_ok size Hs); unfold pageSize; lia|].
    pose proof (clear_allocated m [0] m1 s1 0 L1 ltac:(lia) ltac:(rewrite Fr; exact F0)) as L2; rewrite S1 in L2.
    exists m2, s1; split; [reflexivity|split; [apply (life_ext _ _ _ _ _ M2 L2)|split; [congruence|split; [congruence|]]]].
    intros a Ia; rewrite M2, P3, F4; unfold memclrNoHeapPointers; rewrite (proj2 (Z.leb_le _ _)), (proj2 (Z.ltb_lt _ _)) by lia.
    destruct nz, dirty; try discriminate; reflexivity.
  - exists m1, s1; split; [reflexivity|split; [exact L1|split; [congruence|split; [congruence|]]]].
    intros a Ia; rewrite Me by (apply In_, Ia); destruct nz, dirty; try discriminate; reflexivity.
Qed.

(** A span as the runtime makes it, over pages that held [m0]. *)
Inductive born (m0 : memory) : life -> Prop :=
| born_small base k noscan dirty h : heap_ok h -> (1 <= k <= 67)%nat -> pages_ok base (nth k SizeClassToNPages 0) dirty m0 ->
    born m0 (MkLife (snd (grow base (makeSpanClass (Z.of_nat k) noscan) dirty (h_sweepgen h) m0))
                    (fst (grow base (makeSpanClass (Z.of_nat k) noscan) dirty (h_sweepgen h) m0)) h [])
| born_large phase wb nz base size noscan dirty h m s : heap_ok h -> 0 < size -> size + pageSize < W64 ->
    pages_ok base (pages_of size) dirty m0 -> (wb = true -> phase <> GCmarktermination) ->
    mallocgcLarge phase wb nz base size noscan dirty (h_sweepgen h) m0 = Ret (base, m, s) -> born m0 (MkLife m s h [0]).

Lemma born_inv m0 l : born m0 l -> life_inv m0 l.
Proof.
  intros [base k ns dirty h Hh Hk P|phase wb nz base size noscan dirty h m s Hh Hs Hw P Ph E]; (split; [|exact Hh]).
  - apply small_life; assumption.
  - destruct (mallocgcLarge_ok phase wb nz base size noscan dirty (h_sweepgen h) m0 Hs Hw P Ph) as (m' & s' & E' & L & _).
    rewrite E in E'; injection E' as <- <-; exact L.
Qed.

(** ** What holds of every life *)

(** A span without a free slot, and a slot that was taken. *)
Lemma life_full m0 used m s : life_ok m0 used m s -> allocCount s = nelems s -> forall i, 0 <= i < nelems s -> isFree s i = false.
Proof. intros L A i Hi; rewrite (so_count _ _ (lo_span _ _ _ _ L)) in A; exact (all_counted _ i A Hi). Qed.

Lemma life_took m0 used m s wb i m' s' : life_ok m0 used m s -> allocated wb m s i m' s' ->
  (0 <= i < nelems s /\ isFree s i = true /\ (forall j, 0 <= j -> isFree s' j = isFree s j && negb (j =? i)) /\
   forall a, in_objects s a -> slot_at s a <> i -> m' a = m a) /\
  slot s i = startAddr s + i * elemsize s /\
  (needzero s = 0 -> forall a, in_objects s a -> slot_at s a = i -> m a = 0).
Proof.
  intros L [[Hi Fi] Fr Ot _ _ _ _]; split; [auto|split; [apply slot_exact; [apply (so_wf _ _ (lo_span _ _ _ _ L))|exact Hi]|]].
  intros N a Ia Si; apply (lo_zero _ _ _ _ L N a Ia); rewrite Si; exact Fi.
Qed.

Lemma cell_inside s i a : span_wf s -> 0 <= i < nelems s ->
  startAddr s + i * elemsize s <= a < startAddr s + i * elemsize s + elemsize s -> in_objects s a /\ slot_at s a = i.
Proof.
  intros W Hi Ha; split; [apply (slot_in_objects s a i (wf_elem _ W) Hi); lia|apply slot_at_unique; [apply (wf_elem _ W)|lia]].
Qed.

(** C9: whatever the program, the allocator and the collector do with a heap span - small
    objects with or without pointers, or one large object - in any order that the runtime's
    protocol allows, a slot that was handed out once and is free
    again holds only zeros; a slot never handed out holds what its pages held. *)
Theorem freed_slots_are_zero dbg m0 l0 l a : born m0 l0 -> reached dbg l0 l ->
  in_objects (l_span l) a -> isFree (l_span l) (slot_at (l_span l) a) = true ->
  l_mem l a = if existsb (Z.eqb (slot_at (l_span l) a)) (l_used l) then 0 else m0 a.
Proof.
  intros B R Ia F; destruct (reached_inv dbg m0 l0 l (born_inv m0 l0 B) R) as [L _]; apply (lo_clean _ _ _ _ L); assumption.
Qed.

(** C26: no operation that the protocol allows throws or runs out of its loops: caching a
    span with a free slot, allocating on each of its paths, marking, describing, uncaching and sweeping all
    return, in every reachable state. *)
Theorem heap_operations_return dbg m0 l0 l o : born m0 l0 -> reached dbg l0 l -> enabled o l = true ->
  exists l', perform dbg o l = Ret l'.
Proof.
  intros B R En; destruct (perform_ok dbg o l m0 (reached_inv dbg m0 l0 l (born_inv m0 l0 B) R) En) as (l' & E & _); eauto.
Qed.

(** C25: an allocation without pointers that asks for zeroed memory gets a slot that was free,
    all of whose bytes are zero, although [mallocgc] skips the clearing where it believes the
    span clean; all other slots keep their bytes and their state; without a slot the span is
    full.  So does an allocation with pointers: every byte asked for is zero, whether its
    pointer bits go to the end of the span or its type before the object, and the tiny
    allocator's new block is zero. *)
Theorem allocations_are_zeroed dbg m0 l0 l phase wb : born m0 l0 -> reached dbg l0 l ->
  let s := l_span l in
  let full := forall i, 0 <= i < nelems s -> isFree s i = false in
  let took i m' s' := 0 <= i < nelems s /\ isFree s i = true /\ (forall j, 0 <= j -> isFree s' j = isFree s j && negb (j =? i)) /\
    forall a, in_objects s a -> slot_at s a <> i -> m' a = l_mem l a in
  (enabled (OAlloc phase wb true) l = true ->
   (mallocgcSmallNoscan phase wb true (l_mem l) s = Ret None /\ full) \/
   exists i m' s', mallocgcSmallNoscan phase wb true (l_mem l) s = Ret (Some (startAddr s + i * elemsize s, m', s')) /\ took i m' s' /\
     forall a, in_objects s a -> m' a = if slot_at s a =? i then 0 else l_mem l a) /\
  (forall size typ, enabled (OAllocScan phase wb size typ) l = true ->
   (mallocgcSmallScanNoHeader phase wb size typ (l_mem l) s = Ret None /\ full) \/
   exists i m' s', let x := startAddr s + i * elemsize s in
     mallocgcSmallScanNoHeader phase wb size typ (l_mem l) s = Ret (Some (x, m', s')) /\ took i m' s' /\
     forall a, x <= a < x + size -> m' a = 0) /\
  (forall typ, enabled (OAllocHeader phase wb typ) l = true ->
   (mallocgcSmallScanHeader phase wb typ (l_mem l) s = Ret None /\ full) \/
   exists i m' s', let x := startAddr s + i * elemsize s in
     mallocgcSmallScanHeader phase wb typ (l_mem l) s = Ret (Some (x + 8, m', s')) /\ took i m' s' /\
     (forall a, x <= a < x + 8 -> m' a = nth (Z.to_nat (a - x)) (le_bytes 8 typ) 0) /\
     forall a, x + 8 <= a < x + elemsize s -> m' a = 0) /\
  (forall size c x block c' m' s', enabled (OAllocTiny phase wb size c) l = true ->
   mallocgcTiny phase wb size c (l_mem l) s = Ret (Some (x, block, c', m', s')) ->
   (block = 0 /\ m' = l_mem l /\ s' = s) \/
   exists i, x = startAddr s + i * elemsize s /\ took i m' s' /\ forall a, x <= a < x + 16 -> m' a = 0).
Proof.
  intros B R; cbv zeta; destruct (reached_inv dbg m0 l0 l (born_inv m0 l0 B) R) as [L _]; pose proof (so_wf _ _ (lo_span _ _ _ _ L)) as W.
  pose proof (life_full m0 _ _ _ L) as Full; pose proof (fun wb i m' s' => life_took m0 _ _ _ wb i m' s' L) as Took.
  pose proof (lo_span _ _ _ _ L) as Ok; pose proof (lo_cache _ _ _ _ L) as Ca; pose proof (lo_div _ _ _ _ L) as Dv; pose proof (lo_bitmap _ _ _ _ L) as Bm.
  unfold enabled; split; [|split; [|split]]; [intros En|intros size typ En|intros typ En|intros size c x block c' m' s' En Q]; rewrite !andb_true_iff in En.
  - destruct (allocate_ok phase wb true _ _ Ok Ca Dv ltac:(apply not_termination; tauto)) as [[E A]|(i & m' & s' & E & Al & Me)]; [auto|right].
    destruct (Took wb i m' s' Al) as (T & S & Zr); rewrite S in E; exists i, m', s'; split; [exact E|split; [exact T|]].
    intros a Ia; rewrite Me, andb_true_r by exact Ia; destruct (Z.eqb_spec (slot_at (l_span l) a) i) as [Si|_]; [|reflexivity]; cbn [andb].
    destruct (Z.eqb_spec (needzero (l_span l)) 0) as [N|_]; [|reflexivity]; exact (Zr N a Ia Si).
  - destruct En as [_ [[[[[[_ Ph] Ns] Hb] T1] T2] T3]]; apply negb_true_iff in Ns; apply Z.ltb_lt in T1; apply Z.leb_le in T2, T3.
    destruct (scan_noheader_ok phase wb size typ _ _ Ok Ca Dv Bm (not_termination _ _ Ph) Ns Hb (conj T1 T2) T3) as [[E A]|(i & m' & s' & E & Al & Me)]; [auto|right].
    destruct (Took wb i m' s' Al) as (T & S & Zr); rewrite S in E, Me; exists i, m', s'; split; [exact E|split; [exact T|]]; intros a Ha.
    destruct (cell_inside _ i a W (proj1 T) ltac:(lia)) as [Ia Si]; rewrite Me, (proj2 (Z.leb_le _ _)), (proj2 (Z.ltb_lt _ _)) by (exact Ia || lia).
    cbn [andb]; destruct (Z.eqb_spec (needzero (l_span l)) 0) as [N|_]; [exact (Zr N a Ia Si)|reflexivity].
  - destruct En as [_ [[[_ Ph] Hb] St]]; apply negb_true_iff in Hb; apply Z.ltb_lt in St.
    destruct (scan_header_ok phase wb typ _ _ Ok Ca Dv Bm (not_termination _ _ Ph) Hb St) as [[E A]|(i & m' & s' & E & Al & Mh & Me)]; [auto|right].
    destruct (Took wb i m' s' Al) as (T & S & Zr); rewrite S in E, Mh, Me; exists i, m', s'; split; [exact E|split; [exact T|split; [exact Mh|]]].
    intros a Ha; rewrite Me by exact Ha; destruct (cell_inside _ i a W (proj1 T) ltac:(lia)) as [Ia Si].
    destruct (Z.eqb_spec (needzero (l_span l)) 0) as [N|_]; [exact (Zr N a Ia Si)|reflexivity].
  - destruct En as [_ [[_ Ph] E16]]; apply Z.eqb_eq in E16.
    destruct (tiny_ok phase wb size c _ _ Ok Ca Dv Bm (not_termination _ _ Ph) E16) as [(y & c2 & E)|[[E _]|(i & c2 & m2 & s2 & E & Al & Me)]];
      rewrite E in Q; try discriminate; injection Q as <- <- <- <- <-; [auto|right].
    destruct (Took wb i m2 s2 Al) as (T & S & _); exists i; split; [exact S|split; [exact T|exact Me]].
Qed.

(** ** Instances *)

(** Two objects of 4096 bytes in one page that held 5s before: both written, the second one
    marked, a cycle, and the sweep on uncaching. *)
Definition demo_heap : mheap := MkHeap 6 0 1 (repeat 0 68) 0 0 0 [] [] [] [] [] [].
Definition demo_pages : memory := fun _ => 5.
Definition demo_span : mspan * memory := grow 65536 (makeSpanClass 44 true) true 6 demo_pages.
Definition demo_born : life := MkLife (snd demo_span) (fst demo_span) demo_heap [].
Definition demo_debug : debug_vars := MkDebug false false.
Definition demo_filled : list heap_op :=
  [OCache; OAlloc GCoff false true; OStore 65536 7; OAlloc GCoff false false; OStore 69632 9].
Definition demo_collect : list heap_op := [OMark 1; OCycle; OUncache].
Definition the_life (o : outcome string life) : life := match o with Ret l => l | _ => demo_born end.
Definition did_return {A} (o : outcome string A) : bool := match o with Ret _ => true | _ => false end.
Definition demo (os : list heap_op) : life := the_life (run demo_debug os demo_born).

Lemma demo_is_born : born demo_pages demo_born.
Proof.
  apply (born_small demo_pages 65536 44 true true demo_heap); [split; reflexivity || discriminate|lia|].
  constructor; [lia|reflexivity|intros; unfold demo_pages; unword; lia|discriminate].
Defined.

Lemma demo_reached os : did_return (run demo_debug os demo_born) = true -> reached demo_debug demo_born (demo os).
Proof.
  intros H; apply (run_reached demo_debug os demo_born demo_born); [apply reached_init|].
  unfold demo; destruct (run demo_debug os demo_born); [reflexivity|discriminate..].
Defined.

(** 32-byte objects with pointers in a dirty page: the first, of 24 bytes with one pointer, is
    written and dies, the second survives. *)
Definition demo_scan_born : life :=
  let g := grow 65536 (makeSpanClass 4 false) true 6 demo_pages in MkLife (snd g) (fst g) demo_heap [].
Definition demo_type : gc_type := MkType 24 8 1.
Definition demo_scan_filled : list heap_op :=
  [OCache; OAllocScan GCoff false 24 demo_type; OStore 65536 7; OAllocScan GCoff false 24 demo_type; OStore 65568 9].
Definition demo_scan (os : list heap_op) : life := the_life (run demo_debug os demo_scan_born).

Lemma demo_scan_is_born : born demo_pages demo_scan_born.
Proof.
  apply (born_small demo_pages 65536 4 false true demo_heap); [split; reflexivity || discriminate|lia|].
  constructor; [lia|reflexivity|intros; unfold demo_pages; unword; lia|discriminate].
Defined.

Lemma demo_scan_reached os : did_return (run demo_debug os demo_scan_born) = true -> reached demo_debug demo_scan_born (demo_scan os).
Proof.
  intros H; apply (run_reached demo_debug os demo_scan_born demo_scan_born); [apply reached_init|].
  unfold demo_scan; destruct (run demo_debug os demo_scan_born); [reflexivity|discriminate..].
Defined.

Lemma freed_slots_are_zero_witness :
  let l := demo (demo_filled ++ demo_collect) in
  let l2 := demo_scan (demo_scan_filled ++ demo_collect) in
  (l_mem (demo demo_filled) 65536 = 7 /\ l_mem l 65536 = 0 /\ isFree (l_span l) 0 = true /\ l_mem l 69632 = 9) /\
  (l_mem (demo_scan demo_scan_filled) 65536 = 7 /\ l_mem (demo_scan demo_scan_filled) 65560 = 5 /\
   l_mem l2 65536 = 0 /\ l_mem l2 65560 = 0 /\ l_mem l2 65568 = 9).
Proof.
  cbv zeta; split.
  - split; [vm_compute; reflexivity|split; [|split; vm_compute; reflexivity]].
    rewrite (freed_slots_are_zero demo_debug demo_pages demo_born (demo (demo_filled ++ demo_collect)) 65536 demo_is_born).
    + vm_compute; reflexivity.
    + apply demo_reached; vm_compute; reflexivity.
    + vm_compute; split; [discriminate|reflexivity].
    + vm_compute; reflexivity.
  - split; [vm_compute; reflexivity|split; [vm_compute; reflexivity|]].
    assert (R : reached demo_debug demo_scan_born (demo_scan (demo_scan_filled ++ demo_collect)))
      by (apply demo_scan_reached; vm_compute; reflexivity).
    split; [|split; [|vm_compute; reflexivity]];
      (rewrite (freed_slots_are_zero demo_debug demo_pages demo_scan_born _ _ demo_scan_is_born R);
       [vm_compute; reflexivity|vm_compute; split; [discriminate|reflexivity]|vm_compute; reflexivity]).
Defined.

Lemma heap_operations_return_witness :
  (exists l', perform demo_debug OUncache (demo (demo_filled ++ [OMark 1; OCycle])) = Ret l') /\
  (exists l', perform demo_debug (OAllocScan GCmark true 32 (MkType 16 16 3)) (demo_scan demo_scan_filled) = Ret l').
Proof.
  split.
  - apply (heap_operations_return demo_debug demo_pages demo_born); [exact demo_is_born|apply demo_reached|]; vm_compute; reflexivity.
  - apply (heap_operations_return demo_debug demo_pages demo_scan_born); [exact demo_scan_is_born|apply demo_scan_reached|]; vm_compute; reflexivity.
Defined.

(** After the sweep the first slot is handed out again, by either path. *)
Lemma allocations_are_zeroed_witness :
  (let l := demo (demo_filled ++ demo_collect ++ [OCache]) in
   isFree (l_span l) 0 = true /\
   exists m s, mallocgcSmallNoscan GCmark true true (l_mem l) (l_span l) = Ret (Some (65536, m, s)) /\ isFree s 0 = false) /\
  (let l := demo_scan demo_scan_filled in
   exists x m s, mallocgcSmallScanNoHeader GCmark true 24 demo_type (l_mem l) (l_span l) = Ret (Some (x, m, s)) /\ m (x + 23) = 0).
Proof.
  cbv zeta; split.
  - split; [vm_compute; reflexivity|]; set (l := demo (demo_filled ++ demo_collect ++ [OCache])).
    assert (N2 : nelems (l_span l) = 2) by (vm_compute; reflexivity).
    assert (F1 : isFree (l_span l) 1 = false) by (vm_compute; reflexivity).
    assert (F0 : isFree (l_span l) 0 = true) by (vm_compute; reflexivity).
    assert (S0 : startAddr (l_span l) = 65536) by (vm_compute; reflexivity).
    assert (En : enabled (OAlloc GCmark true true) l = true) by (vm_compute; reflexivity).
    assert (R : reached demo_debug demo_born l) by (apply demo_reached; vm_compute; reflexivity).
    destruct (allocations_are_zeroed demo_debug demo_pages demo_born l GCmark true demo_is_born R) as [H _]; clearbody l.
    destruct (H En) as [[_ F]|(i & m & s & E & (Hi & Fi & Fr & _) & _)]; [specialize (F 0 ltac:(lia)); congruence|].
    assert (I : i = 0) by (destruct (Z.eq_dec i 1) as [->|N]; [congruence|lia]); subst i.
    exists m, s; split; [rewrite S0 in E; exact E|rewrite Fr by lia; apply andb_false_r].
  - set (l := demo_scan demo_scan_filled).
    assert (F2 : isFree (l_span l) 2 = true) by (vm_compute; reflexivity).
    assert (N2 : 2 < nelems (l_span l)) by (vm_compute; reflexivity).
    assert (En : enabled (OAllocScan GCmark true 24 demo_type) l = true) by (vm_compute; reflexivity).
    assert (R : reached demo_debug demo_scan_born l) by (apply demo_scan_reached; vm_compute; reflexivity).
    destruct (allocations_are_zeroed demo_debug demo_pages demo_scan_born l GCmark true demo_scan_is_born R) as (_ & H & _); clearbody l.
    destruct (H 24 demo_type En) as [[_ F]|(i & m & s & E & _ & Me)]; [specialize (F 2 ltac:(lia)); congruence|].
    eexists _, m, s; split; [exact E|apply Me; lia].
Defined.

(** A span in order, acquired for sweeping. *)
Record ready_to_sweep (w : sweeping) (h : mheap) : Prop := {
  rs_span : span_ok (sw_mem w) (sw_span w);
  rs_arena : isUserArenaChunk (sw_span w) = false;
  rs_class : is_byte (spanclass (sw_span w));
  rs_heap : heap_ok h;
  rs_owned : being_swept (sw_span w) h = true;
}.

(** C10: sweeping a span in order, marked as the collector pleases: every object that is
    neither marked nor kept by a finalizer is cleared, every other byte of the pages' objects
    and every byte outside the span stays, the survivors and no others are allocated
    afterwards, and no mark is left.  The sweep throws exactly when a marked object is free. *)
Theorem sweep_clears_the_dead dbg preserve w h : ready_to_sweep w h ->
  (no_zombies (sw_mem w) (sw_span w) ->
    exists r, sweep dbg true preserve w h = Ret r /\ swept_ok (sw_mem w) (sw_span w) (h_sweepgen h) r) /\
  (~ no_zombies (sw_mem w) (sw_span w) -> sweep dbg true preserve w h = Fail "found pointer to free object"%string).
Proof.
  intros [Ok NA Cl Hh Bs]; split; [intros NZ|apply sweep_zombie; assumption].
  destruct (sweep_total dbg preserve w h Ok NA Cl Hh Bs NZ) as (r & E & S & _); exists r; auto.
Qed.

(** The sweep of the first instance, with the second object surviving by a finalizer. *)
Definition demo_finalized : life :=
  demo (demo_filled ++ [OAddSpecial (MkSpecial 4096 (SpecialFinalizer 77)) false; OUncache; OCycle; OAcquire]).

Lemma sweep_clears_the_dead_witness :
  exists r, sweep demo_debug true false (MkSweeping (l_mem demo_finalized) (l_span demo_finalized) []) (l_heap demo_finalized) = Ret r /\
    sw_mem (after r) 65536 = 0 /\ sw_mem (after r) 69632 = 9 /\ isFree (sw_span (after r)) 1 = false.
Proof.
  assert (R : reached demo_debug demo_born demo_finalized) by (apply demo_reached; vm_compute; reflexivity).
  pose proof (reached_inv demo_debug demo_pages demo_born demo_finalized (born_inv _ _ demo_is_born) R) as L.
  assert (F : nelems (l_span demo_finalized) = 2 /\ slot_at (l_span demo_finalized) 65536 = 0 /\ slot_at (l_span demo_finalized) 69632 = 1 /\
    in_objectsb (l_span demo_finalized) 65536 = true /\ in_objectsb (l_span demo_finalized) 69632 = true /\
    survives (l_mem demo_finalized) (l_span demo_finalized) 0 || isFree (l_span demo_finalized) 0 = false /\
    survives (l_mem demo_finalized) (l_span demo_finalized) 1 = true /\ l_mem demo_finalized 69632 = 9 /\
    being_swept (l_span demo_finalized) (l_heap demo_finalized) = true) by (vm_compute; intuition).
  revert L F; clear R; generalize demo_finalized as l; intros l [L Hh] (N & S0 & S1 & I0 & I1 & V0 & V1 & M1 & Bs).
  assert (R : ready_to_sweep (MkSweeping (l_mem l) (l_span l) []) (l_heap l))
    by (constructor; [apply (lo_span _ _ _ _ L)|apply (lo_arena _ _ _ _ L)|apply (lo_class _ _ _ _ L)|exact Hh|exact Bs]).
  destruct (sweep_clears_the_dead demo_debug false (MkSweeping (l_mem l) (l_span l) []) (l_heap l) R) as [S _].
  destruct (S (life_no_zombies _ _ _ _ L)) as (r & E & [Ob _ _ Fr _ _ _ _ _]); cbn [sw_mem sw_span] in *.
  apply in_objectsb_ok in I0, I1; exists r; split; [exact E|]; rewrite !Ob, S0, S1, V0, V1 by assumption; cbn [orb].
  split; [reflexivity|split; [exact M1|]]; rewrite (proj1 (Fr 1 ltac:(lia))), V1; reflexivity.
Defined.
