(* ===== verification/StackPool.v ===== *)
(** * Goroutine stacks

    Allocation and release of stacks in [runtime/stack.go]: the pools per order, the caches
    per P, the cache of large stacks, and [janosSanitizeStack] of [runtime/janos_sanitize.go],
    which clears a stack before it goes to any of them.  The free lists are linked through
    the first word of the free stacks.  64-bit Linux: stacks start at 2048 bytes. *)

From Stdlib Require Import String ZArith Lia List Bool.
From S2P Require Import Prelude Slices MathBits SysBits MSpan Sweep.
Import ListNotations.
#[local] Open Scope outcome_scope.

(** ** Definitions *)

Definition fixedStack : Z := 2048.
Definition NumStackOrders : nat := 4.
Definition StackCacheSize : Z := 32 * 1024.
Definition stackLargeLists : nat := 48 - 13.

Definition stacklog2 (n : Z) : Z := if n =? 0 then 0 else Len64 n.

(** The pools: memory, the manually managed spans, the lists of spans (named by their
    address), the caches of the Ps, the page runs the heap will answer the next requests with,
    and what it got back. *)
Record pools : Type := MkPools {
  p_mem : memory;
  p_spans : list mspan;
  stackpool : nat -> list Z;
  stackLarge : nat -> list Z;
  stackcache : nat -> nat -> Z * Z;
  p_supply : list (Z * Z);
  p_returned : list (Z * Z);
}.

Definition set_pmem (m : memory) (st : pools) : pools :=
  MkPools m (p_spans st) (stackpool st) (stackLarge st) (stackcache st) (p_supply st) (p_returned st).
Definition set_pspans (l : list mspan) (st : pools) : pools :=
  MkPools (p_mem st) l (stackpool st) (stackLarge st) (stackcache st) (p_supply st) (p_returned st).
Definition set_pool (o : nat) (l : list Z) (st : pools) : pools :=
  MkPools (p_mem st) (p_spans st) (fun k => if (k =? o)%nat then l else stackpool st k) (stackLarge st) (stackcache st)
    (p_supply st) (p_returned st).
Definition set_large (i : nat) (l : list Z) (st : pools) : pools :=
  MkPools (p_mem st) (p_spans st) (stackpool st) (fun k => if (k =? i)%nat then l else stackLarge st k) (stackcache st)
    (p_supply st) (p_returned st).
Definition set_cache (p o : nat) (v : Z * Z) (st : pools) : pools :=
  MkPools (p_mem st) (p_spans st) (stackpool st) (stackLarge st)
    (fun q k => if ((q =? p) && (k =? o))%nat then v else stackcache st q k) (p_supply st) (p_returned st).

(** [x.ptr().next]. *)
Definition next (x : Z) (st : pools) : Z := load64 x (p_mem st).
Definition set_next (x y : Z) (st : pools) : pools := set_pmem (store64 x y (p_mem st)) st.

Definition in_span (x : Z) (s : mspan) : bool := (startAddr s <=? x) && (x <? span_end s).
Definition spanOfUnchecked (x : Z) (st : pools) : option mspan := find (in_span x) (p_spans st).
Definition put_span (s : mspan) (st : pools) : pools :=
  set_pspans (map (fun t => if startAddr t =? startAddr s then s else t) (p_spans st)) st.

(** [span.list != nil]. *)
Definition listed (b : Z) (st : pools) : bool :=
  existsb (fun o => existsb (Z.eqb b) (stackpool st o)) (seq 0 NumStackOrders) ||
  existsb (fun i => existsb (Z.eqb b) (stackLarge st i)) (seq 0 stackLargeLists).

Definition pool_insert (o : nat) (b : Z) (st : pools) : outcome string pools :=
  if listed b st then Fail "mSpanList.insert"%string else Ret (set_pool o (b :: stackpool st o) st).
Definition list_remove (b : Z) (l : list Z) : list Z := filter (fun x => negb (x =? b)) l.
Definition pool_remove (o : nat) (b : Z) (st : pools) : outcome string pools :=
  if existsb (Z.eqb b) (stackpool st o) then Ret (set_pool o (list_remove b (stackpool st o)) st) else Fail "mSpanList.remove"%string.

(** [mheap.allocManual], with the pages of the supply; [mheap.freeManual]. *)
Definition manual_span (base npages : Z) : mspan :=
  MkSpan base npages 0 0 0 0 0 [] [] None 0 0 0 0 mSpanManual 0 false 0 0 [].
Definition allocManual (npages : Z) (st : pools) : option (mspan * pools) :=
  match p_supply st with
  | [] => None
  | (b, n) :: l =>
      let s := manual_span b npages in
      if n =? npages
      then Some (s, MkPools (p_mem st) (s :: p_spans st) (stackpool st) (stackLarge st) (stackcache st) l (p_returned st))
      else None
  end.
Definition freeManual (s : mspan) (st : pools) : outcome string pools :=
  if negb (allocCount s =? 0) then Fail "mheap.freeSpanLocked - invalid stack free"%string
  else Ret (MkPools (p_mem st) (filter (fun t => negb (startAddr t =? startAddr s)) (p_spans st)) (stackpool st) (stackLarge st)
              (stackcache st) (p_supply st) ((startAddr s, npages s) :: p_returned st)).

Definition stack_size (order : nat) : Z := Z.shiftl fixedStack (Z.of_nat order).

(** The loop that threads the stacks of a fresh span. *)
Definition thread_stacks (base elemsize : Z) (m : memory) : memory * Z :=
  for_range 0 (Z.to_nat (StackCacheSize / elemsize))
    (fun k '(m, head) => let x := base + Z.of_nat k * elemsize in (store64 x head m, x)) (m, 0).

Definition fresh_span (order : nat) (st : pools) : outcome string (mspan * pools) :=
  match allocManual (Z.shiftr StackCacheSize 13) st with
  | None => Fail "out of memory"%string
  | Some (s, st) =>
      if negb (allocCount s =? 0) then Fail "bad allocCount"%string
      else if negb (manualFreeList s =? 0) then Fail "bad manualFreeList"%string
      else
        let s := set_elemsize (stack_size order) s in
        let '(m, head) := thread_stacks (startAddr s) (elemsize s) (p_mem st) in
        let s := set_manualFreeList head s in
        let* st := pool_insert order (startAddr s) (put_span s (set_pmem m st)) in
        Ret (s, st)
  end.

(** The tail of [stackpoolalloc]: the first free stack of the span. *)
Definition take_stack (order : nat) (s : mspan) (st : pools) : outcome string (Z * pools) :=
  let x := manualFreeList s in
  if x =? 0 then Fail "span has no free stacks"%string
  else
    let s := set_allocCount (u16 (allocCount s + 1)) (set_manualFreeList (next x st) s) in
    let st := put_span s st in
    let* st := (if manualFreeList s =? 0 then pool_remove order (startAddr s) st else Ret st) in
    Ret (x, st).

Definition stackpoolalloc (order : nat) (st : pools) : outcome string (Z * pools) :=
  let* r :=
    (match stackpool st order with
     | b :: _ => match spanOfUnchecked b st with Some s => Ret (s, st) | None => Panic end
     | [] => fresh_span order st
     end) in
  let '(s, st) := r in take_stack order s st.

Definition stackpoolfree (gcoff : bool) (x : Z) (order : nat) (st : pools) : outcome string pools :=
  match spanOfUnchecked x st with
  | None => Panic
  | Some s =>
      match state s with
      | mSpanManual =>
          let* st := (if manualFreeList s =? 0 then pool_insert order (startAddr s) st else Ret st) in
          let st := set_next x (manualFreeList s) st in
          let s := set_allocCount (u16 (allocCount s - 1)) (set_manualFreeList x s) in
          let st := put_span s st in
          if gcoff && (allocCount s =? 0) then
            let* st := pool_remove order (startAddr s) st in
            freeManual (set_manualFreeList 0 s) st
          else Ret st
      | _ => Fail "freeing stack not in a stack span"%string
      end
  end.

(** [for size < _StackCacheSize/2]; [None] of the fuel is [Panic]. *)
Fixpoint refill_loop (fuel : nat) (order : nat) (list size : Z) (st : pools) : outcome string (Z * Z * pools) :=
  if size <? StackCacheSize / 2 then
    match fuel with
    | O => Panic
    | S fuel =>
        let* r := stackpoolalloc order st in
        let '(x, st) := r in
        refill_loop fuel order x (size + stack_size order) (set_next x list st)
    end
  else Ret (list, size, st).
Definition stackcacherefill (p order : nat) (st : pools) : outcome string pools :=
  let* r := refill_loop 16 order 0 0 st in
  let '(list, size, st) := r in Ret (set_cache p order (list, size) st).

Fixpoint release_loop (fuel : nat) (gcoff : bool) (order : nat) (x size : Z) (st : pools) : outcome string (Z * Z * pools) :=
  if StackCacheSize / 2 <? size then
    match fuel with
    | O => Panic
    | S fuel =>
        let y := next x st in
        let* st := stackpoolfree gcoff x order st in
        release_loop fuel gcoff order y (u64 (size - stack_size order)) st
    end
  else Ret (x, size, st).
Definition stackcacherelease (gcoff : bool) (p order : nat) (st : pools) : outcome string pools :=
  let '(x, size) := stackcache st p order in
  let* r := release_loop (Z.to_nat (size / stack_size order)) gcoff order x size st in
  let '(x, size, st) := r in Ret (set_cache p order (x, size) st).

Fixpoint clear_loop (fuel : nat) (gcoff : bool) (order : nat) (x : Z) (st : pools) : outcome string pools :=
  if x =? 0 then Ret st
  else
    match fuel with
    | O => Panic
    | S fuel => let y := next x st in let* st := stackpoolfree gcoff x order st in clear_loop fuel gcoff order y st
    end.
Definition clear_order (gcoff : bool) (p order : nat) (st : pools) : outcome string pools :=
  let '(x, size) := stackcache st p order in
  let* st := clear_loop (Z.to_nat (size / stack_size order)) gcoff order x st in
  Ret (set_cache p order (0, 0) st).
Fixpoint stackcache_clear (gcoff : bool) (p : nat) (orders : list nat) (st : pools) : outcome string pools :=
  match orders with
  | [] => Ret st
  | o :: orders => let* st := clear_order gcoff p o st in stackcache_clear gcoff p orders st
  end.

(** [for n2 > fixedStack { order++; n2 >>= 1 }]. *)
Fixpoint order_loop (fuel : nat) (n2 : Z) (order : nat) : nat :=
  if fixedStack <? n2 then match fuel with O => order | S fuel => order_loop fuel (Z.shiftr n2 1) (S order) end else order.
Definition stack_order (n : Z) : nat := order_loop 64 n 0.

Definition is_small (n : Z) : bool := (n <? Z.shiftl fixedStack (Z.of_nat NumStackOrders)) && (n <? StackCacheSize).

(** The three ways of [stackalloc]: the pool of the order, the cache of a P, filled when it is
    empty, and a span of its own. *)
Definition cached_alloc (p order : nat) (n : Z) (st : pools) : outcome string (Z * pools) :=
  let* st := (if fst (stackcache st p order) =? 0 then stackcacherefill p order st else Ret st) in
  let '(x, size) := stackcache st p order in
  if x =? 0 then Panic else Ret (x, set_cache p order (next x st, u64 (size - n)) st).
Definition large_alloc (n : Z) (st : pools) : outcome string (Z * pools) :=
  let npage := Z.shiftr n 13 in
  let log2npage := Z.to_nat (stacklog2 npage) in
  if (stackLargeLists <=? log2npage)%nat then Panic
  else
    match stackLarge st log2npage with
    | b :: _ => Ret (b, set_large log2npage (list_remove b (stackLarge st log2npage)) st)
    | [] =>
        match allocManual npage st with
        | None => Fail "out of memory"%string
        | Some (s, st) => Ret (startAddr s, put_span (set_elemsize n s) st)
        end
    end.

(** [stackalloc], without [debug.efence]; [c] is the P whose cache may be used. *)
Definition stackalloc (c : option nat) (n : Z) (st : pools) : outcome string (Z * Z * pools) :=
  if negb (Z.land n (u32 (n - 1)) =? 0) then Fail "stack size not a power of 2"%string
  else
    let* r :=
      (if is_small n then
         match c with None => stackpoolalloc (stack_order n) st | Some p => cached_alloc p (stack_order n) n st end
       else large_alloc n st) in
    let '(v, st) := r in Ret (v, u64 (v + n), st).

Definition janosSanitizeStack (v n : Z) (m : memory) : memory :=
  if n =? 0 then m else memclrNoHeapPointers v n m.

(** The ways of [stackfree]. *)
Definition cached_free (gcoff : bool) (p order : nat) (x n : Z) (st : pools) : outcome string pools :=
  let* st := (if StackCacheSize <=? snd (stackcache st p order) then stackcacherelease gcoff p order st else Ret st) in
  let '(list, size) := stackcache st p order in
  Ret (set_cache p order (x, u64 (size + n)) (set_next x list st)).
Definition large_stack_free (gcoff : bool) (x : Z) (st : pools) : outcome string pools :=
  match spanOfUnchecked x st with
  | None => Panic
  | Some s =>
      match state s with
      | mSpanManual =>
          if gcoff then freeManual s st
          else
            let log2npage := Z.to_nat (stacklog2 (npages s)) in
            if (stackLargeLists <=? log2npage)%nat then Panic
            else if listed (startAddr s) st then Fail "mSpanList.insert"%string
            else Ret (set_large log2npage (startAddr s :: stackLarge st log2npage) st)
      | _ => Fail "bad span state"%string
      end
  end.

Definition stackfree (gcoff : bool) (c : option nat) (lo hi : Z) (st : pools) : outcome string pools :=
  let n := u64 (hi - lo) in
  if negb (Z.land n (u64 (n - 1)) =? 0) then Fail "stack not a power of 2"%string
  else if u64 (lo + n) <? hi then Fail "bad stack size"%string
  else
    let st := set_pmem (janosSanitizeStack lo n (p_mem st)) st in
    if is_small n then
      match c with None => stackpoolfree gcoff lo (stack_order n) st | Some p => cached_free gcoff p (stack_order n) lo n st end
    else large_stack_free gcoff lo st.

(** [freeStackSpans], at the end of a collection. *)
Definition free_empty (order : nat) (b : Z) (st : pools) : outcome string pools :=
  match spanOfUnchecked b st with
  | None => Panic
  | Some s =>
      if allocCount s =? 0 then
        let* st := pool_remove order b st in freeManual (set_manualFreeList 0 s) (put_span (set_manualFreeList 0 s) st)
      else Ret st
  end.
Definition free_large (i : nat) (b : Z) (st : pools) : outcome string pools :=
  match spanOfUnchecked b st with
  | None => Panic
  | Some s => freeManual s (set_large i (list_remove b (stackLarge st i)) st)
  end.
Fixpoint each {A} (f : A -> pools -> outcome string pools) (l : list A) (st : pools) : outcome string pools :=
  match l with [] => Ret st | x :: l => let* st := f x st in each f l st end.
Definition freeStackSpans (st : pools) : outcome string pools :=
  let* st := each (fun o st => each (free_empty o) (stackpool st o) st) (seq 0 NumStackOrders) st in
  each (fun i st => each (free_large i) (stackLarge st i) st) (seq 0 stackLargeLists) st.
