(* ===== verification/StackClean.v ===== *)
(** * Freed goroutine stacks are clean

    Over StackPool.v: the invariant of the stack pools, with the free lists as lists of
    addresses, and the pools as a machine.  No stack is handed out twice, nothing throws, and
    a free stack that was in use holds zeros beyond the word that links it. *)

From Stdlib Require Import String ZArith Lia List Bool.
From S2P Require Import Prelude Slices SysBits MSpan Sweep StackPool.
Import ListNotations.
#[local] Open Scope outcome_scope.

(** ** Words in memory *)

Lemma store64_inside x v m a : x <= a < x + 8 -> store64 x v m a = nth (Z.to_nat (a - x)) (le_bytes 8 v) 0.
Proof.
  intros H; unfold store64, store_bytes; rewrite length_le_bytes.
  rewrite (proj2 (Z.leb_le _ _)), (proj2 (Z.ltb_lt _ _)) by lia; reflexivity.
Qed.

Lemma store64_outside x v m a : a < x \/ x + 8 <= a -> store64 x v m a = m a.
Proof.
  intros H; unfold store64, store_bytes; rewrite length_le_bytes; destruct (_ && _) eqn:E; [|reflexivity].
  apply andb_true_iff in E as [E1 E2]; apply Z.leb_le in E1; apply Z.ltb_lt in E2; lia.
Qed.

Lemma load64_ext x m m' : (forall a, x <= a < x + 8 -> m' a = m a) -> load64 x m' = load64 x m.
Proof. intros H; unfold load64, load_bytes; f_equal; apply map_ext_in; intros i Hi; apply in_seq in Hi; apply H; lia. Qed.

Lemma nth_map_seq (f : nat -> Z) n i : (i < n)%nat -> nth i (map f (seq 0 n)) 0 = f i.
Proof.
  intros H; rewrite (nth_indep _ 0 (f 0%nat)) by (rewrite length_map, length_seq; exact H).
  rewrite (map_nth f), seq_nth by exact H; reflexivity.
Qed.

Lemma load_store x v m : is_u64 v -> load64 x (store64 x v m) = v.
Proof.
  intros Hv; unfold load64, load_bytes; transitivity (le_val (le_bytes 8 v)); [f_equal|rewrite le_val_bytes; apply Z.mod_small, Hv].
  apply (nth_ext _ _ 0 0); [rewrite length_map, length_seq, length_le_bytes; reflexivity|].
  rewrite length_map, length_seq; intros i Hi; rewrite (nth_map_seq (fun i => store64 x v m (x + Z.of_nat i))) by exact Hi.
  rewrite store64_inside by lia; f_equal; lia.
Qed.

(** ** Linked lists *)

Fixpoint linked (m : memory) (h : Z) (l : list Z) : Prop :=
  match l with
  | [] => h = 0
  | x :: l => h = x /\ 0 < x < 2 ^ 48 /\ linked m (load64 x m) l
  end.

Lemma linked_frame m m' h l : (forall x, In x l -> load64 x m' = load64 x m) -> linked m h l -> linked m' h l.
Proof.
  revert h; induction l as [|x l IH]; intros h F; [auto|]; cbn [linked]; intros (E & P & L).
  split; [exact E|split; [exact P|]]; rewrite (F x (or_introl eq_refl)); apply IH; [|exact L]; intros y Hy; apply F; right; exact Hy.
Qed.

Lemma linked_nil m h l : linked m h l -> h = 0 <-> l = [].
Proof. destruct l as [|x l]; cbn; [tauto|]; intros (-> & P & _); split; [lia|discriminate]. Qed.

Lemma linked_u64 m h l : linked m h l -> is_u64 h.
Proof. destruct l as [|x l]; cbn; [intros ->; unword; lia|]; intros (-> & P & _); change (2 ^ 48) with 281474976710656 in P; unword; lia. Qed.

(** ** Stacks and their spans *)

Definition nslots (o : nat) : Z := StackCacheSize / stack_size o.
Definition small (s : mspan) (o : nat) : Prop := (o < NumStackOrders)%nat /\ npages s = 4 /\ elemsize s = stack_size o.
Definition large (s : mspan) : Prop := exists k, 15 <= k <= 31 /\ elemsize s = 2 ^ k /\ npages s = 2 ^ (k - 13).
Definition stack_slot (s : mspan) (o : nat) (x : Z) : Prop :=
  small s o /\ exists k, 0 <= k < nslots o /\ x = startAddr s + k * stack_size o.

Record shape (s : mspan) : Prop := {
  sh_state : state s = mSpanManual;
  sh_start : 0 < startAddr s;
  sh_align : startAddr s mod 8192 = 0;
  sh_end : span_end s < 2 ^ 48;
  sh_kind : (exists o, small s o) \/ (large s /\ allocCount s = 0);
}.

Lemma order_cases (P : nat -> Prop) : P 0%nat -> P 1%nat -> P 2%nat -> P 3%nat -> forall o, (o < NumStackOrders)%nat -> P o.
Proof. unfold NumStackOrders; intros H0 H1 H2 H3 [|[|[|[|o]]]] Ho; auto; lia. Qed.

Lemma sizes o : (o < NumStackOrders)%nat ->
  2048 <= stack_size o <= 16384 /\ nslots o * stack_size o = 32768 /\ 2 <= nslots o <= 16 /\ stack_size o mod 2048 = 0.
Proof. revert o; apply order_cases; vm_compute; intuition discriminate. Qed.

Lemma size_inj o o' : stack_size o = stack_size o' -> o = o'.
Proof.
  unfold stack_size, fixedStack; rewrite !Z.shiftl_mul_pow2 by lia; intros E.
  assert (P : 2 ^ Z.of_nat o = 2 ^ Z.of_nat o') by lia; apply Z.pow_inj_r in P; lia.
Qed.

Lemma small_order s o o' : small s o -> small s o' -> o = o'.
Proof. intros (_ & _ & E) (_ & _ & E'); apply size_inj; congruence. Qed.

Lemma large_size s : large s -> 32768 <= elemsize s /\ npages s * pageSize = elemsize s /\ 4 <= npages s.
Proof.
  intros (k & Hk & -> & ->); unfold pageSize; change 8192 with (2 ^ 13); rewrite <- Z.pow_add_r by lia.
  replace (k - 13 + 13) with k by lia; split; [change 32768 with (2 ^ 15); apply Z.pow_le_mono_r; lia|split; [reflexivity|]].
  change 4 with (2 ^ 2); apply Z.pow_le_mono_r; lia.
Qed.

Lemma not_small_large s o : small s o -> large s -> False.
Proof. intros (Ho & _ & E) L; destruct (large_size s L) as [L1 _]; destruct (sizes o Ho) as [S _]; lia. Qed.

Lemma in_span_spec x s : in_span x s = true <-> startAddr s <= x < span_end s.
Proof. unfold in_span; rewrite andb_true_iff, Z.leb_le, Z.ltb_lt; reflexivity. Qed.

Lemma slot_inside s o x : stack_slot s o x -> startAddr s <= x /\ x + stack_size o <= span_end s.
Proof.
  intros [(Ho & Np & _) (k & Hk & ->)]; destruct (sizes o Ho) as (S1 & S2 & _); unfold span_end, pageSize; rewrite Np; nia.
Qed.

Lemma slot_in_span s o x : stack_slot s o x -> in_span x s = true.
Proof. intros H; pose proof (slot_inside s o x H); destruct H as [(Ho & _) _]; destruct (sizes o Ho); apply in_span_spec; lia. Qed.

Lemma slot_bounds s o x : shape s -> stack_slot s o x -> 0 < x < 2 ^ 48.
Proof.
  intros [_ H1 _ H2 _] H; pose proof (slot_inside s o x H); destruct H as [(Ho & _) _]; destruct (sizes o Ho) as [? _].
  change (2 ^ 48) with 281474976710656 in *; lia.
Qed.

(** Spans do not overlap. *)
Definition spans_apart (l : list mspan) : Prop :=
  forall s t x, In s l -> In t l -> in_span x s = true -> in_span x t = true -> s = t.

Lemma find_in_span l s x : spans_apart l -> In s l -> in_span x s = true -> find (in_span x) l = Some s.
Proof.
  intros A I X; destruct (find (in_span x) l) as [t|] eqn:E.
  - apply find_some in E as [It Xt]; rewrite (A s t x I It X Xt); reflexivity.
  - pose proof (find_none _ _ E s I); congruence.
Qed.

Lemma slots_disjoint l s o x t o' y : spans_apart l -> In s l -> In t l -> stack_slot s o x -> stack_slot t o' y -> x <> y ->
  x + stack_size o <= y \/ y + stack_size o' <= x.
Proof.
  intros A Is It X Y N; pose proof (slot_inside s o x X) as [X1 X2]; pose proof (slot_inside t o' y Y) as [Y1 Y2].
  assert (Bs : 0 < stack_size o) by (destruct X as [(Ho & _) _]; destruct (sizes o Ho); lia).
  assert (Bt : 0 < stack_size o') by (destruct Y as [(Ho & _) _]; destruct (sizes o' Ho); lia).
  assert (Same : s = t -> x + stack_size o <= y \/ y + stack_size o' <= x).
  { intros <-; destruct X as [Sx (k & Hk & Ex)], Y as [Sy (j & Hj & Ey)]; pose proof (small_order s o o' Sx Sy) as E; subst o'.
    assert (k <> j) by congruence; destruct (Z.lt_ge_cases k j); [left|right]; nia. }
  destruct (Z.le_gt_cases (startAddr s) (startAddr t)).
  - destruct (Z.lt_ge_cases (startAddr t) (span_end s)); [|left; lia].
    apply Same, (A s t (startAddr t)); auto; apply in_span_spec; lia.
  - destruct (Z.lt_ge_cases (startAddr s) (span_end t)); [|right; lia].
    apply Same, (A s t (startAddr s)); auto; apply in_span_spec; lia.
Qed.

(** A stack of [n] bytes at [x]: a slot, or the whole of a large span. *)
Definition stack_at (s : mspan) (x n : Z) : Prop :=
  (exists o, stack_slot s o x /\ n = stack_size o) \/ (large s /\ startAddr s = x /\ elemsize s = n).

Lemma stack_inside s x n : stack_at s x n -> startAddr s <= x /\ x + n <= span_end s /\ 2048 <= n.
Proof.
  intros [(o & Sx & ->)|(L & <- & <-)].
  - pose proof (slot_inside s o x Sx); destruct (sizes o (proj1 (proj1 Sx))) as [S _]; lia.
  - destruct (large_size s L) as (L1 & L2 & _); unfold span_end; lia.
Qed.

Lemma stack_same s x n k : stack_at s x n -> stack_at s x k -> n = k.
Proof.
  intros [(o & Sx & ->)|(L & _ & E)] [(o' & Sx' & ->)|(L' & _ & E')]; [|destruct (not_small_large s o (proj1 Sx) L')|destruct (not_small_large s o' (proj1 Sx') L)|congruence].
  rewrite (small_order s o o' (proj1 Sx) (proj1 Sx')); reflexivity.
Qed.

Lemma stack_in_span s x n : stack_at s x n -> in_span x s = true.
Proof. intros H; destruct (stack_inside s x n H) as (H1 & H2 & H3); apply in_span_spec; lia. Qed.

Lemma stacks_disjoint l s x n t y k : spans_apart l -> In s l -> In t l -> stack_at s x n -> stack_at t y k -> x <> y -> x + n <= y \/ y + k <= x.
Proof.
  intros A Is It X Y N; pose proof (stack_inside s x n X) as (X1 & X2 & X3); pose proof (stack_inside t y k Y) as (Y1 & Y2 & Y3).
  assert (Same : s = t -> x + n <= y \/ y + k <= x).
  { intros <-; destruct X as [(o & Sx & ->)|(L & Ex & En)], Y as [(o' & Sy & ->)|(L' & Ey & Ek)];
      [apply (slots_disjoint l s o x s o' y A Is Is Sx Sy N)|destruct (not_small_large s o (proj1 Sx) L')|destruct (not_small_large s o' (proj1 Sy) L)|congruence]. }
  destruct (Z.le_gt_cases (x + n) y); [auto|]; destruct (Z.le_gt_cases (y + k) x); [auto|].
  apply Same, (A s t (Z.max x y)); auto; apply in_span_spec; lia.
Qed.

(** ** The invariant *)

(** The free lists: of a span and of a cache. *)
Inductive lid : Type :=
| LSpan (b : Z)
| LCache (p o : nat).

Definition lid_eq_dec (l k : lid) : {l = k} + {l <> k}.
Proof. decide equality; apply Z.eq_dec || apply Nat.eq_dec. Defined.

Definition upd_lid {A} (f : lid -> A) (l : lid) (v : A) : lid -> A := fun k => if lid_eq_dec k l then v else f k.

Definition belongs (l : lid) (s : mspan) (o : nat) : Prop :=
  match l with LSpan b => startAddr s = b | LCache _ o' => o' = o end.
Definition external (l : lid) : Prop := match l with LSpan _ => False | _ => True end.

(** What the free lists hold, the stacks in use, and those that ever were. *)
Record ghost : Type := MkGhost { hd : lid -> Z; gl : lid -> list Z; used : list (Z * Z); ever : list (Z * Z) }.

Definition with_list (l : lid) (h : Z) (xs : list Z) (g : ghost) : ghost :=
  MkGhost (upd_lid (hd g) l h) (upd_lid (gl g) l xs) (used g) (ever g).
Definition with_used (u e : list (Z * Z)) (g : ghost) : ghost := MkGhost (hd g) (gl g) u e.

Definition loose (g : ghost) (x : Z) : Prop := (forall l, ~ In x (gl g l)) /\ ~ In x (map fst (used g)).

(** A clean stack is zero beyond the word that may link it. *)
Definition link_bytes (n : Z) : Z := if is_small n then 8 else 0.
Definition clean_stack (m : memory) (x n : Z) : Prop := forall a, x + link_bytes n <= a < x + n -> m a = 0.

Lemma small_size o : (o < NumStackOrders)%nat -> link_bytes (stack_size o) = 8.
Proof. revert o; apply order_cases; reflexivity. Qed.

Record core_ok (g : ghost) (st : pools) : Prop := {
  co_shape : forall s, In s (p_spans st) -> shape s;
  co_apart : spans_apart (p_spans st);
  co_linked : forall l, linked (p_mem st) (hd g l) (gl g l);
  co_nodup : forall l, List.NoDup (gl g l);
  co_sep : forall l l' x, In x (gl g l) -> In x (gl g l') -> l = l';
  co_in : forall l x, In x (gl g l) -> exists s o, In s (p_spans st) /\ stack_slot s o x /\ belongs l s o;
  co_head : forall s, In s (p_spans st) -> hd g (LSpan (startAddr s)) = manualFreeList s;
  co_count : forall s o, In s (p_spans st) -> small s o ->
    allocCount s + Z.of_nat (length (gl g (LSpan (startAddr s)))) = nslots o;
  co_pool : forall o b, In b (stackpool st o) <->
    exists s, In s (p_spans st) /\ small s o /\ startAddr s = b /\ gl g (LSpan b) <> [];
  co_large : forall i b, In b (stackLarge st i) -> exists s, In s (p_spans st) /\ large s /\ startAddr s = b /\
    i = Z.to_nat (stacklog2 (npages s)) /\ ~ In b (map fst (used g));
  co_used : forall x n, In (x, n) (used g) -> (forall l, ~ In x (gl g l)) /\ exists s, In s (p_spans st) /\ stack_at s x n;
  co_used_nodup : List.NoDup (map fst (used g));
  co_used_ever : forall p, In p (used g) -> In p (ever g);
  co_ever : forall x n, In (x, n) (ever g) -> exists s, In s (p_spans st) /\ stack_at s x n;
  co_clean : forall x n, In (x, n) (ever g) -> ~ In x (map fst (used g)) -> clean_stack (p_mem st) x n;
}.

Lemma span_nonempty s : shape s -> startAddr s < span_end s /\ in_span (startAddr s) s = true.
Proof.
  intros [_ _ _ _ K]; assert (L : startAddr s < span_end s).
  { unfold span_end, pageSize; destruct K as [[o (_ & N & _)]|[L _]]; [|destruct (large_size s L) as (_ & _ & N)]; lia. }
  split; [exact L|apply in_span_spec; lia].
Qed.

Lemma span_by_base g st s t : core_ok g st -> In s (p_spans st) -> In t (p_spans st) -> startAddr s = startAddr t -> s = t.
Proof.
  intros C Is It E; pose proof (span_nonempty s (co_shape _ _ C s Is)) as [_ X]; pose proof (span_nonempty t (co_shape _ _ C t It)) as [_ Y].
  apply (co_apart _ _ C s t (startAddr s)); auto; rewrite E; exact Y.
Qed.

Lemma slot_unique g st s o t o' x : core_ok g st -> In s (p_spans st) -> In t (p_spans st) -> stack_slot s o x -> stack_slot t o' x -> s = t /\ o = o'.
Proof.
  intros C Is It X Y; assert (s = t) by (apply (co_apart _ _ C s t x); eauto using slot_in_span); subst t.
  split; [reflexivity|apply (small_order s); [apply X|apply Y]].
Qed.

(** Memory may change outside the links and the clean parts. *)
Lemma core_mem g st m' : core_ok g st ->
  (forall l x, In x (gl g l) -> load64 x m' = load64 x (p_mem st)) ->
  (forall x n s, ~ In x (map fst (used g)) -> In s (p_spans st) -> stack_at s x n -> clean_stack (p_mem st) x n -> clean_stack m' x n) ->
  core_ok g (set_pmem m' st).
Proof.
  intros [c1 c2 c3 c4 c5 c6 c7 c8 c9 c10 c11 c12 c15 c14 c13] HL HC; constructor; cbn [set_pmem p_mem p_spans stackpool stackLarge]; auto.
  - intros l; apply (linked_frame (p_mem st)); [intros x Hx; apply (HL l x Hx)|apply c3].
  - intros x n Ev Nu; destruct (c14 x n Ev) as (s & Is & Sx); apply (HC x n s); auto.
Qed.

(** Writing in a stack in use. *)
Lemma core_write g st m' x n : core_ok g st -> In (x, n) (used g) -> (forall a, a < x \/ x + n <= a -> m' a = p_mem st a) -> core_ok g (set_pmem m' st).
Proof.
  intros C Iu H; destruct (co_used _ _ C x n Iu) as [Nl (s & Is & Sx)].
  assert (D : forall y k t a, y <> x -> In t (p_spans st) -> stack_at t y k -> y <= a < y + k -> m' a = p_mem st a).
  { intros y k t a N It Sy Ha; apply H; destruct (stacks_disjoint (p_spans st) s x n t y k (co_apart _ _ C) Is It Sx Sy); auto; lia. }
  apply core_mem; [exact C| |].
  - intros l y Iy; destruct (co_in _ _ C l y Iy) as (t & o & It & Sy & _); assert (Sy' : stack_at t y (stack_size o)) by (left; eauto).
    apply load64_ext; intros a Ha; apply (D y (stack_size o) t); auto; [intros ->; exact (Nl l Iy)|].
    pose proof (stack_inside t y _ Sy'); lia.
  - intros y k t Nu It Sy Cl a Ha; assert (0 <= link_bytes k) by (unfold link_bytes; destruct (is_small k); lia).
    rewrite (D y k t a); [apply Cl, Ha| | | |lia]; auto; intros ->; apply Nu; exact (in_map fst _ _ Iu).
Qed.

(** Linking a stack that is on no list. *)
Lemma core_store g st s o x v : core_ok g st -> In s (p_spans st) -> stack_slot s o x -> (forall l, ~ In x (gl g l)) -> core_ok g (set_next x v st).
Proof.
  intros C Is Sx Nx; assert (Sx' : stack_at s x (stack_size o)) by (left; eauto); apply core_mem; [exact C| |].
  - intros l y Iy; destruct (co_in _ _ C l y Iy) as (t & o' & It & Sy & _); assert (Sy' : stack_at t y (stack_size o')) by (left; eauto).
    assert (N : x <> y) by (intros ->; exact (Nx l Iy)); pose proof (stacks_disjoint _ s x _ t y _ (co_apart _ _ C) Is It Sx' Sy' N).
    pose proof (stack_inside t y _ Sy'); pose proof (stack_inside s x _ Sx'); apply load64_ext; intros a Ha; apply store64_outside; lia.
  - intros y k t _ It Sy Cl a Ha; assert (0 <= link_bytes k) by (unfold link_bytes; destruct (is_small k); lia).
    rewrite store64_outside; [apply Cl, Ha|]; pose proof (stack_inside s x _ Sx'); destruct (Z.eq_dec x y) as [->|N].
    + assert (s = t) by (apply (co_apart _ _ C s t y); eauto using stack_in_span); subst t; pose proof (stack_same s y _ _ Sx' Sy); subst k.
      rewrite (small_size o (proj1 (proj1 Sx))) in Ha; lia.
    + pose proof (stacks_disjoint _ s x _ t y _ (co_apart _ _ C) Is It Sx' Sy N); lia.
Qed.

(** ** The lists of the caches *)

Lemma upd_same {A} (f : lid -> A) l v : upd_lid f l v l = v.
Proof. unfold upd_lid; destruct (lid_eq_dec l l); congruence. Qed.

Lemma upd_other {A} (f : lid -> A) l v k : k <> l -> upd_lid f l v k = f k.
Proof. intros N; unfold upd_lid; destruct (lid_eq_dec k l); congruence. Qed.

Lemma upd_ext_span {A} (f : lid -> A) l v b : external l -> upd_lid f l v (LSpan b) = f (LSpan b).
Proof. intros E; apply upd_other; intros <-; exact E. Qed.

Lemma upd_in (f : lid -> list Z) l xs k x : In x (upd_lid f l xs k) -> (k = l /\ In x xs) \/ (k <> l /\ In x (f k)).
Proof. unfold upd_lid; destruct (lid_eq_dec k l); auto. Qed.

(** A list made of its own stacks and loose ones stays apart from the others and from the stacks
    in use. *)
Section Update.
Context (g : ghost) (st : pools) (l : lid) (xs : list Z) (C : core_ok g st).
Context (F : forall x, In x xs -> In x (gl g l) \/ loose g x).

Lemma upd_apart k x : In x xs -> k <> l -> ~ In x (gl g k).
Proof. intros Ix Nk Ik; destruct (F x Ix) as [Il|[Lo _]]; [exact (Nk (co_sep _ _ C k l x Ik Il))|exact (Lo k Ik)]. Qed.

Lemma upd_sep k k' x : In x (upd_lid (gl g) l xs k) -> In x (upd_lid (gl g) l xs k') -> k = k'.
Proof.
  intros Ik Ik'; destruct (upd_in _ _ _ _ _ Ik) as [[-> A]|[Nk A]], (upd_in _ _ _ _ _ Ik') as [[-> B]|[Nk' B]]; auto.
  - destruct (upd_apart k' x A Nk' B).
  - destruct (upd_apart k x B Nk A).
  - apply (co_sep _ _ C k k' x A B).
Qed.

Lemma upd_used x n k : In (x, n) (used g) -> ~ In x (upd_lid (gl g) l xs k).
Proof.
  intros Iu Ik; destruct (co_used _ _ C x n Iu) as [U _]; destruct (upd_in _ _ _ _ _ Ik) as [[-> A]|[Nk A]]; [|exact (U k A)].
  destruct (F x A) as [Il|[_ Lo]]; [exact (U l Il)|apply Lo; exact (in_map fst _ _ Iu)].
Qed.

Lemma upd_linked m h k : (forall k, k <> l -> linked m (hd g k) (gl g k)) -> linked m h xs -> linked m (upd_lid (hd g) l h k) (upd_lid (gl g) l xs k).
Proof. intros H L; unfold upd_lid; destruct (lid_eq_dec k l); auto. Qed.

Lemma upd_nodup k : List.NoDup xs -> List.NoDup (upd_lid (gl g) l xs k).
Proof. intros N; unfold upd_lid; destruct (lid_eq_dec k l); [exact N|apply (co_nodup _ _ C)]. Qed.
End Update.

(** Replacing the contents of an external list. *)
Lemma core_external g st l h xs : core_ok g st -> external l -> linked (p_mem st) h xs -> List.NoDup xs ->
  (forall x, In x xs -> (In x (gl g l) \/ loose g x) /\ exists s o, In s (p_spans st) /\ stack_slot s o x /\ belongs l s o) ->
  core_ok (with_list l h xs g) st.
Proof.
  intros C E L N F.
  assert (F' : forall x, In x xs -> In x (gl g l) \/ loose g x) by (intros x Ix; apply (F x Ix)).
  pose proof C as [c1 c2 c3 c4 c5 c6 c7 c8 c9 c10 c11 c12 c15 c14 c13]; constructor; unfold with_list; cbn [hd gl used ever]; auto.
  - intros k; apply upd_linked; auto.
  - intros k; apply (upd_nodup g st l xs C k N).
  - apply (upd_sep g st l xs C F').
  - intros k x Ik; destruct (upd_in _ _ _ _ _ Ik) as [[-> A]|[Nk A]]; [apply (F x A)|apply c6, A].
  - intros s Is; rewrite upd_ext_span by exact E; apply c7, Is.
  - intros s o Is Sm; rewrite upd_ext_span by exact E; apply c8; assumption.
  - intros o b; rewrite c9; rewrite upd_ext_span by exact E; reflexivity.
  - intros x n Iu; split; [intros k; apply (upd_used g st l xs C F' x n k Iu)|apply (c11 x n Iu)].
Qed.

Lemma popped_loose g st l x t h : core_ok g st -> gl g l = x :: t -> loose (with_list l h t g) x.
Proof.
  intros C G; pose proof (co_nodup _ _ C l) as N; rewrite G in N; inversion N as [|? ? N1 N2]; subst.
  assert (Ix : In x (gl g l)) by (rewrite G; left; reflexivity); split.
  - intros k Ik; cbn in Ik; unfold upd_lid in Ik; destruct (lid_eq_dec k l) as [->|Nk]; [exact (N1 Ik)|exact (Nk (co_sep _ _ C k l _ Ik Ix))].
  - intros Iu; cbn in Iu; apply in_map_iff in Iu as ([y n] & Ey & Iu); cbn in Ey; subst y; destruct (co_used _ _ C _ _ Iu) as [U _]; exact (U l Ix).
Qed.

(** The head of an external list is taken off. *)
Lemma ext_pop g st l x t : core_ok g st -> external l -> gl g l = x :: t ->
  let g' := with_list l (next x st) t g in
  core_ok g' st /\ loose g' x /\ hd g l = x /\ is_u64 (next x st) /\
  exists s o, In s (p_spans st) /\ stack_slot s o x /\ belongs l s o.
Proof.
  intros C E G; cbv zeta; pose proof (co_linked _ _ C l) as L; pose proof (co_nodup _ _ C l) as N; rewrite G in L, N.
  destruct L as (Hd & P & L); inversion N as [|? ? N1 N2]; subst.
  assert (Ix : In (hd g l) (gl g l)) by (rewrite G; left; reflexivity).
  split; [apply core_external; auto|split; [apply (popped_loose g st l _ t _ C G)|split; [reflexivity|split; [apply (linked_u64 _ _ _ L)|]]]].
  - intros y Iy; assert (Iy' : In y (gl g l)) by (rewrite G; right; exact Iy); split; [auto|]; apply (co_in _ _ C l y Iy').
  - apply (co_in _ _ C l _ Ix).
Qed.

(** A loose stack is put on an external list. *)
Lemma ext_push g st l x s o : core_ok g st -> external l -> loose g x -> In s (p_spans st) -> stack_slot s o x -> belongs l s o ->
  core_ok (with_list l x (x :: gl g l) g) (set_next x (hd g l) st).
Proof.
  intros C E Lo Is Sx Bl; pose proof (core_store g st s o x (hd g l) C Is Sx (proj1 Lo)) as C'.
  pose proof (slot_bounds s o x (co_shape _ _ C s Is) Sx) as Bx.
  apply core_external; auto.
  - cbn [linked]; split; [reflexivity|split; [exact Bx|]].
    replace (load64 x (p_mem (set_next x (hd g l) st))) with (hd g l); [apply (co_linked _ _ C' l)|].
    symmetry; apply load_store, (linked_u64 _ _ _ (co_linked _ _ C l)).
  - constructor; [apply (proj1 Lo)|apply (co_nodup _ _ C l)].
  - intros y [<-|Iy]; (split; [auto|]); [exists s, o; auto|apply (co_in _ _ C' l y Iy)].
Qed.

(** A stack comes into use, and goes out of it. *)
Lemma use_loose g st x n s : core_ok g st -> loose g x -> In s (p_spans st) -> stack_at s x n -> (forall i, ~ In x (stackLarge st i)) ->
  core_ok (with_used ((x, n) :: used g) ((x, n) :: ever g) g) st.
Proof.
  intros C [Lo Nu] Is K Nl; pose proof C as [c1 c2 c3 c4 c5 c6 c7 c8 c9 c10 c11 c12 c15 c14 c13]; constructor; unfold with_used; cbn [hd gl used ever map fst]; auto.
  - intros i b Ib; destruct (c10 i b Ib) as (t & T1 & T2 & T3 & T4 & T5); exists t; repeat (split; [assumption|]).
    intros [<-|Iu]; [exact (Nl i Ib)|exact (T5 Iu)].
  - intros y k [E|Iu]; [injection E as <- <-; eauto|apply c11, Iu].
  - constructor; assumption.
  - intros p [E|Ip]; [left; exact E|right; apply c15, Ip].
  - intros y k [E|Iy]; [injection E as <- <-; eauto|apply c14, Iy].
  - intros y k [E|Ev] Ny; [injection E as <- <-; destruct Ny; left; reflexivity|]; apply (c13 y k Ev); intros I; apply Ny; right; exact I.
Qed.

(** Going out of use, a stack is clean. *)
Lemma unuse g st x n : core_ok g st -> In (x, n) (used g) -> clean_stack (p_mem st) x n ->
  let g' := with_used (filter (fun p => negb (fst p =? x)) (used g)) (ever g) g in core_ok g' st /\ loose g' x.
Proof.
  intros C Iu Cl; cbv zeta; pose proof C as [c1 c2 c3 c4 c5 c6 c7 c8 c9 c10 c11 c12 c15 c14 c13].
  assert (Sub : forall y, In y (map fst (filter (fun p => negb (fst p =? x)) (used g))) <-> In y (map fst (used g)) /\ y <> x).
  { intros y; rewrite !in_map_iff; split.
    - intros (p & <- & Ip); apply filter_In in Ip as [Ip Np]; apply negb_true_iff, Z.eqb_neq in Np; eauto.
    - intros [(p & <- & Ip) Np]; exists p; split; [reflexivity|]; apply filter_In; split; [exact Ip|apply negb_true_iff, Z.eqb_neq, Np]. }
  split; [constructor; unfold with_used; cbn [hd gl used ever]; auto|split; [apply (c11 x n Iu)|intros Ix; exact (proj2 (proj1 (Sub x) Ix) eq_refl)]].
  - intros i b Ib; destruct (c10 i b Ib) as (t & T1 & T2 & T3 & T4 & T5); exists t; repeat (split; [assumption|]).
    intros I; exact (T5 (proj1 (proj1 (Sub b) I))).
  - intros y k Iy; apply filter_In in Iy as [Iy _]; apply c11, Iy.
  - clear -c12; induction (used g) as [|p l IH]; cbn; [constructor|]; inversion c12 as [|? ? D1 D2]; subst.
    destruct (negb _); cbn; [constructor; [|apply IH, D2]|apply IH, D2].
    intros I; apply D1; apply in_map_iff in I as (q & Eq & I); apply filter_In in I as [I _]; rewrite <- Eq; apply in_map, I.
  - intros p Ip; apply filter_In in Ip as [Ip _]; apply c15, Ip.
  - intros y k Ev Ny; destruct (Z.eq_dec y x) as [->|N]; [|apply (c13 y k Ev); auto; intros I; apply Ny, Sub; auto].
    destruct (c11 x n Iu) as [_ (s & Is & Sx)], (c14 x k Ev) as (t & It & Sy); assert (s = t) by (apply (c2 s t x); eauto using stack_in_span); subst t.
    rewrite <- (stack_same s x n k Sx Sy); exact Cl.
Qed.

(** ** The list of a span *)

Definition respan (h c : Z) (s : mspan) : mspan := set_allocCount c (set_manualFreeList h s).

Lemma respan_small h c s o : small (respan h c s) o <-> small s o.
Proof. reflexivity. Qed.

Lemma respan_slot h c s o x : stack_slot (respan h c s) o x <-> stack_slot s o x.
Proof. reflexivity. Qed.

Lemma respan_in h c s x : in_span x (respan h c s) = in_span x s.
Proof. reflexivity. Qed.

Lemma put_span_in g st s s' t : core_ok g st -> In s (p_spans st) -> startAddr s' = startAddr s ->
  In t (p_spans (put_span s' st)) <-> t = s' \/ (In t (p_spans st) /\ t <> s).
Proof.
  intros C Is E; cbn [put_span set_pspans p_spans]; rewrite in_map_iff; split.
  - intros (u & Eu & Iu); destruct (Z.eqb_spec (startAddr u) (startAddr s')) as [K|K]; [auto|right; subst u].
    split; [exact Iu|intros ->; congruence].
  - intros [->|[It N]]; [exists s; rewrite E, Z.eqb_refl; auto|exists t; split; [|exact It]].
    destruct (Z.eqb_spec (startAddr t) (startAddr s')) as [K|K]; [|reflexivity]; contradiction N; apply (span_by_base g st); congruence.
Qed.

(** A span with another list and count, its pool adjusted. *)
Record respanned (s : mspan) (o : nat) (h c : Z) (xs : list Z) (st st' : pools) : Prop := {
  rp_mem : p_mem st' = p_mem st;
  rp_spans : p_spans st' = p_spans (put_span (respan h c s) st);
  rp_large : stackLarge st' = stackLarge st;
  rp_pool : In (startAddr s) (stackpool st' o) <-> xs <> [];
  rp_pools : forall o' b, (o', b) <> (o, startAddr s) -> In b (stackpool st' o') <-> In b (stackpool st o');
}.

Section Respan.
Context (g : ghost) (st : pools) (s : mspan) (o : nat) (h c : Z) (xs : list Z) (st' : pools).
Context (C : core_ok g st) (Is : In s (p_spans st)) (Sm : small s o) (R : respanned s o h c xs st st').
Let l : lid := LSpan (startAddr s).

Lemma respan_spans t : In t (p_spans st') <-> t = respan h c s \/ (In t (p_spans st) /\ t <> s).
Proof. rewrite (rp_spans _ _ _ _ _ _ _ R); apply (put_span_in g st s (respan h c s) t C Is eq_refl). Qed.

(** A property of a span that its list and count do not matter for survives. *)
Lemma respan_there t (P : mspan -> Prop) : In t (p_spans st) -> P t -> (t = s -> P (respan h c s)) -> exists u, In u (p_spans st') /\ P u.
Proof.
  intros It Pt Ps; destruct (Z.eq_dec (startAddr t) (startAddr s)) as [E|E].
  - pose proof (span_by_base g st t s C It Is E); subst t; exists (respan h c s); split; [apply respan_spans; auto|auto].
  - exists t; split; [apply respan_spans; right; split; [exact It|intros ->; congruence]|exact Pt].
Qed.

Lemma respan_other {A} (f : lid -> A) v t : In t (p_spans st) -> t <> s -> upd_lid f l v (LSpan (startAddr t)) = f (LSpan (startAddr t)).
Proof. intros It Nt; apply upd_other; intros E; injection E as E; apply Nt, (span_by_base g st); auto. Qed.

Lemma respan_pool o' b : In b (stackpool st' o') <->
  exists t, In t (p_spans st') /\ small t o' /\ startAddr t = b /\ upd_lid (gl g) l xs (LSpan b) <> [].
Proof.
  destruct R as [_ _ _ R4 R5]; pose proof (co_pool _ _ C) as c9; split.
  - intros Ib; destruct (Z.eq_dec b (startAddr s)) as [->|Nb].
    + destruct (Nat.eq_dec o' o) as [->|No]; [|apply R5, c9 in Ib as (t & T1 & T2 & T3 & _); [|congruence];
        pose proof (span_by_base g st t s C T1 Is T3); subst t; contradiction (No (small_order s o' o T2 Sm))].
      exists (respan h c s); split; [apply respan_spans; auto|split; [exact Sm|split; [reflexivity|]]]; fold l; rewrite upd_same; apply R4, Ib.
    + apply R5, c9 in Ib as (t & T1 & T2 & T3 & T4); [|congruence].
      exists t; split; [apply respan_spans; right; split; [exact T1|congruence]|split; [exact T2|split; [exact T3|]]].
      rewrite upd_other by (unfold l; congruence); exact T4.
  - intros (t & It & Smt & Eb & Nn); subst b; apply respan_spans in It as [->|[It Nt]].
    + change (startAddr (respan h c s)) with (startAddr s) in *; fold l in Nn; rewrite upd_same in Nn.
      rewrite <- (small_order s o o' Sm Smt); apply R4, Nn.
    + rewrite (respan_other _ _ t It Nt) in Nn; apply R5; [intros [= _ E]; apply Nt, (span_by_base g st); auto|]; apply c9; eauto.
Qed.

Lemma core_span : linked (p_mem st) h xs -> List.NoDup xs -> c + Z.of_nat (length xs) = nslots o ->
  (forall x, In x xs -> (In x (gl g l) \/ loose g x) /\ stack_slot s o x) -> core_ok (with_list l h xs g) st'.
Proof.
  intros L N Cn F; assert (F' : forall x, In x xs -> In x (gl g l) \/ loose g x) by (intros x Ix; apply (F x Ix)).
  pose proof C as [c1 c2 c3 c4 c5 c6 c7 c8 c9 c10 c11 c12 c15 c14 c13]; constructor; unfold with_list; cbn [hd gl used ever]; auto;
    rewrite ?(rp_mem _ _ _ _ _ _ _ R), ?(rp_large _ _ _ _ _ _ _ R).
  - intros t It; apply respan_spans in It as [->|[It _]]; [|auto]; destruct (c1 s Is) as [s1 s2 s3 s4 _]; constructor; auto.
    left; exists o; exact Sm.
  - intros t u x It Iu Xt Xu; apply respan_spans in It as [->|[It Nt]]; apply respan_spans in Iu as [->|[Iu Nu]]; auto.
    + destruct Nu; symmetry; apply (c2 s u x); auto.
    + destruct Nt; apply (c2 t s x); auto.
    + apply (c2 t u x); auto.
  - intros k; apply upd_linked; auto.
  - intros k; apply (upd_nodup g st l xs C k N).
  - apply (upd_sep g st l xs C F').
  - intros k x Ik; destruct (upd_in _ _ _ _ _ Ik) as [[-> A]|[Nk A]].
    + destruct (F x A) as [_ Sx]; exists (respan h c s), o; split; [apply respan_spans; auto|split; [exact Sx|reflexivity]].
    + destruct (c6 k x A) as (t & o' & T1 & T2 & T3).
      destruct (respan_there t (fun t => stack_slot t o' x /\ belongs k t o') T1 (conj T2 T3)) as (u & U1 & U2 & U3); [intros ->; split; [exact T2|destruct k; exact T3]|].
      exists u, o'; auto.
  - intros t It; apply respan_spans in It as [->|[It Nt]]; [unfold l; rewrite upd_same; reflexivity|].
    rewrite (respan_other _ _ t It Nt); apply c7, It.
  - intros t o' It Smt; apply respan_spans in It as [->|[It Nt]].
    + change (startAddr (respan h c s)) with (startAddr s); fold l; rewrite upd_same, <- (small_order s o o' Sm Smt); exact Cn.
    + rewrite (respan_other _ _ t It Nt); apply c8; assumption.
  - apply respan_pool.
  - intros i b Ib; destruct (c10 i b Ib) as (t & T1 & T2 & T3 & T4); exists t; split; [|auto].
    apply respan_spans; right; split; [exact T1|]; intros ->; exact (not_small_large s o Sm T2).
  - intros x n Iu; destruct (c11 x n Iu) as [_ (t & T1 & T2)]; split; [intros k; apply (upd_used g st l xs C F' x n k Iu)|].
    apply (respan_there t (fun t => stack_at t x n) T1 T2); intros ->; exact T2.
  - intros x n Ev; destruct (c14 x n Ev) as (t & T1 & T2); apply (respan_there t (fun t => stack_at t x n) T1 T2); intros ->; exact T2.
  - exact c13.
Qed.
End Respan.

(** ** Spans come from the heap and go back *)

Definition disjoint (s t : mspan) : Prop := forall x, in_span x s = true -> in_span x t = false.

Lemma slots_not_in g st s : core_ok g st -> (forall t, In t (p_spans st) -> disjoint s t) ->
  forall l x, In x (gl g l) -> in_span x s = false.
Proof.
  intros C D l x Ix; destruct (co_in _ _ C l x Ix) as (t & o & T1 & T2 & _); destruct (in_span x s) eqn:E; [|reflexivity].
  pose proof (D t T1 x E) as N; rewrite (slot_in_span t o x T2) in N; discriminate.
Qed.

(** The memory of a stack is outside a disjoint span. *)
Lemma range_outside (l : list mspan) s t x n a : (forall t, In t l -> disjoint s t) -> In t l -> stack_at t x n -> x <= a < x + n -> in_span a s = false.
Proof.
  intros D It Sx Ha; destruct (in_span a s) eqn:E; [|reflexivity]; pose proof (D t It a E) as F.
  pose proof (stack_inside t x n Sx); rewrite (proj2 (in_span_spec a t)) in F by lia; discriminate.
Qed.

Lemma used_outside g st s x n a : core_ok g st -> (forall t, In t (p_spans st) -> disjoint s t) -> In (x, n) (used g) -> x <= a < x + n -> in_span a s = false.
Proof. intros C D Iu Ha; destruct (co_used _ _ C x n Iu) as [_ (t & T1 & T2)]; exact (range_outside _ s t x n a D T1 T2 Ha). Qed.

(** A fresh span joins: it lists [xs]. *)
Definition with_span (s : mspan) (xs : list Z) (g : ghost) : ghost :=
  MkGhost (upd_lid (hd g) (LSpan (startAddr s)) (manualFreeList s)) (upd_lid (gl g) (LSpan (startAddr s)) xs) (used g) (ever g).

Record joined (s : mspan) (xs : list Z) (st st' : pools) : Prop := {
  jn_mem : forall a, in_span a s = false -> p_mem st' a = p_mem st a;
  jn_spans : forall t, In t (p_spans st') <-> t = s \/ In t (p_spans st);
  jn_large : stackLarge st' = stackLarge st;
  jn_pool : forall o b, In b (stackpool st' o) <-> In b (stackpool st o) \/ (b = startAddr s /\ small s o /\ xs <> []);
}.

Lemma core_fresh g st s xs st' : core_ok g st -> shape s ->
  (forall t, In t (p_spans st) -> disjoint s t) ->
  linked (p_mem st') (manualFreeList s) xs -> List.NoDup xs -> (forall x, In x xs -> exists o, stack_slot s o x) ->
  (forall o, small s o -> allocCount s + Z.of_nat (length xs) = nslots o) ->
  joined s xs st st' -> core_ok (with_span s xs g) st'.
Proof.
  intros C Sh D L N F Cn [J1 J2 J3 J4]; set (l := LSpan (startAddr s)).
  pose proof (span_nonempty s Sh) as [_ Sb].
  assert (In_s : forall x, In x xs -> in_span x s = true) by (intros x Ix; destruct (F x Ix) as (o & Sx); exact (slot_in_span s o x Sx)).
  pose proof (slots_not_in g st s C D) as Out.
  assert (F' : forall x, In x xs -> In x (gl g l) \/ loose g x).
  { intros x Ix; right; split; [intros k Ik; pose proof (Out k x Ik); rewrite (In_s x Ix) in *; discriminate|].
    intros Iu; apply in_map_iff in Iu as ([y n] & E & Iu); cbn in E; subst y; destruct (co_used _ _ C x n Iu) as [_ (t & T1 & T2)].
    pose proof (stack_in_span t x n T2) as X; rewrite (D t T1 x (In_s x Ix)) in X; discriminate. }
  assert (Other : forall t, In t (p_spans st) -> LSpan (startAddr t) <> l).
  { intros t It E; injection E as E; pose proof (span_nonempty t (co_shape _ _ C t It)) as [_ T].
    rewrite E in T; rewrite (D t It (startAddr s) Sb) in T; discriminate. }
  assert (Mem : forall t o x a, In t (p_spans st) -> stack_slot t o x -> x <= a < x + stack_size o -> p_mem st' a = p_mem st a).
  { intros t o x a It Sx Ha; apply J1, (range_outside (p_spans st) s t x (stack_size o) a D It); [left; eauto|exact Ha]. }
  pose proof C as [c1 c2 c3 c4 c5 c6 c7 c8 c9 c10 c11 c12 c15 c14 c13]; constructor; unfold with_span; fold l; cbn [hd gl used ever]; rewrite ?J3.
  - intros t It; apply J2 in It as [->|It]; auto.
  - intros t u x It Iu Xt Xu; apply J2 in It as [->|It]; apply J2 in Iu as [->|Iu]; auto.
    + rewrite (D u Iu x Xt) in Xu; discriminate.
    + rewrite (D t It x Xu) in Xt; discriminate.
    + apply (c2 t u x); auto.
  - intros k; apply upd_linked; [|exact L]; intros j _; apply (linked_frame (p_mem st)); [|apply c3].
    intros x Ix; destruct (c6 j x Ix) as (t & o & T1 & T2 & _); apply load64_ext; intros a Ha; apply (Mem t o x a T1 T2).
    destruct T2 as [(Ho & _) _]; destruct (sizes o Ho); lia.
  - intros k; apply (upd_nodup g st l xs C k N).
  - apply (upd_sep g st l xs C F').
  - intros k x Ik; destruct (upd_in _ _ _ _ _ Ik) as [[-> A]|[Nk A]].
    + destruct (F x A) as (o & Sx); exists s, o; split; [apply J2; auto|split; [exact Sx|reflexivity]].
    + destruct (c6 k x A) as (t & o & T1 & T2); exists t, o; split; [apply J2; auto|exact T2].
  - intros t It; apply J2 in It as [->|It]; [unfold l; apply upd_same|]; rewrite upd_other by apply (Other t It); apply c7, It.
  - intros t o It Smt; apply J2 in It as [->|It]; [unfold l; rewrite upd_same; apply Cn, Smt|].
    rewrite upd_other by apply (Other t It); apply c8; assumption.
  - intros o b; rewrite J4, c9; split.
    + intros [(t & T1 & T2 & T3 & T4)|(-> & Sm & Nx)].
      * exists t; split; [apply J2; auto|split; [exact T2|split; [exact T3|]]]; subst b; rewrite upd_other by apply (Other t T1); exact T4.
      * exists s; split; [apply J2; auto|split; [exact Sm|split; [reflexivity|unfold l; rewrite upd_same; exact Nx]]].
    + intros (t & It & Smt & <- & Nn); apply J2 in It as [->|It]; [right; unfold l in Nn; rewrite upd_same in Nn; auto|left].
      rewrite upd_other in Nn by apply (Other t It); eauto.
  - intros i b Ib; destruct (c10 i b Ib) as (t & T1 & T2); exists t; split; [apply J2; auto|exact T2].
  - intros x n Iu; destruct (c11 x n Iu) as [_ (t & T1 & T2)]; split; [intros k; apply (upd_used g st l xs C F' x n k Iu)|].
    exists t; split; [apply J2; auto|exact T2].
  - exact c12.
  - exact c15.
  - intros x n Ev; destruct (c14 x n Ev) as (t & T1 & T2); exists t; split; [apply J2; auto|exact T2].
  - intros x n Ev Nu a Ha; destruct (c14 x n Ev) as (t & It & Sx); assert (0 <= link_bytes n) by (unfold link_bytes; destruct (is_small n); lia).
    rewrite J1; [apply (c13 x n Ev Nu a Ha)|]; apply (range_outside (p_spans st) s t x n a D It Sx); lia.
Qed.

(** A span that nothing else refers to leaves, and what its stacks held is forgotten. *)
Definition without_span (s : mspan) (g : ghost) : ghost :=
  MkGhost (upd_lid (hd g) (LSpan (startAddr s)) 0) (upd_lid (gl g) (LSpan (startAddr s)) []) (used g) (filter (fun p => negb (in_span (fst p) s)) (ever g)).

Record left_out (s : mspan) (st st' : pools) : Prop := {
  lo_mem : p_mem st' = p_mem st;
  lo_spans : forall t, In t (p_spans st') <-> In t (p_spans st) /\ t <> s;
  lo_large : forall i b, In b (stackLarge st' i) -> In b (stackLarge st i) /\ b <> startAddr s;
  lo_pool : forall o b, In b (stackpool st' o) <-> In b (stackpool st o) /\ b <> startAddr s;
}.

Lemma core_drop g st s st' : core_ok g st -> In s (p_spans st) ->
  (forall l x, external l -> In x (gl g l) -> in_span x s = false) -> (forall x n, In (x, n) (used g) -> in_span x s = false) ->
  left_out s st st' -> core_ok (without_span s g) st'.
Proof.
  intros C Is Ext Us [D1 D2 D3 D4]; set (l := LSpan (startAddr s)).
  assert (New : forall k x, In x (upd_lid (gl g) l [] k) -> k <> l /\ In x (gl g k)).
  { intros k x Ix; unfold upd_lid in Ix; destruct (lid_eq_dec k l); [contradiction|auto]. }
  assert (Other : forall t, In t (p_spans st) -> t <> s -> LSpan (startAddr t) <> l).
  { intros t It Nt E; injection E as E; apply Nt, (span_by_base g st); auto. }
  pose proof C as [c1 c2 c3 c4 c5 c6 c7 c8 c9 c10 c11 c12 c15 c14 c13]; constructor; unfold without_span; fold l; cbn [hd gl used ever]; rewrite ?D1.
  - intros t It; apply D2 in It as [It _]; auto.
  - intros t u x It Iu; apply D2 in It as [It _]; apply D2 in Iu as [Iu _]; apply (c2 t u x It Iu).
  - intros k; unfold upd_lid; destruct (lid_eq_dec k l); [reflexivity|apply c3].
  - intros k; unfold upd_lid; destruct (lid_eq_dec k l); [constructor|apply c4].
  - intros k k' x Ik Ik'; apply New in Ik as [_ A]; apply New in Ik' as [_ B]; apply (c5 k k' x A B).
  - intros k x Ik; apply New in Ik as [Nk A]; destruct (c6 k x A) as (t & o & T1 & T2 & T3); exists t, o; split; [|auto].
    apply D2; split; [exact T1|]; intros ->; destruct k as [b|p q]; [apply Nk; unfold l; cbn in T3; congruence|].
    assert (E : in_span x s = false) by (apply (Ext (LCache p q)); [exact I|exact A]); rewrite (slot_in_span s o x T2) in E; discriminate.
  - intros t It; apply D2 in It as [It Nt]; rewrite upd_other by apply (Other t It Nt); apply c7, It.
  - intros t o It Sm; apply D2 in It as [It Nt]; rewrite upd_other by apply (Other t It Nt); apply c8; assumption.
  - intros o b; rewrite D4, c9; split.
    + intros [(t & T1 & T2 & <- & T4) Nb]; assert (Nt : t <> s) by (intros ->; contradiction).
      exists t; split; [apply D2; auto|split; [exact T2|split; [reflexivity|]]]; rewrite upd_other by apply (Other t T1 Nt); exact T4.
    + intros (t & It & Sm & <- & Nn); apply D2 in It as [It Nt]; rewrite upd_other in Nn by apply (Other t It Nt).
      split; [eauto|]; intros E; apply Nt, (span_by_base g st); auto.
  - intros i b Ib; apply D3 in Ib as [Ib Nb]; destruct (c10 i b Ib) as (t & T1 & T2 & T3 & T4); exists t; split; [apply D2; split; [exact T1|congruence]|auto].
  - intros x n Iu; destruct (c11 x n Iu) as [U1 (t & T1 & T2)]; split; [intros k Ik; apply New in Ik as [_ A]; exact (U1 k A)|].
    exists t; split; [apply D2; split; [exact T1|]|exact T2]; intros ->; pose proof (Us x n Iu) as E.
    rewrite (stack_in_span s x n T2) in E; discriminate.
  - exact c12.
  - intros [x n] Iu; apply filter_In; split; [apply c15, Iu|cbn; rewrite (Us x n Iu); reflexivity].
  - intros x n Ev; apply filter_In in Ev as [Ev Nx]; apply negb_true_iff in Nx; cbn in Nx; destruct (c14 x n Ev) as (t & T1 & T2).
    exists t; split; [apply D2; split; [exact T1|intros ->; rewrite (stack_in_span s x n T2) in Nx; discriminate]|exact T2].
  - intros x n Ev Nu; apply filter_In in Ev as [Ev _]; apply (c13 x n Ev Nu).
Qed.
