(* ===== verification/StackLife.v ===== *)
(** * The life of goroutine stacks

    Over StackClean.v: what each operation of StackPool.v does to the free lists, and the
    pools as a machine.  Nothing throws but for want of memory, no stack is handed out twice,
    and a free stack that was in use holds zeros beyond the word that links it. *)

From Stdlib Require Import String ZArith Lia List Bool FinFun.
From S2P Require Import Prelude Slices MathBits SysBits MSpan Sweep StackPool StackClean.
Import ListNotations.
#[local] Open Scope outcome_scope.

(** ** The world between operations *)

(** A run of pages the heap may answer with. *)
Definition run_span (r : Z * Z) : mspan := manual_span (fst r) (snd r).

Record supply_ok (spans : list mspan) (l : list (Z * Z)) : Prop := {
  su_run : forall r, In r l -> 0 < fst r /\ fst r mod 8192 = 0 /\ span_end (run_span r) < 2 ^ 48;
  su_apart : ForallOrdPairs (fun r r' => disjoint (run_span r) (run_span r')) l;
  su_spans : forall r t, In r l -> In t spans -> disjoint (run_span r) t;
}.

Record pools_ok (g : ghost) (st : pools) : Prop := {
  w_core : core_ok g st;
  w_pool : forall o, List.NoDup (stackpool st o);
  w_large : forall i, List.NoDup (stackLarge st i);
  w_supply : supply_ok (p_spans st) (p_supply st);
}.

(** The stacks in use keep their contents. *)
Definition keeps_used (g : ghost) (st st' : pools) : Prop :=
  forall x n a, In (x, n) (used g) -> x <= a < x + n -> p_mem st' a = p_mem st a.

(** Of the stacks that were ever in use only those are forgotten whose pages went back. *)
Definition remembers (g : ghost) (st : pools) (g' : ghost) (st' : pools) : Prop :=
  exists l, p_returned st' = l ++ p_returned st /\
    forall p, In p (ever g) -> (forall r, In r l -> in_span (fst p) (run_span r) = false) -> In p (ever g').

Lemma remembers_refl g st g' st' : p_returned st' = p_returned st -> ever g' = ever g -> remembers g st g' st'.
Proof. intros E Ev; exists []; rewrite Ev; auto. Qed.

Lemma remembers_trans g st g' st' g'' st'' : remembers g st g' st' -> remembers g' st' g'' st'' -> remembers g st g'' st''.
Proof.
  intros (l & E & H) (l' & E' & H'); exists (l' ++ l); split; [rewrite E', E, app_assoc; reflexivity|].
  intros x Ix Nx; apply H'; [apply H; [exact Ix|]|]; intros r Ir; apply Nx, in_or_app; auto.
Qed.

Lemma keeps_refl g st st' : p_mem st' = p_mem st -> keeps_used g st st'.
Proof. intros E x n a _ _; rewrite E; reflexivity. Qed.

#[local] Hint Resolve remembers_refl keeps_refl : core.

(** A step between worlds that leaves the lists outside [P] as they were. *)
Record moves (P : lid -> Prop) (g : ghost) (st : pools) (g' : ghost) (st' : pools) : Prop := {
  mv_world : pools_ok g' st';
  mv_used : used g' = used g;
  mv_ever : remembers g st g' st';
  mv_ext : forall l, external l -> ~ P l -> gl g' l = gl g l /\ hd g' l = hd g l;
  mv_cache : stackcache st' = stackcache st;
  mv_keeps : keeps_used g st st';
}.

Lemma moves_refl P g st : pools_ok g st -> moves P g st g st.
Proof. intros W; constructor; auto. Qed.

Lemma moves_trans P g st g' st' g'' st'' : moves P g st g' st' -> moves P g' st' g'' st'' -> moves P g st g'' st''.
Proof.
  intros [w1 u1 e1 x1 c1 k1] [w2 u2 e2 x2 c2 k2]; constructor; eauto using remembers_trans; try congruence.
  - intros l El Nl; destruct (x1 l El Nl), (x2 l El Nl); split; congruence.
  - intros x n a Iu Ha; rewrite (k2 x n a), (k1 x n a); auto; rewrite u1; exact Iu.
Qed.

Lemma moves_weaken (P Q : lid -> Prop) g st g' st' : (forall l, P l -> Q l) -> moves P g st g' st' -> moves Q g st g' st'.
Proof. intros H [w u e x c k]; constructor; auto. Qed.

(** The stack [x] is on no list and not in use. *)
Record spare (g : ghost) (st : pools) (o : nat) (x : Z) : Prop := {
  sp_loose : loose g x;
  sp_slot : exists s, In s (p_spans st) /\ stack_slot s o x;
}.

(** ** The lists of spans *)

Lemma in_remove b l x : In x (list_remove b l) <-> In x l /\ x <> b.
Proof. unfold list_remove; rewrite filter_In, negb_true_iff, Z.eqb_neq; reflexivity. Qed.

Lemma nodup_remove b l : List.NoDup l -> List.NoDup (list_remove b l).
Proof. apply NoDup_filter. Qed.

Lemma existsb_eqb b l : existsb (Z.eqb b) l = true <-> In b l.
Proof.
  rewrite existsb_exists; split; [intros (x & I & E); apply Z.eqb_eq in E; subst; exact I|intros I; exists b; rewrite Z.eqb_refl; auto].
Qed.

Lemma pool_remove_in o b st : In b (stackpool st o) -> pool_remove o b st = Ret (set_pool o (list_remove b (stackpool st o)) st).
Proof. intros I; unfold pool_remove; rewrite (proj2 (existsb_eqb _ _) I); reflexivity. Qed.

Lemma not_listed b st : (forall o, ~ In b (stackpool st o)) -> (forall i, ~ In b (stackLarge st i)) -> listed b st = false.
Proof.
  intros H1 H2; unfold listed; apply orb_false_iff; split.
  - apply not_true_iff_false; intros E; apply existsb_exists in E as (o & _ & E); apply existsb_eqb in E; exact (H1 o E).
  - apply not_true_iff_false; intros E; apply existsb_exists in E as (i & _ & E); apply existsb_eqb in E; exact (H2 i E).
Qed.

Lemma in_set_pool o l st o' b : In b (stackpool (set_pool o l st) o') <-> (o' = o /\ In b l) \/ (o' <> o /\ In b (stackpool st o')).
Proof. cbn; destruct (Nat.eqb_spec o' o); intuition. Qed.

(** ** A fresh span *)

Definition slots (base : Z) (o n : nat) : list Z := map (fun k => base + Z.of_nat k * stack_size o) (seq 0 n).

Lemma slots_in base o n x : In x (slots base o n) <-> exists k, 0 <= k < Z.of_nat n /\ x = base + k * stack_size o.
Proof.
  unfold slots; rewrite in_map_iff; split.
  - intros (k & <- & Ik); apply in_seq in Ik; exists (Z.of_nat k); split; [lia|reflexivity].
  - intros (k & Hk & ->); exists (Z.to_nat k); rewrite Z2Nat.id by lia; split; [reflexivity|apply in_seq; lia].
Qed.

Lemma slots_nodup base o n : (o < NumStackOrders)%nat -> List.NoDup (slots base o n).
Proof.
  intros Ho; destruct (sizes o Ho) as [S _]; apply Injective_map_NoDup; [intros a b E; nia|apply seq_NoDup].
Qed.

Lemma thread_ok base o m : (o < NumStackOrders)%nat -> 0 < base -> base + 32768 < 2 ^ 48 ->
  linked (fst (thread_stacks base (stack_size o) m)) (snd (thread_stacks base (stack_size o) m)) (rev (slots base o (Z.to_nat (nslots o)))) /\
  forall a, a < base \/ base + 32768 <= a -> fst (thread_stacks base (stack_size o) m) a = m a.
Proof.
  intros Ho Hb He; destruct (sizes o Ho) as (S1 & S2 & S3 & _).
  set (I := fun (k : nat) (r : memory * Z) => linked (fst r) (snd r) (rev (slots base o k)) /\ forall a, a < base \/ base + 32768 <= a -> fst r a = m a).
  change (I (0 + Z.to_nat (StackCacheSize / stack_size o))%nat (thread_stacks base (stack_size o) m)); fold (nslots o).
  apply (for_range_ind I); [split; [reflexivity|auto]|].
  intros k [m' h] Hk [IL IF]; cbn [fst snd] in *; set (x := base + Z.of_nat k * stack_size o).
  assert (Bx : base <= x /\ x + stack_size o <= base + 32768).
  { assert (Z.of_nat k + 1 <= nslots o) by (unfold nslots in *; lia); unfold x; nia. }
  split; cbn [fst snd].
  - unfold slots; rewrite seq_S, map_app, rev_app_distr; fold (slots base o k); cbn [map rev app linked plus]; fold x.
    split; [reflexivity|split; [change (2 ^ 48) with 281474976710656 in *; lia|]]; rewrite load_store by apply (linked_u64 _ _ _ IL).
    apply (linked_frame m'); [|exact IL]; intros y Iy; apply in_rev, slots_in in Iy as (j & Hj & ->).
    apply load64_ext; intros a Ha; apply store64_outside; left; unfold x; nia.
  - intros a Ha; rewrite store64_outside by lia; apply IF, Ha.
Qed.

(** A run from the heap is disjoint from everything, and so is the rest of the supply. *)
Lemma supply_take spans r l s : supply_ok spans (r :: l) -> startAddr s = fst r -> npages s = snd r ->
  (forall t, In t spans -> disjoint s t) /\ 0 < startAddr s /\ startAddr s mod 8192 = 0 /\ span_end s < 2 ^ 48 /\
  forall spans', (forall t, In t spans' -> t = s \/ In t spans) -> supply_ok spans' l.
Proof.
  intros [S1 S2 S3] Es En; assert (Sp : forall x, in_span x s = in_span x (run_span r)) by (intros x; unfold in_span, span_end; rewrite Es, En; reflexivity).
  destruct (S1 r (or_introl eq_refl)) as (R1 & R2 & R3); split; [intros t It x Hx; rewrite Sp in Hx; exact (S3 r t (or_introl eq_refl) It x Hx)|].
  split; [congruence|split; [congruence|split; [unfold span_end in *; cbn in R3; rewrite Es, En; exact R3|]]].
  intros spans' Sub; inversion S2 as [|? ? F1 F2]; subst; constructor.
  - intros r' I'; apply S1; right; exact I'.
  - exact F2.
  - intros r' t I' It x Hx; destruct (Sub t It) as [->|It']; [|exact (S3 r' t (or_intror I') It' x Hx)].
    rewrite Sp; destruct (in_span x (run_span r)) eqn:E; [|reflexivity].
    rewrite Forall_forall in F1; rewrite (F1 r' I' x E) in Hx; discriminate.
Qed.

Lemma put_fresh s s' spans : (forall t, In t spans -> startAddr t <> startAddr s) -> startAddr s' = startAddr s ->
  map (fun t => if startAddr t =? startAddr s' then s' else t) (s :: spans) = s' :: spans.
Proof.
  intros N E; cbn; rewrite E, Z.eqb_refl; f_equal; rewrite <- (map_id spans) at 2; apply map_ext_in; intros t It.
  destruct (Z.eqb_spec (startAddr t) (startAddr s)); [contradiction (N t It)|reflexivity].
Qed.

Lemma fresh_base g st s : core_ok g st -> shape s -> (forall t, In t (p_spans st) -> disjoint s t) -> forall t, In t (p_spans st) -> startAddr t <> startAddr s.
Proof.
  intros C Sh D t It E; pose proof (proj2 (span_nonempty t (co_shape _ _ C t It))) as X; rewrite E in X.
  rewrite (D t It _ (proj2 (span_nonempty s Sh))) in X; discriminate.
Qed.

Lemma fresh_joins s xs m st st' o : small s o -> xs <> [] -> (forall a, in_span a s = false -> m a = p_mem st a) ->
  p_mem st' = m -> p_spans st' = s :: p_spans st -> stackLarge st' = stackLarge st -> stackpool st' = stackpool st ->
  joined s xs st (set_pool o (startAddr s :: stackpool st' o) st').
Proof.
  intros Sm Nx Hm Em Es El Ep; constructor; cbn [set_pool p_mem p_spans stackLarge]; [rewrite Em; exact Hm|rewrite Es; cbn; intuition|exact El|].
  intros o' b'; rewrite in_set_pool, Ep; cbn [In]; split.
  - intros [[-> [<-|I]]|[_ I]]; auto.
  - intros [I|(-> & Sm' & _)]; [destruct (Nat.eq_dec o' o) as [->|]; auto|left; rewrite (small_order s o' o Sm' Sm); auto].
Qed.

(** [fresh_span]: the new span lists all its stacks. *)
Lemma fresh_span_ok g st o : pools_ok g st -> (o < NumStackOrders)%nat ->
  match fresh_span o st with
  | Ret (s, st') => exists g', moves (fun _ => False) g st g' st' /\ In s (p_spans st') /\ small s o /\ gl g' (LSpan (startAddr s)) <> []
  | Fail e => e = "out of memory"%string
  | Panic => False
  end.
Proof.
  intros [C Wp Wl Ws] Ho; unfold fresh_span, allocManual; destruct (p_supply st) as [|[b n] l] eqn:Es; [reflexivity|].
  change (Z.shiftr StackCacheSize 13) with 4; destruct (Z.eqb_spec n 4) as [->|]; [|reflexivity].
  set (s0 := manual_span b 4); cbn [bind]; change (allocCount s0 =? 0) with true; change (manualFreeList s0 =? 0) with true; cbn [negb].
  change (elemsize (set_elemsize (stack_size o) s0)) with (stack_size o); change (startAddr (set_elemsize (stack_size o) s0)) with b.
  cbn [p_mem]; destruct (thread_stacks b (stack_size o) (p_mem st)) as [m h] eqn:Et.
  set (s := set_manualFreeList h (set_elemsize (stack_size o) s0)).
  destruct (supply_take (p_spans st) (b, 4) l s) as (D & B1 & B2 & B3 & Sup); [exact Ws|reflexivity|reflexivity|].
  change (startAddr s) with b in *; unfold span_end in B3; change (startAddr s) with b in B3; change (npages s * pageSize) with 32768 in B3.
  pose proof (thread_ok b o (p_mem st) Ho B1 B3) as [TL TF]; rewrite Et in TL, TF; cbn [fst snd] in TL, TF.
  destruct (sizes o Ho) as (S1 & S2 & S3 & _); set (xs := rev (slots b o (Z.to_nat (nslots o)))) in *.
  assert (Sm : small s o) by (split; [exact Ho|split; reflexivity]).
  assert (Sh : shape s) by (constructor; [reflexivity|exact B1|exact B2|exact B3|left; eauto]).
  pose proof (fresh_base g st s C Sh D) as Fr; change (startAddr s) with b in Fr.
  set (st1 := put_span s _); assert (Sp1 : p_spans st1 = s :: p_spans st) by (apply (put_fresh s0 s); [exact Fr|reflexivity]).
  assert (Np : forall o, ~ In b (stackpool st o)) by (intros o' I; apply (co_pool _ _ C) in I as (t & It & _ & Eb & _); exact (Fr t It Eb)).
  unfold pool_insert; rewrite (not_listed b st1).
  2: exact Np.
  2: { intros i I; apply (co_large _ _ C) in I as (t & It & _ & Eb & _); exact (Fr t It Eb). }
  cbn [bind]; exists (with_span s xs g).
  assert (Nx : xs <> []).
  { intros E; apply (f_equal (@length Z)) in E; unfold xs, slots in E; rewrite length_rev, length_map, length_seq in E; cbn in E; lia. }
  split; [|split; [cbn [set_pool p_spans]; rewrite Sp1; left; reflexivity|split; [exact Sm|]]].
  2: cbn [with_span gl]; change (startAddr s) with b; rewrite upd_same; exact Nx.
  assert (In_s : forall a, a < b \/ b + 32768 <= a <-> in_span a s = false).
  { intros a; rewrite <- not_true_iff_false, in_span_spec; change (startAddr s) with b; change (span_end s) with (b + 32768); lia. }
  assert (J : joined s xs st (set_pool o (b :: stackpool st1 o) st1)).
  { apply (fresh_joins s xs m st st1 o Sm Nx); try reflexivity; [|exact Sp1]; intros a Ha; apply TF, In_s, Ha. }
  constructor; [constructor| | | | |].
  - apply (core_fresh g st s xs (set_pool o (b :: stackpool st1 o) st1) C Sh D TL); [|intros x Ix|intros o' Sm'|exact J].
    + apply NoDup_rev, slots_nodup, Ho.
    + apply in_rev, slots_in in Ix as (k & Hk & ->); exists o; split; [exact Sm|exists k; split; [lia|reflexivity]].
    + rewrite (small_order s o' o Sm' Sm); unfold xs, slots; rewrite length_rev, length_map, length_seq; cbn; lia.
  - intros o'; cbn; destruct (Nat.eqb_spec o' o) as [->|]; [constructor; [apply Np|apply Wp]|apply Wp].
  - exact Wl.
  - apply Sup; intros t It; apply (jn_spans _ _ _ _ J) in It; exact It.
  - reflexivity.
  - apply remembers_refl; [reflexivity|reflexivity].
  - intros k Ek _; split; apply upd_other; intros ->; exact Ek.
  - reflexivity.
  - intros x n a Iu Ha; apply (jn_mem _ _ _ _ J), (used_outside g st s x n a C D Iu Ha).
Qed.

(** ** One stack from a span, and back *)

Lemma u16_small x : 0 <= x < 65536 -> u16 x = x.
Proof. apply Z.mod_small. Qed.

Lemma span_list_slots g st s o x : core_ok g st -> In s (p_spans st) -> small s o -> In x (gl g (LSpan (startAddr s))) ->
  stack_slot s o x /\ In x (slots (startAddr s) o (Z.to_nat (nslots o))).
Proof.
  intros C Is Sm Ix; destruct (co_in _ _ C _ x Ix) as (t & o' & T1 & T2 & T3); cbn in T3.
  pose proof (span_by_base g st t s C T1 Is T3); subst t; pose proof (proj1 T2) as Sm'; rewrite (small_order s o' o Sm' Sm) in T2.
  split; [exact T2|]; destruct T2 as [_ (k & Hk & ->)]; apply slots_in; exists k; split; [lia|reflexivity].
Qed.

Lemma length_slots base o n : length (slots base o n) = n.
Proof. unfold slots; rewrite length_map, length_seq; reflexivity. Qed.

Lemma span_list_length g st s o : core_ok g st -> In s (p_spans st) -> small s o -> Z.of_nat (length (gl g (LSpan (startAddr s)))) <= nslots o.
Proof.
  intros C Is Sm; destruct (sizes o (proj1 Sm)) as (_ & _ & S & _).
  assert (L : (length (gl g (LSpan (startAddr s))) <= length (slots (startAddr s) o (Z.to_nat (nslots o))))%nat); [|rewrite length_slots in L; lia].
  apply NoDup_incl_length; [apply (co_nodup _ _ C)|]; intros x Ix; apply (span_list_slots g st s o x C Is Sm Ix).
Qed.

(** A span without a stack in use lists all of its stacks. *)
Lemma span_full g st s o x : core_ok g st -> In s (p_spans st) -> small s o -> allocCount s = 0 -> stack_slot s o x -> In x (gl g (LSpan (startAddr s))).
Proof.
  intros C Is Sm Z0 [_ (k & Hk & ->)]; pose proof (co_count _ _ C s o Is Sm) as E; rewrite Z0 in E.
  apply (NoDup_length_incl (l' := slots (startAddr s) o (Z.to_nat (nslots o))) (co_nodup _ _ C (LSpan (startAddr s)))).
  - rewrite length_slots; lia.
  - intros x Ix; apply (span_list_slots g st s o x C Is Sm Ix).
  - apply slots_in; exists k; split; [lia|reflexivity].
Qed.

(** Linking a stack that is not in use keeps those that are. *)
Lemma store_keeps g st s o x v : core_ok g st -> In s (p_spans st) -> stack_slot s o x -> ~ In x (map fst (used g)) -> keeps_used g st (set_next x v st).
Proof.
  intros C Is Sx Nx y n a Iu Ha; apply store64_outside; destruct (co_used _ _ C y n Iu) as [_ (t & It & Sy)].
  assert (Sx' : stack_at s x (stack_size o)) by (left; eauto); pose proof (stack_inside s x _ Sx').
  assert (N : x <> y) by (intros ->; apply Nx; exact (in_map fst _ _ Iu)).
  pose proof (stacks_disjoint _ s x _ t y n (co_apart _ _ C) Is It Sx' Sy N); lia.
Qed.

Lemma supply_sub spans spans' l : supply_ok spans l ->
  (forall t, In t spans' -> exists u, In u spans /\ startAddr u = startAddr t /\ npages u = npages t) -> supply_ok spans' l.
Proof.
  intros [S1 S2 S3] H; constructor; auto; intros r t Ir It x Hx; destruct (H t It) as (u & U1 & U2 & U3).
  pose proof (S3 r u Ir U1 x Hx) as E; unfold in_span, span_end in *; rewrite <- U2, <- U3; exact E.
Qed.

Lemma world_respan g st s o h c xs st' : pools_ok g st -> core_ok (with_list (LSpan (startAddr s)) h xs g) st' -> In s (p_spans st) ->
  respanned s o h c xs st st' -> (forall o, List.NoDup (stackpool st' o)) -> p_supply st' = p_supply st -> pools_ok (with_list (LSpan (startAddr s)) h xs g) st'.
Proof.
  intros [C Wp Wl Ws] C' Is [R1 R2 R3 R4 R5] N Es; constructor; auto; [intros i; rewrite R3; apply Wl|].
  rewrite Es; apply (supply_sub (p_spans st)); [exact Ws|]; intros t It; rewrite R2 in It.
  apply (put_span_in g st s (respan h c s) t C Is eq_refl) in It as [->|[It _]]; [exists s|exists t]; auto.
Qed.

Lemma moves_span P g st l h xs st' : ~ external l -> pools_ok (with_list l h xs g) st' -> stackcache st' = stackcache st ->
  p_returned st' = p_returned st -> keeps_used g st st' -> moves P g st (with_list l h xs g) st'.
Proof.
  intros E W Cc Rt K; constructor; auto; intros k Ek _; split; apply upd_other; intros ->; contradiction.
Qed.

Lemma count_u16 g st s o : core_ok g st -> In s (p_spans st) -> small s o -> 0 <= allocCount s <= 16.
Proof.
  intros C Is Sm; pose proof (co_count _ _ C s o Is Sm); pose proof (span_list_length g st s o C Is Sm).
  destruct (sizes o (proj1 Sm)) as (_ & _ & S & _); lia.
Qed.

(** Replacing a span and touching its pool alone. *)
Lemma respanned_pool s o h c xs st l : (forall b, b <> startAddr s -> In b l <-> In b (stackpool st o)) -> (In (startAddr s) l <-> xs <> []) ->
  respanned s o h c xs st (set_pool o l (put_span (respan h c s) st)).
Proof.
  intros H1 H2; constructor; try reflexivity.
  - rewrite in_set_pool; intuition.
  - intros o' b N; rewrite in_set_pool; cbn; destruct (Nat.eq_dec o' o) as [->|]; [|intuition].
    rewrite H1 by congruence; intuition.
Qed.

Lemma respanned_keep s o h c xs st : (In (startAddr s) (stackpool st o) <-> xs <> []) -> respanned s o h c xs st (put_span (respan h c s) st).
Proof. intros H; constructor; try reflexivity; exact H. Qed.

(** [take_stack]. *)
Lemma take_ok g st o s : pools_ok g st -> In s (p_spans st) -> small s o -> gl g (LSpan (startAddr s)) <> [] ->
  exists g' st', take_stack o s st = Ret (manualFreeList s, st') /\ moves (fun _ => False) g st g' st' /\ spare g' st' o (manualFreeList s).
Proof.
  intros W Is Sm Nn; pose proof W as [C Wp Wl Ws]; set (l := LSpan (startAddr s)) in *.
  destruct (gl g l) as [|x t] eqn:G; [contradiction|]; pose proof (co_linked _ _ C l) as L; pose proof (co_nodup _ _ C l) as N; rewrite G in L, N.
  destruct L as (Hd & Px & Lt); unfold l in Hd; rewrite (co_head _ _ C s Is) in Hd; fold l in Hd; inversion N as [|? ? N1 N2]; subst.
  pose proof (co_count _ _ C s o Is Sm) as Cn; fold l in Cn; rewrite G in Cn; cbn [length] in Cn.
  pose proof (count_u16 g st s o C Is Sm) as Bc; set (x := manualFreeList s) in *.
  assert (Ix : In x (gl g l)) by (rewrite G; left; reflexivity).
  destruct (span_list_slots g st s o x C Is Sm Ix) as [Sx _].
  set (st' := let st1 := put_span (respan (next x st) (allocCount s + 1) s) st in
    if next x st =? 0 then set_pool o (list_remove (startAddr s) (stackpool st o)) st1 else st1).
  assert (InP : In (startAddr s) (stackpool st o)) by (apply (co_pool _ _ C); exists s; fold l; rewrite G; split; [exact Is|split; [exact Sm|split; [reflexivity|discriminate]]]).
  assert (Run : take_stack o s st = Ret (x, st')).
  { unfold take_stack; fold x; rewrite (proj2 (Z.eqb_neq x 0)) by lia; rewrite (u16_small (allocCount s + 1)) by lia.
    unfold st'; cbv zeta; change (manualFreeList (set_allocCount _ (set_manualFreeList (next x st) s))) with (next x st).
    destruct (next x st =? 0); [|reflexivity]; rewrite pool_remove_in by exact InP; reflexivity. }
  assert (R : respanned s o (next x st) (allocCount s + 1) t st st').
  { pose proof (linked_nil _ _ _ Lt) as Z0; unfold st'; cbv zeta; destruct (Z.eqb_spec (next x st) 0) as [E|E].
    - apply respanned_pool; [intros b Nb; rewrite in_remove; tauto|]; rewrite in_remove; apply Z0 in E; subst t; intuition.
    - apply respanned_keep; split; [intros _ ->; apply E, Z0; reflexivity|auto]. }
  assert (C' : core_ok (with_list l (next x st) t g) st').
  { apply (core_span g st s o (next x st) (allocCount s + 1) t st' C Is Sm R); auto; [lia|].
    intros y Iy; assert (Iy' : In y (gl g l)) by (rewrite G; right; exact Iy); split; [auto|].
    apply (span_list_slots g st s o y C Is Sm Iy'). }
  exists (with_list l (next x st) t g), st'; split; [exact Run|split].
  - apply moves_span; [intros []| | | |].
    + apply (world_respan g st s o (next x st) (allocCount s + 1) t st' W C' Is R); [|unfold st'; cbv zeta; destruct (_ =? 0); reflexivity].
      intros o'; unfold st'; cbv zeta; destruct (_ =? 0); [|apply Wp]; cbn; destruct (o' =? o)%nat; [apply nodup_remove|]; apply Wp.
    + unfold st'; cbv zeta; destruct (_ =? 0); reflexivity.
    + unfold st'; cbv zeta; destruct (_ =? 0); reflexivity.
    + intros y n a _ _; rewrite (rp_mem _ _ _ _ _ _ _ R); reflexivity.
  - constructor; [apply (popped_loose g st l x t _ C G)|].
    exists (respan (next x st) (allocCount s + 1) s); split; [|exact Sx]; rewrite (rp_spans _ _ _ _ _ _ _ R).
    apply (put_span_in g st s (respan (next x st) (allocCount s + 1) s) _ C Is eq_refl); auto.
Qed.

Lemma find_base g st b s : core_ok g st -> In s (p_spans st) -> startAddr s = b -> spanOfUnchecked b st = Some s.
Proof. intros C Is <-; apply find_in_span; [apply (co_apart _ _ C)|exact Is|apply span_nonempty, (co_shape _ _ C s Is)]. Qed.

Lemma find_stack g st s o x : core_ok g st -> In s (p_spans st) -> stack_slot s o x -> spanOfUnchecked x st = Some s.
Proof. intros C Is Sx; apply find_in_span; [apply (co_apart _ _ C)|exact Is|apply (slot_in_span s o x Sx)]. Qed.

(** [stackpoolalloc]. *)
Lemma stackpoolalloc_ok g st o : pools_ok g st -> (o < NumStackOrders)%nat ->
  match stackpoolalloc o st with
  | Ret (x, st') => exists g', moves (fun _ => False) g st g' st' /\ spare g' st' o x
  | Fail e => e = "out of memory"%string
  | Panic => False
  end.
Proof.
  intros W Ho; unfold stackpoolalloc; destruct (stackpool st o) as [|b l] eqn:E.
  - pose proof (fresh_span_ok g st o W Ho) as F; destruct (fresh_span o st) as [[s st1]|e|]; cbn [bind]; [|exact F|exact F].
    destruct F as (g1 & M1 & Is & Sm & Nn); destruct (take_ok g1 st1 o s (mv_world _ _ _ _ _ M1) Is Sm Nn) as (g2 & st2 & -> & M2 & Sp).
    exists g2; split; [exact (moves_trans _ _ _ _ _ _ _ M1 M2)|exact Sp].
  - destruct (proj1 (co_pool _ _ (w_core _ _ W) o b)) as (s & Is & Sm & Eb & Nn); [rewrite E; left; reflexivity|].
    rewrite (find_base g st b s (w_core _ _ W) Is Eb); cbn [bind]; subst b.
    destruct (take_ok g st o s W Is Sm Nn) as (g2 & st2 & -> & M2 & Sp); eauto.
Qed.

(** A stack of the span is not on its list: one is counted. *)
Lemma count_positive g st s o x : core_ok g st -> In s (p_spans st) -> stack_slot s o x -> loose g x -> 1 <= allocCount s.
Proof.
  intros C Is Sx [Lo _]; pose proof (proj1 Sx) as Sm; pose proof (co_count _ _ C s o Is Sm) as Cn; destruct (sizes o (proj1 Sm)) as (_ & _ & S & _).
  assert (L : (length (x :: gl g (LSpan (startAddr s))) <= length (slots (startAddr s) o (Z.to_nat (nslots o))))%nat); [|rewrite length_slots in L; cbn [length] in L; lia].
  apply NoDup_incl_length; [constructor; [apply Lo|apply (co_nodup _ _ C)]|]; intros y [<-|Iy]; [|apply (span_list_slots g st s o y C Is Sm Iy)].
  destruct Sx as [_ (k & Hk & ->)]; apply slots_in; exists k; split; [lia|reflexivity].
Qed.

(** A span leaves for the heap. *)
Lemma drop_ok g st s st' : pools_ok g st -> In s (p_spans st) ->
  (forall l x, external l -> In x (gl g l) -> in_span x s = false) -> (forall x n, In (x, n) (used g) -> in_span x s = false) ->
  left_out s st st' -> (forall o, List.NoDup (stackpool st' o)) -> (forall i, List.NoDup (stackLarge st' i)) ->
  p_supply st' = p_supply st -> stackcache st' = stackcache st -> p_returned st' = (startAddr s, npages s) :: p_returned st ->
  moves (fun _ => False) g st (without_span s g) st'.
Proof.
  intros W Is He Hu Lo Np Nl Es Ec Er; pose proof (core_drop g st s st' (w_core _ _ W) Is He Hu Lo) as C'; constructor; auto.
  - constructor; auto; rewrite Es; apply (supply_sub (p_spans st)); [apply W|]; intros t It; apply (lo_spans _ _ _ Lo) in It as [It _]; eauto.
  - exists [(startAddr s, npages s)]; split; [exact Er|]; intros x Ix Nx; apply filter_In; split; [exact Ix|].
    specialize (Nx _ (or_introl eq_refl)); unfold in_span in *; cbn in Nx; unfold span_end in *; cbn in Nx; rewrite Nx; reflexivity.
  - intros k Ek _; split; apply upd_other; intros ->; exact Ek.
  - apply keeps_refl, (lo_mem _ _ _ Lo).
Qed.

(** Nothing outside its list refers to an unused small span. *)
Lemma empty_small g st s o : core_ok g st -> In s (p_spans st) -> small s o -> allocCount s = 0 ->
  (forall l x, external l -> In x (gl g l) -> in_span x s = false) /\ (forall x n, In (x, n) (used g) -> in_span x s = false).
Proof.
  intros C Is Sm Z0; split.
  - intros l x El Ix; apply not_true_iff_false; intros X; destruct (co_in _ _ C l x Ix) as (t & o' & T1 & T2 & _).
    assert (t = s) by (apply (co_apart _ _ C t s x); eauto using slot_in_span); subst t; rewrite (small_order s o' o (proj1 T2) Sm) in T2.
    pose proof (span_full g st s o x C Is Sm Z0 T2) as Iy; rewrite (co_sep _ _ C l _ x Ix Iy) in El; exact El.
  - intros x n Iu; apply not_true_iff_false; intros X; destruct (co_used _ _ C x n Iu) as [U (t & T1 & T2)].
    assert (t = s) by (apply (co_apart _ _ C t s x); eauto using stack_in_span); subst t; destruct T2 as [(o' & Sx & _)|(L & _)]; [|exact (not_small_large s o Sm L)]; rewrite (small_order s o' o (proj1 Sx) Sm) in Sx.
    exact (U _ (span_full g st s o x C Is Sm Z0 Sx)).
Qed.

(** [freeManual] on a state where the span is on no list of spans. *)
Definition forget (s : mspan) (st : pools) : pools :=
  MkPools (p_mem st) (filter (fun t => negb (startAddr t =? startAddr s)) (p_spans st)) (stackpool st) (stackLarge st) (stackcache st)
    (p_supply st) ((startAddr s, npages s) :: p_returned st).

Lemma forget_spans g st s t : core_ok g st -> In s (p_spans st) -> In t (p_spans (forget s st)) <-> In t (p_spans st) /\ t <> s.
Proof.
  intros C Is; cbn; rewrite filter_In, negb_true_iff, Z.eqb_neq; split; intros [It N]; (split; [exact It|]); [intros ->; contradiction|].
  intros E; apply N, (span_by_base g st); auto.
Qed.

(** A small span without a stack in use is removed from its pool and returned. *)
Lemma release_ok g st s o st' : pools_ok g st -> In s (p_spans st) -> small s o -> allocCount s = 0 -> In (startAddr s) (stackpool st o) ->
  st' = forget s (set_pool o (list_remove (startAddr s) (stackpool st o)) st) ->
  moves (fun _ => False) g st (without_span s g) st'.
Proof.
  intros W Is Sm Z0 Ip ->; pose proof W as [C Wp Wl Ws]; destruct (empty_small g st s o C Is Sm Z0) as [He Hu].
  apply drop_ok; auto; [constructor; [reflexivity| | |]|].
  - intros t; apply (forget_spans g st s t C Is).
  - intros i b Ib; split; [exact Ib|]; intros ->; destruct (co_large _ _ C i _ Ib) as (t & T1 & T2 & T3 & _).
    pose proof (span_by_base g st t s C T1 Is T3); subst t; exact (not_small_large s o Sm T2).
  - intros o' b; cbn [forget stackpool]; rewrite in_set_pool, in_remove; destruct (Nat.eq_dec o' o) as [->|No]; [intuition|].
    split; [intros [[? _]|[_ I]]; [contradiction|]; split; [exact I|]|intuition]; intros ->; apply No.
    apply (co_pool _ _ C) in I as (t & T1 & T2 & T3 & _); pose proof (span_by_base g st t s C T1 Is T3); subst t; exact (small_order s o' o T2 Sm).
  - intros o'; cbn; destruct (o' =? o)%nat; [apply nodup_remove|]; apply Wp.
Qed.

(** A stack put back on the list of its span, the pool adjusted. *)
Lemma put_back g st s o x st' : pools_ok g st -> In s (p_spans st) -> stack_slot s o x -> loose g x ->
  let l := LSpan (startAddr s) in
  st' = (let st1 := put_span (respan x (allocCount s - 1) s) (set_next x (manualFreeList s) st) in
         if manualFreeList s =? 0 then set_pool o (startAddr s :: stackpool st o) st1 else st1) ->
  moves (fun _ => False) g st (with_list l x (x :: gl g l) g) st' /\ In (respan x (allocCount s - 1) s) (p_spans st') /\ In (startAddr s) (stackpool st' o).
Proof.
  intros W Is Sx Lo l E; pose proof W as [C Wp Wl Ws]; pose proof (proj1 Sx) as Sm.
  pose proof (core_store g st s o x (manualFreeList s) C Is Sx (proj1 Lo)) as C1; set (st1 := set_next x (manualFreeList s) st) in *.
  assert (W1 : pools_ok g st1) by (constructor; assumption).
  pose proof (co_linked _ _ C l) as L; unfold l in L; rewrite (co_head _ _ C s Is) in L; fold l in L; pose proof (linked_nil _ _ _ L) as Z0.
  assert (Inp : In (startAddr s) (stackpool st o) <-> gl g l <> []).
  { rewrite (co_pool _ _ C); split; [intros (t & _ & _ & _ & N); exact N|intros N; exists s; repeat (split; [assumption || reflexivity|]); exact N]. }
  assert (R : respanned s o x (allocCount s - 1) (x :: gl g l) st1 st').
  { subst st'; cbv zeta; destruct (Z.eqb_spec (manualFreeList s) 0) as [E|E]; [apply respanned_pool|apply respanned_keep].
    - intros b Nb; cbn; intuition.
    - split; [discriminate|left; reflexivity].
    - split; [discriminate|]; intros _; apply Inp; intros G; apply E, Z0, G. }
  assert (N1 : List.NoDup (x :: gl g l)) by (constructor; [apply (proj1 Lo)|apply (co_nodup _ _ C)]).
  assert (C' : core_ok (with_list l x (x :: gl g l) g) st').
  { apply (core_span g st1 s o x (allocCount s - 1) (x :: gl g l) st' C1 Is Sm R); auto.
    - cbn [linked]; split; [reflexivity|split; [apply (slot_bounds s o x (co_shape _ _ C s Is) Sx)|]].
      replace (load64 x (p_mem st1)) with (manualFreeList s); [|symmetry; apply load_store, (linked_u64 _ _ _ L)].
      pose proof (co_linked _ _ C1 l) as L1; unfold l in L1; rewrite (co_head _ _ C s Is) in L1; exact L1.
    - cbn [length]; pose proof (co_count _ _ C s o Is Sm); fold l in H; lia.
    - intros y [<-|Iy]; (split; [auto|]); [exact Sx|apply (span_list_slots g st s o y C Is Sm Iy)]. }
  split; [|split; [rewrite (rp_spans _ _ _ _ _ _ _ R); apply (put_span_in g st1 s (respan x (allocCount s - 1) s) _ C1 Is eq_refl); auto|apply (rp_pool _ _ _ _ _ _ _ R); discriminate]].
  apply moves_span; [intros []| | | |].
  - apply (world_respan g st1 s o x (allocCount s - 1) (x :: gl g l) st' W1 C' Is R); [|subst st'; cbv zeta; destruct (_ =? 0); reflexivity].
    intros o'; subst st'; cbv zeta; destruct (Z.eqb_spec (manualFreeList s) 0) as [E|E]; [|apply Wp]; cbn; destruct (Nat.eqb_spec o' o) as [->|]; [|apply Wp].
    constructor; [|apply Wp]; intros I; apply Inp in I; apply I, Z0, E.
  - subst st'; cbv zeta; destruct (_ =? 0); reflexivity.
  - subst st'; cbv zeta; destruct (_ =? 0); reflexivity.
  - intros y n a Iu Ha; rewrite (rp_mem _ _ _ _ _ _ _ R); apply (store_keeps g st s o x _ C Is Sx (proj2 Lo) y n a Iu Ha).
Qed.

(** [stackpoolfree]. *)
Lemma stackpoolfree_ok g st gcoff o x : pools_ok g st -> spare g st o x ->
  exists g' st', stackpoolfree gcoff x o st = Ret st' /\ moves (fun _ => False) g st g' st'.
Proof.
  intros W [Lo (s & Is & Sx)]; pose proof W as [C Wp Wl Ws]; pose proof (proj1 Sx) as Sm; set (l := LSpan (startAddr s)).
  set (st1 := let st1 := put_span (respan x (allocCount s - 1) s) (set_next x (manualFreeList s) st) in
    if manualFreeList s =? 0 then set_pool o (startAddr s :: stackpool st o) st1 else st1).
  destruct (put_back g st s o x st1 W Is Sx Lo eq_refl) as (M & Is' & Ip); fold l in M.
  pose proof (count_positive g st s o x C Is Sx Lo) as B1; pose proof (count_u16 g st s o C Is Sm) as B2.
  unfold stackpoolfree; rewrite (find_stack g st s o x C Is Sx), (sh_state _ (co_shape _ _ C s Is)); rewrite (u16_small (allocCount s - 1)) by lia.
  set (s' := respan x (allocCount s - 1) s) in *.
  assert (Run : forall {A} (k : pools -> outcome string A),
    bind (if manualFreeList s =? 0 then pool_insert o (startAddr s) st else Ret st) (fun st => k (put_span s' (set_next x (manualFreeList s) st))) = k st1).
  { intros A k; unfold st1; cbv zeta; pose proof (co_linked _ _ C l) as L; unfold l in L; rewrite (co_head _ _ C s Is) in L; pose proof (linked_nil _ _ _ L) as Z0.
    destruct (Z.eqb_spec (manualFreeList s) 0) as [E|E]; [|reflexivity]; unfold pool_insert; rewrite not_listed; [reflexivity| |].
    - intros o' I; apply (co_pool _ _ C) in I as (_ & _ & _ & _ & N); apply N, Z0, E.
    - intros i I; destruct (co_large _ _ C i _ I) as (t & T1 & T2 & T3 & _).
      pose proof (span_by_base g st t s C T1 Is T3); subst t; exact (not_small_large s o Sm T2). }
  change (set_allocCount (allocCount s - 1) (set_manualFreeList x s)) with s'; cbv zeta.
  rewrite (Run _ (fun st => if gcoff && (allocCount s' =? 0)
    then let* st := pool_remove o (startAddr s') st in freeManual (set_manualFreeList 0 s') st else Ret st)).
  destruct gcoff; [|exists (with_list l x (x :: gl g l) g), st1; auto].
  cbn [andb]; destruct (Z.eqb_spec (allocCount s') 0) as [E|E]; [|exists (with_list l x (x :: gl g l) g), st1; auto].
  change (startAddr s') with (startAddr s); rewrite (pool_remove_in o _ st1 Ip); cbn [bind]; unfold freeManual; change (allocCount (set_manualFreeList 0 s')) with (allocCount s').
  rewrite E; cbn [negb Z.eqb]; eexists _, _; split; [reflexivity|].
  refine (moves_trans _ _ _ _ _ _ _ M (release_ok _ st1 s' o _ (mv_world _ _ _ _ _ M) Is' Sm E Ip eq_refl)).
Qed.

(** ** The caches *)

Definition of_cache (p o : nat) (l : lid) : Prop := l = LCache p o.

(** A stack goes on the list of a cache, and the first comes off. *)
Lemma push_ok g st p o x : pools_ok g st -> spare g st o x -> let l := LCache p o in
  moves (of_cache p o) g st (with_list l x (x :: gl g l) g) (set_next x (hd g l) st).
Proof.
  intros W [Lo (s & Is & Sx)] l; pose proof W as [C Wp Wl Ws]; constructor; auto.
  - constructor; auto; apply (ext_push g st l x s o C I Lo Is Sx eq_refl).
  - intros k _ Nk; split; apply upd_other; exact Nk.
  - apply (store_keeps g st s o x _ C Is Sx (proj2 Lo)).
Qed.

Lemma pop_ok g st p o x t : pools_ok g st -> let l := LCache p o in gl g l = x :: t ->
  hd g l = x /\ moves (of_cache p o) g st (with_list l (next x st) t g) st /\ spare (with_list l (next x st) t g) st o x.
Proof.
  intros W l G; pose proof W as [C Wp Wl Ws]; destruct (ext_pop g st l x t C I G) as (C' & Lo & Eh & _ & s & o' & Is & Sx & Bl).
  cbn in Bl; subst o'; split; [exact Eh|split; [constructor; auto|constructor; eauto]].
  - constructor; auto.
  - intros k _ Nk; split; apply upd_other; exact Nk.
Qed.

(** Between operations the caches say what the lists hold. *)
Record stackcache_ok (g : ghost) (p o : nat) (v : Z * Z) : Prop := {
  ca_list : hd g (LCache p o) = fst v;
  ca_size : snd v = Z.of_nat (length (gl g (LCache p o))) * stack_size o;
  ca_bound : snd v <= StackCacheSize;
}.

Record settled (g : ghost) (st : pools) : Prop := {
  se_world : pools_ok g st;
  se_cache : forall p o, stackcache_ok g p o (stackcache st p o);
}.

Record steps (g : ghost) (st : pools) (g' : ghost) (st' : pools) : Prop := {
  ss_settled : settled g' st';
  ss_used : used g' = used g;
  ss_ever : remembers g st g' st';
  ss_keeps : keeps_used g st st';
}.

Lemma steps_trans g st g' st' g'' st'' : steps g st g' st' -> steps g' st' g'' st'' -> steps g st g'' st''.
Proof.
  intros [w1 u1 e1 k1] [w2 u2 e2 k2]; constructor; eauto using remembers_trans; [congruence|].
  intros x n a Iu Ha; rewrite (k2 x n a), (k1 x n a); auto; rewrite u1; exact Iu.
Qed.

Lemma moves_steps g st g' st' : settled g st -> moves (fun _ => False) g st g' st' -> steps g st g' st'.
Proof.
  intros [W Ca] [w u e x c k]; constructor; auto; constructor; [exact w|]; intros p o; destruct (Ca p o) as [a b d].
  destruct (x (LCache p o) I (fun f => f)) as [E1 E2]; rewrite c; constructor; rewrite ?E1, ?E2; assumption.
Qed.

Lemma set_cache_steps g st p o v g' st' : settled g st -> moves (of_cache p o) g st g' st' -> stackcache_ok g' p o v -> steps g st g' (set_cache p o v st').
Proof.
  intros [W Ca] [w u e x c k] V; constructor; auto; constructor; [destruct w as [[] ? ? ?]; constructor; [constructor|..]; assumption|].
  intros q r; cbn [set_cache stackcache]; destruct ((q =? p) && (r =? o))%nat eqn:E.
  - apply andb_true_iff in E as [E1 E2]; apply Nat.eqb_eq in E1, E2; subst q r; exact V.
  - destruct (x (LCache q r) I) as [E1 E2].
    + unfold of_cache; intros [= -> ->]; rewrite !Nat.eqb_refl in E; discriminate.
    + destruct (Ca q r) as [a b d]; rewrite c; constructor; rewrite ?E1, ?E2; assumption.
Qed.

(** [stackcacherefill]. *)
Lemma refill_loop_ok p o : (o < NumStackOrders)%nat -> forall fuel g st size, pools_ok g st ->
  size = Z.of_nat (length (gl g (LCache p o))) * stack_size o -> size <= StackCacheSize -> StackCacheSize / 2 <= size + Z.of_nat fuel * stack_size o ->
  match refill_loop fuel o (hd g (LCache p o)) size st with
  | Ret (list, size, st') => exists g', moves (of_cache p o) g st g' st' /\ stackcache_ok g' p o (list, size) /\ StackCacheSize / 2 <= size
  | Fail e => e = "out of memory"%string
  | Panic => False
  end.
Proof.
  intros Ho; destruct (sizes o Ho) as [Ss _]; induction fuel as [|fuel IH]; intros g st size W Es Bs Bf; cbn [refill_loop]; destruct (Z.ltb_spec size (StackCacheSize / 2)) as [Lt|Ge].
  - lia.
  - exists g; split; [apply moves_refl, W|split; [constructor; auto|exact Ge]].
  - pose proof (stackpoolalloc_ok g st o W Ho) as A; destruct (stackpoolalloc o st) as [[x st1]|e|]; cbn [bind]; [|exact A|exact A].
    destruct A as (g1 & M1 & Sp); pose proof (push_ok g1 st1 p o x (mv_world _ _ _ _ _ M1) Sp) as M2; cbv zeta in M2.
    destruct (mv_ext _ _ _ _ _ M1 (LCache p o) I (fun f => f)) as [G1 H1]; rewrite H1 in M2.
    set (g2 := with_list (LCache p o) x (x :: gl g1 (LCache p o)) g1) in *; assert (H2 : hd g2 (LCache p o) = x) by apply upd_same.
    assert (G2 : gl g2 (LCache p o) = x :: gl g (LCache p o)) by (rewrite <- G1; apply upd_same).
    change (StackCacheSize / 2) with 16384 in *; unfold StackCacheSize in *.
    specialize (IH g2 (set_next x (hd g (LCache p o)) st1) (size + stack_size o) (mv_world _ _ _ _ _ M2)); rewrite H2, G2 in IH.
    specialize (IH ltac:(cbn [length]; lia) ltac:(lia) ltac:(lia)).
    destruct (refill_loop fuel o x _ _) as [[[list size'] st']|e|]; [|exact IH|exact IH]; destruct IH as (g' & M & V); exists g'; split; [|exact V].
    apply (moves_trans _ g st g1 st1); [apply (moves_weaken (fun _ => False)); [contradiction|exact M1]|exact (moves_trans _ _ _ _ _ _ _ M2 M)].
  - exists g; split; [apply moves_refl, W|split; [constructor; auto|exact Ge]].
Qed.

Lemma cached_list g p o v m : stackcache_ok g p o v -> linked m (hd g (LCache p o)) (gl g (LCache p o)) -> fst v = 0 <-> gl g (LCache p o) = [].
Proof. intros [E _ _] L; rewrite <- E; apply (linked_nil _ _ _ L). Qed.

Lemma stackcacherefill_ok g st p o : settled g st -> (o < NumStackOrders)%nat -> fst (stackcache st p o) = 0 ->
  match stackcacherefill p o st with
  | Ret st' => exists g', steps g st g' st' /\ gl g' (LCache p o) <> []
  | Fail e => e = "out of memory"%string
  | Panic => False
  end.
Proof.
  intros S Ho Z0; pose proof S as [W Ca]; destruct (sizes o Ho) as [Ss _]; pose proof W as [C _ _ _].
  pose proof (proj1 (cached_list g p o _ _ (Ca p o) (co_linked _ _ C (LCache p o))) Z0) as G; unfold stackcacherefill.
  assert (Es : 0 = Z.of_nat (length (gl g (LCache p o))) * stack_size o) by (rewrite G; reflexivity).
  assert (Bf : StackCacheSize / 2 <= 0 + Z.of_nat 16 * stack_size o) by (change (StackCacheSize / 2) with 16384; lia).
  pose proof (refill_loop_ok p o Ho 16 g st 0 W Es ltac:(discriminate) Bf) as R.
  rewrite (ca_list _ _ _ _ (Ca p o)), Z0 in R; destruct (refill_loop 16 o 0 0 st) as [[[list size] st']|e|]; cbn [bind]; [|exact R|exact R].
  destruct R as (g' & M & V & B); exists g'; split; [exact (set_cache_steps g st p o (list, size) g' st' S M V)|].
  intros G'; pose proof (ca_size _ _ _ _ V) as E; rewrite G' in E; cbn in E; subst size; change (StackCacheSize / 2) with 16384 in B; lia.
Qed.

(** [stackcacherelease] and [stackcache_clear]. *)
Lemma free_first g st gcoff p o x t : pools_ok g st -> gl g (LCache p o) = x :: t ->
  exists g' st', stackpoolfree gcoff (hd g (LCache p o)) o st = Ret st' /\ moves (of_cache p o) g st g' st' /\
    hd g' (LCache p o) = next (hd g (LCache p o)) st /\ gl g' (LCache p o) = t.
Proof.
  intros W G; destruct (pop_ok g st p o x t W G) as (E & M1 & Sp); rewrite E.
  destruct (stackpoolfree_ok _ st gcoff o x (mv_world _ _ _ _ _ M1) Sp) as (g' & st' & R & M2); exists g', st'; split; [exact R|split].
  - apply (moves_trans _ _ _ _ _ _ _ M1), (moves_weaken (fun _ => False)); [contradiction|exact M2].
  - destruct (mv_ext _ _ _ _ _ M2 (LCache p o) I (fun f => f)) as [-> ->]; split; apply upd_same.
Qed.

Lemma release_loop_ok gcoff p o : (o < NumStackOrders)%nat -> forall fuel g st size, pools_ok g st ->
  stackcache_ok g p o (hd g (LCache p o), size) -> (length (gl g (LCache p o)) <= fuel)%nat ->
  exists g' r st', release_loop fuel gcoff o (hd g (LCache p o)) size st = Ret (r, st') /\ moves (of_cache p o) g st g' st' /\ stackcache_ok g' p o r /\
    snd r <= StackCacheSize / 2.
Proof.
  intros Ho; destruct (sizes o Ho) as [Ss _]; induction fuel as [|fuel IH]; intros g st size W V B; cbn [release_loop];
    (destruct (Z.ltb_spec (StackCacheSize / 2) size) as [Lt|Ge]; [|exists g, (hd g (LCache p o), size), st; repeat (split; [auto using moves_refl|]); exact Ge]);
    pose proof V as [_ V2 V3]; cbn [snd] in V2, V3; destruct (gl g (LCache p o)) as [|x t] eqn:G; cbn [length] in *; try lia; try (rewrite V2 in Lt; discriminate).
  destruct (free_first g st gcoff p o x t W G) as (g1 & st1 & -> & M1 & H1 & G1); cbn [bind]; rewrite <- H1.
  change (StackCacheSize / 2) with 16384 in Lt; change StackCacheSize with 32768 in V3; rewrite u64_small by (unword; lia).
  destruct (IH g1 st1 (size - stack_size o) (mv_world _ _ _ _ _ M1)) as (g' & r & st' & -> & M & V'); [constructor; [reflexivity|cbn [snd]; rewrite G1; lia|cbn [snd]; change StackCacheSize with 32768; lia]|rewrite G1; lia|].
  exists g', r, st'; split; [reflexivity|split; [exact (moves_trans _ _ _ _ _ _ _ M1 M)|exact V']].
Qed.

Lemma cache_length g p o v : (o < NumStackOrders)%nat -> stackcache_ok g p o v -> Z.to_nat (snd v / stack_size o) = length (gl g (LCache p o)).
Proof. intros Ho [_ -> _]; destruct (sizes o Ho) as [S _]; rewrite Z.div_mul by lia; apply Nat2Z.id. Qed.

Lemma stackcacherelease_ok g st gcoff p o : settled g st -> (o < NumStackOrders)%nat ->
  exists g' st', stackcacherelease gcoff p o st = Ret st' /\ steps g st g' st' /\ snd (stackcache st' p o) <= StackCacheSize / 2.
Proof.
  intros S Ho; pose proof S as [W Ca]; unfold stackcacherelease; pose proof (Ca p o) as V; pose proof (cache_length g p o _ Ho V) as F.
  destruct (stackcache st p o) as [x size]; cbn [snd] in F; rewrite F; pose proof (ca_list _ _ _ _ V) as E; cbn in E; subst x.
  destruct (release_loop_ok gcoff p o Ho _ g st size W V (le_n _)) as (g' & [x sz] & st' & -> & M & V' & B); cbn [bind]; eexists _, _; split; [reflexivity|].
  split; [exact (set_cache_steps g st p o (x, sz) g' st' S M V')|]; cbn [set_cache stackcache]; rewrite !Nat.eqb_refl; exact B.
Qed.

Lemma clear_loop_ok gcoff p o : forall fuel g st, pools_ok g st -> (length (gl g (LCache p o)) <= fuel)%nat ->
  exists g' st', clear_loop fuel gcoff o (hd g (LCache p o)) st = Ret st' /\ moves (of_cache p o) g st g' st' /\ stackcache_ok g' p o (0, 0).
Proof.
  induction fuel as [|fuel IH]; intros g st W B; pose proof (linked_nil _ _ _ (co_linked _ _ (w_core _ _ W) (LCache p o))) as Z0; cbn [clear_loop];
    (destruct (Z.eqb_spec (hd g (LCache p o)) 0) as [E|E];
     [exists g, st; split; [reflexivity|split; [apply moves_refl, W|constructor; [exact E|cbn; rewrite (proj1 Z0 E); reflexivity|discriminate]]]|]).
  - contradiction E; apply Z0; destruct (gl g (LCache p o)); [reflexivity|cbn in B; lia].
  - destruct (gl g (LCache p o)) as [|x t] eqn:G; [contradiction E; apply Z0, eq_refl|]; cbn [length] in B.
    destruct (free_first g st gcoff p o x t W G) as (g1 & st1 & -> & M1 & H1 & G1); cbn [bind]; rewrite <- H1.
    destruct (IH g1 st1 (mv_world _ _ _ _ _ M1)) as (g' & st' & -> & M & V'); [rewrite G1; lia|].
    exists g', st'; split; [reflexivity|split; [exact (moves_trans _ _ _ _ _ _ _ M1 M)|exact V']].
Qed.

Lemma clear_order_ok g st gcoff p o : settled g st -> (o < NumStackOrders)%nat -> exists g' st', clear_order gcoff p o st = Ret st' /\ steps g st g' st'.
Proof.
  intros S Ho; pose proof S as [W Ca]; unfold clear_order; pose proof (Ca p o) as V; pose proof (cache_length g p o _ Ho V) as F.
  destruct (stackcache st p o) as [x size]; cbn [snd] in F; rewrite F; pose proof (ca_list _ _ _ _ V) as E; cbn in E; subst x.
  destruct (clear_loop_ok gcoff p o _ g st W (le_n _)) as (g' & st' & -> & M & V'); cbn [bind]; eexists _, _; split; [reflexivity|].
  exact (set_cache_steps g st p o (0, 0) g' st' S M V').
Qed.

Lemma steps_refl g st : settled g st -> steps g st g st.
Proof. intros S; constructor; auto. Qed.

Lemma stackcache_clear_ok gcoff p : forall orders g st, settled g st -> Forall (fun o => (o < NumStackOrders)%nat) orders ->
  exists g' st', stackcache_clear gcoff p orders st = Ret st' /\ steps g st g' st'.
Proof.
  induction orders as [|o orders IH]; intros g st S F; cbn [stackcache_clear]; [eauto using steps_refl|]; inversion F as [|? ? F1 F2]; subst.
  destruct (clear_order_ok g st gcoff p o S F1) as (g1 & st1 & -> & S1); cbn [bind].
  destruct (IH g1 st1 (ss_settled _ _ _ _ S1) F2) as (g2 & st2 & -> & S2); exists g2, st2; split; [reflexivity|exact (steps_trans _ _ _ _ _ _ S1 S2)].
Qed.

(** ** Sizes *)

Lemma exponents (P : Z -> Prop) : (forall j, (j < 21)%nat -> P (11 + Z.of_nat j)) -> forall k, 11 <= k <= 31 -> P k.
Proof. intros H k Hk; replace k with (11 + Z.of_nat (Z.to_nat (k - 11))) by lia; apply H; lia. Qed.

Lemma power_mask k : 11 <= k <= 31 -> Z.land (2 ^ k) (u32 (2 ^ k - 1)) = 0 /\ Z.land (2 ^ k) (u64 (2 ^ k - 1)) = 0.
Proof. revert k; apply exponents; intros j Hj; do 21 (destruct j as [|j]; [vm_compute; auto|]); lia. Qed.

Lemma small_power k : 11 <= k <= 14 -> is_small (2 ^ k) = true /\ stack_size (stack_order (2 ^ k)) = 2 ^ k /\ (stack_order (2 ^ k) < NumStackOrders)%nat.
Proof.
  intros Hk; assert (E : k = 11 \/ k = 12 \/ k = 13 \/ k = 14) by lia; destruct E as [->|[->|[->| ->]]]; vm_compute; repeat constructor.
Qed.

Definition large_index (k : Z) : nat := Z.to_nat (k - 12).

Lemma log2_power k : 15 <= k <= 31 -> Z.to_nat (stacklog2 (2 ^ (k - 13))) = large_index k.
Proof.
  intros Hk; unfold stacklog2, large_index; assert (0 < 2 ^ (k - 13)) by (apply Z.pow_pos_nonneg; lia).
  assert (2 ^ (k - 13) <= 2 ^ 18) by (apply Z.pow_le_mono_r; lia); change (2 ^ 18) with 262144 in *.
  rewrite Len64_spec by (unword; lia); unfold bit_length; rewrite (proj2 (Z.eqb_neq _ 0)) by lia; rewrite Z.log2_pow2 by lia; f_equal; lia.
Qed.

Lemma large_power k : 15 <= k <= 31 -> is_small (2 ^ k) = false /\ Z.shiftr (2 ^ k) 13 = 2 ^ (k - 13) /\ (large_index k < stackLargeLists)%nat /\ 32768 <= 2 ^ k <= 2 ^ 31.
Proof.
  intros Hk; assert (32768 <= 2 ^ k) by (change 32768 with (2 ^ 15); apply Z.pow_le_mono_r; lia).
  assert (2 ^ k <= 2 ^ 31) by (apply Z.pow_le_mono_r; lia).
  split; [unfold is_small; change (Z.shiftl fixedStack (Z.of_nat NumStackOrders)) with 32768; rewrite (proj2 (Z.ltb_ge _ _)) by lia; reflexivity|].
  split; [rewrite Z.shiftr_div_pow2 by lia; rewrite Z.pow_sub_r by lia; reflexivity|split; [unfold large_index, stackLargeLists; lia|lia]].
Qed.

(** ** Into use *)

Lemma slot_not_listed g st s o x : core_ok g st -> In s (p_spans st) -> stack_slot s o x -> forall i, ~ In x (stackLarge st i).
Proof.
  intros C Is Sx i Ix; destruct (co_large _ _ C i x Ix) as (t & T1 & T2 & T3 & _).
  assert (s = t) by (apply (co_apart _ _ C s t x); [exact Is|exact T1|exact (slot_in_span s o x Sx)|rewrite <- T3; apply span_nonempty, (co_shape _ _ C t T1)]).
  subst t; exact (not_small_large s o (proj1 Sx) T2).
Qed.

Lemma large_alone g st s l x : core_ok g st -> In s (p_spans st) -> large s -> In x (gl g l) -> in_span x s = false.
Proof.
  intros C Is L Ix; apply not_true_iff_false; intros X; destruct (co_in _ _ C l x Ix) as (t & o & T1 & T2 & _).
  assert (s = t) by (apply (co_apart _ _ C s t x); eauto using slot_in_span); subst t; exact (not_small_large s o (proj1 T2) L).
Qed.

Definition into_use (x n : Z) (g : ghost) : ghost := with_used ((x, n) :: used g) ((x, n) :: ever g) g.

Record in_hand (g : ghost) (st : pools) (lo n : Z) (g' : ghost) (st' : pools) : Prop := {
  al_settled : settled g' st';
  al_used : used g' = (lo, n) :: used g;
  al_ever : remembers g st g' st' /\ In (lo, n) (ever g');
  al_keeps : keeps_used g st st';
  al_bounds : 0 < lo /\ lo + n < 2 ^ 48;
}.

Lemma use_ok g st g1 st1 s x n : steps g st g1 st1 -> In s (p_spans st1) -> stack_at s x n -> loose g1 x -> (forall i, ~ In x (stackLarge st1 i)) ->
  in_hand g st x n (into_use x n g1) st1.
Proof.
  intros [[[C Wp Wl Ws] Ca] U Ev K] Is Sx Lo Nl; pose proof (use_loose g1 st1 x n s C Lo Is Sx Nl) as C'.
  constructor; auto; [constructor; [constructor; assumption|]| | |].
  - intros p o; destruct (Ca p o); constructor; assumption.
  - cbn; rewrite U; reflexivity.
  - split; [|left; reflexivity]; apply (remembers_trans g st g1 st1); [exact Ev|]; exists []; split; [reflexivity|intros y Iy _; right; exact Iy].
  - pose proof (stack_inside s x n Sx); destruct (co_shape _ _ C s Is); lia.
Qed.

Lemma use_spare g st g1 st1 x o : steps g st g1 st1 -> spare g1 st1 o x -> in_hand g st x (stack_size o) (into_use x (stack_size o) g1) st1.
Proof.
  intros S [Lo (s & Is & Sx)]; apply (use_ok g st g1 st1 s); [exact S|exact Is|left; eauto|exact Lo|].
  apply (slot_not_listed g1 st1 s o x (w_core _ _ (se_world _ _ (ss_settled _ _ _ _ S))) Is Sx).
Qed.

Lemma cached_alloc_ok g st p o : settled g st -> (o < NumStackOrders)%nat ->
  match cached_alloc p o (stack_size o) st with
  | Ret (x, st') => exists g', in_hand g st x (stack_size o) g' st'
  | Fail e => e = "out of memory"%string
  | Panic => False
  end.
Proof.
  intros S Ho; unfold cached_alloc; destruct (sizes o Ho) as [Ss _].
  assert (F : match (if fst (stackcache st p o) =? 0 then stackcacherefill p o st else Ret st) with
    | Ret st' => exists g', steps g st g' st' /\ gl g' (LCache p o) <> [] | Fail e => e = "out of memory"%string | Panic => False end).
  { destruct (Z.eqb_spec (fst (stackcache st p o)) 0) as [E|E]; [apply (stackcacherefill_ok g st p o S Ho E)|exists g; split; [apply steps_refl, S|]].
    intros G; apply E, (cached_list g p o _ _ (se_cache _ _ S p o) (co_linked _ _ (w_core _ _ (se_world _ _ S)) _)), G. }
  destruct (if fst (stackcache st p o) =? 0 then _ else _) as [st1|e|]; cbn [bind]; [|exact F|exact F].
  destruct F as (g1 & S1 & Nn); pose proof (ss_settled _ _ _ _ S1) as T1; pose proof (se_cache _ _ T1 p o) as V.
  destruct (gl g1 (LCache p o)) as [|x t] eqn:G; [contradiction|]; destruct (pop_ok g1 st1 p o x t (se_world _ _ T1) G) as (E & M & Sp).
  pose proof (ca_size _ _ _ _ V) as Sz; pose proof (ca_bound _ _ _ _ V) as Bd; rewrite G in Sz; cbn [length] in Sz; change StackCacheSize with 32768 in Bd.
  pose proof (ca_list _ _ _ _ V) as El; rewrite E in El; destruct (stackcache st1 p o) as [x' size]; cbn [fst snd] in *; subst x'.
  assert (Nz : x <> 0).
  { pose proof (co_linked _ _ (w_core _ _ (se_world _ _ T1)) (LCache p o)) as L; rewrite G in L; destruct L as (_ & P & _); lia. }
  rewrite (proj2 (Z.eqb_neq x 0) Nz); rewrite u64_small by (unword; lia); set (g2 := with_list (LCache p o) (next x st1) t g1) in *.
  assert (S2 : steps g1 st1 g2 (set_cache p o (next x st1, size - stack_size o) st1)).
  { apply (set_cache_steps g1 st1 p o _ g2 st1 T1 M); constructor; cbn [fst snd]; [apply upd_same| |change StackCacheSize with 32768; lia].
    unfold g2, with_list; cbn [gl]; rewrite upd_same; lia. }
  exists (into_use x (stack_size o) g2); apply (use_spare _ _ _ _ _ _ (steps_trans _ _ _ _ _ _ S1 S2)); destruct Sp; constructor; assumption.
Qed.

(** A span for one large stack. *)
Definition manual_large (b k : Z) : mspan := set_elemsize (2 ^ k) (manual_span b (2 ^ (k - 13))).

Lemma manual_large_ok b k : 15 <= k <= 31 -> large (manual_large b k) /\ stack_at (manual_large b k) b (2 ^ k).
Proof. intros Hk; assert (L : large (manual_large b k)) by (exists k; repeat split; lia); split; [exact L|right; repeat split; exact L]. Qed.

Lemma fresh_large g st b k l : settled g st -> 15 <= k <= 31 -> p_supply st = (b, 2 ^ (k - 13)) :: l ->
  let s := manual_large b k in
  let st1 := MkPools (p_mem st) (manual_span b (2 ^ (k - 13)) :: p_spans st) (stackpool st) (stackLarge st) (stackcache st) l (p_returned st) in
  exists g', in_hand g st b (2 ^ k) g' (put_span s st1).
Proof.
  intros [W Ca] Hk Es s st1; pose proof W as [C Wp Wl Ws]; destruct (manual_large_ok b k Hk) as [L Sx]; fold s in L, Sx.
  rewrite Es in Ws; destruct (supply_take (p_spans st) (b, 2 ^ (k - 13)) l s Ws eq_refl eq_refl) as (D & B1 & B2 & B3 & Sup).
  assert (Sh : shape s) by (constructor; [reflexivity|exact B1|exact B2|exact B3|right; split; [exact L|reflexivity]]).
  pose proof (fresh_base g st s C Sh D) as Fr; change (startAddr s) with b in Fr.
  assert (Sp1 : p_spans (put_span s st1) = s :: p_spans st) by (apply (put_fresh (manual_span b (2 ^ (k - 13))) s); [exact Fr|reflexivity]).
  assert (J : joined s [] st (put_span s st1)).
  { constructor; [reflexivity|intros t; rewrite Sp1; cbn; intuition|reflexivity|intros o b'; change (stackpool (put_span s st1)) with (stackpool st); intuition]. }
  assert (C' : core_ok (with_span s [] g) (put_span s st1)).
  { apply (core_fresh g st s [] _ C Sh D); [reflexivity|constructor|intros x []|intros o Sm; destruct (not_small_large s o Sm L)|exact J]. }
  assert (S1 : steps g st (with_span s [] g) (put_span s st1)).
  { apply moves_steps; [constructor; assumption|]; constructor; [constructor; auto| | | | |].
    - apply Sup; intros t It; apply (jn_spans _ _ _ _ J) in It; exact It.
    - reflexivity.
    - apply remembers_refl; [reflexivity|reflexivity].
    - intros q Eq _; split; apply upd_other; intros ->; exact Eq.
    - reflexivity.
    - apply keeps_refl; reflexivity. }
  exists (into_use b (2 ^ k) (with_span s [] g)); apply (use_ok g st _ _ s); [exact S1|rewrite Sp1; left; reflexivity|exact Sx| |].
  - split.
    + intros q Iq; pose proof (large_alone _ _ s q b C' ltac:(rewrite Sp1; left; reflexivity) L Iq) as E.
      rewrite (stack_in_span s b _ Sx) in E; discriminate.
    + intros Iu; apply in_map_iff in Iu as ([y n] & Ey & Iu); cbn in Ey; subst y; destruct (co_used _ _ C b n Iu) as [_ (t & It & St)].
      pose proof (stack_in_span t b n St) as X; rewrite (D t It b (stack_in_span s b _ Sx)) in X; discriminate.
  - intros i I; destruct (co_large _ _ C i b I) as (t & It & _ & Eb & _); exact (Fr t It Eb).
Qed.

(** A large free stack leaves its list. *)
Lemma unlist_large g st i b : settled g st -> In b (stackLarge st i) -> let st1 := set_large i (list_remove b (stackLarge st i)) st in
  steps g st g st1 /\ loose g b /\ (forall j, ~ In b (stackLarge st1 j)) /\
  exists s, In s (p_spans st) /\ large s /\ startAddr s = b /\ i = Z.to_nat (stacklog2 (npages s)).
Proof.
  intros S Ib st1; pose proof S as [[C Wp Wl Ws] Ca].
  assert (Sub : forall j x, In x (stackLarge st1 j) -> In x (stackLarge st j) /\ (j = i -> x <> b)).
  { intros j x; cbn [st1 set_large stackLarge]; destruct (Nat.eqb_spec j i) as [->|N]; [|intuition]; rewrite in_remove; intuition. }
  destruct (co_large _ _ C i b Ib) as (s & Is & L & Eb & Ei & Nu); split; [apply moves_steps; [exact S|]|split; [split; [|exact Nu]|split; [|exists s; auto]]].
  - constructor; auto; constructor; auto.
    + destruct C as [c1 c2 c3 c4 c5 c6 c7 c8 c9 c10 c11 c12 c15 c14 c13]; constructor; auto; intros j x Ix; apply (c10 j x), (Sub j x Ix).
    + intros j; cbn [st1 set_large stackLarge]; destruct (Nat.eqb_spec j i) as [->|N]; [apply nodup_remove|]; apply Wl.
  - intros q Iq; pose proof (large_alone _ _ s q b C Is L Iq) as E; subst b; rewrite (proj2 (span_nonempty s (co_shape _ _ C s Is))) in E; discriminate.
  - intros j Ij; destruct (Sub j b Ij) as [Ij' Nb]; apply Nb; [|reflexivity]; destruct (co_large _ _ C j b Ij') as (t & It & _ & Et & Ej & _).
    pose proof (span_by_base g st t s C It Is ltac:(congruence)); subst t; congruence.
Qed.

Lemma reuse_large g st k b l : settled g st -> 15 <= k <= 31 -> stackLarge st (large_index k) = b :: l ->
  exists g', in_hand g st b (2 ^ k) g' (set_large (large_index k) (list_remove b (b :: l)) st).
Proof.
  intros S Hk El; destruct (unlist_large g st (large_index k) b S) as (S1 & Lo & Nl & s & Is & L & Eb & Ei); [rewrite El; left; reflexivity|].
  rewrite El in S1, Nl; exists (into_use b (2 ^ k) g); apply (use_ok g st g _ s); [exact S1|exact Is| |exact Lo|exact Nl].
  right; split; [exact L|split; [exact Eb|]]; destruct L as (j & Hj & Ej & Nj); rewrite Nj, log2_power in Ei by exact Hj.
  rewrite Ej; f_equal; unfold large_index in Ei; lia.
Qed.

Lemma large_alloc_ok g st k : settled g st -> 15 <= k <= 31 ->
  match large_alloc (2 ^ k) st with
  | Ret (x, st') => exists g', in_hand g st x (2 ^ k) g' st'
  | Fail e => e = "out of memory"%string
  | Panic => False
  end.
Proof.
  intros S Hk; unfold large_alloc; destruct (large_power k Hk) as (_ & -> & B & _); rewrite log2_power by exact Hk.
  rewrite (proj2 (Nat.leb_gt _ _) B); destruct (stackLarge st (large_index k)) as [|b l] eqn:E; [|apply (reuse_large g st k b l S Hk E)].
  unfold allocManual; destruct (p_supply st) as [|[b n] l] eqn:Es; [reflexivity|]; destruct (Z.eqb_spec n (2 ^ (k - 13))) as [->|]; [|reflexivity].
  exact (fresh_large g st b k l S Hk Es).
Qed.

(** [stackalloc]. *)
Lemma stackalloc_ok g st c k : settled g st -> 11 <= k <= 31 ->
  match stackalloc c (2 ^ k) st with
  | Ret (lo, hi, st') => hi = lo + 2 ^ k /\ exists g', in_hand g st lo (2 ^ k) g' st'
  | Fail e => e = "out of memory"%string
  | Panic => False
  end.
Proof.
  intros S Hk; unfold stackalloc; rewrite (proj1 (power_mask k Hk)); cbn [negb Z.eqb].
  assert (A : match (if is_small (2 ^ k) then match c with None => stackpoolalloc (stack_order (2 ^ k)) st | Some p => cached_alloc p (stack_order (2 ^ k)) (2 ^ k) st end else large_alloc (2 ^ k) st) with
    | Ret (x, st') => exists g', in_hand g st x (2 ^ k) g' st' | Fail e => e = "out of memory"%string | Panic => False end).
  { destruct (Z.le_gt_cases k 14) as [Sm|Lg]; [|destruct (large_power k ltac:(lia)) as (-> & _); apply large_alloc_ok; [exact S|lia]].
    destruct (small_power k ltac:(lia)) as (-> & Ez & Ho); destruct c as [p|]; [pose proof (cached_alloc_ok g st p _ S Ho) as A; rewrite Ez in A; exact A|].
    pose proof (stackpoolalloc_ok g st _ (se_world _ _ S) Ho) as A; destruct (stackpoolalloc _ st) as [[x st']|e|]; [|exact A|exact A].
    destruct A as (g' & M & Sp); pose proof (use_spare g st g' st' x _ (moves_steps _ _ _ _ S M) Sp) as R; rewrite Ez in R; eauto. }
  destruct (if is_small (2 ^ k) then _ else _) as [[x st']|e|]; cbn [bind]; [|exact A|exact A].
  destruct A as (g' & A); split; [|eauto]; destruct (al_bounds _ _ _ _ _ _ A) as [B1 B2]; change (2 ^ 48) with 281474976710656 in B2.
  assert (0 < 2 ^ k) by (apply Z.pow_pos_nonneg; lia); apply u64_small; unword; lia.
Qed.

(** ** Out of use *)

Lemma stack_power s x n : stack_at s x n -> exists k, 11 <= k <= 31 /\ n = 2 ^ k /\
  if k <=? 14 then stack_slot s (stack_order n) x else large s /\ startAddr s = x.
Proof.
  intros [(o & Sx & ->)|(L & Ex & <-)].
  - exists (11 + Z.of_nat o); pose proof (proj1 (proj1 Sx)) as Ho; revert o Ho Sx.
    apply (order_cases (fun o => stack_slot s o x -> _)); intros Sx; (split; [lia|split; [reflexivity|exact Sx]]).
  - destruct L as (k & Hk & E & Np); exists k; split; [lia|split; [exact E|]].
    rewrite (proj2 (Z.leb_gt k 14)) by lia; split; [exists k; auto|exact Ex].
Qed.

Definition out_of_use (x : Z) (g : ghost) : ghost := with_used (filter (fun p => negb (fst p =? x)) (used g)) (ever g) g.

Lemma unuse_ok g st x n : settled g st -> In (x, n) (used g) -> clean_stack (p_mem st) x n -> settled (out_of_use x g) st /\ loose (out_of_use x g) x.
Proof.
  intros [[C Wp Wl Ws] Ca] Iu Cl; destruct (unuse g st x n C Iu Cl) as [C' Lo]; split; [|exact Lo].
  constructor; [constructor; assumption|]; intros p o; destruct (Ca p o); constructor; assumption.
Qed.

Record given_back (g : ghost) (st : pools) (x : Z) (g' : ghost) (st' : pools) : Prop := {
  fr_settled : settled g' st';
  fr_used : used g' = filter (fun p => negb (fst p =? x)) (used g);
  fr_ever : remembers g st g' st';
  fr_keeps : forall y n a, In (y, n) (used g) -> y <> x -> y <= a < y + n -> p_mem st' a = p_mem st a;
}.

Lemma freed_steps g st x n g1 st1 g' st' : steps g st g1 st1 -> In (x, n) (used g) -> clean_stack (p_mem st1) x n ->
  steps (out_of_use x g1) st1 g' st' -> given_back g st x g' st'.
Proof.
  intros [S1 U1 E1 K1] Iu Cl [S2 U2 E2 K2]; constructor; auto.
  - rewrite U2; cbn; rewrite U1; reflexivity.
  - apply (remembers_trans g st g1 st1); [exact E1|]; apply (remembers_trans _ _ (out_of_use x g1) st1); auto.
  - intros y k a Iy N Ha; rewrite (K2 y k a); [apply (K1 y k a Iy Ha)| |exact Ha].
    cbn; rewrite U1; apply filter_In; split; [exact Iy|apply negb_true_iff, Z.eqb_neq, N].
Qed.

(** [janosSanitizeStack]. *)
Lemma sanitize_spec x n m a : janosSanitizeStack x n m a = if (x <=? a) && (a <? x + n) then 0 else m a.
Proof.
  unfold janosSanitizeStack, memclrNoHeapPointers; destruct (Z.eqb_spec n 0) as [->|_]; [|reflexivity].
  destruct (Z.leb_spec x a), (Z.ltb_spec a (x + 0)); try reflexivity; lia.
Qed.

Lemma sanitized g st x n : settled g st -> In (x, n) (used g) -> let st1 := set_pmem (janosSanitizeStack x n (p_mem st)) st in
  settled g st1 /\ clean_stack (p_mem st1) x n /\ forall y k a, In (y, k) (used g) -> y <> x -> y <= a < y + k -> p_mem st1 a = p_mem st a.
Proof.
  intros [[C Wp Wl Ws] Ca] Iu st1; assert (Z0 : 0 <= link_bytes n) by (unfold link_bytes; destruct (is_small n); lia).
  assert (Out : forall a, a < x \/ x + n <= a -> p_mem st1 a = p_mem st a).
  { intros a Ha; cbn; rewrite sanitize_spec; destruct (Z.leb_spec x a), (Z.ltb_spec a (x + n)); try reflexivity; lia. }
  split; [constructor; [constructor; auto; apply (core_write g st _ x n C Iu Out)|exact Ca]|split].
  - intros a Ha; cbn; rewrite sanitize_spec; rewrite (proj2 (Z.leb_le _ _)), (proj2 (Z.ltb_lt _ _)) by lia; reflexivity.
  - intros y k a Iy N Ha; apply Out; destruct (co_used _ _ C x n Iu) as [_ (s & Is & Sx)], (co_used _ _ C y k Iy) as [_ (t & It & Sy)].
    destruct (stacks_disjoint _ s x n t y k (co_apart _ _ C) Is It Sx Sy); auto; lia.
Qed.

(** The stack goes to a cache. *)
Lemma cached_free_ok g st gcoff p o s x n : settled g st -> In (x, n) (used g) -> clean_stack (p_mem st) x n -> In s (p_spans st) ->
  stack_slot s o x -> n = stack_size o -> exists g' st', cached_free gcoff p o x n st = Ret st' /\ given_back g st x g' st'.
Proof.
  intros S Iu Cl Is Sx En; pose proof (proj1 (proj1 Sx)) as Ho; destruct (sizes o Ho) as (Ss & Sn & _); unfold cached_free.
  assert (R : exists g1 st1, (if StackCacheSize <=? snd (stackcache st p o) then stackcacherelease gcoff p o st else Ret st) = Ret st1 /\
    steps g st g1 st1 /\ snd (stackcache st1 p o) < StackCacheSize).
  { destruct (Z.leb_spec StackCacheSize (snd (stackcache st p o))) as [L|L]; [|exists g, st; auto using steps_refl].
    destruct (stackcacherelease_ok g st gcoff p o S Ho) as (g1 & st1 & E & S1 & B); exists g1, st1; split; [exact E|split; [exact S1|]].
    change (StackCacheSize / 2) with 16384 in B; change StackCacheSize with 32768; lia. }
  destruct R as (g1 & st1 & -> & S1 & B); cbn [bind]; pose proof (ss_settled _ _ _ _ S1) as T1.
  assert (Cl1 : clean_stack (p_mem st1) x n).
  { intros a Ha; assert (0 <= link_bytes n) by (unfold link_bytes; destruct (is_small n); lia).
    rewrite (ss_keeps _ _ _ _ S1 x n a Iu) by lia; apply Cl, Ha. }
  assert (Iu1 : In (x, n) (used g1)) by (rewrite (ss_used _ _ _ _ S1); exact Iu).
  destruct (unuse_ok g1 st1 x n T1 Iu1 Cl1) as [T2 Lo]; set (g2 := out_of_use x g1) in *.
  destruct (co_used _ _ (w_core _ _ (se_world _ _ T1)) x n Iu1) as [_ (t & It & St)].
  assert (Sp : spare g2 st1 o x).
  { constructor; [exact Lo|]; exists t; split; [exact It|]; destruct St as [(o' & St & En')|(L & _ & En')].
    - rewrite (size_inj o o') by congruence; exact St.
    - destruct (large_size t L); change (2 ^ 15) with 32768; lia. }
  pose proof (push_ok g2 st1 p o x (se_world _ _ T2) Sp) as M; cbv zeta in M; pose proof (se_cache _ _ T2 p o) as [V1 V2 V3].
  destruct (stackcache st1 p o) as [list size]; cbn [fst snd] in *; rewrite V1 in M; change StackCacheSize with 32768 in *.
  assert (Bn : size + n <= 32768).
  { subst n; clear -V2 Sn Ss B; set (len := Z.of_nat _) in V2; assert (len + 1 <= nslots o) by nia; nia. }
  rewrite u64_small by (unword; lia); eexists _, _; split; [reflexivity|]; apply (freed_steps g st x n g1 st1 _ _ S1 Iu Cl1).
  apply (set_cache_steps g2 st1 p o (x, size + n) _ _ T2 M); constructor; cbn [fst snd]; [apply upd_same| |exact Bn].
  unfold with_list; cbn [gl]; rewrite upd_same; cbn [length]; lia.
Qed.

(** A large stack goes to the heap, or to its list. *)
Lemma used_span g st s t x n : core_ok g st -> In s (p_spans st) -> large s -> In (t, n) (used g) -> startAddr s = x -> t <> x -> in_span t s = false.
Proof.
  intros C Is L Iu Ex N; apply not_true_iff_false; intros X; destruct (co_used _ _ C t n Iu) as [_ (u & Iu' & St)].
  assert (u = s) by (apply (co_apart _ _ C u s t); eauto using stack_in_span); subst u.
  destruct St as [(o & Sx & _)|(_ & E & _)]; [exact (not_small_large s o (proj1 Sx) L)|congruence].
Qed.

Lemma forget_large g st s : settled g st -> In s (p_spans st) -> large s -> loose g (startAddr s) -> (forall i, ~ In (startAddr s) (stackLarge st i)) ->
  exists g', steps g st g' (forget s st).
Proof.
  intros S Is L [_ Nu] Nl; pose proof S as [W Ca]; pose proof W as [C Wp Wl Ws].
  assert (Np : forall o, ~ In (startAddr s) (stackpool st o)).
  { intros o I; apply (co_pool _ _ C) in I as (t & It & Sm & E & _); pose proof (span_by_base g st t s C It Is E); subst t; exact (not_small_large s o Sm L). }
  exists (without_span s g); apply moves_steps; [exact S|]; apply drop_ok; auto.
  - intros l x _ Ix; exact (large_alone g st s l x C Is L Ix).
  - intros x n Iu; apply (used_span g st s x (startAddr s) n C Is L Iu eq_refl); intros ->; apply Nu; exact (in_map fst _ _ Iu).
  - constructor; [reflexivity|intros t; apply (forget_spans g st s t C Is)|intros i b Ib; split; [exact Ib|intros ->; exact (Nl i Ib)]|].
    intros o b; split; [intros Ib; split; [exact Ib|intros ->; exact (Np o Ib)]|tauto].
Qed.

Lemma list_large g st s : settled g st -> In s (p_spans st) -> large s -> loose g (startAddr s) -> (forall i, ~ In (startAddr s) (stackLarge st i)) ->
  let i := Z.to_nat (stacklog2 (npages s)) in steps g st g (set_large i (startAddr s :: stackLarge st i) st).
Proof.
  intros S Is L [_ Nu] Nl i; apply moves_steps; [exact S|]; pose proof S as [[C Wp Wl Ws] Ca]; constructor; auto.
  constructor; auto; [destruct C as [c1 c2 c3 c4 c5 c6 c7 c8 c9 c10 c11 c12 c15 c14 c13]; constructor; auto|]; intros j.
  - intros b; cbn [set_large stackLarge]; destruct (Nat.eqb_spec j i) as [->|]; [intros [<-|Ib]; [exists s; auto 6|]|intros Ib]; apply (c10 _ _ Ib).
  - cbn [set_large stackLarge]; destruct (Nat.eqb_spec j i) as [->|]; [constructor; [apply Nl|]|]; apply Wl.
Qed.

Lemma large_free_ok g st gcoff s : settled g st -> In s (p_spans st) -> large s -> loose g (startAddr s) -> (forall i, ~ In (startAddr s) (stackLarge st i)) ->
  exists g' st', large_stack_free gcoff (startAddr s) st = Ret st' /\ steps g st g' st'.
Proof.
  intros S Is L Lo Nl; pose proof S as [[C Wp Wl Ws] Ca]; pose proof (co_shape _ _ C s Is) as Sh; unfold large_stack_free.
  rewrite (find_base g st _ s C Is eq_refl), (sh_state _ Sh); destruct gcoff.
  - unfold freeManual; destruct (sh_kind _ Sh) as [(o & Sm)|(_ & ->)]; [destruct (not_small_large s o Sm L)|]; cbn [negb Z.eqb].
    destruct (forget_large g st s S Is L Lo Nl) as (g' & S'); exists g', (forget s st); auto.
  - pose proof L as (k & Hk & _ & Np); rewrite Np, log2_power by exact Hk; destruct (large_power k Hk) as (_ & _ & B & _).
    rewrite (proj2 (Nat.leb_gt _ _) B), not_listed; [|intros o I; apply (co_pool _ _ C) in I as (t & It & Sm & E & _);
      pose proof (span_by_base g st t s C It Is E); subst t; exact (not_small_large s o Sm L)|exact Nl].
    eexists g, _; split; [reflexivity|]; pose proof (list_large g st s S Is L Lo Nl) as S'; cbv zeta in S'; rewrite Np, log2_power in S' by exact Hk; exact S'.
Qed.

(** [stackfree]. *)
Lemma freed_from g st x n st1 g' st' : (forall y k a, In (y, k) (used g) -> y <> x -> y <= a < y + k -> p_mem st1 a = p_mem st a) ->
  p_returned st1 = p_returned st -> In (x, n) (used g) -> given_back g st1 x g' st' -> given_back g st x g' st'.
Proof. intros K Er Iu [S U E F]; constructor; auto; [unfold remembers in *; rewrite Er in E; exact E|]; intros y k a Iy N Ha; rewrite (F y k a Iy N Ha); apply (K y k a Iy N Ha). Qed.

Lemma stackfree_ok g st gcoff c lo n : settled g st -> In (lo, n) (used g) ->
  exists g' st', stackfree gcoff c lo (lo + n) st = Ret st' /\ given_back g st lo g' st'.
Proof.
  intros S Iu; pose proof S as [[C _ _ _] _]; destruct (co_used _ _ C lo n Iu) as [_ (s & Is & Sx)].
  pose proof (stack_inside s lo n Sx) as (B1 & B2 & B3); destruct (co_shape _ _ C s Is) as [_ B4 _ B5 _]; change (2 ^ 48) with 281474976710656 in B5.
  destruct (sanitized g st lo n S Iu) as (S1 & Cl & K); set (st1 := set_pmem _ st) in *; pose proof S1 as [[C1 _ _ _] _].
  unfold stackfree; replace (lo + n - lo) with n by lia; rewrite (u64_small n), (u64_small (lo + n)) by (unword; lia).
  rewrite (Z.ltb_irrefl (lo + n)); destruct (stack_power s lo n Sx) as (k & Hk & -> & T); rewrite (proj2 (power_mask k Hk)); cbn [negb Z.eqb].
  fold st1; enough (R : exists g' st', (if is_small (2 ^ k)
      then match c with None => stackpoolfree gcoff lo (stack_order (2 ^ k)) st1 | Some p => cached_free gcoff p (stack_order (2 ^ k)) lo (2 ^ k) st1 end
      else large_stack_free gcoff lo st1) = Ret st' /\ given_back g st1 lo g' st').
  { destruct R as (g' & st' & E & F); exists g', st'; split; [exact E|exact (freed_from g st lo (2 ^ k) st1 g' st' K eq_refl Iu F)]. }
  destruct (unuse_ok g st1 lo (2 ^ k) S1 Iu Cl) as [S2 Lo]; destruct (Z.leb_spec k 14) as [Sm|Lg].
  - destruct (small_power k ltac:(lia)) as (-> & Ez & Ho); destruct c as [p|]; [apply (cached_free_ok g st1 gcoff p (stack_order (2 ^ k)) s); auto|].
    destruct (stackpoolfree_ok (out_of_use lo g) st1 gcoff (stack_order (2 ^ k)) lo (se_world _ _ S2)) as (g' & st' & E & M); [constructor; [exact Lo|exists s; split; [exact Is|exact T]]|].
    exists g', st'; split; [exact E|]; apply (freed_steps g st1 lo (2 ^ k) g st1 g' st' (steps_refl _ _ S1) Iu Cl (moves_steps _ _ _ _ S2 M)).
  - destruct (large_power k ltac:(lia)) as (-> & _); destruct T as [L E]; subst lo.
    destruct (large_free_ok (out_of_use (startAddr s) g) st1 gcoff s S2 Is L Lo) as (g' & st' & -> & S3).
    { intros i I; destruct (co_large _ _ C i _ I) as (t & _ & _ & _ & _ & N); apply N; exact (in_map fst _ _ Iu). }
    exists g', st'; split; [reflexivity|]; apply (freed_steps g st1 _ (2 ^ k) g st1 g' st' (steps_refl _ _ S1) Iu Cl S3).
Qed.

(** ** [freeStackSpans] *)

Lemma each_ok (f : Z -> pools -> outcome string pools) (todo : pools -> list Z) :
  (forall g st b, settled g st -> In b (todo st) -> exists g' st', f b st = Ret st' /\ steps g st g' st' /\
    forall b', In b' (todo st) -> b' <> b -> In b' (todo st')) ->
  forall l g st, settled g st -> List.NoDup l -> incl l (todo st) -> exists g' st', each f l st = Ret st' /\ steps g st g' st'.
Proof.
  intros F; induction l as [|b l IH]; intros g st S N Sub; cbn [each]; [eauto using steps_refl|]; inversion N as [|? ? N1 N2]; subst.
  destruct (F g st b S (Sub b (or_introl eq_refl))) as (g1 & st1 & -> & S1 & K); cbn [bind].
  destruct (IH g1 st1 (ss_settled _ _ _ _ S1) N2) as (g2 & st2 & -> & S2).
  - intros x Ix; apply K; [apply Sub; right; exact Ix|intros ->; exact (N1 Ix)].
  - exists g2, st2; split; [reflexivity|exact (steps_trans _ _ _ _ _ _ S1 S2)].
Qed.

Lemma each_all {A} (f : A -> pools -> outcome string pools) (l : list A) :
  (forall g st o, In o l -> settled g st -> exists g' st', f o st = Ret st' /\ steps g st g' st') ->
  forall g st, settled g st -> exists g' st', each f l st = Ret st' /\ steps g st g' st'.
Proof.
  induction l as [|o l IH]; intros F g st S; cbn [each]; [eauto using steps_refl|].
  destruct (F g st o (or_introl eq_refl) S) as (g1 & st1 & -> & S1); cbn [bind].
  destruct (IH (fun g st o Io => F g st o (or_intror Io)) g1 st1 (ss_settled _ _ _ _ S1)) as (g2 & st2 & -> & S2).
  exists g2, st2; split; [reflexivity|exact (steps_trans _ _ _ _ _ _ S1 S2)].
Qed.

Lemma filter_put (s : mspan) (l : list mspan) :
  filter (fun t => negb (startAddr t =? startAddr s)) (map (fun t => if startAddr t =? startAddr s then s else t) l) =
  filter (fun t => negb (startAddr t =? startAddr s)) l.
Proof.
  induction l as [|t l IH]; [reflexivity|]; cbn; destruct (Z.eqb_spec (startAddr t) (startAddr s)) as [E|E].
  - rewrite Z.eqb_refl; exact IH.
  - rewrite (proj2 (Z.eqb_neq _ _) E); cbn; f_equal; exact IH.
Qed.

Lemma free_empty_ok g st o b : settled g st -> In b (stackpool st o) -> exists g' st', free_empty o b st = Ret st' /\ steps g st g' st' /\
  forall b', In b' (stackpool st o) -> b' <> b -> In b' (stackpool st' o).
Proof.
  intros S Ib; pose proof (w_core _ _ (se_world _ _ S)) as C; destruct (proj1 (co_pool _ _ C o b) Ib) as (s & Is & Sm & Eb & _); subst b.
  unfold free_empty; rewrite (find_base g st _ s C Is eq_refl); destruct (Z.eqb_spec (allocCount s) 0) as [Z0|]; [|exists g, st; auto using steps_refl].
  rewrite (pool_remove_in o _ st Ib); cbn [bind]; unfold freeManual; change (allocCount (set_manualFreeList 0 s)) with (allocCount s); rewrite Z0; cbn [negb Z.eqb].
  set (st1 := set_pool o (list_remove (startAddr s) (stackpool st o)) st); eexists _, _; split; [reflexivity|split].
  - apply moves_steps; [exact S|]; apply (release_ok g st s o); auto; [apply S|]; unfold forget; fold st1.
    unfold put_span; cbn [set_pspans p_spans p_mem stackpool stackLarge stackcache p_supply p_returned].
    change (startAddr (set_manualFreeList 0 s)) with (startAddr s); change (npages (set_manualFreeList 0 s)) with (npages s); f_equal.
    apply (filter_put (set_manualFreeList 0 s)).
  - intros b' Ib' N; cbn [stackpool put_span set_pspans st1 set_pool]; rewrite Nat.eqb_refl; apply in_remove; auto.
Qed.

Lemma free_large_ok g st i b : settled g st -> In b (stackLarge st i) -> exists g' st', free_large i b st = Ret st' /\ steps g st g' st' /\
  forall b', In b' (stackLarge st i) -> b' <> b -> In b' (stackLarge st' i).
Proof.
  intros S Ib; destruct (unlist_large g st i b S Ib) as (S1 & Lo & Nl & s & Is & L & Eb & _); subst b.
  set (st1 := set_large i _ st) in *; pose proof (ss_settled _ _ _ _ S1) as T1; pose proof (w_core _ _ (se_world _ _ T1)) as C1.
  destruct (forget_large g st1 s T1 Is L Lo Nl) as (g2 & S2); exists g2, (forget s st1); split; [|split; [exact (steps_trans _ _ _ _ _ _ S1 S2)|]].
  - unfold free_large; rewrite (find_base g st _ s (w_core _ _ (se_world _ _ S)) Is eq_refl); unfold freeManual; fold st1.
    destruct (sh_kind _ (co_shape _ _ C1 s Is)) as [(o & Sm)|(_ & ->)]; [destruct (not_small_large s o Sm L)|reflexivity].
  - intros b' Ib' N; cbn [forget stackLarge st1 set_large]; rewrite Nat.eqb_refl; apply in_remove; auto.
Qed.

Lemma freeStackSpans_ok g st : settled g st -> exists g' st', freeStackSpans st = Ret st' /\ steps g st g' st'.
Proof.
  intros S; unfold freeStackSpans.
  destruct (each_all (fun o st => each (free_empty o) (stackpool st o) st) (seq 0 NumStackOrders)) with (g := g) (st := st) as (g1 & st1 & -> & S1); [|exact S|].
  { intros h u o _ T; apply (each_ok (free_empty o) (fun u => stackpool u o)); auto using incl_refl; [intros; apply free_empty_ok; assumption|apply T]. }
  cbn [bind]; destruct (each_all (fun i st => each (free_large i) (stackLarge st i) st) (seq 0 stackLargeLists)) with (g := g1) (st := st1) as (g2 & st2 & E & S2);
    [|apply S1|exists g2, st2; split; [exact E|exact (steps_trans _ _ _ _ _ _ S1 S2)]].
  intros h u i _ T; apply (each_ok (free_large i) (fun u => stackLarge u i)); auto using incl_refl; [intros; apply free_large_ok; assumption|apply T].
Qed.
