(* ===== verification/StackRun.v ===== *)
(** * The stack pools as a machine

    Over StackLife.v: the pools with the stacks in use and those that were freed, the events
    that change them, and what holds in every state the events can reach. *)

From Stdlib Require Import String ZArith Lia List Bool.
From S2P Require Import Prelude Slices MathBits SysBits MSpan Sweep StackPool StackClean StackLife.
Import ListNotations.
#[local] Open Scope outcome_scope.

(** ** The machine *)

(** [m_freed]: the stacks given to [stackfree] and not handed out since, as long as their pages
    stay with the pools. *)
Record machine : Type := MkMachine { m_pools : pools; m_used : list (Z * Z); m_freed : list (Z * Z) }.

(** [c] is the P whose cache a call may use, [gcoff] that no collection runs. *)
Inductive stack_event : Type :=
| EAlloc (c : option nat) (k : Z)
| EFree (gcoff : bool) (c : option nat) (x n : Z)
| EClear (gcoff : bool) (p : nat)
| ESpans
| ERun (m : memory)
| ESupply (l : list (Z * Z)).

(** The runs of pages that went back to the heap between two states. *)
Definition back (st st' : pools) : list (Z * Z) := firstn (length (p_returned st') - length (p_returned st)) (p_returned st').
Definition stays (l : list (Z * Z)) (p : Z * Z) : bool := negb (existsb (fun r => in_span (fst p) (run_span r)) l).
Definition other (x : Z) (p : Z * Z) : bool := negb (fst p =? x).

(** A stack has a power of two of bytes, from [fixedStack] to what fits an uint32; a stack is freed
    once; goroutines write in their stacks and outside the spans of the pools; the heap answers
    with pages of its own. *)
Definition allowed (e : stack_event) (m : machine) : Prop :=
  match e with
  | EAlloc _ k => 11 <= k <= 31
  | EFree _ _ x n => In (x, n) (m_used m)
  | EClear _ _ | ESpans => True
  | ERun mem => forall s a, In s (p_spans (m_pools m)) -> in_span a s = true -> (forall x n, In (x, n) (m_used m) -> ~ x <= a < x + n) ->
      mem a = p_mem (m_pools m) a
  | ESupply l => supply_ok (p_spans (m_pools m)) l
  end.

Definition act (e : stack_event) (m : machine) : outcome string machine :=
  let st := m_pools m in
  match e with
  | EAlloc c k =>
      let* r := stackalloc c (2 ^ k) st in
      let '(lo, hi, st') := r in
      Ret (MkMachine st' ((lo, hi - lo) :: m_used m) (filter (other lo) (filter (stays (back st st')) (m_freed m))))
  | EFree gcoff c x n =>
      let* st' := stackfree gcoff c x (x + n) st in
      Ret (MkMachine st' (filter (other x) (m_used m)) (filter (stays (back st st')) ((x, n) :: m_freed m)))
  | EClear gcoff p =>
      let* st' := stackcache_clear gcoff p (seq 0 NumStackOrders) st in
      Ret (MkMachine st' (m_used m) (filter (stays (back st st')) (m_freed m)))
  | ESpans => let* st' := freeStackSpans st in Ret (MkMachine st' (m_used m) (filter (stays (back st st')) (m_freed m)))
  | ERun mem => Ret (MkMachine (set_pmem mem st) (m_used m) (m_freed m))
  | ESupply l =>
      Ret (MkMachine (MkPools (p_mem st) (p_spans st) (stackpool st) (stackLarge st) (stackcache st) l (p_returned st)) (m_used m) (m_freed m))
  end.

(** [stackinit]. *)
Definition stackinit (mem : memory) : machine :=
  MkMachine (MkPools mem [] (fun _ => []) (fun _ => []) (fun _ _ => (0, 0)) [] []) [] [].

Inductive stack_reached : machine -> Prop :=
| reach_init mem : stack_reached (stackinit mem)
| reach_step m e m' : stack_reached m -> allowed e m -> act e m = Ret m' -> stack_reached m'.

(** ** The invariant *)

Record good (g : ghost) (m : machine) : Prop := {
  gd_settled : settled g (m_pools m);
  gd_used : used g = m_used m;
  gd_freed : forall p, In p (m_freed m) -> In p (ever g) /\ ~ In (fst p) (map fst (used g));
}.

Lemma good_init mem : good (MkGhost (fun _ => 0) (fun _ => []) [] []) (stackinit mem).
Proof.
  constructor; [|reflexivity|intros p []]; constructor; [constructor|].
  - constructor; try (intros s t x []); cbn; intros; try contradiction; try reflexivity; try apply NoDup_nil.
    split; [contradiction|intros (s & [] & _)].
  - intros o; constructor.
  - intros i; constructor.
  - constructor; cbn; intros; try contradiction; constructor.
  - intros p o; constructor; [reflexivity|reflexivity|discriminate].
Qed.

Lemma back_app st st' l : p_returned st' = l ++ p_returned st -> back st st' = l.
Proof.
  intros E; unfold back; rewrite E, length_app; replace (length l + length (p_returned st) - length (p_returned st))%nat with (length l) by lia.
  rewrite firstn_app, Nat.sub_diag, firstn_all, firstn_O, app_nil_r; reflexivity.
Qed.

Lemma remembered g st g' st' p : remembers g st g' st' -> In p (ever g) -> stays (back st st') p = true -> In p (ever g').
Proof.
  intros (l & E & H) Ip S; apply H; [exact Ip|]; intros r Ir; rewrite (back_app st st' l E) in S; apply negb_true_iff in S.
  apply not_true_iff_false; intros X; apply not_true_iff_false in S; apply S, existsb_exists; exists r; auto.
Qed.

(** The stacks that stay freed over a step that puts none in use. *)
Lemma good_steps g m st' g' : good g m -> steps g (m_pools m) g' st' -> good g' (MkMachine st' (m_used m) (filter (stays (back (m_pools m) st')) (m_freed m))).
Proof.
  intros [S U F] [S' U' R K]; constructor; cbn; [exact S'|congruence|]; intros p Ip; apply filter_In in Ip as [Ip Sp].
  destruct (F p Ip) as [F1 F2]; split; [exact (remembered _ _ _ _ p R F1 Sp)|rewrite U'; exact F2].
Qed.

(** Goroutines write in their stacks. *)
Lemma good_run g m mem : good g m -> allowed (ERun mem) m -> good g (MkMachine (set_pmem mem (m_pools m)) (m_used m) (m_freed m)).
Proof.
  intros [S U F] A; constructor; [|exact U|exact F]; destruct S as [[C Wp Wl Ws] Ca]; constructor; [constructor; auto|exact Ca].
  assert (D : forall y k s a, In s (p_spans (m_pools m)) -> stack_at s y k -> ~ In y (map fst (used g)) -> y <= a < y + k -> mem a = p_mem (m_pools m) a).
  { intros y k s a Is Sy Ny Ha; pose proof (stack_inside s y k Sy) as (B1 & B2 & _); apply (A s a Is); [apply in_span_spec; lia|].
    intros x n Ix Hx; rewrite <- U in Ix; destruct (co_used _ _ C x n Ix) as [_ (t & It & Sx)].
    assert (N : y <> x) by (intros ->; apply Ny; exact (in_map fst _ _ Ix)); destruct (stacks_disjoint _ s y k t x n (co_apart _ _ C) Is It Sy Sx N); lia. }
  apply core_mem; [exact C| |].
  - intros l y Iy; destruct (co_in _ _ C l y Iy) as (s & o & Is & Sy & _); assert (Sy' : stack_at s y (stack_size o)) by (left; eauto).
    apply load64_ext; intros a Ha; apply (D y (stack_size o) s); auto; [|pose proof (stack_inside s y _ Sy'); lia].
    intros Iu; apply in_map_iff in Iu as ([z n] & E & Iu); cbn in E; subst z; destruct (co_used _ _ C y n Iu) as [Nl _]; exact (Nl l Iy).
  - intros y k s Nu Is Sy Cl a Ha; assert (0 <= link_bytes k) by (unfold link_bytes; destruct (is_small k); lia).
    rewrite (D y k s a Is Sy Nu) by lia; apply Cl, Ha.
Qed.

Lemma good_alloc g m c k lo hi st' : good g m -> 11 <= k <= 31 -> stackalloc c (2 ^ k) (m_pools m) = Ret (lo, hi, st') ->
  exists g', in_hand g (m_pools m) lo (2 ^ k) g' st' /\ hi = lo + 2 ^ k /\
    good g' (MkMachine st' ((lo, hi - lo) :: m_used m) (filter (other lo) (filter (stays (back (m_pools m) st')) (m_freed m)))).
Proof.
  intros [S U F] Hk E; pose proof (stackalloc_ok g (m_pools m) c k S Hk) as A; rewrite E in A; destruct A as (-> & g' & A); pose proof A as [S' U' [R _] K _].
  exists g'; split; [exact A|split; [reflexivity|]]; constructor; cbn [m_pools m_used m_freed]; [exact S'|rewrite U', U; do 2 f_equal; lia|].
  intros p Ip; apply filter_In in Ip as [Ip Np]; apply filter_In in Ip as [Ip Sp]; destruct (F p Ip) as [F1 F2].
  split; [exact (remembered _ _ _ _ p R F1 Sp)|]; rewrite U'; intros [E'|I]; [|exact (F2 I)]; cbn in E'.
  unfold other in Np; rewrite <- E', Z.eqb_refl in Np; discriminate.
Qed.

Lemma good_free g m gcoff c x n : good g m -> In (x, n) (m_used m) ->
  exists g' st', stackfree gcoff c x (x + n) (m_pools m) = Ret st' /\ given_back g (m_pools m) x g' st' /\
    good g' (MkMachine st' (filter (other x) (m_used m)) (filter (stays (back (m_pools m) st')) ((x, n) :: m_freed m))).
Proof.
  intros [S U F] Iu; rewrite <- U in Iu; destruct (stackfree_ok g (m_pools m) gcoff c x n S Iu) as (g' & st' & E & Fr); pose proof Fr as [S' U' R K].
  exists g', st'; split; [exact E|split; [exact Fr|]]; constructor; cbn [m_pools m_used m_freed]; [exact S'|rewrite U', U; reflexivity|].
  intros p Ip; apply filter_In in Ip as [Ip Sp]; rewrite U'.
  assert (P : In p (ever g) /\ ~ In (fst p) (map fst (filter (fun p => negb (fst p =? x)) (used g)))).
  { destruct Ip as [<-|Ip]; [split; [apply (co_used_ever _ _ (w_core _ _ (se_world _ _ S))), Iu|]|destruct (F p Ip) as [F1 F2]; split; [exact F1|]].
    - intros I; apply in_map_iff in I as (q & Eq & I); apply filter_In in I as [_ N]; apply negb_true_iff, Z.eqb_neq in N; exact (N Eq).
    - intros I; apply F2; apply in_map_iff in I as (q & Eq & I); apply filter_In in I as [I _]; rewrite <- Eq; apply in_map, I. }
  split; [exact (remembered _ _ _ _ p R (proj1 P) Sp)|exact (proj2 P)].
Qed.

Lemma small_orders : Forall (fun o => (o < NumStackOrders)%nat) (seq 0 NumStackOrders).
Proof. apply Forall_forall; intros o Io; apply in_seq in Io; lia. Qed.

(** Every event keeps the invariant, and only memory can run out. *)
Lemma good_exec g m e : good g m -> allowed e m ->
  match act e m with Ret m' => exists g', good g' m' | Fail err => err = "out of memory"%string /\ (exists c k, e = EAlloc c k) | Panic => False end.
Proof.
  intros G A; destruct e as [c k|gcoff c x n|gcoff p| |mem|l]; cbn [act].
  - pose proof (stackalloc_ok g (m_pools m) c k (gd_settled _ _ G) A) as O; destruct (stackalloc c (2 ^ k) (m_pools m)) as [[[lo hi] st']|err|] eqn:E; cbn [bind].
    + destruct (good_alloc g m c k lo hi st' G A E) as (g' & _ & _ & G'); eauto.
    + eauto.
    + exact O.
  - destruct (good_free g m gcoff c x n G A) as (g' & st' & -> & _ & G'); cbn [bind]; eauto.
  - destruct (stackcache_clear_ok gcoff p _ g (m_pools m) (gd_settled _ _ G) small_orders) as (g' & st' & -> & S); cbn [bind]; eauto using good_steps.
  - destruct (freeStackSpans_ok g (m_pools m) (gd_settled _ _ G)) as (g' & st' & -> & S); cbn [bind]; eauto using good_steps.
  - exists g; apply good_run; assumption.
  - exists g; destruct G as [[[C Wp Wl Ws] Ca] U F]; constructor; [|exact U|exact F]; constructor; [constructor; auto|exact Ca]; destruct C; constructor; assumption.
Qed.

Lemma reachable_good m : stack_reached m -> exists g, good g m.
Proof.
  induction 1 as [mem|m e m' R (g & G) A E]; [eexists; apply good_init|]; pose proof (good_exec g m e G A) as X; rewrite E in X; exact X.
Qed.

(** ** What holds in every reachable state *)

(** C11: A stack that was freed and is not in use again holds zeros beyond the word that may link it
    into a free list, whichever list it is on, until its pages go back to the heap. *)
Theorem freed_stacks_are_clean m x n : stack_reached m -> In (x, n) (m_freed m) -> forall a, x + link_bytes n <= a < x + n -> p_mem (m_pools m) a = 0.
Proof.
  intros R Ix; destruct (reachable_good m R) as (g & [[[C _ _ _] _] _ F]); destruct (F _ Ix) as [Ev Nu]; apply (co_clean _ _ C x n Ev Nu).
Qed.

(** C12: The four operations in every reachable state: [stackalloc] answers with a stack that
    overlaps none in use or is out of memory, [stackfree] clears the stack and both keep the
    contents of the stacks in use; emptying a cache and freeing the unused spans succeed and
    keep them too.  Nothing throws, no loop runs out, nothing is dereferenced that is not there. *)
Theorem stack_calls_correct m : stack_reached m ->
  (forall c k, 11 <= k <= 31 -> match stackalloc c (2 ^ k) (m_pools m) with
     | Ret (lo, hi, st') => hi = lo + 2 ^ k /\ 0 < lo /\ hi < 2 ^ 48 /\ (forall x n, In (x, n) (m_used m) -> hi <= x \/ x + n <= lo) /\
         forall x n a, In (x, n) (m_used m) -> x <= a < x + n -> p_mem st' a = p_mem (m_pools m) a
     | Fail err => err = "out of memory"%string
     | Panic => False
     end) /\
  (forall gcoff c x n, In (x, n) (m_used m) -> exists st', stackfree gcoff c x (x + n) (m_pools m) = Ret st' /\
     forall y k a, In (y, k) (m_used m) -> y <> x -> y <= a < y + k -> p_mem st' a = p_mem (m_pools m) a) /\
  (forall gcoff p, exists st', stackcache_clear gcoff p (seq 0 NumStackOrders) (m_pools m) = Ret st' /\
     forall x n a, In (x, n) (m_used m) -> x <= a < x + n -> p_mem st' a = p_mem (m_pools m) a) /\
  exists st', freeStackSpans (m_pools m) = Ret st' /\ forall x n a, In (x, n) (m_used m) -> x <= a < x + n -> p_mem st' a = p_mem (m_pools m) a.
Proof.
  intros R; destruct (reachable_good m R) as (g & G); pose proof G as [S U F]; rewrite <- U; split; [|split; [|split]].
  - intros c k Hk; pose proof (stackalloc_ok g (m_pools m) c k S Hk) as O; destruct (stackalloc c (2 ^ k) (m_pools m)) as [[[lo hi] st']|err|]; [|exact O|exact O].
    destruct O as (-> & g' & [[[C' _ _ _] _] U' _ K [B1 B2]]); repeat (split; [assumption || reflexivity|]); split; [|exact K].
    assert (I0 : In (lo, 2 ^ k) (used g')) by (rewrite U'; left; reflexivity); pose proof (co_used_nodup _ _ C') as N; rewrite U' in N; inversion N as [|? ? N1 N2]; subst.
    intros x n Ix; assert (Ix' : In (x, n) (used g')) by (rewrite U'; right; exact Ix).
    destruct (co_used _ _ C' _ _ I0) as [_ (s & Is & Sx)], (co_used _ _ C' _ _ Ix') as [_ (t & It & Sy)].
    apply (stacks_disjoint _ s lo (2 ^ k) t x n (co_apart _ _ C') Is It Sx Sy); intros ->; apply N1; exact (in_map fst _ _ Ix).
  - intros gcoff c x n Ix; destruct (stackfree_ok g (m_pools m) gcoff c x n S Ix) as (g' & st' & E & Fr); exists st'; split; [exact E|apply (fr_keeps _ _ _ _ _ Fr)].
  - intros gcoff p; destruct (stackcache_clear_ok gcoff p _ g (m_pools m) S small_orders) as (g' & st' & E & Ss); exists st'; split; [exact E|apply (ss_keeps _ _ _ _ Ss)].
  - destruct (freeStackSpans_ok g (m_pools m) S) as (g' & st' & E & Ss); exists st'; split; [exact E|apply (ss_keeps _ _ _ _ Ss)].
Qed.

(** ** A run *)

Definition final (r : outcome string machine) : machine := match r with Ret m => m | _ => stackinit (fun _ => 0) end.
Definition answers (r : outcome string machine) : bool := match r with Ret _ => true | _ => false end.
Definition after (e : stack_event) (m : machine) : machine := final (act e m).

Lemma reach_after m e : stack_reached m -> allowed e m -> answers (act e m) = true -> stack_reached (after e m).
Proof. intros R A E; apply (reach_step m e _ R A); unfold after; destruct (act e m); [reflexivity|discriminate|discriminate]. Qed.

(** Two stacks are handed out, filled with a byte, and freed during a collection. *)
Definition filled (lo n : Z) (mem : memory) : memory := fun a => if (lo <=? a) && (a <? lo + n) then 0xab else mem a.
Definition sample_supplied : machine := after (ESupply [(40960, 4); (73728, 8)]) (stackinit (fun _ => 1)).
Definition sample_used : machine := after (EAlloc None 16) (after (EAlloc (Some 0%nat) 11) sample_supplied).
Definition sample_filled : machine := after (ERun (filled 73728 65536 (filled 57344 2048 (p_mem (m_pools sample_used))))) sample_used.
Definition sample_freed : machine := after (EFree false None 73728 65536) (after (EFree false None 57344 2048) sample_filled).

Lemma sample_supply : supply_ok [] [(40960, 4); (73728, 8)].
Proof.
  constructor; [|constructor; [constructor; [|constructor]|constructor; [constructor|constructor]]|intros r t _ []].
  - intros r [<-|[<-|[]]]; vm_compute; auto.
  - intros x Hx; apply in_span_spec in Hx; apply not_true_iff_false; rewrite in_span_spec; cbn in *; unfold span_end in *; cbn in *; lia.
Qed.

Lemma sample_used_reachable : stack_reached sample_used.
Proof.
  apply reach_after; [apply reach_after; [apply reach_after; [constructor|exact sample_supply|reflexivity]|cbn [allowed]; lia|vm_compute; reflexivity]|cbn [allowed]; lia|vm_compute; reflexivity].
Qed.

Lemma sample_uses : m_used sample_used = [(73728, 65536); (57344, 2048)].
Proof. vm_compute; reflexivity. Qed.

Lemma filled_allowed m x n y k : m_used m = [(x, n); (y, k)] -> allowed (ERun (filled x n (filled y k (p_mem (m_pools m))))) m.
Proof.
  intros U s a _ _ N; rewrite U in N; pose proof (N x n (or_introl eq_refl)); pose proof (N y k (or_intror (or_introl eq_refl))); unfold filled.
  destruct (Z.leb_spec x a), (Z.ltb_spec a (x + n)); try lia; cbn [andb]; destruct (Z.leb_spec y a), (Z.ltb_spec a (y + k)); try lia; reflexivity.
Qed.

Lemma sample_filled_reachable : stack_reached sample_filled.
Proof. apply reach_after; [exact sample_used_reachable|apply filled_allowed, sample_uses|reflexivity]. Qed.

Lemma sample_freed_reachable : stack_reached sample_freed.
Proof.
  apply reach_after; [apply reach_after; [exact sample_filled_reachable| |vm_compute; reflexivity]| |vm_compute; reflexivity]; cbn [allowed].
  - replace (m_used sample_filled) with [(73728, 65536); (57344, 2048)] by (vm_compute; reflexivity); cbn; auto.
  - replace (m_used (after _ _)) with [(73728, 65536)] by (vm_compute; reflexivity); cbn; auto.
Qed.

Lemma freed_stacks_are_clean_witness : stack_reached sample_freed /\ forall a, 57352 <= a < 59392 -> p_mem (m_pools sample_freed) a = 0.
Proof.
  split; [exact sample_freed_reachable|]; intros a Ha.
  apply (freed_stacks_are_clean sample_freed 57344 2048 sample_freed_reachable); [|exact Ha].
  replace (m_freed sample_freed) with [(73728, 65536); (57344, 2048)] by (vm_compute; reflexivity); cbn; auto.
Defined.

Lemma stack_calls_correct_witness : stack_reached sample_used /\ exists st', stackfree true None 73728 139264 (m_pools sample_used) = Ret st' /\
  forall a, 57344 <= a < 59392 -> p_mem st' a = p_mem (m_pools sample_used) a.
Proof.
  split; [exact sample_used_reachable|]; destruct (stack_calls_correct sample_used sample_used_reachable) as (_ & F & _).
  destruct (F true None 73728 65536) as (st' & E & K); [rewrite sample_uses; cbn; auto|]; exists st'; split; [exact E|].
  intros a Ha; apply (K 57344 2048 a); [rewrite sample_uses; cbn; auto|lia|lia].
Defined.

(** The comment of [stacklog2] says the logarithm; the code answers one more, on both sides of
    the free lists alike. *)
Lemma stacklog2_value n : 0 < n < 2 ^ 64 -> stacklog2 n = Z.log2 n + 1.
Proof.
  intros H; unfold stacklog2; rewrite (proj2 (Z.eqb_neq n 0)), Len64_spec by (unfold is_u64; change W64 with (2 ^ 64); lia).
  unfold bit_length; rewrite (proj2 (Z.eqb_neq n 0)) by lia; reflexivity.
Qed.
